(* ===== verification/_CoqProject ===== *)
-Q . S2P
Prelude.v
MaxHeap.v
Spsc.v
Async.v
Channel.v
Metrics.v
Adapter.v
EventLoop.v
Doubles.v
RateLimit.v
Concurrency.v
Rax.v
ConcurrencyPool.v
CString.v
Net.v
PubSub.v
ConnPool.v
Cluster.v
Chain.v
Work.v
Timer.v
Idle.v
FdLoop.v
Stream.v
StreamSafe.v
FSPoll.v
OtherAdapters.v
Watch.v
Signal.v
Sockets.v
