(* ===== verification/Prelude.v ===== *)
(** * Loopy: a verification development (root file)

    Loopy is an event loop library in C ([src/src/]): a loop over file
    descriptors and timers, and around it channels, wake-ups from other
    threads, timers and idle handles, worker threads, streams, sockets, signals, file
    watching and polling, rate and concurrency limits, publish/subscribe, connection
    pools, a registry of cluster nodes.
    This library is a model of those parts as Rocq functions and step
    relations, with the theorems that make them correct, and where they are
    not, the theorems that say how they go wrong.

    ** How the parts of the program interact

    [loopy.c] owns the table of file events, a max-heap of registered
    descriptors ([loopyMaxHeap.c], for the highest one), an adapter to the
    platform's poll call ([loopyAdapter*.c]), the timer wheel of the datakit
    library, and its metrics ([loopyMetrics.c]).  [loopyAsync.c] is a
    descriptor in the loop that other threads signal.  [loopyChannel.c] puts a
    lock-free ring of one producer and one consumer or a locked ring behind
    one interface and uses an async handle for operations on the loop.  The rate
    and concurrency limiters ([loopyRateLimit.c]), the concurrency pool
    ([loopyConcurrencyPool.c]), publish/subscribe ([loopyPubSub.c]) and the
    connection pool ([loopyConnPool.c]) are used from callbacks and threads
    and keep state of their own.  Handles live on the loop: timers
    ([loopyTimer.c]) wrap those of the wheel, idle, prepare and check handles
    ([loopyIdle.c]) take over its sleep callbacks and its timers, streams
    ([loopyStream.c]), file watches ([loopyWatch.c]) and signals ([loopySignal.c])
    register descriptors for reading and writing, file polling ([loopyFSPoll.c]) a
    timer, and worker threads ([loopyWork.c]) hand their results to it through an
    async handle.  [loopyNet.c] makes the sockets that all this works on.

    ** The files

    - [Prelude.v] (this file): record update, machine words, stateful programs
      and their total-correctness rules ([prog], [wp]), raw memory, rings,
      reachability and schedules, tactics and hint databases.
    - [MaxHeap.v]: [loopyMaxHeap.c].  The array heap with its position map;
      insertion, pop, removal by value against the multiset of its elements.
    - [Spsc.v]: the lock-free ring of [loopyChannel.c], as code
      ([spscTrySend], [spscTryRecv]) and as the step relation of its two
      threads.
    - [Async.v]: [loopyAsync.c].  The pending flag and the eventfd, and any
      number of senders against the loop thread.
    - [Channel.v]: [loopyChannel.c].  The locked ring (also as a step relation
      of any number of threads), the class [BoundedQueue] of what a ring
      promises to the channel, the channel over it, blocking
      operations with the environment's moves as an explicit list of wakes,
      the asynchronous operations, Select.
    - [Metrics.v]: [loopyMetrics.c].
    - [Adapter.v]: the interface [Adapter] between loop and
      platform, with the epoll and select adapters as instances.
    - [OtherAdapters.v]: the kqueue and event-port adapters
      ([loopyAdapterBSD.c], [loopyAdapterSolaris.c]), which do not fulfil [Adapter];
      the theorems say what they do.
    - [EventLoop.v]: [loopy.c] over any adapter: registration, dispatch,
      timers, the main loop, deferred deletion; user programs are functions
      from the history to the next calls.  Each registration carries the memory
      there is for it ([loop_mem]: for the tables, and for the two insertions
      of the heap).
    - [Doubles.v], [RateLimit.v], [Concurrency.v]: [loopyRateLimit.c].  C
      doubles as IEEE binary64; the four algorithms; the limiter; the
      concurrency limiter, also as a step relation.
    - [Rax.v], [ConcurrencyPool.v]: [loopyConcurrencyPool.c] over the class
      [Rax] of the radix tree it calls, over a heap of users, and as a step
      relation.
    - [CString.v], [Net.v]: C strings; address parsing and formatting of
      [loopyNet.c].
    - [Sockets.v]: the functions of [loopyNet.c] on sockets, over a kernel and a
      resolver that are functions of the calls so far, with [errno].
    - [PubSub.v]: [loopyPubSub.c].  Message queues as linked lists in a heap,
      the hub over the class [RaxTopic] of the topic matcher.
    - [ConnPool.v]: [loopyConnPool.c] as stateful programs in an environment
      (clock, callbacks, allocations) that is an oracle.
    - [Cluster.v]: [loopyClusterRegistry.c]: nodes, heartbeats, configuration,
      against a registry of finite maps.
    - [Chain.v]: singly and doubly linked lists in a heap, shared by the next.
    - [Work.v]: [loopyWork.c] as a step relation of the owner and the worker
      threads over a mutex and a condition variable.
    - [Timer.v]: [loopyTimer.c] over the class [FiringWheel]: a wheel with what
      it may fire.
    - [Idle.v]: [loopyIdle.c] for the three kinds of handles, against a registry
      of lists.
    - [FdLoop.v]: the class [FdLoop] of what a handle over a descriptor
      needs of the loop, with the loop of [EventLoop.v] over any adapter and with
      any memory for its heap as an instance, and the loop over select as an
      example that refuses no descriptor below [FD_SETSIZE].
    - [Stream.v], [StreamSafe.v]: [loopyStream.c] over [FdLoop], a kernel that is
      a function of the system calls so far and users whose callbacks call back;
      the invariant and the theorems.
    - [FSPoll.v]: [loopyFSPoll.c] over the class [PeriodWheel], against lists of
      monitors.
    - [Watch.v]: [loopyWatch.c], the inotify build: the table, and the decoding of
      what the kernel writes.
    - [Signal.v]: [loopySignal.c], the signalfd build: the table, the mask and the
      blocked set, against a reference over lists of signals.

    Definitions keep the C names (a record has the name of the struct, a
    constructor that of the enumerator); a field that would clash with another
    has a prefix.  A function on a handle that may be [NULL] takes an option or
    a boolean.  Undefined behaviour (access to freed memory, an index out of
    bounds, a failed assertion, a loop that does not end) is the result [None].
    Failing allocations and system calls are arguments or oracle answers, so
    every theorem covers their failure.

    ** What the theorems show

    - Safety of whole runs: [EventLoop.main_loop_safe] (no undefined behaviour
      for any conforming user program, any kernel, any clock),
      [PubSub.pubsub_hub_safe], [ConnPool.conn_pool_accounts],
      [ConcurrencyPool.pool_accounts], [Timer.timer_safe], [Watch.watch_safe],
      [Signal.signal_safe] and [StreamSafe.stream_safe], for users that keep to the
      rules each states.
    - The loop's views of the watched descriptors: [EventLoop.registration_consistent],
      and [EventLoop.heap_refused_disagrees] and [EventLoop.resize_without_memory]
      for what happens without memory.
    - Concurrency, by invariants of step relations over all interleavings:
      [Spsc.spsc_fifo], [Spsc.spsc_no_race], [Async.async_no_lost_wakeup],
      [Channel.mpmc_fifo], [Concurrency.concurrency_slots],
      [ConcurrencyPool.pool_threads_limits],
      [RateLimit.fixed_window_concurrent_bound], [Work.work_safe] (every item
      is run or cancelled exactly once and called back on the loop),
      [Work.work_rest] and [Work.work_terminates] (nothing waits for ever).
    - Refinement of abstract objects: [Spsc.spsc_bounded_queue] and
      [Channel.channel_fifo_accounts] (queues), the heap operations
      (multisets), [RateLimit.sliding_window_refines_log] (the log of
      requests), [PubSub.pubsub_queue_refines] (a queue, bounded when it drops),
      [Cluster.cluster_refines] (finite maps; a function of the state for each
      operation), [Idle.idle_refines] and [Idle.idle_pass_refines] (lists of
      handles), [FSPoll.fspoll_refines] (lists of monitors),
      [Signal.signal_deliver] (a map of registrations and the signals read).
    - Streams: [StreamSafe.stream_write_order] (writes are sent in order and
      reported once), [StreamSafe.stream_watched],
      [StreamSafe.stream_write_terminates], [StreamSafe.stream_fds]
      (descriptors are not leaked).
    - Sockets: [Sockets.net_connect] and [Sockets.net_server] say which sockets
      are open, bound, connected and listening on every path, those lost included.
    - Functional behaviour, bounds and round trips: dispatch, publication,
      rate limits, table growth, metrics, addresses, events of inotify,
      configurations, signals.
    - Behaviour the code did not mean to have, each with a theorem or lemma
      and a finding: [Concurrency.concurrency_limit_exceeded],
      [EventLoop.delete_before_sleep_unsafe],
      [EventLoop.hangup_not_delivered], [PubSub.pubsub_ack_tail_loses],
      [RateLimit.fixed_window_lockout], [ConnPool.conn_pool_acquire],
      [Sockets.net_connect_refused_true], [Cluster.config_ttl_wraps],
      [StreamSafe.stream_close_in_callback_unsafe],
      [StreamSafe.stream_refused_unwatched], [Timer.timer_double_cancel],
      [Watch.watch_info_dangles], [Signal.signal_zero_registered] and others.  Where
      a theorem has a side condition that the documentation does not ask for, its
      comment names the lemma that shows the code without it.

    ** Bounds and fuel

    Recursion that C writes as a loop is structural on a list, or has fuel:
    the heap's bubbling loops have the size of the heap
    ([heap_loops_unfold] proves their equations without fuel), doubling loops
    32 or 64 steps (sizes are below [2^31] or [2^64]), the pruning loop of the
    sliding window its entry count, the walk over a message queue one more
    than the heap's size, as are the walks over lists of work items, of idle
    handles and managers and of write requests; the loops over idle connections their
    number, decimal formatting 10 digits.  Callbacks within callbacks of a
    stream go three deep ([invoke]): only a shutdown and a close call
    back at once, each once.  The loop that writes a queue out may not end in the
    code either; it runs for a number of rounds that is an argument, as do the loops
    that read inotify and signal descriptors and that accept connections.  Each is shown to be enough by a lemma, or
    the total-correctness theorem that uses it would not hold: running out of
    fuel is [None].

    ** Parameters

    The timer wheel ([TimerWheel]), the kernel's epoll ([EpollKernel]), the
    radix tree ([Rax], with an instance on finite maps), the topic matcher
    ([RaxTopic], with an instance), the result of converting a double that is
    out of range to an integer ([wild]), the environment of a connection pool and
    of the cluster registry ([ClusterEnv]), the wheel as it fires
    ([FiringWheel], [PeriodWheel]), the kernels of kqueue and event ports (their
    documented behaviour), the kernel and the callbacks of streams, watches and
    signals, the numbers that [sigaddset] takes, and of sockets the kernel, the
    resolver and the texts of [strerror] and [inet_ntop].
    Memory order is sequentially consistent at the atomics; the SPSC theorems
    also show that plain accesses to slots never race.

    ** Not modelled

    The io_uring adapter and the file system, pipe, UDP, DNS, TLS, process,
    terminal, memory map and lock wrappers: they translate arguments
    into system calls and library requests, and nearly all their behaviour is
    that of the kernel or of a dependency.  The builds of file watching over kqueue and
    of signals over a pipe are left out, and of the loop the build constants
    ([loopyHasCapability], [loopyAdapterName]) and the four floating-point ratios and
    the text report of its metrics.  Functions that only release memory have no
    counterpart.  Test programs, stress tools and examples are left out. *)

From stdpp Require Export prelude list gmap strings relations.
From stdpp Require Export options.
From Stdlib Require Export ZArith Lia ZifyNat Sorted.

Set Default Goal Selector "!".

(** ** Record update

    [r <| proj := v |>] is the C assignment [r.proj = v]: a copy of [r] in
    which one field changed.  A record type opts in with a [Rebuild]
    instance, its own eta expansion; the setter of each field is computed from
    it when a notation is elaborated. *)

Class Rebuild (R : Type) := rebuild : R -> R.
Class Update {R T : Type} (proj : R -> T) := update : (T -> T) -> R -> R.

Ltac derive_update proj :=
  match type of proj with
  | ?R -> ?T =>
      exact (fun (f : T -> T) (r : R) =>
        ltac:(let t := constr:(rebuild r) in
              let t := eval cbv [rebuild] in t in
              let t := eval lazy beta delta [rebuild] in t in
              let h := eval hnf in t in
              let p := eval pattern (proj r) in h in
              match p with ?F _ => let b := eval cbv beta in (F (f (proj r))) in exact b end))
  end.

#[export] Hint Extern 1 (Update ?proj) => derive_update proj : typeclass_instances.

Declare Scope record_scope.
Delimit Scope record_scope with rec.
Notation "r '<|' p := v '|>'" := (@update _ _ p _ (fun _ => v) r)
  (at level 1, left associativity, p at next level, format "r  '<|' p  :=  v '|>'") : record_scope.
Notation "r '<|' p '::=' f '|>'" := (@update _ _ p _ f r)
  (at level 1, left associativity, p at next level, format "r  '<|' p  ::=  f '|>'") : record_scope.
Open Scope record_scope.

(** ** Machine words

    A [uint64_t] or [size_t] whose wrap-around matters is a [Z] in
    [[0, 2^64)]; each arithmetic operator of the C code on such a value is
    followed by its reduction. *)

Definition w64 : Z := 2 ^ 64.
Definition u64 (z : Z) : Z := z mod w64.
Definition in64 (z : Z) : Prop := (0 <= z < w64)%Z.

Declare Scope word_scope.
Delimit Scope word_scope with word.
Notation "x '+64' y" := (u64 (x + y)) (at level 50, left associativity) : word_scope.
Notation "x '-64' y" := (u64 (x - y)) (at level 50, left associativity) : word_scope.
Notation "x '*64' y" := (u64 (x * y)) (at level 40, left associativity) : word_scope.
Open Scope word_scope.

(** The same at 32 bits. *)
Definition w32 : Z := 2 ^ 32.
Definition u32 (z : Z) : Z := z mod w32.
Definition in32 (z : Z) : Prop := (0 <= z < w32)%Z.

(** An [uint32_t] taken as an [int]. *)
Definition i32 (z : Z) : Z := if (z <? 2 ^ 31)%Z then z else (z - 2 ^ 32)%Z.

Notation "x '+32' y" := (u32 (x + y)) (at level 50, left associativity) : word_scope.
Notation "x '-32' y" := (u32 (x - y)) (at level 50, left associativity) : word_scope.

(** ** Stateful programs

    A C function that changes a store and may run into undefined behaviour
    ([None]).  [wp m Q s]: run from [s], [m] is defined and ends with a result
    and a state that satisfy [Q] (total correctness). *)

Definition prog (S A : Type) : Type := S -> option (A * S).

#[export] Instance prog_ret S : MRet (prog S) := fun A a s => Some (a, s).
#[export] Instance prog_bind S : MBind (prog S) := fun A B k m s =>
  match m s with Some (a, s') => k a s' | None => None end.

Definition undefined {S A} : prog S A := fun _ => None.
Definition get {S} : prog S S := fun s => Some (s, s).
Definition modify {S} (f : S -> S) : prog S unit := fun s => Some (tt, f s).
Definition pwhen {S} (b : bool) (m : prog S unit) : prog S unit := if b then m else mret tt.

Definition wp {S A} (m : prog S A) (Q : A -> S -> Prop) (s : S) : Prop :=
  match m s with Some (a, s') => Q a s' | None => False end.

(** ** Nullable handles

    The public entry points receive a pointer that may be [NULL] and return a
    fixed value then.  [on_handle d p body] is that early return, [body] the
    code after it. *)

Definition on_handle {S A : Type} (d : A) (p : option S) (body : S -> S * A)
    : option S * A :=
  match p with
  | None => (None, d)
  | Some s => let '(s', a) := body s in (Some s', a)
  end.

(** The accessors, which do not change the object. *)
Definition peek_handle {S A : Type} (d : A) (p : option S) (body : S -> A) : A :=
  match p with None => d | Some s => body s end.

(** ** Exchange of two cells of an array *)

Definition lswap {A : Type} (i j : nat) (x y : A) (l : list A) : list A :=
  <[j := x]> (<[i := y]> l).

(** ** Raw memory

    A byte array and the two directions of [memcpy] on it. *)

Abbreviation bytes := (list Byte.byte).

Definition store_at (buf : bytes) (off : nat) (data : bytes) : bytes :=
  take off buf ++ data ++ drop (off + length data) buf.

Definition load_at (buf : bytes) (off n : nat) : bytes := take n (drop off buf).

#[global] Arguments load_at : simpl never.
#[global] Arguments store_at : simpl never.
#[global] Arguments u64 : simpl never.
#[global] Arguments u32 : simpl never.

(** ** Tactics and hint databases *)

Create HintDb loopy.
Create Rewrite HintDb loopy_simpl.

(** Splits the booleans and the [if]s of a goal about executable code. *)
Ltac bool_to_prop :=
  repeat match goal with
  | H : _ && _ = true |- _ => apply andb_true_iff in H as [? ?]
  | H : _ && _ = false |- _ => apply andb_false_iff in H
  | H : _ || _ = true |- _ => apply orb_true_iff in H
  | H : _ || _ = false |- _ => apply orb_false_iff in H as [? ?]
  | H : negb _ = true |- _ => apply negb_true_iff in H
  | H : negb _ = false |- _ => apply negb_false_iff in H
  | H : (_ <=? _)%nat = true |- _ => apply Nat.leb_le in H
  | H : (_ <=? _)%nat = false |- _ => apply Nat.leb_gt in H
  | H : (_ <? _)%nat = true |- _ => apply Nat.ltb_lt in H
  | H : (_ <? _)%nat = false |- _ => apply Nat.ltb_ge in H
  | H : (_ =? _)%nat = true |- _ => apply Nat.eqb_eq in H
  | H : (_ =? _)%nat = false |- _ => apply Nat.eqb_neq in H
  | H : (_ <=? _)%Z = true |- _ => apply Z.leb_le in H
  | H : (_ <=? _)%Z = false |- _ => apply Z.leb_gt in H
  | H : (_ <? _)%Z = true |- _ => apply Z.ltb_lt in H
  | H : (_ <? _)%Z = false |- _ => apply Z.ltb_ge in H
  | H : (_ >=? _)%Z = true |- _ => rewrite Z.geb_leb in H
  | H : (_ >=? _)%Z = false |- _ => rewrite Z.geb_leb in H
  | H : (_ >? _)%Z = true |- _ => rewrite Z.gtb_ltb in H
  | H : (_ >? _)%Z = false |- _ => rewrite Z.gtb_ltb in H
  | H : (_ =? _)%Z = true |- _ => apply Z.eqb_eq in H
  | H : (_ =? _)%Z = false |- _ => apply Z.eqb_neq in H
  end.

(** The value of the left side of an equation, by the virtual machine. *)
Ltac evaluate E :=
  match type of E with
  | ?l = ?r =>
      let v := eval vm_compute in l in
      let E' := fresh in
      assert (E' : l = v) by (vm_cast_no_check (eq_refl v)); rewrite E' in E; clear E'
  end.

Ltac case_if :=
  match goal with
  | |- context [if ?b then _ else _] =>
      lazymatch b with
      | context [if _ then _ else _] => fail
      | _ => destruct b eqn:?
      end
  end; bool_to_prop.

Ltac case_ifs := repeat case_if.

(** ** Lemmas on words *)

Lemma w64_pos : (0 < w64)%Z.
Proof. unfold w64. lia. Qed.

Lemma u64_range z : in64 (u64 z).
Proof. unfold in64, u64. apply Z.mod_pos_bound, w64_pos. Qed.

Lemma u64_small z : in64 z -> u64 z = z.
Proof. unfold in64, u64. intros. by apply Z.mod_small. Qed.

Lemma u64_u64 z : u64 (u64 z) = u64 z.
Proof. apply u64_small, u64_range. Qed.

Lemma u64_add_l a b : (u64 a +64 b) = (a +64 b).
Proof. unfold u64. by rewrite Zplus_mod_idemp_l. Qed.

Lemma u64_add_r a b : (a +64 u64 b) = (a +64 b).
Proof. unfold u64. by rewrite Zplus_mod_idemp_r. Qed.

Lemma u64_sub_l a b : (u64 a -64 b) = (a -64 b).
Proof. unfold u64. by rewrite Zminus_mod_idemp_l. Qed.

Lemma u64_sub_r a b : (a -64 u64 b) = (a -64 b).
Proof. unfold u64. by rewrite Zminus_mod_idemp_r. Qed.

Lemma u32_range z : in32 (u32 z).
Proof. unfold in32, u32. by apply Z.mod_pos_bound. Qed.

Lemma u32_small z : in32 z -> u32 z = z.
Proof. unfold in32, u32. intros. by apply Z.mod_small. Qed.

Lemma u32_add_l a b : (u32 a +32 b) = (a +32 b).
Proof. unfold u32. by rewrite Zplus_mod_idemp_l. Qed.

Lemma u32_sub_l a b : (u32 a -32 b) = (a -32 b).
Proof. unfold u32. by rewrite Zminus_mod_idemp_l. Qed.

Lemma i32_signed z : (- 2 ^ 31 <= z < 2 ^ 31)%Z -> i32 (z mod 2 ^ 32) = z.
Proof.
  intros Hz. unfold i32. destruct (Z.ltb_spec z 0) as [Hn|Hn].
  - replace (z mod 2 ^ 32)%Z with (z + 2 ^ 32)%Z by (symmetry; rewrite <- (Z.mod_add z 1) by lia; apply Z.mod_small; lia).
    destruct (Z.ltb_spec (z + 2 ^ 32) (2 ^ 31)); lia.
  - rewrite Z.mod_small by lia. destruct (Z.ltb_spec z (2 ^ 31)); lia.
Qed.

(** ** Rules for stateful programs *)

Section Wp.
Context {S A B : Type}.
Implicit Types (s : S).

Lemma wp_ret (a : A) (Q : A -> S -> Prop) s : Q a s -> wp (mret a) Q s.
Proof. done. Qed.

Lemma wp_bind (m : prog S A) (k : A -> prog S B) Q s :
  wp m (fun a => wp (k a) Q) s -> wp (m ≫= k) Q s.
Proof. unfold wp, mbind, prog_bind. by destruct (m s) as [[a s']|]. Qed.

Lemma wp_bind_inv (m : prog S A) (k : A -> prog S B) Q s :
  wp (m ≫= k) Q s -> wp m (fun a => wp (k a) Q) s.
Proof. unfold wp, mbind, prog_bind. by destruct (m s) as [[a s']|]. Qed.

Lemma wp_mono (m : prog S A) (P Q : A -> S -> Prop) s :
  wp m P s -> (forall a s', P a s' -> Q a s') -> wp m Q s.
Proof. unfold wp. destruct (m s) as [[a s']|]; [auto|done]. Qed.

Lemma wp_seq (m : prog S A) (k : A -> prog S B) P Q s :
  wp m P s -> (forall a s', P a s' -> wp (k a) Q s') -> wp (m ≫= k) Q s.
Proof. intros H1 H2. apply wp_bind. by eapply wp_mono. Qed.

Lemma wp_get Q s : Q s s -> wp get Q s.
Proof. done. Qed.

Lemma wp_modify f (Q : unit -> S -> Prop) s : Q tt (f s) -> wp (modify f) Q s.
Proof. done. Qed.

Lemma wp_run (m : prog S A) Q s : wp m Q s -> exists a s', m s = Some (a, s') /\ Q a s'.
Proof. unfold wp. destruct (m s) as [[a s']|]; [eauto|done]. Qed.
End Wp.

#[export] Hint Resolve w64_pos u64_range u32_range : loopy.
#[export] Hint Rewrite u64_u64 u64_add_l u64_add_r u64_sub_l u64_sub_r : loopy_simpl.

(** Masking with [2^k - 1] is reduction modulo [2^k], also after the counter
    itself wrapped around. *)
Lemma u64_land_mask z k : (0 <= k <= 64)%Z -> Z.land (u64 z) (2 ^ k - 1) = (z mod 2 ^ k)%Z.
Proof.
  intros Hk. rewrite Z.sub_1_r, <- Z.ones_equiv, Z.land_ones by lia.
  unfold u64, w64. apply Z.mod_mod_divide.
  exists (2 ^ (64 - k))%Z. rewrite <- Z.pow_add_r by lia. f_equal. lia.
Qed.

(** ** Lemmas on lists *)

Lemma filter_all {A} (P : A -> Prop) `{forall x, Decision (P x)} (l : list A) : Forall P l -> filter P l = l.
Proof. induction 1; [done|]. rewrite filter_cons_True by done. by f_equal. Qed.

Lemma filter_none {A} (P : A -> Prop) `{forall x, Decision (P x)} (l : list A) :
  Forall (fun x => ~ P x) l -> filter P l = [].
Proof. induction 1; [done|]. by rewrite filter_cons_False by done. Qed.

(** ** Lemmas on raw memory *)

Lemma store_at_length buf off data :
  off + length data <= length buf -> length (store_at buf off data) = length buf.
Proof. intros. unfold store_at. rewrite !length_app, length_take, length_drop. lia. Qed.

Lemma load_store_same buf off data :
  off + length data <= length buf -> load_at (store_at buf off data) off (length data) = data.
Proof.
  intros. unfold load_at, store_at. rewrite drop_app_length'; [|rewrite length_take; lia].
  by rewrite take_app_length.
Qed.

Lemma load_store_disjoint buf off data off' n :
  off + length data <= length buf -> off' + n <= length buf ->
  off' + n <= off \/ off + length data <= off' ->
  load_at (store_at buf off data) off' n = load_at buf off' n.
Proof.
  intros Hb Hb' Hd. apply list_eq_same_length with (n := n).
  - unfold load_at. rewrite length_take, length_drop. lia.
  - unfold load_at. rewrite length_take, length_drop, store_at_length; lia.
  - intros i x y Hi. unfold load_at, store_at.
    rewrite !lookup_take_lt, !lookup_drop by done. intros Hx Hy.
    assert (E : (take off buf ++ data ++ drop (off + length data) buf) !! (off' + i) = buf !! (off' + i)).
    { destruct Hd.
      - rewrite lookup_app_l by (rewrite length_take; lia). by rewrite lookup_take_lt by lia.
      - rewrite !lookup_app_r by (rewrite ?length_take; lia). rewrite lookup_drop.
        f_equal. rewrite length_take. lia. }
    congruence.
Qed.

(** ** Lemmas on exchanged cells *)

Section Lswap.
Context {A : Type} `{Inhabited A}.
Implicit Types (l : list A) (x y : A).

Lemma lswap_length i j x y l : length (lswap i j x y l) = length l.
Proof. unfold lswap. by rewrite !length_insert. Qed.

Lemma lswap_lookup i j x y l k :
  i < length l -> j < length l ->
  lswap i j x y l !!! k =
    if decide (k = j) then x else if decide (k = i) then y else l !!! k.
Proof.
  intros Hi Hj. unfold lswap. destruct (decide (k = j)) as [->|Hkj].
  - apply list_lookup_total_insert_eq. by rewrite length_insert.
  - rewrite list_lookup_total_insert_ne; [|done].
    destruct (decide (k = i)) as [->|Hki].
    + by apply list_lookup_total_insert_eq.
    + by apply list_lookup_total_insert_ne.
Qed.

Lemma lswap_Permutation i j l x y :
  l !! i = Some x -> l !! j = Some y -> lswap i j x y l ≡ₚ l.
Proof.
  intros Hi Hj. apply Permutation_inj. split; [apply lswap_length|].
  exists (fun k => if decide (k = i) then j else if decide (k = j) then i else k).
  split.
  - intros a b. repeat case_decide; naive_solver.
  - intros k. unfold lswap.
    assert (i < length l) by eauto using lookup_lt_Some.
    assert (j < length l) by eauto using lookup_lt_Some.
    destruct (decide (k = j)) as [->|Hkj].
    + rewrite list_lookup_insert_eq by (rewrite length_insert; lia).
      case_decide; subst; [by rewrite Hj in Hi; congruence|]. done.
    + rewrite list_lookup_insert_ne by done. case_decide; subst.
      * by rewrite list_lookup_insert_eq, Hj by lia.
      * by rewrite list_lookup_insert_ne by done.
Qed.
End Lswap.

(** ** Rings

    The position of the [i]-th oldest element of a ring of [cap] cells whose
    oldest element is at [tail]. *)

Definition ring_index (cap tail i : nat) : nat := (tail + i) mod cap.

Lemma ring_index_lt cap tail i : 1 <= cap -> ring_index cap tail i < cap.
Proof. intros. apply Nat.mod_upper_bound. lia. Qed.

Lemma ring_index_inj cap tail i j : i < j < i + cap -> ring_index cap tail i <> ring_index cap tail j.
Proof.
  unfold ring_index. intros Hij E.
  pose proof (Nat.div_mod_eq (tail + i) cap). pose proof (Nat.div_mod_eq (tail + j) cap).
  assert (cap * ((tail + j) / cap) = cap * ((tail + i) / cap) + (j - i)) by lia.
  assert ((tail + j) / cap <= (tail + i) / cap \/ (tail + i) / cap + 1 <= (tail + j) / cap) by lia. nia.
Qed.

Lemma ring_index_shift cap tail i : ring_index cap ((tail + 1) mod cap) i = ring_index cap tail (S i).
Proof. unfold ring_index. rewrite Nat.Div0.add_mod_idemp_l. f_equal. lia. Qed.

Lemma ring_index_next cap tail i : (ring_index cap tail i + 1) mod cap = ring_index cap tail (S i).
Proof. unfold ring_index. rewrite Nat.Div0.add_mod_idemp_l. f_equal. lia. Qed.

Lemma ring_index_0 cap tail : tail < cap -> ring_index cap tail 0 = tail.
Proof. intros. unfold ring_index. rewrite Nat.add_0_r. by apply Nat.mod_small. Qed.

(** ** Weighted counts of a list of threads *)

Lemma sum_list_with_insert {A} (f : A -> nat) (l : list A) i x y :
  l !! i = Some x -> sum_list_with f (<[i := y]> l) + f x = sum_list_with f l + f y.
Proof.
  revert i. induction l as [|z l IH]; intros [|i] Hi; simpl in *; simplify_eq; [lia|].
  specialize (IH _ Hi). lia.
Qed.

Lemma sum_list_with_lookup {A} (f : A -> nat) (l : list A) i x :
  l !! i = Some x -> f x <= sum_list_with f l.
Proof.
  revert i. induction l as [|z l IH]; intros [|i] Hi; simpl in *; simplify_eq; [lia|].
  specialize (IH _ Hi). lia.
Qed.

Lemma sum_list_with_replicate {A} (f : A -> nat) n x : sum_list_with f (replicate n x) = n * f x.
Proof. induction n; simpl; lia. Qed.

(** ** Reachability

    Components with several actors are step relations; their safety is an
    invariant of the reflexive transitive closure [rtc]. *)

Lemma rtc_invariant {S : Type} (step : relation S) (I : S -> Prop) s s' :
  (forall a b, I a -> step a b -> I b) -> I s -> rtc step s s' -> I s'.
Proof. intros Hp Hs Hr. induction Hr; eauto. Qed.

(** A schedule: a list of actions, run one after the other by an executable
    step function.  It witnesses reachability in the step relation. *)
Section Schedule.
Context {S A : Type} (act : S -> A -> option S).

Fixpoint schedule (s : S) (acts : list A) : option S :=
  match acts with
  | [] => Some s
  | a :: acts => s ← act s a; schedule s acts
  end.

Lemma schedule_rtc (step : relation S) (ok : A -> Prop) acts s s' :
  (forall s a s', ok a -> act s a = Some s' -> step s s') ->
  Forall ok acts -> schedule s acts = Some s' -> rtc step s s'.
Proof.
  intros Hstep Hok. revert s. induction Hok as [|a acts Ha Hok IH]; intros s E; simpl in E.
  { by injection E as <-. }
  destruct (act s a) as [s1|] eqn:Ea; [|done]. eapply rtc_l; [by eapply Hstep|]. by apply IH.
Qed.
End Schedule.
