(* ===== verification/MaxHeap.v ===== *)
(** * The indexed max-heap of [src/loopyMaxHeap.c] and [src/loopyMaxHeap.h]

    State: [loopyMaxHeap], a 1-indexed array [hp_data] (cell 0 unused), a
    position map [hp_posMap] from a non-negative value to its index (0 when
    unknown), the number of elements and the two capacities.  The null pointer
    of [data] and [posMap] is the empty list: an allocated array has at least
    one cell.  [zmalloc]-family calls return the outcome passed as a boolean
    argument; cells the allocator leaves uninitialised hold the section
    variable [junk], about which nothing is assumed.

    Definitions first; then the shape lemmas, the heap-order lemmas of the two
    bubbling loops, and the contract of each operation against the multiset of
    its elements. *)

From S2P Require Import Prelude.

(** ** Data *)

(** [loopyHeapValue] is [int32_t]. *)
Definition loopyHeapValue : Type := Z.

Record loopyHeapPosEntry := PosEntry {
  pe_value : loopyHeapValue;
  pe_heapIndex : nat
}.

Record loopyMaxHeap := MaxHeapS {
  hp_data : list loopyHeapValue;
  hp_posMap : list loopyHeapPosEntry;
  hp_size : nat;
  hp_capacity : nat;
  hp_posMapSize : nat;
  hp_allocated : bool
}.

#[export] Instance PosEntry_rebuild : Rebuild loopyHeapPosEntry :=
  fun e => PosEntry (pe_value e) (pe_heapIndex e).
#[export] Instance MaxHeap_rebuild : Rebuild loopyMaxHeap :=
  fun h => MaxHeapS (hp_data h) (hp_posMap h) (hp_size h) (hp_capacity h)
             (hp_posMapSize h) (hp_allocated h).

(** What [memset(p, 0, n)] leaves in an entry. *)
Definition zeroEntry : loopyHeapPosEntry := PosEntry 0%Z 0.
#[export] Instance PosEntry_inhabited : Inhabited loopyHeapPosEntry := populate zeroEntry.

Definition LOOPY_HEAP_EMPTY_VALUE : loopyHeapValue := (-1)%Z.

(** ** Internal helpers *)

Definition PARENT (i : nat) : nat := Nat.shiftr i 1.
Definition LEFT (i : nat) : nat := Nat.shiftl i 1.
Definition RIGHT (i : nat) : nat := Nat.lor (Nat.shiftl i 1) 1.

(** [heap->data[i]] *)
Definition cell (h : loopyMaxHeap) (i : nat) : loopyHeapValue := hp_data h !!! i.

(** [value >= 0 && (size_t)value < heap->posMapSize] *)
Definition tracked (h : loopyMaxHeap) (v : loopyHeapValue) : bool :=
  (0 <=? v)%Z && (Z.to_nat v <? hp_posMapSize h).

(** The guarded store [heap->posMap[v].heapIndex = idx]. *)
Definition setIndex (h : loopyMaxHeap) (v : loopyHeapValue) (idx : nat) : loopyMaxHeap :=
  if tracked h v
  then h <| hp_posMap ::= alter (fun e => e <| pe_heapIndex := idx |>) (Z.to_nat v) |>
  else h.

Definition heapSwap (h : loopyMaxHeap) (i j : nat) : loopyMaxHeap :=
  let vi := cell h i in
  let vj := cell h j in
  let h := h <| hp_data ::= lswap i j vi vj |> in
  let h := setIndex h vi j in
  setIndex h vj i.

(** The loops carry fuel; [heapBubbleUp_unfold] and [heapBubbleDown_unfold]
    show that the fuel chosen below is never exhausted. *)
Fixpoint bubbleUpLoop (fuel : nat) (h : loopyMaxHeap) (i : nat) : loopyMaxHeap :=
  match fuel with
  | 0 => h
  | S fuel =>
      if 1 <? i then
        let p := PARENT i in
        if (cell h i <=? cell h p)%Z then h
        else bubbleUpLoop fuel (heapSwap h i p) p
      else h
  end.

Definition heapBubbleUp (h : loopyMaxHeap) (i : nat) : loopyMaxHeap :=
  bubbleUpLoop i h i.

Definition largestOf (h : loopyMaxHeap) (i : nat) : nat :=
  let left := LEFT i in
  let right := RIGHT i in
  let largest := i in
  let largest :=
    if (left <=? hp_size h) && (cell h largest <? cell h left)%Z then left else largest in
  if (right <=? hp_size h) && (cell h largest <? cell h right)%Z then right else largest.

Fixpoint bubbleDownLoop (fuel : nat) (h : loopyMaxHeap) (i : nat) : loopyMaxHeap :=
  match fuel with
  | 0 => h
  | S fuel =>
      let largest := largestOf h i in
      if largest =? i then h
      else bubbleDownLoop fuel (heapSwap h i largest) largest
  end.

Definition heapBubbleDown (h : loopyMaxHeap) (i : nat) : loopyMaxHeap :=
  bubbleDownLoop (S (hp_size h)) h i.

(** [while (newSize < needed) newSize *= 2;] *)
Fixpoint doubleUntil (fuel newSize needed : nat) : nat :=
  match fuel with
  | 0 => newSize
  | S fuel => if newSize <? needed then doubleUntil fuel (newSize * 2) needed else newSize
  end.

Definition posMapNewSize (posMapSize needed : nat) : nat :=
  let newSize := if posMapSize =? 0 then 16 else posMapSize * 2 in
  doubleUntil needed newSize needed.

Definition ensurePosMapCapacity (reallocOk : bool) (h : loopyMaxHeap) (v : loopyHeapValue)
    : loopyMaxHeap * bool :=
  if (v <? 0)%Z then (h, true)
  else
    let needed := Z.to_nat v + 1 in
    if needed <=? hp_posMapSize h then (h, true)
    else
      let newSize := posMapNewSize (hp_posMapSize h) needed in
      if negb reallocOk then (h, false)
      else
        (h <| hp_posMap ::= (fun l => l ++ replicate (newSize - hp_posMapSize h) zeroEntry) |>
           <| hp_posMapSize := newSize |>, true).

(** ** Lifecycle *)

Definition loopyMaxHeapInit (dataOk posOk : bool) (h : loopyMaxHeap) (initialCapacity : nat)
    : loopyMaxHeap * bool :=
  let wasAllocated := hp_allocated h in
  let h := MaxHeapS [] [] 0 0 0 wasAllocated in
  let initialCapacity := if initialCapacity =? 0 then 16 else initialCapacity in
  if negb dataOk then (h, false)
  else if negb posOk then (h, false)
  else (MaxHeapS (replicate (initialCapacity + 1) 0%Z) (replicate initialCapacity zeroEntry)
          0 initialCapacity initialCapacity wasAllocated, true).

Definition loopyMaxHeapNew (structOk dataOk posOk : bool) (initialCapacity : nat)
    : option loopyMaxHeap :=
  if negb structOk then None
  else
    let '(h, ok) := loopyMaxHeapInit dataOk posOk (MaxHeapS [] [] 0 0 0 true) initialCapacity in
    if ok then Some h else None.

Definition loopyMaxHeapInited (p : option loopyMaxHeap) : bool :=
  match p with
  | None => false
  | Some h => match hp_data h with [] => false | _ => true end
  end.

Definition loopyMaxHeapDeinit (h : loopyMaxHeap) : loopyMaxHeap :=
  MaxHeapS [] [] 0 0 0 (hp_allocated h).

(** [None]: the structure itself was returned to the allocator. *)
Definition loopyMaxHeapFree (p : option loopyMaxHeap) : option loopyMaxHeap :=
  match p with
  | None => None
  | Some h =>
      let h := loopyMaxHeapDeinit h in
      if hp_allocated h then None else Some h
  end.

(** ** Core operations *)

Section Operations.
Variable junk : loopyHeapValue.

Definition heapGrow (reallocOk : bool) (h : loopyMaxHeap) : loopyMaxHeap * bool :=
  let newCapacity := if hp_capacity h =? 0 then 16 else hp_capacity h * 2 in
  if negb reallocOk then (h, false)
  else (h <| hp_data ::= resize (newCapacity + 1) junk |>
          <| hp_capacity := newCapacity |>, true).

(** [loopyMaxHeapInsert] after its null check. *)
Definition heapInsert (growOk posOk : bool) (v : loopyHeapValue) (h : loopyMaxHeap)
    : loopyMaxHeap * bool :=
  let '(h, ok) := if hp_capacity h <=? hp_size h then heapGrow growOk h else (h, true) in
  if negb ok then (h, false)
  else
    let '(h, ok) := ensurePosMapCapacity posOk h v in
    if negb ok then (h, false)
    else
      let i := S (hp_size h) in
      let h := h <| hp_size := i |> <| hp_data ::= <[i := v]> |> in
      let h := if tracked h v
               then h <| hp_posMap ::= <[Z.to_nat v := PosEntry v i]> |> else h in
      (heapBubbleUp h i, true).

Definition loopyMaxHeapInsert (growOk posOk : bool) (p : option loopyMaxHeap)
    (v : loopyHeapValue) : option loopyMaxHeap * bool :=
  on_handle false p (heapInsert growOk posOk v).
End Operations.

Definition heapPeek (h : loopyMaxHeap) : loopyHeapValue :=
  if hp_size h =? 0 then LOOPY_HEAP_EMPTY_VALUE else cell h 1.

Definition loopyMaxHeapPeek (p : option loopyMaxHeap) : loopyHeapValue :=
  peek_handle LOOPY_HEAP_EMPTY_VALUE p heapPeek.

Definition heapPop (h : loopyMaxHeap) : loopyMaxHeap * loopyHeapValue :=
  if hp_size h =? 0 then (h, LOOPY_HEAP_EMPTY_VALUE)
  else
    let max := cell h 1 in
    let h := setIndex h max 0 in
    let h :=
      if 1 <? hp_size h then
        let last := cell h (hp_size h) in
        let h := h <| hp_data ::= <[1 := last]> |> in
        setIndex h last 1
      else h in
    let h := h <| hp_size ::= pred |> in
    let h := if 0 <? hp_size h then heapBubbleDown h 1 else h in
    (h, max).

Definition loopyMaxHeapPop (p : option loopyMaxHeap) : option loopyMaxHeap * loopyHeapValue :=
  on_handle LOOPY_HEAP_EMPTY_VALUE p heapPop.

(** [for (j = 1; j <= size; j++) if (data[j] == value) ...]; called with
    [n = size] and [j = 1]. *)
Fixpoint linearSearch (h : loopyMaxHeap) (v : loopyHeapValue) (n j : nat) : option nat :=
  match n with
  | 0 => None
  | S n => if (cell h j =? v)%Z then Some j else linearSearch h v n (S j)
  end.

(** The index the position map holds for [v], 0 when it holds none. *)
Definition mappedIndex (h : loopyMaxHeap) (v : loopyHeapValue) : nat :=
  if tracked h v then pe_heapIndex (hp_posMap h !!! Z.to_nat v) else 0.

(** The index [loopyMaxHeapRemove] settles on; 0 means "return false". *)
Definition removeIndex (h : loopyMaxHeap) (v : loopyHeapValue) : nat :=
  let i := mappedIndex h v in
  if (i =? 0) || (hp_size h <? i) || negb (cell h i =? v)%Z then
    match linearSearch h v (hp_size h) 1 with
    | Some j => j
    | None => i
    end
  else i.

Definition heapRemove (v : loopyHeapValue) (h : loopyMaxHeap) : loopyMaxHeap * bool :=
  if hp_size h =? 0 then (h, false)
  else
    let i := removeIndex h v in
    if i =? 0 then (h, false)
    else
      let h := setIndex h v 0 in
      if i =? hp_size h then (h <| hp_size ::= pred |>, true)
      else
        let last := cell h (hp_size h) in
        let h := h <| hp_data ::= <[i := last]> |> <| hp_size ::= pred |> in
        let h := setIndex h last i in
        if (1 <? i) && (cell h (PARENT i) <? cell h i)%Z
        then (heapBubbleUp h i, true)
        else (heapBubbleDown h i, true).

Definition loopyMaxHeapRemove (p : option loopyMaxHeap) (v : loopyHeapValue)
    : option loopyMaxHeap * bool :=
  on_handle false p (heapRemove v).

Definition heapContains (v : loopyHeapValue) (h : loopyMaxHeap) : bool :=
  if hp_size h =? 0 then false
  else
    let idx := mappedIndex h v in
    if tracked h v && (0 <? idx) && (idx <=? hp_size h) && (cell h idx =? v)%Z then true
    else match linearSearch h v (hp_size h) 1 with Some _ => true | None => false end.

Definition loopyMaxHeapContains (p : option loopyMaxHeap) (v : loopyHeapValue) : bool :=
  peek_handle false p (heapContains v).

(** ** Utility *)

Definition loopyMaxHeapIsEmpty (p : option loopyMaxHeap) : bool :=
  peek_handle true p (fun h => hp_size h =? 0).

Definition loopyMaxHeapSize (p : option loopyMaxHeap) : nat := peek_handle 0 p hp_size.

Definition loopyMaxHeapCapacity (p : option loopyMaxHeap) : nat := peek_handle 0 p hp_capacity.

Definition loopyMaxHeapReserve (junk : loopyHeapValue) (reallocOk : bool)
    (p : option loopyMaxHeap) (capacity : nat) : option loopyMaxHeap * bool :=
  on_handle false p (fun h =>
    if capacity <=? hp_capacity h then (h, true)
    else if negb reallocOk then (h, false)
    else (h <| hp_data ::= resize (capacity + 1) junk |> <| hp_capacity := capacity |>, true)).

Definition loopyMaxHeapClear (p : option loopyMaxHeap) : option loopyMaxHeap :=
  match p with
  | None => None
  | Some h =>
      Some (h <| hp_posMap ::= fmap (fun _ => zeroEntry) |> <| hp_size := 0 |>)
  end.

(** ** Specification vocabulary *)

(** The elements, in array order. *)
Definition elems (h : loopyMaxHeap) : list loopyHeapValue :=
  take (hp_size h) (drop 1 (hp_data h)).

Record heap_shape (h : loopyMaxHeap) : Prop := {
  sh_data : length (hp_data h) = S (hp_capacity h);
  sh_size : hp_size h <= hp_capacity h;
  sh_pos : length (hp_posMap h) = hp_posMapSize h
}.

(** No element exceeds its parent. *)
Definition heap_ordered (h : loopyMaxHeap) : Prop :=
  forall k, 2 <= k <= hp_size h -> (cell h k <= cell h (PARENT k))%Z.

(** A position the map holds is right. *)
Definition pos_sound (h : loopyMaxHeap) : Prop :=
  forall v, mappedIndex h v <> 0 ->
    mappedIndex h v <= hp_size h /\ cell h (mappedIndex h v) = v.

Record heap_wf (h : loopyMaxHeap) : Prop := {
  wf_shape : heap_shape h;
  wf_order : heap_ordered h;
  wf_pos : pos_sound h
}.

(** The order holds except between [i] and its parent; the children of [i]
    are below the parent of [i]. *)
Definition up_ok (h : loopyMaxHeap) (i : nat) : Prop :=
  (forall k, 2 <= k <= hp_size h -> k <> i -> (cell h k <= cell h (PARENT k))%Z) /\
  (forall c, 2 <= c <= hp_size h -> PARENT c = i -> 2 <= i ->
     (cell h c <= cell h (PARENT i))%Z).

(** The order holds except between [i] and its children, which are below the
    parent of [i]. *)
Definition down_ok (h : loopyMaxHeap) (i : nat) : Prop :=
  (forall k, 2 <= k <= hp_size h -> PARENT k <> i -> (cell h k <= cell h (PARENT k))%Z) /\
  (forall c, 2 <= c <= hp_size h -> PARENT c = i -> 2 <= i ->
     (cell h c <= cell h (PARENT i))%Z).

(** [h'] has the elements of [h] in some order, in arrays of the same size. *)
Record heap_rearranged (h h' : loopyMaxHeap) : Prop := {
  ra_size : hp_size h' = hp_size h;
  ra_capacity : hp_capacity h' = hp_capacity h;
  ra_posMapSize : hp_posMapSize h' = hp_posMapSize h;
  ra_allocated : hp_allocated h' = hp_allocated h;
  ra_elems : elems h' ≡ₚ elems h
}.

(** ** Index arithmetic *)

Lemma PARENT_div i : PARENT i = i / 2.
Proof. unfold PARENT. by rewrite Nat.shiftr_div_pow2. Qed.

Lemma LEFT_mul i : LEFT i = 2 * i.
Proof. unfold LEFT. rewrite Nat.shiftl_mul_pow2. simpl. lia. Qed.

Lemma RIGHT_mul i : RIGHT i = 2 * i + 1.
Proof.
  unfold RIGHT. rewrite Nat.shiftl_mul_pow2. change (2 ^ 1) with 2.
  rewrite (Nat.mul_comm i 2).
  assert (E : Nat.land (2 * i) 1 = 0).
  { change 1 with (Nat.ones 1). rewrite Nat.land_ones. change (2 ^ 1) with 2.
    rewrite Nat.mul_comm. by apply Nat.Div0.mod_mul. }
  rewrite <- Nat.lxor_lor by done. by rewrite <- Nat.add_nocarry_lxor.
Qed.

#[export] Hint Rewrite PARENT_div LEFT_mul RIGHT_mul : loopy_simpl.

(** Arithmetic goals that mention parents and children. *)
Ltac heap_lia :=
  autorewrite with loopy_simpl in *; zify; Z.to_euclidean_division_equations; lia.

(** ** Shape: what the stores change *)

Lemma tracked_spec h v :
  tracked h v = true <-> (0 <= v)%Z /\ Z.to_nat v < hp_posMapSize h.
Proof. unfold tracked. rewrite andb_true_iff, Z.leb_le, Nat.ltb_lt. done. Qed.

Section SetIndex.
Context (h : loopyMaxHeap) (v : loopyHeapValue) (idx : nat).

Lemma setIndex_data : hp_data (setIndex h v idx) = hp_data h.
Proof. unfold setIndex. by destruct (tracked h v). Qed.
Lemma setIndex_size : hp_size (setIndex h v idx) = hp_size h.
Proof. unfold setIndex. by destruct (tracked h v). Qed.
Lemma setIndex_capacity : hp_capacity (setIndex h v idx) = hp_capacity h.
Proof. unfold setIndex. by destruct (tracked h v). Qed.
Lemma setIndex_posMapSize : hp_posMapSize (setIndex h v idx) = hp_posMapSize h.
Proof. unfold setIndex. by destruct (tracked h v). Qed.
Lemma setIndex_allocated : hp_allocated (setIndex h v idx) = hp_allocated h.
Proof. unfold setIndex. by destruct (tracked h v). Qed.
Lemma setIndex_posMap_length :
  length (hp_posMap (setIndex h v idx)) = length (hp_posMap h).
Proof. unfold setIndex. destruct (tracked h v); [|done]. simpl. by rewrite length_alter. Qed.
Lemma setIndex_cell k : cell (setIndex h v idx) k = cell h k.
Proof. unfold cell. by rewrite setIndex_data. Qed.
Lemma setIndex_tracked w : tracked (setIndex h v idx) w = tracked h w.
Proof. unfold tracked. by rewrite setIndex_posMapSize. Qed.
Lemma setIndex_elems : elems (setIndex h v idx) = elems h.
Proof. unfold elems. by rewrite setIndex_data, setIndex_size. Qed.

(** The store is seen at [v] and nowhere else. *)
Lemma setIndex_mapped w :
  length (hp_posMap h) = hp_posMapSize h ->
  mappedIndex (setIndex h v idx) w =
    if tracked h w && (v =? w)%Z then idx else mappedIndex h w.
Proof.
  intros Hlen. unfold mappedIndex. rewrite setIndex_tracked.
  destruct (tracked h w) eqn:Hw; [|done]. simpl.
  apply tracked_spec in Hw as [Hw0 Hw].
  unfold setIndex. destruct (Z.eqb_spec v w) as [->|Hne].
  - rewrite (proj2 (tracked_spec h w)) by done. simpl.
    by rewrite list_lookup_total_alter_eq by lia.
  - destruct (tracked h v) eqn:Hv; [|done]. simpl.
    apply tracked_spec in Hv as [Hv0 _].
    rewrite list_lookup_total_alter_ne; [done|lia].
Qed.

Lemma setIndex_shape : heap_shape h -> heap_shape (setIndex h v idx).
Proof.
  intros []. split; rewrite ?setIndex_data, ?setIndex_size, ?setIndex_capacity,
    ?setIndex_posMap_length, ?setIndex_posMapSize; done.
Qed.
End SetIndex.

#[export] Hint Rewrite setIndex_data setIndex_size setIndex_capacity setIndex_posMapSize
  setIndex_allocated setIndex_posMap_length setIndex_cell setIndex_tracked setIndex_elems
  : loopy_simpl.
#[export] Hint Resolve setIndex_shape : loopy.

(** ** Elements *)

Lemma elems_length h : heap_shape h -> length (elems h) = hp_size h.
Proof. intros []. unfold elems. rewrite length_take, length_drop. lia. Qed.

Lemma elems_lookup h i :
  heap_shape h -> 1 <= i <= hp_size h -> elems h !! (i - 1) = Some (cell h i).
Proof.
  intros [Hd Hs _] Hi. unfold elems, cell. rewrite lookup_take_lt by lia.
  rewrite lookup_drop. replace (1 + (i - 1)) with i by lia.
  by apply list_lookup_lookup_total_lt; lia.
Qed.

Lemma elems_In h v :
  heap_shape h -> v ∈ elems h <-> exists i, 1 <= i <= hp_size h /\ cell h i = v.
Proof.
  intros Hsh. rewrite list_elem_of_lookup. split.
  - intros [i Hi]. assert (i < hp_size h).
    { rewrite <- (elems_length h) by done. by eapply lookup_lt_Some. }
    exists (S i). split; [lia|].
    assert (E : elems h !! (S i - 1) = Some (cell h (S i))) by (apply elems_lookup; [done|lia]).
    replace (S i - 1) with i in E by lia. congruence.
  - intros (i & Hi & <-). exists (i - 1). by apply elems_lookup.
Qed.

(** A store in the array is a store in the element list. *)
Lemma elems_insert h i x :
  1 <= i <= hp_size h ->
  take (hp_size h) (drop 1 (<[i := x]> (hp_data h))) = <[i - 1 := x]> (elems h).
Proof.
  intros Hi. unfold elems. rewrite drop_insert_ge by lia.
  by rewrite take_insert_lt by lia.
Qed.

Lemma rearranged_refl h : heap_rearranged h h.
Proof. by split. Qed.

Lemma rearranged_trans h1 h2 h3 :
  heap_rearranged h1 h2 -> heap_rearranged h2 h3 -> heap_rearranged h1 h3.
Proof. intros [] []. split; try congruence. by etrans. Qed.

#[export] Hint Resolve rearranged_refl rearranged_trans : loopy.

(** ** The exchange *)

Lemma store_data_tracked f h v : tracked (h <| hp_data ::= f |>) v = tracked h v.
Proof. done. Qed.

Lemma store_data_mapped f h v : mappedIndex (h <| hp_data ::= f |>) v = mappedIndex h v.
Proof. done. Qed.

#[export] Hint Rewrite store_data_tracked store_data_mapped : loopy_simpl.

Section Swap.
Context (h : loopyMaxHeap) (i j : nat).
Hypothesis Hsh : heap_shape h.
Hypothesis Hi : 1 <= i <= hp_size h.
Hypothesis Hj : 1 <= j <= hp_size h.

Lemma swap_cell k :
  cell (heapSwap h i j) k =
    if decide (k = j) then cell h i else if decide (k = i) then cell h j else cell h k.
Proof using Hsh Hi Hj.
  destruct Hsh. unfold heapSwap. autorewrite with loopy_simpl.
  unfold cell. simpl. apply lswap_lookup; lia.
Qed.

Lemma swap_fields :
  hp_size (heapSwap h i j) = hp_size h /\ hp_capacity (heapSwap h i j) = hp_capacity h /\
  hp_posMapSize (heapSwap h i j) = hp_posMapSize h /\
  hp_allocated (heapSwap h i j) = hp_allocated h.
Proof using Type. unfold heapSwap. by autorewrite with loopy_simpl. Qed.

Lemma swap_size : hp_size (heapSwap h i j) = hp_size h.
Proof using Type. apply swap_fields. Qed.

Lemma swap_shape : heap_shape (heapSwap h i j).
Proof using Hsh.
  destruct Hsh. unfold heapSwap. apply setIndex_shape, setIndex_shape.
  split; simpl; rewrite ?lswap_length; done.
Qed.

Lemma swap_tracked v : tracked (heapSwap h i j) v = tracked h v.
Proof using Type.
  unfold tracked. destruct swap_fields as (_ & _ & -> & _). done.
Qed.

Lemma swap_mapped v :
  mappedIndex (heapSwap h i j) v =
    if tracked h v
    then if (cell h j =? v)%Z then i else if (cell h i =? v)%Z then j else mappedIndex h v
    else 0.
Proof using Hsh.
  destruct Hsh as [_ _ Hp]. unfold heapSwap. rewrite setIndex_mapped.
  2:{ autorewrite with loopy_simpl. done. }
  autorewrite with loopy_simpl. destruct (tracked h v) eqn:Ht; simpl.
  - destruct (cell h j =? v)%Z; [done|]. rewrite setIndex_mapped by done.
    autorewrite with loopy_simpl. by rewrite Ht.
  - unfold mappedIndex. autorewrite with loopy_simpl. by rewrite Ht.
Qed.

Lemma swap_pos_sound : pos_sound h -> pos_sound (heapSwap h i j).
Proof using Hsh Hi Hj.
  intros Hp v. rewrite swap_mapped, swap_size. specialize (Hp v).
  destruct (tracked h v); [|done].
  destruct (Z.eqb_spec (cell h j) v), (Z.eqb_spec (cell h i) v); subst;
    rewrite swap_cell; intros; repeat case_decide; subst; try lia; naive_solver.
Qed.

Lemma swap_rearranged : heap_rearranged h (heapSwap h i j).
Proof using Hsh Hi Hj.
  destruct swap_fields as (? & ? & ? & ?). split; try done.
  unfold heapSwap. autorewrite with loopy_simpl. unfold elems at 1. cbn -[drop take lswap].
  unfold lswap. rewrite drop_insert_ge, take_insert_lt, elems_insert by lia.
  apply (lswap_Permutation (i - 1) (j - 1)); by apply elems_lookup.
Qed.
End Swap.

#[export] Hint Resolve swap_shape swap_pos_sound swap_rearranged : loopy.

(** ** Bubbling up *)

Lemma bubbleUpLoop_fuel fuel h i :
  i <= fuel -> bubbleUpLoop fuel h i = bubbleUpLoop i h i.
Proof.
  revert h i. induction fuel as [fuel IH] using lt_wf_ind. intros h i Hle.
  destruct fuel as [|fuel]; [by replace i with 0 by lia|].
  destruct i as [|i]; [done|]. cbn -[Nat.ltb PARENT].
  case_if; [|done]. case_if; [done|].
  assert (PARENT (S i) <= i) by heap_lia.
  rewrite (IH fuel), (IH i); [done|lia..].
Qed.

(** The unfolding of the C loop, with no fuel: [heapBubbleUp] terminates. *)
Lemma heapBubbleUp_eq h i :
  heapBubbleUp h i =
    if 1 <? i then
      if (cell h i <=? cell h (PARENT i))%Z then h
      else heapBubbleUp (heapSwap h i (PARENT i)) (PARENT i)
    else h.
Proof.
  unfold heapBubbleUp. destruct i as [|i]; [done|]. cbn -[Nat.ltb PARENT].
  case_if; [|done]. case_if; [done|].
  apply bubbleUpLoop_fuel. heap_lia.
Qed.

Lemma heapBubbleUp_frame h i :
  heap_shape h -> pos_sound h -> i <= hp_size h ->
  heap_shape (heapBubbleUp h i) /\ pos_sound (heapBubbleUp h i) /\
  heap_rearranged h (heapBubbleUp h i).
Proof.
  revert h. induction i as [i IH] using lt_wf_ind. intros h Hsh Hp Hi.
  rewrite heapBubbleUp_eq. case_if; [|by auto with loopy]. case_if; [by auto with loopy|].
  assert (1 <= PARENT i < i) by heap_lia.
  destruct (IH (PARENT i) ltac:(lia) (heapSwap h i (PARENT i))) as (? & ? & ?).
  - auto with loopy.
  - apply swap_pos_sound; auto; lia.
  - rewrite swap_size. lia.
  - split_and!; [done..|]. eapply rearranged_trans; [|done].
    apply swap_rearranged; auto; lia.
Qed.

Lemma up_ok_swap h i :
  heap_shape h -> 2 <= i <= hp_size h -> up_ok h i ->
  (cell h (PARENT i) < cell h i)%Z -> up_ok (heapSwap h i (PARENT i)) (PARENT i).
Proof.
  intros Hsh Hi [H1 H2] Hlt. assert (1 <= PARENT i < i) by heap_lia.
  split; rewrite swap_size; intros k Hk Hne; rewrite !swap_cell by (auto; lia).
  - destruct (decide (k = PARENT i)), (decide (k = i)); try lia.
    + subst k. rewrite decide_True by done. lia.
    + assert (PARENT k <> k) by heap_lia.
      destruct (decide (PARENT k = PARENT i)) as [E|E].
      * specialize (H1 k Hk ltac:(lia)). rewrite E in H1. lia.
      * destruct (decide (PARENT k = i)) as [E'|E'].
        -- apply H2; [done|done|lia].
        -- apply H1; [done|lia].
  - intros Hp2. assert (PARENT (PARENT i) < PARENT i) by heap_lia.
    assert (Hpp : (cell h (PARENT i) <= cell h (PARENT (PARENT i)))%Z) by (apply H1; lia).
    assert (k <> PARENT i) by (intros ->; lia).
    rewrite (decide_False (P := k = PARENT i)) by done.
    rewrite !(decide_False (P := PARENT (PARENT i) = _)) by lia.
    case_decide; [done|]. specialize (H1 k Hk ltac:(done)). rewrite Hne in H1. lia.
Qed.

Lemma heapBubbleUp_order h i :
  heap_shape h -> pos_sound h -> 1 <= i <= hp_size h -> up_ok h i ->
  heap_ordered (heapBubbleUp h i).
Proof.
  revert h. induction i as [i IH] using lt_wf_ind. intros h Hsh Hp Hi Hup.
  rewrite heapBubbleUp_eq. case_if.
  - assert (1 <= PARENT i < i) by heap_lia. case_if.
    + intros k Hk. destruct (decide (k = i)) as [->|]; [done|]. by apply Hup.
    + apply IH; rewrite ?swap_size; auto with loopy; try lia.
      * apply swap_pos_sound; auto; lia.
      * apply up_ok_swap; auto; lia.
  - intros k Hk. apply Hup; [done|lia].
Qed.

(** ** Bubbling down *)

Lemma child_cases i c : 1 <= i -> PARENT c = i <-> c = LEFT i \/ c = RIGHT i.
Proof. intros. autorewrite with loopy_simpl. split; heap_lia. Qed.

Lemma largestOf_spec h i :
  1 <= i ->
  (largestOf h i = i \/
   (PARENT (largestOf h i) = i /\ i < largestOf h i <= hp_size h /\
    (cell h i < cell h (largestOf h i))%Z)) /\
  (cell h i <= cell h (largestOf h i))%Z /\
  (forall c, 2 <= c <= hp_size h -> PARENT c = i -> (cell h c <= cell h (largestOf h i))%Z).
Proof.
  intros Hi. pose proof (child_cases i (LEFT i) Hi). pose proof (child_cases i (RIGHT i) Hi).
  assert (i < LEFT i) by heap_lia. assert (i < RIGHT i) by heap_lia.
  assert (Hc : forall c, PARENT c = i -> c = LEFT i \/ c = RIGHT i) by (intros; by apply child_cases).
  unfold largestOf. repeat case_if; split_and!;
    try (intros c ? Hpc; destruct (Hc c Hpc); subst c);
    first [lia | destruct_or!; bool_to_prop; lia
          | right; split_and!; [by apply child_cases; auto|lia|lia|lia] | by left].
Qed.

Lemma bubbleDownLoop_fuel fuel fuel' h i :
  heap_shape h -> 1 <= i -> hp_size h < fuel + i -> hp_size h < fuel' + i ->
  bubbleDownLoop fuel h i = bubbleDownLoop fuel' h i.
Proof.
  revert fuel' h i. induction fuel as [|fuel IH]; intros fuel' h i Hsh Hi Hf Hf'.
  - destruct fuel' as [|fuel']; [done|]. cbn -[largestOf].
    destruct (largestOf_spec h i Hi) as [[->|(_ & ? & _)] _]; [by rewrite Nat.eqb_refl|lia].
  - destruct (largestOf_spec h i Hi) as [[E|(Hp & ? & Hlt)] _].
    + destruct fuel' as [|fuel']; cbn -[largestOf]; by rewrite E, Nat.eqb_refl.
    + destruct fuel' as [|fuel']; [lia|]. cbn -[largestOf].
      case_if; [done|]. apply IH; rewrite ?swap_size; auto with loopy; lia.
Qed.

(** The unfolding of the C loop, with no fuel: [heapBubbleDown] terminates. *)
Lemma heapBubbleDown_eq h i :
  heap_shape h -> 1 <= i ->
  heapBubbleDown h i =
    let largest := largestOf h i in
    if largest =? i then h else heapBubbleDown (heapSwap h i largest) largest.
Proof.
  intros Hsh Hi. unfold heapBubbleDown. rewrite swap_size. cbn zeta.
  destruct (largestOf_spec h i Hi) as [[E|(Hp & ? & _)] _].
  { cbn -[largestOf]. by rewrite E, Nat.eqb_refl. }
  transitivity (bubbleDownLoop (S (S (hp_size h))) h i).
  { apply bubbleDownLoop_fuel; auto with loopy; lia. }
  remember (S (hp_size h)) as n eqn:En. cbn -[largestOf].
  case_if; [done|]. apply bubbleDownLoop_fuel; rewrite ?swap_size; auto with loopy; lia.
Qed.

(** Induction over the iterations of the downward loop. *)
Lemma heapBubbleDown_ind (P : loopyMaxHeap -> nat -> Prop) (Q : loopyMaxHeap -> nat -> loopyMaxHeap -> Prop) :
  (forall h i, P h i -> heap_shape h /\ 1 <= i) ->
  (forall h i, P h i -> largestOf h i = i -> Q h i h) ->
  (forall h i r, let l := largestOf h i in
     P h i -> PARENT l = i -> i < l <= hp_size h -> (cell h i < cell h l)%Z ->
     P (heapSwap h i l) l /\ (Q (heapSwap h i l) l r -> Q h i r)) ->
  forall h i, P h i -> Q h i (heapBubbleDown h i).
Proof.
  intros Hb Hstop Hstep h i. remember (hp_size h - i) as n eqn:En.
  revert h i En. induction n as [n IH] using lt_wf_ind. intros h i -> HP.
  destruct (Hb h i HP) as [Hsh Hi]. rewrite heapBubbleDown_eq by done. cbn zeta.
  destruct (largestOf_spec h i Hi) as [[E|(Hp & Hl & Hlt)] _].
  - rewrite E, Nat.eqb_refl. auto.
  - rewrite (proj2 (Nat.eqb_neq _ _)) by lia.
    destruct (Hstep h i (heapBubbleDown (heapSwap h i (largestOf h i)) (largestOf h i)) HP Hp Hl Hlt)
      as [HP' HQ].
    apply HQ. eapply IH; [|reflexivity|done]. rewrite swap_size. lia.
Qed.

Lemma heapBubbleDown_frame h i :
  heap_shape h -> pos_sound h -> 1 <= i ->
  heap_shape (heapBubbleDown h i) /\ pos_sound (heapBubbleDown h i) /\
  heap_rearranged h (heapBubbleDown h i).
Proof.
  intros Hsh Hp Hi.
  apply (heapBubbleDown_ind
    (fun h i => heap_shape h /\ pos_sound h /\ 1 <= i)
    (fun h i r => heap_shape r /\ pos_sound r /\ heap_rearranged h r)); auto with loopy.
  - intros ?? (? & ? & ?). auto with loopy.
  - intros h' i' (? & ? & ?). auto with loopy.
  - intros h' i' r l (? & ? & ?) ? ? ?.
    split; [split_and!; [auto with loopy|apply swap_pos_sound; auto; lia|lia]|].
    intros (? & ? & ?). split_and!; try done. eapply rearranged_trans; [|done].
    apply swap_rearranged; auto; lia.
Qed.

Lemma down_ok_swap h i :
  heap_shape h -> 1 <= i -> down_ok h i ->
  let l := largestOf h i in
  PARENT l = i -> i < l <= hp_size h -> (cell h i < cell h l)%Z ->
  down_ok (heapSwap h i l) l.
Proof.
  intros Hsh Hi [H1 H2] l Hp Hl Hlt.
  destruct (largestOf_spec h i Hi) as (_ & _ & Hmax). fold l in Hmax.
  split; rewrite swap_size; intros k Hk Hne; rewrite !swap_cell by (auto; lia).
  - assert (PARENT k < k) by heap_lia.
    rewrite (decide_False (P := PARENT k = l)) by done.
    destruct (decide (k = l)) as [->|Hkl].
    + rewrite decide_True by done. lia.
    + destruct (decide (k = i)) as [->|Hki].
      * rewrite decide_False by lia. apply H2; [lia|done|lia].
      * destruct (decide (PARENT k = i)); [by apply Hmax|by apply H1].
  - intros Hl2. assert (PARENT k < k) by heap_lia.
    rewrite !(decide_False (P := k = _)) by lia.
    rewrite (decide_False (P := PARENT l = l)), decide_True by lia.
    rewrite <- Hne. apply H1; [done|lia].
Qed.

Lemma heapBubbleDown_order h i :
  heap_shape h -> pos_sound h -> 1 <= i -> down_ok h i ->
  heap_ordered (heapBubbleDown h i).
Proof.
  intros Hsh Hp Hi Hd.
  apply (heapBubbleDown_ind
    (fun h i => heap_shape h /\ pos_sound h /\ 1 <= i /\ down_ok h i)
    (fun _ _ r => heap_ordered r)); auto with loopy.
  - intros ?? (? & ? & ? & ?). auto with loopy.
  - intros h' i' (? & ? & ? & [H1 H2]) E k Hk.
    destruct (decide (PARENT k = i')) as [Hpk|]; [|by apply H1].
    destruct (largestOf_spec h' i' ltac:(done)) as (_ & _ & Hmax).
    rewrite E in Hmax. rewrite Hpk. by apply Hmax.
  - intros h' i' r l (? & ? & ? & ?) ? ? ?.
    split; [|done]. split_and!; [auto with loopy|apply swap_pos_sound; auto; lia|lia|].
    by apply down_ok_swap.
Qed.

(** ** The stores of insertion *)

(** [h'] differs from [h] in spare capacity only. *)
Record heap_enlarged (h h' : loopyMaxHeap) : Prop := {
  en_shape : heap_shape h';
  en_size : hp_size h' = hp_size h;
  en_capacity : hp_capacity h <= hp_capacity h';
  en_posMapSize : hp_posMapSize h <= hp_posMapSize h';
  en_cell : forall k, k <= hp_size h -> cell h' k = cell h k;
  en_mapped : forall v, mappedIndex h' v = mappedIndex h v
}.

Lemma enlarged_refl h : heap_shape h -> heap_enlarged h h.
Proof. by split. Qed.

Lemma enlarged_trans h1 h2 h3 :
  heap_enlarged h1 h2 -> heap_enlarged h2 h3 -> heap_enlarged h1 h3.
Proof.
  intros [_ Hs ? ? Hc Hm] [? Hs' ? ? Hc' Hm']. split; try lia; [done|..].
  - intros k Hk. rewrite Hc' by lia. auto.
  - intros v. by rewrite Hm'.
Qed.

Lemma enlarged_elems h h' : heap_shape h -> heap_enlarged h h' -> elems h' = elems h.
Proof.
  intros Hsh [Hsh' Hs _ _ Hc _]. apply list_eq_same_length with (n := hp_size h).
  - by apply elems_length.
  - by rewrite elems_length.
  - intros i x y Hi Hx Hy.
    assert (E : elems h !! (S i - 1) = Some (cell h (S i))) by (apply elems_lookup; [done|lia]).
    assert (E' : elems h' !! (S i - 1) = Some (cell h' (S i))) by (apply elems_lookup; [done|lia]).
    rewrite Hc in E' by lia. replace (S i - 1) with i in E, E' by lia. congruence.
Qed.

Lemma enlarged_wf h h' : heap_wf h -> heap_enlarged h h' -> heap_wf h'.
Proof.
  intros [Hsh Ho Hp] [Hsh' Hs _ _ Hc Hm]. split; [done|..].
  - intros k. rewrite Hs. intros Hk. assert (PARENT k <= k) by heap_lia.
    rewrite !Hc by lia. by apply Ho.
  - intros v. rewrite Hm, Hs. intros Hv. destruct (Hp v Hv). by rewrite Hc.
Qed.

Lemma resize_enlarged junk h n :
  heap_shape h -> hp_capacity h <= n ->
  heap_enlarged h (h <| hp_data ::= resize (n + 1) junk |> <| hp_capacity := n |>).
Proof.
  intros [Hd Hs Hp] Hn. split; simpl; try done; try lia.
  - split; simpl; [rewrite length_resize| |done]; lia.
  - intros k Hk. unfold cell. simpl. rewrite !list_lookup_total_alt.
    by rewrite lookup_resize by lia.
Qed.

Lemma heapGrow_enlarged junk ok h :
  heap_shape h -> heap_enlarged h (heapGrow junk ok h).1.
Proof.
  intros Hsh. unfold heapGrow. destruct ok; [|by apply enlarged_refl].
  apply resize_enlarged; [done|]. case_if; lia.
Qed.

Lemma doubleUntil_fuel fuel n needed :
  1 <= n -> needed <= fuel + n -> needed <= doubleUntil fuel n needed /\ n <= doubleUntil fuel n needed.
Proof.
  revert n. induction fuel as [|fuel IH]; intros n Hn Hf; [simpl; lia|].
  cbn -[Nat.mul Nat.ltb]. case_if; [|lia]. destruct (IH (n * 2)); lia.
Qed.

(** The growth loop stops with room for the index asked for. *)
Lemma posMapNewSize_enough posMapSize needed :
  needed <= posMapNewSize posMapSize needed /\ posMapSize <= posMapNewSize posMapSize needed.
Proof.
  unfold posMapNewSize. case_if.
  - destruct (doubleUntil_fuel needed 16 needed); lia.
  - destruct (doubleUntil_fuel needed (posMapSize * 2) needed); lia.
Qed.

Lemma ensurePosMapCapacity_enlarged ok h v :
  heap_shape h ->
  heap_enlarged h (ensurePosMapCapacity ok h v).1 /\
  ((ensurePosMapCapacity ok h v).2 = true -> (0 <= v)%Z ->
     tracked (ensurePosMapCapacity ok h v).1 v = true).
Proof.
  intros Hsh. unfold ensurePosMapCapacity. cbn zeta. case_if; [split; [by apply enlarged_refl|simpl; lia]|].
  case_if; [split; [by apply enlarged_refl|intros; apply tracked_spec; simpl; lia]|].
  destruct ok; simpl; [|split; [by apply enlarged_refl|done]].
  destruct (posMapNewSize_enough (hp_posMapSize h) (Z.to_nat v + 1)) as [Hn Hn'].
  split; [|intros; apply tracked_spec; simpl; lia].
  destruct Hsh as [Hd Hs Hp]. split; simpl; try done.
  - split; simpl; try done. rewrite length_app, length_replicate. lia.
  - intros w. unfold mappedIndex, tracked. simpl.
    destruct (0 <=? w)%Z; [|done]. simpl.
    destruct (Nat.ltb_spec (Z.to_nat w) (hp_posMapSize h)).
    + rewrite (proj2 (Nat.ltb_lt _ _)) by lia. by rewrite lookup_total_app_l by lia.
    + case_if; [|done]. rewrite list_lookup_total_alt, lookup_app_r by lia.
      by rewrite lookup_replicate_2 by lia.
Qed.

(** The state [heapInsert] builds before it bubbles up. *)
Definition stored (h : loopyMaxHeap) (v : loopyHeapValue) : loopyMaxHeap :=
  let i := S (hp_size h) in
  let h := h <| hp_size := i |> <| hp_data ::= <[i := v]> |> in
  if tracked h v then h <| hp_posMap ::= <[Z.to_nat v := PosEntry v i]> |> else h.

Section Stored.
Context (h : loopyMaxHeap) (v : loopyHeapValue).
Hypothesis Hwf : heap_wf h.
Hypothesis Hroom : hp_size h < hp_capacity h.

Lemma stored_fields :
  hp_data (stored h v) = <[S (hp_size h) := v]> (hp_data h) /\
  hp_size (stored h v) = S (hp_size h) /\ hp_capacity (stored h v) = hp_capacity h /\
  hp_posMapSize (stored h v) = hp_posMapSize h /\
  length (hp_posMap (stored h v)) = length (hp_posMap h).
Proof using Type.
  unfold stored. cbn zeta. destruct (tracked _ v); simpl; split_and!; try done.
  by rewrite length_insert.
Qed.

Lemma stored_shape : heap_shape (stored h v).
Proof using Hwf Hroom.
  destruct (wf_shape h Hwf) as [Hd Hs Hp], stored_fields as (Ed & Es & Ec & Ep & El).
  split; rewrite ?Ed, ?Es, ?Ec, ?Ep, ?El, ?length_insert; done.
Qed.

Lemma stored_cell k :
  cell (stored h v) k = if decide (k = S (hp_size h)) then v else cell h k.
Proof using Hwf Hroom.
  destruct (wf_shape h Hwf) as [Hd Hs Hp], stored_fields as (Ed & _).
  unfold cell. rewrite Ed. case_decide; [subst|].
  - apply list_lookup_total_insert_eq. lia.
  - by apply list_lookup_total_insert_ne.
Qed.

Lemma stored_mapped w :
  mappedIndex (stored h v) w =
    if tracked h w && (v =? w)%Z then S (hp_size h) else mappedIndex h w.
Proof using Hwf Hroom.
  destruct (wf_shape h Hwf) as [Hd Hs Hp], stored_fields as (_ & _ & _ & Ep & _).
  unfold mappedIndex. replace (tracked (stored h v) w) with (tracked h w)
    by (unfold tracked; by rewrite Ep).
  destruct (tracked h w) eqn:Hw; [|done]. simpl. apply tracked_spec in Hw as [Hw0 Hw].
  unfold stored. cbn zeta.
  change (tracked (h <| hp_size := _ |> <| hp_data ::= _ |>) v) with (tracked h v).
  destruct (Z.eqb_spec v w) as [->|Hne].
  - rewrite (proj2 (tracked_spec h w)) by done. simpl.
    by rewrite list_lookup_total_insert_eq by lia.
  - destruct (tracked h v) eqn:Hv; [|done]. simpl.
    apply tracked_spec in Hv as [Hv0 _].
    by rewrite list_lookup_total_insert_ne by lia.
Qed.

Lemma stored_pos_sound : pos_sound (stored h v).
Proof using Hwf Hroom.
  intros w. rewrite stored_mapped. destruct stored_fields as (_ & Es & _). rewrite Es.
  intros Hw. case_if.
  - rewrite stored_cell, decide_True by done. split; [lia|done].
  - destruct (wf_pos h Hwf w Hw). rewrite stored_cell, decide_False by lia. split; [lia|done].
Qed.

Lemma stored_up_ok : up_ok (stored h v) (S (hp_size h)).
Proof using Hwf Hroom.
  destruct stored_fields as (_ & Es & _). split; rewrite Es; intros k Hk.
  - intros Hne. assert (PARENT k <= k) by heap_lia. rewrite !stored_cell, !decide_False by lia.
    apply (wf_order h Hwf). lia.
  - intros Hp. exfalso. heap_lia.
Qed.

Lemma stored_elems : elems (stored h v) = elems h ++ [v].
Proof using Hwf Hroom.
  destruct (wf_shape h Hwf) as [Hd Hs Hp], stored_fields as (Ed & Es & _).
  unfold elems. rewrite Ed, Es, drop_insert_ge by lia.
  replace (S (hp_size h) - 1) with (hp_size h) by lia.
  rewrite (take_S_r _ _ v).
  - by rewrite take_insert_ge by lia.
  - apply list_lookup_insert_eq. rewrite length_drop. lia.
Qed.
End Stored.

(** [heapInsert] as the composition of its two growth steps, the store and
    the bubbling. *)
Lemma heapInsert_eq junk growOk posOk v h :
  heapInsert junk growOk posOk v h =
    let '(h1, ok1) := if hp_capacity h <=? hp_size h then heapGrow junk growOk h else (h, true) in
    if ok1 then
      let '(h2, ok2) := ensurePosMapCapacity posOk h1 v in
      if ok2 then (heapBubbleUp (stored h2 v) (S (hp_size h2)), true) else (h2, false)
    else (h1, false).
Proof.
  unfold heapInsert, stored. repeat case_match; naive_solver.
Qed.

Lemma heapGrow_room junk ok h :
  heap_shape h -> hp_capacity h <= hp_size h -> (heapGrow junk ok h).2 = true ->
  hp_size h < hp_capacity (heapGrow junk ok h).1.
Proof.
  intros [_ Hs _] Hle. unfold heapGrow. destruct ok; simpl; [|done]. case_if; lia.
Qed.

(** ** The stores of removal *)

(** The state [heapPop] (at [i = 1]) and [heapRemove] build before bubbling:
    the last element overwrites position [i], which held [v]. *)
Definition vacated (h : loopyMaxHeap) (v : loopyHeapValue) (i : nat) : loopyMaxHeap :=
  let last := cell h (hp_size h) in
  setIndex ((setIndex h v 0) <| hp_data ::= <[i := last]> |> <| hp_size ::= pred |>) last i.

Section Vacated.
Context (h : loopyMaxHeap) (v : loopyHeapValue) (i : nat).
Hypothesis Hwf : heap_wf h.
Hypothesis Hi : 1 <= i < hp_size h.
Hypothesis Hv : cell h i = v.

Lemma vacated_size : hp_size (vacated h v i) = pred (hp_size h).
Proof using Type. unfold vacated. autorewrite with loopy_simpl. simpl. by rewrite setIndex_size. Qed.

Lemma vacated_data : hp_data (vacated h v i) = <[i := cell h (hp_size h)]> (hp_data h).
Proof using Type. unfold vacated. autorewrite with loopy_simpl. simpl. by rewrite setIndex_data. Qed.

Lemma vacated_shape : heap_shape (vacated h v i).
Proof using Hwf Hi.
  unfold vacated. apply setIndex_shape.
  destruct (setIndex_shape h v 0 (wf_shape h Hwf)) as [Hd Hs Hp].
  split; simpl; rewrite ?length_insert; [done|lia|done].
Qed.

Lemma vacated_cell k :
  cell (vacated h v i) k = if decide (k = i) then cell h (hp_size h) else cell h k.
Proof using Hwf Hi.
  destruct (wf_shape h Hwf) as [Hd Hs Hp]. unfold cell. rewrite vacated_data.
  case_decide; [subst|].
  - apply list_lookup_total_insert_eq. lia.
  - by apply list_lookup_total_insert_ne.
Qed.

Lemma vacated_mapped w :
  mappedIndex (vacated h v i) w =
    if tracked h w then
      if (cell h (hp_size h) =? w)%Z then i else if (v =? w)%Z then 0 else mappedIndex h w
    else 0.
Proof using Hwf.
  destruct (wf_shape h Hwf) as [Hd Hs Hp]. unfold vacated.
  rewrite setIndex_mapped.
  2:{ simpl. by rewrite setIndex_posMap_length, setIndex_posMapSize. }
  set (f := <[i := _]>).
  assert (Ht : tracked ((setIndex h v 0) <| hp_data ::= f |> <| hp_size ::= pred |>) w = tracked h w).
  { change (tracked (setIndex h v 0) w = tracked h w). by rewrite setIndex_tracked. }
  assert (Em : mappedIndex ((setIndex h v 0) <| hp_data ::= f |> <| hp_size ::= pred |>) w =
               mappedIndex (setIndex h v 0) w) by done.
  rewrite Ht, Em, setIndex_mapped by done.
  destruct (tracked h w) eqn:Hw; simpl; [done|]. unfold mappedIndex. by rewrite Hw.
Qed.

Lemma vacated_pos_sound : pos_sound (vacated h v i).
Proof using Hwf Hi Hv.
  intros w. rewrite vacated_mapped, vacated_size. case_if; [|done]. case_if.
  - intros _. rewrite vacated_cell, decide_True by done. split; [lia|done].
  - case_if; [done|]. intros Hw. destruct (wf_pos h Hwf w Hw) as [Hle Hc].
    assert (mappedIndex h w <> i) by congruence.
    assert (mappedIndex h w <> hp_size h) by congruence.
    rewrite vacated_cell, decide_False by done. split; [lia|done].
Qed.

Lemma vacated_elems : elems h ≡ₚ v :: elems (vacated h v i).
Proof using Hwf Hi Hv.
  pose proof (wf_shape h Hwf) as Hsh. destruct Hsh as [Hd Hs Hp].
  set (last := cell h (hp_size h)).
  assert (El : elems h = elems (h <| hp_size ::= pred |>) ++ [last]).
  { unfold elems. simpl. replace (hp_size h) with (S (pred (hp_size h))) at 1 by lia.
    apply take_S_r. rewrite lookup_drop. replace (1 + pred (hp_size h)) with (hp_size h) by lia.
    apply list_lookup_lookup_total_lt. lia. }
  assert (Ev : elems (vacated h v i) = <[i - 1 := last]> (elems (h <| hp_size ::= pred |>))).
  { rewrite <- elems_insert by (simpl; lia). unfold elems.
    by rewrite vacated_size, vacated_data. }
  rewrite El, Ev.
  assert (Hl : elems (h <| hp_size ::= pred |>) !! (i - 1) = Some v).
  { rewrite <- Hv. change (cell h i) with (cell (h <| hp_size ::= pred |>) i).
    apply elems_lookup; [|simpl; lia]. split; simpl; [done|lia|done]. }
  rewrite <- (take_drop_middle _ _ _ Hl) at 1.
  rewrite insert_take_drop by (eapply lookup_lt_Some; exact Hl).
  solve_Permutation.
Qed.

(** What the caller's test on the moved element chooses between. *)
Lemma vacated_up_ok :
  1 < i -> (cell h (PARENT i) < cell h (hp_size h))%Z -> up_ok (vacated h v i) i.
Proof using Hwf Hi Hv.
  intros Hi1 Hlt. split; rewrite vacated_size; intros k Hk.
  - intros Hne. assert (PARENT k < k) by heap_lia. rewrite !vacated_cell.
    rewrite (decide_False (P := k = i)) by done. case_decide as E.
    + pose proof (wf_order h Hwf k ltac:(lia)) as H1. rewrite E in H1.
      pose proof (wf_order h Hwf i ltac:(lia)). lia.
    + apply (wf_order h Hwf). lia.
  - intros E _. assert (PARENT k < k) by heap_lia. assert (PARENT i < i) by heap_lia.
    rewrite !vacated_cell, !decide_False by lia.
    pose proof (wf_order h Hwf k ltac:(lia)) as H1. rewrite E in H1.
    pose proof (wf_order h Hwf i ltac:(lia)). lia.
Qed.

Lemma vacated_down_ok :
  (1 < i -> (cell h (hp_size h) <= cell h (PARENT i))%Z) -> down_ok (vacated h v i) i.
Proof using Hwf Hi Hv.
  intros Hle. split; rewrite vacated_size; intros k Hk E.
  - assert (PARENT k < k) by heap_lia. rewrite !vacated_cell.
    rewrite (decide_False (P := PARENT k = i)) by done. case_decide; [subst; apply Hle; lia|].
    apply (wf_order h Hwf). lia.
  - intros Hi2. assert (PARENT k < k) by heap_lia. assert (PARENT i < i) by heap_lia.
    rewrite !vacated_cell, !decide_False by lia.
    pose proof (wf_order h Hwf k ltac:(lia)) as H1. rewrite E in H1.
    pose proof (wf_order h Hwf i ltac:(lia)). lia.
Qed.
End Vacated.

(** ** Contracts *)

Lemma heapBubbleUp_wf h i :
  heap_shape h -> pos_sound h -> 1 <= i <= hp_size h -> up_ok h i ->
  heap_wf (heapBubbleUp h i) /\ heap_rearranged h (heapBubbleUp h i).
Proof.
  intros Hsh Hp Hi Hup. destruct (heapBubbleUp_frame h i Hsh Hp) as (? & ? & ?); [lia|].
  split; [|done]. split; [done| |done]. by apply heapBubbleUp_order.
Qed.

Lemma heapBubbleDown_wf h i :
  heap_shape h -> pos_sound h -> 1 <= i -> down_ok h i ->
  heap_wf (heapBubbleDown h i) /\ heap_rearranged h (heapBubbleDown h i).
Proof.
  intros Hsh Hp Hi Hd. destruct (heapBubbleDown_frame h i Hsh Hp Hi) as (? & ? & ?).
  split; [|done]. split; [done| |done]. by apply heapBubbleDown_order.
Qed.

Lemma stored_wf h v :
  heap_wf h -> hp_size h < hp_capacity h ->
  heap_wf (heapBubbleUp (stored h v) (S (hp_size h))) /\
  elems (heapBubbleUp (stored h v) (S (hp_size h))) ≡ₚ v :: elems h /\
  hp_size (heapBubbleUp (stored h v) (S (hp_size h))) = S (hp_size h).
Proof.
  intros Hwf Hroom. destruct (stored_fields h v) as (_ & Es & _).
  destruct (heapBubbleUp_wf (stored h v) (S (hp_size h))) as [? [Hs _ _ _ He]].
  - by apply stored_shape.
  - by apply stored_pos_sound.
  - rewrite Es. lia.
  - by apply stored_up_ok.
  - split; [done|]. split; [|by rewrite Hs, Es].
    rewrite He, stored_elems by done. by rewrite Permutation_app_comm.
Qed.

Lemma heapInsert_contract junk growOk posOk v h :
  heap_wf h ->
  heap_wf (heapInsert junk growOk posOk v h).1 /\
  if (heapInsert junk growOk posOk v h).2
  then elems (heapInsert junk growOk posOk v h).1 ≡ₚ v :: elems h
  else elems (heapInsert junk growOk posOk v h).1 = elems h.
Proof.
  intros Hwf. rewrite heapInsert_eq.
  set (g := if hp_capacity h <=? hp_size h then heapGrow junk growOk h else (h, true)).
  assert (Hg : heap_enlarged h g.1 /\ (g.2 = true -> hp_size h < hp_capacity g.1)).
  { subst g. destruct (Nat.leb_spec (hp_capacity h) (hp_size h)).
    - split; [apply heapGrow_enlarged, Hwf|]. apply heapGrow_room; [apply Hwf|done].
    - split; [apply enlarged_refl, Hwf|done]. }
  destruct g as [h1 [|]]; simpl in Hg; destruct Hg as [Hen1 Hroom]; simpl.
  2:{ split; [by eapply enlarged_wf|]. apply enlarged_elems; [apply Hwf|done]. }
  destruct (ensurePosMapCapacity_enlarged posOk h1 v) as [Hen2 _]; [apply Hen1|].
  destruct (ensurePosMapCapacity posOk h1 v) as [h2 ok2]. simpl in Hen2.
  assert (Hen : heap_enlarged h h2) by (by eapply enlarged_trans).
  assert (Hwf2 : heap_wf h2) by (by eapply enlarged_wf).
  assert (Ee : elems h2 = elems h) by (by apply enlarged_elems; [apply Hwf|]).
  destruct ok2; simpl; [|done].
  destruct (stored_wf h2 v Hwf2) as (? & He & _).
  - pose proof (en_size _ _ Hen). pose proof (en_capacity _ _ Hen2).
    specialize (Hroom eq_refl). lia.
  - split; [done|]. by rewrite He, Ee.
Qed.

(** Insertion succeeds exactly when the reallocations it needs do. *)
Lemma heapInsert_ok junk growOk posOk v h :
  (heapInsert junk growOk posOk v h).2 =
    ((hp_size h <? hp_capacity h) || growOk) &&
    ((v <? 0)%Z || (Z.to_nat v <? hp_posMapSize h) || posOk).
Proof.
  rewrite heapInsert_eq, (Nat.leb_antisym (hp_size h)).
  set (b := hp_size h <? hp_capacity h).
  assert (E : forall h1, hp_posMapSize h1 = hp_posMapSize h ->
    (ensurePosMapCapacity posOk h1 v).2 = (v <? 0)%Z || (Z.to_nat v <? hp_posMapSize h) || posOk).
  { intros h1 Eh. unfold ensurePosMapCapacity. cbn zeta. rewrite Eh, Nat.add_1_r.
    change (S (Z.to_nat v) <=? hp_posMapSize h) with (Z.to_nat v <? hp_posMapSize h).
    by destruct (v <? 0)%Z, (Z.to_nat v <? hp_posMapSize h), posOk. }
  destruct b; simpl.
  - rewrite <- (E h) by done. by destruct (ensurePosMapCapacity posOk h v) as [? []].
  - unfold heapGrow. destruct growOk; simpl; [|done].
    match goal with
    | |- context [ensurePosMapCapacity posOk ?h1 v] => rewrite <- (E h1) by done
    end.
    by destruct (ensurePosMapCapacity posOk _ v) as [? []].
Qed.

Lemma heapPop_eq h :
  heapPop h =
    if hp_size h =? 0 then (h, LOOPY_HEAP_EMPTY_VALUE)
    else if hp_size h =? 1
    then ((setIndex h (cell h 1) 0) <| hp_size ::= pred |>, cell h 1)
    else (heapBubbleDown (vacated h (cell h 1) 1) 1, cell h 1).
Proof.
  unfold heapPop. case_if; [done|]. cbn zeta.
  rewrite setIndex_size, setIndex_cell. destruct (Nat.eqb_spec (hp_size h) 1) as [E|].
  - rewrite (proj2 (Nat.ltb_ge 1 _)) by lia. case_if; [|done].
    simpl in *. rewrite setIndex_size in *. lia.
  - rewrite (proj2 (Nat.ltb_lt 1 _)) by lia.
    replace ((setIndex ((setIndex h (cell h 1) 0) <| hp_data ::= <[1:=cell h (hp_size h)]> |>)
       (cell h (hp_size h)) 1) <| hp_size ::= pred |>)
      with (vacated h (cell h 1) 1).
    + rewrite vacated_size, (proj2 (Nat.ltb_lt 0 _)) by lia. done.
    + unfold vacated, setIndex at 1 3. by destruct (tracked _ (cell h (hp_size h))).
Qed.

(** Dropping the last element of the array. *)
Lemma truncated_wf h :
  heap_wf h -> 1 <= hp_size h ->
  let h' := (setIndex h (cell h (hp_size h)) 0) <| hp_size ::= pred |> in
  heap_wf h' /\ elems h ≡ₚ cell h (hp_size h) :: elems h'.
Proof.
  intros Hwf H1 h'. destruct (wf_shape h Hwf) as [Hd Hs Hp].
  assert (Hc : forall k, cell h' k = cell h k) by (intros; apply setIndex_cell).
  assert (Es : hp_size h' = pred (hp_size h)) by (subst h'; simpl; by rewrite setIndex_size).
  split; [split|].
  - destruct (setIndex_shape h (cell h (hp_size h)) 0 (wf_shape h Hwf)).
    split; simpl; [done|lia|done].
  - intros k. rewrite Es, !Hc. intros Hk. apply (wf_order h Hwf). lia.
  - intros w. rewrite Hc, Es.
    change (mappedIndex h' w) with (mappedIndex (setIndex h (cell h (hp_size h)) 0) w).
    rewrite setIndex_mapped by done. case_if; [done|]. intros Hw.
    destruct (wf_pos h Hwf w Hw) as [Hle Hcw]. split; [|done].
    assert (mappedIndex h w <> hp_size h); [|lia]. intros E.
    rewrite E in Hcw. destruct Heqb as [Ht|Hn]; bool_to_prop; [|done].
    unfold mappedIndex in Hw. by rewrite Ht in Hw.
  - assert (El : elems h = elems h' ++ [cell h (hp_size h)]).
    { unfold elems. rewrite Es. subst h'. simpl. rewrite setIndex_data.
      replace (hp_size h) with (S (pred (hp_size h))) at 1 by lia.
      apply take_S_r. rewrite lookup_drop. replace (1 + pred (hp_size h)) with (hp_size h) by lia.
      apply list_lookup_lookup_total_lt. lia. }
    rewrite El at 1. by rewrite Permutation_app_comm.
Qed.

Lemma vacated_bubbled_wf h v i :
  heap_wf h -> 1 <= i < hp_size h -> cell h i = v ->
  let h1 := vacated h v i in
  let h2 := if (1 <? i) && (cell h1 (PARENT i) <? cell h1 i)%Z
            then heapBubbleUp h1 i else heapBubbleDown h1 i in
  heap_wf h2 /\ elems h ≡ₚ v :: elems h2 /\ hp_size h2 = pred (hp_size h).
Proof.
  intros Hwf Hi Hv h1 h2.
  assert (Hsh : heap_shape h1) by (by apply vacated_shape).
  assert (Hps : pos_sound h1) by (by apply vacated_pos_sound).
  assert (Es : hp_size h1 = pred (hp_size h)) by apply vacated_size.
  assert (H : heap_wf h2 /\ heap_rearranged h1 h2).
  { assert (1 < i -> PARENT i < i) by (intros; heap_lia).
    assert (Ec : cell h1 i = cell h (hp_size h)) by (subst h1; by rewrite vacated_cell, decide_True).
    assert (Ep : 1 < i -> cell h1 (PARENT i) = cell h (PARENT i))
      by (intros; subst h1; rewrite vacated_cell by done; by rewrite decide_False by lia).
    subst h2. destruct ((1 <? i) && _) eqn:E; bool_to_prop.
    - apply heapBubbleUp_wf; try done; [lia|].
      apply vacated_up_ok; try done. by rewrite <- Ec, <- Ep.
    - apply heapBubbleDown_wf; try done; [lia|].
      apply vacated_down_ok; try done. intros Hi1. rewrite <- Ec, <- Ep by done.
      destruct E; bool_to_prop; lia. }
  destruct H as [? [Hs _ _ _ He]]. split; [done|]. rewrite Hs, Es. split; [|done].
  rewrite He. by apply vacated_elems.
Qed.

Lemma heapPop_contract h :
  heap_wf h ->
  heap_wf (heapPop h).1 /\
  if hp_size h =? 0 then (heapPop h) = (h, LOOPY_HEAP_EMPTY_VALUE)
  else (heapPop h).2 = cell h 1 /\ elems h ≡ₚ cell h 1 :: elems (heapPop h).1 /\
       hp_size (heapPop h).1 = pred (hp_size h).
Proof.
  intros Hwf. rewrite heapPop_eq. case_if; [done|]. case_if; simpl.
  - destruct (truncated_wf h Hwf) as [H1 H2]; [lia|].
    replace (cell h (hp_size h)) with (cell h 1) in H1, H2 by (f_equal; lia).
    rewrite setIndex_size. done.
  - by destruct (vacated_bubbled_wf h (cell h 1) 1 Hwf ltac:(lia) eq_refl) as (? & ? & ?).
Qed.

Lemma linearSearch_spec h v n j :
  match linearSearch h v n j with
  | Some k => j <= k < j + n /\ cell h k = v
  | None => forall k, j <= k < j + n -> cell h k <> v
  end.
Proof.
  revert j. induction n as [|n IH]; intros j; simpl; [lia|].
  destruct (Z.eqb_spec (cell h j) v); [split; [lia|done]|].
  specialize (IH (S j)). destruct (linearSearch h v n (S j)) as [k|].
  - destruct IH. split; [lia|done].
  - intros k Hk. destruct (decide (k = j)) as [->|]; [done|]. apply IH. lia.
Qed.

(** The position map never sends [loopyMaxHeapRemove] to a wrong cell: a
    stale index cannot survive the fallback search. *)
Lemma removeIndex_spec h v :
  heap_wf h ->
  (removeIndex h v = 0 /\ v ∉ elems h) \/
  (1 <= removeIndex h v <= hp_size h /\ cell h (removeIndex h v) = v).
Proof.
  intros Hwf. pose proof (wf_pos h Hwf v) as Hp. pose proof (linearSearch_spec h v (hp_size h) 1) as Hl.
  unfold removeIndex. destruct (Nat.eqb_spec (mappedIndex h v) 0) as [E|Hne]; simpl.
  - destruct (linearSearch h v (hp_size h) 1) as [j|].
    + right. split; [lia|apply Hl].
    + left. split; [done|]. rewrite elems_In by apply Hwf. intros (k & Hk & Hc).
      apply (Hl k); [lia|done].
  - destruct (Hp Hne) as [Hle Hc]. right.
    rewrite (proj2 (Nat.ltb_ge _ _)) by lia. rewrite (proj2 (Z.eqb_eq _ _)) by done.
    simpl. split; [lia|done].
Qed.

Lemma heapRemove_eq v h :
  heapRemove v h =
    if hp_size h =? 0 then (h, false)
    else
      let i := removeIndex h v in
      if i =? 0 then (h, false)
      else if i =? hp_size h then ((setIndex h v 0) <| hp_size ::= pred |>, true)
      else
        let h1 := vacated h v i in
        (if (1 <? i) && (cell h1 (PARENT i) <? cell h1 i)%Z
         then heapBubbleUp h1 i else heapBubbleDown h1 i, true).
Proof.
  unfold heapRemove. destruct (hp_size h =? 0); [done|]. cbn zeta.
  destruct (removeIndex h v =? 0); [done|]. rewrite setIndex_size.
  destruct (removeIndex h v =? hp_size h); [done|].
  unfold vacated. rewrite (setIndex_cell h v 0). by destruct (_ && _).
Qed.

Lemma heapRemove_contract v h :
  heap_wf h ->
  heap_wf (heapRemove v h).1 /\
  if (heapRemove v h).2
  then elems h ≡ₚ v :: elems (heapRemove v h).1
  else (heapRemove v h).1 = h /\ v ∉ elems h.
Proof.
  intros Hwf. rewrite heapRemove_eq. destruct (Nat.eqb_spec (hp_size h) 0) as [E0|Hn0]; simpl.
  { split; [done|split; [done|]]. rewrite elems_In by apply Hwf. intros (k & Hk & _). lia. }
  destruct (removeIndex_spec h v Hwf) as [[E Hv]|[Hi Hc]]; cbn zeta.
  { by rewrite E. }
  rewrite (proj2 (Nat.eqb_neq _ 0)) by lia.
  destruct (Nat.eqb_spec (removeIndex h v) (hp_size h)) as [E|Hne]; simpl.
  - destruct (truncated_wf h Hwf) as [H1 H2]; [lia|].
    replace (cell h (hp_size h)) with v in H1, H2 by congruence. done.
  - destruct (vacated_bubbled_wf h v (removeIndex h v) Hwf) as (? & ? & _); [lia|done|done].
Qed.

Lemma heapContains_contract v h :
  heap_wf h -> heapContains v h = bool_decide (v ∈ elems h).
Proof.
  intros Hwf. symmetry. unfold heapContains.
  pose proof (linearSearch_spec h v (hp_size h) 1) as Hl.
  assert (HIn : v ∈ elems h <-> exists k, 1 <= k <= hp_size h /\ cell h k = v)
    by (apply elems_In, Hwf).
  destruct (Nat.eqb_spec (hp_size h) 0).
  { apply bool_decide_eq_false_2. rewrite HIn. intros (k & ? & _). lia. }
  cbn zeta. destruct (_ && _) eqn:E; bool_to_prop.
  - apply bool_decide_eq_true_2, HIn. exists (mappedIndex h v). split; [lia|done].
  - destruct (linearSearch h v (hp_size h) 1) as [k|].
    + apply bool_decide_eq_true_2, HIn. exists k. split; [lia|apply Hl].
    + apply bool_decide_eq_false_2. rewrite HIn. intros (k & ? & ?). by apply (Hl k); [lia|].
Qed.

(** The root of an ordered heap is its maximum. *)
Lemma root_max h : heap_wf h -> forall k, 1 <= k <= hp_size h -> (cell h k <= cell h 1)%Z.
Proof.
  intros Hwf k. induction k as [k IH] using lt_wf_ind. intros Hk.
  destruct (decide (k = 1)) as [->|]; [lia|].
  assert (1 <= PARENT k < k) by heap_lia.
  pose proof (wf_order h Hwf k ltac:(lia)). specialize (IH (PARENT k)). lia.
Qed.

Lemma root_max_elems h v : heap_wf h -> v ∈ elems h -> (v <= cell h 1)%Z.
Proof.
  intros Hwf. rewrite elems_In by apply Hwf. intros (k & Hk & <-). by apply root_max.
Qed.

Lemma heapInit_wf a n : heap_wf (loopyMaxHeapInit true true a n).1.
Proof.
  unfold loopyMaxHeapInit. cbn zeta. set (c := if n =? 0 then 16 else n). simpl.
  split; [split| |]; simpl; rewrite ?length_replicate; try lia.
  - intros k. simpl. lia.
  - intros v. unfold mappedIndex. simpl. case_if; [|done].
    apply tracked_spec in Heqb as [_ Hv]. simpl in Hv.
    by rewrite lookup_total_replicate_2.
Qed.

(** Popping until the heap is empty. *)
Fixpoint drain (n : nat) (h : loopyMaxHeap) : list loopyHeapValue :=
  match n with
  | 0 => []
  | S n => let '(h', v) := heapPop h in v :: drain n h'
  end.

Lemma drain_perm n h : heap_wf h -> hp_size h = n -> drain n h ≡ₚ elems h.
Proof.
  revert h. induction n as [|n IH]; intros h Hwf Hn; simpl.
  - unfold elems. by rewrite Hn.
  - destruct (heapPop_contract h Hwf) as [Hwf' Hc]. rewrite Hn in Hc. simpl in Hc.
    destruct (heapPop h) as [h' v]. simpl in *. destruct Hc as (-> & -> & Hs).
    by rewrite IH by (rewrite ?Hs; done).
Qed.

(** A decision procedure for well-formedness, used on concrete heaps. *)
Definition heap_wfb (h : loopyMaxHeap) : bool :=
  (length (hp_data h) =? S (hp_capacity h)) && (hp_size h <=? hp_capacity h) &&
  (length (hp_posMap h) =? hp_posMapSize h) &&
  forallb (fun k => (cell h k <=? cell h (PARENT k))%Z) (seq 2 (pred (hp_size h))) &&
  forallb (fun n => let v := Z.of_nat n in
             (mappedIndex h v =? 0) ||
             (mappedIndex h v <=? hp_size h) && (cell h (mappedIndex h v) =? v)%Z)
          (seq 0 (hp_posMapSize h)).

Lemma heap_wfb_sound h : heap_wfb h = true -> heap_wf h.
Proof.
  unfold heap_wfb. rewrite !andb_true_iff, !forallb_forall.
  intros ((((Hd & Hs) & Hp) & Ho) & Hm). bool_to_prop.
  split; [by split|..].
  - intros k Hk. apply Z.leb_le, Ho, in_seq. lia.
  - intros v Hv. assert (Ht : tracked h v = true) by (unfold mappedIndex in Hv; by destruct (tracked h v)).
    apply tracked_spec in Ht as [Hv0 Hvs].
    specialize (Hm (Z.to_nat v) ltac:(apply in_seq; lia)). cbn zeta in Hm.
    rewrite Z2Nat.id in Hm by done. destruct (mappedIndex h v =? 0) eqn:E; simpl in Hm; bool_to_prop; [done|by split].
Qed.

(** ** Properties *)

(** The two bubbling loops terminate: each function satisfies the
    unfolding equation of its C [while] loop at every well-shaped heap and
    index, so the fuel of the model never cuts an execution short. *)
Theorem heap_loops_unfold h i :
  heap_shape h -> 1 <= i ->
  heapBubbleUp h i =
    (if 1 <? i then
       if (cell h i <=? cell h (PARENT i))%Z then h
       else heapBubbleUp (heapSwap h i (PARENT i)) (PARENT i)
     else h) /\
  heapBubbleDown h i =
    (if largestOf h i =? i then h
     else heapBubbleDown (heapSwap h i (largestOf h i)) (largestOf h i)).
Proof. intros. split; [apply heapBubbleUp_eq|by apply heapBubbleDown_eq]. Qed.

(** Insertion into a well-formed heap leaves a well-formed heap with the
    value added (duplicates counted), and succeeds exactly when the
    reallocations it needs succeed; a failed insertion changes no element. *)
Theorem heapInsert_correct junk growOk posOk v h :
  heap_wf h ->
  let '(h', ok) := heapInsert junk growOk posOk v h in
  heap_wf h' /\
  ok = ((hp_size h <? hp_capacity h) || growOk) &&
       ((v <? 0)%Z || (Z.to_nat v <? hp_posMapSize h) || posOk) /\
  if ok then elems h' ≡ₚ v :: elems h else elems h' = elems h.
Proof.
  intros Hwf. pose proof (heapInsert_contract junk growOk posOk v h Hwf) as [? ?].
  pose proof (heapInsert_ok junk growOk posOk v h).
  by destruct (heapInsert junk growOk posOk v h).
Qed.

(** Popping a non-empty well-formed heap returns its maximum and removes
    exactly one occurrence of it; popping an empty heap returns the sentinel
    and changes nothing.  The heap stays well formed. *)
Theorem heapPop_correct h :
  heap_wf h ->
  let '(h', v) := heapPop h in
  heap_wf h' /\
  if hp_size h =? 0 then h' = h /\ v = LOOPY_HEAP_EMPTY_VALUE
  else v = heapPeek h /\ (forall w, w ∈ elems h -> (w <= v)%Z) /\ elems h ≡ₚ v :: elems h'.
Proof.
  intros Hwf. pose proof (heapPop_contract h Hwf) as [Hwf' Hc].
  pose proof (fun w => root_max_elems h w Hwf). unfold heapPeek.
  destruct (heapPop h) as [h' v], (hp_size h =? 0); simpl in *; split; try done.
  - by injection Hc.
  - by destruct Hc as (-> & ? & ?).
Qed.

(** C16. Removal of an arbitrary value returns true exactly when the value is
    present, removes one occurrence of it and restores well-formedness; when
    the value is absent nothing changes. *)
Theorem heapRemove_correct v h :
  heap_wf h ->
  let '(h', ok) := heapRemove v h in
  heap_wf h' /\ (ok = true <-> v ∈ elems h) /\
  if ok then elems h ≡ₚ v :: elems h' else h' = h.
Proof.
  intros Hwf. pose proof (heapRemove_contract v h Hwf) as [Hwf' Hc].
  destruct (heapRemove v h) as [h' [|]]; simpl in *.
  - split; [done|]. split; [|done]. split; [|done]. intros _. rewrite Hc. apply list_elem_of_here.
  - destruct Hc as [-> Hv]. done.
Qed.

(** The fast path through the position map and the linear scan together
    decide membership. *)
Theorem heapContains_correct v h :
  heap_wf h -> loopyMaxHeapContains (Some h) v = true <-> v ∈ elems h.
Proof. intros Hwf. simpl. rewrite heapContains_contract by done. apply bool_decide_eq_true. Qed.

(** Popping until empty lists every element once, in non-increasing
    order. *)
Theorem heap_drain_sorted h :
  heap_wf h -> drain (hp_size h) h ≡ₚ elems h /\ Sorted Z.ge (drain (hp_size h) h).
Proof.
  intros Hwf. split; [by apply drain_perm|]. remember (hp_size h) as n eqn:En.
  revert h Hwf En. induction n as [|n IH]; intros h Hwf En; simpl; [constructor|].
  destruct (heapPop_contract h Hwf) as [Hwf' Hc]. rewrite <- En in Hc. simpl in Hc.
  destruct (heapPop h) as [h' v] eqn:Epop. simpl in *. destruct Hc as (-> & He & Hs).
  constructor; [by apply IH|]. destruct n as [|n]; simpl; [constructor|].
  destruct (heapPop h') as [h'' w] eqn:Epop'. constructor.
  destruct (heapPop_contract h' Hwf') as [_ Hc']. rewrite Hs, Epop' in Hc'. simpl in Hc'.
  destruct Hc' as (-> & He' & _). apply Z.le_ge, root_max_elems; [done|].
  rewrite He, He'. set_solver.
Qed.

(** ** Witnesses *)

(** The values [vs], inserted in order into a heap of capacity 2; the two
    arrays grow on the way. *)
Definition heap_of (vs : list loopyHeapValue) : loopyMaxHeap :=
  foldl (fun h v => (heapInsert 0%Z true true v h).1)
    (loopyMaxHeapInit true true (MaxHeapS [] [] 0 0 0 false) 2).1 vs.

Lemma heap_loops_unfold_witness :
  heap_shape (heap_of [4; 9; 2; 7]%Z) /\ 1 <= 1 /\
  heapBubbleDown (heap_of [4; 9; 2; 7]%Z) 1 = heap_of [4; 9; 2; 7]%Z.
Proof.
  assert (H : heap_shape (heap_of [4; 9; 2; 7]%Z)) by (by split; vm_compute; repeat constructor).
  split; [exact H|]. split; [lia|].
  rewrite (proj2 (heap_loops_unfold _ 1 H (le_n 1))). reflexivity.
Defined.

Lemma heapInsert_correct_witness :
  heap_wf (heap_of [4; 9; 9; -1; 20]%Z) /\
  (heapInsert 0%Z true true 12%Z (heap_of [4; 9; 9; -1; 20]%Z)).2 = true /\
  let '(h', ok) := heapInsert 0%Z true true 12%Z (heap_of [4; 9; 9; -1; 20]%Z) in heap_wf h'.
Proof.
  assert (H : heap_wf (heap_of [4; 9; 9; -1; 20]%Z)) by (apply heap_wfb_sound; reflexivity).
  split; [exact H|]. split; [reflexivity|].
  pose proof (heapInsert_correct 0%Z true true 12%Z _ H) as P.
  destruct (heapInsert _ _ _ _ _) as [h' ok]. destruct P as [P _]. exact P.
Defined.

Lemma heapPop_correct_witness :
  heap_wf (heap_of [4; 9; 9; -1; 20]%Z) /\ (heapPop (heap_of [4; 9; 9; -1; 20]%Z)).2 = 20%Z /\
  let '(h', v) := heapPop (heap_of [4; 9; 9; -1; 20]%Z) in heap_wf h'.
Proof.
  assert (H : heap_wf (heap_of [4; 9; 9; -1; 20]%Z)) by (apply heap_wfb_sound; reflexivity).
  split; [exact H|]. split; [reflexivity|].
  pose proof (heapPop_correct _ H) as P. destruct (heapPop _) as [h' v]. destruct P as [P _]. exact P.
Defined.

Lemma heapRemove_correct_witness :
  heap_wf (heap_of [4; 9; 9; -1; 20]%Z) /\
  let '(h', ok) := heapRemove (-1)%Z (heap_of [4; 9; 9; -1; 20]%Z) in
  heap_wf h' /\ (ok = true <-> (-1)%Z ∈ elems (heap_of [4; 9; 9; -1; 20]%Z)).
Proof.
  assert (H : heap_wf (heap_of [4; 9; 9; -1; 20]%Z)) by (apply heap_wfb_sound; reflexivity).
  split; [exact H|]. pose proof (heapRemove_correct (-1)%Z _ H) as P.
  destruct (heapRemove _ _) as [h' ok]. destruct P as (P1 & P2 & _). split; [exact P1|exact P2].
Defined.

Lemma heapContains_correct_witness :
  heap_wf (heap_of [4; 9; 9; -1; 20]%Z) /\ 9%Z ∈ elems (heap_of [4; 9; 9; -1; 20]%Z).
Proof.
  assert (H : heap_wf (heap_of [4; 9; 9; -1; 20]%Z)) by (apply heap_wfb_sound; reflexivity).
  split; [exact H|]. exact (proj1 (heapContains_correct 9%Z _ H) eq_refl).
Defined.

Lemma heap_drain_sorted_witness :
  heap_wf (heap_of [4; 9; 9; -1; 20]%Z) /\
  drain 5 (heap_of [4; 9; 9; -1; 20]%Z) = [20; 9; 9; 4; -1]%Z /\
  Sorted Z.ge (drain 5 (heap_of [4; 9; 9; -1; 20]%Z)).
Proof.
  assert (H : heap_wf (heap_of [4; 9; 9; -1; 20]%Z)) by (apply heap_wfb_sound; reflexivity).
  split; [exact H|]. split; [reflexivity|]. exact (proj2 (heap_drain_sorted _ H)).
Defined.
