(* ===== verification/Spsc.v ===== *)
(** * The lock-free ring of [src/loopyChannel.c] (channels of type SPSC)

    [loopyChannelSPSC] is the ring; [head] and [tail] are [size_t] counters
    that only grow and wrap at 2^64.  [spscTrySend] and [spscTryRecv] are the
    two operations as they run alone.  The concurrent behaviour is the step
    relation [spsc_step]: the producer and the consumer run the same code one
    atomic operation at a time, in any interleaving, each with a program
    counter ([producer_pc], [consumer_pc]) that carries its local variables.
    The granularity is the atomic load, the atomic store and the [memcpy]; the
    release store of an index after the [memcpy] and the acquire load before
    the next one make these the only observable orders, and [spsc_no_race]
    shows that the two [memcpy]s never touch the same slot.

    [sent] and [rcvd] record what was published and what was taken; the code
    does not have them. *)

From S2P Require Import Prelude.

(** ** Data *)

Record loopyChannelSPSC := SPSC {
  sp_buffer : bytes;
  sp_capacity : Z;
  sp_elementSize : nat;
  sp_mask : Z;
  sp_head : Z;
  sp_cachedTail : Z;
  sp_tail : Z;
  sp_cachedHead : Z
}.

#[export] Instance SPSC_rebuild : Rebuild loopyChannelSPSC := fun q =>
  SPSC (sp_buffer q) (sp_capacity q) (sp_elementSize q) (sp_mask q) (sp_head q)
    (sp_cachedTail q) (sp_tail q) (sp_cachedHead q).

(** [loopyChannelStatus]; an [ssize_t] result is one of these or a count. *)
Definition LOOPY_CHANNEL_OK : Z := 0.
Definition LOOPY_CHANNEL_ERROR : Z := (-1)%Z.
Definition LOOPY_CHANNEL_INVALID : Z := (-2)%Z.
Definition LOOPY_CHANNEL_TIMEOUT : Z := (-3)%Z.
Definition LOOPY_CHANNEL_CLOSED : Z := (-5)%Z.
Definition LOOPY_CHANNEL_FULL : Z := (-100)%Z.
Definition LOOPY_CHANNEL_EMPTY : Z := (-101)%Z.

(** ** Round up to the next power of two *)

(** [n |= n >> k] *)
Definition smear (k n : Z) : Z := Z.lor n (Z.shiftr n k).

Definition nextPowerOf2 (n : Z) : Z :=
  if (n =? 0)%Z then 1%Z
  else
    let n := (n -64 1) in
    let n := smear 1 n in
    let n := smear 2 n in
    let n := smear 4 n in
    let n := smear 8 n in
    let n := smear 16 n in
    let n := smear 32 n in
    (n +64 1).

(** ** The ring alone *)

Definition spscInit (mallocOk : bool) (junk : bytes) (capacity : Z) (elementSize : nat)
    : option loopyChannelSPSC :=
  let actualCapacity := nextPowerOf2 (capacity +64 1) in
  if negb mallocOk then None
  else Some (SPSC (resize (Z.to_nat (actualCapacity *64 Z.of_nat elementSize)) Byte.x00 junk)
               capacity elementSize (actualCapacity -64 1) 0 0 0 0).

(** The byte offset of the slot a counter designates. *)
Definition slotOffset (q : loopyChannelSPSC) (counter : Z) : nat :=
  Z.to_nat (Z.land counter (sp_mask q)) * sp_elementSize q.

Definition slot (q : loopyChannelSPSC) (counter : Z) : bytes :=
  load_at (sp_buffer q) (slotOffset q counter) (sp_elementSize q).

(** The producer's view of the number of elements. *)
Definition producerCount (q : loopyChannelSPSC) (head : Z) : Z :=
  Z.land (head -64 sp_cachedTail q) (sp_mask q).

(** [memcpy] into the slot of [head]. *)
Definition copyIn (q : loopyChannelSPSC) (head : Z) (data : bytes) : loopyChannelSPSC :=
  q <| sp_buffer := store_at (sp_buffer q) (slotOffset q head) data |>.

Definition spscTrySend (data : bytes) (q : loopyChannelSPSC) : loopyChannelSPSC * bool :=
  if negb (length data =? sp_elementSize q) then (q, false)
  else
    let head := sp_head q in
    let publish q := ((copyIn q head data) <| sp_head := (head +64 1) |>, true) in
    if (sp_capacity q <=? producerCount q head)%Z then
      let q := q <| sp_cachedTail := sp_tail q |> in
      if (sp_capacity q <=? producerCount q head)%Z then (q, false)
      else publish q
    else publish q.

(** Returns the [ssize_t] result and the bytes copied to the caller. *)
Definition spscTryRecv (bufLen : nat) (q : loopyChannelSPSC)
    : loopyChannelSPSC * (Z * bytes) :=
  if bufLen <? sp_elementSize q then (q, (LOOPY_CHANNEL_INVALID, []))
  else
    let tail := sp_tail q in
    let take q := (q <| sp_tail := (tail +64 1) |>, (Z.of_nat (sp_elementSize q), slot q tail)) in
    if (tail =? sp_cachedHead q)%Z then
      let q := q <| sp_cachedHead := sp_head q |> in
      if (tail =? sp_cachedHead q)%Z then (q, (LOOPY_CHANNEL_EMPTY, []))
      else take q
    else take q.

Definition spscLen (q : loopyChannelSPSC) : Z := (sp_head q -64 sp_tail q).
Definition spscIsFull (q : loopyChannelSPSC) : bool :=
  (sp_capacity q <=? (sp_head q -64 sp_tail q))%Z.
Definition spscIsEmpty (q : loopyChannelSPSC) : bool := (sp_head q =? sp_tail q)%Z.

(** ** The ring with its two threads *)

Inductive producer_pc :=
  | PIdle
  | PCheck (data : bytes) (head : Z)    (* head loaded; test the cached tail *)
  | PRefresh (data : bytes) (head : Z)  (* looked full; load tail, test again *)
  | PCopy (data : bytes) (head : Z)     (* room; memcpy *)
  | PPublish (data : bytes) (head : Z). (* copied; store head + 1 *)

Inductive consumer_pc :=
  | CIdle
  | CCheck (tail : Z)
  | CRefresh (tail : Z)
  | CCopy (tail : Z)
  | CPublish (tail : Z) (buf : bytes).

Record spscSys := Sys {
  ring : loopyChannelSPSC;
  ppc : producer_pc;
  cpc : consumer_pc;
  sent : list bytes;
  rcvd : list bytes
}.

#[export] Instance Sys_rebuild : Rebuild spscSys :=
  fun s => Sys (ring s) (ppc s) (cpc s) (sent s) (rcvd s).

(** One atomic action of [spscTrySend]. *)
Inductive producer_step : spscSys -> spscSys -> Prop :=
  | p_load s data :
      ppc s = PIdle -> length data = sp_elementSize (ring s) ->
      producer_step s (s <| ppc := PCheck data (sp_head (ring s)) |>)
  | p_room s data head :
      ppc s = PCheck data head ->
      (sp_capacity (ring s) <=? producerCount (ring s) head)%Z = false ->
      producer_step s (s <| ppc := PCopy data head |>)
  | p_looks_full s data head :
      ppc s = PCheck data head ->
      (sp_capacity (ring s) <=? producerCount (ring s) head)%Z = true ->
      producer_step s (s <| ppc := PRefresh data head |>)
  | p_refresh s data head q :
      ppc s = PRefresh data head ->
      q = (ring s) <| sp_cachedTail := sp_tail (ring s) |> ->
      producer_step s (s <| ring := q |>
        <| ppc := if (sp_capacity q <=? producerCount q head)%Z then PIdle else PCopy data head |>)
  | p_copy s data head :
      ppc s = PCopy data head ->
      producer_step s (s <| ring ::= fun q => copyIn q head data |> <| ppc := PPublish data head |>)
  | p_publish s data head :
      ppc s = PPublish data head ->
      producer_step s (s <| ring ::= fun q => q <| sp_head := (head +64 1) |> |>
        <| ppc := PIdle |> <| sent ::= fun l => l ++ [data] |>).

(** One atomic action of [spscTryRecv]. *)
Inductive consumer_step : spscSys -> spscSys -> Prop :=
  | c_load s :
      cpc s = CIdle -> consumer_step s (s <| cpc := CCheck (sp_tail (ring s)) |>)
  | c_some s tail :
      cpc s = CCheck tail -> (tail =? sp_cachedHead (ring s))%Z = false ->
      consumer_step s (s <| cpc := CCopy tail |>)
  | c_looks_empty s tail :
      cpc s = CCheck tail -> (tail =? sp_cachedHead (ring s))%Z = true ->
      consumer_step s (s <| cpc := CRefresh tail |>)
  | c_refresh s tail q :
      cpc s = CRefresh tail ->
      q = (ring s) <| sp_cachedHead := sp_head (ring s) |> ->
      consumer_step s (s <| ring := q |>
        <| cpc := if (tail =? sp_cachedHead q)%Z then CIdle else CCopy tail |>)
  | c_copy s tail :
      cpc s = CCopy tail ->
      consumer_step s (s <| cpc := CPublish tail (slot (ring s) tail) |>)
  | c_publish s tail buf :
      cpc s = CPublish tail buf ->
      consumer_step s (s <| ring ::= fun q => q <| sp_tail := (tail +64 1) |> |>
        <| cpc := CIdle |> <| rcvd ::= fun l => l ++ [buf] |>).

Definition spsc_step (s s' : spscSys) : Prop := producer_step s s' \/ consumer_step s s'.

Definition spsc_start (q : loopyChannelSPSC) : spscSys := Sys q PIdle CIdle [] [].

(** ** [nextPowerOf2] *)

(** Bit [i] of [y] is set when one of the [w] bits of [x] from [i] on is. *)
Definition smeared (x w y : Z) : Prop :=
  forall i, (0 <= i)%Z ->
    Z.testbit y i = true <-> exists j, (i <= j < i + w)%Z /\ Z.testbit x j = true.

Lemma smear_smeared x w y : (0 < w)%Z -> smeared x w y -> smeared x (w + w) (smear w y).
Proof.
  intros Hw Hs i Hi. unfold smear.
  rewrite Z.lor_spec, Z.shiftr_spec, orb_true_iff, (Hs i), (Hs (i + w)%Z) by lia.
  split.
  - intros [[j ?]|[j ?]]; exists j; intuition lia.
  - intros (j & Hj & ?). destruct (decide (j < i + w)%Z); [left|right]; exists j; intuition lia.
Qed.

Lemma smeared_ones x y :
  (0 < x < w64)%Z -> smeared x 64 y -> y = Z.ones (Z.log2 x + 1).
Proof.
  intros Hx Hs. assert (Hl : (0 <= Z.log2 x < 64)%Z).
  { split; [apply Z.log2_nonneg|]. apply Z.log2_lt_pow2; unfold w64 in *; lia. }
  apply Z.bits_inj'. intros i Hi. apply eq_true_iff_eq. unfold smeared in Hs. rewrite (Hs i Hi).
  rewrite Z.testbit_ones_nonneg, Z.ltb_lt by lia. split.
  - intros (j & ? & Hj). destruct (decide (Z.log2 x < j)%Z); [|lia].
    rewrite Z.bits_above_log2 in Hj; lia || done.
  - intros ?. exists (Z.log2 x). split; [lia|]. apply Z.bit_log2; lia.
Qed.

Lemma nextPowerOf2_spec n :
  (1 <= n <= 2 ^ 63)%Z -> nextPowerOf2 n = (2 ^ Z.log2_up n)%Z.
Proof.
  intros Hn. unfold nextPowerOf2. destruct (Z.eqb_spec n 0); [lia|].
  rewrite (u64_small (n - 1)) by (unfold in64, w64; lia).
  destruct (decide (n = 1)%Z) as [->|]; [reflexivity|].
  assert (Hs : smeared (n - 1) (32 + 32) (smear 32 (smear 16 (smear 8 (smear 4 (smear 2
    (smear 1 (n - 1)))))))).
  { apply (smear_smeared _ 32), (smear_smeared _ 16), (smear_smeared _ 8),
      (smear_smeared _ 4), (smear_smeared _ 2), (smear_smeared _ 1); try done. intros i Hi. split.
    - intros ?. exists i. split; [lia|done].
    - intros (j & ? & ?). by replace i with j by lia. }
  rewrite (smeared_ones (n - 1) _ ltac:(unfold w64; lia) Hs).
  rewrite Z.ones_equiv, Z.log2_up_eqn by lia.
  assert (Hl : (Z.log2 (n - 1) < 63)%Z) by (apply Z.log2_lt_pow2; lia).
  assert (Hp : (2 ^ (Z.log2 (n - 1) + 1) <= 2 ^ 63)%Z).
  { apply Z.pow_le_mono_r; [lia|]. pose proof (Z.log2_nonneg (n - 1)). lia. }
  rewrite u64_small.
  - replace (Z.pred (2 ^ (Z.log2 (n - 1) + 1)) + 1)%Z with (2 ^ (Z.log2 (n - 1) + 1))%Z by lia.
    do 2 f_equal; lia.
  - pose proof (Z.pow_nonneg 2 (Z.log2 (n - 1) + 1)). unfold in64, w64. lia.
Qed.

(** ** Invariant

    The counters stand for two numbers that never wrap: [ns], how many
    elements were published, and [nr], how many were taken.  [c] and [d] are
    the values of [nr] and [ns] at the last refresh of the two caches. *)

Definition ns (s : spscSys) : Z := Z.of_nat (length (sent s)).
Definition nr (s : spscSys) : Z := Z.of_nat (length (rcvd s)).

(** The shape of a ring of [2 ^ k] slots; no operation changes it. *)
Record spsc_shape (k : Z) (q : loopyChannelSPSC) : Prop := {
  shape_k : (0 <= k <= 63)%Z;
  shape_mask : sp_mask q = (2 ^ k - 1)%Z;
  shape_capacity : (1 <= sp_capacity q < 2 ^ k)%Z;
  shape_buffer : length (sp_buffer q) = Z.to_nat (2 ^ k) * sp_elementSize q
}.

(** What the producer's locals mean at each program point. *)
Definition producer_ok (c : Z) (s : spscSys) : Prop :=
  match ppc s with
  | PIdle => True
  | PCheck data h | PRefresh data h =>
      h = u64 (ns s) /\ length data = sp_elementSize (ring s)
  | PCopy data h =>
      h = u64 (ns s) /\ length data = sp_elementSize (ring s) /\
      (ns s < c + sp_capacity (ring s))%Z
  | PPublish data h =>
      h = u64 (ns s) /\ length data = sp_elementSize (ring s) /\
      (ns s < c + sp_capacity (ring s))%Z /\ slot (ring s) (u64 (ns s)) = data
  end.

Definition consumer_ok (d : Z) (s : spscSys) : Prop :=
  match cpc s with
  | CIdle => True
  | CCheck t | CRefresh t => t = u64 (nr s)
  | CCopy t => t = u64 (nr s) /\ (nr s < d)%Z
  | CPublish t buf => t = u64 (nr s) /\ (nr s < d)%Z /\ sent s !! length (rcvd s) = Some buf
  end.

Record spsc_inv_at (k c d : Z) (s : spscSys) : Prop := {
  inv_shape : spsc_shape k (ring s);
  inv_head : sp_head (ring s) = u64 (ns s);
  inv_tail : sp_tail (ring s) = u64 (nr s);
  inv_ctail : sp_cachedTail (ring s) = u64 c;
  inv_chead : sp_cachedHead (ring s) = u64 d;
  inv_order : (c <= nr s <= d /\ d <= ns s <= c + sp_capacity (ring s))%Z;
  inv_slots : forall i x, length (rcvd s) <= i -> sent s !! i = Some x ->
    slot (ring s) (u64 (Z.of_nat i)) = x;
  inv_fifo : rcvd s = take (length (rcvd s)) (sent s);
  inv_producer : producer_ok c s;
  inv_consumer : consumer_ok d s
}.

Definition spsc_inv (k : Z) (s : spscSys) : Prop := exists c d, spsc_inv_at k c d s.

(** *** Slots *)

Lemma slotOffset_u64 k q i :
  spsc_shape k q -> slotOffset q (u64 i) = Z.to_nat (i mod 2 ^ k) * sp_elementSize q.
Proof.
  intros [Hk Hm _ _]. unfold slotOffset. rewrite Hm, u64_land_mask by lia. done.
Qed.

Lemma slotOffset_bound k q i :
  spsc_shape k q -> slotOffset q (u64 i) + sp_elementSize q <= length (sp_buffer q).
Proof.
  intros Hq. rewrite (slotOffset_u64 k) by done. destruct Hq as [Hk _ _ ->].
  pose proof (Z.mod_pos_bound i (2 ^ k) ltac:(lia)).
  assert (S (Z.to_nat (i mod 2 ^ k)) <= Z.to_nat (2 ^ k)) by lia. nia.
Qed.

(** Two counters less than a round apart designate different slots. *)
Lemma slotOffset_disjoint k q i j :
  spsc_shape k q -> (i < j < i + 2 ^ k)%Z ->
  slotOffset q (u64 i) + sp_elementSize q <= slotOffset q (u64 j) \/
  slotOffset q (u64 j) + sp_elementSize q <= slotOffset q (u64 i).
Proof.
  intros Hq Hij. rewrite !(slotOffset_u64 k) by done. destruct Hq as [Hk _ _ _].
  assert (Hne : (i mod 2 ^ k <> j mod 2 ^ k)%Z).
  { intros E. assert (Hd : ((j - i) mod 2 ^ k = 0)%Z)
      by (rewrite Zminus_mod, E, Z.sub_diag; apply Z.mod_0_l; lia).
    rewrite Z.mod_small in Hd by lia. lia. }
  pose proof (Z.mod_pos_bound i (2 ^ k) ltac:(lia)).
  pose proof (Z.mod_pos_bound j (2 ^ k) ltac:(lia)).
  destruct (decide (i mod 2 ^ k < j mod 2 ^ k)%Z); [left|right]; nia.
Qed.

Lemma copyIn_shape k q h data :
  spsc_shape k q -> length data = sp_elementSize q ->
  spsc_shape k (copyIn q (u64 h) data).
Proof.
  intros Hq Hd. pose proof (slotOffset_bound k q h Hq). destruct Hq. split; try done.
  cbn. rewrite store_at_length; lia || done.
Qed.

Lemma copyIn_same k q h data :
  spsc_shape k q -> length data = sp_elementSize q -> slot (copyIn q (u64 h) data) (u64 h) = data.
Proof.
  intros Hq Hd. pose proof (slotOffset_bound k q h Hq).
  unfold slot. cbn. change (slotOffset _ (u64 h)) with (slotOffset q (u64 h)).
  rewrite <- Hd. apply load_store_same. lia.
Qed.

Lemma copyIn_other k q h data i :
  spsc_shape k q -> length data = sp_elementSize q -> (i < h < i + 2 ^ k)%Z ->
  slot (copyIn q (u64 h) data) (u64 i) = slot q (u64 i).
Proof.
  intros Hq Hd Hi. pose proof (slotOffset_bound k q h Hq). pose proof (slotOffset_bound k q i Hq).
  pose proof (slotOffset_disjoint k q i h Hq Hi).
  unfold slot. cbn. change (slotOffset _ (u64 i)) with (slotOffset q (u64 i)).
  apply load_store_disjoint; lia.
Qed.

#[local] Arguments slot : simpl never.
#[local] Arguments copyIn : simpl never.

(** *** What the two tests of the code decide *)

Lemma producerCount_exact k c s q :
  spsc_shape k q -> sp_cachedTail q = u64 c -> (0 <= ns s - c <= sp_capacity q)%Z ->
  producerCount q (u64 (ns s)) = (ns s - c)%Z.
Proof.
  intros [Hk Hm Hc _] Ht Hr. unfold producerCount.
  rewrite Ht, Hm. autorewrite with loopy_simpl.
  rewrite u64_land_mask by lia. apply Z.mod_small. lia.
Qed.

Lemma u64_eqb_exact a b : (a <= b < a + w64)%Z -> (u64 a =? u64 b)%Z = (a =? b)%Z.
Proof.
  intros H. apply eq_true_iff_eq. rewrite !Z.eqb_eq. split; [|by intros ->].
  intros E. assert (Hd : u64 (b - a) = 0%Z).
  { rewrite <- u64_sub_l, <- u64_sub_r, E, Z.sub_diag. reflexivity. }
  rewrite u64_small in Hd by (unfold in64; lia). lia.
Qed.

(** *** The invariant is preserved *)

Lemma sent_lookup_app s data i x :
  (sent s ++ [data]) !! i = Some x ->
  sent s !! i = Some x \/ (i = length (sent s) /\ x = data).
Proof.
  intros [?|[? Hx]]%lookup_app_Some; [by left|right].
  apply list_lookup_singleton_Some in Hx as [? ->]. split; [lia|done].
Qed.

Lemma length_snoc_Z {A} (l : list A) x : Z.of_nat (length (l ++ [x])) = (Z.of_nat (length l) + 1)%Z.
Proof. rewrite length_app; cbn; lia. Qed.

Lemma capacity_u64 k q : spsc_shape k q -> (sp_capacity q < w64)%Z.
Proof.
  intros [Hk _ Hc _]. pose proof (Z.pow_le_mono_r 2 k 63). unfold w64. lia.
Qed.

Lemma producer_preserves k c d s s' :
  spsc_inv_at k c d s -> producer_step s s' -> exists c', spsc_inv_at k c' d s'.
Proof.
  intros Hi Hs. destruct Hi as [Hsh Hh Ht Hct Hch Ho Hsl Hf Hp Hc].
  destruct Hs; unfold producer_ok in Hp; rewrite ?H in Hp.
  - (* load *) exists c. split; done.
  - (* room *) exists c. destruct Hp as [-> Hd]. split; try done. cbn. split_and!; try done.
    erewrite producerCount_exact in H0 by (done || lia). bool_to_prop.
    unfold ns in *; cbn in *; lia.
  - (* looks full *) exists c. split; done.
  - (* refresh *) exists (nr s). destruct Hp as [-> Hd]. subst q.
    assert (spsc_shape k ((ring s) <| sp_cachedTail := sp_tail (ring s) |>)) by (destruct Hsh; done).
    pose proof (producerCount_exact k (nr s) s _ ltac:(done) Ht ltac:(cbn; lia)) as Hcount.
    split; try done; [cbn; unfold ns, nr in *; cbn; lia|].
    unfold producer_ok; cbn. case_if; [done|]. rewrite Hcount in Heqb. split_and!; try done.
    unfold ns in *; cbn in *; lia.
  - (* copy *) exists c. destruct Hp as (-> & Hd & Hroom).
    assert (Hcap := shape_capacity _ _ Hsh).
    split; try done; cbn.
    + by apply copyIn_shape.
    + intros i x Hi Hx. rewrite (copyIn_other k) by
        (done || (apply lookup_lt_Some in Hx; unfold ns, nr in *; lia)). by apply Hsl.
    + unfold producer_ok; cbn. split_and!; try done. by apply (copyIn_same k).
  - (* publish *) exists c. destruct Hp as (-> & Hd & Hroom & Hslot).
    split; try done; cbn in *.
    + destruct Hsh; done.
    + unfold ns; cbn. rewrite length_snoc_Z. by autorewrite with loopy_simpl.
    + unfold ns, nr in *; cbn. rewrite length_snoc_Z. lia.
    + intros i x Hi [?|[-> ->]]%sent_lookup_app; [by apply Hsl|done].
    + rewrite take_app_le; [done|]. unfold ns, nr in Ho. lia.
    + unfold consumer_ok in *; cbn. destruct (cpc s); try done.
      destruct Hc as (? & ? & Hl). split_and!; try done. by apply lookup_app_l_Some.
Qed.

Lemma consumer_preserves k c d s s' :
  spsc_inv_at k c d s -> consumer_step s s' -> exists d', spsc_inv_at k c d' s'.
Proof.
  intros Hi Hs. destruct Hi as [Hsh Hh Ht Hct Hch Ho Hsl Hf Hp Hc].
  pose proof (capacity_u64 k _ Hsh) as Hcap.
  destruct Hs; unfold consumer_ok in Hc; rewrite ?H in Hc.
  - (* load *) exists d. split; done.
  - (* some *) exists d. subst tail. split; try done. cbn. split; [done|].
    rewrite Hch, u64_eqb_exact in H0 by lia. bool_to_prop. unfold nr in *; cbn; lia.
  - (* looks empty *) exists d. split; done.
  - (* refresh *) exists (ns s). subst tail q.
    assert (spsc_shape k ((ring s) <| sp_cachedHead := sp_head (ring s) |>)) by (destruct Hsh; done).
    split; try done; [cbn; unfold ns, nr in *; cbn; lia|].
    unfold consumer_ok; cbn. case_if; [done|]. split; [done|].
    assert (nr s <> ns s) by congruence. unfold nr in *; cbn; lia.
  - (* copy *) exists d. destruct Hc as [-> Hlt]. split; try done. cbn. split_and!; try done.
    destruct (lookup_lt_is_Some_2 (sent s) (length (rcvd s))) as [x Hx];
      [unfold ns, nr in *; lia|].
    cbn. rewrite Hx. f_equal. symmetry. by apply Hsl.
  - (* publish *) exists d. destruct Hc as (-> & Hlt & Hx).
    split; try done; cbn in *.
    + destruct Hsh; done.
    + unfold nr; cbn. rewrite length_snoc_Z. by autorewrite with loopy_simpl.
    + unfold ns, nr in *; cbn. rewrite length_snoc_Z. lia.
    + intros i x. rewrite length_app; cbn. intros Hi. apply Hsl. lia.
    + rewrite length_app, Nat.add_1_r, (take_S_r _ _ buf) by done. by rewrite <- Hf.
Qed.

Lemma spsc_preserves k s s' : spsc_inv k s -> spsc_step s s' -> spsc_inv k s'.
Proof.
  intros (c & d & Hi) [Hs|Hs].
  - destruct (producer_preserves _ _ _ _ _ Hi Hs) as [c' ?]. by exists c', d.
  - destruct (consumer_preserves _ _ _ _ _ Hi Hs) as [d' ?]. by exists c, d'.
Qed.

Lemma spscInit_inv capacity elementSize junk :
  (1 <= capacity < 2 ^ 63)%Z ->
  (nextPowerOf2 (capacity + 1) * Z.of_nat elementSize < w64)%Z ->
  exists k q, spscInit true junk capacity elementSize = Some q /\
    sp_capacity q = capacity /\ sp_elementSize q = elementSize /\
    spsc_inv k (spsc_start q).
Proof.
  intros Hc. unfold spscInit. cbn [negb].
  rewrite (u64_small (capacity + 1)) by (unfold in64, w64; lia).
  rewrite nextPowerOf2_spec by lia. intros Hz.
  set (k := Z.log2_up (capacity + 1)) in *.
  assert (Hk : (0 <= k <= 63)%Z).
  { split; [apply Z.log2_up_nonneg|]. apply Z.log2_up_le_pow2; lia. }
  pose proof (Z.log2_up_spec (capacity + 1) ltac:(lia)) as [_ Hup]. fold k in Hup.
  pose proof (Z.pow_le_mono_r 2 k 63 ltac:(lia) ltac:(lia)).
  rewrite (u64_small (_ * _)) by (unfold in64; lia).
  rewrite (u64_small (_ - 1)) by (unfold in64, w64; lia).
  exists k; eexists; split; [done|]. do 2 (split; [done|]). exists 0%Z, 0%Z.
  split; cbn; try done; [|unfold ns, nr; cbn; lia].
  split; cbn; try done; [lia|]. rewrite length_resize. lia.
Qed.

(** ** The two operations alone

    [spsc_rep k q l]: at rest, the ring [q] holds the queue [l]. *)

Definition spsc_rep (k : Z) (q : loopyChannelSPSC) (l : list bytes) : Prop :=
  exists s, spsc_inv k s /\ ring s = q /\ ppc s = PIdle /\ cpc s = CIdle /\
    sent s = rcvd s ++ l.

Lemma rep_len s l : sent s = rcvd s ++ l -> (ns s - nr s = Z.of_nat (length l))%Z.
Proof. intros E. unfold ns, nr. rewrite E, length_app. lia. Qed.

(** The whole operation is a run of the producer's steps. *)
Lemma spscTrySend_run s data :
  ppc s = PIdle -> length data = sp_elementSize (ring s) ->
  let '(q, b) := spscTrySend data (ring s) in
  rtc producer_step s (s <| ring := q |> <| sent ::= fun l => if b then l ++ [data] else l |>).
Proof.
  intros Hp Hd. destruct s as [q pp cp st rc]; cbn in *; subst pp.
  assert (Hpub : forall q, rtc producer_step (Sys q (PCopy data (sp_head q)) cp st rc)
    (Sys ((copyIn q (sp_head q) data) <| sp_head := (sp_head q +64 1) |>) PIdle cp (st ++ [data]) rc)).
  { intros q0. eapply rtc_l; [by apply (p_copy _ data (sp_head q0))|].
    eapply rtc_l; [by apply (p_publish _ data (sp_head q0))|]. apply rtc_refl. }
  assert (Hload : producer_step (Sys q PIdle cp st rc) (Sys q (PCheck data (sp_head q)) cp st rc))
    by (by apply (p_load (Sys q PIdle cp st rc))).
  unfold spscTrySend. rewrite Hd, Nat.eqb_refl. cbn [negb].
  destruct (sp_capacity q <=? producerCount q (sp_head q))%Z eqn:Hfull.
  - set (q' := q <| sp_cachedTail := sp_tail q |>).
    assert (Hr := p_refresh (Sys q (PRefresh data (sp_head q)) cp st rc) data (sp_head q) q' eq_refl eq_refl).
    destruct (sp_capacity q' <=? _)%Z;
      (eapply rtc_l; [exact Hload|]; eapply rtc_l; [by apply (p_looks_full _ data (sp_head q))|];
       eapply rtc_l; [exact Hr|]).
    + apply rtc_refl.
    + apply (Hpub q').
  - eapply rtc_l; [exact Hload|]. eapply rtc_l; [by apply (p_room _ data (sp_head q))|]. apply Hpub.
Qed.

Lemma spscTryRecv_run s bufLen :
  cpc s = CIdle -> sp_elementSize (ring s) <= bufLen ->
  let '(q, (r, buf)) := spscTryRecv bufLen (ring s) in
  rtc consumer_step s
    (s <| ring := q |> <| rcvd ::= fun l => if (0 <=? r)%Z then l ++ [buf] else l |>).
Proof.
  intros Hp Hd. destruct s as [q pp cp st rc]; cbn in *; subst cp.
  assert (Htake : forall q, rtc consumer_step (Sys q pp (CCopy (sp_tail q)) st rc)
    (Sys (q <| sp_tail := (sp_tail q +64 1) |>) pp CIdle st (rc ++ [slot q (sp_tail q)]))).
  { intros q0. eapply rtc_l; [by apply (c_copy _ (sp_tail q0))|].
    eapply rtc_l; [by eapply (c_publish _ (sp_tail q0))|]. apply rtc_refl. }
  assert (Hload : consumer_step (Sys q pp CIdle st rc) (Sys q pp (CCheck (sp_tail q)) st rc))
    by (by apply (c_load (Sys q pp CIdle st rc))).
  assert (H0 : (0 <=? Z.of_nat (sp_elementSize q))%Z = true) by (apply Z.leb_le; lia).
  unfold spscTryRecv. rewrite (proj2 (Nat.ltb_ge _ _) Hd).
  destruct (sp_tail q =? sp_cachedHead q)%Z eqn:He.
  - set (q' := q <| sp_cachedHead := sp_head q |>).
    assert (Hr := c_refresh (Sys q pp (CRefresh (sp_tail q)) st rc) (sp_tail q) q' eq_refl eq_refl).
    destruct (sp_tail q =? sp_cachedHead q')%Z;
      (eapply rtc_l; [exact Hload|]; eapply rtc_l; [by apply (c_looks_empty _ (sp_tail q))|];
       eapply rtc_l; [exact Hr|]).
    + apply rtc_refl.
    + cbn -[Z.leb slot]. rewrite H0. apply (Htake q').
  - cbn -[Z.leb slot]. rewrite H0.
    eapply rtc_l; [exact Hload|]. eapply rtc_l; [by apply (c_some _ (sp_tail q))|]. apply Htake.
Qed.

Lemma spsc_inv_rtc_producer k s s' : spsc_inv k s -> rtc producer_step s s' -> spsc_inv k s'.
Proof. apply rtc_invariant. intros a b Ha Hs. eapply spsc_preserves; [done|by left]. Qed.

Lemma spsc_inv_rtc_consumer k s s' : spsc_inv k s -> rtc consumer_step s s' -> spsc_inv k s'.
Proof. apply rtc_invariant. intros a b Ha Hs. eapply spsc_preserves; [done|by right]. Qed.

Lemma rep_length_le k q l :
  spsc_rep k q l -> (Z.of_nat (length l) <= sp_capacity q)%Z.
Proof.
  intros (s & (c & d & Hi) & <- & _ & _ & Hl). pose proof (rep_len _ _ Hl).
  destruct (inv_order _ _ _ _ Hi). lia.
Qed.

(** Neither operation changes the shape. *)
Lemma copyIn_capacity q h data : sp_capacity (copyIn q h data) = sp_capacity q.
Proof. done. Qed.

Lemma spscTrySend_decides k q l data :
  spsc_rep k q l ->
  snd (spscTrySend data q) =
    (length data =? sp_elementSize q) && (Z.of_nat (length l) <? sp_capacity q)%Z.
Proof.
  intros (s & (c & d & Hi) & <- & _ & _ & Hl). pose proof (rep_len _ _ Hl).
  destruct Hi as [Hsh Hh Ht Hct _ Ho _ _ _ _].
  unfold spscTrySend. destruct (_ =? _); [|done]. cbn [negb andb].
  rewrite Hh, (producerCount_exact k c s) by (done || lia).
  assert (Hsh' : spsc_shape k ((ring s) <| sp_cachedTail := sp_tail (ring s) |>)) by (destruct Hsh; done).
  rewrite (producerCount_exact k (nr s) s _ Hsh' Ht) by (cbn; lia).
  cbn [sp_capacity update rebuild].
  destruct (Z.leb_spec (sp_capacity (ring s)) (ns s - c)); cbn -[Z.leb Z.ltb].
  - destruct (Z.leb_spec (sp_capacity (ring s)) (ns s - nr s)); cbn -[Z.ltb];
      symmetry; [apply Z.ltb_ge|apply Z.ltb_lt]; lia.
  - symmetry. apply Z.ltb_lt. lia.
Qed.

Lemma spscTrySend_rep k q l data :
  spsc_rep k q l ->
  let '(q', b) := spscTrySend data q in spsc_rep k q' (if b then l ++ [data] else l).
Proof.
  intros Hrep. pose proof Hrep as (s & Hi & <- & Hp & Hc & Hl).
  destruct (decide (length data = sp_elementSize (ring s))) as [Hd|Hd].
  - pose proof (spscTrySend_run s data Hp Hd) as Hr.
    destruct (spscTrySend data (ring s)) as [q b]. eexists.
    split; [by eapply spsc_inv_rtc_producer|]. destruct s; cbn in *. subst. split_and!; try done.
    destruct b; [by rewrite app_assoc|done].
  - unfold spscTrySend. by rewrite (proj2 (Nat.eqb_neq _ _) Hd).
Qed.

Definition recv_result (es : nat) (l : list bytes) : Z * bytes :=
  match l with [] => (LOOPY_CHANNEL_EMPTY, []) | x :: _ => (Z.of_nat es, x) end.

Lemma spscTryRecv_decides k q l bufLen :
  spsc_rep k q l -> sp_elementSize q <= bufLen ->
  snd (spscTryRecv bufLen q) = recv_result (sp_elementSize q) l.
Proof.
  intros (s & (c & d & Hi) & <- & _ & _ & Hl) Hb. pose proof (rep_len _ _ Hl) as Hn.
  destruct Hi as [Hsh Hh Ht _ Hct Ho Hsl _ _ _]. pose proof (capacity_u64 k _ Hsh).
  assert (Hslot : forall x, l !! 0 = Some x -> slot (ring s) (sp_tail (ring s)) = x).
  { intros x Hx. rewrite Ht. apply Hsl; [lia|]. rewrite Hl, lookup_app_r, Nat.sub_diag by lia. done. }
  unfold spscTryRecv. rewrite (proj2 (Nat.ltb_ge _ _) Hb).
  assert (E1 : (sp_tail (ring s) =? sp_cachedHead (ring s))%Z = (nr s =? d)%Z)
    by (rewrite Ht, Hct; apply u64_eqb_exact; lia).
  assert (E2 : (sp_tail (ring s) =? sp_head (ring s))%Z = (nr s =? ns s)%Z)
    by (rewrite Ht, Hh; apply u64_eqb_exact; lia).
  rewrite E1. cbn -[Z.eqb slot]. rewrite E2.
  destruct (Z.eqb_spec (nr s) d); [destruct (Z.eqb_spec (nr s) (ns s))|];
    destruct l as [|x l]; cbn -[slot] in *; try lia; [done| |]; f_equal; by apply Hslot.
Qed.

Lemma spscTryRecv_rep k q l bufLen :
  spsc_rep k q l -> sp_elementSize q <= bufLen ->
  spsc_rep k (fst (spscTryRecv bufLen q)) (tail l).
Proof.
  intros Hrep Hb. pose proof (spscTryRecv_decides k q l bufLen Hrep Hb) as Hdec.
  pose proof Hrep as (s & Hi & <- & Hp & Hc & Hl).
  pose proof (spscTryRecv_run s bufLen Hc Hb) as Hr.
  destruct (spscTryRecv bufLen (ring s)) as [q [r buf]] eqn:Hres. cbn in Hdec |- *.
  apply (spsc_inv_rtc_consumer k) in Hr; [|done].
  eexists; split; [exact Hr|]. destruct s; cbn in *. split_and!; try done.
  rewrite Hl. destruct l as [|x l]; injection Hdec as -> ->; [done|].
  rewrite (proj2 (Z.leb_le 0 _)) by lia. by rewrite <- app_assoc.
Qed.

Lemma spsc_rep_length k q l :
  spsc_rep k q l -> spscLen q = Z.of_nat (length l).
Proof.
  intros (s & (c & d & Hi) & <- & _ & _ & Hl). pose proof (rep_len _ _ Hl) as Hn.
  destruct Hi as [Hsh Hh Ht _ _ Ho _ _ _ _]. pose proof (capacity_u64 k _ Hsh).
  unfold spscLen. rewrite Hh, Ht. autorewrite with loopy_simpl. rewrite Hn. apply u64_small.
  unfold in64. lia.
Qed.

Lemma spsc_bounded_queue_core k q l (Hq : spsc_rep k q l) :
  let n := Z.of_nat (length l) in
  spscLen q = n /\ spscIsFull q = (n =? sp_capacity q)%Z /\ spscIsEmpty q = (n =? 0)%Z.
Proof.
  cbn zeta. split_and!.
  - by apply (spsc_rep_length k).
  - pose proof (spsc_rep_length k q l Hq) as Hl. unfold spscLen in Hl. unfold spscIsFull. rewrite Hl.
    apply rep_length_le in Hq. apply eq_true_iff_eq. rewrite Z.leb_le, Z.eqb_eq. lia.
  - pose proof (spsc_rep_length k q l Hq) as Hl. destruct Hq as (s & (c & d & Hi) & <- & _ & _ & E).
    apply rep_len in E. pose proof (capacity_u64 k _ (inv_shape _ _ _ _ Hi)).
    unfold spscIsEmpty. rewrite (inv_head _ _ _ _ Hi), (inv_tail _ _ _ _ Hi).
    destruct (inv_order _ _ _ _ Hi).
    rewrite Z.eqb_sym, u64_eqb_exact by lia. apply eq_true_iff_eq. rewrite !Z.eqb_eq. lia.
Qed.

(** ** From the initial state on *)

Lemma step_capacity s s' :
  spsc_step s s' -> sp_capacity (ring s') = sp_capacity (ring s).
Proof. intros [Hs|Hs]; destruct Hs; subst; done. Qed.

Lemma spsc_reachable capacity elementSize junk q s :
  (1 <= capacity < 2 ^ 63)%Z ->
  (nextPowerOf2 (capacity + 1) * Z.of_nat elementSize < w64)%Z ->
  spscInit true junk capacity elementSize = Some q -> rtc spsc_step (spsc_start q) s ->
  sp_capacity (ring s) = capacity /\ exists k, spsc_inv k s.
Proof.
  intros Hc Hz Hq Hr.
  destruct (spscInit_inv capacity elementSize junk Hc Hz) as (k & q' & Hq' & Hcap & _ & Hi).
  assert (q' = q) as -> by congruence. split.
  - revert Hr. apply (rtc_invariant _ (fun s => sp_capacity (ring s) = capacity)); [|done].
    intros a b ? ?%step_capacity. congruence.
  - exists k. revert Hr. apply rtc_invariant; [apply spsc_preserves|done].
Qed.

(** C5. First in, first out under every interleaving: whatever the producer
    and the consumer thread do, and however often the 64-bit counters wrap,
    the elements taken are the first elements sent, in order and unaltered,
    and at most [capacity] elements are in flight. *)
Theorem spsc_fifo capacity elementSize junk q s
    (Hc : (1 <= capacity < 2 ^ 63)%Z)
    (Hz : (nextPowerOf2 (capacity + 1) * Z.of_nat elementSize < w64)%Z)
    (Hq : spscInit true junk capacity elementSize = Some q)
    (Hs : rtc spsc_step (spsc_start q) s) :
  exists inflight, sent s = rcvd s ++ inflight /\ (Z.of_nat (length inflight) <= capacity)%Z.
Proof.
  destruct (spsc_reachable _ _ _ _ _ Hc Hz Hq Hs) as [<- (k & c & d & Hi)].
  exists (drop (length (rcvd s)) (sent s)). split.
  - rewrite (inv_fifo _ _ _ _ Hi) at 1. symmetry. apply take_drop.
  - destruct (inv_order _ _ _ _ Hi). unfold ns, nr in *. rewrite length_drop. lia.
Qed.

(** C3. The two [memcpy]s are safe: each stays inside the buffer, and when the
    producer and the consumer copy at the same time they touch disjoint byte
    ranges, so the only shared data are the two atomic counters. *)
Theorem spsc_no_race capacity elementSize junk q s data head tail
    (Hc : (1 <= capacity < 2 ^ 63)%Z)
    (Hz : (nextPowerOf2 (capacity + 1) * Z.of_nat elementSize < w64)%Z)
    (Hq : spscInit true junk capacity elementSize = Some q)
    (Hs : rtc spsc_step (spsc_start q) s)
    (Hp : ppc s = PCopy data head) (Ht : cpc s = CCopy tail) :
  let es := sp_elementSize (ring s) in
  let w := slotOffset (ring s) head in
  let r := slotOffset (ring s) tail in
  length data = es /\ w + es <= length (sp_buffer (ring s)) /\
  r + es <= length (sp_buffer (ring s)) /\ (r + es <= w \/ w + es <= r).
Proof.
  destruct (spsc_reachable _ _ _ _ _ Hc Hz Hq Hs) as [<- (k & c & d & Hi)].
  destruct Hi as [Hsh _ _ _ _ Ho _ _ Hprod Hcons].
  unfold producer_ok in Hprod; rewrite Hp in Hprod. destruct Hprod as (-> & Hd & Hroom).
  unfold consumer_ok in Hcons; rewrite Ht in Hcons. destruct Hcons as (-> & Hlt).
  pose proof (shape_capacity _ _ Hsh). cbn zeta. split_and!; [done|..].
  - by apply (slotOffset_bound k).
  - by apply (slotOffset_bound k).
  - apply (slotOffset_disjoint k); [done|lia].
Qed.

(** C4. The operations alone implement a bounded queue: a send succeeds exactly
    when the element has the right size and the queue is not full, and
    appends; a receive takes the front or reports [EMPTY]; [len], [isFull]
    and [isEmpty] are exact. *)
Theorem spsc_bounded_queue k q l data bufLen
    (Hq : spsc_rep k q l) (Hb : sp_elementSize q <= bufLen) :
  let n := Z.of_nat (length l) in
  let ok := (length data =? sp_elementSize q) && (n <? sp_capacity q)%Z in
  (snd (spscTrySend data q) = ok /\
   spsc_rep k (fst (spscTrySend data q)) (if ok then l ++ [data] else l)) /\
  (snd (spscTryRecv bufLen q) = recv_result (sp_elementSize q) l /\
   spsc_rep k (fst (spscTryRecv bufLen q)) (tail l)) /\
  (spscLen q = n /\ spscIsFull q = (n =? sp_capacity q)%Z /\ spscIsEmpty q = (n =? 0)%Z).
Proof.
  cbn zeta. split; [split|split; [split|]].
  - by apply (spscTrySend_decides k).
  - pose proof (spscTrySend_rep k q l data Hq) as Hr.
    rewrite <- (spscTrySend_decides k) by done. by destruct (spscTrySend data q).
  - by apply (spscTryRecv_decides k).
  - by apply spscTryRecv_rep.
  - by apply (spsc_bounded_queue_core k).
Qed.

(** [spscLen] reads [head] and [tail] one after the other, in the states
    [s1] and [s2]. *)
Definition spscLenAt (s1 s2 : spscSys) : Z := (sp_head (ring s1) -64 sp_tail (ring s2)).

Lemma producer_keeps_nr s s' : rtc producer_step s s' -> nr s' = nr s.
Proof.
  intros Hr. revert Hr. apply (rtc_invariant _ (fun s' => nr s' = nr s)); [|done].
  intros a b E Hs. rewrite <- E. by destruct Hs.
Qed.

Lemma consumer_keeps_ns s s' :
  rtc consumer_step s s' -> ns s' = ns s /\ sp_head (ring s') = sp_head (ring s).
Proof.
  intros Hr. revert Hr.
  apply (rtc_invariant _ (fun s' => ns s' = ns s /\ sp_head (ring s') = sp_head (ring s))); [|done].
  intros a b [E1 E2] Hs. rewrite <- E1, <- E2. by destruct Hs; subst.
Qed.

(** The length the sender records as usage is exact at the second load and
    never above the capacity: between its two loads only the consumer moves. *)
Theorem spsc_len_from_producer capacity elementSize junk q s1 s2
    (Hc : (1 <= capacity < 2 ^ 63)%Z)
    (Hz : (nextPowerOf2 (capacity + 1) * Z.of_nat elementSize < w64)%Z)
    (Hq : spscInit true junk capacity elementSize = Some q)
    (H1 : rtc spsc_step (spsc_start q) s1) (H2 : rtc consumer_step s1 s2) :
  spscLenAt s1 s2 = (ns s2 - nr s2)%Z /\ (0 <= spscLenAt s1 s2 <= capacity)%Z.
Proof.
  assert (Hs2 : rtc spsc_step (spsc_start q) s2).
  { etrans; [done|]. eapply rtc_subrel; [|done]. by right. }
  destruct (spsc_reachable _ _ _ _ _ Hc Hz Hq Hs2) as [Hcap (k & c & d & Hi)].
  destruct (consumer_keeps_ns _ _ H2) as [Hns Hh].
  pose proof (capacity_u64 k _ (inv_shape _ _ _ _ Hi)).
  destruct (inv_order _ _ _ _ Hi).
  unfold spscLenAt. rewrite <- Hh, (inv_head _ _ _ _ Hi), (inv_tail _ _ _ _ Hi).
  autorewrite with loopy_simpl. rewrite u64_small by (unfold in64; lia). lia.
Qed.

(** ** Concrete runs *)

Ltac p_go data :=
  eapply rtc_l; [left; eapply (p_load _ data); reflexivity|cbn].
Ltac p_next :=
  eapply rtc_l;
  [left; first [eapply p_room; [reflexivity|reflexivity] | eapply p_looks_full; [reflexivity|reflexivity]
    | eapply p_refresh; [reflexivity|reflexivity] | eapply p_copy; reflexivity
    | eapply p_publish; reflexivity] |cbn].
Ltac c_next :=
  eapply rtc_l;
  [right; first [eapply c_load; reflexivity | eapply c_some; [reflexivity|reflexivity]
    | eapply c_looks_empty; [reflexivity|reflexivity] | eapply c_refresh; [reflexivity|reflexivity]
    | eapply c_copy; reflexivity | eapply c_publish; reflexivity] |cbn].

Definition ring1 : loopyChannelSPSC :=
  Eval cbv in default (SPSC [] 0 0 0 0 0 0 0) (spscInit true [] 1 1).

(** One element went through. *)
Definition once1 : spscSys :=
  Sys (SPSC [Byte.x07; Byte.x00] 1 1 1 1 0 1 1) PIdle CIdle [[Byte.x07]] [[Byte.x07]].

Lemma once1_reachable : rtc spsc_step (spsc_start ring1) once1.
Proof.
  unfold spsc_start, ring1. p_go [Byte.x07]. do 3 p_next. do 5 c_next. apply rtc_refl.
Qed.

(** A third thread that reads the length may see the [tail] of a later state
    than the [head]: the difference wraps. *)
Lemma spsc_len_torn :
  rtc spsc_step (spsc_start ring1) once1 /\ spscLenAt (spsc_start ring1) once1 = (2 ^ 64 - 1)%Z.
Proof. split; [apply once1_reachable|reflexivity]. Qed.

Definition ring2 : loopyChannelSPSC :=
  Eval cbv in default (SPSC [] 0 0 0 0 0 0 0) (spscInit true [] 2 1).

(** One element published, a second one about to be copied while the first is
    being taken. *)
Definition busy2 : spscSys :=
  Sys (SPSC [Byte.x07; Byte.x00; Byte.x00; Byte.x00] 2 1 3 1 0 0 1)
    (PCopy [Byte.x09] 1) (CCopy 0) [[Byte.x07]] [].

Lemma busy2_reachable : rtc spsc_step (spsc_start ring2) busy2.
Proof.
  unfold spsc_start, ring2. p_go [Byte.x07]. do 3 p_next. p_go [Byte.x09]. p_next.
  do 3 c_next. apply rtc_refl.
Qed.

Lemma ring1_rep : spsc_rep 1 ring1 [].
Proof.
  exists (spsc_start ring1). split; [|done]. exists 0%Z, 0%Z.
  split; try done.
Qed.

Lemma spsc_fifo_witness :
  exists inflight, sent busy2 = rcvd busy2 ++ inflight /\ (Z.of_nat (length inflight) <= 2)%Z.
Proof.
  apply (spsc_fifo 2 1 [] ring2); [lia|reflexivity|reflexivity|apply busy2_reachable].
Defined.

Lemma spsc_no_race_witness :
  let w := slotOffset (ring busy2) 1 in
  let r := slotOffset (ring busy2) 0 in r + 1 <= w \/ w + 1 <= r.
Proof.
  pose proof (spsc_no_race 2 1 [] ring2 busy2 [Byte.x09] 1 0 ltac:(lia) eq_refl eq_refl
    busy2_reachable eq_refl eq_refl) as (_ & _ & _ & P). exact P.
Defined.

Lemma spsc_bounded_queue_witness :
  snd (spscTrySend [Byte.x07] ring1) = true /\
  spsc_rep 1 (fst (spscTrySend [Byte.x07] ring1)) [[Byte.x07]].
Proof.
  pose proof (spsc_bounded_queue 1 ring1 [] [Byte.x07] 4 ring1_rep ltac:(cbn; lia)) as [P _].
  exact P.
Defined.

Lemma spsc_len_from_producer_witness :
  spscLenAt busy2 busy2 = 1%Z /\ (0 <= spscLenAt busy2 busy2 <= 2)%Z.
Proof.
  apply (spsc_len_from_producer 2 1 [] ring2); [lia|reflexivity|reflexivity
    |apply busy2_reachable|apply rtc_refl].
Defined.
