(* ===== verification/Async.v ===== *)
(** * Wake-ups of the event loop from other threads ([src/loopyAsync.c])

    The eventfd build: [as_eventfd] is the kernel's counter, readable when it
    is not zero; [write] adds 1 to it and [read] returns it and resets it.
    [loopyAsyncSend] and [asyncEventCallback] are the two operations as they
    run alone.  [async_step] runs any number of sender threads against the
    loop thread, one atomic action at a time.  The system counts the sender
    threads at each program point instead of naming them: [n_posted] threads
    have queued their work and are about to compare-and-swap [pending],
    [n_won] threads won the exchange and are about to write to the eventfd. *)

From S2P Require Import Prelude.

(** ** The operations alone *)

Record loopyAsync := Async { as_pending : bool; as_eventfd : Z }.

#[export] Instance Async_rebuild : Rebuild loopyAsync :=
  fun a => Async (as_pending a) (as_eventfd a).

(** [args]: loop and callback are not [NULL]; then the allocation, [eventfd]
    and the registration with the loop may fail. *)
Definition loopyAsyncNew (args mallocOk eventfdOk registerOk : bool) : option loopyAsync :=
  if negb args then None
  else if negb mallocOk then None
  else if negb eventfdOk then None
  else if negb registerOk then None
  else Some (Async false 0).

Definition loopyAsyncSend (a : loopyAsync) : loopyAsync :=
  if as_pending a then a
  else a <| as_pending := true |> <| as_eventfd ::= fun v => (v + 1)%Z |>.

Definition loopyAsyncPending (a : option loopyAsync) : bool :=
  match a with None => false | Some a => as_pending a end.

(** What happens before the user's callback is called. *)
Definition asyncEventCallback (a : loopyAsync) : loopyAsync :=
  a <| as_eventfd := 0%Z |> <| as_pending := false |>.

(** ** Senders against the loop *)

Inductive loop_pc :=
  | LPoll    (* in the poll *)
  | LRead    (* readable event dispatched; about to drain the eventfd *)
  | LClear   (* drained; about to clear [pending] *)
  | LCall.   (* about to call the callback, which handles the queued work *)

Record asyncSys := ASys {
  async : loopyAsync;
  n_posted : nat;
  n_won : nat;
  lpc : loop_pc;
  work : nat; (* queued and not handled yet *)
  calls : nat (* times the callback ran *)
}.

#[export] Instance ASys_rebuild : Rebuild asyncSys := fun s =>
  ASys (async s) (n_posted s) (n_won s) (lpc s) (work s) (calls s).

Inductive sender_step : asyncSys -> asyncSys -> Prop :=
  | s_post s : (* the caller queues its work before it calls [loopyAsyncSend] *)
      sender_step s (s <| work ::= S |> <| n_posted ::= S |>)
  | s_win s n :
      n_posted s = S n -> as_pending (async s) = false ->
      sender_step s (s <| n_posted := n |> <| n_won ::= S |>
        <| async ::= fun a => a <| as_pending := true |> |>)
  | s_lose s n :
      n_posted s = S n -> as_pending (async s) = true ->
      sender_step s (s <| n_posted := n |>)
  | s_write s n :
      n_won s = S n ->
      sender_step s (s <| n_won := n |>
        <| async ::= fun a => a <| as_eventfd ::= fun v => (v + 1)%Z |> |>).

Inductive loop_step : asyncSys -> asyncSys -> Prop :=
  | l_event s :
      lpc s = LPoll -> (as_eventfd (async s) <> 0)%Z -> loop_step s (s <| lpc := LRead |>)
  | l_read s :
      lpc s = LRead ->
      loop_step s (s <| async ::= fun a => a <| as_eventfd := 0%Z |> |> <| lpc := LClear |>)
  | l_clear s :
      lpc s = LClear ->
      loop_step s (s <| async ::= fun a => a <| as_pending := false |> |> <| lpc := LCall |>)
  | l_call s :
      lpc s = LCall -> loop_step s (s <| work := 0 |> <| calls ::= S |> <| lpc := LPoll |>).

Definition async_step (s s' : asyncSys) : Prop := sender_step s s' \/ loop_step s s'.

Definition async_start : asyncSys := ASys (Async false 0) 0 0 LPoll 0 0.

(** ** Invariant *)

Record async_inv (s : asyncSys) : Prop := {
  ai_counter : (0 <= as_eventfd (async s))%Z;
  ai_pending : as_pending (async s) = true ->
    n_won s > 0 \/ (as_eventfd (async s) > 0)%Z \/ lpc s = LClear;
  ai_work : work s > 0 ->
    n_posted s > 0 \/ as_pending (async s) = true \/ lpc s = LCall
}.

Lemma async_preserves s s' : async_inv s -> async_step s s' -> async_inv s'.
Proof.
  intros [Hc Hp Hw] [Hs|Hs]; destruct Hs; split; cbn; try done; try lia.
  all: intros; repeat match goal with H : lpc _ = _ |- _ => rewrite H in * end;
    naive_solver lia.
Qed.

Lemma async_reachable s : rtc async_step async_start s -> async_inv s.
Proof. apply rtc_invariant; [apply async_preserves|]. split; cbn; done || lia. Qed.

(** What the loop thread does by itself from a dispatch point on. *)
Lemma loop_pass s :
  lpc s = LClear -> exists s', rtc loop_step s s' /\ work s' = 0 /\ calls s' = S (calls s).
Proof.
  intros Hl. eexists. split.
  - eapply rtc_l; [by apply l_clear|]. eapply rtc_l; [by apply l_call|]. apply rtc_refl.
  - done.
Qed.

(** C6. No wake-up is lost: when every call of [loopyAsyncSend] has returned and
    work is still queued, the loop thread, running alone, is woken and handles
    all of it. *)
Theorem async_no_lost_wakeup s
    (Hr : rtc async_step async_start s) (Hposted : n_posted s = 0) (Hwon : n_won s = 0)
    (Hwork : work s > 0) :
  exists s', rtc loop_step s s' /\ work s' = 0 /\ calls s' = S (calls s).
Proof.
  destruct (async_reachable s Hr) as [Hc Hp Hw].
  destruct (lpc s) eqn:Hl.
  - assert (as_eventfd (async s) > 0)%Z by naive_solver lia.
    destruct (loop_pass (s <| lpc := LRead |> <| async ::= fun a => a <| as_eventfd := 0%Z |> |>
      <| lpc := LClear |>)) as (s' & Hs & ?); [done|]. exists s'. split; [|done].
    eapply rtc_l; [apply l_event; [done|lia]|]. eapply rtc_l; [by apply l_read|]. exact Hs.
  - destruct (loop_pass (s <| async ::= fun a => a <| as_eventfd := 0%Z |> |>
      <| lpc := LClear |>)) as (s' & Hs & ?); [done|]. exists s'. split; [|done].
    eapply rtc_l; [by apply l_read|]. exact Hs.
  - by apply loop_pass.
  - eexists. split; [eapply rtc_l; [by apply l_call|]; apply rtc_refl|done].
Qed.

(** Coalescing: sends while one is pending do not touch the eventfd. *)
Lemma loopyAsyncSend_idempotent a : loopyAsyncSend (loopyAsyncSend a) = loopyAsyncSend a.
Proof. by unfold loopyAsyncSend; destruct a as [[] v]. Qed.

(** The sequential operation is the two steps of the winning thread, or the
    one of a losing thread. *)
Lemma loopyAsyncSend_run s n :
  n_posted s = S n ->
  rtc sender_step s (s <| n_posted := n |> <| async ::= loopyAsyncSend |>).
Proof.
  destruct s as [[[] v] np nw lp wk cl]; cbn; intros ->.
  - apply rtc_once. by apply (s_lose (ASys (Async true v) (S n) nw lp wk cl)).
  - eapply rtc_l; [by apply (s_win (ASys (Async false v) (S n) nw lp wk cl))|].
    apply rtc_once. by apply (s_write (ASys (Async true v) n (S nw) lp wk cl)).
Qed.

(** Two threads posted; one won the exchange and wrote, the other coalesced. *)
Definition two_posted : asyncSys := ASys (Async true 1) 0 0 LPoll 2 0.

Lemma two_posted_reachable : rtc async_step async_start two_posted.
Proof.
  eapply rtc_l; [left; by apply s_post|]. eapply rtc_l; [left; by apply s_post|].
  eapply rtc_l; [left; by eapply s_win|]. eapply rtc_l; [left; by eapply s_lose|].
  eapply rtc_l; [left; by eapply s_write|]. apply rtc_refl.
Qed.

Lemma async_no_lost_wakeup_witness :
  exists s', rtc loop_step two_posted s' /\ work s' = 0 /\ calls s' = 1.
Proof.
  apply (async_no_lost_wakeup two_posted); [apply two_posted_reachable|reflexivity..|cbn; lia].
Defined.
