(* ===== verification/Channel.v ===== *)
(** * Channels ([src/loopyChannel.c])

    The mutex-protected ring [loopyChannelMPMC], the interface
    [BoundedQueue] that both rings implement, and the channel on top of it:
    lifecycle, blocking and non-blocking operations, the asynchronous
    operations handled on the event loop, [Select], the statistics.

    A thread that waits on a condition variable, or spins, sees the channel as
    the other threads left it.  Its waits are a list of [wake]s, one per
    return from [pthread_cond_wait], [pthread_cond_timedwait] or [nanosleep],
    each with what the thread finds then; a list that runs out means that the
    thread is still blocked, the result [None]. *)

From S2P Require Import Prelude Spsc Async.

(** ** The ring under a mutex *)

Record loopyChannelMPMC := MPMC {
  mp_buffer : bytes;
  mp_capacity : nat;
  mp_elementSize : nat;
  mp_head : nat;
  mp_tail : nat;
  mp_count : nat
}.

#[export] Instance MPMC_rebuild : Rebuild loopyChannelMPMC := fun q =>
  MPMC (mp_buffer q) (mp_capacity q) (mp_elementSize q) (mp_head q) (mp_tail q) (mp_count q).

(** [sysOk] lists the results of [zmalloc] and of the three
    [pthread_*_init] calls. *)
Definition mpmcInit (sysOk : bool * bool * bool * bool) (junk : bytes) (capacity : Z)
    (elementSize : nat) : option loopyChannelMPMC :=
  let '(mallocOk, mutexOk, notEmptyOk, notFullOk) := sysOk in
  if negb mallocOk then None
  else if negb mutexOk then None
  else if negb notEmptyOk then None
  else if negb notFullOk then None
  else Some (MPMC (resize (Z.to_nat (capacity *64 Z.of_nat elementSize)) Byte.x00 junk)
               (Z.to_nat capacity) elementSize 0 0 0).

(** What a thread does from the moment it holds the mutex until it releases it. *)
Inductive section (R : Type) :=
  | Return (q : loopyChannelMPMC) (r : R)
  | Wait. (* blocked counter incremented, released in [pthread_cond_wait] *)
Arguments Return {R}.
Arguments Wait {R}.

Definition mpmcPut (data : bytes) (q : loopyChannelMPMC) : loopyChannelMPMC :=
  q <| mp_buffer := store_at (mp_buffer q) (mp_head q * mp_elementSize q) data |>
    <| mp_head := (mp_head q + 1) mod mp_capacity q |>
    <| mp_count ::= S |>.

Definition mpmcGet (q : loopyChannelMPMC) : loopyChannelMPMC * bytes :=
  (q <| mp_tail := (mp_tail q + 1) mod mp_capacity q |> <| mp_count ::= pred |>,
   load_at (mp_buffer q) (mp_tail q * mp_elementSize q) (mp_elementSize q)).

Definition sendSection (data : bytes) (blocking closed : bool) (q : loopyChannelMPMC) : section Z :=
  if mp_capacity q <=? mp_count q then
    if closed then Return q LOOPY_CHANNEL_CLOSED
    else if negb blocking then Return q LOOPY_CHANNEL_FULL
    else Wait
  else if closed then Return q LOOPY_CHANNEL_CLOSED
  else Return (mpmcPut data q) LOOPY_CHANNEL_OK.

Definition recvSection (blocking closed : bool) (q : loopyChannelMPMC) : section (Z * bytes) :=
  if mp_count q =? 0 then
    if closed then Return q (LOOPY_CHANNEL_CLOSED, [])
    else if negb blocking then Return q (LOOPY_CHANNEL_EMPTY, [])
    else Wait
  else let '(q, x) := mpmcGet q in Return q (Z.of_nat (mp_elementSize q), x).

(** What a blocked thread finds when it runs again: the ring, the closed flag,
    and for a timed wait or a spin whether the deadline has passed. *)
Record wake (Q : Type) := Woken { wk_impl : Q; wk_closed : bool; wk_expired : bool }.
Arguments Woken {Q}.
Arguments wk_impl {Q}.
Arguments wk_closed {Q}.
Arguments wk_expired {Q}.

(** The [while] loop of [mpmcSend] and [mpmcRecv]; [blocked] counts the
    increments of [sendBlocked] or [recvBlocked]. *)
Fixpoint waitLoop {R} (body : bool -> loopyChannelMPMC -> section R) (onTimeout : R)
    (timeoutUs : Z) (wakes : list (wake loopyChannelMPMC)) (closed : bool) (blocked : Z)
    (q : loopyChannelMPMC) : option (loopyChannelMPMC * R * Z) :=
  match body closed q with
  | Return q r => Some (q, r, blocked)
  | Wait =>
      match wakes with
      | [] => None
      | w :: wakes =>
          if (0 <? timeoutUs)%Z && wk_expired w then Some (wk_impl w, onTimeout, (blocked + 1)%Z)
          else waitLoop body onTimeout timeoutUs wakes (wk_closed w) (blocked + 1)%Z (wk_impl w)
      end
  end.

Definition mpmcSend (data : bytes) (blocking : bool) (timeoutUs : Z)
    (wakes : list (wake loopyChannelMPMC)) (closed : bool) (q : loopyChannelMPMC)
    : option (loopyChannelMPMC * Z * Z) :=
  if negb (length data =? mp_elementSize q) then Some (q, LOOPY_CHANNEL_INVALID, 0%Z)
  else waitLoop (sendSection data blocking) LOOPY_CHANNEL_TIMEOUT timeoutUs wakes closed 0 q.

Definition mpmcRecv (bufLen : nat) (blocking : bool) (timeoutUs : Z)
    (wakes : list (wake loopyChannelMPMC)) (closed : bool) (q : loopyChannelMPMC)
    : option (loopyChannelMPMC * (Z * bytes) * Z) :=
  if bufLen <? mp_elementSize q then Some (q, (LOOPY_CHANNEL_INVALID, []), 0%Z)
  else waitLoop (recvSection blocking) (LOOPY_CHANNEL_TIMEOUT, []) timeoutUs wakes closed 0 q.

(** [blocking = false]: the loop returns on its first pass, so no wake is
    needed and the default is never taken ([mpmcTrySend_total]). *)
Definition mpmcTrySend (data : bytes) (closed : bool) (q : loopyChannelMPMC)
    : loopyChannelMPMC * Z :=
  match mpmcSend data false 0 [] closed q with
  | Some (q, r, _) => (q, r)
  | None => (q, LOOPY_CHANNEL_ERROR)
  end.

Definition mpmcTryRecv (bufLen : nat) (closed : bool) (q : loopyChannelMPMC)
    : loopyChannelMPMC * (Z * bytes) :=
  match mpmcRecv bufLen false 0 [] closed q with
  | Some (q, r, _) => (q, r)
  | None => (q, (LOOPY_CHANNEL_ERROR, []))
  end.

Definition mpmcLen (q : loopyChannelMPMC) : Z := Z.of_nat (mp_count q).
Definition mpmcIsFull (q : loopyChannelMPMC) : bool := mp_capacity q <=? mp_count q.
Definition mpmcIsEmpty (q : loopyChannelMPMC) : bool := mp_count q =? 0.

(** ** What the channel asks of a ring

    [bq_rep q l]: the ring holds the elements [l], oldest first. *)

Class BoundedQueue (Q : Type) := {
  bq_trySend : bytes -> bool -> Q -> Q * Z;
  bq_tryRecv : nat -> bool -> Q -> Q * (Z * bytes);
  bq_len : Q -> Z;
  bq_cap : Q -> Z;
  bq_isFull : Q -> bool;
  bq_isEmpty : Q -> bool;
  bq_elementSize : Q -> nat;
  bq_rep : Q -> list bytes -> Prop;
  bq_bound q l : bq_rep q l -> (Z.of_nat (length l) <= bq_cap q < w64)%Z;
  bq_send_open q l data : bq_rep q l -> length data = bq_elementSize q ->
    let room := (Z.of_nat (length l) <? bq_cap q)%Z in
    snd (bq_trySend data false q) = (if room then LOOPY_CHANNEL_OK else LOOPY_CHANNEL_FULL) /\
    bq_rep (fst (bq_trySend data false q)) (if room then l ++ [data] else l);
  bq_send_size q l data closed : bq_rep q l -> length data <> bq_elementSize q ->
    snd (bq_trySend data closed q) <> LOOPY_CHANNEL_OK /\ fst (bq_trySend data closed q) = q;
  bq_recv_some q x l n closed : bq_rep q (x :: l) -> bq_elementSize q <= n ->
    snd (bq_tryRecv n closed q) = (Z.of_nat (bq_elementSize q), x) /\
    bq_rep (fst (bq_tryRecv n closed q)) l;
  bq_recv_none q n closed : bq_rep q [] -> bq_elementSize q <= n ->
    (snd (bq_tryRecv n closed q) = (LOOPY_CHANNEL_EMPTY, []) \/
     closed = true /\ snd (bq_tryRecv n closed q) = (LOOPY_CHANNEL_CLOSED, [])) /\
    bq_rep (fst (bq_tryRecv n closed q)) [];
  bq_recv_small q l n closed : bq_rep q l -> n < bq_elementSize q ->
    bq_tryRecv n closed q = (q, (LOOPY_CHANNEL_INVALID, []));
  bq_send_params q data closed :
    bq_cap (fst (bq_trySend data closed q)) = bq_cap q /\
    bq_elementSize (fst (bq_trySend data closed q)) = bq_elementSize q;
  bq_recv_params q n closed :
    bq_cap (fst (bq_tryRecv n closed q)) = bq_cap q /\
    bq_elementSize (fst (bq_tryRecv n closed q)) = bq_elementSize q;
  bq_len_exact q l : bq_rep q l ->
    bq_len q = Z.of_nat (length l) /\
    bq_isFull q = (Z.of_nat (length l) =? bq_cap q)%Z /\
    bq_isEmpty q = (Z.of_nat (length l) =? 0)%Z
}.

(** ** The mutex ring is a bounded queue *)

(** Index of the [i]-th oldest element. *)
Definition mp_index (q : loopyChannelMPMC) (i : nat) : nat := ring_index (mp_capacity q) (mp_tail q) i.

Record mpmc_rep (q : loopyChannelMPMC) (l : list bytes) : Prop := {
  mr_capacity : 1 <= mp_capacity q /\ (Z.of_nat (mp_capacity q) < w64)%Z;
  mr_buffer : length (mp_buffer q) = mp_capacity q * mp_elementSize q;
  mr_tail : mp_tail q < mp_capacity q;
  mr_head : mp_head q = mp_index q (mp_count q);
  mr_count : mp_count q = length l;
  mr_bound : length l <= mp_capacity q;
  mr_elems : forall i x, l !! i = Some x ->
    load_at (mp_buffer q) (mp_index q i * mp_elementSize q) (mp_elementSize q) = x
}.

Lemma mp_index_lt q i : 1 <= mp_capacity q -> mp_index q i < mp_capacity q.
Proof. apply ring_index_lt. Qed.

Lemma mp_index_inj q i j :
  i < j < i + mp_capacity q -> mp_index q i <> mp_index q j.
Proof. apply ring_index_inj. Qed.

Lemma mp_index_bound q i :
  1 <= mp_capacity q -> mp_index q i * mp_elementSize q + mp_elementSize q <= mp_capacity q * mp_elementSize q.
Proof. intros H. pose proof (mp_index_lt q i H). nia. Qed.

Lemma mpmcPut_rep q l data :
  mpmc_rep q l -> length data = mp_elementSize q -> length l < mp_capacity q ->
  mpmc_rep (mpmcPut data q) (l ++ [data]).
Proof.
  intros [[Hc Hw] Hb Ht Hh Hn Hl He] Hd Hroom.
  assert (Hix : forall i, mp_index (mpmcPut data q) i = mp_index q i) by done.
  pose proof (mp_index_bound q (mp_count q) Hc) as Hin. rewrite <- Hh in Hin.
  split; rewrite ?Hix; cbn; try done.
  - rewrite store_at_length; [done|lia].
  - rewrite Hh. apply ring_index_next.
  - rewrite length_app; cbn; lia.
  - rewrite length_app; cbn; lia.
  - intros i x Hx. rewrite Hix. apply lookup_app_Some in Hx as [Hx|[Hge Hx]].
    + rewrite load_store_disjoint; [by apply He|lia|rewrite Hb; by apply mp_index_bound|].
      apply lookup_lt_Some in Hx. rewrite Hh, Hd.
      pose proof (mp_index_inj q i (mp_count q) ltac:(lia)).
      destruct (decide (mp_index q i < mp_index q (mp_count q))); [left|right]; nia.
    + apply list_lookup_singleton_Some in Hx as [? ->].
      replace (mp_index q i) with (mp_head q) by (rewrite Hh; f_equal; lia).
      rewrite <- Hd. apply load_store_same. lia.
Qed.

Lemma mpmcGet_rep q x l :
  mpmc_rep q (x :: l) -> snd (mpmcGet q) = x /\ mpmc_rep (fst (mpmcGet q)) l.
Proof.
  intros [[Hc Hw] Hb Ht Hh Hn Hl He]. cbn in Hn, Hl.
  assert (Hix : forall i, mp_index (fst (mpmcGet q)) i = mp_index q (S i)).
  { intros i. apply ring_index_shift. }
  split.
  - cbn. rewrite <- (He 0 x eq_refl). unfold mp_index. by rewrite ring_index_0.
  - split; rewrite ?Hix; cbn; try done; try lia.
    + rewrite Hh. f_equal. lia.
    + intros i y Hy. rewrite Hix. by apply He.
Qed.

Lemma mpmcInit_rep capacity elementSize junk :
  (1 <= capacity < w64)%Z -> (capacity * Z.of_nat elementSize < w64)%Z ->
  exists q, mpmcInit (true, true, true, true) junk capacity elementSize = Some q /\
    Z.of_nat (mp_capacity q) = capacity /\ mp_elementSize q = elementSize /\ mpmc_rep q [].
Proof.
  intros Hc Hz. eexists; split; [reflexivity|]. cbn. split_and!; [lia|done|].
  split; cbn; try done; try lia.
  - rewrite length_resize, u64_small by (unfold in64; lia). nia.
  - unfold mp_index, ring_index; cbn. by rewrite Nat.Div0.mod_0_l.
Qed.

(** A non-blocking operation never waits. *)
Lemma mpmcTrySend_total data timeoutUs closed q wakes :
  mpmcSend data false timeoutUs wakes closed q =
    Some (mpmcTrySend data closed q, 0%Z).
Proof.
  unfold mpmcTrySend, mpmcSend. destruct (negb _); [done|].
  destruct wakes; cbn; unfold sendSection; destruct (_ <=? _), closed; done.
Qed.

Lemma mpmcTryRecv_total n timeoutUs closed q wakes :
  mpmcRecv n false timeoutUs wakes closed q =
    Some (mpmcTryRecv n closed q, 0%Z).
Proof.
  unfold mpmcTryRecv, mpmcRecv. destruct (_ <? _); [done|].
  destruct wakes; cbn -[mpmcGet]; unfold recvSection; destruct (_ =? _), closed; try done;
    by destruct (mpmcGet q).
Qed.

#[export] Program Instance mpmc_queue : BoundedQueue loopyChannelMPMC := {
  bq_trySend := mpmcTrySend;
  bq_tryRecv := mpmcTryRecv;
  bq_len := mpmcLen;
  bq_cap q := Z.of_nat (mp_capacity q);
  bq_isFull := mpmcIsFull;
  bq_isEmpty := mpmcIsEmpty;
  bq_elementSize := mp_elementSize;
  bq_rep := mpmc_rep
}.
Next Obligation. intros q l []. lia. Qed.
Next Obligation.
  intros q l data Hr Hd. cbn zeta. unfold mpmcTrySend, mpmcSend; cbn -[mpmcPut].
  rewrite Hd, Nat.eqb_refl. cbn -[mpmcPut]. unfold sendSection. rewrite (mr_count _ _ Hr).
  destruct (Z.ltb_spec (Z.of_nat (length l)) (Z.of_nat (mp_capacity q))).
  - rewrite (proj2 (Nat.leb_gt _ _)) by lia. cbn -[mpmcPut]. split; [done|].
    apply mpmcPut_rep; [done..|lia].
  - rewrite (proj2 (Nat.leb_le _ _)) by lia. done.
Qed.
Next Obligation.
  intros q l data closed Hr Hd. unfold mpmcTrySend, mpmcSend.
  by rewrite (proj2 (Nat.eqb_neq _ _) Hd).
Qed.
Next Obligation.
  intros q x l n closed Hr Hn. unfold mpmcTryRecv, mpmcRecv.
  rewrite (proj2 (Nat.ltb_ge _ _) Hn). cbn -[mpmcGet]. unfold recvSection.
  rewrite (mr_count _ _ Hr). cbn -[mpmcGet]. destruct (mpmcGet_rep q x l Hr) as [Hx Hl].
  assert (Hes : mp_elementSize (fst (mpmcGet q)) = mp_elementSize q) by done.
  destruct (mpmcGet q); cbn in *. by subst; rewrite Hes.
Qed.
Next Obligation.
  intros q n closed Hr Hn. unfold mpmcTryRecv, mpmcRecv.
  rewrite (proj2 (Nat.ltb_ge _ _) Hn). cbn. unfold recvSection.
  rewrite (mr_count _ _ Hr). destruct closed; cbn; auto.
Qed.
Next Obligation.
  intros q l n closed Hr Hn. unfold mpmcTryRecv, mpmcRecv.
  by rewrite (proj2 (Nat.ltb_lt _ _) Hn).
Qed.
Next Obligation.
  intros q data closed. unfold mpmcTrySend, mpmcSend. destruct (negb _); [done|].
  cbn. unfold sendSection. destruct (_ <=? _), closed; done.
Qed.
Next Obligation.
  intros q n closed. unfold mpmcTryRecv, mpmcRecv. destruct (_ <? _); [done|].
  cbn. unfold recvSection. destruct (_ =? _), closed; done.
Qed.
Next Obligation.
  intros q l Hr. unfold mpmcLen, mpmcIsFull, mpmcIsEmpty. rewrite (mr_count _ _ Hr).
  pose proof (mr_bound _ _ Hr). split_and!; [done|..]; apply eq_true_iff_eq;
    rewrite ?Nat.leb_le, ?Nat.eqb_eq, ?Z.eqb_eq; lia.
Qed.

(** The lock-free ring ignores the closed flag; a send reports every failure as
    [FULL]. *)
Definition spscTrySendStatus (data : bytes) (closed : bool) (q : loopyChannelSPSC)
    : loopyChannelSPSC * Z :=
  let '(q, b) := spscTrySend data q in
  (q, if b then LOOPY_CHANNEL_OK else LOOPY_CHANNEL_FULL).

#[export] Program Instance spsc_queue : BoundedQueue loopyChannelSPSC := {
  bq_trySend := spscTrySendStatus;
  bq_tryRecv n _ q := spscTryRecv n q;
  bq_len := spscLen;
  bq_cap := sp_capacity;
  bq_isFull := spscIsFull;
  bq_isEmpty := spscIsEmpty;
  bq_elementSize := sp_elementSize;
  bq_rep q l := exists k, spsc_rep k q l
}.
Next Obligation.
  intros q l [k Hr]. split; [by eapply rep_length_le|].
  destruct Hr as (s & (c & d & Hi) & <- & _). by eapply capacity_u64, inv_shape.
Qed.
Next Obligation.
  intros q l data [k Hr] Hd. cbn zeta. unfold spscTrySendStatus.
  pose proof (spscTrySend_decides k q l data Hr) as E. pose proof (spscTrySend_rep k q l data Hr) as R.
  rewrite Hd, Nat.eqb_refl in E. destruct (spscTrySend data q) as [q' b]; cbn in *. subst b.
  split; [done|]. by exists k.
Qed.
Next Obligation.
  intros q l data closed [k Hr] Hd. unfold spscTrySendStatus, spscTrySend.
  by rewrite (proj2 (Nat.eqb_neq _ _) Hd).
Qed.
Next Obligation.
  intros q x l n closed [k Hr] Hn. split; [by apply (spscTryRecv_decides k q (x :: l))|].
  exists k. by apply (spscTryRecv_rep k q (x :: l)).
Qed.
Next Obligation.
  intros q n closed [k Hr] Hn. split; [left; by apply (spscTryRecv_decides k q [])|].
  exists k. by apply (spscTryRecv_rep k q []).
Qed.
Next Obligation. intros q l n closed [k Hr] Hn. unfold spscTryRecv. by rewrite (proj2 (Nat.ltb_lt _ _) Hn). Qed.
Next Obligation.
  intros q data closed. unfold spscTrySendStatus, spscTrySend. destruct (negb _); [done|].
  cbn -[producerCount]. by case_ifs.
Qed.
Next Obligation. intros q n closed. unfold spscTryRecv. by case_ifs. Qed.
Next Obligation.
  intros q l [k Hr].
  by destruct (spsc_bounded_queue_core k q l Hr).
Qed.

(** ** The channel *)

Inductive loopyChannelType := LOOPY_CHANNEL_SPSC | LOOPY_CHANNEL_MPSC | LOOPY_CHANNEL_MPMC.

Record loopyChannelConfig := Config {
  cfg_type : loopyChannelType;
  cfg_capacity : Z;
  cfg_elementSize : nat;
  cfg_blocking : bool;
  cfg_sendTimeoutUs : Z;
  cfg_recvTimeoutUs : Z
}.

Definition loopyChannelConfigInit : loopyChannelConfig :=
  Config LOOPY_CHANNEL_SPSC 1024 0 false 0 0.

(** The [union]; its tag is [type]. *)
Inductive channelImpl :=
  | spsc (q : loopyChannelSPSC)
  | mpmc (q : loopyChannelMPMC).

(** A callback is the action to perform on the status and the data: the
    event loop reports [Called] events, in order. *)
Inductive loopyChannelPendingOp :=
  | PendingSend (data : bytes) (userData : Z)
  | PendingRecv (userData : Z).

Record loopyChannelStats := Stats {
  totalSent : Z;
  totalReceived : Z;
  sendBlocked : Z;
  recvBlocked : Z;
  sendFailed : Z;
  recvFailed : Z;
  peakUsage : Z
}.

#[export] Instance Stats_rebuild : Rebuild loopyChannelStats := fun s =>
  Stats (totalSent s) (totalReceived s) (sendBlocked s) (recvBlocked s) (sendFailed s)
    (recvFailed s) (peakUsage s).

Record loopyChannel := Channel {
  ch_id : Z;
  ch_type : loopyChannelType;
  ch_userData : option Z;
  ch_impl : channelImpl;
  ch_config : loopyChannelConfig;
  ch_closed : bool;
  ch_async : option loopyAsync;
  ch_pendingOps : list loopyChannelPendingOp;
  ch_stats : loopyChannelStats
}.

#[export] Instance Channel_rebuild : Rebuild loopyChannel := fun c =>
  Channel (ch_id c) (ch_type c) (ch_userData c) (ch_impl c) (ch_config c) (ch_closed c)
    (ch_async c) (ch_pendingOps c) (ch_stats c).

(** [atomic_fetch_add(&ch->counter, n)] *)
Definition count_up (n : Z) (v : Z) : Z := (v +64 n).

(** *** The [switch (ch->type)] of every operation *)

Definition implTrySend (data : bytes) (closed : bool) (i : channelImpl) : channelImpl * Z :=
  match i with
  | spsc q => let '(q, r) := bq_trySend data closed q in (spsc q, r)
  | mpmc q => let '(q, r) := bq_trySend data closed q in (mpmc q, r)
  end.

Definition implTryRecv (bufLen : nat) (closed : bool) (i : channelImpl)
    : channelImpl * (Z * bytes) :=
  match i with
  | spsc q => let '(q, r) := bq_tryRecv bufLen closed q in (spsc q, r)
  | mpmc q => let '(q, r) := bq_tryRecv bufLen closed q in (mpmc q, r)
  end.

Definition implLen (i : channelImpl) : Z :=
  match i with spsc q => spscLen q | mpmc q => mpmcLen q end.
Definition implCap (i : channelImpl) : Z :=
  match i with spsc q => sp_capacity q | mpmc q => Z.of_nat (mp_capacity q) end.
Definition implIsFull (i : channelImpl) : bool :=
  match i with spsc q => spscIsFull q | mpmc q => mpmcIsFull q end.
Definition implIsEmpty (i : channelImpl) : bool :=
  match i with spsc q => spscIsEmpty q | mpmc q => mpmcIsEmpty q end.
Definition implElementSize (i : channelImpl) : nat :=
  match i with spsc q => sp_elementSize q | mpmc q => mp_elementSize q end.
Definition impl_rep (i : channelImpl) (l : list bytes) : Prop :=
  match i with spsc q => bq_rep q l | mpmc q => bq_rep q l end.

(** *** Lifecycle *)

(** [newId] is the value of the global counter; [sysOk] the results of the
    allocations and of the initialisation of the mutexes and conditions;
    [async] the result of [loopyAsyncNew] when there is a loop. *)
Definition implInit (sysOk : bool * bool * bool * bool) (junk : bytes) (config : loopyChannelConfig)
    : option channelImpl :=
  match cfg_type config with
  | LOOPY_CHANNEL_SPSC =>
      spsc <$> spscInit (fst (fst (fst sysOk))) junk (cfg_capacity config) (cfg_elementSize config)
  | LOOPY_CHANNEL_MPSC | LOOPY_CHANNEL_MPMC =>
      mpmc <$> mpmcInit sysOk junk (cfg_capacity config) (cfg_elementSize config)
  end.

Definition loopyChannelNew (newId : Z) (mallocOk asyncMutexOk : bool)
    (sysOk : bool * bool * bool * bool) (junk : bytes)
    (loop : option (option loopyAsync)) (config : option loopyChannelConfig)
    : option loopyChannel :=
  match config with
  | None => None
  | Some config =>
      if (cfg_elementSize config =? 0) || (cfg_capacity config =? 0)%Z then None
      else if negb mallocOk then None
      else
        match implInit sysOk junk config with
        | None => None
        | Some impl =>
            let ch := Channel newId (cfg_type config) None impl config false None []
                        (Stats 0 0 0 0 0 0 0) in
            match loop with
            | None => Some ch
            | Some newAsync =>
                if negb asyncMutexOk then None
                else match newAsync with
                     | None => None
                     | Some a => Some (ch <| ch_async := Some a |>)
                     end
            end
        end
  end.

Definition channelClose (ch : loopyChannel) : loopyChannel := ch <| ch_closed := true |>.

Definition loopyChannelClose (ch : option loopyChannel) : option loopyChannel :=
  channelClose <$> ch.

(** Frees everything; pending operations are dropped without their callbacks. *)
Definition loopyChannelFree (ch : option loopyChannel) : option loopyChannel := None.

(** *** Non-blocking operations *)

Definition updatePeakUsage (current : Z) (ch : loopyChannel) : loopyChannel :=
  if (peakUsage (ch_stats ch) <? current)%Z
  then ch <| ch_stats ::= fun s => s <| peakUsage := current |> |> else ch.

Definition noteSent (ch : loopyChannel) : loopyChannel :=
  updatePeakUsage (implLen (ch_impl ch))
    (ch <| ch_stats ::= fun s => s <| totalSent ::= count_up 1 |> |>).
Definition noteSendFailed (ch : loopyChannel) : loopyChannel :=
  ch <| ch_stats ::= fun s => s <| sendFailed ::= count_up 1 |> |>.
Definition noteReceived (ch : loopyChannel) : loopyChannel :=
  ch <| ch_stats ::= fun s => s <| totalReceived ::= count_up 1 |> |>.
Definition noteRecvFailed (ch : loopyChannel) : loopyChannel :=
  ch <| ch_stats ::= fun s => s <| recvFailed ::= count_up 1 |> |>.

Definition channelTrySend (data : bytes) (ch : loopyChannel) : loopyChannel * Z :=
  if ch_closed ch then (noteSendFailed ch, LOOPY_CHANNEL_CLOSED)
  else
    let '(i, status) := implTrySend data (ch_closed ch) (ch_impl ch) in
    let ch := ch <| ch_impl := i |> in
    if (status =? LOOPY_CHANNEL_OK)%Z then (noteSent ch, status)
    else if negb (status =? LOOPY_CHANNEL_FULL)%Z then (noteSendFailed ch, status)
    else (ch, status).

Definition channelTryRecv (bufLen : nat) (ch : loopyChannel) : loopyChannel * (Z * bytes) :=
  let '(i, (result, buf)) := implTryRecv bufLen (ch_closed ch) (ch_impl ch) in
  let ch := ch <| ch_impl := i |> in
  if (0 <? result)%Z then (noteReceived ch, (result, buf))
  else if negb (result =? LOOPY_CHANNEL_EMPTY)%Z then (noteRecvFailed ch, (result, buf))
  else (ch, (result, buf)).

(** [None] data or buffer is a [NULL] pointer. *)
Definition loopyChannelTrySend (data : option bytes) (ch : option loopyChannel)
    : option loopyChannel * Z :=
  match data with
  | None => (ch, LOOPY_CHANNEL_INVALID)
  | Some data => on_handle LOOPY_CHANNEL_INVALID ch (channelTrySend data)
  end.

Definition loopyChannelTryRecv (bufLen : option nat) (ch : option loopyChannel)
    : option loopyChannel * (Z * bytes) :=
  match bufLen with
  | None => (ch, (LOOPY_CHANNEL_INVALID, []))
  | Some n => on_handle (LOOPY_CHANNEL_INVALID, []) ch (channelTryRecv n)
  end.

(** *** Blocking operations

    The [SPSC] channel spins: after a failed attempt it reads the closed flag
    and the clock, sleeps 1us and tries again on what the other thread left. *)

Fixpoint spinSend (data : bytes) (timeoutUs : Z) (wakes : list (wake loopyChannelSPSC))
    (blocked : Z) (q : loopyChannelSPSC) : option (loopyChannelSPSC * Z * Z) :=
  let '(q, sent) := spscTrySend data q in
  if sent then Some (q, LOOPY_CHANNEL_OK, blocked)
  else
    match wakes with
    | [] => None
    | w :: wakes =>
        if wk_closed w then Some (q, LOOPY_CHANNEL_CLOSED, blocked)
        else if (0 <? timeoutUs)%Z && wk_expired w then Some (q, LOOPY_CHANNEL_TIMEOUT, blocked)
        else spinSend data timeoutUs wakes (blocked + 1) (wk_impl w)
    end.

Fixpoint spinRecv (bufLen : nat) (timeoutUs : Z) (wakes : list (wake loopyChannelSPSC))
    (blocked : Z) (q : loopyChannelSPSC) : option (loopyChannelSPSC * (Z * bytes) * Z) :=
  let '(q, (result, buf)) := spscTryRecv bufLen q in
  if negb (result =? LOOPY_CHANNEL_EMPTY)%Z then Some (q, (result, buf), blocked)
  else
    match wakes with
    | [] => None
    | w :: wakes =>
        if wk_closed w then Some (q, (LOOPY_CHANNEL_CLOSED, []), blocked)
        else if (0 <? timeoutUs)%Z && wk_expired w then Some (q, (LOOPY_CHANNEL_TIMEOUT, []), blocked)
        else spinRecv bufLen timeoutUs wakes (blocked + 1) (wk_impl w)
    end.

Definition implSend (data : bytes) (config : loopyChannelConfig) (closed : bool)
    (spins : list (wake loopyChannelSPSC)) (waits : list (wake loopyChannelMPMC)) (i : channelImpl)
    : option (channelImpl * Z * Z) :=
  match i with
  | spsc q =>
      if cfg_blocking config then
        '(q, status, blocked) ← spinSend data (cfg_sendTimeoutUs config) spins 0 q;
        Some (spsc q, status, blocked)
      else let '(q, status) := spscTrySendStatus data closed q in Some (spsc q, status, 0%Z)
  | mpmc q =>
      '(q, status, blocked) ← mpmcSend data (cfg_blocking config) (cfg_sendTimeoutUs config) waits closed q;
      Some (mpmc q, status, blocked)
  end.

Definition implRecv (bufLen : nat) (config : loopyChannelConfig) (closed : bool)
    (spins : list (wake loopyChannelSPSC)) (waits : list (wake loopyChannelMPMC)) (i : channelImpl)
    : option (channelImpl * (Z * bytes) * Z) :=
  match i with
  | spsc q =>
      if cfg_blocking config then
        '(q, result, blocked) ← spinRecv bufLen (cfg_recvTimeoutUs config) spins 0 q;
        Some (spsc q, result, blocked)
      else let '(q, result) := spscTryRecv bufLen q in Some (spsc q, result, 0%Z)
  | mpmc q =>
      '(q, result, blocked) ← mpmcRecv bufLen (cfg_blocking config) (cfg_recvTimeoutUs config) waits closed q;
      Some (mpmc q, result, blocked)
  end.

(** [None]: still blocked after these wakes. *)
Definition channelSend (data : bytes) (spins : list (wake loopyChannelSPSC))
    (waits : list (wake loopyChannelMPMC)) (ch : loopyChannel) : option (loopyChannel * Z) :=
  if ch_closed ch then Some (noteSendFailed ch, LOOPY_CHANNEL_CLOSED)
  else
    '(i, status, blocked) ← implSend data (ch_config ch) (ch_closed ch) spins waits (ch_impl ch);
    let ch := ch <| ch_impl := i |>
                 <| ch_stats ::= fun s => s <| sendBlocked ::= count_up blocked |> |> in
    Some (if (status =? LOOPY_CHANNEL_OK)%Z then noteSent ch else noteSendFailed ch, status).

Definition channelRecv (bufLen : nat) (spins : list (wake loopyChannelSPSC))
    (waits : list (wake loopyChannelMPMC)) (ch : loopyChannel) : option (loopyChannel * (Z * bytes)) :=
  '(i, (result, buf), blocked) ← implRecv bufLen (ch_config ch) (ch_closed ch) spins waits (ch_impl ch);
  let ch := ch <| ch_impl := i |>
               <| ch_stats ::= fun s => s <| recvBlocked ::= count_up blocked |> |> in
  Some (if (0 <? result)%Z then noteReceived ch else noteRecvFailed ch, (result, buf)).

Definition loopyChannelSend (data : option bytes) spins waits (ch : option loopyChannel)
    : option (option loopyChannel * Z) :=
  match ch, data with
  | Some ch, Some data => '(ch, r) ← channelSend data spins waits ch; Some (Some ch, r)
  | _, _ => Some (ch, LOOPY_CHANNEL_INVALID)
  end.

Definition loopyChannelRecv (bufLen : option nat) spins waits (ch : option loopyChannel)
    : option (option loopyChannel * (Z * bytes)) :=
  match ch, bufLen with
  | Some ch, Some n => '(ch, r) ← channelRecv n spins waits ch; Some (Some ch, r)
  | _, _ => Some (ch, (LOOPY_CHANNEL_INVALID, []))
  end.

(** *** Asynchronous operations

    A completed operation is reported to its callback with its [userData]. *)

Inductive completion :=
  | SendDone (status : Z) (userData : Z)
  | RecvDone (data : option bytes) (len : Z) (status : Z) (userData : Z).

Definition pushPending (op : loopyChannelPendingOp) (a : loopyAsync) (ch : loopyChannel)
    : loopyChannel :=
  ch <| ch_pendingOps ::= cons op |> <| ch_async := Some (loopyAsyncSend a) |>.

Definition loopyChannelSendAsync (data : option bytes) (userData : Z) (opOk dataOk : bool)
    (ch : option loopyChannel) : option loopyChannel * bool :=
  match ch, data with
  | Some c, Some data =>
      match ch_async c with
      | None => (ch, false)
      | Some a =>
          if negb opOk then (ch, false)
          else if negb dataOk then (ch, false)
          else (Some (pushPending (PendingSend data userData) a c), true)
      end
  | _, _ => (ch, false)
  end.

Definition loopyChannelRecvAsync (userData : Z) (opOk : bool) (ch : option loopyChannel)
    : option loopyChannel * bool :=
  match ch with
  | Some c =>
      match ch_async c with
      | None => (ch, false)
      | Some a =>
          if negb opOk then (ch, false)
          else (Some (pushPending (PendingRecv userData) a c), true)
      end
  | None => (ch, false)
  end.

(** One pass of the [while (op)] loop; [bufOk]: the receive buffer could be
    allocated (otherwise the operation is dropped without a callback). *)
Definition runPending (op : loopyChannelPendingOp) (bufOk : bool) (ch : loopyChannel)
    : loopyChannel * list completion :=
  match op with
  | PendingSend data u =>
      let '(ch, status) := channelTrySend data ch in (ch, [SendDone status u])
  | PendingRecv u =>
      if bufOk then
        let '(ch, (n, buf)) := channelTryRecv (cfg_elementSize (ch_config ch)) ch in
        let status := if (0 <? n)%Z then LOOPY_CHANNEL_OK else n in
        (ch, [RecvDone (if (0 <? n)%Z then Some buf else None) (if (0 <? n)%Z then n else 0%Z) status u])
      else (ch, [])
  end.

Fixpoint runAll (ops : list loopyChannelPendingOp) (bufOks : list bool) (ch : loopyChannel)
    : loopyChannel * list completion :=
  match ops with
  | [] => (ch, [])
  | op :: ops =>
      let '(ch, e) := runPending op (default true (head bufOks)) ch in
      let '(ch, es) := runAll ops (tail bufOks) ch in (ch, e ++ es)
  end.

Definition asyncHandler (bufOks : list bool) (ch : loopyChannel) : loopyChannel * list completion :=
  runAll (ch_pendingOps ch) bufOks (ch <| ch_pendingOps := [] |>).

(** *** Select

    The cases refer to channels by their index in a store, so that several
    cases can name the same channel.  A case's [data] is what it sends, or the
    buffer it receives into. *)

Record loopyChannelCase := Case {
  cs_ch : option nat;
  cs_send : bool;
  cs_data : option bytes;
  cs_result : Z
}.

#[export] Instance Case_rebuild : Rebuild loopyChannelCase :=
  fun c => Case (cs_ch c) (cs_send c) (cs_data c) (cs_result c).

(** The attempt of one case: the new store, the case, and whether it is ready. *)
Definition tryCase (store : list loopyChannel) (c : loopyChannelCase)
    : list loopyChannel * loopyChannelCase * bool :=
  let ch := i ← cs_ch c; store !! i in
  let write ch := match cs_ch c, ch with Some i, Some ch => <[i := ch]> store | _, _ => store end in
  if cs_send c then
    let '(ch, status) := loopyChannelTrySend (cs_data c) ch in
    if (status =? LOOPY_CHANNEL_OK)%Z then
      (write ch, c <| cs_result := Z.of_nat (length (default [] (cs_data c))) |>, true)
    else if negb (status =? LOOPY_CHANNEL_FULL)%Z then (write ch, c <| cs_result := status |>, true)
    else (write ch, c, false)
  else
    let '(ch, (n, x)) := loopyChannelTryRecv (length <$> cs_data c) ch in
    if (0 <? n)%Z then
      (write ch, c <| cs_result := n |> <| cs_data ::= fmap (fun buf => store_at buf 0 x) |>, true)
    else if negb (n =? LOOPY_CHANNEL_EMPTY)%Z then (write ch, c <| cs_result := n |>, true)
    else (write ch, c, false).

(** The [for] loop: the index of the first ready case. *)
Fixpoint selectScan (cases : list loopyChannelCase) (store : list loopyChannel)
    : list loopyChannel * list loopyChannelCase * option nat :=
  match cases with
  | [] => (store, [], None)
  | c :: cases =>
      let '(store, c, ready) := tryCase store c in
      if ready then (store, c :: cases, Some 0)
      else let '(store, cases, i) := selectScan cases store in (store, c :: cases, S <$> i)
  end.

(** [ticks]: after each sleep, what the other threads left in the channels and
    the clock; [None] when they run out before the deadline. *)
Fixpoint selectLoop (timeoutUs deadline : Z) (ticks : list (list loopyChannel * Z))
    (cases : list loopyChannelCase) (store : list loopyChannel)
    : option (list loopyChannel * list loopyChannelCase * Z) :=
  let '(store, cases, i) := selectScan cases store in
  match i with
  | Some i => Some (store, cases, Z.of_nat i)
  | None =>
      if (timeoutUs =? 0)%Z then Some (store, cases, (-1)%Z)
      else
        match ticks with
        | [] => None
        | (store, now) :: ticks =>
            if (now <? deadline)%Z then selectLoop timeoutUs deadline ticks cases store
            else Some (store, cases, (-1)%Z)
        end
  end.

Definition loopyChannelSelect (timeoutUs startTime : Z) (ticks : list (list loopyChannel * Z))
    (cases : list loopyChannelCase) (store : list loopyChannel)
    : option (list loopyChannel * list loopyChannelCase * Z) :=
  match cases with
  | [] => Some (store, [], (-1)%Z)
  | _ =>
      let deadline := if (timeoutUs <? 0)%Z then (w64 - 1)%Z
                      else if (timeoutUs =? 0)%Z then 0%Z
                      else (startTime +64 timeoutUs) in
      selectLoop timeoutUs deadline ticks cases store
  end.

(** *** Introspection and statistics *)

Definition loopyChannelLen (ch : option loopyChannel) : Z :=
  peek_handle 0%Z ch (fun ch => implLen (ch_impl ch)).
Definition loopyChannelCap (ch : option loopyChannel) : Z :=
  peek_handle 0%Z ch (fun ch => implCap (ch_impl ch)).
Definition loopyChannelIsClosed (ch : option loopyChannel) : bool := peek_handle true ch ch_closed.
Definition loopyChannelIsFull (ch : option loopyChannel) : bool :=
  peek_handle true ch (fun ch => implIsFull (ch_impl ch)).
Definition loopyChannelIsEmpty (ch : option loopyChannel) : bool :=
  peek_handle true ch (fun ch => implIsEmpty (ch_impl ch)).
Definition loopyChannelGetId (ch : option loopyChannel) : Z := peek_handle 0%Z ch ch_id.
Definition loopyChannelGetType (ch : option loopyChannel) : loopyChannelType :=
  peek_handle LOOPY_CHANNEL_SPSC ch ch_type.
Definition loopyChannelGetElementSize (ch : option loopyChannel) : nat :=
  peek_handle 0 ch (fun ch => cfg_elementSize (ch_config ch)).
Definition loopyChannelGetStats (ch : option loopyChannel) (stats : loopyChannelStats)
    : loopyChannelStats := peek_handle stats ch ch_stats.
Definition loopyChannelResetStats (ch : option loopyChannel) : option loopyChannel :=
  (fun ch => ch <| ch_stats := Stats 0 0 0 0 0 0 0 |>) <$> ch.
Definition loopyChannelGetData (ch : option loopyChannel) : option Z := ch ≫= ch_userData.
Definition loopyChannelSetData (data : option Z) (ch : option loopyChannel) : option loopyChannel :=
  (fun ch => ch <| ch_userData := data |>) <$> ch.

Definition loopyChannelTypeName (type : loopyChannelType) : string :=
  match type with
  | LOOPY_CHANNEL_SPSC => "SPSC"
  | LOOPY_CHANNEL_MPSC => "MPSC"
  | LOOPY_CHANNEL_MPMC => "MPMC"
  end.

Definition loopyChannelStatusName (status : Z) : string :=
  if (status =? LOOPY_CHANNEL_OK)%Z then "OK"
  else if (status =? LOOPY_CHANNEL_FULL)%Z then "FULL"
  else if (status =? LOOPY_CHANNEL_EMPTY)%Z then "EMPTY"
  else if (status =? LOOPY_CHANNEL_CLOSED)%Z then "CLOSED"
  else if (status =? LOOPY_CHANNEL_TIMEOUT)%Z then "TIMEOUT"
  else if (status =? LOOPY_CHANNEL_ERROR)%Z then "ERROR"
  else if (status =? LOOPY_CHANNEL_INVALID)%Z then "INVALID"
  else "UNKNOWN".

(** ** The dispatch on the type is a bounded queue again *)

Ltac impl_op :=
  match goal with
  | |- context [let '(_, _) := ?x in _] => rewrite (surjective_pairing x)
  end.

#[export] Program Instance impl_queue : BoundedQueue channelImpl := {
  bq_trySend := implTrySend;
  bq_tryRecv := implTryRecv;
  bq_len := implLen;
  bq_cap := implCap;
  bq_isFull := implIsFull;
  bq_isEmpty := implIsEmpty;
  bq_elementSize := implElementSize;
  bq_rep := impl_rep
}.
Next Obligation. intros [q|q] l Hr; exact (bq_bound q l Hr). Qed.
Next Obligation.
  intros [q|q] l data Hr Hd; unfold implTrySend; impl_op; exact (bq_send_open q l data Hr Hd).
Qed.
Next Obligation.
  intros [q|q] l data closed Hr Hd; unfold implTrySend; impl_op;
    destruct (bq_send_size q l data closed Hr Hd) as [H E]; by rewrite E.
Qed.
Next Obligation.
  intros [q|q] x l n closed Hr Hd; unfold implTryRecv; impl_op;
    exact (bq_recv_some q x l n closed Hr Hd).
Qed.
Next Obligation.
  intros [q|q] n closed Hr Hd; unfold implTryRecv; impl_op; exact (bq_recv_none q n closed Hr Hd).
Qed.
Next Obligation.
  intros [q|q] l n closed Hr Hd; unfold implTryRecv; impl_op;
    by rewrite (bq_recv_small q l n closed Hr Hd).
Qed.
Next Obligation.
  intros [q|q] data closed; unfold implTrySend; impl_op; exact (bq_send_params q data closed).
Qed.
Next Obligation.
  intros [q|q] n closed; unfold implTryRecv; impl_op; exact (bq_recv_params q n closed).
Qed.
Next Obligation. intros [q|q] l Hr; exact (bq_len_exact q l Hr). Qed.

(** ** Channels that hold a queue *)

Record chan_rep (ch : loopyChannel) (l : list bytes) : Prop := {
  cr_impl : bq_rep (ch_impl ch) l;
  cr_es : bq_elementSize (ch_impl ch) = cfg_elementSize (ch_config ch);
  cr_cap : bq_cap (ch_impl ch) = cfg_capacity (ch_config ch);
  cr_pos : cfg_elementSize (ch_config ch) <> 0
}.

(** Every channel [loopyChannelNew] makes is open and empty. *)
Lemma channelNew_rep newId junk config :
  cfg_elementSize config <> 0 -> (1 <= cfg_capacity config < 2 ^ 63)%Z ->
  (nextPowerOf2 (cfg_capacity config + 1) * Z.of_nat (cfg_elementSize config) < w64)%Z ->
  (cfg_capacity config * Z.of_nat (cfg_elementSize config) < w64)%Z ->
  exists ch, loopyChannelNew newId true true (true, true, true, true) junk None (Some config) = Some ch /\
    ch_closed ch = false /\ ch_config ch = config /\ ch_stats ch = Stats 0 0 0 0 0 0 0 /\
    chan_rep ch [].
Proof.
  intros He Hc Hz1 Hz2. unfold loopyChannelNew.
  rewrite (proj2 (Nat.eqb_neq _ _) He), (proj2 (Z.eqb_neq (cfg_capacity config) 0)) by lia.
  cbn [orb negb]. unfold implInit.
  destruct (spscInit_inv (cfg_capacity config) (cfg_elementSize config) junk Hc Hz1)
    as (k & qs & Hqs & Hcs & Hes & Hrs).
  destruct (mpmcInit_rep (cfg_capacity config) (cfg_elementSize config) junk) as (qm & Hqm & Hcm & Hem & Hrm);
    [unfold w64; lia|done|].
  cbn [fst]. rewrite Hqs, Hqm.
  destruct (cfg_type config); cbn [fmap option_fmap option_map];
    (eexists; split; [done|]; split_and!; [done..|]; split; try done).
  exists k. exists (spsc_start qs). done.
Qed.

Lemma noteSent_rep ch l : chan_rep ch l -> chan_rep (noteSent ch) l.
Proof. intros [? ? ? ?]. unfold noteSent, updatePeakUsage. case_if; by split. Qed.

(** The abstract behaviour of a non-blocking send. *)
Definition send_status (closed fits room : bool) (s : Z) : Prop :=
  if closed then s = LOOPY_CHANNEL_CLOSED
  else if negb fits then s <> LOOPY_CHANNEL_OK
  else s = if room then LOOPY_CHANNEL_OK else LOOPY_CHANNEL_FULL.

Lemma channelTrySend_rep ch l data :
  chan_rep ch l ->
  let fits := length data =? cfg_elementSize (ch_config ch) in
  let room := (Z.of_nat (length l) <? cfg_capacity (ch_config ch))%Z in
  let ok := negb (ch_closed ch) && fits && room in
  let '(ch', s) := channelTrySend data ch in
  send_status (ch_closed ch) fits room s /\ chan_rep ch' (if ok then l ++ [data] else l) /\
  ch_closed ch' = ch_closed ch /\ ch_config ch' = ch_config ch /\
  ch_pendingOps ch' = ch_pendingOps ch /\ ch_async ch' = ch_async ch.
Proof.
  intros Hr. cbn zeta. unfold channelTrySend, send_status.
  destruct (ch_closed ch) eqn:Hcl; [by split_and!; destruct Hr|].
  destruct Hr as [Hi He Hc Hp].
  pose proof (bq_send_params (ch_impl ch) data false) as [Hcap Hes].
  pose proof (bq_send_open (ch_impl ch) l data Hi) as Hopen.
  pose proof (bq_send_size (ch_impl ch) l data false Hi) as Hsize.
  change (implTrySend data false (ch_impl ch)) with (bq_trySend data false (ch_impl ch)).
  destruct (bq_trySend data false (ch_impl ch)) as [i s]; cbn [fst snd] in *.
  rewrite He, Hc in *.
  destruct (Nat.eqb_spec (length data) (cfg_elementSize (ch_config ch))) as [Hd|Hd]; cbn [negb andb].
  - destruct (Hopen Hd) as [-> Hrep]. destruct (_ <? _)%Z eqn:Hroom; cbn -[noteSent].
    + split_and!; try done; [|by unfold noteSent, updatePeakUsage; case_if..].
      apply noteSent_rep. by split.
    + split_and!; try done.
  - destruct (Hsize Hd) as [Hs ->]. rewrite (proj2 (Z.eqb_neq _ _) Hs).
    case_if; split_and!; try done; by split.
Qed.

(** The abstract behaviour of a non-blocking receive with a large enough buffer. *)
Definition recv_status (es : nat) (closed : bool) (l : list bytes) (r : Z * bytes) : Prop :=
  match l with
  | x :: _ => r = (Z.of_nat es, x)
  | [] => r = (LOOPY_CHANNEL_EMPTY, []) \/ closed = true /\ r = (LOOPY_CHANNEL_CLOSED, [])
  end.

Lemma channelTryRecv_rep ch l n :
  chan_rep ch l -> cfg_elementSize (ch_config ch) <= n ->
  let '(ch', r) := channelTryRecv n ch in
  recv_status (cfg_elementSize (ch_config ch)) (ch_closed ch) l r /\ chan_rep ch' (tail l) /\
  ch_closed ch' = ch_closed ch /\ ch_config ch' = ch_config ch /\
  ch_pendingOps ch' = ch_pendingOps ch /\ ch_async ch' = ch_async ch.
Proof.
  intros [Hi He Hc Hp] Hn. unfold channelTryRecv.
  pose proof (bq_recv_params (ch_impl ch) n (ch_closed ch)) as [Hcap Hes].
  pose proof (bq_recv_none (ch_impl ch) n (ch_closed ch)) as Hnone.
  pose proof (fun x l => bq_recv_some (ch_impl ch) x l n (ch_closed ch)) as Hsome.
  change (implTryRecv n (ch_closed ch) (ch_impl ch)) with (bq_tryRecv n (ch_closed ch) (ch_impl ch)).
  destruct (bq_tryRecv n (ch_closed ch) (ch_impl ch)) as [i [r x]]; cbn [fst snd] in *.
  rewrite He, Hc in *.
  assert (chan_rep (ch <| ch_impl := i |>) (tail l) /\
    recv_status (cfg_elementSize (ch_config ch)) (ch_closed ch) l (r, x)) as [Hrep Hst].
  { destruct l as [|y l].
    - destruct (Hnone Hi Hn). by split.
    - destruct (Hsome y l Hi Hn). by split. }
  destruct Hrep. case_ifs; split_and!; try done; by split.
Qed.

Lemma channelTryRecv_small ch l n :
  chan_rep ch l -> n < cfg_elementSize (ch_config ch) ->
  snd (channelTryRecv n ch) = (LOOPY_CHANNEL_INVALID, []) /\ chan_rep (fst (channelTryRecv n ch)) l.
Proof.
  intros [Hi He Hc Hp] Hn. unfold channelTryRecv.
  change (implTryRecv n (ch_closed ch) (ch_impl ch)) with (bq_tryRecv n (ch_closed ch) (ch_impl ch)).
  rewrite (bq_recv_small (ch_impl ch) l n _ Hi) by (by rewrite He). by split.
Qed.

(** *** Sequences of operations *)

Inductive chan_op := OpSend (data : bytes) | OpRecv (bufLen : nat) | OpClose.

(** Runs a sequence; collects the elements accepted and the elements delivered. *)
Fixpoint runOps (ops : list chan_op) (ch : loopyChannel) : loopyChannel * list bytes * list bytes :=
  match ops with
  | [] => (ch, [], [])
  | OpSend data :: ops =>
      let '(ch, s) := channelTrySend data ch in
      let '(ch, acc, del) := runOps ops ch in
      (ch, (if (s =? LOOPY_CHANNEL_OK)%Z then [data] else []) ++ acc, del)
  | OpRecv n :: ops =>
      let '(ch, (r, x)) := channelTryRecv n ch in
      let '(ch, acc, del) := runOps ops ch in
      (ch, acc, (if (0 <? r)%Z then [x] else []) ++ del)
  | OpClose :: ops => runOps ops (channelClose ch)
  end.

(** How the counters move with the elements. *)
Definition stats_rep (ch : loopyChannel) (acc del : nat) (l : list bytes) : Prop :=
  totalSent (ch_stats ch) = u64 (Z.of_nat acc) /\
  totalReceived (ch_stats ch) = u64 (Z.of_nat del) /\
  acc = del + length l /\
  (peakUsage (ch_stats ch) <= cfg_capacity (ch_config ch))%Z.

Lemma channelTrySend_stats ch l data acc del :
  chan_rep ch l -> stats_rep ch acc del l ->
  let '(ch', s) := channelTrySend data ch in
  if (s =? LOOPY_CHANNEL_OK)%Z then stats_rep ch' (S acc) del (l ++ [data])
  else stats_rep ch' acc del l.
Proof.
  intros Hr (Hs & Hrc & Hn & Hpk). pose proof (channelTrySend_rep ch l data Hr) as Hspec.
  unfold channelTrySend in *. destruct (ch_closed ch); [done|].
  destruct (implTrySend data false (ch_impl ch)) as [i s].
  destruct (s =? LOOPY_CHANNEL_OK)%Z eqn:Hok.
  - rewrite Hok. apply Z.eqb_eq in Hok as ->.
    destruct Hspec as (Hst & Hrep & _ & Hcfg & _). unfold send_status in Hst. cbn [negb andb] in *.
    destruct (length data =? _); cbn [negb andb] in *; [|done].
    destruct (_ <? _)%Z; [|done].
    pose proof (bq_bound _ _ (cr_impl _ _ Hrep)) as Hb. pose proof (cr_cap _ _ Hrep) as Hcap.
    pose proof (bq_len_exact _ _ (cr_impl _ _ Hrep)) as [Hlen _].
    rewrite Hcap, Hcfg in Hb. clear Hrep.
    assert (Hi : ch_impl (noteSent (ch <| ch_impl := i |>)) = i)
      by (unfold noteSent, updatePeakUsage; by case_if).
    rewrite Hi in Hlen. change (implLen i = Z.of_nat (length (l ++ [data]))) in Hlen.
    unfold stats_rep, noteSent, updatePeakUsage. cbn -[implLen Z.of_nat].
    case_if; cbn -[implLen Z.of_nat]; split_and!; try done;
      rewrite ?Hs, ?length_app; cbn -[Z.of_nat implLen]; unfold count_up;
      autorewrite with loopy_simpl; first [lia | f_equal; lia].
  - destruct (s =? LOOPY_CHANNEL_FULL)%Z; cbn [negb]; by rewrite Hok.
Qed.

Lemma channelTryRecv_stats ch l n acc del :
  chan_rep ch l -> stats_rep ch acc del l ->
  let '(ch', (r, x)) := channelTryRecv n ch in
  if (0 <? r)%Z then stats_rep ch' acc (S del) (tail l) /\ l = x :: tail l
  else stats_rep ch' acc del l.
Proof.
  intros Hr (Hs & Hrc & Hn & Hpk).
  destruct (decide (cfg_elementSize (ch_config ch) <= n)) as [Hb|Hb].
  - pose proof (channelTryRecv_rep ch l n Hr Hb) as Hspec. unfold channelTryRecv in *.
    destruct (implTryRecv n (ch_closed ch) (ch_impl ch)) as [i [r x]].
    destruct (0 <? r)%Z eqn:Hpos; rewrite ?Hpos.
    + destruct Hspec as (Hst & _). destruct l as [|y l]; cbn in Hst.
      { destruct Hst as [Hst|[_ Hst]]; injection Hst as -> ->; done. }
      injection Hst as -> ->. split; [|done]. unfold stats_rep; cbn -[Z.of_nat].
      split_and!; try done; [|cbn in Hn; lia]. rewrite Hrc. unfold count_up.
      autorewrite with loopy_simpl. f_equal. lia.
    + destruct (r =? _)%Z; cbn [negb]; by rewrite Hpos.
  - pose proof (channelTryRecv_small ch l n Hr ltac:(lia)) as [Hspec _].
    unfold channelTryRecv in *. destruct (implTryRecv n (ch_closed ch) (ch_impl ch)) as [i [r x]].
    destruct (0 <? r)%Z eqn:Hpos; rewrite ?Hpos; [cbn in Hspec; by simplify_eq|].
    destruct (r =? _)%Z; cbn [negb]; by rewrite Hpos.
Qed.

Lemma channelTryRecv_keeps ch l n :
  chan_rep ch l -> let '(ch', (r, x)) := channelTryRecv n ch in
  chan_rep ch' (if (0 <? r)%Z then tail l else l).
Proof.
  intros Hr. destruct (decide (cfg_elementSize (ch_config ch) <= n)) as [Hb|Hb].
  - pose proof (channelTryRecv_rep ch l n Hr Hb) as Hspec. pose proof (cr_pos _ _ Hr).
    destruct (channelTryRecv n ch) as [ch' [r x]]. destruct Hspec as (Hst & Hrep & _).
    destruct l as [|y l]; cbn in *; [by destruct (0 <? r)%Z|].
    injection Hst as -> ->. by rewrite (proj2 (Z.ltb_lt 0 _)) by lia.
  - pose proof (channelTryRecv_small ch l n Hr ltac:(lia)) as [Hspec Hrep].
    destruct (channelTryRecv n ch) as [ch' [r x]]. cbn in *. by simplify_eq.
Qed.

Lemma channelTrySend_keeps ch l data :
  chan_rep ch l -> let '(ch', s) := channelTrySend data ch in
  chan_rep ch' (if (s =? LOOPY_CHANNEL_OK)%Z then l ++ [data] else l).
Proof.
  intros Hr. pose proof (channelTrySend_rep ch l data Hr) as Hspec.
  destruct (channelTrySend data ch) as [ch' s]. destruct Hspec as (Hst & Hrep & _).
  unfold send_status in Hst. destruct (ch_closed ch); cbn [negb andb] in *; [by subst|].
  destruct (_ =? cfg_elementSize _); cbn [negb andb] in *.
  - destruct (_ <? _)%Z; by subst.
  - by rewrite (proj2 (Z.eqb_neq _ _) Hst).
Qed.

Lemma runOps_rep ops : forall ch l acc del,
  chan_rep ch l -> stats_rep ch acc del l ->
  let '(ch', a, d) := runOps ops ch in
  exists l', chan_rep ch' l' /\ l ++ a = d ++ l' /\ stats_rep ch' (acc + length a) (del + length d) l'.
Proof.
  induction ops as [|[data|n|] ops IH]; cbn -[channelTrySend channelTryRecv]; intros ch l acc del Hr Hs.
  - exists l. rewrite app_nil_r, !Nat.add_0_r. done.
  - pose proof (channelTrySend_keeps ch l data Hr). pose proof (channelTrySend_stats ch l data acc del Hr Hs).
    destruct (channelTrySend data ch) as [ch' s]. destruct (s =? LOOPY_CHANNEL_OK)%Z.
    + specialize (IH ch' (l ++ [data]) (S acc) del). destruct (runOps ops ch') as [[ch'' a] d].
      destruct IH as (l' & ? & E & ?); [done..|]. exists l'. cbn. rewrite Nat.add_succ_r.
      split_and!; [done| |done]. rewrite <- E, <- app_assoc. done.
    + specialize (IH ch' l acc del). destruct (runOps ops ch') as [[ch'' a] d]. by apply IH.
  - pose proof (channelTryRecv_keeps ch l n Hr). pose proof (channelTryRecv_stats ch l n acc del Hr Hs).
    destruct (channelTryRecv n ch) as [ch' [r x]]. destruct (0 <? r)%Z.
    + destruct H0 as [? Hl]. specialize (IH ch' (tail l) acc (S del)).
      destruct (runOps ops ch') as [[ch'' a] d].
      destruct IH as (l' & ? & E & ?); [done..|]. exists l'. cbn. rewrite Nat.add_succ_r.
      split_and!; [done| |done]. rewrite Hl at 1. cbn. by rewrite E.
    + specialize (IH ch' l acc del). destruct (runOps ops ch') as [[ch'' a] d]. by apply IH.
  - apply IH; [by destruct Hr|done].
Qed.

(** C15. A channel of any type is a FIFO queue with exact accounts: after any
    sequence of sends, receives and closes from a new channel, the accepted
    elements are the delivered ones followed by those still queued, in order;
    the counters give the numbers accepted and delivered modulo 2^64, and the
    peak never exceeds the capacity. *)
Theorem channel_fifo_accounts newId junk config ops ch ch' acc del
    (He : cfg_elementSize config <> 0) (Hc : (1 <= cfg_capacity config < 2 ^ 63)%Z)
    (Hz1 : (nextPowerOf2 (cfg_capacity config + 1) * Z.of_nat (cfg_elementSize config) < w64)%Z)
    (Hz2 : (cfg_capacity config * Z.of_nat (cfg_elementSize config) < w64)%Z)
    (Hnew : loopyChannelNew newId true true (true, true, true, true) junk None (Some config) = Some ch)
    (Hrun : runOps ops ch = (ch', acc, del)) :
  exists queued, acc = del ++ queued /\
    implLen (ch_impl ch') = Z.of_nat (length queued) /\
    (Z.of_nat (length queued) <= cfg_capacity (ch_config ch'))%Z /\
    totalSent (ch_stats ch') = u64 (Z.of_nat (length acc)) /\
    totalReceived (ch_stats ch') = u64 (Z.of_nat (length del)) /\
    (peakUsage (ch_stats ch') <= cfg_capacity (ch_config ch'))%Z.
Proof.
  destruct (channelNew_rep newId junk config He Hc Hz1 Hz2) as (c & Hn & _ & Hcfg & Hst & Hr).
  assert (c = ch) as -> by congruence.
  pose proof (runOps_rep ops ch [] 0 0 Hr) as Hrep. rewrite Hrun in Hrep.
  destruct Hrep as (l & Hl & E & Hs & Hrc & _ & Hpk).
  { unfold stats_rep. rewrite Hst, Hcfg. cbn. split_and!; try done; lia. }
  exists l. pose proof (bq_len_exact _ _ (cr_impl _ _ Hl)) as [Hlen _].
  pose proof (bq_bound _ _ (cr_impl _ _ Hl)) as [Hb _]. rewrite (cr_cap _ _ Hl) in Hb.
  split_and!; done.
Qed.

(** *** After close *)

Lemma channelTrySend_config data ch : ch_config (fst (channelTrySend data ch)) = ch_config ch.
Proof.
  unfold channelTrySend. destruct (ch_closed ch); [done|]. destruct (implTrySend _ _ _).
  unfold noteSent, updatePeakUsage. by case_ifs.
Qed.

Lemma channelTryRecv_config n ch : ch_config (fst (channelTryRecv n ch)) = ch_config ch.
Proof. unfold channelTryRecv. destruct (implTryRecv _ _ _) as [? []]. by case_ifs. Qed.

Lemma runOps_config ops : forall ch, ch_config (fst (fst (runOps ops ch))) = ch_config ch.
Proof.
  induction ops as [|[data|n|] ops IH]; intros ch; cbn -[channelTrySend channelTryRecv]; [done|..].
  - pose proof (channelTrySend_config data ch) as E. destruct (channelTrySend data ch) as [c s].
    specialize (IH c). destruct (runOps ops c) as [[? ?] ?]. cbn in *. congruence.
  - pose proof (channelTryRecv_config n ch) as E. destruct (channelTryRecv n ch) as [c [r x]].
    specialize (IH c). destruct (runOps ops c) as [[? ?] ?]. cbn in *. congruence.
  - by rewrite IH.
Qed.

Lemma drain_rep l : forall ch n, chan_rep ch l -> cfg_elementSize (ch_config ch) <= n ->
  snd (fst (runOps (replicate (length l) (OpRecv n)) ch)) = [] /\
  snd (runOps (replicate (length l) (OpRecv n)) ch) = l /\
  chan_rep (fst (fst (runOps (replicate (length l) (OpRecv n)) ch))) [].
Proof.
  induction l as [|x l IH]; intros ch n Hr Hn; cbn -[channelTryRecv]; [done|].
  pose proof (channelTryRecv_rep ch (x :: l) n Hr Hn) as Hspec. pose proof (cr_pos _ _ Hr).
  destruct (channelTryRecv n ch) as [ch' [r y]]. destruct Hspec as (Hst & Hrep & _ & Hcfg & _).
  cbn in Hst. injection Hst as -> ->. rewrite (proj2 (Z.ltb_lt 0 _)) by lia.
  rewrite <- Hcfg in Hn. specialize (IH ch' n Hrep Hn).
  destruct (runOps (replicate (length l) (OpRecv n)) ch') as [[ch'' a] d]. cbn in *.
  destruct IH as (-> & -> & ?). done.
Qed.

(** Closing refuses new elements and keeps the old ones: every send, also a
    blocking one, returns [CLOSED] at once and leaves the queue alone, and
    receives still deliver exactly the queued elements in order, after which
    a receive reports [EMPTY] or [CLOSED]. *)
Theorem channel_close_drains ch l data spins waits n
    (Hr : chan_rep ch l) (Hn : cfg_elementSize (ch_config ch) <= n) :
  let c := channelClose ch in
  let '(drained, acc, del) := runOps (replicate (length l) (OpRecv n)) c in
  (snd (channelTrySend data c) = LOOPY_CHANNEL_CLOSED /\ chan_rep (fst (channelTrySend data c)) l) /\
  (exists c', channelSend data spins waits c = Some (c', LOOPY_CHANNEL_CLOSED) /\ chan_rep c' l) /\
  acc = [] /\ del = l /\
  recv_status (cfg_elementSize (ch_config ch)) true [] (snd (channelTryRecv n drained)).
Proof.
  cbn zeta. assert (Hc : chan_rep (channelClose ch) l) by (by destruct Hr).
  pose proof (drain_rep l (channelClose ch) n Hc Hn) as (Ha & Hd & Hrep).
  pose proof (runOps_config (replicate (length l) (OpRecv n)) (channelClose ch)) as Hcfg.
  destruct (runOps _ (channelClose ch)) as [[c acc] del]. cbn in Ha, Hd, Hrep, Hcfg.
  split_and!; try done; [by destruct Hc|by eexists; split; [done|destruct Hc]|].
  assert (Hn' : cfg_elementSize (ch_config c) <= n) by (rewrite Hcfg; done).
  pose proof (channelTryRecv_rep c [] n Hrep Hn') as Hspec.
  destruct (channelTryRecv n c) as [c' r]. destruct Hspec as (Hst & _). cbn in *. naive_solver.
Qed.

(** ** Many threads on the mutex ring

    Each step is what one thread does while it holds the mutex, for any thread,
    blocking or not, or the store of the closed flag.  A section that waits
    changes nothing. *)

Record mpmcSys := MSys {
  ms_ring : loopyChannelMPMC;
  ms_closed : bool;
  ms_acc : list bytes;
  ms_del : list bytes
}.

#[export] Instance MSys_rebuild : Rebuild mpmcSys :=
  fun s => MSys (ms_ring s) (ms_closed s) (ms_acc s) (ms_del s).

Inductive mpmc_step : mpmcSys -> mpmcSys -> Prop :=
  | m_send s data blocking q status :
      length data = mp_elementSize (ms_ring s) ->
      sendSection data blocking (ms_closed s) (ms_ring s) = Return q status ->
      mpmc_step s (s <| ms_ring := q |>
        <| ms_acc ::= fun l => l ++ (if (status =? LOOPY_CHANNEL_OK)%Z then [data] else []) |>)
  | m_recv s blocking q result buf :
      recvSection blocking (ms_closed s) (ms_ring s) = Return q (result, buf) ->
      mpmc_step s (s <| ms_ring := q |>
        <| ms_del ::= fun l => l ++ (if (0 <=? result)%Z then [buf] else []) |>)
  | m_close s : mpmc_step s (s <| ms_closed := true |>).

Definition mpmc_inv (s : mpmcSys) : Prop :=
  exists l, mpmc_rep (ms_ring s) l /\ ms_acc s = ms_del s ++ l.

Lemma mpmc_preserves s s' : mpmc_inv s -> mpmc_step s s' -> mpmc_inv s'.
Proof.
  intros (l & Hr & Ha) Hs. destruct Hs as [s data blocking q status Hd Hsec|s blocking q result buf Hsec|s].
  - unfold sendSection in Hsec. rewrite (mr_count _ _ Hr) in Hsec.
    destruct (Nat.leb_spec (mp_capacity (ms_ring s)) (length l)).
    { exists l. destruct (ms_closed s), blocking; cbn in Hsec; simplify_eq; cbn; by rewrite app_nil_r. }
    destruct (ms_closed s); simplify_eq; [exists l; cbn; by rewrite app_nil_r|].
    exists (l ++ [data]). split; [by apply mpmcPut_rep|]. cbn. by rewrite Ha, app_assoc.
  - unfold recvSection in Hsec. rewrite (mr_count _ _ Hr) in Hsec.
    destruct l as [|x l]; cbn in Hsec.
    { exists []. destruct (ms_closed s), blocking; cbn in Hsec; simplify_eq; cbn; by rewrite ?Ha, !app_nil_r. }
    destruct (mpmcGet_rep _ _ _ Hr) as [Hx Hl]. exists l. cbn in Hx.
    injection Hsec as <- <- <-. split; [exact Hl|]. cbn -[Z.leb].
    rewrite (proj2 (Z.leb_le 0 _)) by lia. rewrite Ha, <- app_assoc. cbn. by rewrite Hx.
  - by exists l.
Qed.

(** C14. Any number of producer and consumer threads on the mutex ring: under
    every interleaving of their critical sections the elements delivered are
    a prefix, in order, of the elements accepted, nothing is duplicated or
    lost, and the rest is what the ring holds, never more than its capacity. *)
Theorem mpmc_fifo capacity elementSize junk q s
    (Hc : (1 <= capacity < w64)%Z) (Hz : (capacity * Z.of_nat elementSize < w64)%Z)
    (Hq : mpmcInit (true, true, true, true) junk capacity elementSize = Some q)
    (Hs : rtc mpmc_step (MSys q false [] []) s) :
  exists l, ms_acc s = ms_del s ++ l /\ mpmc_rep (ms_ring s) l /\
    length l <= mp_capacity (ms_ring s).
Proof.
  destruct (mpmcInit_rep capacity elementSize junk Hc Hz) as (q' & Hq' & _ & _ & Hr).
  assert (q' = q) as -> by congruence.
  assert (H0 : mpmc_inv (MSys q false [] [])) by (by exists []).
  destruct (rtc_invariant mpmc_step mpmc_inv _ _ mpmc_preserves H0 Hs) as (l & Hl & Ha).
  exists l. split_and!; [done..|]. by destruct Hl.
Qed.

(** *** Blocking operations *)

(** The states a waiting thread acts on: the one it starts in and those it is
    woken in. *)
Definition acts_on (wakes : list (wake loopyChannelMPMC)) (closed : bool) (q : loopyChannelMPMC)
    : list (bool * loopyChannelMPMC) :=
  (closed, q) :: ((fun w => (wk_closed w, wk_impl w)) <$> wakes).

Lemma waitLoop_returns {R} (body : bool -> loopyChannelMPMC -> section R) onTimeout timeoutUs wakes :
  forall closed blocked q q' r n,
  waitLoop body onTimeout timeoutUs wakes closed blocked q = Some (q', r, n) ->
  (exists c p, (c, p) ∈ acts_on wakes closed q /\ body c p = Return q' r) \/
  (r = onTimeout /\ (0 < timeoutUs)%Z /\ exists w, w ∈ wakes /\ wk_expired w = true /\ q' = wk_impl w).
Proof.
  induction wakes as [|w wakes IH]; intros closed blocked q q' r n; cbn;
    destruct (body closed q) as [q0 r0|] eqn:Hb; intros H; simplify_eq.
  1-2: left; exists closed, q; split; [constructor|done].
  destruct (0 <? timeoutUs)%Z eqn:Ht; cbn in H; [destruct (wk_expired w) eqn:He|].
  - simplify_eq. right. bool_to_prop. split_and!; [done..|]. exists w. split_and!; [constructor|done..].
  - apply IH in H as [(c & p & Hin & ?)|(? & ? & w' & ? & ?)].
    + left. exists c, p. split; [|done]. by constructor.
    + right. split_and!; [done..|]. exists w'. split; [by constructor|done].
  - apply IH in H as [(c & p & Hin & ?)|(? & ? & w' & ? & ?)].
    + left. exists c, p. split; [|done]. by constructor.
    + right. split_and!; [done..|]. exists w'. split; [by constructor|done].
Qed.

Lemma waitLoop_progress {R} (body : bool -> loopyChannelMPMC -> section R) onTimeout timeoutUs wakes :
  forall closed blocked q,
  (exists c p, (c, p) ∈ acts_on wakes closed q /\ body c p <> Wait) ->
  is_Some (waitLoop body onTimeout timeoutUs wakes closed blocked q).
Proof.
  induction wakes as [|w wakes IH]; intros closed blocked q (c & p & Hin & Hb); cbn.
  - apply list_elem_of_singleton in Hin. simplify_eq. by destruct (body closed q).
  - apply elem_of_cons in Hin as [?|Hin]; [simplify_eq; by destruct (body closed q)|].
    destruct (body closed q); [done|]. destruct (_ && _); [done|]. apply IH. by exists c, p.
Qed.

(** A blocking send on the mutex ring: whatever the other threads do while it
    waits, it returns only [OK], [CLOSED] or, with a timeout, [TIMEOUT]; [OK]
    means that the element was appended to a ring that was open and had room;
    and it does return as soon as it is woken in a state that is closed or has
    room. *)
Theorem mpmcSend_blocking data timeoutUs wakes closed q
    (Hd : length data = mp_elementSize q)
    (Hrep : forall c p, (c, p) ∈ acts_on wakes closed q -> exists l, mpmc_rep p l) :
  (forall q' r n, mpmcSend data true timeoutUs wakes closed q = Some (q', r, n) ->
    (r = LOOPY_CHANNEL_OK /\ exists p, (false, p) ∈ acts_on wakes closed q /\
       mp_count p < mp_capacity p /\ q' = mpmcPut data p) \/
    (r = LOOPY_CHANNEL_CLOSED /\ (true, q') ∈ acts_on wakes closed q) \/
    (r = LOOPY_CHANNEL_TIMEOUT /\ (0 < timeoutUs)%Z)) /\
  (forall c p l, (c, p) ∈ acts_on wakes closed q -> mpmc_rep p l ->
    c = true \/ length l < mp_capacity p ->
    is_Some (mpmcSend data true timeoutUs wakes closed q)).
Proof.
  unfold mpmcSend. rewrite Hd, Nat.eqb_refl. cbn [negb]. split.
  - intros q' r n H. apply waitLoop_returns in H as [(c & p & Hin & Hb)|(-> & ? & _)]; [|auto].
    unfold sendSection in Hb. destruct (Nat.leb_spec (mp_capacity p) (mp_count p)), c;
      cbn -[mpmcPut] in Hb; simplify_eq; eauto 10.
  - intros c p l Hin Hr Hc. apply waitLoop_progress. exists c, p. split; [done|].
    unfold sendSection. rewrite (mr_count _ _ Hr).
    destruct (Nat.leb_spec (mp_capacity p) (length l)), c; cbn; naive_solver lia.
Qed.

(** *** The spinning send *)

(** On a blocking [SPSC] channel without a timeout, a send whose length is
    not the element size never returns, however often the consumer makes
    room: the loop retries as if the ring were full. *)
Theorem spin_wrong_length_never_returns data spins waits q ch
    (Hq : ch_impl ch = spsc q) (Hb : cfg_blocking (ch_config ch) = true)
    (Ht : cfg_sendTimeoutUs (ch_config ch) = 0%Z) (Hopen : ch_closed ch = false)
    (Hlen : length data <> sp_elementSize q)
    (Hw : forall w, w ∈ spins -> wk_closed w = false /\ sp_elementSize (wk_impl w) = sp_elementSize q) :
  channelSend data spins waits ch = None.
Proof.
  assert (Hspin : forall n q, length data <> sp_elementSize q ->
    (forall w, w ∈ spins -> wk_closed w = false /\ sp_elementSize (wk_impl w) = sp_elementSize q) ->
    spinSend data 0 spins n q = None).
  { clear. induction spins as [|w spins IH]; intros n q Hlen Hw; cbn -[spscTrySend];
      unfold spscTrySend; rewrite (proj2 (Nat.eqb_neq _ _) Hlen); cbn; [done|].
    destruct (Hw w) as [-> E]; [constructor|]. apply IH; [by rewrite E|].
    intros w' Hin. rewrite E. apply Hw. by constructor. }
  unfold channelSend. rewrite Hopen, Hq. cbn -[spinSend]. rewrite Hb, Ht, Hspin; done.
Qed.

(** A blocking send of the right size that returns [OK] delivered its element. *)
Lemma spinSend_ok k l data timeoutUs wakes n q q' m :
  spsc_rep k q l -> (forall w, w ∈ wakes -> exists l, spsc_rep k (wk_impl w) l) ->
  spinSend data timeoutUs wakes n q = Some (q', LOOPY_CHANNEL_OK, m) ->
  exists l, spsc_rep k q' (l ++ [data]).
Proof.
  revert l n q. induction wakes as [|w wakes IH]; intros l n q Hr Hw H; cbn -[spscTrySend] in H.
  all: pose proof (spscTrySend_rep k q l data Hr); destruct (spscTrySend data q) as [p []];
    simplify_eq; try by exists l.
  destruct (wk_closed w); [done|]. destruct (_ && _); [done|].
  destruct (Hw w) as [l' Hl']; [constructor|]. eapply IH; [done| |done].
  intros w' Hin. apply Hw. by constructor.
Qed.

(** *** Pending asynchronous operations *)

Lemma list_fmap_rev {A B} (f : A -> B) l : f <$> rev l = rev (f <$> l).
Proof. exact (List.map_rev f l). Qed.

Fixpoint sendAllAsync (items : list (bytes * Z)) (ch : option loopyChannel)
    : option loopyChannel * list bool :=
  match items with
  | [] => (ch, [])
  | (data, u) :: items =>
      let '(ch, ok) := loopyChannelSendAsync (Some data) u true true ch in
      let '(ch, oks) := sendAllAsync items ch in (ch, ok :: oks)
  end.

Definition asPending (items : list (bytes * Z)) : list loopyChannelPendingOp :=
  (fun '(d, u) => PendingSend d u) <$> items.

Lemma sendAllAsync_spec items : forall ch l,
  chan_rep ch l -> is_Some (ch_async ch) ->
  exists ch', sendAllAsync items (Some ch) = (Some ch', replicate (length items) true) /\
    ch_pendingOps ch' = rev (asPending items) ++ ch_pendingOps ch /\
    chan_rep ch' l /\ ch_closed ch' = ch_closed ch /\ ch_config ch' = ch_config ch.
Proof.
  induction items as [|[data u] items IH]; intros ch l Hr [a Ha]; cbn.
  - by exists ch.
  - rewrite Ha. cbn. destruct (IH (pushPending (PendingSend data u) a ch) l) as (ch' & E & Hp & ? & ? & ?);
      [by destruct Hr|by eexists|].
    rewrite E. exists ch'. split_and!; try done. rewrite Hp. cbn.
    by rewrite <- app_assoc.
Qed.

Lemma runAll_sends items : forall bufOks ch l,
  chan_rep ch l -> ch_closed ch = false ->
  (forall d u, (d, u) ∈ items -> length d = cfg_elementSize (ch_config ch)) ->
  (Z.of_nat (length l + length items) <= cfg_capacity (ch_config ch))%Z ->
  let '(ch', done) := runAll (asPending items) bufOks ch in
  chan_rep ch' (l ++ items.*1) /\ done = (fun '(_, u) => SendDone LOOPY_CHANNEL_OK u) <$> items.
Proof.
  induction items as [|[data u] items IH]; intros bufOks ch l Hr Ho Hsz Hroom; cbn -[channelTrySend].
  - by rewrite app_nil_r.
  - pose proof (channelTrySend_rep ch l data Hr) as Hspec.
    destruct (channelTrySend data ch) as [c s].
    destruct Hspec as (Hst & Hrep & Hcl & Hcfg & _). unfold send_status in Hst.
    rewrite Ho in *. rewrite (Hsz data u), Nat.eqb_refl in * by constructor. cbn [negb andb] in *.
    cbn in Hroom. rewrite (proj2 (Z.ltb_lt _ _)) in * by lia. subst s.
    specialize (IH (tail bufOks) c (l ++ [data]) Hrep ltac:(done)).
    destruct (runAll _ _ c) as [c' es]. rewrite Hcfg, length_app in IH. cbn in IH.
    destruct IH as [Hc' ->]; [intros d v Hin; apply (Hsz d v); by constructor|lia|].
    by rewrite <- app_assoc in Hc'.
Qed.

(** Asynchronous sends queued before the loop runs their handler are
    performed, and their callbacks called, in the reverse of the order in
    which they were issued: the pending list is a stack. *)
Theorem async_sends_reversed items bufOks ch l
    (Hr : chan_rep ch l) (Ho : ch_closed ch = false) (Ha : is_Some (ch_async ch))
    (Hp : ch_pendingOps ch = [])
    (Hsz : forall d u, (d, u) ∈ items -> length d = cfg_elementSize (ch_config ch))
    (Hroom : (Z.of_nat (length l + length items) <= cfg_capacity (ch_config ch))%Z) :
  exists ch', sendAllAsync items (Some ch) = (Some ch', replicate (length items) true) /\
    let '(ch'', done) := asyncHandler bufOks ch' in
    chan_rep ch'' (l ++ rev items.*1) /\
    done = rev ((fun '(_, u) => SendDone LOOPY_CHANNEL_OK u) <$> items).
Proof.
  destruct (sendAllAsync_spec items ch l Hr Ha) as (ch' & E & Hpend & Hrep & Hcl & Hcfg).
  exists ch'. split; [done|]. unfold asyncHandler.
  rewrite Hpend, Hp, app_nil_r. unfold asPending. rewrite <- list_fmap_rev.
  pose proof (runAll_sends (rev items) bufOks (ch' <| ch_pendingOps := [] |>) l) as Hrun.
  unfold asPending in Hrun. destruct (runAll _ _ _) as [c es].
  rewrite <- !list_fmap_rev. apply Hrun.
  - by destruct Hrep.
  - by rewrite <- Ho, <- Hcl.
  - intros d u Hin%list_elem_of_In%in_rev%list_elem_of_In. cbn. rewrite Hcfg. by apply (Hsz d u).
  - cbn. by rewrite length_rev, Hcfg.
Qed.

(** ** Concrete channels *)

Definition config2 (type : loopyChannelType) (blocking : bool) : loopyChannelConfig :=
  Config type 2 1 blocking 0 0.

Definition new2 (type : loopyChannelType) (blocking : bool) : loopyChannel :=
  default (Channel 0 type None (spsc (SPSC [] 0 0 0 0 0 0 0)) (config2 type blocking) false None []
             (Stats 0 0 0 0 0 0 0))
    (loopyChannelNew 7 true true (true, true, true, true) [] None (Some (config2 type blocking))).

Lemma new2_eq type blocking :
  loopyChannelNew 7 true true (true, true, true, true) [] None (Some (config2 type blocking)) =
    Some (new2 type blocking).
Proof. by destruct type, blocking; vm_compute. Qed.

Lemma new2_rep type blocking : chan_rep (new2 type blocking) [].
Proof.
  destruct (channelNew_rep 7 [] (config2 type blocking)) as (ch & E & _ & _ & _ & Hr);
    [done|done|vm_compute; done|vm_compute; done|].
  rewrite new2_eq in E. by simplify_eq.
Qed.

(** With an event loop attached. *)
Definition new2_async (type : loopyChannelType) : loopyChannel :=
  (new2 type false) <| ch_async := Some (Async false 0) |>.

Lemma channel_fifo_accounts_witness :
  let ops := [OpSend [Byte.x01]; OpSend [Byte.x02]; OpSend [Byte.x03]; OpRecv 1; OpClose; OpSend [Byte.x04]] in
  let '(ch, acc, del) := runOps ops (new2 LOOPY_CHANNEL_SPSC false) in
  acc = [[Byte.x01]; [Byte.x02]] /\ del = [[Byte.x01]] /\
  exists queued, acc = del ++ queued /\ implLen (ch_impl ch) = Z.of_nat (length queued).
Proof.
  cbn zeta. destruct (runOps _ _) as [[ch acc] del] eqn:E.
  pose proof (channel_fifo_accounts 7 [] (config2 LOOPY_CHANNEL_SPSC false) _ _ _ _ _ ltac:(done)
    ltac:(done) ltac:(by vm_compute) ltac:(by vm_compute) (new2_eq _ _) E) as (l & Hl & Hn & _).
  vm_compute in E. injection E as _ <- <-. split; [done|]. split; [done|]. by exists l.
Defined.

Lemma channel_close_drains_witness :
  exists c', channelSend [Byte.x01] [] [] (channelClose (new2 LOOPY_CHANNEL_MPMC true)) =
    Some (c', LOOPY_CHANNEL_CLOSED).
Proof.
  pose proof (channel_close_drains (new2 LOOPY_CHANNEL_MPMC true) [] [Byte.x01] [] [] 1
    (new2_rep _ _) ltac:(cbn; lia)) as P.
  destruct P as [_ [(c' & E & _) _]]. by exists c'.
Defined.

Definition mring1 : loopyChannelMPMC := MPMC [Byte.x00] 1 1 0 0 0.

Lemma mpmc_fifo_witness :
  let s := MSys (MPMC [Byte.x05] 1 1 0 0 1) false [[Byte.x05]] [] in
  exists l, ms_acc s = ms_del s ++ l /\ length l <= 1.
Proof.
  cbn zeta. destruct (mpmc_fifo 1 1 [] mring1 (MSys (MPMC [Byte.x05] 1 1 0 0 1) false [[Byte.x05]] []))
    as (l & Ha & _ & Hb); [done|done|done| |by exists l].
  eapply rtc_l; [|apply rtc_refl].
  exact (m_send (MSys mring1 false [] []) [Byte.x05] true _ _ eq_refl eq_refl).
Defined.

Lemma mpmcSend_blocking_witness :
  let full := MPMC [Byte.x05] 1 1 0 0 1 in
  is_Some (mpmcSend [Byte.x06] true 0 [Woken mring1 false false] false full).
Proof.
  cbn zeta.
  assert (H1 : mpmc_rep mring1 []).
  { destruct (mpmcInit_rep 1 1 []) as (q & E & _ & _ & Hr); [done|done|]. by vm_compute in E; simplify_eq. }
  assert (H2 : mpmc_rep (MPMC [Byte.x05] 1 1 0 0 1) [[Byte.x05]]).
  { exact (mpmcPut_rep mring1 [] [Byte.x05] H1 eq_refl ltac:(cbn; lia)). }
  refine (proj2 (mpmcSend_blocking [Byte.x06] 0 [Woken mring1 false false] false
    (MPMC [Byte.x05] 1 1 0 0 1) eq_refl _) false mring1 [] _ H1 (or_intror _)).
  - intros c p [?|[?|?%elem_of_nil]%elem_of_cons]%elem_of_cons; simplify_eq;
      [by exists [[Byte.x05]]|by exists []|done].
  - right. left.
  - cbn; lia.
Defined.

Lemma spin_wrong_length_never_returns_witness :
  channelSend [Byte.x01; Byte.x02] [Woken ring1 false true; Woken ring1 false true] []
    (new2 LOOPY_CHANNEL_SPSC true) = None.
Proof.
  eapply spin_wrong_length_never_returns; [reflexivity|reflexivity|reflexivity|reflexivity|done|].
  intros w [->|[->|?%elem_of_nil]%elem_of_cons]%elem_of_cons; done.
Defined.

Lemma async_sends_reversed_witness :
  exists ch', sendAllAsync [([Byte.x01], 11%Z); ([Byte.x02], 12%Z)] (Some (new2_async LOOPY_CHANNEL_MPSC)) =
      (Some ch', [true; true]) /\
    let '(ch'', done) := asyncHandler [] ch' in
    chan_rep ch'' [[Byte.x02]; [Byte.x01]] /\
    done = [SendDone LOOPY_CHANNEL_OK 12; SendDone LOOPY_CHANNEL_OK 11].
Proof.
  apply (async_sends_reversed [([Byte.x01], 11%Z); ([Byte.x02], 12%Z)] [] (new2_async LOOPY_CHANNEL_MPSC) []).
  - destruct (new2_rep LOOPY_CHANNEL_MPSC false); by split.
  - reflexivity.
  - by eexists.
  - reflexivity.
  - intros d u [?|[?|?%elem_of_nil]%elem_of_cons]%elem_of_cons; by simplify_eq.
  - cbn; lia.
Defined.
