(* ===== verification/Metrics.v ===== *)
(** * Event-loop metrics ([src/loopyMetrics.c])

    The counters of [loopyMetricsInternal] and every function that updates or
    reads them.  A loop whose metrics are off has a [NULL] pointer there, so
    the functions work on an option.  The four ratios and the text report are
    floating point and formatting and are left out. *)

From S2P Require Import Prelude.

Record loopyMetricsInternal := Metrics {
  loopIterations : Z;
  eventsProcessed : Z;
  timersProcessed : Z;
  totalIdleTime : Z;
  totalBusyTime : Z;
  totalPollTime : Z;
  lastIterationTime : Z;
  pollCalls : Z;
  pollTimeouts : Z;
  pollEvents : Z;
  pollErrors : Z;
  currentFdCount : Z;
  peakFdCount : Z;
  fdRegistrations : Z;
  fdUnregistrations : Z;
  currentTimerCount : Z;
  peakTimerCount : Z;
  timerRegistrations : Z;
  timerUnregistrations : Z;
  latencyBuckets : list Z;
  startTime : Z;
  pollStartTime : Z
}.

#[export] Instance Metrics_rebuild : Rebuild loopyMetricsInternal := fun m =>
  Metrics (loopIterations m) (eventsProcessed m) (timersProcessed m) (totalIdleTime m)
    (totalBusyTime m) (totalPollTime m) (lastIterationTime m) (pollCalls m) (pollTimeouts m)
    (pollEvents m) (pollErrors m) (currentFdCount m) (peakFdCount m) (fdRegistrations m)
    (fdUnregistrations m) (currentTimerCount m) (peakTimerCount m) (timerRegistrations m)
    (timerUnregistrations m) (latencyBuckets m) (startTime m) (pollStartTime m).

Definition LOOPY_LATENCY_BUCKET_COUNT : nat := 8.

Definition getLatencyBucket (latencyUs : Z) : nat :=
  if (latencyUs <? 1)%Z then 0
  else if (latencyUs <? 10)%Z then 1
  else if (latencyUs <? 100)%Z then 2
  else if (latencyUs <? 1000)%Z then 3
  else if (latencyUs <? 10000)%Z then 4
  else if (latencyUs <? 100000)%Z then 5
  else if (latencyUs <? 1000000)%Z then 6
  else 7.

(** [uint64_t] and [uint32_t] increments. *)
Definition plus64 (n v : Z) : Z := (v +64 n).
Definition incr32 (v : Z) : Z := ((v + 1) mod 2 ^ 32)%Z.

Definition zeroMetrics : loopyMetricsInternal :=
  Metrics 0 0 0 0 0 0 0 0 0 0 0 0 0 0 0 0 0 0 0 (replicate LOOPY_LATENCY_BUCKET_COUNT 0%Z) 0 0.

(** ** Lifecycle *)

Definition loopyMetricsEnable (now : Z) (mallocOk : bool) (m : option loopyMetricsInternal)
    : option loopyMetricsInternal * bool :=
  match m with
  | Some _ => (m, false)
  | None => if negb mallocOk then (None, false)
            else (Some (zeroMetrics <| startTime := now |>), true)
  end.

Definition loopyMetricsDisable (m : option loopyMetricsInternal) : option loopyMetricsInternal := None.

Definition loopyMetricsEnabled (m : option loopyMetricsInternal) : bool :=
  match m with Some _ => true | None => false end.

Definition loopyMetricsReset (now : Z) (m : option loopyMetricsInternal) : option loopyMetricsInternal :=
  (fun _ => zeroMetrics <| startTime := now |>) <$> m.

(** [loopyMetricsGet]: the snapshot is the counters, the collection time and
    the uptime. *)
Definition loopyMetricsGet (now : Z) (m : option loopyMetricsInternal)
    : (loopyMetricsInternal * Z * Z) * bool :=
  match m with
  | None => ((zeroMetrics, 0%Z, 0%Z), false)
  | Some m => ((m, now, (now -64 startTime m)), true)
  end.

(** ** Accessors *)

Definition loopyMetricsGetIterations (m : option loopyMetricsInternal) : Z := peek_handle 0%Z m loopIterations.
Definition loopyMetricsGetEventsProcessed (m : option loopyMetricsInternal) : Z := peek_handle 0%Z m eventsProcessed.
Definition loopyMetricsGetTimersProcessed (m : option loopyMetricsInternal) : Z := peek_handle 0%Z m timersProcessed.
Definition loopyMetricsGetFdCount (m : option loopyMetricsInternal) : Z := peek_handle 0%Z m currentFdCount.
Definition loopyMetricsGetPeakFdCount (m : option loopyMetricsInternal) : Z := peek_handle 0%Z m peakFdCount.
Definition loopyMetricsGetTimerCount (m : option loopyMetricsInternal) : Z := peek_handle 0%Z m currentTimerCount.
Definition loopyMetricsGetUptimeUs (now : Z) (m : option loopyMetricsInternal) : Z :=
  peek_handle 0%Z m (fun m => (now -64 startTime m)).
Definition loopyMetricsPollTime (m : option loopyMetricsInternal) : Z := peek_handle 0%Z m totalPollTime.
Definition loopyMetricsIdleTime (m : option loopyMetricsInternal) : Z := peek_handle 0%Z m totalIdleTime.

Definition loopyMetricsLatencyBucketName (bucket : nat) : string :=
  match bucket with
  | 0 => "<1us" | 1 => "<10us" | 2 => "<100us" | 3 => "<1ms" | 4 => "<10ms"
  | 5 => "<100ms" | 6 => "<1s" | 7 => ">=1s" | _ => "unknown"
  end.

(** ** Updates *)

Definition loopyMetricsRecordIteration (m : option loopyMetricsInternal) :=
  (fun m => m <| loopIterations ::= plus64 1 |>) <$> m.
Definition loopyMetricsRecordEvent (m : option loopyMetricsInternal) :=
  (fun m => m <| eventsProcessed ::= plus64 1 |>) <$> m.
Definition loopyMetricsRecordEvents (count : Z) (m : option loopyMetricsInternal) :=
  (fun m => m <| eventsProcessed ::= plus64 count |>) <$> m.
Definition loopyMetricsRecordTimer (m : option loopyMetricsInternal) :=
  (fun m => m <| timersProcessed ::= plus64 1 |>) <$> m.

Definition bump (b : bool) (v : Z) : Z := if b then plus64 1 v else v.

Definition loopyMetricsRecordPoll (durationUs : Z) (hadEvents hadTimeout hadError : bool)
    (m : option loopyMetricsInternal) :=
  (fun m => m <| pollCalls ::= plus64 1 |> <| totalPollTime ::= plus64 durationUs |>
              <| pollEvents ::= bump hadEvents |> <| pollTimeouts ::= bump hadTimeout |>
              <| pollErrors ::= bump hadError |>) <$> m.

Definition recordFdRegistration (m : loopyMetricsInternal) : loopyMetricsInternal :=
  let m := m <| fdRegistrations ::= plus64 1 |> <| currentFdCount ::= incr32 |> in
  if (peakFdCount m <? currentFdCount m)%Z then m <| peakFdCount := currentFdCount m |> else m.

Definition recordFdUnregistration (m : loopyMetricsInternal) : loopyMetricsInternal :=
  let m := m <| fdUnregistrations ::= plus64 1 |> in
  if (0 <? currentFdCount m)%Z then m <| currentFdCount ::= Z.pred |> else m.

Definition recordTimerRegistration (m : loopyMetricsInternal) : loopyMetricsInternal :=
  let m := m <| timerRegistrations ::= plus64 1 |> <| currentTimerCount ::= incr32 |> in
  if (peakTimerCount m <? currentTimerCount m)%Z then m <| peakTimerCount := currentTimerCount m |> else m.

Definition recordTimerUnregistration (m : loopyMetricsInternal) : loopyMetricsInternal :=
  let m := m <| timerUnregistrations ::= plus64 1 |> in
  if (0 <? currentTimerCount m)%Z then m <| currentTimerCount ::= Z.pred |> else m.

Definition loopyMetricsRecordFdRegistration (m : option loopyMetricsInternal) := recordFdRegistration <$> m.
Definition loopyMetricsRecordFdUnregistration (m : option loopyMetricsInternal) := recordFdUnregistration <$> m.
Definition loopyMetricsRecordTimerRegistration (m : option loopyMetricsInternal) := recordTimerRegistration <$> m.
Definition loopyMetricsRecordTimerUnregistration (m : option loopyMetricsInternal) := recordTimerUnregistration <$> m.

Definition loopyMetricsRecordIdleTime (durationUs : Z) (m : option loopyMetricsInternal) :=
  (fun m => m <| totalIdleTime ::= plus64 durationUs |>) <$> m.
Definition loopyMetricsRecordBusyTime (durationUs : Z) (m : option loopyMetricsInternal) :=
  (fun m => m <| totalBusyTime ::= plus64 durationUs |> <| lastIterationTime := durationUs |>) <$> m.
Definition loopyMetricsRecordEventLatency (latencyUs : Z) (m : option loopyMetricsInternal) :=
  (fun m => m <| latencyBuckets ::= alter (plus64 1) (getLatencyBucket latencyUs) |>) <$> m.

(** *** What [loopy.c] calls *)

Definition loopyMetricsPollEntry (now : Z) (m : option loopyMetricsInternal) :=
  (fun m => m <| pollStartTime := now |>) <$> m.

Definition loopyMetricsPollExit (now : Z) (numevents : Z) (m : option loopyMetricsInternal) :=
  (fun m =>
     let duration := (now -64 pollStartTime m) in
     m <| pollCalls ::= plus64 1 |> <| totalPollTime ::= plus64 duration |>
       <| totalIdleTime ::= plus64 duration |>
       <| pollEvents ::= bump (0 <? numevents)%Z |> <| pollTimeouts ::= bump (numevents =? 0)%Z |>) <$> m.

Definition loopyMetricsAddEventsProcessed (count : Z) (m : option loopyMetricsInternal) :=
  if (count <=? 0)%Z then m else (fun m => m <| eventsProcessed ::= plus64 count |>) <$> m.
Definition loopyMetricsIncrementTimersProcessed (m : option loopyMetricsInternal) :=
  (fun m => m <| timersProcessed ::= plus64 1 |>) <$> m.
Definition loopyMetricsIncrementIterations (m : option loopyMetricsInternal) :=
  (fun m => m <| loopIterations ::= plus64 1 |>) <$> m.

(** ** Histogram *)

Lemma getLatencyBucket_spec us :
  (0 <= us)%Z ->
  let b := getLatencyBucket us in
  b < LOOPY_LATENCY_BUCKET_COUNT /\
  (b <> 0 -> (10 ^ Z.of_nat (b - 1) <= us)%Z) /\ (b <> 7 -> (us < 10 ^ Z.of_nat b)%Z).
Proof.
  intros Hu. cbn zeta. unfold getLatencyBucket, LOOPY_LATENCY_BUCKET_COUNT.
  case_ifs; cbn [Nat.sub]; (split; [lia|]); split; intros; (done || cbn; lia).
Qed.

Definition record_all (latencies : list Z) (m : option loopyMetricsInternal) : option loopyMetricsInternal :=
  foldl (fun m us => loopyMetricsRecordEventLatency us m) m latencies.

Definition in_bucket (b : nat) (latencies : list Z) : list Z :=
  filter (fun us => getLatencyBucket us = b) latencies.

#[local] Arguments in_bucket : simpl never.

Lemma alter_lookup_total (l : list Z) (f : Z -> Z) i j :
  i < length l -> alter f i l !!! j = if decide (i = j) then f (l !!! j) else l !!! j.
Proof.
  intros Hi. rewrite !list_lookup_total_alt. case_decide; subst.
  - rewrite list_lookup_alter_eq. destruct (lookup_lt_is_Some_2 l j Hi) as [x ->]. done.
  - by rewrite list_lookup_alter_ne.
Qed.

Lemma record_all_buckets latencies : forall m b,
  length (latencyBuckets m) = LOOPY_LATENCY_BUCKET_COUNT ->
  Forall (fun us => (0 <= us)%Z) latencies ->
  exists m', record_all latencies (Some m) = Some m' /\
    length (latencyBuckets m') = LOOPY_LATENCY_BUCKET_COUNT /\
    u64 (latencyBuckets m' !!! b) =
      (u64 (latencyBuckets m !!! b) +64 Z.of_nat (length (in_bucket b latencies))).
Proof.
  induction latencies as [|us latencies IH]; intros m b Hm Hl; cbn.
  - exists m. rewrite Z.add_0_r, u64_u64. done.
  - apply Forall_cons in Hl as [Hu Hl].
    destruct (getLatencyBucket_spec us Hu) as [Hb _].
    destruct (IH (m <| latencyBuckets ::= alter (plus64 1) (getLatencyBucket us) |>) b) as (m' & E & Hm' & Hc);
      [cbn; by rewrite length_alter|done|].
    exists m'. split; [exact E|]. split; [done|]. rewrite Hc. cbn.
    rewrite alter_lookup_total by lia. unfold in_bucket. rewrite filter_cons.
    case_decide; [|done]. cbn [length]. unfold plus64. autorewrite with loopy_simpl. f_equal. lia.
Qed.

(** The latency histogram is exact: every latency falls in the one bucket
    whose bounds contain it, and after any sequence of recordings bucket [b]
    counts, modulo 2^64, the latencies that belong to it. *)
Theorem latency_histogram latencies now b
    (Hl : Forall (fun us => (0 <= us)%Z) latencies) (Hb : b < LOOPY_LATENCY_BUCKET_COUNT) :
  exists m, record_all latencies (fst (loopyMetricsEnable now true None)) = Some m /\
    u64 (latencyBuckets m !!! b) = u64 (Z.of_nat (length (in_bucket b latencies))) /\
    (forall us, us ∈ in_bucket b latencies ->
       (b <> 0 -> (10 ^ Z.of_nat (b - 1) <= us)%Z) /\ (b <> 7 -> (us < 10 ^ Z.of_nat b)%Z)).
Proof.
  cbn [loopyMetricsEnable negb fst].
  destruct (record_all_buckets latencies (zeroMetrics <| startTime := now |>) b) as (m & E & _ & Hc);
    [done|done|].
  exists m. split; [exact E|]. split.
  - rewrite Hc. cbn -[Z.of_nat replicate]. rewrite lookup_total_replicate_2 by done. done.
  - intros us Hin. apply list_elem_of_filter in Hin as [<- Hin].
    rewrite Forall_forall in Hl. by destruct (getLatencyBucket_spec us (Hl us Hin)) as [_ ?].
Qed.

(** ** Sequences of updates *)

Inductive metric_op :=
  | MFdRegistration | MFdUnregistration | MTimerRegistration | MTimerUnregistration
  | MPoll (entry exit : Z) (numevents : Z) | MEvents (count : Z) | MTimer | MIteration
  | MLatency (us : Z).

Definition run_metric (op : metric_op) (m : option loopyMetricsInternal) : option loopyMetricsInternal :=
  match op with
  | MFdRegistration => loopyMetricsRecordFdRegistration m
  | MFdUnregistration => loopyMetricsRecordFdUnregistration m
  | MTimerRegistration => loopyMetricsRecordTimerRegistration m
  | MTimerUnregistration => loopyMetricsRecordTimerUnregistration m
  | MPoll entry exit n => loopyMetricsPollExit exit n (loopyMetricsPollEntry entry m)
  | MEvents n => loopyMetricsAddEventsProcessed n m
  | MTimer => loopyMetricsIncrementTimersProcessed m
  | MIteration => loopyMetricsIncrementIterations m
  | MLatency us => loopyMetricsRecordEventLatency us m
  end.

Definition is_poll (op : metric_op) : bool := match op with MPoll _ _ _ => true | _ => false end.
Definition count_polls (ops : list metric_op) : nat := length (filter (fun op => is_poll op = true) ops).

(** What holds of the counters after [polls] polls. *)
Record metrics_inv (polls : nat) (m : loopyMetricsInternal) : Prop := {
  mi_fd : (0 <= currentFdCount m <= peakFdCount m)%Z;
  mi_timer : (0 <= currentTimerCount m <= peakTimerCount m)%Z;
  mi_polls : pollCalls m = u64 (Z.of_nat polls);
  mi_split : u64 (pollEvents m + pollTimeouts m) = pollCalls m;
  mi_errors : pollErrors m = 0%Z
}.

Lemma incr32_nonneg v : (0 <= incr32 v)%Z.
Proof. unfold incr32. apply Z.mod_pos_bound. lia. Qed.

Definition poll_ok (op : metric_op) : Prop := match op with MPoll _ _ n => (0 <= n)%Z | _ => True end.

Lemma run_metric_inv op polls m :
  poll_ok op -> metrics_inv polls m ->
  exists m', run_metric op (Some m) = Some m' /\
    metrics_inv (if is_poll op then S polls else polls) m'.
Proof.
  intros Hp [Hf Ht Hc Hs He]. pose proof (incr32_nonneg (currentFdCount m)).
  pose proof (incr32_nonneg (currentTimerCount m)).
  destruct op; cbn -[Z.of_nat]; try (eexists; split; [reflexivity|]; split; cbn; done).
  - eexists; split; [done|]. unfold recordFdRegistration; cbn. case_if; cbn in *; split; cbn; done || lia.
  - eexists; split; [done|]. unfold recordFdUnregistration; cbn. case_if; cbn in *; split; cbn; done || lia.
  - eexists; split; [done|]. unfold recordTimerRegistration; cbn. case_if; cbn in *; split; cbn; done || lia.
  - eexists; split; [done|]. unfold recordTimerUnregistration; cbn. case_if; cbn in *; split; cbn; done || lia.
  - eexists; split; [done|]. cbn in Hp. split; cbn -[Z.of_nat]; try done; unfold plus64, bump.
    + rewrite Hc. autorewrite with loopy_simpl. f_equal. lia.
    + rewrite <- Hs. destruct (Z.ltb_spec 0 numevents); [rewrite (proj2 (Z.eqb_neq _ _)) by lia|
        rewrite (proj2 (Z.eqb_eq _ _)) by lia]; unfold plus64; autorewrite with loopy_simpl; f_equal; lia.
  - unfold loopyMetricsAddEventsProcessed. case_if; eexists; (split; [done|]; split; done).
Qed.

(** Under any sequence of updates with non-negative event counts the current
    descriptor and timer counts never go below zero nor above their peaks, every
    poll is counted as exactly one of with-events and timed-out, and the error
    count stays zero: the loop has no call that counts a failed poll. *)
Theorem metrics_accounts ops now (Hops : Forall poll_ok ops) :
  exists m, foldl (fun m op => run_metric op m) (fst (loopyMetricsEnable now true None)) ops = Some m /\
    metrics_inv (count_polls ops) m.
Proof.
  cbn [loopyMetricsEnable negb fst].
  assert (Hgen : forall polls m, metrics_inv polls m ->
    exists m', foldl (fun m op => run_metric op m) (Some m) ops = Some m' /\
      metrics_inv (polls + count_polls ops) m').
  { induction Hops as [|op ops Hop Hops IH]; intros polls m Hm.
    - exists m. by rewrite Nat.add_0_r.
    - destruct (run_metric_inv op polls m Hop Hm) as (m' & E & Hm').
      destruct (IH _ m' Hm') as (m'' & E' & Hm''). exists m''. cbn [foldl]. rewrite E. split; [done|].
      unfold count_polls in *. rewrite filter_cons. destruct (is_poll op); [|done].
      rewrite decide_True by done. cbn [length]. by rewrite Nat.add_succ_r. }
  apply (Hgen 0). by split.
Qed.

Lemma latency_histogram_witness :
  exists m, record_all [5; 50; 7]%Z (fst (loopyMetricsEnable 100 true None)) = Some m /\
    u64 (latencyBuckets m !!! 1) = 2%Z.
Proof.
  destruct (latency_histogram [5; 50; 7]%Z 100 1) as (m & E & Hc & _).
  - repeat constructor; lia.
  - unfold LOOPY_LATENCY_BUCKET_COUNT. lia.
  - exists m. split; [exact E|]. rewrite Hc. reflexivity.
Defined.

Lemma metrics_accounts_witness :
  exists m, foldl (fun m op => run_metric op m) (fst (loopyMetricsEnable 0 true None))
      [MFdRegistration; MPoll 10 20 3; MFdUnregistration; MPoll 20 25 0] = Some m /\ metrics_inv 2 m.
Proof.
  destruct (metrics_accounts [MFdRegistration; MPoll 10 20 3; MFdUnregistration; MPoll 20 25 0] 0)
    as (m & E & Hm).
  - repeat constructor; cbn; lia.
  - exists m. split; [exact E|exact Hm].
Defined.
