(* ===== verification/Adapter.v ===== *)
(** * Platform adapters ([src/loopyAdapterLinux.c], [src/loopyAdapterGeneric.c])

    [Adapter] is the protocol between the event loop and the platform: the
    functions [loopyInternalNew], [loopyInternalResize], [loopyInternalAddEvent],
    [loopyInternalDelEvent] and [loopyInternalPoll] that [loopy.c] declares and
    each adapter defines, with what the loop relies on: the adapter's interest
    set follows the masks of the loop's table.  The two instances are the epoll
    adapter, on top of the documented behaviour of [epoll_ctl] ([EpollKernel],
    a parameter), and the [select] adapter on its [fd_set]s.  An operation that
    the C code leaves undefined has the result [None]. *)

From S2P Require Import Prelude.

(** ** Actions *)

Definition LOOPY_ACTION_NONE : Z := 0.
Definition LOOPY_ACTION_READ : Z := 1.
Definition LOOPY_ACTION_WRITE : Z := 2.
Definition LOOPY_ACTION_ALL : Z := 3.

(** [loopyActionIsRead(action)] is the masked value; used as a condition, it is
    true when not zero. *)
Definition loopyActionIsRead (action : Z) : Z := Z.land action LOOPY_ACTION_READ.
Definition loopyActionIsWrite (action : Z) : Z := Z.land action LOOPY_ACTION_WRITE.
Definition isRead (action : Z) : bool := negb (loopyActionIsRead action =? 0)%Z.
Definition isWrite (action : Z) : bool := negb (loopyActionIsWrite action =? 0)%Z.

Definition mask_ok (m : Z) : Prop := (0 <= m <= 3)%Z.

Lemma mask_cases m : mask_ok m -> m = 0%Z \/ m = 1%Z \/ m = 2%Z \/ m = 3%Z.
Proof. unfold mask_ok. lia. Qed.

Ltac mask_destruct :=
  repeat match goal with
  | H : mask_ok ?m |- _ =>
      is_var m; apply mask_cases in H as [H|[H|[H|H]]]; subst m
  end.

Lemma mask_lor a b : mask_ok a -> mask_ok b -> mask_ok (Z.lor a b).
Proof. intros Ha Hb. mask_destruct; cbv; split; discriminate. Qed.

Lemma mask_ldiff a b : mask_ok a -> mask_ok b -> mask_ok (Z.ldiff a b).
Proof. intros Ha Hb. mask_destruct; cbv; split; discriminate. Qed.

#[export] Hint Resolve mask_lor mask_ldiff : loopy.

(** ** The protocol *)

Class Adapter (K : Type) := {
  ad_answer : Type; (* what the kernel reports to a poll *)
  ad_new : bool -> option K;
  ad_resize : Z -> K -> K * bool;
  ad_add : Z -> Z -> Z -> K -> option (K * bool); (* mask of the table, fd, mask *)
  ad_del : Z -> Z -> Z -> K -> option K;
  ad_poll : (Z -> Z) -> Z -> ad_answer -> K -> list (Z * Z); (* masks, maxfd *)
  ad_interest : K -> Z -> Z;
  ad_fits : Z -> Prop;
  ad_answer_ok : ad_answer -> K -> Prop;
  ad_interest_ok k fd : mask_ok (ad_interest k fd);
  ad_new_interest k fd : ad_new true = Some k -> ad_interest k fd = 0%Z;
  ad_resize_interest n k fd : ad_interest (fst (ad_resize n k)) fd = ad_interest k fd;
  ad_add_spec fd m k :
    ad_fits fd -> mask_ok m ->
    exists k' ok, ad_add (ad_interest k fd) fd m k = Some (k', ok) /\
      forall x, ad_interest k' x =
        if ok && (x =? fd)%Z then Z.lor (ad_interest k fd) m else ad_interest k x;
  ad_del_spec fd m k :
    ad_fits fd -> mask_ok m -> ad_interest k fd <> 0%Z ->
    exists k', ad_del (ad_interest k fd) fd m k = Some k' /\
      forall x, ad_interest k' x =
        if (x =? fd)%Z then Z.ldiff (ad_interest k fd) m else ad_interest k x;
  ad_poll_registered masks maxfd a k fd m :
    (forall x, (0 <= x)%Z -> masks x = ad_interest k x) ->
    ad_answer_ok a k -> (fd, m) ∈ ad_poll masks maxfd a k -> ad_interest k fd <> 0%Z
}.

(** ** epoll *)

Definition EPOLL_CTL_ADD : Z := 1.
Definition EPOLL_CTL_DEL : Z := 2.
Definition EPOLL_CTL_MOD : Z := 3.
Definition EPOLLIN : Z := 1.
Definition EPOLLOUT : Z := 4.
Definition EPOLLERR : Z := 8.
Definition EPOLLHUP : Z := 16.

(** The interest list of an epoll descriptor, as epoll_ctl(2) documents it:
    [ADD] needs an absent descriptor and may fail, [MOD] and [DEL] need a
    registered one and then succeed. *)
Class EpollKernel (E : Type) := {
  ep_create : E;
  ep_interest : E -> Z -> option Z;
  ep_ctl : Z -> Z -> Z -> E -> E * bool;
  ep_create_empty fd : ep_interest ep_create fd = None;
  ep_ctl_fail op fd ev k x :
    snd (ep_ctl op fd ev k) = false -> ep_interest (fst (ep_ctl op fd ev k)) x = ep_interest k x;
  ep_ctl_set op fd ev k x :
    op = EPOLL_CTL_ADD \/ op = EPOLL_CTL_MOD -> snd (ep_ctl op fd ev k) = true ->
    ep_interest (fst (ep_ctl op fd ev k)) x = if (x =? fd)%Z then Some ev else ep_interest k x;
  ep_ctl_del fd ev k x :
    snd (ep_ctl EPOLL_CTL_DEL fd ev k) = true ->
    ep_interest (fst (ep_ctl EPOLL_CTL_DEL fd ev k)) x = if (x =? fd)%Z then None else ep_interest k x;
  ep_ctl_registered op fd ev k :
    op = EPOLL_CTL_MOD \/ op = EPOLL_CTL_DEL -> ep_interest k fd <> None ->
    snd (ep_ctl op fd ev k) = true
}.

Definition epollEvents (mask : Z) : Z :=
  Z.lor (if isRead mask then EPOLLIN else 0) (if isWrite mask then EPOLLOUT else 0).

(** The translation of a reported event. *)
Definition epollMask (events : Z) : Z :=
  let bit e m := if (Z.land events e =? 0)%Z then 0%Z else m in
  Z.lor (Z.lor (Z.lor (bit EPOLLIN LOOPY_ACTION_READ) (bit EPOLLOUT LOOPY_ACTION_WRITE))
           (bit EPOLLERR LOOPY_ACTION_WRITE)) (bit EPOLLHUP LOOPY_ACTION_WRITE).

Section Epoll.
Context {E : Type} `{!EpollKernel E}.

Definition epollNew (sysOk : bool) : option E := if sysOk then Some ep_create else None.

Definition epollAddEvent (old fd mask : Z) (k : E) : option (E * bool) :=
  let op := if (old =? LOOPY_ACTION_NONE)%Z then EPOLL_CTL_ADD else EPOLL_CTL_MOD in
  let mask := Z.lor mask old in
  let '(k, ok) := ep_ctl op fd (epollEvents mask) k in
  Some (k, ok).

Definition epollDelEvent (old fd delmask : Z) (k : E) : option E :=
  let mask := Z.ldiff old delmask in
  if negb (mask =? LOOPY_ACTION_NONE)%Z
  then Some (fst (ep_ctl EPOLL_CTL_MOD fd (epollEvents mask) k))
  else Some (fst (ep_ctl EPOLL_CTL_DEL fd (epollEvents mask) k)).

(** The answer is the array that [epoll_wait] filled. *)
Definition epollPoll (masks : Z -> Z) (maxfd : Z) (answer : list (Z * Z)) (k : E) : list (Z * Z) :=
  (fun '(fd, events) => (fd, epollMask events)) <$> answer.

Definition epollInterest (k : E) (fd : Z) : Z :=
  match ep_interest k fd with None => 0%Z | Some ev => Z.land (epollMask ev) 3 end.

(** The adapter never asks for anything else than [EPOLLIN] and [EPOLLOUT]. *)
Lemma epollMask_events m : mask_ok m -> epollMask (epollEvents m) = m.
Proof. intros H. mask_destruct; reflexivity. Qed.

Lemma epollMask_ok ev : mask_ok (Z.land (epollMask ev) 3).
Proof.
  change 3%Z with (Z.ones 2). rewrite Z.land_ones by lia.
  pose proof (Z.mod_pos_bound (epollMask ev) (2 ^ 2) ltac:(lia)). unfold mask_ok. lia.
Qed.

Lemma epollInterest_set k' fd m old :
  mask_ok m -> mask_ok old -> ep_interest k' fd = Some (epollEvents (Z.lor m old)) ->
  epollInterest k' fd = Z.lor old m.
Proof.
  intros Hm Ho Hev. unfold epollInterest. rewrite Hev, epollMask_events by auto with loopy.
  mask_destruct; reflexivity.
Qed.

#[export] Program Instance epoll_adapter : Adapter E := {
  ad_answer := list (Z * Z);
  ad_new := epollNew;
  ad_resize _ k := (k, true);
  ad_add := epollAddEvent;
  ad_del := epollDelEvent;
  ad_poll := epollPoll;
  ad_interest := epollInterest;
  ad_fits _ := True;
  ad_answer_ok answer k := forall fd ev, (fd, ev) ∈ answer -> epollInterest k fd <> 0%Z
}.
Next Obligation.
  intros k fd. unfold epollInterest. destruct (ep_interest k fd); [apply epollMask_ok|unfold mask_ok; lia].
Qed.
Next Obligation. intros k fd [=<-]. unfold epollInterest. by rewrite ep_create_empty. Qed.
Next Obligation. done. Qed.
Next Obligation.
  intros fd m k _ Hm. cbn zeta. pose proof (epoll_adapter_obligation_1 k fd) as Hold.
  unfold epollAddEvent. set (old := epollInterest k fd) in *.
  set (op := if (old =? _)%Z then _ else _).
  assert (Hop : op = EPOLL_CTL_ADD \/ op = EPOLL_CTL_MOD) by (unfold op; case_if; auto).
  pose proof (fun x => ep_ctl_set op fd (epollEvents (Z.lor m old)) k x Hop) as Hset.
  pose proof (fun x => ep_ctl_fail op fd (epollEvents (Z.lor m old)) k x) as Hfail.
  destruct (ep_ctl op fd _ k) as [k' ok]; cbn in *. exists k', ok. split; [done|]. intros x.
  destruct ok; cbn.
  - specialize (Hset x eq_refl). destruct (Z.eqb_spec x fd) as [Hx|].
    + by apply epollInterest_set.
    + unfold epollInterest. by rewrite Hset.
  - unfold epollInterest. by rewrite Hfail.
Qed.
Next Obligation.
  intros fd m k _ Hm Hreg. pose proof (epoll_adapter_obligation_1 k fd) as Hold.
  unfold epollDelEvent. set (old := epollInterest k fd) in *.
  assert (Hin : ep_interest k fd <> None) by (unfold old, epollInterest in Hreg; by destruct (ep_interest k fd)).
  destruct (Z.eqb_spec (Z.ldiff old m) LOOPY_ACTION_NONE) as [Hz|Hz]; cbn [negb]; eexists; (split; [done|]); intros x.
  - unfold epollInterest. rewrite ep_ctl_del by (apply ep_ctl_registered; auto).
    destruct (Z.eqb_spec x fd) as [->|]; [|done]. by rewrite Hz.
  - unfold epollInterest. rewrite ep_ctl_set by (auto || (apply ep_ctl_registered; auto)).
    destruct (Z.eqb_spec x fd) as [->|]; [|done].
    rewrite epollMask_events by auto with loopy.
    change (mask_ok old) in Hold. clearbody old. mask_destruct; reflexivity.
Qed.
Next Obligation.
  intros masks maxfd a k fd m _ Ha Hin. cbn in *.
  apply list_elem_of_fmap in Hin as ([fd' ev] & [= -> ->] & Hin). by eapply Ha.
Qed.
End Epoll.

(** An error or hang-up is reported as writability only. *)
Lemma epollMask_hangup : epollMask EPOLLHUP = LOOPY_ACTION_WRITE /\ epollMask EPOLLERR = LOOPY_ACTION_WRITE.
Proof. done. Qed.

(** ** A concrete epoll, for examples: a map from descriptors to events *)

Definition epoll_ctl_map (op fd ev : Z) (k : gmap Z Z) : gmap Z Z * bool :=
  match k !! fd with
  | None => if (op =? EPOLL_CTL_ADD)%Z && (0 <=? fd)%Z then (<[fd := ev]> k, true) else (k, false)
  | Some _ => if (op =? EPOLL_CTL_MOD)%Z then (<[fd := ev]> k, true)
              else if (op =? EPOLL_CTL_DEL)%Z then (delete fd k, true) else (k, false)
  end.

Ltac epoll_map_case :=
  repeat case_match; simplify_eq/=; bool_to_prop; simplify_map_eq; try done.

#[export] Program Instance epoll_map : EpollKernel (gmap Z Z) := {
  ep_create := ∅;
  ep_interest k fd := k !! fd;
  ep_ctl := epoll_ctl_map
}.
Next Obligation. intros fd. apply lookup_empty. Qed.
Next Obligation. intros op fd ev k x. unfold epoll_ctl_map. repeat case_match; done. Qed.
Next Obligation.
  intros op fd ev k x Hop. unfold epoll_ctl_map. destruct (Z.eqb_spec x fd) as [->|].
  - destruct Hop as [-> | ->]; repeat case_match; cbn; intros; try done; apply lookup_insert_eq.
  - destruct Hop as [-> | ->]; repeat case_match; cbn; intros; try done; by apply lookup_insert_ne.
Qed.
Next Obligation.
  intros fd ev k x. unfold epoll_ctl_map. destruct (Z.eqb_spec x fd) as [->|]; repeat case_match; cbn; intros; try done.
  - apply lookup_delete_eq.
  - by apply lookup_delete_ne.
Qed.
Next Obligation.
  intros op fd ev k Hop Hin. cbn in Hin. unfold epoll_ctl_map. destruct (k !! fd); [|done].
  by destruct Hop as [-> | ->].
Qed.

(** ** select *)

Definition FD_SETSIZE : Z := 1024.

Record fdSets := FdSets { rfds : gset Z; wfds : gset Z }.

#[export] Instance FdSets_rebuild : Rebuild fdSets := fun s => FdSets (rfds s) (wfds s).

Definition selectNew (mallocOk : bool) : option fdSets := if mallocOk then Some (FdSets ∅ ∅) else None.

Definition selectResize (setSize : Z) (k : fdSets) : fdSets * bool :=
  if (FD_SETSIZE <=? setSize)%Z then (k, false) else (k, true).

(** [FD_SET] and [FD_CLR] index a bit array of [FD_SETSIZE] bits unchecked. *)
Definition fdOp (op : gset Z -> gset Z) (fd : Z) (s : gset Z) : option (gset Z) :=
  if (0 <=? fd)%Z && (fd <? FD_SETSIZE)%Z then Some (op s) else None.

Definition selectAddEvent (old fd mask : Z) (k : fdSets) : option (fdSets * bool) :=
  r ← (if isRead mask then fdOp (union {[fd]}) fd (rfds k) else Some (rfds k));
  w ← (if isWrite mask then fdOp (union {[fd]}) fd (wfds k) else Some (wfds k));
  Some (FdSets r w, true).

Definition selectDelEvent (old fd mask : Z) (k : fdSets) : option fdSets :=
  r ← (if isRead mask then fdOp (fun s => s ∖ {[fd]}) fd (rfds k) else Some (rfds k));
  w ← (if isWrite mask then fdOp (fun s => s ∖ {[fd]}) fd (wfds k) else Some (wfds k));
  Some (FdSets r w).

(** The answer: the two sets after [select], or nothing on a timeout or an
    error.  Every registered descriptor up to [maxfd] is put in the fired list,
    with an empty mask when it is not ready. *)
Definition selectPoll (masks : Z -> Z) (maxfd : Z) (answer : option (gset Z * gset Z)) (k : fdSets)
    : list (Z * Z) :=
  match answer with
  | None => []
  | Some (r, w) =>
      flat_map (fun j =>
        let fd := Z.of_nat j in
        if (masks fd =? LOOPY_ACTION_NONE)%Z then []
        else [(fd, Z.lor (if isRead (masks fd) && bool_decide (fd ∈ r) then LOOPY_ACTION_READ else 0)
                     (if isWrite (masks fd) && bool_decide (fd ∈ w) then LOOPY_ACTION_WRITE else 0))])
      (seq 0 (Z.to_nat (maxfd + 1)))
  end.

Definition selectInterest (k : fdSets) (fd : Z) : Z :=
  Z.lor (if bool_decide (fd ∈ rfds k) then LOOPY_ACTION_READ else 0)
        (if bool_decide (fd ∈ wfds k) then LOOPY_ACTION_WRITE else 0).

#[export] Program Instance select_adapter : Adapter fdSets := {
  ad_answer := option (gset Z * gset Z);
  ad_new := selectNew;
  ad_resize := selectResize;
  ad_add := selectAddEvent;
  ad_del := selectDelEvent;
  ad_poll := selectPoll;
  ad_interest := selectInterest;
  ad_fits fd := (0 <= fd < FD_SETSIZE)%Z;
  ad_answer_ok answer k := match answer with None => True | Some (r, w) => r ⊆ rfds k /\ w ⊆ wfds k end
}.
Next Obligation. intros k fd. unfold selectInterest. repeat case_bool_decide; cbv; by split. Qed.
Next Obligation.
  intros k fd [=<-]. unfold selectInterest. cbn. by rewrite !bool_decide_eq_false_2 by set_solver.
Qed.
Next Obligation. intros n k fd. unfold selectResize. by case_if. Qed.
Next Obligation.
  intros fd m k Hf Hm. cbn beta in Hf. unfold selectAddEvent, fdOp.
  rewrite (proj2 (Z.leb_le 0 fd)), (proj2 (Z.ltb_lt fd FD_SETSIZE)) by lia. cbn [andb].
  exists (FdSets (if isRead m then {[fd]} ∪ rfds k else rfds k) (if isWrite m then {[fd]} ∪ wfds k else wfds k)), true.
  split; [by destruct (isRead m), (isWrite m)|]. intros x. unfold selectInterest; cbn.
  destruct (Z.eqb_spec x fd) as [->|].
  - apply mask_cases in Hm as [-> | [-> | [-> | ->]]]; cbn;
      repeat case_bool_decide; first [reflexivity | exfalso; set_solver].
  - apply mask_cases in Hm as [-> | [-> | [-> | ->]]]; cbn;
      repeat case_bool_decide; first [reflexivity | exfalso; set_solver].
Qed.
Next Obligation.
  intros fd m k Hf Hm _. cbn beta in Hf. unfold selectDelEvent, fdOp.
  rewrite (proj2 (Z.leb_le 0 fd)), (proj2 (Z.ltb_lt fd FD_SETSIZE)) by lia. cbn [andb].
  exists (FdSets (if isRead m then rfds k ∖ {[fd]} else rfds k) (if isWrite m then wfds k ∖ {[fd]} else wfds k)).
  split; [by destruct (isRead m), (isWrite m)|]. intros x. unfold selectInterest; cbn.
  destruct (Z.eqb_spec x fd) as [->|].
  - apply mask_cases in Hm as [-> | [-> | [-> | ->]]]; cbn;
      repeat case_bool_decide; first [reflexivity | exfalso; set_solver].
  - apply mask_cases in Hm as [-> | [-> | [-> | ->]]]; cbn;
      repeat case_bool_decide; first [reflexivity | exfalso; set_solver].
Qed.
Next Obligation.
  intros masks maxfd a k fd m Hmasks Ha Hin. destruct a as [[r w]|]; cbn in Hin; [|by apply elem_of_nil in Hin].
  apply list_elem_of_In, in_flat_map in Hin as (j & _ & Hj). rewrite (Hmasks (Z.of_nat j)) in Hj by lia.
  destruct (Z.eqb_spec (selectInterest k (Z.of_nat j)) LOOPY_ACTION_NONE); [done|].
  destruct Hj as [[= <- _]|[]]. done.
Qed.
