(* ===== verification/EventLoop.v ===== *)
(** * The event loop ([src/loopy.c], [src/loopyInternal.h])

    The loop's table of file events, its registration functions, the
    dispatch of fired events and timers, the main loop and its deferred
    deletion.  The platform is any [Adapter]; the timer wheel of the datakit
    library is a parameter ([TimerWheel]).

    C behaviours that are undefined, abort or diverge have the result [None]:
    a table index out of bounds, a call through a [NULL] adapter state, an
    access to a freed loop, a failed [assert], the overflow or the divergence
    of the doubling loop.

    Memory is an argument: of growing the tables and of the two insertions of a
    registration into the heap ([loop_mem]).

    A user callback is a list of calls to the loop's public functions; the
    user's program is a function [user] from the trace of all callback
    invocations so far, the current one first, to that list. *)

From S2P Require Import Prelude MaxHeap Metrics Adapter.

Class TimerWheel (T : Type) := {
  tw_new : T;
  tw_register : Z -> Z -> Z -> Z -> T -> T * Z; (* start, repeat, callback, data *)
  tw_unregister : Z -> T -> T * bool;
  tw_next : T -> Z; (* start of the next event, 0 when there is none *)
  tw_process : Z -> T -> T * list (Z * Z) (* the callbacks due, with their data *)
}.

(** ** Data *)

(** Callbacks and client data are opaque numbers; 0 is [NULL]. *)
Record loopyFileEvent := FileEvent {
  fe_readCallback : Z;
  fe_writeCallback : Z;
  fe_clientData : Z;
  fe_mask : Z
}.

#[export] Instance FileEvent_rebuild : Rebuild loopyFileEvent := fun e =>
  FileEvent (fe_readCallback e) (fe_writeCallback e) (fe_clientData e) (fe_mask e).

Definition zeroEvent : loopyFileEvent := FileEvent 0 0 0 0.

Record loopyLoop (K T : Type) := Loop {
  lp_state : option K;
  lp_events : list loopyFileEvent;
  lp_fdHeap : loopyMaxHeap;
  lp_before : option (Z * Z); (* callback, client data *)
  lp_after : option (Z * Z);
  lp_timer : option T;
  lp_metrics : option loopyMetricsInternal;
  lp_userData : Z;
  lp_setSize : Z;
  lp_maxfd : Z;
  lp_processingDepth : Z;
  lp_stop : bool;
  lp_deleting : bool;
  lp_pendingDelete : bool;
  lp_allocated : bool;
  lp_freed : bool (* the memory of the loop itself was released *)
}.
Arguments Loop {K T}.
Arguments lp_state {K T}.
Arguments lp_events {K T}.
Arguments lp_fdHeap {K T}.
Arguments lp_before {K T}.
Arguments lp_after {K T}.
Arguments lp_timer {K T}.
Arguments lp_metrics {K T}.
Arguments lp_userData {K T}.
Arguments lp_setSize {K T}.
Arguments lp_maxfd {K T}.
Arguments lp_processingDepth {K T}.
Arguments lp_stop {K T}.
Arguments lp_deleting {K T}.
Arguments lp_pendingDelete {K T}.
Arguments lp_allocated {K T}.
Arguments lp_freed {K T}.

#[export] Instance Loop_rebuild K T : Rebuild (loopyLoop K T) := fun l =>
  Loop (lp_state l) (lp_events l) (lp_fdHeap l) (lp_before l) (lp_after l) (lp_timer l)
    (lp_metrics l) (lp_userData l) (lp_setSize l) (lp_maxfd l) (lp_processingDepth l)
    (lp_stop l) (lp_deleting l) (lp_pendingDelete l) (lp_allocated l) (lp_freed l).

Definition nullHeap : loopyMaxHeap := MaxHeapS [] [] 0 0 0 false.

(** [(loopyLoop){0}]; the storage class of the memory is kept by the caller. *)
Definition zeroLoop {K T} : loopyLoop K T :=
  Loop None [] nullHeap None None None None 0 0 0 0 false false false false false.

(** What the loop does that an observer can see, most recent first. *)
Inductive call :=
  | CallRead (fd cb data mask : Z)
  | CallWrite (fd cb data mask : Z)
  | CallTimer (cb data : Z)
  | CallBefore (cb data : Z)
  | CallAfter (cb data : Z)
  | CallPoll (timeoutUs : option Z). (* [None]: wait for ever *)

(** Which reallocations succeed: those of the table and the two of the heap. *)
Record loop_mem := LoopMem { mem_table : bool; mem_heap : bool * bool }.
Definition mem_ok : loop_mem := LoopMem true (true, true).
Definition heap_granted (mem : loop_mem) : bool := fst (mem_heap mem) && snd (mem_heap mem).

(** The public functions a callback may call. *)
Inductive loop_op :=
  | OpRegister (mem : loop_mem) (fd mask cb data : Z)
  | OpRegisterWriteIfNoneExists (mem : loop_mem) (fd cb data : Z)
  | OpUnregister (fd mask : Z)
  | OpResize (mem : loop_mem) (setSize : Z)
  | OpSetBefore (cb data : Z)
  | OpSetAfter (cb data : Z)
  | OpRegisterTimer (start repeat cb data : Z)
  | OpUnregisterTimer (id : Z)
  | OpStop
  | OpDelete.

Definition LOOPY_EVENTS_FILE : Z := 1.
Definition LOOPY_EVENTS_TIME : Z := 2.
Definition LOOPY_EVENTS_ALL : Z := 3.
Definition LOOPY_EVENTS_NOWAIT : Z := 4.
Definition INT_MAX : Z := 2147483647.

Section Loop.
Context {K : Type} `{!Adapter K} {T : Type} `{!TimerWheel T}.
Variable junk : Z. (* what a grown heap array contains *)
Implicit Types l : loopyLoop K T.

(** ** The table *)

Definition fdStorageOkay (l : loopyLoop K T) (fd : Z) : bool := (fd <? lp_setSize l)%Z.

(** [&l->events[fd]] *)
Definition event (l : loopyLoop K T) (fd : Z) : option loopyFileEvent :=
  if (0 <=? fd)%Z then lp_events l !! Z.to_nat fd else None.

Definition set_event (fd : Z) (fe : loopyFileEvent) (l : loopyLoop K T) : loopyLoop K T :=
  l <| lp_events ::= <[Z.to_nat fd := fe]> |>.

Definition mask_at (l : loopyLoop K T) (fd : Z) : Z :=
  match event l fd with Some fe => fe_mask fe | None => 0%Z end.

(** A reallocation that fails is not noticed: what is cleared then is memory near
    [NULL]. *)
Definition fdStorageResize (mem : loop_mem) (setSize : Z) (l : loopyLoop K T) : option (loopyLoop K T * bool) :=
  if (setSize =? lp_setSize l)%Z then Some (l, false)
  else if negb (lp_setSize l <? setSize)%Z then None (* assert *)
  else if (setSize <=? lp_maxfd l)%Z then Some (l, false)
  else if negb (mem_table mem) then None
  else
    let l := l <| lp_events ::= fun e => e ++ replicate (Z.to_nat (setSize - lp_setSize l)) zeroEvent |>
               <| lp_setSize := setSize |> in
    match lp_state l with
    | None => Some (l, true)
    | Some k => let '(k, ok) := ad_resize setSize k in Some (l <| lp_state := Some k |>, ok)
    end.

(** [while (newSize <= fd) newSize *= 2]; 32 rounds reach [INT_MAX] from any
    positive size, and a size that is not positive never gets there. *)
Fixpoint growTo (fuel : nat) (newSize fd : Z) : option Z :=
  if (newSize <=? fd)%Z then
    match fuel with
    | 0 => None
    | S fuel => if (INT_MAX <? newSize * 2)%Z then None else growTo fuel (newSize * 2) fd
    end
  else Some newSize.

Definition fdConformStorageBounds (mem : loop_mem) (fd : Z) (l : loopyLoop K T) : option (loopyLoop K T) :=
  if fdStorageOkay l fd then Some l
  else newSize ← growTo 32 (lp_setSize l) fd;
       '(l, _) ← fdStorageResize mem newSize l; Some l.

Definition updateMaxfd (l : loopyLoop K T) : loopyLoop K T :=
  let heapMax := heapPeek (lp_fdHeap l) in
  l <| lp_maxfd := if negb (heapMax =? LOOPY_HEAP_EMPTY_VALUE)%Z then heapMax else (-1)%Z |>.

(** The result of the heap insertion is ignored. *)
Definition loopyNewFileEvent (mem : loop_mem) (fd mask cb data : Z) (l : loopyLoop K T)
    : option (loopyLoop K T * bool) :=
  l ← fdConformStorageBounds mem fd l;
  fe ← event l fd;
  let wasEmpty := (fe_mask fe =? LOOPY_ACTION_NONE)%Z in
  k ← lp_state l;
  '(k, ok) ← ad_add (fe_mask fe) fd mask k;
  let l := l <| lp_state := Some k |> in
  if negb ok then Some (l, false)
  else
    let fe := fe <| fe_mask ::= fun m => Z.lor m mask |> in
    let fe := if isRead mask then fe <| fe_readCallback := cb |> else fe in
    let fe := if isWrite mask then fe <| fe_writeCallback := cb |> else fe in
    let fe := fe <| fe_clientData := data |> in
    let l := set_event fd fe l in
    let l := if wasEmpty
             then l <| lp_fdHeap ::= fun h => fst (heapInsert junk (fst (mem_heap mem)) (snd (mem_heap mem)) fd h) |>
             else l in
    Some (updateMaxfd l, true).

Definition loopyRegisterRead (mem : loop_mem) (fd cb data : Z) (l : loopyLoop K T) :=
  loopyNewFileEvent mem fd LOOPY_ACTION_READ cb data l.
Definition loopyRegisterWrite (mem : loop_mem) (fd cb data : Z) (l : loopyLoop K T) :=
  loopyNewFileEvent mem fd LOOPY_ACTION_WRITE cb data l.

Definition loopyRegisterWriteIfNoneExists (mem : loop_mem) (fd cb data : Z) (l : loopyLoop K T)
    : option (loopyLoop K T * bool) :=
  l ← fdConformStorageBounds mem fd l;
  fe ← event l fd;
  if isWrite (fe_mask fe) then Some (l, false) else loopyRegisterWrite mem fd cb data l.

Definition loopyDeleteFileEvent (fd mask : Z) (l : loopyLoop K T) : option (loopyLoop K T) :=
  if negb (fdStorageOkay l fd) then Some l
  else
    fe ← event l fd;
    if (fe_mask fe =? LOOPY_ACTION_NONE)%Z then Some l
    else
      k ← lp_state l;
      k ← ad_del (fe_mask fe) fd mask k;
      let fe := fe <| fe_mask ::= fun m => Z.ldiff m mask |> in
      let l := set_event fd fe (l <| lp_state := Some k |>) in
      if (fe_mask fe =? LOOPY_ACTION_NONE)%Z
      then Some (updateMaxfd (l <| lp_fdHeap ::= fun h => fst (heapRemove fd h) |>))
      else Some l.

Definition loopyUnregisterRead (fd : Z) l := loopyDeleteFileEvent fd LOOPY_ACTION_READ l.
Definition loopyUnregisterWrite (fd : Z) l := loopyDeleteFileEvent fd LOOPY_ACTION_WRITE l.
Definition loopyUnregisterReadWrite (fd : Z) l :=
  loopyDeleteFileEvent fd (Z.lor LOOPY_ACTION_READ LOOPY_ACTION_WRITE) l.

Definition loopyGetEvents (fd : Z) (l : loopyLoop K T) : option Z :=
  if negb (fdStorageOkay l fd) then Some 0%Z else fe_mask <$> event l fd.

(** ** Lifecycle *)

(** [newOk]: the adapter's state could be created.  A negative [setSize] fails the assertion. *)
Definition loopyInit (newOk : bool) (mem : loop_mem) (setSize : Z) (l : loopyLoop K T)
    : option (loopyLoop K T * bool) :=
  '(l, ok) ← fdStorageResize mem setSize l;
  if negb ok then Some (l, false)
  else
    let l := l <| lp_maxfd := (-1)%Z |> in
    let '(h, ok) := loopyMaxHeapInit (fst (mem_heap mem)) (snd (mem_heap mem)) (lp_fdHeap l) (Z.to_nat setSize) in
    let l := l <| lp_fdHeap := h |> in
    if negb ok then Some (l, false)
    else
      match ad_new newOk with
      | None => Some (l <| lp_fdHeap ::= loopyMaxHeapDeinit |>, false)
      | Some k => Some (l <| lp_state := Some k |>, true)
      end.

(** Everything is released and the structure zeroed; [deleting] is set first and
    zeroed with the rest. *)
Definition loopyDeinit (l : loopyLoop K T) : loopyLoop K T := zeroLoop.

(** [loopyInternalFree], [loopyDeinit] and the release of an allocated loop. *)
Definition destroy (l : loopyLoop K T) : loopyLoop K T :=
  let isAllocated := lp_allocated l in
  (loopyDeinit l) <| lp_freed := isAllocated |>.

(** [loopyNew]: [None] when the model is undefined, [Some None] for [NULL]. *)
Definition loopyNew (callocOk newOk : bool) (mem : loop_mem) (setSize : Z)
    : option (option (loopyLoop K T)) :=
  if negb callocOk then Some None
  else
    '(l, ok) ← loopyInit newOk mem setSize (zeroLoop <| lp_allocated := true |>);
    Some (if (ok : bool) then Some l else None).

Definition loopyStop (l : loopyLoop K T) : loopyLoop K T := l <| lp_stop := true |>.

(** [events] is [NULL] exactly when [setSize] is 0. *)
Definition loopyDelete (l : loopyLoop K T) : loopyLoop K T :=
  match lp_state l, lp_timer l, (lp_setSize l =? 0)%Z with
  | None, None, true => l
  | _, _, _ =>
      if (0 <? lp_processingDepth l)%Z then loopyStop (l <| lp_pendingDelete := true |>)
      else destroy l
  end.

Definition loopyInited (l : loopyLoop K T) : bool :=
  match lp_state l with Some _ => true | None => false end.
Definition loopyGetSetSize (l : loopyLoop K T) : Z := lp_setSize l.
Definition loopyGetMaxFd (l : loopyLoop K T) : Z := lp_maxfd l.
Definition loopyIsStopped (l : loopyLoop K T) : bool := lp_stop l.
Definition loopyGetUserData (l : loopyLoop K T) : Z := lp_userData l.
Definition loopySetUserData (data : Z) (l : loopyLoop K T) : loopyLoop K T := l <| lp_userData := data |>.

Definition loopyResizeSetSize (mem : loop_mem) (setSize : Z) (l : loopyLoop K T) : option (loopyLoop K T * bool) :=
  '(l, _) ← fdStorageResize mem setSize l; Some (l, true).

(** A callback is [NULL] when its number is 0. *)
Definition sleepCallback (cb data : Z) : option (Z * Z) :=
  if (cb =? 0)%Z then None else Some (cb, data).
Definition loopySetBeforeSleepCallback (cb data : Z) (l : loopyLoop K T) : loopyLoop K T :=
  l <| lp_before := sleepCallback cb data |>.
Definition loopySetAfterSleepCallback (cb data : Z) (l : loopyLoop K T) : loopyLoop K T :=
  l <| lp_after := sleepCallback cb data |>.

(** ** Timers *)

Definition loopyRegisterTimer (start repeat cb data : Z) (l : loopyLoop K T) : loopyLoop K T * Z :=
  let t := match lp_timer l with Some t => t | None => tw_new end in
  let '(t, id) := tw_register start repeat cb data t in
  (l <| lp_timer := Some t |>, id).

(** The wheel must exist. *)
Definition loopyUnregisterTimer (id : Z) (l : loopyLoop K T) : option (loopyLoop K T * bool) :=
  t ← lp_timer l;
  let '(t, ok) := tw_unregister id t in Some (l <| lp_timer := Some t |>, ok).

(** ** Callbacks *)

Definition run_op (op : loop_op) (l : loopyLoop K T) : option (loopyLoop K T) :=
  if lp_freed l then None
  else
    match op with
    | OpRegister mem fd mask cb data => fst <$> loopyNewFileEvent mem fd mask cb data l
    | OpRegisterWriteIfNoneExists mem fd cb data =>
        fst <$> loopyRegisterWriteIfNoneExists mem fd cb data l
    | OpUnregister fd mask => loopyDeleteFileEvent fd mask l
    | OpResize mem setSize => fst <$> loopyResizeSetSize mem setSize l
    | OpSetBefore cb data => Some (loopySetBeforeSleepCallback cb data l)
    | OpSetAfter cb data => Some (loopySetAfterSleepCallback cb data l)
    | OpRegisterTimer start repeat cb data => Some (fst (loopyRegisterTimer start repeat cb data l))
    | OpUnregisterTimer id => fst <$> loopyUnregisterTimer id l
    | OpStop => Some (loopyStop l)
    | OpDelete => Some (loopyDelete l)
    end.

Fixpoint run_ops (ops : list loop_op) (l : loopyLoop K T) : option (loopyLoop K T) :=
  match ops with [] => Some l | op :: ops => l ← run_op op l; run_ops ops l end.

Variable user : list call -> list loop_op.

Definition invoke (c : call) (s : loopyLoop K T * list call) : option (loopyLoop K T * list call) :=
  let '(l, tr) := s in
  l ← run_ops (user (c :: tr)) l; Some (l, c :: tr).

(** ** Processing events *)

(** One fired event: the read callback, then the write callback if the table
    still asks for it. *)
Definition dispatch_one (f : Z * Z) (s : loopyLoop K T * list call)
    : option (loopyLoop K T * list call) :=
  let '(fd, mask) := f in
  fe ← event (fst s) fd;
  '(fe, s) ← (if negb (Z.land (fe_mask fe) (loopyActionIsRead mask) =? 0)%Z then
                s ← invoke (CallRead fd (fe_readCallback fe) (fe_clientData fe) mask) s;
                fe ← event (fst s) fd;
                Some (fe, s)
              else Some (fe, s));
  if negb (Z.land (fe_mask fe) (loopyActionIsWrite mask) =? 0)%Z
  then invoke (CallWrite fd (fe_writeCallback fe) (fe_clientData fe) mask) s
  else Some s.

Fixpoint dispatch (fired : list (Z * Z)) (s : loopyLoop K T * list call)
    : option (loopyLoop K T * list call) :=
  match fired with [] => Some s | f :: fired => s ← dispatch_one f s; dispatch fired s end.

Fixpoint run_timers (due : list (Z * Z)) (s : loopyLoop K T * list call)
    : option (loopyLoop K T * list call) :=
  match due with
  | [] => Some s
  | (cb, data) :: due => s ← invoke (CallTimer cb data) s; run_timers due s
  end.

(** The environment: what the kernel reports to a poll, and the clocks. *)
Variable kernel : K -> list call -> ad_answer.
Variable monotonicUs : nat -> list call -> Z. (* first and second reading in a pass *)
Variable wallUs : nat -> list call -> Z.      (* for the metrics *)

Definition NOWAIT (flags : Z) : bool := negb (Z.land flags LOOPY_EVENTS_NOWAIT =? 0)%Z.
Definition HAS_TIMERS (l : loopyLoop K T) (flags : Z) : bool :=
  match lp_timer l with None => false | Some _ => negb (Z.land flags LOOPY_EVENTS_TIME =? 0)%Z end.

(** [loopyMetricsPollEntry], [loopyInternalPoll], [loopyMetricsPollExit]. *)
Definition poll (tv : option Z) (s : loopyLoop K T * list call)
    : option (loopyLoop K T * list call * list (Z * Z)) :=
  let '(l, tr) := s in
  k ← lp_state l;
  let l := l <| lp_metrics ::= loopyMetricsPollEntry (wallUs 0 tr) |> in
  let fired := ad_poll (mask_at l) (lp_maxfd l) (kernel k tr) k in
  let l := l <| lp_metrics ::= loopyMetricsPollExit (wallUs 1 tr) (Z.of_nat (length fired)) |> in
  Some (l, CallPoll tv :: tr, fired).

Definition shortest_of (l : loopyLoop K T) (flags : Z) : Z :=
  match lp_timer l with
  | Some t => if HAS_TIMERS l flags && negb (NOWAIT flags) then tw_next t else 0%Z
  | None => 0%Z
  end.

(** The timeout given to the poll. *)
Definition poll_timeout (l : loopyLoop K T) (flags nowUs : Z) : option Z :=
  if HAS_TIMERS l flags && negb (NOWAIT flags) then
    let shortest := shortest_of l flags in
    if (0 <? shortest)%Z then
      let startOffsetUs := (shortest - nowUs)%Z in
      Some (if (0 <? startOffsetUs)%Z then startOffsetUs else 0%Z)
    else None
  else if NOWAIT flags then Some 0%Z
  else None.

Definition process_timers (shortest nowUs : Z) (s : loopyLoop K T * list call)
    : option (loopyLoop K T * list call) :=
  let '(l, tr) := s in
  t ← lp_timer l;
  let l := l <| lp_metrics ::= loopyMetricsIncrementTimersProcessed |> in
  let '(t, due) := tw_process nowUs t in
  run_timers due (l <| lp_timer := Some t |>, tr).

(** The poll and the [for] loop over what it fired. *)
Definition poll_and_dispatch (tv : option Z) (s : loopyLoop K T * list call)
    : option (loopyLoop K T * list call * nat) :=
  '(l, tr, fired) ← poll tv s;
  let l := l <| lp_metrics ::= loopyMetricsAddEventsProcessed (Z.of_nat (length fired)) |> in
  '(l, tr) ← dispatch fired (l, tr);
  Some (l, tr, length fired).

Definition loopyProcessEvents (flags : Z) (s : loopyLoop K T * list call)
    : option (loopyLoop K T * list call * nat) :=
  let '(l, tr) := s in
  let l := l <| lp_processingDepth ::= Z.succ |> in
  let hasTimers := HAS_TIMERS l flags in
  let requestedWait := negb (NOWAIT flags) in
  let polls := (0 <=? lp_maxfd l)%Z || hasTimers && requestedWait in
  let shortest := if polls then shortest_of l flags else 0%Z in
  '(l, tr, numevents) ←
    (if polls then
       poll_and_dispatch (poll_timeout l flags (monotonicUs 0 tr)) (l, tr)
     else Some (l, tr, 0));
  '(l, tr) ←
    (if hasTimers && negb (lp_stop l) && negb (shortest =? 0)%Z &&
        ((numevents =? 0) || (shortest + 10 <=? monotonicUs 1 tr)%Z)
     then process_timers shortest (monotonicUs 1 tr) (l, tr)
     else Some (l, tr));
  Some (l <| lp_processingDepth ::= Z.pred |>, tr, numevents).

(** ** The main loop *)

Inductive outcome :=
  | Ended (l : loopyLoop K T) (tr : list call)
  | Running (l : loopyLoop K T) (tr : list call). (* after the given number of passes *)

(** Reads of the loop's fields after a callback. *)
Definition alive (l : loopyLoop K T) : option (loopyLoop K T) := if lp_freed l then None else Some l.

Definition invoke_opt (mk : Z -> Z -> call) (cb : option (Z * Z)) (s : loopyLoop K T * list call)
    : option (loopyLoop K T * list call) :=
  match cb with None => Some s | Some (cb, data) => invoke (mk cb data) s end.

(** After the [while] loop: a deletion requested during processing. *)
Definition finish (l : loopyLoop K T) (tr : list call) : option outcome :=
  l ← alive l;
  Some (Ended (if lp_pendingDelete l then destroy l else l) tr).

Fixpoint doLoop (passes : nat) (mode : Z) (l : loopyLoop K T) (tr : list call) : option outcome :=
  if lp_stop l then finish l tr
  else
    match passes with
    | 0 => Some (Running l tr)
    | S passes =>
        let l := l <| lp_metrics ::= loopyMetricsIncrementIterations |> in
        let before := lp_before l in
        '(l, tr) ← invoke_opt CallBefore before (l, tr);
        l ← alive l;
        if (match before with None => false | Some _ => lp_stop l || lp_deleting l end)
        then finish l tr
        else
          '(l, tr, _) ← loopyProcessEvents mode (l, tr);
          l ← alive l;
          if lp_deleting l then finish l tr
          else
            '(l, tr) ← (if negb (lp_stop l) then invoke_opt CallAfter (lp_after l) (l, tr)
                        else Some (l, tr));
            l ← alive l;
            if lp_deleting l then finish l tr else doLoop passes mode l tr
    end.

Definition loopyDo (passes : nat) (mode : Z) (l : loopyLoop K T) : option outcome :=
  doLoop passes mode (l <| lp_stop := false |>) [].
Definition loopyMain (passes : nat) (l : loopyLoop K T) := loopyDo passes LOOPY_EVENTS_ALL l.
Definition loopyMainFdOnly (passes : nat) (l : loopyLoop K T) := loopyDo passes LOOPY_EVENTS_FILE l.
End Loop.

Definition loopyStatusString (status : Z) : string :=
  match status with
  | 0%Z => "OK"
  | (-1)%Z => "Error"
  | (-2)%Z => "Invalid argument"
  | (-3)%Z => "Timeout"
  | (-4)%Z => "Cancelled"
  | (-5)%Z => "Closed"
  | (-6)%Z => "Would block"
  | (-7)%Z => "Out of memory"
  | (-8)%Z => "Not found"
  | (-9)%Z => "Busy"
  | (-10)%Z => "Try again"
  | (-11)%Z => "End of file"
  | _ => "Unknown status"
  end.

(** ** Well-formed loops *)

Section Invariant.
Context {K : Type} `{!Adapter K} {T : Type} `{!TimerWheel T}.
Variable junk : Z.
Implicit Types l : loopyLoop K T.

(** The table has [setSize] entries; the heap holds descriptors with a
    nonzero mask, each once, and all of them when [full]: unless memory for
    the heap was refused; [maxfd] is its maximum, and the adapter is interested in
    exactly what the table says. *)
Record loop_wf_at {full : bool} (l : loopyLoop K T) : Prop := {
  wf_alive : lp_freed l = false;
  wf_size : (1 <= lp_setSize l)%Z;
  wf_events : length (lp_events l) = Z.to_nat (lp_setSize l);
  wf_state : exists k, lp_state l = Some k /\ forall fd, ad_interest k fd = mask_at l fd;
  wf_fits : forall fd, mask_at l fd <> 0%Z -> ad_fits fd;
  wf_heap : heap_wf (lp_fdHeap l);
  wf_heap_nodup : NoDup (elems (lp_fdHeap l));
  wf_heap_elems : forall fd, fd ∈ elems (lp_fdHeap l) -> mask_at l fd <> 0%Z;
  wf_heap_full : full = true -> forall fd, mask_at l fd <> 0%Z -> fd ∈ elems (lp_fdHeap l);
  wf_maxfd : lp_maxfd l = heapPeek (lp_fdHeap l)
}.
#[global] Arguments loop_wf_at full l : clear implicits.
Context {full : bool}.
Notation loop_wf := (loop_wf_at full).


Lemma mask_at_neg l fd : (fd < 0)%Z -> mask_at l fd = 0%Z.
Proof. intros H. unfold mask_at, event. by rewrite (proj2 (Z.leb_gt 0 fd)) by lia. Qed.

Lemma mask_at_beyond l fd : length (lp_events l) <= Z.to_nat fd -> mask_at l fd = 0%Z.
Proof. intros H. unfold mask_at, event. case_if; [|done]. by rewrite lookup_ge_None_2 by lia. Qed.

Lemma mask_at_registered l fd :
  loop_wf l -> mask_at l fd <> 0%Z -> (0 <= fd < lp_setSize l)%Z.
Proof.
  intros Hwf Hm. pose proof (wf_events l Hwf). pose proof (wf_size l Hwf).
  destruct (decide (fd < 0)%Z); [by rewrite mask_at_neg in Hm|].
  destruct (decide (lp_setSize l <= fd)%Z); [|lia].
  rewrite mask_at_beyond in Hm; [done|lia].
Qed.

Lemma mask_at_ok l fd : loop_wf l -> mask_ok (mask_at l fd).
Proof. intros Hwf. destruct (wf_state l Hwf) as (k & _ & <-). apply ad_interest_ok. Qed.

Lemma heapPeek_in h : heap_wf h -> elems h <> [] -> heapPeek h ∈ elems h.
Proof.
  intros Hwf Hne. unfold heapPeek. case_if.
  - unfold elems in Hne. by rewrite Heqb in Hne.
  - rewrite elems_In by apply Hwf. exists 1. split; [lia|done].
Qed.

Lemma heapPeek_max h v : heap_wf h -> v ∈ elems h -> (v <= heapPeek h)%Z.
Proof.
  intros Hwf Hv. unfold heapPeek. case_if; [|by apply root_max_elems].
  unfold elems in Hv. rewrite Heqb in Hv. by apply elem_of_nil in Hv.
Qed.

Lemma heapPeek_empty h : heap_wf h -> elems h = [] -> heapPeek h = LOOPY_HEAP_EMPTY_VALUE.
Proof.
  intros Hwf He. unfold heapPeek. case_if; [done|].
  assert (cell h 1 ∈ elems h) as Hin by (rewrite elems_In by apply Hwf; exists 1; split; [lia|done]).
  rewrite He in Hin. by apply elem_of_nil in Hin.
Qed.

(** [maxfd] is a registered descriptor or -1; when the heap is full, the highest
    one, and -1 only when there is none. *)
Lemma maxfd_spec l :
  loop_wf l ->
  (lp_maxfd l = (-1)%Z \/ mask_at l (lp_maxfd l) <> 0%Z) /\
  ((forall fd, mask_at l fd = 0%Z) -> lp_maxfd l = (-1)%Z) /\
  (full = true -> (forall fd, mask_at l fd <> 0%Z -> (fd <= lp_maxfd l)%Z) /\
     ((exists fd, mask_at l fd <> 0%Z) -> mask_at l (lp_maxfd l) <> 0%Z)).
Proof.
  intros Hwf. rewrite (wf_maxfd l Hwf). pose proof (wf_heap l Hwf) as Hh.
  assert (Hin : elems (lp_fdHeap l) <> [] -> mask_at l (heapPeek (lp_fdHeap l)) <> 0%Z)
    by (intros He; by apply (wf_heap_elems l Hwf), heapPeek_in).
  split_and!.
  - destruct (decide (elems (lp_fdHeap l) = [])) as [He|He]; [left; by apply heapPeek_empty|right; by apply Hin].
  - intros Hz. apply heapPeek_empty; [done|]. apply elem_of_nil_inv. intros fd Hf%(wf_heap_elems l Hwf).
    by rewrite Hz in Hf.
  - intros Hfull. split.
    + intros fd Hm%(wf_heap_full l Hwf Hfull). by apply heapPeek_max.
    + intros [fd Hm%(wf_heap_full l Hwf Hfull)]. apply Hin. intros E. rewrite E in Hm. by apply elem_of_nil in Hm.
Qed.

Lemma event_lookup l fd :
  loop_wf l -> (0 <= fd < lp_setSize l)%Z -> exists fe, event l fd = Some fe /\ fe_mask fe = mask_at l fd.
Proof.
  intros Hwf Hfd. pose proof (wf_events l Hwf). unfold mask_at, event.
  rewrite (proj2 (Z.leb_le 0 fd)) by lia.
  destruct (lookup_lt_is_Some_2 (lp_events l) (Z.to_nat fd) ltac:(lia)) as [fe ->]. by exists fe.
Qed.

Lemma mask_at_set fd fe l x :
  (0 <= fd)%Z -> Z.to_nat fd < length (lp_events l) ->
  mask_at (set_event fd fe l) x = if (x =? fd)%Z then fe_mask fe else mask_at l x.
Proof.
  intros H0 Hlt. unfold mask_at, event, set_event; cbn. destruct (Z.eqb_spec x fd) as [->|].
  - rewrite (proj2 (Z.leb_le 0 fd)) by lia. by rewrite list_lookup_insert_eq.
  - case_if; [|done]. by rewrite list_lookup_insert_ne by lia.
Qed.

(** What registration does not touch. *)
Definition same_control (l l' : loopyLoop K T) : Prop :=
  lp_processingDepth l' = lp_processingDepth l /\ lp_stop l' = lp_stop l /\
  lp_deleting l' = lp_deleting l /\ lp_pendingDelete l' = lp_pendingDelete l /\
  lp_allocated l' = lp_allocated l /\ lp_before l' = lp_before l /\ lp_after l' = lp_after l /\
  lp_timer l' = lp_timer l /\ lp_metrics l' = lp_metrics l.

Lemma same_control_refl l : same_control l l.
Proof. by unfold same_control. Qed.

Lemma same_control_trans l1 l2 l3 : same_control l1 l2 -> same_control l2 l3 -> same_control l1 l3.
Proof. unfold same_control. intros. destruct_and!. split_and!; congruence. Qed.

(** *** Growing the table *)

Lemma growTo_spec fuel newSize fd :
  (1 <= newSize)%Z -> (2 * fd <= INT_MAX)%Z -> (fd < newSize * 2 ^ Z.of_nat fuel)%Z ->
  exists n, growTo fuel newSize fd = Some n /\ (fd < n)%Z /\ (newSize <= n)%Z /\
    (n = newSize \/ n <= 2 * fd)%Z /\ exists j, n = (newSize * 2 ^ Z.of_nat j)%Z.
Proof.
  revert newSize. induction fuel as [|fuel IH]; intros newSize H1 Hi Hf; cbn [growTo].
  - destruct (Z.leb_spec newSize fd); [cbn in Hf; lia|]. exists newSize. split_and!; try lia; [done|].
    exists 0. cbn; lia.
  - destruct (Z.leb_spec newSize fd).
    + rewrite (proj2 (Z.ltb_ge INT_MAX (newSize * 2))) by lia.
      destruct (IH (newSize * 2)%Z) as (n & -> & ? & ? & ? & j & ->); [lia|lia| |].
      { rewrite Nat2Z.inj_succ, Z.pow_succ_r in Hf by lia. lia. }
      eexists. split; [done|]. split_and!; try lia. exists (S j).
      rewrite Nat2Z.inj_succ, Z.pow_succ_r by lia. lia.
    + exists newSize. split_and!; try lia; [done|]. exists 0. cbn; lia.
Qed.

Lemma mask_at_grow l n x :
  mask_at (l <| lp_events ::= fun e => e ++ replicate n zeroEvent |>) x = mask_at l x.
Proof.
  unfold mask_at, event; cbn. case_if; [|done].
  destruct (lp_events l !! Z.to_nat x) eqn:E.
  - by rewrite (lookup_app_l_Some _ _ _ _ E).
  - apply lookup_ge_None in E. rewrite lookup_app_r by done.
    destruct (replicate n zeroEvent !! _) eqn:E'; [|done].
    apply lookup_replicate in E' as [-> _]. done.
Qed.

Lemma resize_wf mem setSize l :
  loop_wf l -> mem_table mem = true -> (lp_setSize l < setSize)%Z ->
  exists l' ok, fdStorageResize mem setSize l = Some (l', ok) /\ loop_wf l' /\
    lp_setSize l' = setSize /\ (forall x, mask_at l' x = mask_at l x) /\ same_control l l'.
Proof.
  intros Hwf Hmem Hlt. unfold fdStorageResize. pose proof (maxfd_spec l Hwf) as (Hreg & _).
  assert (Hmax : (lp_maxfd l < lp_setSize l)%Z).
  { pose proof (wf_size l Hwf). destruct Hreg as [-> |Hreg]; [lia|]. apply mask_at_registered in Hreg; [lia|done]. }
  rewrite (proj2 (Z.eqb_neq setSize (lp_setSize l))) by lia.
  rewrite (proj2 (Z.ltb_lt (lp_setSize l) setSize)) by lia. cbn [negb].
  rewrite (proj2 (Z.leb_gt setSize (lp_maxfd l))), Hmem by lia. cbn [negb].
  destruct Hwf as [Ha Hs He (k & Hk & Hint) Hf Hh Hn Hel Hfu Hm]. cbn [lp_state update rebuild]. rewrite Hk.
  pose proof (fun x => ad_resize_interest setSize k x) as Hr.
  destruct (ad_resize setSize k) as [k' ok]; cbn [fst] in Hr.
  eexists _, ok. split; [reflexivity|].
  assert (Hmask : forall x, mask_at (l <| lp_events ::= fun e => e ++ replicate (Z.to_nat (setSize - lp_setSize l)) zeroEvent |>
    <| lp_setSize := setSize |> <| lp_state := Some k' |>) x = mask_at l x) by apply mask_at_grow.
  split; [|split_and!; done]. split; try done.
  - cbn; lia.
  - cbn. rewrite length_app, length_replicate. lia.
  - exists k'. split; [done|]. intros fd. by rewrite Hr, Hmask.
  - intros fd. rewrite Hmask. apply Hf.
  - intros fd. rewrite Hmask. apply Hel.
  - intros Hfull fd. rewrite Hmask. by apply Hfu.
Qed.

Lemma conform_wf mem fd l :
  loop_wf l -> mem_table mem = true -> (0 <= fd)%Z -> (2 * fd <= INT_MAX)%Z ->
  exists l', fdConformStorageBounds mem fd l = Some l' /\ loop_wf l' /\ (fd < lp_setSize l')%Z /\
    (forall x, mask_at l' x = mask_at l x) /\ same_control l l'.
Proof.
  intros Hwf Hmem H0 Hi. unfold fdConformStorageBounds, fdStorageOkay.
  destruct (Z.ltb_spec fd (lp_setSize l)).
  - exists l. split_and!; try done.
  - pose proof (wf_size l Hwf).
    destruct (growTo_spec 32 (lp_setSize l) fd) as (n & -> & ? & ? & _); [lia|lia| |].
    { change (2 ^ Z.of_nat 32)%Z with 4294967296%Z. unfold INT_MAX in *. lia. }
    destruct (resize_wf mem n l Hwf Hmem) as (l' & ok & E & ? & Hs & ? & ?); [lia|].
    exists l'. cbn. rewrite E. cbn. rewrite Hs. done.
Qed.

Lemma updateMaxfd_maxfd l : lp_maxfd (updateMaxfd l) = heapPeek (lp_fdHeap l).
Proof.
  unfold updateMaxfd; cbn. destruct (Z.eqb_spec (heapPeek (lp_fdHeap l)) LOOPY_HEAP_EMPTY_VALUE) as [->|]; done.
Qed.

(** Registration of an empty entry adds its descriptor to the heap, if memory
    is granted. *)
Lemma insert_fd mem fd l1 l3 :
  loop_wf l1 ->
  lp_fdHeap l3 = (if (mask_at l1 fd =? 0)%Z then fst (heapInsert junk (fst (mem_heap mem)) (snd (mem_heap mem)) fd (lp_fdHeap l1))
                  else lp_fdHeap l1) ->
  heap_wf (lp_fdHeap l3) /\ NoDup (elems (lp_fdHeap l3)) /\
  (forall x, x ∈ elems (lp_fdHeap l3) -> x = fd \/ x ∈ elems (lp_fdHeap l1)) /\
  (forall x, x ∈ elems (lp_fdHeap l1) -> x ∈ elems (lp_fdHeap l3)) /\
  (mask_at l1 fd = 0%Z -> heap_granted mem = true -> fd ∈ elems (lp_fdHeap l3)).
Proof.
  intros Hwf ->. pose proof (wf_heap_elems l1 Hwf fd) as Hfd. pose proof (wf_heap l1 Hwf) as Hh1. pose proof (wf_heap_nodup l1 Hwf) as Hnd.
  destruct (Z.eqb_spec (mask_at l1 fd) 0) as [Hz|Hz]; [|split_and!; [done|done|by right|done|done]].
  destruct (heapInsert_contract junk (fst (mem_heap mem)) (snd (mem_heap mem)) fd _ Hh1) as [Hh He].
  rewrite heapInsert_ok in He. destruct (_ && _) eqn:Eb.
  - split_and!; [done| | | |].
    + rewrite He. apply NoDup_cons. split; [naive_solver|done].
    + intros x. by rewrite He, elem_of_cons.
    + intros x Hx. rewrite He. by right.
    + intros _ _. rewrite He. by left.
  - rewrite He. split_and!; [done|done|by right|done|]. intros _ Hg. unfold heap_granted in Hg. apply andb_true_iff in Hg as [Hg1 Hg2].
    rewrite Hg1, Hg2, !orb_true_r in Eb. done.
Qed.

Lemma register_wf mem fd mask cb data l :
  loop_wf l -> mem_table mem = true -> (0 <= fd)%Z -> (2 * fd <= INT_MAX)%Z -> ad_fits fd -> mask_ok mask -> mask <> 0%Z ->
  exists l' ok, loopyNewFileEvent junk mem fd mask cb data l = Some (l', ok) /\ loop_wf_at (full && heap_granted mem) l' /\
    same_control l l' /\
    (forall x, mask_at l' x = if ok && (x =? fd)%Z then Z.lor (mask_at l fd) mask else mask_at l x) /\
    (ok = true -> exists fe, event l' fd = Some fe /\ fe_clientData fe = data /\
       (isRead mask = true -> fe_readCallback fe = cb) /\ (isWrite mask = true -> fe_writeCallback fe = cb)).
Proof.
  intros Hwf0 Hmem H0 Hi Hfit Hm Hm0.
  destruct (conform_wf mem fd l Hwf0 Hmem H0 Hi) as (l1 & E1 & Hwf & Hlt & Hmask & Hctl).
  unfold loopyNewFileEvent. rewrite E1. cbn -[ad_add updateMaxfd set_event heapInsert].
  destruct (event_lookup l1 fd Hwf) as (fe & -> & Hfe); [lia|]. cbn -[ad_add updateMaxfd set_event heapInsert].
  destruct (wf_state l1 Hwf) as (k & Hk & Hint). rewrite Hk. cbn -[ad_add updateMaxfd set_event heapInsert].
  destruct (ad_add_spec fd mask k Hfit Hm) as (k' & ok & Hadd & Hk').
  rewrite Hfe, <- Hint, Hadd. cbn -[updateMaxfd set_event heapInsert].
  destruct ok; cbn -[updateMaxfd set_event heapInsert].
  2: { eexists _, false. split; [done|]. split; [|split; [exact Hctl|split; [exact Hmask|done]]].
       destruct Hwf as [? ? ? _ ? ? ? ? Hfu ?]. split; try done; [exists k'; split; [done|]; intros x; rewrite Hk'; cbn; apply Hint|].
       intros [Hfull _]%andb_true_iff. by apply Hfu. }
  set (fe2 := _ <| fe_clientData := data |>).
  assert (Hfe2 : fe_mask fe2 = Z.lor (mask_at l1 fd) mask) by (unfold fe2; rewrite <- Hfe; by case_ifs).
  assert (Hfe2d : fe_clientData fe2 = data /\ (isRead mask = true -> fe_readCallback fe2 = cb) /\
    (isWrite mask = true -> fe_writeCallback fe2 = cb)) by (unfold fe2; by destruct (isRead mask), (isWrite mask)).
  clearbody fe2. set (l2 := set_event fd fe2 (l1 <| lp_state := Some k' |>)).
  set (l3 := if (_ =? _)%Z then _ else _).
  assert (Hev : lp_events l3 = lp_events l2 /\ lp_state l3 = Some k' /\ lp_setSize l3 = lp_setSize l1 /\
    lp_freed l3 = lp_freed l1 /\ same_control l1 l3) by (unfold l3; case_if; by split_and!).
  destruct Hev as (Hev & Hst & Hss & Hfr & Hctl3).
  assert (Hlen : Z.to_nat fd < length (lp_events l1)) by (rewrite (wf_events l1 Hwf); lia).
  assert (Hm3 : forall x, mask_at (updateMaxfd l3) x = if (x =? fd)%Z then Z.lor (mask_at l fd) mask else mask_at l x).
  { intros x. rewrite <- !Hmask, <- Hfe2. transitivity (mask_at l2 x).
    - unfold mask_at, event. unfold updateMaxfd; cbn. by rewrite Hev.
    - unfold l2. by rewrite mask_at_set. }
  assert (Hor : Z.lor (mask_at l fd) mask <> 0%Z) by (rewrite Z.lor_eq_0_iff; naive_solver).
  destruct (insert_fd mem fd l1 l3 Hwf) as (Hh & Hnd & Hel & Hold & Hnew).
  { unfold l3. rewrite Hint. by destruct (mask_at l1 fd =? _)%Z. }
  eexists _, true. split; [reflexivity|]. split; [|split; [|split]].
  - split; try done.
    + exact (eq_trans Hfr (wf_alive l1 Hwf)).
    + cbn. rewrite Hss. exact (wf_size l1 Hwf).
    + cbn. rewrite Hev, Hss. cbn. rewrite length_insert. exact (wf_events l1 Hwf).
    + exists k'. split; [done|]. intros x. rewrite Hk', Hm3, Hint, Hmask. cbn.
      case_if; [done|]. by rewrite Hint, Hmask.
    + intros x. rewrite Hm3. destruct (Z.eqb_spec x fd) as [->|]; [done|].
      rewrite <- Hmask. apply (wf_fits l1 Hwf).
    + intros x Hx. rewrite Hm3. destruct (Z.eqb_spec x fd) as [->|]; [done|].
      destruct (Hel x Hx) as [|Hx1]; [done|]. rewrite <- Hmask. by apply (wf_heap_elems l1 Hwf).
    + intros [Hfull Hg]%andb_true_iff x. rewrite Hm3. change (lp_fdHeap (updateMaxfd l3)) with (lp_fdHeap l3).
      destruct (Z.eqb_spec x fd) as [->|]; intros Hx.
      * destruct (decide (mask_at l1 fd = 0%Z)) as [Hz|Hz]; [by apply Hnew|]. by apply Hold, (wf_heap_full l1 Hwf Hfull).
      * apply Hold, (wf_heap_full l1 Hwf Hfull). by rewrite Hmask.
    + by rewrite updateMaxfd_maxfd.
  - eapply same_control_trans; [exact Hctl|]. exact Hctl3.
  - exact Hm3.
  - intros _. exists fe2. split; [|done]. unfold event, updateMaxfd; cbn.
    rewrite (proj2 (Z.leb_le 0 fd)), Hev by lia. cbn. by rewrite list_lookup_insert_eq.
Qed.

(** Its answer is that of the adapter, asked with the mask there was. *)
Definition adapter_answers mem fd mask l (ok : bool) : Prop :=
  exists l1 k k', fdConformStorageBounds mem fd l = Some l1 /\ lp_state l1 = Some k /\ ad_add (mask_at l fd) fd mask k = Some (k', ok).

Lemma register_answer mem fd mask cb data l l' ok : loop_wf l -> mem_table mem = true -> (0 <= fd)%Z -> (2 * fd <= INT_MAX)%Z ->
  loopyNewFileEvent junk mem fd mask cb data l = Some (l', ok) -> adapter_answers mem fd mask l ok.
Proof.
  intros Hwf0 Hmem H0 Hi. destruct (conform_wf mem fd l Hwf0 Hmem H0 Hi) as (l1 & E1 & Hwf & Hlt & Hmask & Hctl).
  unfold loopyNewFileEvent. rewrite E1. cbn -[ad_add updateMaxfd set_event heapInsert].
  destruct (event_lookup l1 fd Hwf) as (fe & -> & Hfe); [lia|]. cbn -[ad_add updateMaxfd set_event heapInsert].
  destruct (wf_state l1 Hwf) as (k & Hk & Hint). rewrite Hk. cbn -[ad_add updateMaxfd set_event heapInsert].
  destruct (ad_add (fe_mask fe) fd mask k) as [[k' ok']|] eqn:Ea; [|done]. cbn -[updateMaxfd set_event heapInsert]. intros E.
  exists l1, k, k'. split_and!; [done|done|]. rewrite <- Hmask, <- Hfe, Ea. by destruct ok'; injection E as _ <-.
Qed.

Lemma if_Some {A} (b : bool) (x y : A) : (if b then Some x else Some y) = Some (if b then x else y).
Proof. by destruct b. Qed.

Lemma remove_fd fd l :
  loop_wf l ->
  heap_wf (fst (heapRemove fd (lp_fdHeap l))) /\ NoDup (elems (fst (heapRemove fd (lp_fdHeap l)))) /\
  forall x, x ∈ elems (fst (heapRemove fd (lp_fdHeap l))) <-> x <> fd /\ x ∈ elems (lp_fdHeap l).
Proof.
  intros Hwf. destruct (heapRemove_contract fd _ (wf_heap l Hwf)) as [Hh He].
  pose proof (wf_heap_nodup l Hwf) as Hnd. destruct (snd (heapRemove fd (lp_fdHeap l))).
  - rewrite He in Hnd. apply NoDup_cons in Hnd as [Hn Hnd]. split_and!; [done..|].
    intros x. rewrite He, elem_of_cons. naive_solver.
  - destruct He as [He Hni]. rewrite He. split_and!; [exact (wf_heap l Hwf)|done|]. intros x. naive_solver.
Qed.

Lemma unregister_wf fd mask l :
  loop_wf l -> (0 <= fd)%Z -> mask_ok mask ->
  exists l', loopyDeleteFileEvent fd mask l = Some l' /\ loop_wf l' /\ same_control l l' /\
    forall x, mask_at l' x = if (x =? fd)%Z then Z.ldiff (mask_at l fd) mask else mask_at l x.
Proof.
  intros Hwf H0 Hm. unfold loopyDeleteFileEvent, fdStorageOkay.
  assert (Hsame : mask_at l fd = 0%Z -> exists l', Some l = Some l' /\ loop_wf l' /\ same_control l l' /\
    forall x, mask_at l' x = if (x =? fd)%Z then Z.ldiff (mask_at l fd) mask else mask_at l x).
  { intros E. exists l. split_and!; try done. intros x. destruct (Z.eqb_spec x fd) as [->|]; [|done]. by rewrite E. }
  destruct (Z.ltb_spec fd (lp_setSize l)); cbn [negb].
  2: { apply Hsame. apply mask_at_beyond. rewrite (wf_events l Hwf). pose proof (wf_size l Hwf). lia. }
  destruct (event_lookup l fd Hwf) as (fe & -> & Hfe); [lia|]. cbn -[ad_del updateMaxfd set_event heapRemove].
  rewrite Hfe. destruct (Z.eqb_spec (mask_at l fd) LOOPY_ACTION_NONE) as [Hz|Hz]; [by apply Hsame|].
  destruct (wf_state l Hwf) as (k & Hk & Hint). rewrite Hk. cbn -[ad_del updateMaxfd set_event heapRemove].
  destruct (ad_del_spec fd mask k) as (k' & Hdel & Hk'); [by apply (wf_fits l Hwf)|done|by rewrite Hint|].
  rewrite <- Hint, Hdel. cbn -[updateMaxfd set_event heapRemove Z.eqb].
  set (fe2 := fe <| fe_mask ::= fun m => Z.ldiff m mask |>).
  set (l2 := set_event fd fe2 (l <| lp_state := Some k' |>)).
  set (l3 := if (fe_mask fe2 =? LOOPY_ACTION_NONE)%Z then updateMaxfd (l2 <| lp_fdHeap ::= fun h => fst (heapRemove fd h) |>) else l2).
  assert (Hlen : Z.to_nat fd < length (lp_events l)) by (rewrite (wf_events l Hwf); lia).
  assert (Hfe2 : fe_mask fe2 = Z.ldiff (mask_at l fd) mask) by (unfold fe2; cbn; by rewrite Hfe).
  assert (Hl3 : lp_events l3 = lp_events l2 /\ lp_state l3 = Some k' /\ lp_setSize l3 = lp_setSize l /\
    lp_freed l3 = lp_freed l /\ same_control l l3) by (unfold l3; case_if; by split_and!).
  destruct Hl3 as (Hev & Hst & Hss & Hfr & Hctl).
  assert (Hm3 : forall x, mask_at l3 x = if (x =? fd)%Z then Z.ldiff (mask_at l fd) mask else mask_at l x).
  { intros x. rewrite <- Hfe2. transitivity (mask_at l2 x).
    - unfold mask_at, event. by rewrite Hev.
    - unfold l2. by rewrite mask_at_set. }
  assert (Hheap : heap_wf (lp_fdHeap l3) /\ NoDup (elems (lp_fdHeap l3)) /\
    (forall x, x ∈ elems (lp_fdHeap l3) -> mask_at l3 x <> 0%Z) /\
    (full = true -> forall x, mask_at l3 x <> 0%Z -> x ∈ elems (lp_fdHeap l3)) /\ lp_maxfd l3 = heapPeek (lp_fdHeap l3)).
  { unfold l3 in *. destruct (Z.eqb_spec (fe_mask fe2) LOOPY_ACTION_NONE) as [Hn|Hn].
    - destruct (remove_fd fd l Hwf) as (Hh & Hnd & Hel). split_and!; [done|done| | |by rewrite updateMaxfd_maxfd].
      + intros x [Hne Hx]%Hel. rewrite Hm3. rewrite (proj2 (Z.eqb_neq x fd)) by done. by apply (wf_heap_elems l Hwf).
      + intros Hfull x. rewrite Hm3. destruct (Z.eqb_spec x fd) as [->|]; [by rewrite <- Hfe2, Hn|].
        intros Hx. apply Hel. split; [done|]. by apply (wf_heap_full l Hwf Hfull).
    - destruct Hwf as [? ? ? ? ? ? ? Hel Hfu ?]. split_and!; try done.
      + intros x Hx. rewrite Hm3, <- Hfe2. destruct (Z.eqb_spec x fd) as [->|]; [done|by apply Hel].
      + intros Hfull x. rewrite Hm3. destruct (Z.eqb_spec x fd) as [->|]; intros Hx; by apply (Hfu Hfull). }
  destruct Hheap as (Hh & Hnd & Hel & Hfu & Hmax).
  exists l3. split; [unfold l3; rewrite Hfe2, <- Hint; apply if_Some|]. split; [|split; [exact Hctl|intros x; rewrite Hint; apply Hm3]]. split; try done.
  - exact (eq_trans Hfr (wf_alive l Hwf)).
  - rewrite Hss. exact (wf_size l Hwf).
  - rewrite Hev, Hss. cbn. rewrite length_insert. exact (wf_events l Hwf).
  - exists k'. split; [done|]. intros x. by rewrite Hk', Hm3, !Hint.
  - intros x. rewrite Hm3. destruct (Z.eqb_spec x fd) as [->|]; [intros _|]; by apply (wf_fits l Hwf).
Qed.
End Invariant.

(** ** Running user code *)

Section Run.
Context {K : Type} `{!Adapter K} {T : Type} `{!TimerWheel T}.
Variable junk : Z.
Context {full : bool}.
Notation loop_wf := (loop_wf_at full).
Implicit Types (l : loopyLoop K T) (s : loopyLoop K T * list call).

(** Memory for the table is there; for the heap, too, when [full]. *)
Definition mem_safe (full : bool) (mem : loop_mem) : Prop := mem_table mem = true /\ (full = true -> heap_granted mem = true).

(** Calls within the documented preconditions: descriptors are valid and within
    the adapter's range, the storage is not shrunk, memory for the table is there, a timer is cancelled only
    through a wheel that exists (excluded here), and only callbacks run inside
    the event processing may delete the loop. *)
Definition op_safe_at (full mayDelete : bool) (op : loop_op) : Prop :=
  match op with
  | OpRegister mem fd mask _ _ => mem_safe full mem /\ (0 <= fd)%Z /\ (2 * fd <= INT_MAX)%Z /\ ad_fits fd /\ mask_ok mask /\ mask <> 0%Z
  | OpRegisterWriteIfNoneExists mem fd _ _ => mem_safe full mem /\ (0 <= fd)%Z /\ (2 * fd <= INT_MAX)%Z /\ ad_fits fd
  | OpUnregister fd mask => (0 <= fd)%Z /\ mask_ok mask
  | OpResize _ _ | OpUnregisterTimer _ => False
  | OpDelete => mayDelete = true
  | _ => True
  end.

Definition in_processing (c : call) : bool :=
  match c with CallRead _ _ _ _ | CallWrite _ _ _ _ | CallTimer _ _ => true | _ => false end.

Definition user_safe_at (full : bool) (user : list call -> list loop_op) : Prop :=
  forall c tr, Forall (op_safe_at full (in_processing c)) (user (c :: tr)).
Notation op_safe := (op_safe_at full).
Notation user_safe := (user_safe_at full).

Record loop_ok_at {full : bool} (l : loopyLoop K T) : Prop := {
  ok_wf : loop_wf_at full l;
  ok_deleting : lp_deleting l = false;
  ok_pending : lp_pendingDelete l = true -> lp_stop l = true /\ (0 < lp_processingDepth l)%Z
}.
#[global] Arguments loop_ok_at full l : clear implicits.
Notation loop_ok := (loop_ok_at full).

(** What running callbacks keeps. *)
Definition keeps l l' : Prop :=
  lp_processingDepth l' = lp_processingDepth l /\ lp_allocated l' = lp_allocated l /\
  (lp_setSize l <= lp_setSize l')%Z /\ (is_Some (lp_timer l) -> is_Some (lp_timer l')).

Lemma keeps_refl l : keeps l l.
Proof. unfold keeps. split_and!; done. Qed.

Lemma keeps_trans l1 l2 l3 : keeps l1 l2 -> keeps l2 l3 -> keeps l1 l3.
Proof. unfold keeps. intros. destruct_and!. split_and!; [congruence..|lia|auto]. Qed.

Lemma same_control_keeps l l' :
  same_control l l' -> (lp_setSize l <= lp_setSize l')%Z -> keeps l l'.
Proof. unfold same_control, keeps. intros. destruct_and!. split_and!; [done..|]. intros ?.
  by match goal with H : lp_timer l' = _ |- _ => rewrite H end.
Qed.

Lemma same_control_ok l l' : same_control l l' -> loop_ok l -> loop_wf l' -> loop_ok l'.
Proof.
  unfold same_control. intros H [Hwf Hd Hp] Hwf'. destruct_and!.
  split; [done|congruence|]. intros E. destruct Hp; [congruence|]. split; congruence.
Qed.

Lemma register_size mem fd mask cb data l l' ok :
  loopyNewFileEvent junk mem fd mask cb data l = Some (l', ok) -> (lp_setSize l <= lp_setSize l')%Z.
Proof.
  intros H. unfold loopyNewFileEvent in H.
  destruct (fdConformStorageBounds mem fd l) as [l1|] eqn:E1; [|done]. cbn -[ad_add updateMaxfd set_event] in H.
  assert (H1 : (lp_setSize l <= lp_setSize l1)%Z).
  { unfold fdConformStorageBounds in E1. destruct (fdStorageOkay l fd); [by simplify_eq|].
    destruct (growTo 32 _ fd) as [n|]; [|done]. cbn in E1. unfold fdStorageResize in E1.
    destruct (n =? _)%Z; [cbn in E1; by simplify_eq|].
    destruct (Z.ltb_spec (lp_setSize l) n); cbn [negb] in E1; [|done].
    destruct (n <=? _)%Z; [cbn in E1; by simplify_eq|]. destruct (mem_table mem); [|done]. cbn in E1.
    destruct (lp_state l) as [k|]; cbn in E1; [destruct (ad_resize n k)|]; simplify_eq/=; cbn; lia. }
  destruct (event l1 fd); [|done]. cbn -[ad_add updateMaxfd set_event] in H.
  destruct (lp_state l1); [|done]. cbn -[ad_add updateMaxfd set_event] in H.
  destruct (ad_add _ _ _ _) as [[k' b]|]; [|done]. cbn -[updateMaxfd set_event] in H.
  destruct b; cbn -[updateMaxfd set_event] in H; simplify_eq; [|done].
  case_if; done.
Qed.

Lemma unregister_size fd mask l l' :
  loopyDeleteFileEvent fd mask l = Some l' -> lp_setSize l' = lp_setSize l.
Proof.
  unfold loopyDeleteFileEvent. destruct (negb _); [by intros [= ->]|].
  destruct (event l fd) as [fe|]; [|done]. cbn -[updateMaxfd set_event].
  destruct (_ =? _)%Z; [by intros [= ->]|]. destruct (lp_state l); [|done]. cbn -[updateMaxfd set_event].
  destruct (ad_del _ _ _ _); [|done]. cbn -[updateMaxfd set_event].
  destruct (_ =? _)%Z; by intros [= <-].
Qed.

Lemma wf_restore mem l : mem_safe full mem -> loop_wf_at (full && heap_granted mem) l -> loop_wf l.
Proof. intros [_ Hm] Hwf. destruct full; [by rewrite Hm in Hwf|done]. Qed.

Lemma register_ok mem fd mask cb data l :
  loop_ok l -> mem_safe full mem -> (0 <= fd)%Z -> (2 * fd <= INT_MAX)%Z -> ad_fits fd -> mask_ok mask -> mask <> 0%Z ->
  exists l' ok, loopyNewFileEvent junk mem fd mask cb data l = Some (l', ok) /\ loop_ok l' /\ keeps l l'.
Proof.
  intros Hok Hmem H0 Hi Hf Hm Hm0. pose proof (ok_wf l Hok) as Hwf.
  destruct (register_wf junk mem fd mask cb data l Hwf (proj1 Hmem) H0 Hi Hf Hm Hm0) as (l' & ok & E & Hwf' & Hctl & _ & _).
  exists l', ok. split; [done|]. split; [eapply same_control_ok; [done|done|by eapply wf_restore]|].
  apply same_control_keeps; [done|]. by eapply register_size.
Qed.

Lemma conform_ok mem fd l :
  loop_ok l -> mem_table mem = true -> (0 <= fd)%Z -> (2 * fd <= INT_MAX)%Z ->
  exists l', fdConformStorageBounds mem fd l = Some l' /\ loop_ok l' /\ keeps l l' /\ (fd < lp_setSize l')%Z.
Proof.
  intros Hok Hmem H0 Hi. pose proof (ok_wf l Hok) as Hwf.
  destruct (conform_wf mem fd l Hwf Hmem H0 Hi) as (l' & E & Hwf' & Hlt & Hm & Hctl). exists l'.
  split_and!; [done|by eapply same_control_ok| |done]. apply same_control_keeps; [done|].
  unfold fdConformStorageBounds in E. destruct (fdStorageOkay l fd) eqn:Ef; [by simplify_eq|].
  unfold fdStorageOkay in Ef. bool_to_prop. lia.
Qed.

(** A change of fields the invariant does not mention. *)
Lemma control_ok l l' :
  loop_ok l -> lp_events l' = lp_events l -> lp_state l' = lp_state l -> lp_setSize l' = lp_setSize l ->
  lp_fdHeap l' = lp_fdHeap l -> lp_maxfd l' = lp_maxfd l -> lp_freed l' = lp_freed l ->
  lp_deleting l' = lp_deleting l ->
  (lp_pendingDelete l' = true -> lp_stop l' = true /\ (0 < lp_processingDepth l')%Z) -> loop_ok l'.
Proof.
  intros [Hwf Hd _] He Hs Hz Hh Hm Hf Hdel Hp.
  assert (Hmask : forall x, mask_at l' x = mask_at l x) by (intros x; unfold mask_at, event; by rewrite He).
  split; [|congruence|done]. destruct Hwf as [W1 W2 W3 (k & W4 & W4') W5 W6 W7 W8 W8' W9].
  split; rewrite ?He, ?Hs, ?Hz, ?Hh, ?Hm, ?Hf; try done.
  - exists k. split; [done|]. intros x. by rewrite Hmask.
  - intros x. rewrite Hmask. apply W5.
  - intros x. rewrite Hmask. apply W8.
  - intros Hfull x. rewrite Hmask. by apply W8'.
Qed.

Lemma run_op_ok d op l :
  loop_ok l -> op_safe d op -> (d = true -> (0 < lp_processingDepth l)%Z) ->
  exists l', run_op junk op l = Some l' /\ loop_ok l' /\ keeps l l'.
Proof.
  intros Hok Hs Hd. pose proof (ok_wf l Hok) as Hwf. pose proof (ok_pending l Hok) as Hp.
  unfold run_op. rewrite (wf_alive l Hwf).
  destruct op as [mem fd mask cb data|mem fd cb data|fd mask|mem n|cb data|cb data|a b cb data|id| |]; cbn in Hs; try done.
  - destruct Hs as (? & ? & ? & ? & ? & ?).
    destruct (register_ok mem fd mask cb data l) as (l' & ok & -> & ? & ?); [done..|]. by exists l'.
  - destruct Hs as (Hmem & H0 & Hi & Hf). unfold loopyRegisterWriteIfNoneExists.
    destruct (conform_ok mem fd l) as (l1 & -> & Hok1 & Hk1 & Hlt); [done|apply Hmem|done..|]. cbn -[loopyRegisterWrite].
    destruct (event_lookup l1 fd (ok_wf l1 Hok1)) as (fe & -> & _); [lia|]. cbn -[loopyRegisterWrite].
    destruct (isWrite (fe_mask fe)); [by exists l1|].
    destruct (register_ok mem fd LOOPY_ACTION_WRITE cb data l1) as (l' & ok & E & ? & ?);
      [done..|by cbv; split|done|]. unfold loopyRegisterWrite. rewrite E. exists l'. split_and!; [done..|].
    by eapply keeps_trans.
  - destruct Hs as [H0 Hm]. destruct (unregister_wf fd mask l Hwf H0 Hm) as (l' & E & Hwf' & Hctl & _).
    exists l'. split; [done|]. split; [by eapply same_control_ok|]. apply same_control_keeps; [done|].
    pose proof (unregister_size fd mask l l' E). lia.
  - eexists. split; [done|]. split; [by apply (control_ok l)|by unfold keeps; cbn; split_and!].
  - eexists. split; [done|]. split; [by apply (control_ok l)|by unfold keeps; cbn; split_and!].
  - unfold loopyRegisterTimer. destruct (tw_register _ _ _ _ _) as [t' i].
    eexists. split; [done|]. split; [by apply (control_ok l)|]. unfold keeps; cbn. split_and!; done || lia.
  - eexists. split; [done|]. split; [|by unfold keeps; cbn; split_and!]. apply (control_ok l); try done. intros E.
    cbn in *. by destruct (Hp E).
  - destruct (wf_state l Hwf) as (k & Hk & _). unfold loopyDelete. rewrite Hk.
    rewrite (proj2 (Z.ltb_lt _ _)) by auto. eexists. split; [done|]. split; [|by unfold keeps; cbn; split_and!].
    apply (control_ok l); try done. intros _. cbn. auto.
Qed.

Lemma run_ops_ok d ops : forall l,
  loop_ok l -> Forall (op_safe d) ops -> (d = true -> (0 < lp_processingDepth l)%Z) ->
  exists l', run_ops junk ops l = Some l' /\ loop_ok l' /\ keeps l l'.
Proof.
  induction ops as [|op ops IH]; intros l Hok Hs Hd; cbn; [by exists l; split_and!; [..|apply keeps_refl]|].
  apply Forall_cons in Hs as [Hop Hs].
  destruct (run_op_ok d op l Hok Hop Hd) as (l1 & -> & Hok1 & Hk1). cbn.
  destruct (IH l1 Hok1 Hs) as (l' & -> & ? & Hk); [destruct Hk1 as [-> _]; done|].
  exists l'. split_and!; [done..|]. by eapply keeps_trans.
Qed.

Context (user : list call -> list loop_op) (Huser : user_safe user).

Lemma invoke_ok c l tr :
  loop_ok l -> (in_processing c = true -> (0 < lp_processingDepth l)%Z) ->
  exists l', invoke junk user c (l, tr) = Some (l', c :: tr) /\ loop_ok l' /\ keeps l l'.
Proof using All.
  intros Hok Hd. unfold invoke.
  destruct (run_ops_ok (in_processing c) (user (c :: tr)) l Hok (Huser c tr) Hd) as (l' & -> & ? & ?).
  by exists l'.
Qed.

Lemma dispatch_one_ok f l tr :
  loop_ok l -> (0 < lp_processingDepth l)%Z -> (0 <= fst f < lp_setSize l)%Z ->
  exists l' tr', dispatch_one junk user f (l, tr) = Some (l', tr') /\ loop_ok l' /\ keeps l l'.
Proof using All.
  destruct f as [fd mask]; intros Hok Hd Hfd. cbn [fst] in Hfd. unfold dispatch_one. cbn [fst].
  destruct (event_lookup l fd (ok_wf l Hok) Hfd) as (fe & -> & _). cbn -[invoke event Z.land Z.eqb].
  assert (Hmid : exists fe1 l1 tr1,
    (if negb (Z.land (fe_mask fe) (loopyActionIsRead mask) =? 0)%Z
     then s ← invoke junk user (CallRead fd (fe_readCallback fe) (fe_clientData fe) mask) (l, tr);
          fe ← event (fst s) fd; Some (fe, s)
     else Some (fe, (l, tr))) = Some (fe1, (l1, tr1)) /\ loop_ok l1 /\ keeps l l1).
  { destruct (negb _); [|exists fe, l, tr; split_and!; [done..|apply keeps_refl]].
    destruct (invoke_ok (CallRead fd (fe_readCallback fe) (fe_clientData fe) mask) l tr Hok ltac:(done))
      as (l1 & -> & Hok1 & Hk1).
    destruct (event_lookup l1 fd (ok_wf l1 Hok1)) as (fe1 & E1 & _).
    { destruct Hk1 as (_ & _ & ? & _). lia. }
    cbn -[event]. rewrite E1. by exists fe1, l1, (CallRead fd (fe_readCallback fe) (fe_clientData fe) mask :: tr). }
  destruct Hmid as (fe1 & l1 & tr1 & -> & Hok1 & Hk1). cbn -[invoke event Z.land Z.eqb].
  destruct (negb _); [|by exists l1, tr1].
  destruct (invoke_ok (CallWrite fd (fe_writeCallback fe1) (fe_clientData fe1) mask) l1 tr1 Hok1)
    as (l2 & -> & Hok2 & Hk2).
  { destruct Hk1 as [-> _]. done. }
  eexists _, _. split_and!; [done..|]. by eapply keeps_trans.
Qed.

Lemma dispatch_ok fired : forall l tr,
  loop_ok l -> (0 < lp_processingDepth l)%Z -> (forall f, f ∈ fired -> (0 <= fst f < lp_setSize l)%Z) ->
  exists l' tr', dispatch junk user fired (l, tr) = Some (l', tr') /\ loop_ok l' /\ keeps l l'.
Proof using All.
  induction fired as [|f fired IH]; intros l tr Hok Hd Hf; cbn; [by exists l, tr; split_and!; [..|apply keeps_refl]|].
  destruct (dispatch_one_ok f l tr Hok Hd (Hf f (list_elem_of_here _ _))) as (l1 & tr1 & -> & Hok1 & Hk1). cbn.
  destruct (IH l1 tr1 Hok1) as (l' & tr' & -> & Hok' & Hk').
  - destruct Hk1 as [-> _]. done.
  - intros g Hg. destruct Hk1 as (_ & _ & ? & _). specialize (Hf g ltac:(by constructor)). lia.
  - exists l', tr'. split_and!; [done..|]. by eapply keeps_trans.
Qed.

Lemma run_timers_ok due : forall l tr,
  loop_ok l -> (0 < lp_processingDepth l)%Z ->
  exists l' tr', run_timers junk user due (l, tr) = Some (l', tr') /\ loop_ok l' /\ keeps l l'.
Proof using All.
  induction due as [|[cb data] due IH]; intros l tr Hok Hd; cbn -[invoke]; [by exists l, tr; split_and!; [..|apply keeps_refl]|].
  destruct (invoke_ok (CallTimer cb data) l tr Hok ltac:(done)) as (l1 & -> & Hok1 & Hk1). cbn.
  destruct (IH l1 (CallTimer cb data :: tr) Hok1) as (l' & tr' & -> & Hok' & Hk').
  - destruct Hk1 as [-> _]. done.
  - exists l', tr'. split_and!; [done..|]. by eapply keeps_trans.
Qed.

Context (kernel : K -> list call -> ad_answer) (monotonicUs wallUs : nat -> list call -> Z).
Context (Hkernel : forall k tr, ad_answer_ok (kernel k tr) k).

(** A poll reports registered descriptors only, all within the table. *)
Lemma poll_ok tv l tr :
  loop_ok l ->
  exists l' fired, poll kernel wallUs tv (l, tr) = Some (l', CallPoll tv :: tr, fired) /\
    loop_ok l' /\ keeps l l' /\ forall f, f ∈ fired -> (0 <= fst f < lp_setSize l')%Z.
Proof using All.
  intros Hok. pose proof (ok_wf l Hok) as Hwf. destruct (wf_state l Hwf) as (k & Hk & Hint).
  unfold poll. rewrite Hk. cbn -[ad_poll]. eexists _, _. split; [done|].
  split; [|split; [by unfold keeps; cbn; split_and!|]].
  - apply (control_ok l); try done. apply (ok_pending l Hok).
  - intros [fd m] Hin. cbn. eapply ad_poll_registered in Hin; [|..|apply Hkernel].
    + rewrite Hint in Hin. exact (mask_at_registered l fd Hwf Hin).
    + intros x _. by rewrite Hint.
Qed.

(** After a pass: well formed, and a requested deletion has stopped the loop. *)
Record pass_ok (l l' : loopyLoop K T) : Prop := {
  po_wf : loop_wf l';
  po_deleting : lp_deleting l' = false;
  po_depth : lp_processingDepth l' = lp_processingDepth l;
  po_pending : lp_pendingDelete l' = true -> lp_stop l' = true
}.

Lemma process_timers_ok shortest nowUs l tr :
  loop_ok l -> (0 < lp_processingDepth l)%Z -> is_Some (lp_timer l) ->
  exists l' tr', process_timers junk user shortest nowUs (l, tr) = Some (l', tr') /\ loop_ok l' /\ keeps l l'.
Proof using All.
  intros Hok Hd [t Ht]. unfold process_timers. rewrite Ht. cbn -[run_timers].
  destruct (tw_process nowUs t) as [t' due].
  set (l1 := _ <| lp_timer := Some t' |>).
  destruct (run_timers_ok due l1 tr) as (l' & tr' & E & Hok' & Hk').
  - apply (control_ok l); try done. apply (ok_pending l Hok).
  - done.
  - exists l', tr'. split_and!; [done..|]. eapply keeps_trans; [|done].
    unfold keeps; cbn. by split_and!.
Qed.

Lemma process_ok flags l tr :
  loop_ok l -> (0 <= lp_processingDepth l)%Z ->
  exists l' tr' n, loopyProcessEvents junk user kernel monotonicUs wallUs flags (l, tr) = Some (l', tr', n) /\
    pass_ok l l'.
Proof using All.
  intros Hok Hd. unfold loopyProcessEvents.
  set (l0 := l <| lp_processingDepth ::= Z.succ |>).
  assert (Hok0 : loop_ok l0).
  { apply (control_ok l); try done. intros E. destruct (ok_pending l Hok E). cbn. split; [done|lia]. }
  assert (Hd0 : (0 < lp_processingDepth l0)%Z) by (cbn; lia).
  set (polls := (0 <=? lp_maxfd l0)%Z || _). set (sh := if polls then _ else _).
  assert (Hmid : exists l1 tr1 n, (if polls
      then poll_and_dispatch junk user kernel wallUs (poll_timeout l0 flags (monotonicUs 0 tr)) (l0, tr)
      else Some (l0, tr, 0)) = Some (l1, tr1, n) /\ loop_ok l1 /\ keeps l0 l1).
  { destruct polls; [|by exists l0, tr, 0; split_and!; [..|apply keeps_refl]].
    unfold poll_and_dispatch.
    destruct (poll_ok (poll_timeout l0 flags (monotonicUs 0 tr)) l0 tr Hok0) as (l1 & fired & -> & Hok1 & Hk1 & Hf).
    cbn -[dispatch]. set (l2 := l1 <| lp_metrics ::= _ |>).
    destruct (dispatch_ok fired l2 (CallPoll (poll_timeout l0 flags (monotonicUs 0 tr)) :: tr)) as (l3 & tr3 & -> & Hok3 & Hk3).
    - apply (control_ok l1); try done. apply (ok_pending l1 Hok1).
    - destruct Hk1 as [Hk1 _]. cbn. rewrite Hk1. done.
    - exact Hf.
    - eexists _, _, _. split_and!; [done..|]. eapply keeps_trans; [done|]. exact Hk3. }
  destruct Hmid as (l1 & tr1 & n & -> & Hok1 & Hk1). cbn [mbind option_bind].
  assert (Hmid : exists l2 tr2, (if HAS_TIMERS l0 flags && negb (lp_stop l1) && negb (sh =? 0)%Z &&
      ((n =? 0) || (sh + 10 <=? monotonicUs 1 tr1)%Z)
     then process_timers junk user sh (monotonicUs 1 tr1) (l1, tr1) else Some (l1, tr1)) = Some (l2, tr2) /\
     loop_ok l2 /\ keeps l1 l2).
  { destruct (HAS_TIMERS l0 flags) eqn:Ht; [|by exists l1, tr1; split_and!; [..|apply keeps_refl]].
    destruct (true && _ && _ && _); [|by exists l1, tr1; split_and!; [..|apply keeps_refl]].
    apply process_timers_ok; [done| |].
    - destruct Hk1 as [Hk1 _]. by rewrite Hk1.
    - destruct Hk1 as (_ & _ & _ & Hk1). apply Hk1. unfold HAS_TIMERS in Ht. by destruct (lp_timer l0). }
  destruct Hmid as (l2 & tr2 & -> & Hok2 & Hk2). cbn [mbind option_bind].
  eexists _, _, _. split; [done|]. destruct Hk1 as [Hd1 _], Hk2 as [Hd2 _]. split; cbn.
  - by destruct (ok_wf l2 Hok2).
  - apply (ok_deleting l2 Hok2).
  - rewrite Hd2, Hd1. cbn. lia.
  - intros E. by destruct (ok_pending l2 Hok2 E).
Qed.

(** How a run may end: stopped and intact, or deleted once, at the end. *)
Definition outcome_ok_at (full : bool) (o : outcome) : Prop :=
  match o with
  | Ended l' _ =>
      (loop_wf_at full l' /\ lp_stop l' = true /\ lp_pendingDelete l' = false) \/
      (exists l0, loop_wf_at full l0 /\ l' = destroy l0)
  | Running l' _ => loop_wf_at full l' /\ lp_pendingDelete l' = false
  end.
Notation outcome_ok := (outcome_ok_at full).

Lemma alive_wf l : loop_wf l -> alive l = Some l.
Proof. intros Hwf. unfold alive. by rewrite (wf_alive l Hwf). Qed.

Lemma finish_ok l tr :
  loop_wf l -> lp_stop l = true -> exists o, finish l tr = Some o /\ outcome_ok o.
Proof.
  intros Hwf Hs. unfold finish, alive. rewrite (wf_alive l Hwf). eexists; split; [done|]. cbn.
  destruct (lp_pendingDelete l) eqn:E; [right; by exists l|left; done].
Qed.

Lemma doLoop_ok passes mode : forall l tr,
  loop_ok l -> lp_processingDepth l = 0%Z ->
  exists o, doLoop junk user kernel monotonicUs wallUs passes mode l tr = Some o /\ outcome_ok o.
Proof using All.
  induction passes as [|passes IH]; intros l tr Hok Hd; cbn -[loopyProcessEvents invoke_opt finish alive];
    destruct (lp_stop l) eqn:Hs; try (by apply finish_ok; [apply Hok|]).
  - eexists; split; [done|]. split; [apply Hok|].
    destruct (lp_pendingDelete l) eqn:E; [|done]. destruct (ok_pending l Hok E). lia.
  - set (l0 := l <| lp_metrics ::= _ |>).
    assert (Hok0 : loop_ok l0) by (apply (control_ok l); try done; apply (ok_pending l Hok)).
    assert (Hinv : forall mk cb l tr, (forall c d, in_processing (mk c d) = false) -> loop_ok l ->
      exists l' tr', invoke_opt junk user mk cb (l, tr) = Some (l', tr') /\ loop_ok l' /\ keeps l l').
    { intros mk cb l1 tr1 Hmk Hok1. destruct cb as [[c d]|]; cbn -[invoke];
        [|by exists l1, tr1; split_and!; [..|apply keeps_refl]].
      destruct (invoke_ok (mk c d) l1 tr1 Hok1) as (l' & -> & ? & ?); [by rewrite Hmk|]. by eexists _, _. }
    destruct (Hinv CallBefore (lp_before l) l0 tr ltac:(done) Hok0) as (l1 & tr1 & -> & Hok1 & Hk1).
    cbn -[loopyProcessEvents invoke_opt finish alive]. rewrite (alive_wf l1 (ok_wf l1 Hok1)).
    cbn -[loopyProcessEvents invoke_opt finish alive]. rewrite (ok_deleting l1 Hok1), orb_false_r.
    assert (Hd1 : lp_processingDepth l1 = 0%Z) by (destruct Hk1 as [-> _]; done).
    destruct (match lp_before l with None => false | Some _ => lp_stop l1 end) eqn:Hb.
    { apply finish_ok; [apply Hok1|]. by destruct (lp_before l). }
    destruct (process_ok mode l1 tr1 Hok1) as (l2 & tr2 & n & -> & [Hwf2 Hdel2 Hd2 Hp2]); [lia|].
    cbn -[loopyProcessEvents invoke_opt finish alive]. rewrite (alive_wf l2 Hwf2).
    cbn -[loopyProcessEvents invoke_opt finish alive]. rewrite Hdel2.
    destruct (lp_stop l2) eqn:Hs2; cbn -[loopyProcessEvents invoke_opt finish alive].
    + rewrite (alive_wf l2 Hwf2). cbn -[finish doLoop alive]. rewrite Hdel2.
      destruct passes; cbn -[loopyProcessEvents finish]; rewrite Hs2; by apply finish_ok.
    + assert (Hok2 : loop_ok l2).
      { split; [done|done|]. intros E. specialize (Hp2 E). congruence. }
      destruct (Hinv CallAfter (lp_after l2) l2 tr2 ltac:(done) Hok2) as (l3 & tr3 & -> & Hok3 & Hk3).
      cbn -[doLoop finish alive]. rewrite (alive_wf l3 (ok_wf l3 Hok3)). cbn -[doLoop finish alive].
      rewrite (ok_deleting l3 Hok3). apply IH; [done|]. destruct Hk3 as [-> _]. lia.
Qed.
End Run.

(** ** New loops *)

Section New.
Context {K : Type} `{!Adapter K} {T : Type} `{!TimerWheel T}.
Variable junk : Z.
Implicit Types l : loopyLoop K T.

Lemma loopyNew_wf setSize k :
  (1 <= setSize)%Z -> ad_new true = Some k ->
  exists l, loopyNew true true mem_ok setSize = Some (Some l) /\ loop_ok_at true l /\
    lp_processingDepth l = 0%Z /\ lp_setSize l = setSize /\ lp_allocated l = true /\
    lp_before l = None /\ lp_after l = None /\ lp_timer l = None.
Proof.
  intros Hs Hk. unfold loopyNew, loopyInit, fdStorageResize. cbn -[loopyMaxHeapInit Z.leb Z.ltb Z.eqb].
  rewrite (proj2 (Z.eqb_neq setSize 0)), (proj2 (Z.ltb_lt 0 setSize)), (proj2 (Z.leb_gt setSize 0)) by lia.
  cbn -[loopyMaxHeapInit].
  pose proof (heapInit_wf nullHeap (Z.to_nat setSize)) as Hh.
  assert (He : elems (fst (loopyMaxHeapInit true true nullHeap (Z.to_nat setSize))) = []) by done.
  assert (Hz : hp_size (fst (loopyMaxHeapInit true true nullHeap (Z.to_nat setSize))) = 0) by done.
  assert (Hok : snd (loopyMaxHeapInit true true nullHeap (Z.to_nat setSize)) = true) by done.
  destruct (loopyMaxHeapInit true true nullHeap (Z.to_nat setSize)) as [h ok]; cbn in Hh, He, Hz, Hok.
  subst ok. cbn. rewrite Hk. cbn.
  eexists. split; [reflexivity|].
  set (l := _ <| lp_state := Some k |>).
  assert (Hmask : forall x, mask_at l x = 0%Z).
  { intros x. unfold mask_at, event; cbn. case_if; [|done].
    destruct (replicate _ zeroEvent !! _) eqn:E; [|done]. by apply lookup_replicate in E as [-> _]. }
  assert (Hwf : loop_wf_at true l).
  { split; try done; cbn.
    - rewrite length_replicate. lia.
    - exists k. split; [done|]. intros x. rewrite Hmask. by apply ad_new_interest.
    - intros x. by rewrite Hmask.
    - rewrite He. constructor.
    - intros x. rewrite He. by intros ?%elem_of_nil.
    - intros _ x. by rewrite Hmask.
    - unfold heapPeek. by rewrite Hz. }
  split_and!; try done.
Qed.
End New.

(** ** Properties *)

Section Properties.
Context {K : Type} `{!Adapter K} {T : Type} `{!TimerWheel T}.
Variable junk : Z.
Implicit Types l : loopyLoop K T.

(** C2. Registering and unregistering keep the loop's views of the watched
    descriptors in agreement, when memory for the table is there: afterwards the
    table's masks are the union, or the difference, with the given mask at that
    descriptor and unchanged elsewhere; the adapter's interest equals the masks
    everywhere; the heap holds only descriptors with a nonzero mask; [maxfd] is
    the heap's maximum, one of them or -1.  A registration answers what the
    adapter answers; one that it refuses changes nothing, one that it accepts sets the callbacks
    of the given mask.  The heap holds all of them, so that [maxfd] is the
    highest, as long as no memory for the heap was ever refused ([full]): the
    code ignores a refused insertion and answers true ([heap_refused_disagrees]). *)
Theorem registration_consistent full mem l fd mask cb data
    (Hwf : loop_wf_at full l) (Hmem : mem_table mem = true) (Hfd : (0 <= fd)%Z) (Hmax : (2 * fd <= INT_MAX)%Z)
    (Hfits : ad_fits fd) (Hmask : mask_ok mask) (Hsome : mask <> 0%Z) :
  (exists l' ok, loopyNewFileEvent junk mem fd mask cb data l = Some (l', ok) /\ adapter_answers mem fd mask l ok /\
     loop_wf_at (full && heap_granted mem) l' /\
     (forall x, mask_at l' x = if ok && (x =? fd)%Z then Z.lor (mask_at l fd) mask else mask_at l x) /\
     (ok = true -> exists fe, event l' fd = Some fe /\ fe_clientData fe = data /\
        (isRead mask = true -> fe_readCallback fe = cb) /\ (isWrite mask = true -> fe_writeCallback fe = cb))) /\
  (exists l', loopyDeleteFileEvent fd mask l = Some l' /\ loop_wf_at full l' /\
     forall x, mask_at l' x = if (x =? fd)%Z then Z.ldiff (mask_at l fd) mask else mask_at l x) /\
  (forall b l', loop_wf_at b l' ->
     (lp_maxfd l' = (-1)%Z \/ mask_at l' (lp_maxfd l') <> 0%Z) /\
     ((forall x, mask_at l' x = 0%Z) -> lp_maxfd l' = (-1)%Z) /\
     (b = true -> (forall x, mask_at l' x <> 0%Z -> (0 <= x <= lp_maxfd l')%Z) /\
        ((exists x, mask_at l' x <> 0%Z) -> mask_at l' (lp_maxfd l') <> 0%Z)) /\
     (exists k, lp_state l' = Some k /\ forall x, ad_interest k x = mask_at l' x)).
Proof.
  split_and!.
  - destruct (register_wf junk mem fd mask cb data l Hwf Hmem) as (l' & ok & E & Hwf' & _ & Hm & Hcb); [done..|].
    exists l', ok. split_and!; [done|by eapply register_answer|done..].
  - destruct (unregister_wf fd mask l Hwf) as (l' & E & Hwf' & _ & Hm); [done..|]. by exists l'.
  - intros b l' Hwf'. destruct (maxfd_spec l' Hwf') as (H1 & H2 & H3).
    split; [exact H1|]. split; [exact H2|]. split; [|exact (wf_state l' Hwf')].
    intros Hb. destruct (H3 Hb) as [H4 H5]. split; [|exact H5].
    intros x Hx. split; [by apply (mask_at_registered l' x Hwf') in Hx as [? _]|by apply H4].
Qed.

Lemma conform_heap mem fd l l' :
  fdConformStorageBounds mem fd l = Some l' ->
  lp_fdHeap l' = lp_fdHeap l /\ forall x, mask_at l' x = mask_at l x.
Proof.
  unfold fdConformStorageBounds, fdStorageResize. destruct (fdStorageOkay l fd); [by intros [= ->]|].
  destruct (growTo _ _ _) as [n|]; [|done]. cbn -[Z.eqb Z.ltb Z.leb].
  repeat (case_if; [by intros [= <-] || done|]). 
  cbn. destruct (lp_state l) as [k|]; cbn; [destruct (ad_resize n k)|]; intros [= <-]; (split; [done|]); apply mask_at_grow.
Qed.

(** Registering an empty entry inserts into the heap and refreshes [maxfd]. *)
Lemma register_heap mem fd mask cb data l l' :
  loopyNewFileEvent junk mem fd mask cb data l = Some (l', true) -> mask_at l fd = 0%Z ->
  lp_fdHeap l' = fst (heapInsert junk (fst (mem_heap mem)) (snd (mem_heap mem)) fd (lp_fdHeap l)) /\
  lp_maxfd l' = heapPeek (lp_fdHeap l').
Proof.
  unfold loopyNewFileEvent. destruct (fdConformStorageBounds mem fd l) as [l1|] eqn:E1; [|done].
  destruct (conform_heap mem fd l l1 E1) as [<- Hmask]. cbn -[ad_add updateMaxfd set_event heapInsert].
  destruct (event l1 fd) as [fe|] eqn:Ee; [|done]. cbn -[ad_add updateMaxfd set_event heapInsert].
  destruct (lp_state l1) as [k|]; [|done]. cbn -[ad_add updateMaxfd set_event heapInsert].
  destruct (ad_add _ _ _ _) as [[k' []]|]; cbn -[updateMaxfd set_event heapInsert]; [|done..].
  intros [= <-] Hz. rewrite <- Hmask in Hz. unfold mask_at in Hz. rewrite Ee in Hz. rewrite Hz.
  split; [done|by rewrite updateMaxfd_maxfd].
Qed.

Lemma heapPeek_elems h h' :
  heap_wf h -> heap_wf h' -> elems h = elems h' -> heapPeek h = heapPeek h'.
Proof.
  intros Hh Hh' He. destruct (decide (elems h = [])) as [Hz|Hz].
  - rewrite !heapPeek_empty; congruence.
  - pose proof (heapPeek_in h Hh Hz). pose proof (heapPeek_in h' Hh' ltac:(by rewrite <- He)).
    pose proof (heapPeek_max h (heapPeek h') Hh ltac:(by rewrite He)).
    pose proof (heapPeek_max h' (heapPeek h) Hh' ltac:(by rewrite <- He)). lia.
Qed.

(** A registration whose heap insertion fails for lack of memory answers as if
    it had succeeded: the table and the adapter have the descriptor, the heap
    has not, and [maxfd] stays as it was. *)
Theorem heap_refused_disagrees full mem l l' fd mask cb data
    (Hwf : loop_wf_at full l) (Hmem : mem_table mem = true) (Hfd : (0 <= fd)%Z) (Hmax : (2 * fd <= INT_MAX)%Z)
    (Hfits : ad_fits fd) (Hmask : mask_ok mask) (Hsome : mask <> 0%Z) (Hempty : mask_at l fd = 0%Z)
    (Hrefused : snd (heapInsert junk (fst (mem_heap mem)) (snd (mem_heap mem)) fd (lp_fdHeap l)) = false)
    (Hreg : loopyNewFileEvent junk mem fd mask cb data l = Some (l', true)) :
  mask_at l' fd = mask /\ fd ∉ elems (lp_fdHeap l') /\ lp_maxfd l' = lp_maxfd l.
Proof.
  destruct (register_wf junk mem fd mask cb data l Hwf Hmem) as (l1 & ok & E & _ & _ & Hm & _); [done..|].
  rewrite Hreg in E. simplify_eq. destruct (register_heap mem fd mask cb data l l1 Hreg Hempty) as [Hh Hx].
  destruct (heapInsert_contract junk (fst (mem_heap mem)) (snd (mem_heap mem)) fd _ (wf_heap l Hwf)) as [Hh1 He].
  rewrite Hrefused in He. split_and!.
  - by rewrite Hm, Z.eqb_refl, Hempty.
  - rewrite Hh, He. intros Hin%(wf_heap_elems l Hwf). done.
  - rewrite Hx, Hh, (wf_maxfd l Hwf). apply heapPeek_elems; [done|apply (wf_heap l Hwf)|done].
Qed.

(** Without memory for a larger table, growing it is undefined. *)
Theorem resize_without_memory mem setSize l
    (Hmem : mem_table mem = false) (Hgrow : (lp_setSize l < setSize)%Z) (Hmax : (lp_maxfd l < setSize)%Z) :
  fdStorageResize mem setSize l = None.
Proof.
  unfold fdStorageResize. rewrite (proj2 (Z.eqb_neq _ _)), (proj2 (Z.ltb_lt _ _)), (proj2 (Z.leb_gt _ _)) by lia.
  cbn. by rewrite Hmem.
Qed.


(** A before-sleep callback that deletes the loop makes the main loop use it
    after it is gone: a heap-allocated loop is read after being freed, a loop in
    the caller's memory is polled through its zeroed state. *)
Theorem delete_before_sleep_unsafe full user kernel monotonicUs wallUs passes mode l cb data
    (Hok : loop_ok_at full l) (Hdepth : lp_processingDepth l = 0%Z)
    (Hcb : lp_before l = Some (cb, data)) (Huser : user [CallBefore cb data] = [OpDelete]) :
  loopyDo junk user kernel monotonicUs wallUs (S passes) mode l = None.
Proof.
  unfold loopyDo. cbn -[loopyProcessEvents finish]. rewrite Hcb. cbn -[loopyProcessEvents finish loopyDelete].
  rewrite Huser. cbn -[loopyProcessEvents finish loopyDelete]. unfold run_op. cbn -[loopyProcessEvents finish loopyDelete].
  rewrite (wf_alive l (ok_wf l Hok)). destruct (wf_state l (ok_wf l Hok)) as (k & Hk & _).
  unfold loopyDelete. cbn -[loopyProcessEvents finish]. rewrite Hk, Hdepth. cbn -[loopyProcessEvents finish].
  unfold alive, destroy. cbn -[loopyProcessEvents finish].
  by destruct (lp_allocated l).
Qed.

(** [fd] is not registered by the call. *)
Definition no_register (fd : Z) (op : loop_op) : Prop :=
  match op with
  | OpRegister _ x _ _ _ | OpRegisterWriteIfNoneExists _ x _ _ => x <> fd
  | _ => True
  end.

(** The call is not a file callback for [fd]. *)
Definition not_for (fd : Z) (c : call) : Prop :=
  match c with CallRead x _ _ _ | CallWrite x _ _ _ => x <> fd | _ => True end.

Context {full : bool}.
Notation loop_ok := (loop_ok_at full).
Notation op_safe := (op_safe_at full).
Notation user_safe := (user_safe_at full).

Lemma register_mask mem x mask cb data l l' ok fd :
  loop_ok l -> op_safe true (OpRegister mem x mask cb data) -> x <> fd -> mask_at l fd = 0%Z ->
  loopyNewFileEvent junk mem x mask cb data l = Some (l', ok) -> mask_at l' fd = 0%Z.
Proof.
  intros Hok ((Ht & _) & ? & ? & ? & ? & ?) Hne Hz E.
  destruct (register_wf junk mem x mask cb data l (ok_wf l Hok) Ht) as (l1 & ok1 & E1 & _ & _ & Hm & _); [done..|].
  rewrite E in E1. simplify_eq. rewrite Hm, (proj2 (Z.eqb_neq fd x)) by done. by rewrite andb_false_r.
Qed.

Lemma run_op_mask d op l l' fd :
  loop_ok l -> op_safe d op -> (d = true -> (0 < lp_processingDepth l)%Z) -> no_register fd op ->
  mask_at l fd = 0%Z -> run_op junk op l = Some l' -> mask_at l' fd = 0%Z.
Proof.
  intros Hok Hs Hd Hn Hz. pose proof (ok_wf l Hok) as Hwf. unfold run_op. rewrite (wf_alive l Hwf).
  destruct op as [mem x mask cb data|mem x cb data|x mask|mem n|cb data|cb data|a b cb data|id| |];
    cbn -[loopyNewFileEvent loopyRegisterWriteIfNoneExists loopyDelete] in *; try done.
  - destruct (loopyNewFileEvent _ _ _ _ _ _ _) as [[l1 ok]|] eqn:E; [|done]. intros [= <-].
    by eapply register_mask.
  - destruct Hs as (Hmem & H0 & Hi & Hf). unfold loopyRegisterWriteIfNoneExists.
    destruct (conform_wf mem x l Hwf (proj1 Hmem)) as (l1 & E1 & Hwf1 & _ & Hm1 & Hctl1); [done..|]. rewrite E1.
    cbn -[loopyRegisterWrite]. destruct (event l1 x) as [fe|]; [|done]. cbn -[loopyRegisterWrite].
    destruct (isWrite _); [intros [= <-]; by rewrite Hm1|]. unfold loopyRegisterWrite.
    destruct (loopyNewFileEvent _ _ _ _ _ _ _) as [[l2 ok]|] eqn:E; [|done]. intros [= <-].
    eapply (register_mask mem x LOOPY_ACTION_WRITE cb data l1); [by eapply same_control_ok| |done|by rewrite Hm1|exact E].
    cbn. destruct Hmem. by split_and!.
  - destruct Hs as [H0 Hm]. destruct (unregister_wf x mask l Hwf H0 Hm) as (l1 & -> & _ & _ & Hm1).
    intros [= <-]. rewrite Hm1. destruct (Z.eqb_spec fd x) as [->|]; [by rewrite Hz|done].
  - intros [= <-]. exact Hz.
  - intros [= <-]. exact Hz.
  - unfold loopyRegisterTimer. destruct (tw_register _ _ _ _ _). intros [= <-]. exact Hz.
  - intros [= <-]. exact Hz.
  - destruct (wf_state l Hwf) as (k & Hk & _). unfold loopyDelete. rewrite Hk.
    rewrite (proj2 (Z.ltb_lt _ _)) by auto. intros [= <-]. exact Hz.
Qed.

Lemma run_ops_mask d ops fd : forall l,
  loop_ok l -> Forall (op_safe d) ops -> (d = true -> (0 < lp_processingDepth l)%Z) ->
  Forall (no_register fd) ops -> mask_at l fd = 0%Z ->
  exists l', run_ops junk ops l = Some l' /\ loop_ok l' /\ keeps l l' /\ mask_at l' fd = 0%Z.
Proof.
  induction ops as [|op ops IH]; intros l Hok Hs Hd Hn Hz; cbn; [by exists l; split_and!; [..|apply keeps_refl|]|].
  apply Forall_cons in Hs as [Hop Hs]. apply Forall_cons in Hn as [Hop' Hn].
  destruct (run_op_ok junk d op l Hok Hop Hd) as (l1 & E1 & Hok1 & Hk1). rewrite E1. cbn.
  destruct (IH l1 Hok1 Hs) as (l' & -> & ? & Hk & Hz'); [destruct Hk1 as [-> _]; done|done| |].
  - by apply (run_op_mask d op l l1 fd).
  - exists l'. split_and!; [done..| |done]. by eapply keeps_trans.
Qed.

Lemma invoke_mask user c l tr fd :
  user_safe user -> Forall (no_register fd) (user (c :: tr)) ->
  loop_ok l -> (0 < lp_processingDepth l)%Z -> mask_at l fd = 0%Z ->
  exists l', invoke junk user c (l, tr) = Some (l', c :: tr) /\ loop_ok l' /\ keeps l l' /\ mask_at l' fd = 0%Z.
Proof.
  intros Hu Hn Hok Hd Hz. unfold invoke.
  destruct (run_ops_mask (in_processing c) (user (c :: tr)) fd l Hok (Hu c tr)) as (l' & -> & ? & ? & ?);
    [done..|]. by exists l'.
Qed.

Lemma dispatch_one_mask user f l tr fd :
  user_safe user -> (forall h, Forall (no_register fd) (user h)) ->
  loop_ok l -> (0 < lp_processingDepth l)%Z -> (0 <= fst f < lp_setSize l)%Z -> mask_at l fd = 0%Z ->
  exists l' new, dispatch_one junk user f (l, tr) = Some (l', new ++ tr) /\ loop_ok l' /\ keeps l l' /\
    mask_at l' fd = 0%Z /\ Forall (not_for fd) new.
Proof.
  destruct f as [x mask]; cbn [fst]. intros Hu Hn Hok Hd Hx Hz. unfold dispatch_one. cbn [fst].
  destruct (event_lookup l x (ok_wf l Hok) Hx) as (fe & -> & Hfe). cbn -[invoke event Z.land Z.eqb].
  assert (Hne : forall m, Z.land (mask_at l fd) m = 0%Z) by (intros m; by rewrite Hz).
  assert (Hmid : exists fe1 l1 new,
    (if negb (Z.land (fe_mask fe) (loopyActionIsRead mask) =? 0)%Z
     then s ← invoke junk user (CallRead x (fe_readCallback fe) (fe_clientData fe) mask) (l, tr);
          fe ← event (fst s) x; Some (fe, s)
     else Some (fe, (l, tr))) = Some (fe1, (l1, new ++ tr)) /\ loop_ok l1 /\ keeps l l1 /\
     mask_at l1 fd = 0%Z /\ Forall (not_for fd) new /\ (x = fd -> fe_mask fe1 = 0%Z)).
  { destruct (Z.eqb_spec (Z.land (fe_mask fe) (loopyActionIsRead mask)) 0) as [Hr|Hr]; cbn [negb].
    - exists fe, l, []. split_and!; try done. intros ->. by rewrite Hfe.
    - assert (Hxf : x <> fd) by (intros ->; by rewrite Hfe, Hne in Hr).
      destruct (invoke_mask user (CallRead x (fe_readCallback fe) (fe_clientData fe) mask) l tr fd)
        as (l1 & -> & Hok1 & Hk1 & Hz1); [done..|].
      destruct (event_lookup l1 x (ok_wf l1 Hok1)) as (fe1 & E1 & _).
      { destruct Hk1 as (_ & _ & ? & _). lia. }
      cbn -[event]. rewrite E1. exists fe1, l1, [CallRead x (fe_readCallback fe) (fe_clientData fe) mask].
      split_and!; try done. by repeat constructor. }
  destruct Hmid as (fe1 & l1 & new & -> & Hok1 & Hk1 & Hz1 & Hf1 & Hfe1). cbn -[invoke event Z.land Z.eqb].
  destruct (Z.eqb_spec (Z.land (fe_mask fe1) (loopyActionIsWrite mask)) 0) as [Hw|Hw]; cbn [negb].
  - by exists l1, new.
  - assert (Hxf : x <> fd) by (intros Hx1; by rewrite (Hfe1 Hx1) in Hw).
    destruct (invoke_mask user (CallWrite x (fe_writeCallback fe1) (fe_clientData fe1) mask) l1 (new ++ tr) fd)
      as (l2 & -> & Hok2 & Hk2 & Hz2); [done..| |done|].
    { destruct Hk1 as [-> _]. done. }
    exists l2, (CallWrite x (fe_writeCallback fe1) (fe_clientData fe1) mask :: new).
    split_and!; [done..|by eapply keeps_trans|done|]. by constructor.
Qed.

(** A descriptor that was unregistered is left alone for the rest of the
    batch: if its entry is empty and no callback registers it again, none of
    the events still to be dispatched calls a read or write callback for it. *)
Theorem unregistered_not_called user fired l tr fd
    (Hok : loop_ok l) (Hdepth : (0 < lp_processingDepth l)%Z) (Huser : user_safe user)
    (Hfired : forall f, f ∈ fired -> (0 <= fst f < lp_setSize l)%Z)
    (Hfd : mask_at l fd = 0%Z) (Hnoreg : forall h, Forall (no_register fd) (user h)) :
  exists l' new, dispatch junk user fired (l, tr) = Some (l', new ++ tr) /\ mask_at l' fd = 0%Z /\
    Forall (not_for fd) new.
Proof.
  revert l tr Hok Hdepth Hfired Hfd. induction fired as [|f fired IH]; intros l tr Hok Hd Hf Hz.
  - by exists l, [].
  - cbn -[dispatch_one].
    destruct (dispatch_one_mask user f l tr fd Huser Hnoreg Hok Hd (Hf f (list_elem_of_here _ _)) Hz)
      as (l1 & new1 & -> & Hok1 & Hk1 & Hz1 & Hn1). cbn.
    destruct (IH l1 (new1 ++ tr) Hok1) as (l2 & new2 & -> & ? & ?).
    + destruct Hk1 as [-> _]. done.
    + intros g Hg. destruct Hk1 as (_ & _ & ? & _). specialize (Hf g ltac:(by constructor)). lia.
    + done.
    + exists l2, (new2 ++ new1). split_and!; [by rewrite app_assoc|done|]. by apply Forall_app.
Qed.

(** The table grows by doubling: for a descriptor below 2^30 the new size is
    the old one times a power of two, above the descriptor and, when it
    changed, at most twice it; a table of size 0 never becomes large enough, so
    the loop in the code does not end. *)
Theorem table_growth newSize fd (Hfd : (0 <= fd)%Z) (Hmax : (2 * fd <= INT_MAX)%Z) :
  ((1 <= newSize)%Z -> exists n j, growTo 32 newSize fd = Some n /\ n = (newSize * 2 ^ Z.of_nat j)%Z /\
     (fd < n)%Z /\ (n = newSize \/ n <= 2 * fd)%Z) /\
  (forall fuel, growTo fuel 0 fd = None).
Proof.
  split.
  - intros H1. destruct (growTo_spec 32 newSize fd) as (n & E & ? & ? & ? & j & ?); [done|done| |].
    { change (2 ^ Z.of_nat 32)%Z with 4294967296%Z. unfold INT_MAX in *. lia. }
    by exists n, j.
  - intros fuel. induction fuel as [|fuel IH]; cbn [growTo]; rewrite (proj2 (Z.leb_le 0 fd)) by lia; [done|].
    by rewrite Z.mul_0_l, IH.
Qed.
End Properties.

(** ** Properties of the two adapters *)

Section Hangup.
Context {E : Type} `{!EpollKernel E} {T : Type} `{!TimerWheel T}.
Variable junk : Z.

(** The epoll adapter reports a hang-up, or an error, as writability: when
    [epoll_wait] returns [EPOLLHUP] or [EPOLLERR] alone for a descriptor watched
    for reading only, no callback runs and the loop's table and the kernel's
    interest are unchanged, so the condition is reported again at once. *)
Theorem hangup_not_delivered full user (kernel : E -> list call -> ad_answer (K := E)) wallUs tv (l : loopyLoop E T) tr k fd events
    (Hok : loop_ok_at full l) (Hk : lp_state l = Some k)
    (Hev : events = EPOLLHUP \/ events = EPOLLERR \/ events = Z.lor EPOLLHUP EPOLLERR)
    (Hkernel : (kernel k tr : list (Z * Z)) = [(fd, events)]) (Hread : mask_at l fd = LOOPY_ACTION_READ) :
  exists l', poll_and_dispatch junk user kernel wallUs tv (l, tr) = Some (l', CallPoll tv :: tr, 1) /\
    lp_events l' = lp_events l /\ lp_state l' = lp_state l /\ lp_stop l' = lp_stop l.
Proof.
  assert (Hne : mask_at l fd <> 0%Z) by (by rewrite Hread).
  apply (mask_at_registered l fd (ok_wf l Hok)) in Hne.
  destruct (event_lookup l fd (ok_wf l Hok) Hne) as (fe & He & Hfe).
  assert (Hm : epollMask events = LOOPY_ACTION_WRITE) by (destruct Hev as [-> | [-> | ->]]; done).
  assert (Hone : forall (l' : loopyLoop E T) tr', lp_events l' = lp_events l ->
    dispatch_one junk user (fd, epollMask events) (l', tr') = Some (l', tr')).
  { intros l' tr' Hl'. unfold dispatch_one. cbn [fst].
    assert (He' : event l' fd = Some fe) by (unfold event in *; by rewrite Hl').
    rewrite He'. cbn -[invoke event Z.land Z.eqb]. rewrite Hfe, Hread, Hm.
    change (negb (Z.land LOOPY_ACTION_READ (loopyActionIsRead LOOPY_ACTION_WRITE) =? 0)%Z) with false.
    cbn -[invoke Z.land Z.eqb]. rewrite Hfe, Hread. done. }
  unfold poll_and_dispatch, poll. rewrite Hk. cbn -[dispatch epollPoll epollMask]. rewrite Hkernel.
  cbn -[dispatch_one epollMask]. rewrite Hone by done. cbn. eexists. split; [reflexivity|]. done.
Qed.
End Hangup.

Section Select.
Context {T : Type} `{!TimerWheel T}.
Variable junk : Z.

(** With the [select] adapter a descriptor of [FD_SETSIZE] or more is written
    outside the [fd_set]: the table grows, the adapter's refusal of the larger
    size is ignored, and the registration goes on to [FD_SET]. *)
Theorem select_fd_out_of_range full mem (l : loopyLoop fdSets T) fd cb data
    (Hwf : loop_wf_at full l) (Hmem : mem_table mem = true) (Hbig : (FD_SETSIZE <= fd)%Z) (Hmax : (2 * fd <= INT_MAX)%Z) :
  loopyRegisterRead junk mem fd cb data l = None /\
  (forall setSize k, (fd < setSize)%Z -> snd (ad_resize setSize (k : fdSets)) = false).
Proof.
  split.
  - assert (H0 : (0 <= fd)%Z) by (unfold FD_SETSIZE in *; lia).
    destruct (conform_wf mem fd l Hwf Hmem H0 Hmax) as (l1 & E1 & Hwf1 & Hlt & _).
    unfold loopyRegisterRead, loopyNewFileEvent. rewrite E1. cbn -[updateMaxfd set_event selectAddEvent].
    destruct (event_lookup l1 fd Hwf1) as (fe & -> & _); [lia|]. cbn -[updateMaxfd set_event selectAddEvent].
    destruct (wf_state l1 Hwf1) as (k & -> & _). cbn -[updateMaxfd set_event selectAddEvent].
    unfold selectAddEvent, fdOp. cbn -[updateMaxfd set_event Z.leb Z.ltb].
    rewrite (proj2 (Z.ltb_ge fd FD_SETSIZE)) by lia. by rewrite andb_false_r.
  - intros setSize k Hlt. cbn. unfold selectResize.
    by rewrite (proj2 (Z.leb_le FD_SETSIZE setSize)) by lia.
Qed.
End Select.

(** ** Concrete loops *)

(** A list of (start, (callback, data)) as a timer wheel. *)
#[export] Instance list_wheel : TimerWheel (list (Z * (Z * Z))) := {
  tw_new := [];
  tw_register start _ cb data t := (t ++ [(start, (cb, data))], Z.of_nat (length t));
  tw_unregister _ t := (t, false);
  tw_next t := match t with [] => 0%Z | (start, _) :: _ => start end;
  tw_process now t := (filter (fun e => (now < e.1)%Z) t, (filter (fun e => (e.1 <= now)%Z) t).*2)
}.

Notation epoll_loop := (loopyLoop (gmap Z Z) (list (Z * (Z * Z)))).

Lemma new_epoll_loop :
  exists l : epoll_loop, loop_ok_at true l /\ lp_processingDepth l = 0%Z /\ lp_setSize l = 4%Z.
Proof.
  destruct (loopyNew_wf (K := gmap Z Z) (T := list (Z * (Z * Z))) 4 ∅) as (l & _ & Hok & Hd & Hs & _); [lia|done|].
  by exists l.
Qed.

(** A user whose only action is to delete the loop in the read callback. *)
Definition delete_on_read (tr : list call) : list loop_op :=
  match tr with CallRead _ _ _ _ :: _ => [OpDelete] | _ => [] end.

Lemma delete_on_read_safe : user_safe_at (K := gmap Z Z) true delete_on_read.
Proof. intros [] tr; repeat constructor. Qed.

Definition no_events : gmap Z Z -> list call -> ad_answer (K := gmap Z Z) := fun _ _ => ([] : list (Z * Z)).
Definition hup_on_3 : gmap Z Z -> list call -> ad_answer (K := gmap Z Z) :=
  fun _ _ => ([(3%Z, EPOLLHUP)] : list (Z * Z)).
Definition clock0 : nat -> list call -> Z := fun _ _ => 0%Z.

Lemma registration_consistent_witness :
  exists (l l' : epoll_loop) ok, loopyNewFileEvent 0 mem_ok 3 LOOPY_ACTION_READ 7 8 l = Some (l', ok) /\ loop_wf_at true l'.
Proof.
  destruct new_epoll_loop as (l & Hok & _).
  destruct (registration_consistent 0 true mem_ok l 3 LOOPY_ACTION_READ 7 8 (ok_wf l Hok) eq_refl ltac:(lia) ltac:(unfold INT_MAX; lia) I
    ltac:(cbv; by split) ltac:(done)) as [(l' & ok & E & _ & Hwf & _) _].
  exists l, l', ok. by split.
Defined.

(** With a table of 4 entries and no memory for the heap's map, descriptor 20 is
    registered and [maxfd] stays -1: the loop does not poll for it. *)
Lemma heap_refused_disagrees_witness :
  exists l l' : epoll_loop,
    loopyNewFileEvent 0 (LoopMem true (true, false)) 20 LOOPY_ACTION_READ 7 8 l = Some (l', true) /\
    mask_at l' 20 = LOOPY_ACTION_READ /\ lp_maxfd l' = (-1)%Z.
Proof.
  destruct (loopyNew_wf (K := gmap Z Z) (T := list (Z * (Z * Z))) 4 ∅) as (l & El & Hok & _); [lia|done|].
  vm_compute in El. injection El as El.
  destruct (loopyNewFileEvent 0 (LoopMem true (true, false)) 20 LOOPY_ACTION_READ 7 8 l) as [[l' ok]|] eqn:E;
    [|by rewrite <- El in E; vm_compute in E].
  assert (ok = true) as -> by (rewrite <- El in E; vm_compute in E; by injection E).
  destruct (heap_refused_disagrees 0 true (LoopMem true (true, false)) l l' 20 LOOPY_ACTION_READ 7 8 (ok_wf l Hok))
    as (Hm & _ & Hx); try done.
  - by rewrite <- El.
  - by rewrite <- El.
  - exists l, l'. split; [exact E|]. split; [exact Hm|]. rewrite Hx. by rewrite <- El.
Defined.

Lemma resize_without_memory_witness :
  fdStorageResize (LoopMem false (true, true)) 8 (zeroLoop <| lp_setSize := 4%Z |> : epoll_loop) = None.
Proof. apply resize_without_memory; [done|cbn; lia|cbn; lia]. Defined.


Lemma delete_before_sleep_unsafe_witness :
  exists l : epoll_loop, loop_ok_at true l /\
    loopyDo 0 (fun _ => [OpDelete]) no_events clock0 clock0 1 LOOPY_EVENTS_ALL l = None.
Proof.
  destruct new_epoll_loop as (l & Hok & Hd & _).
  assert (Hok' : loop_ok_at true (loopySetBeforeSleepCallback 5 6 l)).
  { apply (control_ok l); try done. intros E. cbn in *. destruct (ok_pending l Hok E). lia. }
  exists (loopySetBeforeSleepCallback 5 6 l). split; [exact Hok'|].
  apply (delete_before_sleep_unsafe 0 true (fun _ => [OpDelete]) no_events clock0 clock0 0
    LOOPY_EVENTS_ALL (loopySetBeforeSleepCallback 5 6 l) 5 6); [exact Hok'|exact Hd|reflexivity|reflexivity].
Defined.

Lemma unregistered_not_called_witness :
  exists (l l' : epoll_loop) new, dispatch 0 delete_on_read [(2%Z, 1%Z); (3%Z, 3%Z)] (l, []) = Some (l', new ++ []) /\
    Forall (not_for 3) new.
Proof.
  destruct (loopyNew_wf (K := gmap Z Z) (T := list (Z * (Z * Z))) 4 ∅) as (l0 & El & Hok0 & Hd & Hs & _); [lia|done|].
  assert (Hz : mask_at l0 3 = 0%Z).
  { unfold loopyNew in El. vm_compute in El. by injection El as <-. }
  set (l := l0 <| lp_processingDepth := 1%Z |>).
  assert (Hok : loop_ok_at true l).
  { apply (control_ok l0); try done. intros E. destruct (ok_pending l0 Hok0 E). cbn in *. lia. }
  destruct (unregistered_not_called 0 delete_on_read [(2%Z, 1%Z); (3%Z, 3%Z)] l [] 3 Hok) as (l' & new & E & _ & Hn).
  - cbn; lia.
  - exact delete_on_read_safe.
  - intros f [->|[->|?%elem_of_nil]%elem_of_cons]%elem_of_cons; cbn; lia || done.
  - exact Hz.
  - intros [|[] h]; repeat constructor.
  - exists l, l', new. by split.
Defined.

Lemma table_growth_witness : exists n j, growTo 32 16 100000 = Some n /\ n = (16 * 2 ^ Z.of_nat j)%Z /\ (100000 < n)%Z.
Proof.
  destruct (table_growth 16 100000 ltac:(lia) ltac:(unfold INT_MAX; lia)) as [P _].
  destruct (P ltac:(lia)) as (n & j & ? & ? & ? & _). by exists n, j.
Defined.

Lemma hangup_not_delivered_witness :
  exists l l' : epoll_loop, mask_at l 3 = LOOPY_ACTION_READ /\
    poll_and_dispatch 0 (fun _ => []) hup_on_3 clock0 None (l, []) = Some (l', [CallPoll None], 1).
Proof.
  destruct (loopyNew_wf (K := gmap Z Z) (T := list (Z * (Z * Z))) 4 ∅) as (l0 & El & Hok0 & _); [lia|done|].
  destruct (register_ok (full := true) 0 mem_ok 3 LOOPY_ACTION_READ 7 8 l0) as (l & ok & Er & Hok & _);
    [done|done|lia|unfold INT_MAX; lia|done|by cbv; split|done|].
  assert (Hm : mask_at l 3 = LOOPY_ACTION_READ).
  { vm_compute in El. injection El as <-. vm_compute in Er. by injection Er as <- _. }
  destruct (wf_state l (ok_wf l Hok)) as (k & Hk & _).
  destruct (hangup_not_delivered 0 true (fun _ => []) hup_on_3 clock0 None l [] k 3 EPOLLHUP Hok Hk
    ltac:(by left) eq_refl Hm) as (l' & E & _).
  exists l, l'. by split.
Defined.

Lemma select_fd_out_of_range_witness :
  exists l : loopyLoop fdSets (list (Z * (Z * Z))), loop_wf_at true l /\ loopyRegisterRead 0 mem_ok 1024 7 8 l = None.
Proof.
  destruct (loopyNew_wf (K := fdSets) (T := list (Z * (Z * Z))) 4 (FdSets ∅ ∅)) as (l & _ & Hok & _); [lia|done|].
  exists l. split; [exact (ok_wf l Hok)|].
  destruct (select_fd_out_of_range 0 true mem_ok l 1024 7 8 (ok_wf l Hok) eq_refl) as [P _]; [unfold FD_SETSIZE; lia|unfold INT_MAX; lia|]. exact P.
Defined.
