(* ===== verification/Doubles.v ===== *)
(** * C [double]s

    The type [double] and the operators the rate limiter applies to it, as
    IEEE 754 binary64 with rounding to nearest: the computable specification
    of the Standard Library ([SpecFloat]) at precision 53.  Nothing here is
    primitive or axiomatic, so examples evaluate. *)

From S2P Require Import Prelude.
From Stdlib Require Import Floats.SpecFloat.

Declare Scope double_scope.
Delimit Scope double_scope with D.

Definition double := spec_float.
Definition dprec : Z := 53.
Definition demax : Z := 1024.

(** [(double)n] of an integer; a literal such as [1000.0] is one. *)
Definition double_of (n : Z) : double := binary_normalize dprec demax n 0 false.

Notation "x +d y" := (SFadd dprec demax x y) (at level 50, left associativity) : double_scope.
Notation "x -d y" := (SFsub dprec demax x y) (at level 50, left associativity) : double_scope.
Notation "x *d y" := (SFmul dprec demax x y) (at level 40, left associativity) : double_scope.
Notation "x /d y" := (SFdiv dprec demax x y) (at level 40, left associativity) : double_scope.
Notation "x <=d y" := (SFleb x y) (at level 70) : double_scope.
Notation "x <d y" := (SFltb x y) (at level 70) : double_scope.
Open Scope double_scope.

Definition is_nan (x : double) : bool := match x with S754_nan => true | _ => false end.

(** [fmin]: the other argument when one is a NaN. *)
Definition fmin (x y : double) : double :=
  if is_nan x then y else if is_nan y then x else if x <=d y then x else y.

(** The integer a conversion to an integer type truncates to, where there is
    one. *)
Definition dtrunc (x : double) : option Z :=
  match x with
  | S754_zero _ => Some 0%Z
  | S754_finite s m e =>
      let a := if (0 <=? e)%Z then (Zpos m * 2 ^ e)%Z else (Zpos m / 2 ^ (- e))%Z in
      Some (if s then (- a)%Z else a)
  | S754_infinity _ | S754_nan => None
  end.

(** [(uint64_t)x].  C leaves the conversion of a value out of range undefined:
    [wild] is what the compiled code makes of it. *)
Definition u64_of_double (wild : double -> Z) (x : double) : Z :=
  match dtrunc x with
  | Some z => if (0 <=? z)%Z && (z <? w64)%Z then z else u64 (wild x)
  | None => u64 (wild x)
  end.

Lemma u64_of_double_range wild x : in64 (u64_of_double wild x).
Proof.
  unfold u64_of_double. case_match; [case_if|]; auto with loopy. unfold in64. lia.
Qed.

#[export] Hint Resolve u64_of_double_range : loopy.

(** ** The order of doubles *)

Lemma SFleb_nan_l x y : (x <=d y) = true -> is_nan x = false.
Proof. by destruct x. Qed.

Lemma SFleb_nan_r x y : (x <=d y) = true -> is_nan y = false.
Proof. by destruct x, y. Qed.

Lemma SFleb_refl x : is_nan x = false -> (x <=d x) = true.
Proof.
  destruct x as [b|b| |b m e]; unfold SFleb, SFcompare; try done.
  - by destruct b.
  - by destruct b; rewrite Z.compare_refl, Pos.compare_refl.
Qed.

Lemma SFleb_total x y : is_nan x = false -> is_nan y = false -> (x <=d y) = false -> (y <=d x) = true.
Proof.
  destruct x as [b|b| |b m e], y as [b'|b'| |b' m' e']; unfold SFleb, SFcompare; try done;
    destruct b; try destruct b'; try done; intros _ _;
    destruct (Z.compare_spec e e'), (Z.compare_spec e' e); try done; try (exfalso; lia);
    change (PosDef.Pos.compare_cont Eq) with Pos.compare;
    destruct (Pos.compare_spec m m'), (Pos.compare_spec m' m); (done || (exfalso; lia)).
Qed.

Lemma SFleb_trans x y z : (x <=d y) = true -> (y <=d z) = true -> (x <=d z) = true.
Proof.
  destruct x as [b|b| |b m e], y as [b'|b'| |b' m' e'], z as [b''|b''| |b'' m'' e''];
    unfold SFleb, SFcompare; try done; destruct b; try destruct b'; try destruct b''; try done;
    destruct (Z.compare_spec e e'), (Z.compare_spec e' e''), (Z.compare_spec e e''); try done; try (exfalso; lia);
    change (PosDef.Pos.compare_cont Eq) with Pos.compare;
    destruct (Pos.compare_spec m m'), (Pos.compare_spec m' m''), (Pos.compare_spec m m''); (done || (exfalso; lia)).
Qed.

Lemma fmin_le_l x y : is_nan x = false -> (fmin x y <=d x) = true.
Proof.
  intros Hx. unfold fmin. rewrite Hx. destruct (is_nan y) eqn:Hy; [by apply SFleb_refl|].
  destruct (x <=d y) eqn:E; [by apply SFleb_refl|]. by apply SFleb_total.
Qed.
