(* ===== verification/RateLimit.v ===== *)
(** * Rate limiting ([src/loopyRateLimit.c], first half)

    The four algorithms (token bucket, sliding window log, leaky bucket,
    fixed window), the limiter that dispatches to one of them and its
    statistics.  The concurrency limiter of the same C file is in
    [Concurrency.v].

    Every call of [getNowUs] or [getNowMs] is an argument: the reading of the
    monotonic clock at that point of the code, in microseconds or
    milliseconds.  The [info] argument of the C functions may be [NULL]; the
    definitions always return what would be stored through it.  A critical
    section of a bucket's mutex is one definition; the fixed window, whose
    counter is updated outside its mutex, is also a step relation of its
    threads. *)

From S2P Require Import Prelude Doubles.

Set Default Proof Using "Type".

(** ** Results and configurations *)

Inductive loopyRateLimitResult :=
  LOOPY_RATE_LIMIT_ALLOWED | LOOPY_RATE_LIMIT_ERROR | LOOPY_RATE_LIMIT_DENIED.

#[export] Instance loopyRateLimitResult_eq_dec : EqDecision loopyRateLimitResult.
Proof. solve_decision. Defined.

(** [allowed ? LOOPY_RATE_LIMIT_ALLOWED : LOOPY_RATE_LIMIT_DENIED] *)
Definition answer (allowed : bool) : loopyRateLimitResult :=
  if allowed then LOOPY_RATE_LIMIT_ALLOWED else LOOPY_RATE_LIMIT_DENIED.

Record loopyRateLimitInfo := RateLimitInfo {
  info_allowed : bool;
  retryAfterMs : Z;
  remaining : double;
  info_limit : double;
  resetMs : Z
}.

Record loopyTokenBucketConfig := TokenBucketConfig {
  tbc_capacity : double;
  tbc_refillRate : double;
  tbc_tokensPerRequest : double;
  tbc_initialTokens : double
}.

Record loopySlidingWindowConfig := SlidingWindowConfig {
  swc_windowMs : Z;
  swc_maxRequests : Z;
  swc_maxEntries : nat
}.

Record loopyLeakyBucketConfig := LeakyBucketConfig {
  lbc_drainRate : double;
  lbc_queueCapacity : Z
}.

Record loopyFixedWindowConfig := FixedWindowConfig {
  fwc_windowMs : Z;
  fwc_maxRequests : Z
}.

Definition SLIDING_WINDOW_DEFAULT_MAX_ENTRIES : nat := Z.to_nat 10000.
Definition MICROSECONDS_PER_SECOND : double := double_of 1000000.
Definition MILLISECONDS_PER_SECOND : double := double_of 1000.

Definition getNowUs (tv_sec tv_nsec : Z) : Z := tv_sec *64 1000000 +64 (tv_nsec / 1000).
Definition getNowMs (us : Z) : Z := (us / 1000)%Z.

Definition loopyTokenBucketConfigInit (rate burst : double) : loopyTokenBucketConfig :=
  TokenBucketConfig burst rate (double_of 1) burst.
Definition loopySlidingWindowConfigInit (windowMs maxRequests : Z) : loopySlidingWindowConfig :=
  SlidingWindowConfig windowMs maxRequests SLIDING_WINDOW_DEFAULT_MAX_ENTRIES.
Definition loopyLeakyBucketConfigInit (drainRate : double) (queueCapacity : Z) : loopyLeakyBucketConfig :=
  LeakyBucketConfig drainRate queueCapacity.
Definition loopyFixedWindowConfigInit (windowMs maxRequests : Z) : loopyFixedWindowConfig :=
  FixedWindowConfig windowMs maxRequests.

(** ** Token bucket *)

Section Buckets.
(** What a conversion of an out-of-range [double] to [uint64_t] gives. *)
Variable wild : double -> Z.

Record loopyTokenBucket := TokenBucket {
  tokens : double;
  tb_capacity : double;
  refillRate : double;
  tokensPerRequest : double;
  lastRefillUs : Z
}.

#[local] Instance TokenBucket_rebuild : Rebuild loopyTokenBucket := fun b =>
  TokenBucket (tokens b) (tb_capacity b) (refillRate b) (tokensPerRequest b) (lastRefillUs b).

Definition tokenBucketInit (config : loopyTokenBucketConfig) (now : Z) : loopyTokenBucket :=
  TokenBucket
    (if double_of 0 <=d tbc_initialTokens config then tbc_initialTokens config
     else tbc_capacity config)
    (tbc_capacity config) (tbc_refillRate config)
    (if double_of 0 <d tbc_tokensPerRequest config then tbc_tokensPerRequest config
     else double_of 1)
    now.

Definition tokenBucketRefill (tb : loopyTokenBucket) (now : Z) : loopyTokenBucket :=
  let elapsedSec := double_of (now -64 lastRefillUs tb) /d MICROSECONDS_PER_SECOND in
  let newTokens := elapsedSec *d refillRate tb in
  let tb := tb <| tokens := fmin (tb_capacity tb) (tokens tb +d newTokens) |> in
  tb <| lastRefillUs := now |>.

(** [retryAfterMs] of a bucket that lacks tokens for [cost]. *)
Definition tokenRetry (tb : loopyTokenBucket) (cost : double) (allowed : bool) : Z :=
  if negb allowed && (double_of 0 <d refillRate tb) then
    let needed := cost -d tokens tb in
    u64_of_double wild (needed /d refillRate tb *d MILLISECONDS_PER_SECOND)
  else 0%Z.

(** [actualCost] *)
Definition tokenCost (tb : loopyTokenBucket) (cost : double) : double :=
  if double_of 0 <d cost then cost else tokensPerRequest tb.

Definition tokenBucketCheck (tb : loopyTokenBucket) (cost : double) (now : Z)
    : loopyTokenBucket * loopyRateLimitResult * loopyRateLimitInfo :=
  let tb := tokenBucketRefill tb now in
  let actualCost := tokenCost tb cost in
  let allowed := actualCost <=d tokens tb in
  let info := RateLimitInfo allowed (tokenRetry tb actualCost allowed) (tokens tb)
                (tb_capacity tb) 0 in
  let tb := if allowed then tb <| tokens ::= fun t => t -d actualCost |> else tb in
  (tb, answer allowed, info).

Definition tokenBucketPeek (tb : loopyTokenBucket) (now : Z)
    : loopyTokenBucket * loopyRateLimitResult * loopyRateLimitInfo :=
  let tb := tokenBucketRefill tb now in
  let allowed := tokensPerRequest tb <=d tokens tb in
  (tb, answer allowed,
   RateLimitInfo allowed (tokenRetry tb (tokensPerRequest tb) allowed) (tokens tb)
     (tb_capacity tb) 0).

Definition tokenBucketReset (tb : loopyTokenBucket) (now : Z) : loopyTokenBucket :=
  tb <| tokens := tb_capacity tb |> <| lastRefillUs := now |>.

(** ** Leaky bucket *)

Record loopyLeakyBucket := LeakyBucket {
  queueSize : Z;
  queueCapacity : Z;
  drainRate : double;
  lastDrainUs : Z;
  partialDrain : double
}.

#[local] Instance LeakyBucket_rebuild : Rebuild loopyLeakyBucket := fun b =>
  LeakyBucket (queueSize b) (queueCapacity b) (drainRate b) (lastDrainUs b) (partialDrain b).

Definition leakyBucketInit (config : loopyLeakyBucketConfig) (now : Z) : loopyLeakyBucket :=
  LeakyBucket 0 (lbc_queueCapacity config) (lbc_drainRate config) now (double_of 0).

Definition leakyBucketDrain (lb : loopyLeakyBucket) (now : Z) : loopyLeakyBucket :=
  let elapsedSec := double_of (now -64 lastDrainUs lb) /d MICROSECONDS_PER_SECOND in
  let drainAmount := elapsedSec *d drainRate lb +d partialDrain lb in
  let wholeDrain := u64_of_double wild drainAmount in
  let lb := lb <| partialDrain := drainAmount -d double_of wholeDrain |> in
  let lb :=
    if (wholeDrain >? queueSize lb)%Z then lb <| queueSize := 0%Z |>
    else lb <| queueSize ::= fun n => n -64 wholeDrain |> in
  lb <| lastDrainUs := now |>.

Definition leakyRetry (lb : loopyLeakyBucket) (allowed : bool) : Z :=
  if negb allowed && (double_of 0 <d drainRate lb) then
    u64_of_double wild (double_of 1 /d drainRate lb *d MILLISECONDS_PER_SECOND)
  else 0%Z.

Definition leakyBucketCheck (lb : loopyLeakyBucket) (now : Z)
    : loopyLeakyBucket * loopyRateLimitResult * loopyRateLimitInfo :=
  let lb := leakyBucketDrain lb now in
  let allowed := (queueSize lb <? queueCapacity lb)%Z in
  let reset :=
    if (0 <? queueSize lb)%Z && (double_of 0 <d drainRate lb) then
      u64_of_double wild (double_of (queueSize lb) /d drainRate lb *d MILLISECONDS_PER_SECOND)
    else 0%Z in
  let info := RateLimitInfo allowed (leakyRetry lb allowed)
                (double_of (queueCapacity lb -64 queueSize lb)) (double_of (queueCapacity lb)) reset in
  let lb := if allowed then lb <| queueSize ::= fun n => n +64 1 |> else lb in
  (lb, answer allowed, info).

Definition leakyBucketPeek (lb : loopyLeakyBucket) (now : Z)
    : loopyLeakyBucket * loopyRateLimitResult * loopyRateLimitInfo :=
  let lb := leakyBucketDrain lb now in
  let allowed := (queueSize lb <? queueCapacity lb)%Z in
  (lb, answer allowed,
   RateLimitInfo allowed (leakyRetry lb allowed) (double_of (queueCapacity lb -64 queueSize lb))
     (double_of (queueCapacity lb)) 0).

Definition leakyBucketReset (lb : loopyLeakyBucket) (now : Z) : loopyLeakyBucket :=
  lb <| queueSize := 0%Z |> <| partialDrain := double_of 0 |> <| lastDrainUs := now |>.

End Buckets.

#[export] Existing Instances TokenBucket_rebuild LeakyBucket_rebuild.

(** ** Sliding window *)

Record loopySlidingWindow := SlidingWindow {
  entries : list Z;              (* the timestamps, in milliseconds *)
  sw_capacity : nat;
  sw_head : nat;
  sw_tail : nat;
  sw_count : nat;
  sw_windowMs : Z;
  sw_maxRequests : Z
}.

#[export] Instance SlidingWindow_rebuild : Rebuild loopySlidingWindow := fun w =>
  SlidingWindow (entries w) (sw_capacity w) (sw_head w) (sw_tail w) (sw_count w)
    (sw_windowMs w) (sw_maxRequests w).

(** The C function does not test the allocation. *)
Definition slidingWindowInit (config : loopySlidingWindowConfig) : loopySlidingWindow :=
  let capacity := if 0 <? swc_maxEntries config then swc_maxEntries config
                  else SLIDING_WINDOW_DEFAULT_MAX_ENTRIES in
  SlidingWindow (replicate capacity 0%Z) capacity 0 0 0 (swc_windowMs config)
    (swc_maxRequests config).

(** The [while] loop of [slidingWindowPrune]; it runs at most [count] times. *)
Fixpoint pruneLoop (fuel : nat) (cutoff : Z) (sw : loopySlidingWindow) : loopySlidingWindow :=
  match fuel with
  | O => sw
  | S fuel =>
      if (0 <? sw_count sw)%nat then
        if (cutoff <=? entries sw !!! sw_tail sw)%Z then sw
        else
          let sw := sw <| sw_tail := (sw_tail sw + 1) mod sw_capacity sw |> in
          pruneLoop fuel cutoff (sw <| sw_count := sw_count sw - 1 |>)
      else sw
  end.

Definition slidingCutoff (sw : loopySlidingWindow) (now : Z) : Z :=
  if (now >? sw_windowMs sw)%Z then now -64 sw_windowMs sw else 0%Z.

Definition slidingWindowPrune (sw : loopySlidingWindow) (now : Z) : loopySlidingWindow :=
  pruneLoop (sw_count sw) (slidingCutoff sw now) sw.

Definition slidingRemaining (sw : loopySlidingWindow) : double :=
  if (sw_maxRequests sw >? Z.of_nat (sw_count sw))%Z
  then double_of (sw_maxRequests sw -64 Z.of_nat (sw_count sw)) else double_of 0.

Definition slidingRetry (sw : loopySlidingWindow) (now : Z) (allowed : bool) : Z :=
  if negb allowed && (0 <? sw_count sw)%nat then
    let oldestExpiry := entries sw !!! sw_tail sw +64 sw_windowMs sw in
    if (oldestExpiry >? now)%Z then oldestExpiry -64 now else 0%Z
  else 0%Z.

Definition slidingResetMs (sw : loopySlidingWindow) (now : Z) : Z :=
  if (0 <? sw_count sw)%nat then
    let newest := entries sw !!! ((sw_head sw + sw_capacity sw - 1) mod sw_capacity sw) in
    newest +64 sw_windowMs sw -64 now
  else sw_windowMs sw.

Definition slidingWindowCheck (sw : loopySlidingWindow) (now : Z)
    : loopySlidingWindow * loopyRateLimitResult * loopyRateLimitInfo :=
  let sw := slidingWindowPrune sw now in
  let allowed := (Z.of_nat (sw_count sw) <? sw_maxRequests sw)%Z && (sw_count sw <? sw_capacity sw)%nat in
  let info := RateLimitInfo allowed (slidingRetry sw now allowed) (slidingRemaining sw)
                (double_of (sw_maxRequests sw)) (slidingResetMs sw now) in
  let sw :=
    if allowed then
      let sw := sw <| entries ::= fun es => <[sw_head sw := now]> es |> in
      let sw := sw <| sw_head := (sw_head sw + 1) mod sw_capacity sw |> in
      sw <| sw_count := sw_count sw + 1 |>
    else sw in
  (sw, answer allowed, info).

Definition slidingWindowPeek (sw : loopySlidingWindow) (now : Z)
    : loopySlidingWindow * loopyRateLimitResult * loopyRateLimitInfo :=
  let sw := slidingWindowPrune sw now in
  let allowed := (Z.of_nat (sw_count sw) <? sw_maxRequests sw)%Z in
  (sw, answer allowed,
   RateLimitInfo allowed (slidingRetry sw now allowed) (slidingRemaining sw)
     (double_of (sw_maxRequests sw)) (sw_windowMs sw)).

Definition slidingWindowReset (sw : loopySlidingWindow) : loopySlidingWindow :=
  sw <| sw_head := 0 |> <| sw_tail := 0 |> <| sw_count := 0 |>.

(** ** Fixed window *)

Record loopyFixedWindow := FixedWindow {
  fw_count : Z;
  windowStart : Z;
  fw_windowMs : Z;
  fw_maxRequests : Z
}.

#[export] Instance FixedWindow_rebuild : Rebuild loopyFixedWindow := fun w =>
  FixedWindow (fw_count w) (windowStart w) (fw_windowMs w) (fw_maxRequests w).

Definition fixedWindowInit (config : loopyFixedWindowConfig) (now : Z) : loopyFixedWindow :=
  FixedWindow 0 now (fwc_windowMs config) (fwc_maxRequests config).

(** [now >= windowStart + fw->windowMs] *)
Definition windowOver (fw : loopyFixedWindow) (now : Z) : bool :=
  (windowStart fw +64 fw_windowMs fw <=? now)%Z.

Definition fixedWindowMaybeReset (fw : loopyFixedWindow) (now : Z) : loopyFixedWindow :=
  if windowOver fw now then
    (* under the mutex, again *)
    if windowOver fw now then fw <| fw_count := 0%Z |> <| windowStart := now |> else fw
  else fw.

Definition fixedResetMs (fw : loopyFixedWindow) (now : Z) : Z :=
  let e := windowStart fw +64 fw_windowMs fw in
  if (e >? now)%Z then e -64 now else 0%Z.

(** [now] is the reading of [fixedWindowMaybeReset], [now'] the one for
    [info]. *)
Definition fixedWindowCheck (fw : loopyFixedWindow) (now now' : Z)
    : loopyFixedWindow * loopyRateLimitResult * loopyRateLimitInfo :=
  let fw := fixedWindowMaybeReset fw now in
  let count := fw_count fw in
  let fw := fw <| fw_count ::= fun c => c +64 1 |> in
  let allowed := (count <? fw_maxRequests fw)%Z in
  let fw := if negb allowed then fw <| fw_count ::= fun c => c -64 1 |> else fw in
  let reset := fixedResetMs fw now' in
  (fw, answer allowed,
   RateLimitInfo allowed (if allowed then 0%Z else reset)
     (if allowed then double_of (fw_maxRequests fw -64 count -64 1) else double_of 0)
     (double_of (fw_maxRequests fw)) reset).

Definition fixedWindowPeek (fw : loopyFixedWindow) (now now' : Z)
    : loopyFixedWindow * loopyRateLimitResult * loopyRateLimitInfo :=
  let fw := fixedWindowMaybeReset fw now in
  let count := fw_count fw in
  let allowed := (count <? fw_maxRequests fw)%Z in
  let reset := fixedResetMs fw now' in
  (fw, answer allowed,
   RateLimitInfo allowed (if allowed then 0%Z else reset)
     (if (fw_maxRequests fw >? count)%Z then double_of (fw_maxRequests fw -64 count) else double_of 0)
     (double_of (fw_maxRequests fw)) reset).

Definition fixedWindowReset (fw : loopyFixedWindow) (now : Z) : loopyFixedWindow :=
  fw <| fw_count := 0%Z |> <| windowStart := now |>.

(** ** The limiter *)

Inductive loopyRateLimitAlgorithm :=
  LOOPY_RATE_LIMIT_TOKEN_BUCKET | LOOPY_RATE_LIMIT_SLIDING_WINDOW
| LOOPY_RATE_LIMIT_LEAKY_BUCKET | LOOPY_RATE_LIMIT_FIXED_WINDOW.

(** [algorithm] and the arm of the [union] it selects; [UnknownAlgorithm] is a
    configuration whose [algorithm] is no value of the enumeration. *)
Inductive loopyRateLimiterConfig :=
| ConfigTokenBucket (c : loopyTokenBucketConfig)
| ConfigSlidingWindow (c : loopySlidingWindowConfig)
| ConfigLeakyBucket (c : loopyLeakyBucketConfig)
| ConfigFixedWindow (c : loopyFixedWindowConfig)
| UnknownAlgorithm.

Inductive rateLimiterImpl :=
| ImplTokenBucket (b : loopyTokenBucket)
| ImplSlidingWindow (w : loopySlidingWindow)
| ImplLeakyBucket (b : loopyLeakyBucket)
| ImplFixedWindow (w : loopyFixedWindow).

Record loopyRateLimiter := RateLimiter {
  impl : rateLimiterImpl;
  totalRequests : Z;
  allowedRequests : Z;
  deniedRequests : Z;
  peakRate : Z;
  currentSecondRequests : Z;
  currentSecond : Z
}.

#[export] Instance RateLimiter_rebuild : Rebuild loopyRateLimiter := fun l =>
  RateLimiter (impl l) (totalRequests l) (allowedRequests l) (deniedRequests l) (peakRate l)
    (currentSecondRequests l) (currentSecond l).

(** [t] is the clock in microseconds. *)
Definition loopyRateLimiterNew (alloc : bool) (config : option loopyRateLimiterConfig) (t : Z)
    : option loopyRateLimiter :=
  match config with
  | None => None
  | Some config =>
      if negb alloc then None
      else
        let limiter i := Some (RateLimiter i 0 0 0 0 0 0) in
        match config with
        | ConfigTokenBucket c => limiter (ImplTokenBucket (tokenBucketInit c t))
        | ConfigSlidingWindow c => limiter (ImplSlidingWindow (slidingWindowInit c))
        | ConfigLeakyBucket c => limiter (ImplLeakyBucket (leakyBucketInit c t))
        | ConfigFixedWindow c => limiter (ImplFixedWindow (fixedWindowInit c (getNowMs t)))
        | UnknownAlgorithm => None
        end
  end.

(** [nowMs] is the reading of [updateStats]. *)
Definition updateStats (limiter : loopyRateLimiter) (allowed : bool) (nowMs : Z) : loopyRateLimiter :=
  let l := limiter <| totalRequests ::= fun n => n +64 1 |> in
  let l := if allowed then l <| allowedRequests ::= fun n => n +64 1 |>
           else l <| deniedRequests ::= fun n => n +64 1 |> in
  let now := (nowMs / 1000)%Z in
  if negb (now =? currentSecond l)%Z then
    let lastCount := currentSecondRequests l in
    let l := l <| currentSecondRequests := 1%Z |> <| currentSecond := now |> in
    if (lastCount >? peakRate l)%Z then l <| peakRate := lastCount |> else l
  else l <| currentSecondRequests ::= fun n => n +64 1 |>.

Section Limiter.
Variable wild : double -> Z.

(** The dispatch on the algorithm.  [t1] and [t2] are the clock, in
    microseconds, at the first and second reading (only the fixed window reads
    it twice). *)
Definition implCheck (i : rateLimiterImpl) (cost : double) (t1 t2 : Z)
    : rateLimiterImpl * loopyRateLimitResult * loopyRateLimitInfo :=
  match i with
  | ImplTokenBucket b => let '(b, r, info) := tokenBucketCheck wild b cost t1 in (ImplTokenBucket b, r, info)
  | ImplSlidingWindow w =>
      let '(w, r, info) := slidingWindowCheck w (getNowMs t1) in (ImplSlidingWindow w, r, info)
  | ImplLeakyBucket b => let '(b, r, info) := leakyBucketCheck wild b t1 in (ImplLeakyBucket b, r, info)
  | ImplFixedWindow w =>
      let '(w, r, info) := fixedWindowCheck w (getNowMs t1) (getNowMs t2) in (ImplFixedWindow w, r, info)
  end.

Definition implPeek (i : rateLimiterImpl) (t1 t2 : Z)
    : rateLimiterImpl * loopyRateLimitResult * loopyRateLimitInfo :=
  match i with
  | ImplTokenBucket b => let '(b, r, info) := tokenBucketPeek wild b t1 in (ImplTokenBucket b, r, info)
  | ImplSlidingWindow w =>
      let '(w, r, info) := slidingWindowPeek w (getNowMs t1) in (ImplSlidingWindow w, r, info)
  | ImplLeakyBucket b => let '(b, r, info) := leakyBucketPeek wild b t1 in (ImplLeakyBucket b, r, info)
  | ImplFixedWindow w =>
      let '(w, r, info) := fixedWindowPeek w (getNowMs t1) (getNowMs t2) in (ImplFixedWindow w, r, info)
  end.

Definition loopyRateLimitCheck (limiter : option loopyRateLimiter) (cost : double) (t1 t2 t3 : Z)
    : option loopyRateLimiter * loopyRateLimitResult :=
  on_handle LOOPY_RATE_LIMIT_ERROR limiter (fun l =>
    let '(i, result, _) := implCheck (impl l) cost t1 t2 in
    let l := l <| impl := i |> in
    (updateStats l (bool_decide (result = LOOPY_RATE_LIMIT_ALLOWED)) (getNowMs t3), result)).

(** [None] as third component: nothing is stored through [info]. *)
Definition loopyRateLimitPeek (limiter : option loopyRateLimiter) (t1 t2 : Z)
    : option loopyRateLimiter * (loopyRateLimitResult * option loopyRateLimitInfo) :=
  on_handle (LOOPY_RATE_LIMIT_ERROR, None) limiter (fun l =>
    let '(i, result, info) := implPeek (impl l) t1 t2 in
    (l <| impl := i |>, (result, Some info))).

Definition loopyRateLimitCheckKey (limiter : option loopyRateLimiter) (key : bytes) (cost : double)
    (t1 t2 t3 : Z) : option loopyRateLimiter * loopyRateLimitResult :=
  loopyRateLimitCheck limiter cost t1 t2 t3.

Definition loopyRateLimitPeekKey (limiter : option loopyRateLimiter) (key : bytes) (t1 t2 : Z)
    : option loopyRateLimiter * (loopyRateLimitResult * option loopyRateLimitInfo) :=
  loopyRateLimitPeek limiter t1 t2.

Definition loopyRateLimitReset (limiter : option loopyRateLimiter) (key : bytes) (t : Z)
    : option loopyRateLimiter :=
  fst (on_handle tt limiter (fun l =>
    (l <| impl := match impl l with
                  | ImplTokenBucket b => ImplTokenBucket (tokenBucketReset b t)
                  | ImplSlidingWindow w => ImplSlidingWindow (slidingWindowReset w)
                  | ImplLeakyBucket b => ImplLeakyBucket (leakyBucketReset b t)
                  | ImplFixedWindow w => ImplFixedWindow (fixedWindowReset w (getNowMs t))
                  end |>, tt))).

(** The call of the callback is the pair of its [result] and [info]. *)
Definition loopyRateLimitCheckAsync (limiter : option loopyRateLimiter) (cost : double) (cb : bool)
    (t1 t2 t3 t4 t5 : Z)
    : option loopyRateLimiter * bool * list (loopyRateLimitResult * option loopyRateLimitInfo) :=
  match limiter with
  | None => (None, false, [])
  | Some _ =>
      if negb cb then (limiter, false, [])
      else
        let '(limiter, result) := loopyRateLimitCheck limiter cost t1 t2 t3 in
        let '(limiter, (_, info)) := loopyRateLimitPeek limiter t4 t5 in
        (limiter, true, [(result, info)])
  end.
End Limiter.

Record loopyRateLimitStats := RateLimitStats {
  st_totalRequests : Z;
  st_allowedRequests : Z;
  st_deniedRequests : Z;
  st_peakRate : Z;
  st_avgWaitMs : double
}.

Definition loopyRateLimitGetStats (limiter : option loopyRateLimiter) : option loopyRateLimitStats :=
  peek_handle None limiter (fun l =>
    Some (RateLimitStats (totalRequests l) (allowedRequests l) (deniedRequests l) (peakRate l)
            (double_of 0))).

Definition loopyRateLimitResetStats (limiter : option loopyRateLimiter) : option loopyRateLimiter :=
  fst (on_handle tt limiter (fun l =>
    (l <| totalRequests := 0%Z |> <| allowedRequests := 0%Z |> <| deniedRequests := 0%Z |>
       <| peakRate := 0%Z |> <| currentSecondRequests := 0%Z |>, tt))).

Definition loopyRateLimitGetAlgorithm (limiter : option loopyRateLimiter) : loopyRateLimitAlgorithm :=
  peek_handle LOOPY_RATE_LIMIT_TOKEN_BUCKET limiter (fun l =>
    match impl l with
    | ImplTokenBucket _ => LOOPY_RATE_LIMIT_TOKEN_BUCKET
    | ImplSlidingWindow _ => LOOPY_RATE_LIMIT_SLIDING_WINDOW
    | ImplLeakyBucket _ => LOOPY_RATE_LIMIT_LEAKY_BUCKET
    | ImplFixedWindow _ => LOOPY_RATE_LIMIT_FIXED_WINDOW
    end).

(** [None] is a value outside the enumeration. *)
Definition loopyRateLimitAlgorithmName (algorithm : option loopyRateLimitAlgorithm) : string :=
  match algorithm with
  | Some LOOPY_RATE_LIMIT_TOKEN_BUCKET => "TOKEN_BUCKET"
  | Some LOOPY_RATE_LIMIT_SLIDING_WINDOW => "SLIDING_WINDOW"
  | Some LOOPY_RATE_LIMIT_LEAKY_BUCKET => "LEAKY_BUCKET"
  | Some LOOPY_RATE_LIMIT_FIXED_WINDOW => "FIXED_WINDOW"
  | None => "UNKNOWN"
  end.

Definition loopyRateLimitResultName (result : option loopyRateLimitResult) : string :=
  match result with
  | Some LOOPY_RATE_LIMIT_ALLOWED => "ALLOWED"
  | Some LOOPY_RATE_LIMIT_DENIED => "DENIED"
  | Some LOOPY_RATE_LIMIT_ERROR => "ERROR"
  | None => "UNKNOWN"
  end.

(** ** The fixed window under concurrency

    The threads of [fixedWindowCheck], one atomic access or critical-section
    entry per step.  A thread between calls is at [FwCall]; [FwZero] and
    [FwStore] hold the mutex. *)

Inductive fw_pc :=
| FwCall
| FwLoad (now : Z)       (* has read the clock *)
| FwLock (now : Z)       (* saw the window over *)
| FwZero (now : Z)       (* saw it again under the mutex *)
| FwStore (now : Z)      (* has cleared [count] *)
| FwAdd                  (* back from [fixedWindowMaybeReset] *)
| FwUndo                 (* [count >= maxRequests] *)
| FwReturn (allowed : bool).

Record fwSys := FwSys {
  fws_window : loopyFixedWindow;
  fws_locked : bool;
  fws_clock : Z;                 (* [getNowMs()] *)
  fws_pcs : list fw_pc;
  fws_accepted : nat             (* calls that returned [true] so far *)
}.

#[export] Instance FwSys_rebuild : Rebuild fwSys := fun s =>
  FwSys (fws_window s) (fws_locked s) (fws_clock s) (fws_pcs s) (fws_accepted s).

(** One step of the thread whose program counter is [pc]; [None] when it
    waits for the mutex. *)
Definition fw_thread (s : fwSys) (pc : fw_pc) : option (fwSys * fw_pc) :=
  let fw := fws_window s in
  match pc with
  | FwCall => Some (s, FwLoad (fws_clock s))
  | FwLoad now => Some (s, if windowOver fw now then FwLock now else FwAdd)
  | FwLock now =>
      if fws_locked s then None
      else if windowOver fw now then Some (s <| fws_locked := true |>, FwZero now)
      else Some (s, FwAdd)
  | FwZero now => Some (s <| fws_window := fw <| fw_count := 0%Z |> |>, FwStore now)
  | FwStore now =>
      Some (s <| fws_window := fw <| windowStart := now |> |> <| fws_locked := false |>, FwAdd)
  | FwAdd =>
      let count := fw_count fw in
      let s := s <| fws_window := fw <| fw_count ::= fun c => c +64 1 |> |> in
      if (count <? fw_maxRequests fw)%Z
      then Some (s <| fws_accepted ::= S |>, FwReturn true)
      else Some (s, FwUndo)
  | FwUndo => Some (s <| fws_window := fw <| fw_count ::= fun c => c -64 1 |> |>, FwReturn false)
  | FwReturn _ => Some (s, FwCall)
  end.

Inductive fw_action := FwTick (ms : nat) | FwRun (thread : nat).

Definition fw_act (s : fwSys) (a : fw_action) : option fwSys :=
  match a with
  | FwTick ms => Some (s <| fws_clock ::= fun t => (t + Z.of_nat ms)%Z |>)
  | FwRun i =>
      pc ← fws_pcs s !! i;
      '(s', pc') ← fw_thread s pc;
      Some (s' <| fws_pcs ::= fun l => <[i := pc']> l |>)
  end.

Definition fw_step (s s' : fwSys) : Prop := exists a, fw_act s a = Some s'.

Definition fw_start (config : loopyFixedWindowConfig) (now : Z) (threads : nat) : fwSys :=
  FwSys (fixedWindowInit config now) false now (replicate threads FwCall) 0.

(** ** Sliding window: the reference log

    The specification keeps every accepted time and admits a request when
    fewer than [limit] of them are at most [window] milliseconds old. *)

Definition live (window now : Z) (log : list Z) : list Z :=
  filter (fun a => (now - window <= a)%Z) log.

Definition log_check (window : Z) (limit : nat) (log : list Z) (now : Z) : list Z * bool :=
  if (length (live window now log) <? limit)%nat then (log ++ [now], true) else (log, false).

Fixpoint log_run (window : Z) (limit : nat) (log : list Z) (nows : list Z) : list Z * list bool :=
  match nows with
  | [] => (log, [])
  | now :: nows =>
      let '(log, b) := log_check window limit log now in
      let '(log, bs) := log_run window limit log nows in
      (log, b :: bs)
  end.

(** Successive calls of [slidingWindowCheck]. *)
Fixpoint sliding_run (sw : loopySlidingWindow) (nows : list Z) : loopySlidingWindow * list loopyRateLimitResult :=
  match nows with
  | [] => (sw, [])
  | now :: nows =>
      let '(sw, r, _) := slidingWindowCheck sw now in
      let '(sw, rs) := sliding_run sw nows in
      (sw, r :: rs)
  end.

(** The number of requests the code admits per window: [maxRequests], unless
    the ring is smaller. *)
Definition slidingLimit (sw : loopySlidingWindow) : nat :=
  Z.to_nat (Z.min (sw_maxRequests sw) (Z.of_nat (sw_capacity sw))).

(** The ring holds [ts], oldest first. *)
Record sliding_rep (sw : loopySlidingWindow) (ts : list Z) : Prop := {
  rep_capacity : 1 <= sw_capacity sw;
  rep_tail : sw_tail sw < sw_capacity sw;
  rep_count : sw_count sw = length ts;
  rep_fits : length ts <= sw_capacity sw;
  rep_head : sw_head sw = ring_index (sw_capacity sw) (sw_tail sw) (length ts);
  rep_length : length (entries sw) = sw_capacity sw;
  rep_entries : forall i x, ts !! i = Some x ->
    entries sw !! ring_index (sw_capacity sw) (sw_tail sw) i = Some x
}.

(** The times still in the ring after expired ones were dropped at its tail. *)
Fixpoint expire (cutoff : Z) (ts : list Z) : list Z :=
  match ts with
  | [] => []
  | a :: ts' => if (cutoff <=? a)%Z then ts else expire cutoff ts'
  end.

Lemma expire_length c ts : length (expire c ts) <= length ts.
Proof. induction ts; simpl; [lia|]. case_if; simpl; lia. Qed.

Lemma expire_filter c ts :
  StronglySorted Z.le ts -> expire c ts = filter (fun a => (c <= a)%Z) ts.
Proof.
  induction 1 as [|a ts Hs IH Ha]; [done|]. simpl. case_if.
  - rewrite filter_cons_True by done. f_equal. symmetry. apply filter_all.
    eapply Forall_impl; [exact Ha|]. simpl. lia.
  - by rewrite filter_cons_False by lia.
Qed.

Lemma sliding_rep_oldest sw a ts :
  sliding_rep sw (a :: ts) -> entries sw !!! sw_tail sw = a.
Proof.
  intros R. apply list_lookup_total_correct.
  rewrite <- (ring_index_0 (sw_capacity sw) (sw_tail sw)) at 1 by apply R.
  by apply (rep_entries _ _ R).
Qed.

Lemma sliding_rep_drop sw a ts :
  sliding_rep sw (a :: ts) ->
  sliding_rep (sw <| sw_tail := (sw_tail sw + 1) mod sw_capacity sw |> <| sw_count := sw_count sw - 1 |>) ts.
Proof.
  intros [H1 H2 H3 H4 H5 H6 H7]. cbn in *. split; cbn; try lia.
  - by rewrite ring_index_shift.
  - intros i x Hi. rewrite ring_index_shift. by apply H7.
Qed.

Lemma pruneLoop_rep fuel c sw ts :
  sliding_rep sw ts -> length ts <= fuel -> sliding_rep (pruneLoop fuel c sw) (expire c ts).
Proof.
  revert sw ts. induction fuel as [|fuel IH]; intros sw ts R Hf; simpl.
  { by destruct ts; [|simpl in Hf; lia]. }
  pose proof (rep_count _ _ R) as Hc. destruct ts as [|a ts]; [by rewrite Hc|].
  replace (0 <? sw_count sw)%nat with true by (symmetry; apply Nat.ltb_lt; simpl in Hc; lia).
  rewrite (sliding_rep_oldest _ _ _ R). simpl. case_if; [done|].
  apply IH; [|simpl in Hf; lia]. by apply (sliding_rep_drop _ a).
Qed.

(** The configuration of a window never changes. *)
Definition same_config (sw sw' : loopySlidingWindow) : Prop :=
  sw_capacity sw' = sw_capacity sw /\ sw_windowMs sw' = sw_windowMs sw /\
  sw_maxRequests sw' = sw_maxRequests sw.

Lemma same_config_trans a b c : same_config a b -> same_config b c -> same_config a c.
Proof. unfold same_config. intros (?&?&?) (?&?&?). split_and!; congruence. Qed.

Lemma pruneLoop_config fuel c sw : same_config sw (pruneLoop fuel c sw).
Proof.
  revert sw. induction fuel; intros sw; simpl; [done|].
  case_if; [|done]. case_if; [done|].
  destruct (IHfuel (sw <| sw_tail := (sw_tail sw + 1) mod sw_capacity sw |> <| sw_count := sw_count sw - 1 |>))
    as (?&?&?). done.
Qed.

Definition sliding_push (sw : loopySlidingWindow) (now : Z) : loopySlidingWindow :=
  sw <| entries ::= fun es => <[sw_head sw := now]> es |>
     <| sw_head := (sw_head sw + 1) mod sw_capacity sw |> <| sw_count := sw_count sw + 1 |>.

Lemma sliding_rep_push sw ts now :
  sliding_rep sw ts -> length ts < sw_capacity sw -> sliding_rep (sliding_push sw now) (ts ++ [now]).
Proof.
  intros [H1 H2 H3 H4 H5 H6 H7] Hl. split; cbn; rewrite ?length_app, ?length_insert; simpl; try lia.
  - rewrite H5, ring_index_next. f_equal. lia.
  - intros i x Hi. apply lookup_app_Some in Hi as [Hi|[Hge Hi]].
    + pose proof (lookup_lt_Some _ _ _ Hi). rewrite list_lookup_insert_ne; [by apply H7|].
      rewrite H5. apply not_eq_sym, ring_index_inj. lia.
    + apply list_lookup_singleton_Some in Hi as [Hi <-]. replace i with (length ts) by lia.
      rewrite <- H5, list_lookup_insert_eq; [done|]. rewrite H5, H6. by apply ring_index_lt.
Qed.

(** Times a 64-bit clock can read, in order, none after [now]. *)
Definition clock_log (now : Z) (ts : list Z) : Prop :=
  StronglySorted Z.le ts /\ Forall (fun a => 0 <= a <= now)%Z ts.

Lemma clock_log_snoc now now' ts :
  clock_log now ts -> (0 <= now <= now')%Z -> clock_log now' (ts ++ [now']).
Proof.
  intros [Hs Hf] Hn. split.
  - induction Hs as [|a ts Hs IH Ha]; simpl; repeat constructor.
    + apply IH. by inversion Hf.
    + apply Forall_app. split; [done|]. inversion Hf; subst. repeat constructor. lia.
  - apply Forall_app. split; [|repeat constructor; lia].
    eapply Forall_impl; [exact Hf|]. simpl. lia.
Qed.

Lemma clock_log_mono now now' ts : clock_log now ts -> (now <= now')%Z -> clock_log now' ts.
Proof. intros [Hs Hf] Hn. split; [done|]. eapply Forall_impl; [exact Hf|]. simpl. lia. Qed.

Lemma prune_live sw ts now :
  sliding_rep sw ts -> clock_log now ts -> in64 now -> in64 (sw_windowMs sw) ->
  sliding_rep (slidingWindowPrune sw now) (live (sw_windowMs sw) now ts).
Proof.
  intros R [Hs Hf] Hn Hw. unfold slidingWindowPrune.
  assert (E : live (sw_windowMs sw) now ts = expire (slidingCutoff sw now) ts).
  { rewrite expire_filter by done. unfold live, slidingCutoff, in64 in *.
    case_if; [rewrite u64_small by (unfold in64; lia); done|].
    rewrite !filter_all; [done| |]; (eapply Forall_impl; [exact Hf|]); simpl; lia. }
  rewrite E. apply pruneLoop_rep; [done|]. by rewrite (rep_count _ _ R).
Qed.

(** Two steps of an arbitrary log: what one instant drops stays dropped. *)
Lemma live_dead_prefix w now old ts :
  Forall (fun a => a < now - w)%Z old -> live w now (old ++ ts) = live w now ts.
Proof.
  intros Ho. unfold live. rewrite filter_app, (filter_none _ old); [done|].
  eapply Forall_impl; [exact Ho|]. simpl. lia.
Qed.

(** The ring against the log: it holds the log less a prefix that has
    expired. *)
Definition sliding_sim (now : Z) (sw : loopySlidingWindow) (log : list Z) : Prop :=
  in64 now /\ in64 (sw_windowMs sw) /\ clock_log now log /\
  exists old ts, log = old ++ ts /\ sliding_rep sw ts /\ Forall (fun a => a < now - sw_windowMs sw)%Z old.

Lemma live_suffix w now ts :
  StronglySorted Z.le ts ->
  exists old, ts = old ++ live w now ts /\ Forall (fun a => a < now - w)%Z old.
Proof.
  induction 1 as [|a ts Hs (old & E & Ho) Ha]; [by exists []|].
  unfold live. rewrite filter_cons. case_decide as Hd.
  - exists []. simpl. rewrite filter_all; [done|]. eapply Forall_impl; [exact Ha|]. simpl. lia.
  - exists (a :: old). simpl. split; [by f_equal|]. constructor; [lia|done].
Qed.

(** The prune step of a check at a later time. *)
Lemma prune_sim now sw log now' :
  sliding_sim now sw log -> (now <= now')%Z -> in64 now' ->
  let sw' := slidingWindowPrune sw now' in
  same_config sw sw' /\ sliding_rep sw' (live (sw_windowMs sw) now' log) /\ clock_log now' log.
Proof.
  intros (Hn & Hw & Hl & old & ts & -> & R & Ho) Hle Hn' sw'.
  split; [apply pruneLoop_config|]. split; [|by eapply clock_log_mono].
  rewrite live_dead_prefix by (eapply Forall_impl; [exact Ho|]; simpl; lia).
  apply prune_live; try done. destruct Hl as [Hs Hf]. apply Forall_app in Hf as [_ Hf]. split.
  - clear -Hs. induction old; [done|]. simpl in Hs. by inversion Hs; auto.
  - eapply Forall_impl; [exact Hf|]. simpl. lia.
Qed.

(** What a ring that holds the live times simulates. *)
Lemma sliding_sim_live now sw w log extra :
  sw_windowMs sw = w -> in64 now -> in64 w -> clock_log now log -> clock_log now (log ++ extra) ->
  sliding_rep sw (live w now log ++ extra) -> sliding_sim now sw (log ++ extra).
Proof.
  intros Hc Hn Hw Hl Hl' R. unfold sliding_sim. rewrite Hc. split_and!; try done.
  destruct (live_suffix w now log (proj1 Hl)) as (old & E & Ho).
  exists old, (live w now log ++ extra). split_and!; try done. by rewrite app_assoc, <- E.
Qed.

(** Admission as one comparison. *)
Lemma sliding_allowed sw n :
  (Z.of_nat n <? sw_maxRequests sw)%Z && (n <? sw_capacity sw)%nat = (n <? slidingLimit sw)%nat.
Proof.
  apply eq_true_iff_eq. rewrite andb_true_iff, Z.ltb_lt, !Nat.ltb_lt. unfold slidingLimit. lia.
Qed.

Lemma sliding_check_sim now sw log now' :
  sliding_sim now sw log -> (now <= now')%Z -> in64 now' ->
  let '(sw', r, _) := slidingWindowCheck sw now' in
  let '(log', b) := log_check (sw_windowMs sw) (slidingLimit sw) log now' in
  r = answer b /\ same_config sw sw' /\ sliding_sim now' sw' log'.
Proof.
  intros Hsim Hle Hn'. destruct (prune_sim _ _ _ _ Hsim Hle Hn') as (C & R & S).
  unfold slidingWindowCheck. rewrite sliding_allowed.
  assert (El : slidingLimit (slidingWindowPrune sw now') = slidingLimit sw).
  { unfold slidingLimit. destruct C as (-> & _ & ->). done. }
  rewrite El, (rep_count _ _ R). unfold log_check.
  pose proof (conj Hsim Hn') as ((_ & Hw & _) & _). destruct C as (C1 & C2 & C3).
  destruct (_ <? _)%nat eqn:E; bool_to_prop; split_and!; try done.
  - apply (sliding_sim_live _ _ (sw_windowMs sw)); try done.
    + apply (clock_log_snoc now'); [done|]. unfold in64 in Hn'. lia.
    + apply (sliding_rep_push (slidingWindowPrune sw now')); [done|]. rewrite C1. unfold slidingLimit in E. lia.
  - rewrite <- (app_nil_r log). apply (sliding_sim_live _ _ (sw_windowMs sw)); rewrite ?app_nil_r; try done.
Qed.

#[local] Arguments slidingWindowCheck : simpl never.
#[local] Arguments fixedWindowCheck : simpl never.

(** ** Sliding window: runs *)

(** Readings of a monotonic 64-bit clock, none before [now]. *)
Fixpoint clock_from (now : Z) (nows : list Z) : Prop :=
  match nows with
  | [] => True
  | n :: nows => (now <= n)%Z /\ in64 n /\ clock_from n nows
  end.

Definition last_reading (now : Z) (nows : list Z) : Z := foldl (fun _ n => n) now nows.

Lemma sliding_run_sim now sw log nows :
  sliding_sim now sw log -> clock_from now nows ->
  let '(sw', rs) := sliding_run sw nows in
  let '(log', bs) := log_run (sw_windowMs sw) (slidingLimit sw) log nows in
  rs = map answer bs /\ same_config sw sw' /\ sliding_sim (last_reading now nows) sw' log'.
Proof.
  revert now sw log. induction nows as [|n nows IH]; intros now sw log S C;
    cbn [sliding_run log_run last_reading foldl]; [done|].
  destruct C as (Hle & Hn & C). pose proof (sliding_check_sim _ _ _ _ S Hle Hn) as H.
  destruct (slidingWindowCheck sw n) as [[sw1 r] info], (log_check _ _ log n) as [log1 b].
  destruct H as (-> & (C1 & C2 & C3) & S1). specialize (IH n sw1 log1 S1 C).
  assert (El : slidingLimit sw1 = slidingLimit sw) by (unfold slidingLimit; by rewrite C1, C3).
  rewrite C2, El in IH. destruct (sliding_run sw1 nows) as [sw' rs], (log_run _ _ log1 nows) as [log' bs].
  destruct IH as (-> & (C1' & C2' & C3') & S'). split_and!; try done.
  by apply (same_config_trans _ sw1).
Qed.

(** The log a run leaves is the log before it and the accepted times. *)
Fixpoint accepted_times (nows : list Z) (bs : list bool) : list Z :=
  match nows, bs with
  | n :: nows, b :: bs => (if b then [n] else []) ++ accepted_times nows bs
  | _, _ => []
  end.

Lemma log_run_accepted w limit log nows :
  fst (log_run w limit log nows) = log ++ accepted_times nows (snd (log_run w limit log nows)).
Proof.
  revert log. induction nows as [|n nows IH]; intros log; simpl; [by rewrite app_nil_r|].
  destruct (log_check w limit log n) as [log1 b] eqn:E. specialize (IH log1).
  destruct (log_run w limit log1 nows) as [log' bs]. simpl in *. rewrite IH.
  unfold log_check in E. case_match; injection E as <- <-; simpl; [|done].
  by rewrite <- app_assoc.
Qed.

(** Any [limit + 1] consecutive accepted times span more than the window. *)
Definition spaced (window : Z) (limit : nat) (log : list Z) : Prop :=
  forall i a b, log !! i = Some a -> log !! (i + limit) = Some b -> (a + window < b)%Z.

Lemma sorted_lookup_le (l : list Z) i j a b :
  StronglySorted Z.le l -> l !! i = Some a -> l !! j = Some b -> i <= j -> (a <= b)%Z.
Proof.
  intros Hs. revert i j. induction Hs as [|x l Hs IH Hx]; intros i j Hi Hj Hij; [done|].
  destruct i as [|i], j as [|j]; simpl in *; simplify_eq; try lia.
  - rewrite Forall_lookup in Hx. by eapply Hx.
  - apply (IH i j); [done|done|lia].
Qed.

(** From the first live time on everything is live. *)
Lemma live_length_ge w now log i a :
  StronglySorted Z.le log -> log !! i = Some a -> (now - w <= a)%Z ->
  length log - i <= length (live w now log).
Proof.
  intros Hs. revert i. induction Hs as [|x l Hs IH Hx]; intros i Hi Ha; [done|].
  unfold live. destruct i as [|i]; simpl in *.
  - simplify_eq. rewrite filter_all; [simpl; lia|]. constructor; [done|].
    eapply Forall_impl; [exact Hx|]. simpl. lia.
  - rewrite filter_cons. specialize (IH i Hi Ha). unfold live in IH. case_decide; simpl; lia.
Qed.

Lemma spaced_check w limit log now :
  clock_log now log -> spaced w limit log -> spaced w limit (fst (log_check w limit log now)).
Proof.
  intros [Hs Hf] Hsp. unfold log_check. case_if; [|done]. simpl.
  intros i a b Ha Hb. apply lookup_app_Some in Ha, Hb.
  destruct Hb as [Hb|[Hb E]].
  - destruct Ha as [Ha|[Ha _]]; [by eapply Hsp|].
    apply lookup_lt_Some in Hb. lia.
  - apply list_lookup_singleton_Some in E as [E <-].
    destruct Ha as [Ha|[Ha _]]; [|lia].
    apply Z.nle_gt. intros Hge. pose proof (live_length_ge w now log i a Hs Ha ltac:(lia)). lia.
Qed.

Lemma log_check_clock w limit log now now' :
  clock_log now log -> (0 <= now <= now')%Z -> clock_log now' (fst (log_check w limit log now')).
Proof.
  intros Hl Hn. unfold log_check. case_match; simpl; [by eapply clock_log_snoc|].
  eapply clock_log_mono; [done|lia].
Qed.

Lemma log_run_spaced w limit log now nows :
  clock_log now log -> (0 <= now)%Z -> clock_from now nows -> spaced w limit log ->
  spaced w limit (fst (log_run w limit log nows)).
Proof.
  revert now log. induction nows as [|n nows IH]; intros now log Hl H0 C Hsp; [done|]. simpl.
  destruct C as (Hle & Hn & C).
  pose proof (log_check_clock w limit log now n Hl ltac:(lia)) as Hl1.
  pose proof (spaced_check w limit log n (clock_log_mono _ _ _ Hl Hle) Hsp) as Hs1.
  destruct (log_check w limit log n) as [log1 b]. simpl in *.
  specialize (IH n log1 Hl1 ltac:(lia) C Hs1). by destruct (log_run w limit log1 nows).
Qed.

Lemma slidingWindowInit_sim config :
  in64 (swc_windowMs config) -> sliding_sim 0 (slidingWindowInit config) [].
Proof.
  intros Hw. unfold sliding_sim, slidingWindowInit. cbn [sw_windowMs].
  split; [split; [lia|apply w64_pos]|]. split; [done|]. split; [split; constructor|].
  exists [], []. split_and!; [done| |done].
  set (cap := if 0 <? swc_maxEntries config then _ else _).
  assert (1 <= cap) by (unfold cap; case_if; [done|vm_compute; lia]). clearbody cap.
  split; cbn; rewrite ?length_replicate; try done; try lia.
  by rewrite ring_index_0 by lia.
Qed.

(** The requests a configuration admits per window. *)
Definition configLimit (config : loopySlidingWindowConfig) : nat :=
  slidingLimit (slidingWindowInit config).

(** ** Sliding window: properties *)

(** C17. The ring of [loopySlidingWindow] implements the unbounded log: for
    every configuration and every sequence of clock readings, the results of
    the successive [slidingWindowCheck]s are those of the specification, which
    remembers every accepted request and admits one when fewer than
    [min(maxRequests, capacity)] of them are at most [windowMs] old.  Pruning
    at the tail and wrapping around lose no live entry. *)
Theorem sliding_window_refines_log config nows :
  in64 (swc_windowMs config) -> clock_from 0 nows ->
  snd (sliding_run (slidingWindowInit config) nows) =
    map answer (snd (log_run (swc_windowMs config) (configLimit config) [] nows)).
Proof.
  intros Hw C. pose proof (sliding_run_sim 0 _ [] nows (slidingWindowInit_sim config Hw) C) as H.
  change (sw_windowMs (slidingWindowInit config)) with (swc_windowMs config) in H.
  unfold configLimit. destruct (sliding_run _ _) as [sw' rs], (log_run _ _ _ _) as [log' bs].
  by destruct H as (-> & _).
Qed.

(** The rate bound: of the requests one limiter accepted, any
    [min(maxRequests, capacity) + 1] consecutive ones span strictly more than
    [windowMs] milliseconds, so no interval of that length holds more accepted
    requests than the limit. *)
Theorem sliding_window_rate config nows i a b :
  in64 (swc_windowMs config) -> clock_from 0 nows ->
  let accepted := accepted_times nows
        (map (fun r => bool_decide (r = LOOPY_RATE_LIMIT_ALLOWED))
           (snd (sliding_run (slidingWindowInit config) nows))) in
  accepted !! i = Some a -> accepted !! (i + configLimit config) = Some b ->
  (a + swc_windowMs config < b)%Z.
Proof.
  intros Hw C. pose proof (sliding_run_sim 0 _ [] nows (slidingWindowInit_sim config Hw) C) as H.
  change (sw_windowMs (slidingWindowInit config)) with (swc_windowMs config) in H.
  pose proof (log_run_accepted (swc_windowMs config) (configLimit config) [] nows) as E.
  unfold configLimit in *.
  pose proof (log_run_spaced (swc_windowMs config) (slidingLimit (slidingWindowInit config)) [] 0 nows) as Sp.
  destruct (sliding_run _ _) as [sw' rs], (log_run _ _ _ _) as [log' bs]. simpl in *.
  destruct H as (-> & _). rewrite map_map.
  replace (map (fun x => bool_decide (answer x = LOOPY_RATE_LIMIT_ALLOWED)) bs) with bs.
  - rewrite <- E. apply Sp; try done. split; constructor.
  - clear. induction bs as [|[] bs IH]; simpl; by rewrite <- ?IH.
Qed.

(** Live entries never exceed the limit. *)
Lemma spaced_live w limit log now :
  clock_log now log -> spaced w limit log -> length (live w now log) <= limit.
Proof.
  intros [Hs Hf] Hsp. apply Nat.nlt_ge. intros Hlt.
  destruct (live_suffix w now log Hs) as (old & E & Ho).
  assert (Hl : Forall (fun a => now - w <= a)%Z (live w now log))
    by (apply Forall_forall; intros x Hx; by apply list_elem_of_filter in Hx as [? _]).
  set (l := live w now log) in *. clearbody l.
  destruct (lookup_lt_is_Some_2 l 0) as [a Ha]; [lia|].
  destruct (lookup_lt_is_Some_2 l limit) as [b Hb]; [done|].
  assert (La : log !! length old = Some a) by (rewrite E, lookup_app_r, Nat.sub_diag by lia; done).
  assert (Lb : log !! (length old + limit) = Some b).
  { rewrite E, lookup_app_r by lia. by replace (length old + limit - length old) with limit by lia. }
  specialize (Hsp _ _ _ La Lb). rewrite Forall_lookup in Hf, Hl.
  specialize (Hf _ _ Lb). specialize (Hl _ _ Ha). simpl in *. lia.
Qed.

(** The result and the reported times of one check, from the ring's content. *)
Lemma sliding_check_result now sw log now' :
  sliding_sim now sw log -> (now <= now')%Z -> in64 now' ->
  let l := live (sw_windowMs sw) now' log in
  snd (fst (slidingWindowCheck sw now')) = answer (length l <? slidingLimit sw)%nat.
Proof.
  intros S Hle Hn. pose proof (sliding_check_sim _ _ _ _ S Hle Hn) as H.
  destruct (slidingWindowCheck sw now') as [[sw' r] info]. cbn [fst snd]. unfold log_check in H.
  destruct (_ <? _)%nat; by destruct H as (-> & _).
Qed.

Lemma sliding_check_retry now sw log now' a l :
  sliding_sim now sw log -> (now <= now')%Z -> in64 now' ->
  live (sw_windowMs sw) now' log = a :: l -> slidingLimit sw <= S (length l) ->
  retryAfterMs (snd (slidingWindowCheck sw now')) =
    (if (a +64 sw_windowMs sw >? now')%Z then a +64 sw_windowMs sw -64 now' else 0%Z).
Proof.
  intros S Hle Hn El Hl. destruct (prune_sim _ _ _ _ S Hle Hn) as (C & R & _).
  unfold slidingWindowCheck. rewrite El in R. cbn [snd retryAfterMs].
  rewrite sliding_allowed. unfold slidingRetry. rewrite (rep_count _ _ R). cbn [length].
  assert (E : slidingLimit (slidingWindowPrune sw now') = slidingLimit sw).
  { unfold slidingLimit. destruct C as (-> & _ & ->). done. }
  rewrite E. replace (_ <? slidingLimit sw)%nat with false by (symmetry; apply Nat.ltb_ge; done).
  rewrite (sliding_rep_oldest _ _ _ R). destruct C as (_ & -> & _). done.
Qed.

(** The state a run of checks ends in simulates a spaced log. *)
Lemma sliding_run_reach config nows :
  in64 (swc_windowMs config) -> clock_from 0 nows ->
  let sw := fst (sliding_run (slidingWindowInit config) nows) in
  exists log, sliding_sim (last_reading 0 nows) sw log /\ slidingLimit sw = configLimit config /\
    sw_windowMs sw = swc_windowMs config /\ spaced (swc_windowMs config) (configLimit config) log.
Proof.
  intros Hw C. pose proof (sliding_run_sim 0 _ [] nows (slidingWindowInit_sim config Hw) C) as H.
  change (sw_windowMs (slidingWindowInit config)) with (swc_windowMs config) in H.
  pose proof (log_run_spaced (swc_windowMs config) (configLimit config) [] 0 nows) as Sp.
  unfold configLimit in *.
  destruct (sliding_run _ _) as [sw' rs], (log_run _ _ _ _) as [log' bs]. simpl in *.
  destruct H as (-> & (C1 & C2 & C3) & S). exists log'. split_and!; [done| |done|].
  - unfold slidingLimit. by rewrite C1, C3.
  - apply Sp; [split; constructor|done|done|done].
Qed.

(** [retryAfterMs] of a denial is one millisecond short.  Whatever happened
    before, when a check at [now] is denied and reports [retryAfterMs = r], a
    check at [now + r] (with no request in between) is denied again, because
    an entry exactly [windowMs] old is still counted, and one at [now + r + 1]
    is allowed. *)
Theorem sliding_window_retry_after config nows now :
  in64 (swc_windowMs config) -> clock_from 0 nows ->
  (last_reading 0 nows <= now)%Z -> (now + swc_windowMs config + 1 < w64)%Z ->
  let sw := fst (sliding_run (slidingWindowInit config) nows) in
  let '(sw', result, info) := slidingWindowCheck sw now in
  0 < configLimit config -> result = LOOPY_RATE_LIMIT_DENIED ->
  let again := (now + retryAfterMs info)%Z in
  snd (fst (slidingWindowCheck sw' again)) = LOOPY_RATE_LIMIT_DENIED /\
  snd (fst (slidingWindowCheck sw' (again + 1))) = LOOPY_RATE_LIMIT_ALLOWED.
Proof.
  intros Hw C Hlast Hov sw. destruct (sliding_run_reach config nows Hw C) as (log & S & El & Ew & Sp).
  fold sw in S, El, Ew. unfold in64 in *.
  assert (H0 : (0 <= last_reading 0 nows)%Z) by (destruct S as ([? _] & _); done).
  assert (Hn : in64 now) by (unfold in64; lia).
  pose proof (sliding_check_sim _ _ _ _ S Hlast Hn) as Hs.
  pose proof (fun a l => sliding_check_retry _ _ _ _ a l S Hlast Hn) as Hr.
  rewrite El, Ew in *.
  destruct (slidingWindowCheck sw now) as [[sw' r] info]. intros Hl ->. simpl in Hr.
  unfold log_check in Hs. destruct (_ <? _)%nat eqn:E; [by destruct Hs|]. bool_to_prop.
  destruct Hs as (_ & (C1 & C2 & C3) & S').
  assert (El' : slidingLimit sw' = configLimit config) by (rewrite <- El; unfold slidingLimit; by rewrite C1, C3).
  destruct S' as (Hn' & Hw' & Hcl & S'). pose proof (conj Hn' (conj Hw' (conj Hcl S'))) as S''.
  pose proof (spaced_live _ _ _ _ Hcl Sp) as Hle.
  destruct (live_suffix (swc_windowMs config) now log (proj1 Hcl)) as (old & Elog & Hold).
  assert (Hlive : Forall (fun x => now - swc_windowMs config <= x <= now)%Z (live (swc_windowMs config) now log)).
  { apply Forall_forall. intros x Hx. apply list_elem_of_filter in Hx as [? Hx].
    destruct Hcl as [_ Hf]. rewrite Forall_forall in Hf. specialize (Hf _ Hx). lia. }
  destruct (live (swc_windowMs config) now log) as [|a l] eqn:Elive; [simpl in E; lia|].
  specialize (Hr a l eq_refl ltac:(simpl in E; lia)). apply Forall_cons in Hlive as [Ha Hlive].
  assert (Eagain : (now + retryAfterMs info = a + swc_windowMs config)%Z).
  { assert (0 <= a)%Z by (destruct Hcl as [_ Hf]; rewrite Elog in Hf;
      apply Forall_app in Hf as [_ Hf]; apply Forall_cons in Hf as [? _]; lia).
    rewrite Hr, (u64_small (a + _)) by (unfold in64; lia). case_if; [rewrite u64_small by (unfold in64; lia)|]; lia. }
  rewrite Eagain.
  rewrite !(sliding_check_result now _ log) by (done || unfold in64; lia).
  rewrite C2, El', Ew. split.
  - replace (_ <? _)%nat with false; [done|]. symmetry. apply Nat.ltb_ge.
    pose proof (live_length_ge (swc_windowMs config) (a + swc_windowMs config) log (length old) a (proj1 Hcl)) as Hge.
    rewrite Elog in Hge at 1 2. rewrite lookup_app_r, Nat.sub_diag, length_app in Hge by lia.
    specialize (Hge eq_refl ltac:(lia)). simpl in Hge, E. lia.
  - replace (_ <? _)%nat with true; [done|]. symmetry. apply Nat.ltb_lt.
    rewrite Elog, live_dead_prefix by (eapply Forall_impl; [exact Hold|]; simpl; lia).
    unfold live. rewrite filter_cons_False by lia.
    pose proof (length_filter (fun x => a + swc_windowMs config + 1 - swc_windowMs config <= x)%Z l).
    simpl in Hle. lia.
Qed.

(** [Peek] predicts [Check] when the ring can hold [maxRequests] entries:
    at one instant they give the same answer, and peeking first does not
    change what the check answers. *)
Theorem sliding_window_peek config nows now :
  in64 (swc_windowMs config) -> clock_from 0 nows ->
  (last_reading 0 nows <= now)%Z -> in64 now ->
  (swc_maxRequests config <= Z.of_nat (sw_capacity (slidingWindowInit config)))%Z ->
  let sw := fst (sliding_run (slidingWindowInit config) nows) in
  let '(peeked, result, _) := slidingWindowPeek sw now in
  snd (fst (slidingWindowCheck sw now)) = result /\
  snd (fst (slidingWindowCheck peeked now)) = result.
Proof.
  intros Hw C Hlast Hn Hmax sw.
  destruct (sliding_run_reach config nows Hw C) as (log & S & El & Ew & _). fold sw in S, El, Ew.
  pose proof (sliding_run_sim 0 _ [] nows (slidingWindowInit_sim config Hw) C) as H.
  destruct (prune_sim _ _ _ _ S Hlast Hn) as ((C1 & C2 & C3) & R & Hcl).
  rewrite (sliding_check_result _ _ _ _ S Hlast Hn), El.
  unfold slidingWindowPeek. rewrite (rep_count _ _ R), C3.
  assert (Emax : (sw_maxRequests sw = swc_maxRequests config)%Z).
  { unfold sw. destruct (sliding_run _ _) as [sw' rs], (log_run _ _ _ _) as [log' bs].
    by destruct H as (_ & (_ & _ & E3) & _). }
  assert (Ed : (Z.of_nat (length (live (sw_windowMs sw) now log)) <? sw_maxRequests sw)%Z =
               (length (live (sw_windowMs sw) now log) <? configLimit config)%nat).
  { apply eq_true_iff_eq. rewrite Z.ltb_lt, Nat.ltb_lt, Emax. unfold configLimit, slidingLimit in *.
    change (sw_maxRequests (slidingWindowInit config)) with (swc_maxRequests config). lia. }
  rewrite Ed. split; [done|].
  assert (S' : sliding_sim now (slidingWindowPrune sw now) log).
  { rewrite <- (app_nil_r log). apply (sliding_sim_live _ _ (sw_windowMs sw)); rewrite ?app_nil_r; try done.
    by rewrite Ew. }
  rewrite (sliding_check_result now _ log) by done.
  rewrite C2. f_equal. f_equal. unfold slidingLimit. by rewrite C1, C3, <- El.
Qed.

(** With a smaller ring ([maxEntries < maxRequests]) the two disagree. *)
Lemma sliding_window_peek_disagrees :
  let sw := fst (sliding_run (slidingWindowInit (SlidingWindowConfig 1000 5 2)) [0%Z; 0%Z]) in
  snd (fst (slidingWindowPeek sw 1)) = LOOPY_RATE_LIMIT_ALLOWED /\
  snd (fst (slidingWindowCheck sw 1)) = LOOPY_RATE_LIMIT_DENIED.
Proof. by vm_compute. Qed.

Definition three_per_second : loopySlidingWindowConfig := SlidingWindowConfig 1000 3 4.

Lemma sliding_window_refines_log_witness :
  snd (sliding_run (slidingWindowInit three_per_second) [5; 10; 10; 900; 1010; 1011; 1012]%Z) =
    map answer [true; true; true; false; true; true; true].
Proof.
  rewrite (sliding_window_refines_log three_per_second [5; 10; 10; 900; 1010; 1011; 1012]%Z).
  - vm_compute. reflexivity.
  - vm_compute. split; done.
  - vm_compute. repeat split; done.
Defined.

Lemma sliding_window_rate_witness : (10 + 1000 < 1012)%Z.
Proof.
  apply (sliding_window_rate three_per_second [5; 10; 10; 900; 1010; 1011; 1012]%Z 2 10 1012).
  - vm_compute. split; done.
  - vm_compute. repeat split; done.
  - vm_compute. reflexivity.
  - vm_compute. reflexivity.
Defined.

Lemma sliding_window_retry_after_witness :
  let sw := fst (sliding_run (slidingWindowInit three_per_second) [5; 10; 10]%Z) in
  let denied := fst (fst (slidingWindowCheck sw 900)) in
  snd (fst (slidingWindowCheck denied 1005)) = LOOPY_RATE_LIMIT_DENIED /\
  snd (fst (slidingWindowCheck denied 1006)) = LOOPY_RATE_LIMIT_ALLOWED.
Proof.
  refine (sliding_window_retry_after three_per_second [5; 10; 10]%Z 900 _ _ _ _ _ _);
    vm_compute; repeat split; (done || lia).
Defined.

Lemma sliding_window_peek_witness :
  let sw := fst (sliding_run (slidingWindowInit three_per_second) [5; 10; 10]%Z) in
  let '(peeked, result, _) := slidingWindowPeek sw 900 in
  snd (fst (slidingWindowCheck sw 900)) = result /\
  snd (fst (slidingWindowCheck peeked 900)) = result.
Proof.
  apply (sliding_window_peek three_per_second [5; 10; 10]%Z 900); vm_compute; repeat split; done.
Defined.

(** ** Fixed window: properties *)

(** Successive calls, each with its two clock readings. *)
Fixpoint fixed_run (fw : loopyFixedWindow) (readings : list (Z * Z)) : loopyFixedWindow * list bool :=
  match readings with
  | [] => (fw, [])
  | (now, now') :: readings =>
      let '(fw, r, _) := fixedWindowCheck fw now now' in
      let '(fw, bs) := fixed_run fw readings in
      (fw, bool_decide (r = LOOPY_RATE_LIMIT_ALLOWED) :: bs)
  end.

(** The well-formed windows: the counter within the limit, and no overflow in
    the end of the window. *)
Definition fixed_wf (fw : loopyFixedWindow) : Prop :=
  (0 <= fw_count fw <= fw_maxRequests fw)%Z /\ in64 (fw_maxRequests fw) /\
  (0 <= fw_windowMs fw)%Z /\ (0 <= windowStart fw)%Z /\
  (windowStart fw + fw_windowMs fw < w64)%Z.

(** The window the check works on, and its result. *)
Lemma fixed_check_spec fw now now' :
  fixed_wf fw -> (0 <= now)%Z -> (now + fw_windowMs fw < w64)%Z ->
  let fw1 := fixedWindowMaybeReset fw now in
  let allowed := (fw_count fw1 <? fw_maxRequests fw)%Z in
  fst (fixedWindowCheck fw now now') =
    (fw1 <| fw_count := (fw_count fw1 + if allowed then 1 else 0)%Z |>, answer allowed) /\
  (fw1 = fw /\ (now < windowStart fw + fw_windowMs fw)%Z \/
   fw1 = FixedWindow 0 now (fw_windowMs fw) (fw_maxRequests fw) /\
     (windowStart fw + fw_windowMs fw <= now)%Z).
Proof.
  intros (Hc & Hm & Hw & Hs & Ho) Hn Hno fw1 allowed.
  assert (D : fw1 = fw /\ (now < windowStart fw + fw_windowMs fw)%Z \/
    fw1 = FixedWindow 0 now (fw_windowMs fw) (fw_maxRequests fw) /\
      (windowStart fw + fw_windowMs fw <= now)%Z).
  { unfold fw1, fixedWindowMaybeReset, windowOver. rewrite u64_small by (unfold in64; lia).
    case_if; [right|left]; done. }
  split; [|done]. unfold fixedWindowCheck. fold fw1. cbn [fst].
  assert (Em : fw_maxRequests fw1 = fw_maxRequests fw) by (by destruct D as [[-> _]|[-> _]]).
  assert (Hc1 : (0 <= fw_count fw1 <= fw_maxRequests fw)%Z) by (destruct D as [[-> _]|[-> _]]; simpl; lia).
  unfold allowed. clearbody fw1. unfold in64 in Hm. rewrite <- Em in *. clear Em D Hc Hs Ho Hno allowed.
  destruct fw1 as [c s w m]; cbn in *. destruct (c <? m)%Z eqn:E; bool_to_prop; unfold update; cbn.
  - by rewrite u64_small by (unfold in64; lia).
  - autorewrite with loopy_simpl. by rewrite Z.add_simpl_r, Z.add_0_r, u64_small by (unfold in64; lia).
Qed.

(** The number of times in [[a, a + W)]. *)
Definition count_in (a W : Z) (ts : list Z) : Z :=
  Z.of_nat (length (filter (fun t => a <= t < a + W)%Z ts)).

Lemma count_in_cons a W t ts :
  count_in a W (t :: ts) = ((if decide (a <= t < a + W) then 1 else 0) + count_in a W ts)%Z.
Proof. unfold count_in. rewrite filter_cons. case_decide; simpl; lia. Qed.

(** How many accepted requests of an interval may precede a state, whose last
    reading was [last]. *)
Record fixed_budget (a last c : Z) (fw : loopyFixedWindow) : Prop := {
  budget_wf : fixed_wf fw;
  budget_last : (windowStart fw <= last)%Z;
  budget_before : (last < a)%Z -> c = 0%Z;
  budget_straddle : (windowStart fw < a)%Z -> (c <= fw_count fw)%Z;
  budget_inside : (a <= windowStart fw < a + fw_windowMs fw)%Z -> (c <= fw_maxRequests fw + fw_count fw)%Z;
  budget_total : (c <= 2 * fw_maxRequests fw)%Z
}.

Lemma fixed_check_budget a last c fw now now' :
  fixed_budget a last c fw -> (last <= now)%Z -> (now + fw_windowMs fw < w64)%Z ->
  let '(fw', r, _) := fixedWindowCheck fw now now' in
  let d := if bool_decide (r = LOOPY_RATE_LIMIT_ALLOWED) then
             (if decide (a <= now < a + fw_windowMs fw) then 1 else 0)%Z else 0%Z in
  fixed_budget a now (c + d) fw' /\
  fw_windowMs fw' = fw_windowMs fw /\ fw_maxRequests fw' = fw_maxRequests fw.
Proof.
  intros [Hwf Hl Hb Hs Hi Ht] Hle Ho. pose proof Hwf as (Hc & Hm & Hw & H0 & Hov).
  destruct (fixed_check_spec fw now now' Hwf ltac:(lia) Ho) as [E D].
  destruct (fixedWindowCheck fw now now') as [[fw' r] info]. cbn [fst] in E. injection E as -> ->.
  rewrite (bool_decide_ext _ ((fw_count (fixedWindowMaybeReset fw now) <? fw_maxRequests fw)%Z = true))
    by (unfold answer; case_match; done).
  destruct D as [[-> Hlt]|[-> Hge]]; cbn; repeat case_bool_decide; repeat case_decide; bool_to_prop;
    (split; [constructor; cbn; unfold fixed_wf, in64 in *; cbn|done]); case_ifs; lia.
Qed.

(** The documented worst case of the fixed window: whatever the calls, no
    interval of [windowMs] milliseconds contains more than twice
    [maxRequests] accepted requests. *)
Theorem fixed_window_burst_bound config start readings a :
  in64 (fwc_maxRequests config) -> (0 <= fwc_windowMs config)%Z -> (0 <= start)%Z ->
  (start + fwc_windowMs config < w64)%Z ->
  clock_from start (map fst readings) ->
  Forall (fun t => t + fwc_windowMs config < w64)%Z (map fst readings) ->
  let accepted := accepted_times (map fst readings) (snd (fixed_run (fixedWindowInit config start) readings)) in
  (count_in a (fwc_windowMs config) accepted <= 2 * fwc_maxRequests config)%Z.
Proof.
  intros Hm Hw H0 Hov C Ho.
  assert (B : fixed_budget a start 0 (fixedWindowInit config start)).
  { constructor; cbn; unfold fixed_wf; cbn; unfold in64 in *; lia. }
  assert (G : forall readings fw last c, fixed_budget a last c fw ->
    fw_windowMs fw = fwc_windowMs config -> fw_maxRequests fw = fwc_maxRequests config ->
    clock_from last (map fst readings) ->
    Forall (fun t => t + fwc_windowMs config < w64)%Z (map fst readings) ->
    (c + count_in a (fwc_windowMs config) (accepted_times (map fst readings) (snd (fixed_run fw readings)))
      <= 2 * fwc_maxRequests config)%Z).
  2: { specialize (G readings (fixedWindowInit config start) start 0%Z B eq_refl eq_refl C Ho). cbn zeta. lia. }
  clear -Hm. intros readings. induction readings as [|[now now'] readings IH]; intros fw last c B Ew Em C Ho.
  { unfold count_in. cbn [map fixed_run snd accepted_times length]. rewrite filter_nil.
    pose proof (budget_total _ _ _ _ B). simpl length. lia. }
  cbn [fixed_run map fst clock_from] in *. destruct C as (Hle & Hn & C). apply Forall_cons in Ho as [Ho1 Ho].
  pose proof (fixed_check_budget a last c fw now now' B Hle ltac:(rewrite Ew; lia)) as H.
  destruct (fixedWindowCheck fw now now') as [[fw' r] info]. destruct H as (B' & Ew' & Em').
  specialize (IH _ _ _ B' ltac:(congruence) ltac:(congruence) C Ho).
  destruct (fixed_run fw' readings) as [fw'' bs]. cbn [snd accepted_times]. rewrite Ew in IH.
  case_bool_decide; simpl; rewrite ?count_in_cons; simpl in IH; lia.
Qed.

Definition two_per_second : loopyFixedWindowConfig := FixedWindowConfig 1000 2.
Definition burst_readings : list (Z * Z) :=
  [(1999, 1999); (1999, 1999); (1999, 1999); (2000, 2000); (2000, 2000); (2000, 2001)]%Z.
Definition burst_accepted : list Z :=
  accepted_times (map fst burst_readings) (snd (fixed_run (fixedWindowInit two_per_second 1000) burst_readings)).

(** The bound is reached: twice the limit within a millisecond, across the
    window's boundary. *)
Lemma fixed_window_burst_bound_witness :
  burst_accepted = [1999; 1999; 2000; 2000]%Z /\ (count_in 1000 1000 burst_accepted <= 2 * 2)%Z.
Proof.
  split; [vm_compute; reflexivity|].
  apply (fixed_window_burst_bound two_per_second 1000 burst_readings 1000).
  - vm_compute. split; done.
  - vm_compute. done.
  - done.
  - vm_compute. done.
  - vm_compute. repeat split; done.
  - repeat constructor; vm_compute; done.
Defined.

(** *** Concurrent checks *)

Definition undo_weight (pc : fw_pc) : nat := match pc with FwUndo => 1 | _ => 0 end.
Definition undos (pcs : list fw_pc) : nat := sum_list_with undo_weight pcs.

(** A thread that is resetting the window. *)
Definition resetting (pc : fw_pc) : bool :=
  match pc with FwLock _ | FwZero _ | FwStore _ => true | _ => false end.

(** The first window, while it lasts. *)
Record first_window (start : Z) (config : loopyFixedWindowConfig) (threads : nat) (s : fwSys) : Prop := {
  fst_window : exists c, fws_window s = FixedWindow c start (fwc_windowMs config) (fwc_maxRequests config) /\
    c = (Z.of_nat (fws_accepted s) + Z.of_nat (undos (fws_pcs s)))%Z;
  fst_bound : (Z.of_nat (fws_accepted s) <= fwc_maxRequests config)%Z;
  fst_threads : length (fws_pcs s) = threads;
  fst_pcs : Forall (fun pc => resetting pc = false /\ forall now, pc = FwLoad now -> (now <= fws_clock s)%Z) (fws_pcs s)
}.

Lemma undos_le pcs : undos pcs <= length pcs.
Proof. induction pcs as [|[] pcs IH]; unfold undos in *; simpl; lia. Qed.

Lemma undos_insert pcs i pc pc' :
  pcs !! i = Some pc -> undos (<[i := pc']> pcs) + undo_weight pc = undos pcs + undo_weight pc'.
Proof. apply sum_list_with_insert. Qed.

Lemma fw_step_clock s s' : fw_step s s' -> (fws_clock s <= fws_clock s')%Z.
Proof.
  intros [[ms|i] E]; simpl in E; [injection E as <-; simpl; lia|].
  destruct (fws_pcs s !! i) as [pc|]; [|done]. simpl in E.
  destruct (fw_thread s pc) as [[s1 pc1]|] eqn:Et; [|done]. injection E as <-. simpl.
  destruct pc; simpl in Et; repeat case_match; simplify_eq; simpl; lia.
Qed.

Lemma undos_start n : undos (replicate n FwCall) = 0.
Proof. unfold undos. rewrite sum_list_with_replicate. apply Nat.mul_0_r. Qed.

Lemma undos_lookup pcs i : pcs !! i = Some FwUndo -> 1 <= undos pcs.
Proof. apply (sum_list_with_lookup undo_weight). Qed.

(** One step of a thread that resets nothing: how it moves the counter. *)
Lemma fw_thread_count s pc s1 pc1 c start w m :
  fws_window s = FixedWindow c start w m -> (0 <= c)%Z -> (c + 1 < w64)%Z -> (pc = FwUndo -> 1 <= c)%Z ->
  resetting pc = false -> fw_thread s pc = Some (s1, pc1) ->
  exists c', fws_window s1 = FixedWindow c' start w m /\
    (c' - c = Z.of_nat (fws_accepted s1) - Z.of_nat (fws_accepted s) +
              Z.of_nat (undo_weight pc1) - Z.of_nat (undo_weight pc))%Z /\
    (fws_accepted s1 = fws_accepted s \/ fws_accepted s1 = S (fws_accepted s) /\ (c < m)%Z) /\
    fws_clock s1 = fws_clock s /\ fws_pcs s1 = fws_pcs s.
Proof.
  intros Hw H0 H1 Hu Hr Et. destruct pc; simpl in Et, Hr; try done; rewrite ?Hw in Et; cbn in Et.
  - injection Et as <- <-. exists c. split_and!; cbn; try done; [lia|by left].
  - injection Et as <- <-. exists c. split_and!; cbn; try done; [case_if; simpl; lia|by left].
  - unfold update in Et. cbn in Et. rewrite (u64_small (c + 1)) in Et by (unfold in64; lia). exists (c + 1)%Z.
    destruct (c <? m)%Z eqn:E; injection Et as <- <-; bool_to_prop; split_and!; cbn; try done; try lia; auto.
  - specialize (Hu eq_refl). unfold update in Et. cbn in Et. rewrite (u64_small (c - 1)) in Et by (unfold in64; lia).
    injection Et as <- <-. exists (c - 1)%Z. split_and!; cbn; try done; [lia|by left].
  - injection Et as <- <-. exists c. split_and!; cbn; try done; [lia|by left].
Qed.

Section FirstWindow.
Context (start : Z) (config : loopyFixedWindowConfig) (threads : nat).
Hypothesis Hmax : (0 <= fwc_maxRequests config)%Z /\ (fwc_maxRequests config + Z.of_nat threads + 1 < w64)%Z.
Hypothesis Hwin : (start + fwc_windowMs config < w64)%Z.
Hypothesis Hstart : (0 <= start)%Z.
Hypothesis Hms : (0 <= fwc_windowMs config)%Z.

Lemma first_window_step s s' :
  first_window start config threads s -> fw_step s s' ->
  (fws_clock s' < start + fwc_windowMs config)%Z -> first_window start config threads s'.
Proof using All.
  intros I Hst Hck. pose proof (fw_step_clock _ _ Hst) as Hmono. destruct I as [(c & Hw & Ec) Hb Ht Hp].
  destruct Hst as [[ms|i] E]; simpl in E.
  { injection E as <-. constructor; cbn; try done; [by eexists|].
    eapply Forall_impl; [exact Hp|]. intros pc [Hr Hl]. split; [done|]. intros now ->.
    specialize (Hl now eq_refl). lia. }
  destruct (fws_pcs s !! i) as [pc|] eqn:Ei; [|done]. simpl in E.
  destruct (fw_thread s pc) as [[s1 pc1]|] eqn:Et; [|done]. injection E as <-. cbn in Hck, Hmono.
  assert (Hi := Hp). rewrite Forall_lookup in Hi. destruct (Hi _ _ Ei) as [Hr Hload].
  pose proof (undos_insert _ _ pc pc1 Ei) as Hu. pose proof (undos_le (fws_pcs s)) as Hle.
  destruct (fw_thread_count s pc s1 pc1 c _ _ _ Hw) as (c' & Hw' & Ec' & Ha & Hclk & Hpc); try done; try lia.
  { intros ->. apply undos_lookup in Ei. lia. }
  constructor; cbn; rewrite ?length_insert, ?Hpc, ?Hclk; [|lia|done|].
  - exists c'. split; [done|]. unfold undos in *. lia.
  - apply Forall_insert; [done|]. destruct pc; simpl in Et, Hr; try done; simplify_eq; try done.
    + split; [done|]. intros now [= ->]. lia.
    + specialize (Hload now eq_refl). unfold windowOver. rewrite Hw. cbn.
      rewrite u64_small by (unfold in64; lia). case_if; [lia|done].
    + by case_match; simplify_eq.
Qed.

(** Concurrent checks do not exceed the limit within the first window:
    whatever the interleaving of the loads, the increments and the undos of
    any number of threads, while the clock has not reached the end of the
    window at most [maxRequests] calls have been accepted, and the counter is
    that number plus the undos still due. *)
Theorem fixed_window_concurrent_bound s :
  rtc fw_step (fw_start config start threads) s ->
  (fws_clock s < start + fwc_windowMs config)%Z ->
  (Z.of_nat (fws_accepted s) <= fwc_maxRequests config)%Z /\
  fw_count (fws_window s) = (Z.of_nat (fws_accepted s) + Z.of_nat (undos (fws_pcs s)))%Z.
Proof using All.
  intros Hr Hck.
  assert (I : (fws_clock s < start + fwc_windowMs config)%Z -> first_window start config threads s).
  { revert Hr. apply (rtc_invariant fw_step
      (fun s => (fws_clock s < start + fwc_windowMs config)%Z -> first_window start config threads s)).
    - intros a b Ia Hab Hb. pose proof (fw_step_clock _ _ Hab).
      eapply first_window_step; [apply Ia; lia|done|done].
    - intros _. unfold fw_start. constructor; cbn.
      + exists 0%Z. by rewrite undos_start.
      + lia.
      + by rewrite length_replicate.
      + apply Forall_replicate. split; [done|]. by intros. }
  destruct (I Hck) as [(c & Hw & ->) Hb _ _]. split; [done|]. by rewrite Hw.
Qed.
End FirstWindow.

(** A schedule, run. *)
Lemma fw_schedule_rtc acts s s' : schedule fw_act s acts = Some s' -> rtc fw_step s s'.
Proof. apply (schedule_rtc _ _ (fun _ => True)); [by intros ? a ? _ ?; exists a|by apply Forall_true]. Qed.

Definition one_per_second : loopyFixedWindowConfig := FixedWindowConfig 1000 1.

(** Thread 0 is denied and about to undo its increment when thread 1 opens the
    next window; the undo then decrements the cleared counter. *)
Definition lockout_schedule : list fw_action :=
  (FwRun <$> [0; 0; 0; 0; 0; 0; 0]) ++ [FwTick 1000] ++ (FwRun <$> [1; 1; 1; 1; 1; 0; 1; 1; 0; 1]).

(** The counter of the fixed window can wrap below zero: two threads and a
    limit of one request suffice to reach a state with both threads between
    calls in which, although no request was accepted in the new window, every
    check is denied until the window ends. *)
Theorem fixed_window_lockout :
  exists s, rtc fw_step (fw_start one_per_second 0 2) s /\
    fws_pcs s = [FwCall; FwCall] /\ fws_accepted s = 1 /\
    windowStart (fws_window s) = 1000%Z /\ fw_count (fws_window s) = (w64 - 1)%Z /\
    forall now now', (1000 <= now < 2000)%Z ->
      fst (fixedWindowCheck (fws_window s) now now') = (fws_window s, LOOPY_RATE_LIMIT_DENIED).
Proof.
  destruct (schedule fw_act (fw_start one_per_second 0 2) lockout_schedule) as [s|] eqn:E; [|vm_compute in E; done].
  exists s. split; [by eapply fw_schedule_rtc|].
  assert (Es : fws_window s = FixedWindow (w64 - 1) 1000 1000 1 /\ fws_pcs s = [FwCall; FwCall] /\
               fws_accepted s = 1) by (vm_compute in E; injection E as <-; done).
  destruct Es as (-> & -> & ->). split_and!; try done.
  intros now now' Hn. unfold fixedWindowCheck, fixedWindowMaybeReset, windowOver. cbn [windowStart fw_windowMs].
  change (1000 +64 1000) with 2000%Z. case_if; [lia|]. done.
Qed.

(** A run in which all the threads race for the last request. *)
Lemma fixed_window_concurrent_bound_witness :
  exists s, rtc fw_step (fw_start one_per_second 0 2) s /\ fws_accepted s = 1 /\
    undos (fws_pcs s) = 1 /\ (Z.of_nat (fws_accepted s) <= 1)%Z /\ fw_count (fws_window s) = (1 + 1)%Z.
Proof.
  destruct (schedule fw_act (fw_start one_per_second 0 2) (FwRun <$> [0; 1; 1; 0; 1; 0])) as [s|] eqn:E; [|vm_compute in E; done].
  pose proof (fw_schedule_rtc _ _ _ E) as Hr. exists s.
  assert (H : (Z.of_nat (fws_accepted s) <= 1)%Z /\
    fw_count (fws_window s) = (Z.of_nat (fws_accepted s) + Z.of_nat (undos (fws_pcs s)))%Z).
  { apply (fixed_window_concurrent_bound 0 one_per_second 2); try done.
    vm_compute in E. injection E as <-. done. }
  vm_compute in E. injection E as <-. split; [done|]. split; [done|]. split; [done|]. exact H.
Defined.

(** ** Token and leaky bucket: properties *)

(** The token bucket never offers more than its capacity: after the refill
    of a check [remaining <= limit] whatever the clock, the rate and the tokens
    left (an initial surplus included), so no request dearer than the capacity
    is ever allowed; an allowed request takes exactly its cost, a denied one
    takes nothing. *)
Theorem token_bucket_bounds wild tb cost now :
  is_nan (tb_capacity tb) = false ->
  let actualCost := tokenCost tb cost in
  let '(tb', r, info) := tokenBucketCheck wild tb cost now in
  info_limit info = tb_capacity tb /\ (remaining info <=d info_limit info) = true /\
  (r = LOOPY_RATE_LIMIT_ALLOWED /\ (actualCost <=d tb_capacity tb) = true /\
     tokens tb' = remaining info -d actualCost \/
   r = LOOPY_RATE_LIMIT_DENIED /\ (actualCost <=d remaining info) = false /\
     tokens tb' = remaining info).
Proof.
  intros Hc actualCost. unfold tokenBucketCheck. cbn zeta.
  set (tb1 := tokenBucketRefill tb now).
  assert (Ht : (tokens tb1 <=d tb_capacity tb) = true) by by apply fmin_le_l.
  change (tokenCost tb1 cost) with actualCost. cbn [info_limit remaining].
  change (tb_capacity tb1) with (tb_capacity tb). split; [done|]. split; [done|].
  destruct (actualCost <=d tokens tb1) eqn:E; [left|right]; split_and!; try done.
  by eapply SFleb_trans.
Qed.

Lemma token_bucket_bounds_witness :
  let tb := tokenBucketInit (loopyTokenBucketConfigInit (double_of 3) (double_of 2)) 0 in
  let '(tb', r, info) := tokenBucketCheck (fun _ => 0%Z) tb (double_of 5) 1000000 in
  r = LOOPY_RATE_LIMIT_DENIED /\ (remaining info <=d double_of 2) = true.
Proof.
  pose proof (token_bucket_bounds (fun _ => 0%Z)
    (tokenBucketInit (loopyTokenBucketConfigInit (double_of 3) (double_of 2)) 0) (double_of 5) 1000000 eq_refl) as H.
  vm_compute in H. vm_compute. destruct H as (_ & H & _). split; [done|exact H].
Defined.

(** [retryAfterMs] of the token bucket is rounded down: at 3 tokens per second
    an empty bucket of one reports 333 ms, and a check 333 ms later is denied
    again. *)
Lemma token_bucket_retry_truncated :
  let tb := tokenBucketInit (loopyTokenBucketConfigInit (double_of 3) (double_of 1)) 0 in
  let '(tb, r1, _) := tokenBucketCheck (fun _ => 0%Z) tb (double_of 1) 0 in
  let '(tb, r2, info) := tokenBucketCheck (fun _ => 0%Z) tb (double_of 1) 0 in
  let '(_, r3, _) := tokenBucketCheck (fun _ => 0%Z) tb (double_of 1) (retryAfterMs info * 1000) in
  r1 = LOOPY_RATE_LIMIT_ALLOWED /\ r2 = LOOPY_RATE_LIMIT_DENIED /\ retryAfterMs info = 333%Z /\
  r3 = LOOPY_RATE_LIMIT_DENIED.
Proof. by vm_compute. Qed.

(** The operations on a leaky bucket. *)
Inductive leaky_op := LeakyCheck (now : Z) | LeakyPeek (now : Z) | LeakyReset (now : Z).

Definition leaky_apply (wild : double -> Z) (lb : loopyLeakyBucket) (op : leaky_op) : loopyLeakyBucket :=
  match op with
  | LeakyCheck now => fst (fst (leakyBucketCheck wild lb now))
  | LeakyPeek now => fst (fst (leakyBucketPeek wild lb now))
  | LeakyReset now => leakyBucketReset lb now
  end.

Lemma leakyBucketDrain_bounds wild lb now :
  (0 <= queueSize lb)%Z -> in64 (queueSize lb) ->
  (0 <= queueSize (leakyBucketDrain wild lb now) <= queueSize lb)%Z.
Proof.
  intros H0 H64. unfold leakyBucketDrain. cbn.
  set (d := u64_of_double _ _). pose proof (u64_of_double_range wild _ : in64 d) as Hd.
  clearbody d. unfold in64 in *. case_if; cbn; [lia|]. rewrite u64_small; unfold in64; lia.
Qed.

Definition leaky_wf (lb : loopyLeakyBucket) : Prop :=
  (0 <= queueSize lb <= queueCapacity lb)%Z /\ in64 (queueCapacity lb).

Lemma leaky_apply_wf wild lb op :
  leaky_wf lb -> leaky_wf (leaky_apply wild lb op) /\ queueCapacity (leaky_apply wild lb op) = queueCapacity lb.
Proof.
  intros [Hq H64]. unfold in64 in H64.
  assert (D : forall now, (0 <= queueSize (leakyBucketDrain wild lb now) <= queueSize lb)%Z /\
    queueCapacity (leakyBucketDrain wild lb now) = queueCapacity lb).
  { intros now. split; [apply leakyBucketDrain_bounds; unfold in64; lia|].
    unfold leakyBucketDrain. cbn. by case_if. }
  destruct op as [now|now|now]; cbn [leaky_apply]; unfold leaky_wf, leakyBucketCheck, leakyBucketPeek; cbn [fst].
  - destruct (D now) as [D1 D2]. set (d := leakyBucketDrain wild lb now) in *. clearbody d.
    rewrite D2. destruct (_ <? _)%Z eqn:E; bool_to_prop; cbn; rewrite ?D2.
    + rewrite u64_small by (unfold in64; lia). unfold in64. lia.
    + unfold in64. lia.
  - destruct (D now) as [D1 D2]. rewrite D2. unfold in64. lia.
  - cbn. unfold in64. lia.
Qed.

(** The leaky bucket holds between zero and [queueCapacity] requests after
    any sequence of checks, peeks and resets, whatever the clock, the drain
    rate (negative, infinite or NaN included) and the outcome of out-of-range
    conversions; and a check is allowed exactly when the drained bucket has
    room. *)
Theorem leaky_bucket_bounded wild config start ops now :
  in64 (lbc_queueCapacity config) ->
  let lb := foldl (leaky_apply wild) (leakyBucketInit config start) ops in
  (0 <= queueSize lb <= lbc_queueCapacity config)%Z /\
  snd (fst (leakyBucketCheck wild lb now)) =
    answer (queueSize (leakyBucketDrain wild lb now) <? lbc_queueCapacity config)%Z /\
  (queueSize (leakyBucketDrain wild lb now) <= queueSize lb)%Z.
Proof.
  intros H64 lb.
  assert (I : leaky_wf lb /\ queueCapacity lb = lbc_queueCapacity config).
  { unfold lb. assert (H0 : leaky_wf (leakyBucketInit config start)) by (unfold leaky_wf, in64 in *; cbn; lia).
    assert (E0 : queueCapacity (leakyBucketInit config start) = lbc_queueCapacity config) by done.
    clearbody lb. revert H0 E0. generalize (leakyBucketInit config start).
    induction ops as [|op ops IH]; intros b Hb Eb; [done|]. simpl.
    destruct (leaky_apply_wf wild b op Hb). apply IH; [done|congruence]. }
  destruct I as [[Hq H6] E]. rewrite <- E. split; [done|]. split.
  - unfold leakyBucketCheck. cbn [fst snd]. f_equal. f_equal. unfold leakyBucketDrain. cbn. by case_if.
  - unfold in64 in H6. apply leakyBucketDrain_bounds; unfold in64; lia.
Qed.

Definition two_drained : loopyLeakyBucketConfig := loopyLeakyBucketConfigInit (double_of 2) 1.

Lemma leaky_bucket_bounded_witness :
  let lb := foldl (leaky_apply (fun _ => 7%Z)) (leakyBucketInit two_drained 0) [LeakyCheck 0; LeakyPeek 10] in
  queueSize lb = 1%Z /\ (0 <= queueSize lb <= 1)%Z.
Proof.
  split; [vm_compute; reflexivity|].
  apply (leaky_bucket_bounded (fun _ => 7%Z) two_drained 0 [LeakyCheck 0; LeakyPeek 10] 500000).
  vm_compute. split; done.
Defined.

(** ** The limiter's accounts *)

Definition check_call : Type := double * (Z * Z * Z).

(** Successive [loopyRateLimitCheck]s on a limiter. *)
Fixpoint limiter_run (wild : double -> Z) (limiter : option loopyRateLimiter) (calls : list check_call)
    : option loopyRateLimiter * list loopyRateLimitResult :=
  match calls with
  | [] => (limiter, [])
  | (cost, (t1, t2, t3)) :: calls =>
      let '(limiter, r) := loopyRateLimitCheck wild limiter cost t1 t2 t3 in
      let '(limiter, rs) := limiter_run wild limiter calls in
      (limiter, r :: rs)
  end.

Definition count_result (r : loopyRateLimitResult) (rs : list loopyRateLimitResult) : nat :=
  length (filter (fun x => x = r) rs).

Lemma updateStats_counts l b now :
  totalRequests (updateStats l b now) = totalRequests l +64 1 /\
  allowedRequests (updateStats l b now) = (if b then allowedRequests l +64 1 else allowedRequests l) /\
  deniedRequests (updateStats l b now) = (if b then deniedRequests l else deniedRequests l +64 1).
Proof. unfold updateStats. destruct b; repeat case_match; done. Qed.

Lemma implCheck_answer wild i cost t1 t2 : exists b, snd (fst (implCheck wild i cost t1 t2)) = answer b.
Proof.
  destruct i; unfold implCheck;
    unfold tokenBucketCheck, slidingWindowCheck, leakyBucketCheck, fixedWindowCheck; by eexists.
Qed.

(** The statistics account for every check: after any sequence of calls on
    any limiter each call has answered allowed or denied, and the counters
    have advanced (modulo 2^64) by the number of calls, of allowed and of
    denied answers. *)
Theorem rate_limiter_accounts wild l calls :
  let '(limiter, rs) := limiter_run wild (Some l) calls in
  exists l', limiter = Some l' /\
    length calls = count_result LOOPY_RATE_LIMIT_ALLOWED rs + count_result LOOPY_RATE_LIMIT_DENIED rs /\
    u64 (totalRequests l') = totalRequests l +64 Z.of_nat (length calls) /\
    u64 (allowedRequests l') = allowedRequests l +64 Z.of_nat (count_result LOOPY_RATE_LIMIT_ALLOWED rs) /\
    u64 (deniedRequests l') = deniedRequests l +64 Z.of_nat (count_result LOOPY_RATE_LIMIT_DENIED rs).
Proof.
  revert l. induction calls as [|[cost [[t1 t2] t3]] calls IH]; intros l.
  { cbn. exists l. rewrite !Z.add_0_r. done. }
  cbn [limiter_run]. unfold loopyRateLimitCheck, on_handle.
  destruct (implCheck_answer wild (impl l) cost t1 t2) as [b Eb].
  destruct (implCheck wild (impl l) cost t1 t2) as [[i r] info]. cbn [fst snd] in Eb. subst r.
  set (l1 := updateStats _ _ _). specialize (IH l1).
  destruct (limiter_run wild (Some l1) calls) as [limiter rs].
  destruct IH as (l' & -> & Hlen & Ht & Ha & Hd). exists l'. split; [done|].
  destruct (updateStats_counts (l <| impl := i |>) (bool_decide (answer b = LOOPY_RATE_LIMIT_ALLOWED)) (getNowMs t3))
    as (E1 & E2 & E3). fold l1 in E1, E2, E3. cbn in E1, E2, E3.
  rewrite Ht, Ha, Hd, E1, E2, E3. unfold count_result in *. rewrite !filter_cons.
  cbn [length].
  destruct b; cbn [answer]; repeat case_bool_decide; repeat case_decide; try done;
    autorewrite with loopy_simpl; cbn [length]; (split; [lia|split_and!; f_equal; lia]).
Qed.
