(* ===== verification/Concurrency.v ===== *)
(** * The concurrency limiter ([src/loopyRateLimit.c], second half)

    [loopyConcurrencyLimiter] with its operations as one caller runs them, and
    the same code as a step relation of any number of threads: the
    compare-and-swap of the fast path, the mutex and the condition variable of
    the slow path, and the release.  Memory order is the sequentially
    consistent interleaving of the atomic accesses. *)

From S2P Require Import Prelude Doubles.

Record loopyConcurrencyConfig := ConcurrencyConfig {
  cfg_maxConcurrent : Z;
  cfg_timeoutMs : Z;
  trackPerKey : bool;
  maxKeys : Z
}.

Record loopyConcurrencyLimiter := ConcurrencyLimiter {
  maxConcurrent : Z;
  current : Z;
  defaultTimeoutMs : Z;
  totalAcquires : Z;
  successfulAcquires : Z;
  failedAcquires : Z;
  totalReleases : Z;
  peakConcurrent : Z;
  totalWaitMs : Z
}.

#[export] Instance ConcurrencyLimiter_rebuild : Rebuild loopyConcurrencyLimiter := fun l =>
  ConcurrencyLimiter (maxConcurrent l) (current l) (defaultTimeoutMs l) (totalAcquires l)
    (successfulAcquires l) (failedAcquires l) (totalReleases l) (peakConcurrent l) (totalWaitMs l).

Record loopyConcurrencyInfo := ConcurrencyInfo {
  ci_current : Z;
  ci_limit : Z;
  ci_available : Z;
  ci_waiting : Z
}.

Definition loopyConcurrencyConfigInit (maxConcurrent : Z) : loopyConcurrencyConfig :=
  ConcurrencyConfig maxConcurrent 0 false 0.

(** The three booleans are the outcomes of the allocation and of the two
    [pthread_*_init]. *)
Definition loopyConcurrencyLimiterNew (alloc mutexInit condInit : bool)
    (config : option loopyConcurrencyConfig) : option loopyConcurrencyLimiter :=
  match config with
  | None => None
  | Some config =>
      if (cfg_maxConcurrent config =? 0)%Z then None
      else if negb alloc then None
      else if negb mutexInit then None
      else if negb condInit then None
      else Some (ConcurrencyLimiter (cfg_maxConcurrent config) 0 (cfg_timeoutMs config) 0 0 0 0 0 0)
  end.

(** One caller at a time: each compare-and-swap loop succeeds at once. *)
Definition updatePeakConcurrent (l : loopyConcurrencyLimiter) (cur : Z) : loopyConcurrencyLimiter :=
  if (cur >? peakConcurrent l)%Z then l <| peakConcurrent := cur |> else l.

(** The fast path; [None] when [current >= maxConcurrent]. *)
Definition fastAcquire (l : loopyConcurrencyLimiter) : option loopyConcurrencyLimiter :=
  let cur := current l in
  if (cur <? maxConcurrent l)%Z then
    let l := l <| current := cur +64 1 |> in
    let l := l <| successfulAcquires ::= fun n => n +64 1 |> in
    Some (updatePeakConcurrent l (cur +64 1))
  else None.

Definition loopyConcurrencyTryAcquire (limiter : option loopyConcurrencyLimiter)
    : option loopyConcurrencyLimiter * bool :=
  on_handle false limiter (fun l =>
    let l := l <| totalAcquires ::= fun n => n +64 1 |> in
    match fastAcquire l with
    | Some l => (l, true)
    | None => (l <| failedAcquires ::= fun n => n +64 1 |>, false)
    end).

(** The absolute deadline of [pthread_cond_timedwait]. *)
Definition waitDeadline (tv_sec tv_nsec remainingMs : Z) : Z * Z :=
  let tv_sec := (tv_sec + remainingMs / 1000)%Z in
  let tv_nsec := (tv_nsec + remainingMs mod 1000 * 1000000)%Z in
  if (tv_nsec >=? 1000000000)%Z then ((tv_sec + 1)%Z, (tv_nsec - 1000000000)%Z) else (tv_sec, tv_nsec).

(** One return from the condition variable: the limiter the thread finds, what
    the wait returned and the clock at the next test. *)
Record cond_wake := CondWake {
  wake_limiter : loopyConcurrencyLimiter -> loopyConcurrencyLimiter;
  wake_timedout : bool;
  wake_now : Z
}.

(** The [while] loop of [loopyConcurrencyAcquire], under the mutex; [None] when
    it is still waiting after the listed wake-ups. *)
Fixpoint acquireLoop (l : loopyConcurrencyLimiter) (actualTimeout startMs now : Z)
    (wakes : list cond_wake) : option (loopyConcurrencyLimiter * bool) :=
  if (current l >=? maxConcurrent l)%Z then
    let elapsedMs := now -64 startMs in
    if (actualTimeout >? 0)%Z && (elapsedMs >=? actualTimeout)%Z then Some (l, false)
    else
      match wakes with
      | [] => None
      | w :: wakes =>
          let l := wake_limiter w l in
          if (actualTimeout >? 0)%Z && wake_timedout w then Some (l, false)
          else acquireLoop l actualTimeout startMs (wake_now w) wakes
      end
  else Some (l, true).

(** [others] is what other threads do between the fast path and the lock;
    [startMs], [now] and [endMs] are the clock there, at the first test and
    after the loop. *)
Definition loopyConcurrencyAcquire (limiter : option loopyConcurrencyLimiter) (timeoutMs : Z)
    (others : loopyConcurrencyLimiter -> loopyConcurrencyLimiter) (startMs now endMs : Z)
    (wakes : list cond_wake) : option (option loopyConcurrencyLimiter * bool) :=
  match limiter with
  | None => Some (None, false)
  | Some l =>
      let l := l <| totalAcquires ::= fun n => n +64 1 |> in
      match fastAcquire l with
      | Some l => Some (Some l, true)
      | None =>
          let actualTimeout := if (timeoutMs >? 0)%Z then timeoutMs else defaultTimeoutMs l in
          '(l, acquired) ← acquireLoop (others l) actualTimeout startMs now wakes;
          if negb acquired then Some (Some (l <| failedAcquires ::= fun n => n +64 1 |>), false)
          else
            let l := l <| current ::= fun c => c +64 1 |> in
            let l := l <| totalWaitMs ::= fun t => t +64 (endMs -64 startMs) |> in
            let l := l <| successfulAcquires ::= fun n => n +64 1 |> in
            Some (Some (updatePeakConcurrent l (current l)), true)
      end
  end.

(** Returns whether a waiter is signalled. *)
Definition loopyConcurrencyRelease (limiter : option loopyConcurrencyLimiter)
    : option loopyConcurrencyLimiter * bool :=
  on_handle false limiter (fun l =>
    let prev := current l in
    let l := l <| current ::= fun c => c -64 1 |> in
    if (prev =? 0)%Z then (l <| current ::= fun c => c +64 1 |>, false)
    else (l <| totalReleases ::= fun n => n +64 1 |>, true)).

Definition loopyConcurrencyTryAcquireKey (limiter : option loopyConcurrencyLimiter) (key : bytes)
    : option loopyConcurrencyLimiter * bool := loopyConcurrencyTryAcquire limiter.

Definition loopyConcurrencyReleaseKey (limiter : option loopyConcurrencyLimiter) (key : bytes)
    : option loopyConcurrencyLimiter * bool := loopyConcurrencyRelease limiter.

Definition limiterInfo (l : loopyConcurrencyLimiter) : loopyConcurrencyInfo :=
  ConcurrencyInfo (current l) (maxConcurrent l)
    (if (maxConcurrent l >? current l)%Z then maxConcurrent l -64 current l else 0%Z) 0.

Definition loopyConcurrencyGetInfo (limiter : option loopyConcurrencyLimiter) : option loopyConcurrencyInfo :=
  peek_handle None limiter (fun l => Some (limiterInfo l)).

(** The third component is the call of the callback. *)
Definition loopyConcurrencyAcquireAsync (limiter : option loopyConcurrencyLimiter) (timeoutMs : Z) (cb : bool)
    : option loopyConcurrencyLimiter * bool * list (bool * option loopyConcurrencyInfo) :=
  match limiter with
  | None => (None, false, [])
  | Some _ =>
      if negb cb then (limiter, false, [])
      else
        let '(limiter, acquired) := loopyConcurrencyTryAcquire limiter in
        if acquired then (limiter, true, [(true, loopyConcurrencyGetInfo limiter)])
        else (limiter, true, [(false, loopyConcurrencyGetInfo limiter)])
  end.

Record loopyConcurrencyStats := ConcurrencyStats {
  cs_totalAcquires : Z;
  cs_successfulAcquires : Z;
  cs_failedAcquires : Z;
  cs_totalReleases : Z;
  cs_peakConcurrent : Z;
  cs_totalWaitMs : Z;
  cs_avgWaitMs : double
}.

Definition loopyConcurrencyGetStats (limiter : option loopyConcurrencyLimiter) : option loopyConcurrencyStats :=
  peek_handle None limiter (fun l =>
    Some (ConcurrencyStats (totalAcquires l) (successfulAcquires l) (failedAcquires l) (totalReleases l)
            (peakConcurrent l) (totalWaitMs l)
            (if (successfulAcquires l >? 0)%Z
             then (double_of (totalWaitMs l) /d double_of (successfulAcquires l)) else double_of 0))).

Definition loopyConcurrencyResetStats (limiter : option loopyConcurrencyLimiter) : option loopyConcurrencyLimiter :=
  fst (on_handle tt limiter (fun l =>
    (l <| totalAcquires := 0%Z |> <| successfulAcquires := 0%Z |> <| failedAcquires := 0%Z |>
       <| totalReleases := 0%Z |> <| peakConcurrent := 0%Z |> <| totalWaitMs := 0%Z |>, tt))).

(** ** Many threads *)

Inductive conc_pc :=
| CIdle
| CTry (seen : Z) (slow : bool)  (* before a compare-and-swap from [seen]; [slow] in Acquire *)
| CSlow                          (* about to lock the mutex *)
| CTest                          (* holds it, about to load [current] *)
| CWait                          (* in [pthread_cond_wait] *)
| CAdd                           (* holds it, saw [current < maxConcurrent] *)
| CHolder                        (* the acquire returned [true] *)
| CRestore.                      (* released at zero *)

#[export] Instance conc_pc_eq_dec : EqDecision conc_pc.
Proof. solve_decision. Defined.

Record concSys := ConcSys {
  c_current : Z;
  c_locked : bool;
  c_pcs : list conc_pc
}.

#[export] Instance ConcSys_rebuild : Rebuild concSys := fun s => ConcSys (c_current s) (c_locked s) (c_pcs s).

Section Threads.
(** The limit, and whether the threads use [loopyConcurrencyAcquire] or only
    [loopyConcurrencyTryAcquire]. *)
Variable max : Z.
Variable blocking : bool.

(** One step of a thread.  [choice] resolves what the code leaves open: which
    acquire an idle thread calls, a spurious failure of the weak
    compare-and-swap, a timeout. *)
Definition conc_thread (s : concSys) (pc : conc_pc) (choice : bool) : option (concSys * conc_pc) :=
  match pc with
  | CIdle => Some (s, CTry (c_current s) (choice && blocking))
  | CTry seen slow =>
      if (seen <? max)%Z then
        if choice && (c_current s =? seen)%Z then Some (s <| c_current := seen +64 1 |>, CHolder)
        else Some (s, CTry (c_current s) slow)
      else Some (s, if slow then CSlow else CIdle)
  | CSlow => if c_locked s then None else Some (s <| c_locked := true |>, CTest)
  | CTest =>
      if (c_current s >=? max)%Z then Some (s <| c_locked := false |>, if choice then CWait else CIdle)
      else Some (s, CAdd)
  | CWait => Some (s, if choice then CSlow else CIdle)
  | CAdd => Some (s <| c_current ::= fun c => c +64 1 |> <| c_locked := false |>, CHolder)
  | CHolder =>
      Some (s <| c_current ::= fun c => c -64 1 |>, if (c_current s =? 0)%Z then CRestore else CIdle)
  | CRestore => Some (s <| c_current ::= fun c => c +64 1 |>, CIdle)
  end.

Definition conc_act (s : concSys) (a : nat * bool) : option concSys :=
  pc ← c_pcs s !! a.1;
  '(s', pc') ← conc_thread s pc a.2;
  Some (s' <| c_pcs ::= fun l => <[a.1 := pc']> l |>).

Definition conc_step (s s' : concSys) : Prop := exists a, conc_act s a = Some s'.
End Threads.

Definition conc_start (threads : nat) : concSys := ConcSys 0 false (replicate threads CIdle).

(** ** Threads: safety *)

Definition is_holder (pc : conc_pc) : nat := match pc with CHolder => 1 | _ => 0 end.
Definition is_locker (pc : conc_pc) : nat := match pc with CTest | CAdd => 1 | _ => 0 end.
Definition is_adder (pc : conc_pc) : nat := match pc with CAdd => 1 | _ => 0 end.
(** A thread of the slow path; one that restores an underflow. *)
Definition is_blocking (pc : conc_pc) : bool :=
  match pc with CTry _ b => b | CSlow | CTest | CWait | CAdd => true | _ => false end.
Definition is_restoring (pc : conc_pc) : bool := match pc with CRestore => true | _ => false end.

(** The number of acquires that returned [true] and were not released. *)
Definition holders (s : concSys) : nat := sum_list_with is_holder (c_pcs s).
Definition lockers (s : concSys) : nat := sum_list_with is_locker (c_pcs s).
Definition adders (s : concSys) : nat := sum_list_with is_adder (c_pcs s).

Record conc_inv (max : Z) (blocking : bool) (s : concSys) : Prop := {
  cinv_current : c_current s = Z.of_nat (holders s);
  cinv_lock : lockers s = if c_locked s then 1 else 0;
  cinv_bound : (c_current s <= max + if blocking then 1 else 0)%Z;
  cinv_adder : 1 <= adders s -> (c_current s <= max)%Z;
  cinv_pcs : Forall (fun pc => is_restoring pc = false /\ (is_blocking pc = true -> blocking = true)) (c_pcs s)
}.

Section ThreadSafety.
Context (max : Z) (blocking : bool).
Hypothesis Hmax : (0 <= max)%Z /\ (max + 1 < w64)%Z.

Lemma adders_le_lockers (pcs : list conc_pc) : sum_list_with is_adder pcs <= sum_list_with is_locker pcs.
Proof using Type. induction pcs as [|[] pcs IH]; simpl; lia. Qed.

(** One step of a thread: how it moves the counter and the mutex. *)
Lemma conc_thread_effect s pc choice s1 pc1 :
  conc_thread max blocking s pc choice = Some (s1, pc1) ->
  (0 <= c_current s <= max + 1)%Z -> is_restoring pc = false ->
  (pc = CHolder -> 1 <= c_current s)%Z -> (pc = CAdd -> c_current s <= max)%Z ->
  (is_locker pc = 1 -> c_locked s = true) ->
  c_pcs s1 = c_pcs s /\ is_restoring pc1 = false /\
  (is_blocking pc1 = true -> blocking = true \/ is_blocking pc = true) /\
  (c_current s1 - c_current s = Z.of_nat (is_holder pc1) - Z.of_nat (is_holder pc))%Z /\
  (Z.b2z (c_locked s1) - Z.b2z (c_locked s) = Z.of_nat (is_locker pc1) - Z.of_nat (is_locker pc))%Z /\
  (pc1 = CAdd -> c_current s1 < max)%Z /\
  (c_current s < c_current s1 -> pc = CAdd \/ c_current s1 <= max)%Z.
Proof using All.
  intros E Hc Hr Hh Ha Hl. destruct pc as [|seen slow| | | | | |]; simpl in E, Hr, Hl; try done.
  - injection E as <- <-. cbn. split_and!; try done; try lia. destruct choice; auto.
  - destruct (seen <? max)%Z eqn:Es; bool_to_prop.
    + destruct choice, (Z.eqb_spec (c_current s) seen); simpl in E; injection E as <- <-; cbn;
        split_and!; try done; try lia; auto; rewrite u64_small; unfold in64; lia.
    + injection E as <- <-. destruct slow; cbn; split_and!; try done; try lia; auto.
  - destruct (c_locked s) eqn:El; [done|]. injection E as <- <-. cbn. split_and!; try done; simpl; try lia; auto.
  - specialize (Hl eq_refl).
    destruct (c_current s >=? max)%Z eqn:Es; injection E as <- <-; bool_to_prop; cbn; rewrite Hl.
    + destruct choice; split_and!; try done; simpl; try lia; auto.
    + split_and!; try done; simpl; try lia; auto.
  - injection E as <- <-. destruct choice; cbn; split_and!; try done; try lia; auto.
  - injection E as <- <-. cbn. unfold update. cbn. specialize (Ha eq_refl). rewrite (Hl eq_refl).
    rewrite u64_small by (unfold in64; lia). split_and!; try done; simpl; try lia; auto.
  - specialize (Hh eq_refl). injection E as <- <-. cbn. unfold update. cbn.
    rewrite u64_small by (unfold in64; lia). case_if; [lia|]. split_and!; try done; simpl; try lia; auto.
Qed.

Lemma conc_inv_step s s' : conc_inv max blocking s -> conc_step max blocking s s' -> conc_inv max blocking s'.
Proof using All.
  intros [Hcur Hlock Hb Ha Hp] [[i choice] E]. unfold conc_act in E. simpl in E.
  destruct (c_pcs s !! i) as [pc|] eqn:Ei; [|done]. simpl in E.
  destruct (conc_thread max blocking s pc choice) as [[s1 pc1]|] eqn:Et; [|done]. injection E as <-.
  pose proof (sum_list_with_lookup is_holder _ _ _ Ei) as Lh.
  pose proof (sum_list_with_lookup is_locker _ _ _ Ei) as Ll.
  pose proof (sum_list_with_lookup is_adder _ _ _ Ei) as La.
  pose proof (sum_list_with_insert is_holder _ _ _ pc1 Ei) as Ih.
  pose proof (sum_list_with_insert is_locker _ _ _ pc1 Ei) as Il.
  pose proof (sum_list_with_insert is_adder _ _ _ pc1 Ei) as Ia.
  pose proof (adders_le_lockers (c_pcs s)) as Hal. pose proof (adders_le_lockers (<[i:=pc1]> (c_pcs s))) as Hal1.
  unfold holders, lockers, adders in *.
  assert (Hpi := Hp). rewrite Forall_lookup in Hpi. destruct (Hpi _ _ Ei) as [Hr Hbl].
  destruct (conc_thread_effect s pc choice s1 pc1 Et) as (Epc & Er & Ebl & Ec & El & Eadd & Eup).
  1: destruct blocking; lia. 1: done. 1: intros ->; simpl in Lh; lia. 1: intros ->; simpl in La; auto.
  1: intros Hl; destruct (c_locked s); [done|lia].
  constructor; unfold holders, lockers, adders; cbn; rewrite ?Epc.
  - lia.
  - destruct (c_locked s), (c_locked s1); simpl in *; lia.
  - destruct (decide (c_current s < c_current s1)%Z) as [Hlt|]; [|lia].
    destruct (Eup Hlt) as [->|]; [|destruct blocking; lia]. rewrite (Hbl eq_refl).
    assert (c_current s <= max)%Z by (apply Ha; simpl in La; lia). destruct pc1; simpl in *; lia.
  - intros H1. destruct (decide (pc1 = CAdd)) as [->|Hne]; [specialize (Eadd eq_refl); lia|].
    assert (is_adder pc1 = 0) by by destruct pc1.
    destruct (decide (pc = CAdd)) as [->|Hne']; simpl in *.
    + destruct (c_locked s); lia.
    + destruct (decide (c_current s < c_current s1)%Z) as [Hlt|]; [destruct (Eup Hlt); [done|lia]|].
      assert (c_current s <= max)%Z; [apply Ha|]; lia.
  - apply Forall_insert; [done|]. split; [done|]. intros Hb1. destruct (Ebl Hb1); auto.
Qed.

(** C18. Slots are counted exactly, and almost bounded.  Whatever the
    interleaving of acquires, waits and releases of any number of threads,
    [current] equals the number of slots held and never underflows; it stays
    within [maxConcurrent] when only [loopyConcurrencyTryAcquire] is used, and
    within [maxConcurrent + 1] when [loopyConcurrencyAcquire] is. *)
Theorem concurrency_slots threads s :
  rtc (conc_step max blocking) (conc_start threads) s ->
  (c_current s = Z.of_nat (holders s) /\
   Z.of_nat (holders s) <= max + (if blocking then 1 else 0))%Z.
Proof using All.
  intros Hr.
  assert (I : conc_inv max blocking s).
  { revert Hr. apply rtc_invariant; [by apply conc_inv_step|].
    constructor; unfold holders, lockers, adders; cbn; rewrite ?sum_list_with_replicate; simpl.
    - lia.
    - lia.
    - destruct blocking; lia.
    - lia.
    - by apply Forall_replicate. }
  destruct I as [Hc _ Hb _ _]. by rewrite <- Hc.
Qed.
End ThreadSafety.

Lemma conc_schedule_rtc max blocking acts s s' :
  schedule (conc_act max blocking) s acts = Some s' -> rtc (conc_step max blocking) s s'.
Proof. apply (schedule_rtc _ _ (fun _ => True)); [by intros ? a ? _ ?; exists a|by apply Forall_true]. Qed.

(** Thread 1 passes the test of the slow path; before it increments, thread 0
    takes the free slot with a compare-and-swap. *)
Definition exceeding_schedule : list (nat * bool) :=
  [(0, true); (0, true); (1, true); (1, true); (1, true); (0, true); (1, true);
   (0, true); (0, true); (1, true)].

(** The limit can be exceeded: with one slot and two threads that call
    [loopyConcurrencyAcquire], both can hold a slot at once, because the slow
    path increments [current] without comparing it again. *)
Theorem concurrency_limit_exceeded :
  exists s, rtc (conc_step 1 true) (conc_start 2) s /\ c_pcs s = [CHolder; CHolder] /\ holders s = 2.
Proof.
  destruct (schedule (conc_act 1 true) (conc_start 2) exceeding_schedule) as [s|] eqn:E; [|vm_compute in E; done].
  exists s. split; [by eapply conc_schedule_rtc|]. vm_compute in E. by injection E as <-.
Qed.

Lemma concurrency_slots_witness :
  exists s, rtc (conc_step 1 true) (conc_start 2) s /\ holders s = 2 /\
    c_current s = 2%Z /\ (Z.of_nat (holders s) <= 1 + 1)%Z.
Proof.
  destruct (schedule (conc_act 1 true) (conc_start 2) exceeding_schedule) as [s|] eqn:E; [|vm_compute in E; done].
  pose proof (conc_schedule_rtc _ _ _ _ _ E) as Hr. exists s.
  assert (H : c_current s = Z.of_nat (holders s) /\ (Z.of_nat (holders s) <= 1 + 1)%Z).
  { apply (concurrency_slots 1 true) with (threads := 2); [by split|exact Hr]. }
  vm_compute in E. injection E as <-. split; [done|]. split; [done|]. exact H.
Defined.

(** ** One caller *)

(** The deadline of a wait is the time it is computed at plus the remaining
    milliseconds, with a nanosecond field [pthread_cond_timedwait] accepts. *)
Lemma waitDeadline_exact tv_sec tv_nsec remainingMs :
  (0 <= tv_nsec < 1000000000)%Z -> (0 <= remainingMs)%Z ->
  let '(sec, nsec) := waitDeadline tv_sec tv_nsec remainingMs in
  (0 <= nsec < 1000000000 /\
   sec * 1000000000 + nsec = tv_sec * 1000000000 + tv_nsec + remainingMs * 1000000)%Z.
Proof.
  intros Hn Hr. unfold waitDeadline. pose proof (Z.div_mod remainingMs 1000 ltac:(done)).
  pose proof (Z.mod_pos_bound remainingMs 1000 ltac:(done)). case_if; lia.
Qed.

(** A blocking acquire gives up only by a timeout: without one, given or
    configured, it can only return by acquiring. *)
Lemma acquireLoop_gives_up l timeout startMs now wakes l' :
  acquireLoop l timeout startMs now wakes = Some (l', false) -> (0 < timeout)%Z.
Proof.
  intros E. apply Z.nle_gt. intros Ht. revert l now E.
  assert (Hf : (timeout >? 0)%Z = false) by (rewrite Z.gtb_ltb; by apply Z.ltb_ge).
  induction wakes as [|w wakes IH]; intros l now E; simpl in E; rewrite Hf in E; simpl in E;
    case_match; try done. by eapply IH.
Qed.
