(* ===== verification/Rax.v ===== *)
(** * The radix tree (a dependency)

    [rax] is a library outside the sources modelled here: a map from byte
    strings to pointers, iterated in key order.  The code that uses it is
    written against the class [Rax] of the operations it calls; what it relies
    on is [RaxSpec].  Pointers are addresses of the caller's heap.  The finite
    maps of stdpp satisfy the specification, so nothing assumed is empty. *)

From S2P Require Import Prelude.

Class Rax := {
  rax : Type;
  raxNew : rax;
  raxFind : rax -> string -> option nat;
  (** inserts at a key that is absent *)
  raxTryInsert : rax -> string -> nat -> rax;
  raxRemove : rax -> string -> rax;
  (** what an iterator started at the first key ("^") goes through *)
  raxElems : rax -> list (string * nat)
}.

Class RaxSpec {R : Rax} := {
  rax_map : rax -> gmap string nat;
  rax_map_new : rax_map raxNew = ∅;
  raxFind_spec r k : raxFind r k = rax_map r !! k;
  raxTryInsert_spec r k a : raxFind r k = None -> rax_map (raxTryInsert r k a) = <[k := a]> (rax_map r);
  raxRemove_spec r k : rax_map (raxRemove r k) = delete k (rax_map r);
  raxElems_spec r : raxElems r ≡ₚ map_to_list (rax_map r)
}.
#[global] Arguments RaxSpec R : clear implicits.

(** An implementation. *)
#[export] Instance gmap_rax : Rax := {|
  rax := gmap string nat;
  raxNew := ∅;
  raxFind r k := r !! k;
  raxTryInsert r k a := <[k := a]> r;
  raxRemove r k := delete k r;
  raxElems r := map_to_list r
|}.

#[export] Instance gmap_rax_spec : RaxSpec gmap_rax.
Proof. refine {| rax_map := fun r : @rax gmap_rax => r : gmap string nat |}; done. Defined.
