(* ===== verification/ConcurrencyPool.v ===== *)
(** * The concurrency pool ([src/loopyConcurrencyPool.c])

    A pool counts the slots its users hold, against a limit per user and one
    for the whole pool.  First every operation as one caller runs it, over a
    heap of user records (a handle to a removed user is a dangling address);
    then the acquire and release protocol of any number of threads as a step
    relation on the two atomic counters. *)

From S2P Require Import Prelude Rax.

Inductive loopyConcurrencyResult :=
| LOOPY_CONCURRENCY_OK
| LOOPY_CONCURRENCY_ERROR
| LOOPY_CONCURRENCY_INVALID
| LOOPY_CONCURRENCY_TIMEOUT
| LOOPY_CONCURRENCY_NOT_FOUND
| LOOPY_CONCURRENCY_LIMIT
| LOOPY_CONCURRENCY_GLOBAL_LIMIT.

#[export] Instance loopyConcurrencyResult_eq_dec : EqDecision loopyConcurrencyResult.
Proof. solve_decision. Defined.

Record loopyConcurrencyPoolConfig := PoolConfig {
  globalLimit : Z;
  defaultUserLimit : Z;
  maxUsers : Z;
  fairScheduling : bool;
  autoCreateUsers : bool;
  trackStats : bool
}.

Record loopyConcurrencyUserConfig := UserConfig {
  uc_limit : Z;
  uc_reserved : Z;
  uc_priority : Z;
  uc_userData : nat
}.

(** The record a user handle points to; its [pool] is the pool at hand. *)
Record loopyConcurrencyUser := ConcurrencyUser {
  userId : string;
  limit : Z;
  reserved : Z;
  priority : Z;
  userData : nat;
  active : Z;
  peak : Z;
  acquires : Z;
  releases : Z;
  denied : Z;
  waits : Z
}.

#[export] Instance ConcurrencyUser_rebuild : Rebuild loopyConcurrencyUser := fun u =>
  ConcurrencyUser (userId u) (limit u) (reserved u) (priority u) (userData u) (active u) (peak u)
    (acquires u) (releases u) (denied u) (waits u).

(** [updatePeak] for one caller. *)
Definition updatePeak (peak current : Z) : Z := if (current >? peak)%Z then current else peak.

Definition incr (n : Z) : Z := n +64 1.

Definition loopyConcurrencyPoolConfigInit : loopyConcurrencyPoolConfig :=
  PoolConfig 0 10 0 false true true.
Definition loopyConcurrencyUserConfigInit : loopyConcurrencyUserConfig := UserConfig 10 0 0 0.

Section Pool.
Context {R : Rax}.

(** [heap] is the memory the users live in. *)
Record loopyConcurrencyPool := ConcurrencyPool {
  users : rax;
  heap : gmap nat loopyConcurrencyUser;
  config : loopyConcurrencyPoolConfig;
  globalActive : Z;
  globalPeak : Z;
  userCount : Z;
  totalAcquires : Z;
  totalReleases : Z;
  totalDenied : Z;
  totalWaits : Z
}.

#[local] Instance ConcurrencyPool_rebuild : Rebuild loopyConcurrencyPool := fun p =>
  ConcurrencyPool (users p) (heap p) (config p) (globalActive p) (globalPeak p) (userCount p)
    (totalAcquires p) (totalReleases p) (totalDenied p) (totalWaits p).

(** The three booleans are the outcomes of the allocations and of
    [pthread_rwlock_init]. *)
Definition loopyConcurrencyPoolNew (alloc raxAlloc lockInit : bool)
    (cfg : option loopyConcurrencyPoolConfig) : option loopyConcurrencyPool :=
  if negb alloc then None
  else if negb raxAlloc then None
  else if negb lockInit then None
  else
    let c := match cfg with Some c => c | None => loopyConcurrencyPoolConfigInit end in
    Some (ConcurrencyPool raxNew ∅ c 0 0 0 0 0 0 0).

(** [zcalloc] of a user and initialisation of its fields. *)
Definition newUser (p : loopyConcurrencyPool) (id : string) (cfg : option loopyConcurrencyUserConfig)
    : loopyConcurrencyUser :=
  match cfg with
  | Some c => ConcurrencyUser id (uc_limit c) (uc_reserved c) (uc_priority c) (uc_userData c) 0 0 0 0 0 0
  | None => ConcurrencyUser id (defaultUserLimit (config p)) 0 0 0 0 0 0 0 0 0
  end.

(** The outcomes of the allocations of the user, of its name and of the tree's
    node. *)
Record addAllocs := AddAllocs { allocUser : bool; allocName : bool; allocNode : bool }.

Definition loopyConcurrencyPoolAddUser (p : loopyConcurrencyPool) (id : string)
    (cfg : option loopyConcurrencyUserConfig) (m : addAllocs) : loopyConcurrencyPool * option nat :=
  if (maxUsers (config p) >? 0)%Z && (userCount p >=? maxUsers (config p))%Z then (p, None)
  else if negb (allocUser m) then (p, None)
  else if negb (allocName m) then (p, None)
  else
    let user := newUser p id cfg in
    match raxFind (users p) id with
    | Some old => (p, Some old)
    | None =>
        if negb (allocNode m) then (p, None)
        else
          let a := fresh (dom (heap p)) in
          let p := p <| heap ::= fun h => <[a := user]> h |> in
          let p := p <| users ::= fun r => raxTryInsert r id a |> in
          (p <| userCount ::= incr |>, Some a)
    end.

(** [None]: undefined behaviour, the access to a freed user. *)
Definition loopyConcurrencyPoolRemoveUser (p : loopyConcurrencyPool) (id : string)
    : option (loopyConcurrencyPool * bool) :=
  match raxFind (users p) id with
  | None => Some (p, false)
  | Some a =>
      user ← heap p !! a;
      let p := if (active user >? 0)%Z then p <| globalActive ::= fun g => g -64 active user |> else p in
      let p := p <| users ::= fun r => raxRemove r id |> in
      let p := p <| userCount ::= fun n => n -64 1 |> in
      Some (p <| heap ::= delete a |>, true)
  end.

Definition loopyConcurrencyPoolGetUser (p : loopyConcurrencyPool) (id : string) : option nat :=
  raxFind (users p) id.

Definition set_user (p : loopyConcurrencyPool) (a : nat) (f : loopyConcurrencyUser -> loopyConcurrencyUser)
    : loopyConcurrencyPool := p <| heap ::= alter f a |>.

Definition loopyConcurrencyUserUpdate (p : loopyConcurrencyPool) (u : option nat)
    (cfg : option loopyConcurrencyUserConfig) : option (loopyConcurrencyPool * bool) :=
  match u, cfg with
  | Some a, Some c =>
      _ ← heap p !! a;
      Some (set_user p a (fun u => u <| limit := uc_limit c |> <| reserved := uc_reserved c |>
                                     <| priority := uc_priority c |> <| userData := uc_userData c |>), true)
  | _, _ => Some (p, false)
  end.

(** The statistics of a denial. *)
Definition recordDenied (p : loopyConcurrencyPool) (a : nat) : loopyConcurrencyPool :=
  if trackStats (config p) then
    (set_user p a (fun u => u <| denied ::= incr |>)) <| totalDenied ::= incr |>
  else p.

Definition loopyConcurrencyUserTryAcquire (p : loopyConcurrencyPool) (u : option nat) (count : Z)
    : option (loopyConcurrencyPool * loopyConcurrencyResult) :=
  match u with
  | None => Some (p, LOOPY_CONCURRENCY_INVALID)
  | Some a =>
      if (count =? 0)%Z then Some (p, LOOPY_CONCURRENCY_INVALID)
      else
        user ← heap p !! a;
        let gl := globalLimit (config p) in
        (* step 1 *)
        if (gl >? 0)%Z && (globalActive p +64 count >? gl)%Z then
          Some (recordDenied p a, LOOPY_CONCURRENCY_GLOBAL_LIMIT)
        else
          let p := if (gl >? 0)%Z then p <| globalActive ::= fun g => g +64 count |> else p in
          (* step 2 *)
          if (active user +64 count >? limit user)%Z then
            let p := if (gl >? 0)%Z then p <| globalActive ::= fun g => g -64 count |> else p in
            Some (recordDenied p a, LOOPY_CONCURRENCY_LIMIT)
          else
            let p := set_user p a (fun u => u <| active := active user +64 count |>) in
            (* step 3 *)
            let p := if (gl =? 0)%Z then p <| globalActive ::= fun g => g +64 count |> else p in
            let p := set_user p a (fun u => u <| peak ::= fun k => updatePeak k (active user +64 count) |>) in
            let p := p <| globalPeak ::= fun k => updatePeak k (globalActive p) |> in
            let p := if trackStats (config p) then
                       (set_user p a (fun u => u <| acquires ::= incr |>)) <| totalAcquires ::= incr |>
                     else p in
            Some (p, LOOPY_CONCURRENCY_OK)
  end.

Definition loopyConcurrencyPoolTryAcquire (p : loopyConcurrencyPool) (id : string) (count : Z)
    (m : addAllocs) : option (loopyConcurrencyPool * loopyConcurrencyResult) :=
  if (count =? 0)%Z then Some (p, LOOPY_CONCURRENCY_INVALID)
  else
    let user := loopyConcurrencyPoolGetUser p id in
    let '(p, user) :=
      match user with
      | None => if autoCreateUsers (config p) then loopyConcurrencyPoolAddUser p id None m else (p, None)
      | Some _ => (p, user)
      end in
    match user with
    | None => Some (p, LOOPY_CONCURRENCY_NOT_FOUND)
    | Some _ => loopyConcurrencyUserTryAcquire p user count
    end.

Definition loopyConcurrencyUserRelease (p : loopyConcurrencyPool) (u : option nat) (count : Z)
    : option (loopyConcurrencyPool * bool) :=
  match u with
  | None => Some (p, false)
  | Some a =>
      if (count =? 0)%Z then Some (p, false)
      else
        user ← heap p !! a;
        let count := if (count >? active user)%Z then active user else count in
        if (count =? 0)%Z then Some (p, true)
        else
          let p := set_user p a (fun u => u <| active := active user -64 count |>) in
          let p := p <| globalActive ::= fun g => g -64 count |> in
          let p := if trackStats (config p) then
                     (set_user p a (fun u => u <| releases ::= incr |>)) <| totalReleases ::= incr |>
                   else p in
          Some (p, true)
  end.

Definition loopyConcurrencyPoolRelease (p : loopyConcurrencyPool) (id : string) (count : Z)
    : option (loopyConcurrencyPool * bool) :=
  if (count =? 0)%Z then Some (p, false)
  else
    match loopyConcurrencyPoolGetUser p id with
    | None => Some (p, false)
    | user => loopyConcurrencyUserRelease p user count
    end.

Definition loopyConcurrencyUserReleaseAll (p : loopyConcurrencyPool) (u : option nat)
    : option (loopyConcurrencyPool * Z) :=
  match u with
  | None => Some (p, 0%Z)
  | Some a =>
      user ← heap p !! a;
      let p := set_user p a (fun u => u <| active := 0%Z |>) in
      if (active user >? 0)%Z then
        let p := p <| globalActive ::= fun g => g -64 active user |> in
        let p := if trackStats (config p) then
                   (set_user p a (fun u => u <| releases ::= incr |>)) <| totalReleases ::= incr |>
                 else p in
        Some (p, active user)
      else Some (p, active user)
  end.

Definition loopyConcurrencyPoolReleaseAll (p : loopyConcurrencyPool) (id : string)
    : option (loopyConcurrencyPool * Z) :=
  match loopyConcurrencyPoolGetUser p id with
  | None => Some (p, 0%Z)
  | user => loopyConcurrencyUserReleaseAll p user
  end.

(** ** Queries *)

Definition loopyConcurrencyUserAvailable (p : loopyConcurrencyPool) (u : option nat) : option Z :=
  match u with
  | None => Some 0%Z
  | Some a =>
      user ← heap p !! a;
      Some (if (active user >=? limit user)%Z then 0%Z else limit user -64 active user)
  end.

Definition loopyConcurrencyAvailable (p : loopyConcurrencyPool) (id : string) : option Z :=
  loopyConcurrencyUserAvailable p (loopyConcurrencyPoolGetUser p id).

Definition loopyConcurrencyUserActive (p : loopyConcurrencyPool) (u : option nat) : option Z :=
  match u with
  | None => Some 0%Z
  | Some a => user ← heap p !! a; Some (active user)
  end.

Definition loopyConcurrencyActive (p : loopyConcurrencyPool) (id : string) : option Z :=
  loopyConcurrencyUserActive p (loopyConcurrencyPoolGetUser p id).

Definition loopyConcurrencyCanAcquire (p : loopyConcurrencyPool) (id : string) (count : Z) : option bool :=
  if (count =? 0)%Z then Some false
  else
    let gl := globalLimit (config p) in
    match loopyConcurrencyPoolGetUser p id with
    | None =>
        Some (if autoCreateUsers (config p) then
                if (gl >? 0)%Z then (globalActive p +64 count <=? gl)%Z else true
              else false)
    | Some a =>
        user ← heap p !! a;
        Some (if (active user +64 count >? limit user)%Z then false
              else if (gl >? 0)%Z && (globalActive p +64 count >? gl)%Z then false else true)
    end.

Definition loopyConcurrencyPoolAvailable (p : loopyConcurrencyPool) : Z :=
  let gl := globalLimit (config p) in
  if (gl =? 0)%Z then (w64 - 1)%Z
  else if (globalActive p >=? gl)%Z then 0%Z else gl -64 globalActive p.

Definition loopyConcurrencyPoolActive (p : loopyConcurrencyPool) : Z := globalActive p.

Definition loopyConcurrencyPoolUserCount (p : loopyConcurrencyPool) : Z := userCount p.

Definition loopyConcurrencyUserId (p : loopyConcurrencyPool) (u : option nat) : option (option string) :=
  match u with None => Some None | Some a => user ← heap p !! a; Some (Some (userId user)) end.

Definition loopyConcurrencyUserData (p : loopyConcurrencyPool) (u : option nat) : option nat :=
  match u with None => Some 0 | Some a => user ← heap p !! a; Some (userData user) end.

(** ** Statistics and iteration *)

Record loopyConcurrencyPoolStats := PoolStats {
  ps_globalLimit : Z;
  ps_globalActive : Z;
  ps_globalPeak : Z;
  ps_userCount : Z;
  ps_totalAcquires : Z;
  ps_totalReleases : Z;
  ps_totalDenied : Z;
  ps_totalWaits : Z
}.

Definition loopyConcurrencyPoolGetStats (p : loopyConcurrencyPool) : loopyConcurrencyPoolStats :=
  PoolStats (globalLimit (config p)) (globalActive p) (globalPeak p) (userCount p) (totalAcquires p)
    (totalReleases p) (totalDenied p) (totalWaits p).

Record loopyConcurrencyUserStats := UserStats {
  us_limit : Z;
  us_active : Z;
  us_peak : Z;
  us_reserved : Z;
  us_acquires : Z;
  us_releases : Z;
  us_denied : Z;
  us_waits : Z
}.

(** [None] in the result: nothing is stored through [stats]. *)
Definition loopyConcurrencyUserGetStats (p : loopyConcurrencyPool) (u : option nat)
    : option (option loopyConcurrencyUserStats) :=
  match u with
  | None => Some None
  | Some a =>
      u ← heap p !! a;
      Some (Some (UserStats (limit u) (active u) (peak u) (reserved u) (acquires u) (releases u)
                    (denied u) (waits u)))
  end.

Definition loopyConcurrencyPoolResetStats (p : loopyConcurrencyPool) : loopyConcurrencyPool :=
  p <| globalPeak := globalActive p |> <| totalAcquires := 0%Z |> <| totalReleases := 0%Z |>
    <| totalDenied := 0%Z |> <| totalWaits := 0%Z |>.

Definition loopyConcurrencyUserResetStats (p : loopyConcurrencyPool) (u : option nat)
    : option loopyConcurrencyPool :=
  match u with
  | None => Some p
  | Some a =>
      _ ← heap p !! a;
      Some (set_user p a (fun u => u <| peak := active u |> <| acquires := 0%Z |> <| releases := 0%Z |>
                                     <| denied := 0%Z |> <| waits := 0%Z |>))
  end.

(** [fn] answers whether to stop; the result is the number of calls. *)
Fixpoint iterate (fn : string -> nat -> bool) (l : list (string * nat)) (count : nat) : nat :=
  match l with
  | [] => count
  | (key, a) :: l =>
      let count := count + 1 in
      let userId := String.substring 0 255 key in
      if fn userId a then count else iterate fn l count
  end.

Definition loopyConcurrencyPoolIterate (p : loopyConcurrencyPool) (fn : string -> nat -> bool) : nat :=
  iterate fn (raxElems (users p)) 0.
End Pool.

#[export] Existing Instance ConcurrencyPool_rebuild.

(** [None] is a value outside the enumeration. *)
Definition loopyConcurrencyResultName (result : option loopyConcurrencyResult) : string :=
  match result with
  | Some LOOPY_CONCURRENCY_OK => "OK"
  | Some LOOPY_CONCURRENCY_LIMIT => "LIMIT"
  | Some LOOPY_CONCURRENCY_GLOBAL_LIMIT => "GLOBAL_LIMIT"
  | Some LOOPY_CONCURRENCY_INVALID => "INVALID"
  | Some LOOPY_CONCURRENCY_NOT_FOUND => "NOT_FOUND"
  | Some LOOPY_CONCURRENCY_TIMEOUT => "TIMEOUT"
  | Some LOOPY_CONCURRENCY_ERROR | None => "UNKNOWN"
  end.

(** ** The accounts of a pool *)

(** Sums of integers over a list. *)
Fixpoint zsum {A} (f : A -> Z) (l : list A) : Z :=
  match l with [] => 0 | x :: l => f x + zsum f l end.

Lemma zsum_perm {A} (f : A -> Z) l l' : l ≡ₚ l' -> zsum f l = zsum f l'.
Proof. induction 1; simpl; lia. Qed.

Lemma zsum_ext {A} (f g : A -> Z) l : (forall x, x ∈ l -> f x = g x) -> zsum f l = zsum g l.
Proof.
  induction l as [|x l IH]; intros H; [done|]. simpl.
  rewrite (H x) by (by left). rewrite IH; [done|]. intros y Hy. apply H. by right.
Qed.

Lemma zsum_nonneg {A} (f : A -> Z) l : (forall x, x ∈ l -> 0 <= f x)%Z -> (0 <= zsum f l)%Z.
Proof.
  induction l as [|x l IH]; intros H; [done|]. simpl.
  assert (0 <= f x)%Z by (apply H; by left).
  assert (0 <= zsum f l)%Z by (apply IH; intros y Hy; apply H; by right). lia.
Qed.

Section Accounts.
Context {R : Rax} {RS : RaxSpec R}.
Implicit Types (p : loopyConcurrencyPool) (a : nat) (id : string).

(** The active slots of the user at an address. *)
Definition active_at p a : Z := match heap p !! a with Some u => active u | None => 0 end.

(** The slots held by the users of the pool. *)
Definition slots p : Z := zsum (fun ka => active_at p ka.2) (map_to_list (rax_map (users p))).

Record pool_wf p : Prop := {
  wf_live : forall id a, rax_map (users p) !! id = Some a -> is_Some (heap p !! a) /\ (0 <= active_at p a)%Z;
  wf_inj : forall id id' a, rax_map (users p) !! id = Some a -> rax_map (users p) !! id' = Some a -> id = id';
  wf_global : globalActive p = slots p;
  wf_in64 : (globalActive p < w64)%Z;
  wf_limit : (0 < globalLimit (config p) -> globalActive p <= globalLimit (config p))%Z;
  wf_config : (0 <= globalLimit (config p) /\ 0 <= defaultUserLimit (config p))%Z;
  wf_count : userCount p = u64 (Z.of_nat (size (rax_map (users p))))
}.

(** The slots of one user and those of the others. *)
Lemma slots_split p id a :
  rax_map (users p) !! id = Some a ->
  slots p = (active_at p a + zsum (fun ka => active_at p ka.2) (map_to_list (delete id (rax_map (users p)))))%Z.
Proof using Type.
  intros Hi. unfold slots.
  by rewrite <- (zsum_perm _ _ _ (map_to_list_delete _ _ _ Hi)).
Qed.

Lemma wf_others_nonneg p id :
  pool_wf p -> (0 <= zsum (fun ka => active_at p ka.2) (map_to_list (delete id (rax_map (users p)))))%Z.
Proof using Type.
  intros W. apply zsum_nonneg. intros [k b] Hb. apply elem_of_map_to_list in Hb.
  apply lookup_delete_Some in Hb as [_ Hb]. by apply (wf_live _ W) in Hb as [_ Hb].
Qed.

Lemma wf_active_le p id a :
  pool_wf p -> rax_map (users p) !! id = Some a -> (0 <= active_at p a <= globalActive p)%Z.
Proof using Type.
  intros W Hi. pose proof (wf_others_nonneg p id W). rewrite (wf_global _ W), (slots_split p id a Hi).
  apply (wf_live _ W) in Hi as [_ ?]. lia.
Qed.

(** An operation on one user: [d] more slots. *)
Record pool_upd p p' a (d : Z) : Prop := {
  upd_users : users p' = users p;
  upd_config : config p' = config p;
  upd_count : userCount p' = userCount p;
  upd_live : forall b, is_Some (heap p !! b) -> is_Some (heap p' !! b);
  upd_others : forall b, b <> a -> active_at p' b = active_at p b;
  upd_active : active_at p' a = (active_at p a + d)%Z;
  upd_global : globalActive p' = (globalActive p + d)%Z
}.

Lemma pool_upd_wf p p' id a d :
  pool_wf p -> rax_map (users p) !! id = Some a -> pool_upd p p' a d ->
  (0 <= active_at p a + d)%Z -> (globalActive p + d < w64)%Z ->
  (0 < globalLimit (config p) -> globalActive p + d <= globalLimit (config p))%Z -> pool_wf p'.
Proof using Type.
  intros W Hi [Eu Ec En El Eo Ea Eg] H0 H64 Hgl.
  assert (Hi' : rax_map (users p') !! id = Some a) by by rewrite Eu.
  constructor; rewrite ?Eu, ?Ec, ?En, ?Eg; try apply W; try done.
  - intros id' b Hb. destruct (wf_live _ W _ _ Hb) as [Hl Hp]. split; [by apply El|].
    destruct (decide (b = a)) as [->|Hne]; [by rewrite Ea|by rewrite Eo].
  - rewrite (wf_global _ W), (slots_split p id a Hi), (slots_split p' id a Hi'), Ea, Eu.
    rewrite (zsum_ext (fun ka => active_at p' ka.2) (fun ka => active_at p ka.2)); [lia|].
    intros [k b] Hb. apply elem_of_map_to_list, lookup_delete_Some in Hb as [Hk Hb]. simpl. apply Eo.
    intros ->. apply Hk. by apply (wf_inj _ W _ _ a).
Qed.

(** The updates of the heap at one address [a], of which [Hu] gives the user. *)
Ltac pool_upd Hu :=
  match type of Hu with heap _ !! ?a = _ =>
    constructor; unfold active_at, set_user; cbn; try done;
    match goal with
    | |- forall b, is_Some _ -> is_Some _ =>
        intros b [v Hv]; destruct (decide (b = a)) as [->|];
        [rewrite ?lookup_alter_eq, Hu; cbn; by eexists | rewrite ?lookup_alter_ne by done; by eexists]
    | |- forall b, b <> _ -> _ => intros b Hb; by rewrite ?lookup_alter_ne by done
    | _ => rewrite ?lookup_alter_eq, ?Hu; cbn; unfold update; rewrite ?u64_sub_l;
           repeat (rewrite u64_small by (unfold in64; lia)); try lia
    end
  end.

Lemma recordDenied_upd p a u : heap p !! a = Some u -> pool_upd p (recordDenied p a) a 0.
Proof using Type. intros Hu. unfold recordDenied. destruct (trackStats (config p)); pool_upd Hu. Qed.

(** The answer of an acquire, as the specification gives it. *)
Definition acquire_answer p (u : loopyConcurrencyUser) (count : Z) : loopyConcurrencyResult :=
  if decide (0 < globalLimit (config p) /\ globalLimit (config p) < globalActive p + count)%Z
  then LOOPY_CONCURRENCY_GLOBAL_LIMIT
  else if decide (limit u < active u + count)%Z then LOOPY_CONCURRENCY_LIMIT else LOOPY_CONCURRENCY_OK.

Lemma userTryAcquire_spec p id a u count :
  pool_wf p -> rax_map (users p) !! id = Some a -> heap p !! a = Some u ->
  (0 < count)%Z -> (globalActive p + count < w64)%Z ->
  exists p', loopyConcurrencyUserTryAcquire p (Some a) count = Some (p', acquire_answer p u count) /\
    pool_upd p p' a (if decide (acquire_answer p u count = LOOPY_CONCURRENCY_OK) then count else 0).
Proof using Type.
  intros W Hi Hu Hc H64. pose proof (wf_active_le p id a W Hi) as Ha.
  assert (Eu : active_at p a = active u) by (unfold active_at; by rewrite Hu). rewrite Eu in Ha.
  pose proof (proj1 (wf_config _ W)) as Hgl.
  unfold loopyConcurrencyUserTryAcquire, acquire_answer. rewrite Hu. cbn [mbind option_bind].
  destruct (Z.eqb_spec count 0); [lia|]. rewrite !u64_small by (unfold in64; lia).
  destruct (globalLimit (config p) >? 0)%Z eqn:Eg; bool_to_prop; simpl.
  - destruct (_ >? globalLimit (config p))%Z eqn:E1; bool_to_prop.
    { rewrite decide_True by lia. eexists. split; [done|]. by apply recordDenied_upd with u. }
    rewrite decide_False by lia. destruct (Z.gtb_spec (active u + count) (limit u)).
    + rewrite decide_True by lia. eexists. split; [done|]. rewrite decide_False by done.
      unfold recordDenied. cbn. destruct (trackStats _); pool_upd Hu.
    + rewrite decide_False by lia. rewrite decide_True by done. destruct (Z.eqb_spec (globalLimit (config p)) 0); [lia|].
      eexists. split; [done|]. destruct (trackStats _); pool_upd Hu.
  - rewrite decide_False by lia. destruct (Z.gtb_spec (active u + count) (limit u)).
    + rewrite decide_True by lia. eexists. split; [done|]. by apply recordDenied_upd with u.
    + rewrite decide_False by lia. rewrite decide_True by done. destruct (Z.eqb_spec (globalLimit (config p)) 0); [|lia].
      eexists. split; [done|]. destruct (trackStats _); pool_upd Hu.
Qed.

Lemma userRelease_spec p id a u count :
  pool_wf p -> rax_map (users p) !! id = Some a -> heap p !! a = Some u -> (0 < count)%Z ->
  exists p', loopyConcurrencyUserRelease p (Some a) count = Some (p', true) /\
    pool_upd p p' a (- Z.min count (active u)).
Proof using Type.
  intros W Hi Hu Hc. pose proof (wf_active_le p id a W Hi) as Ha. pose proof (wf_in64 _ W).
  assert (Eu : active_at p a = active u) by (unfold active_at; by rewrite Hu). rewrite Eu in Ha.
  unfold loopyConcurrencyUserRelease. rewrite Hu. cbn [mbind option_bind].
  destruct (Z.eqb_spec count 0); [lia|].
  replace (if (count >? active u)%Z then active u else count) with (Z.min count (active u))
    by (case_if; lia).
  destruct (Z.eqb_spec (Z.min count (active u)) 0) as [E0|].
  - eexists. split; [done|]. rewrite E0. pool_upd Hu.
  - eexists. split; [done|]. destruct (trackStats _); pool_upd Hu.
Qed.

Lemma userReleaseAll_spec p id a u :
  pool_wf p -> rax_map (users p) !! id = Some a -> heap p !! a = Some u ->
  exists p', loopyConcurrencyUserReleaseAll p (Some a) = Some (p', active u) /\
    pool_upd p p' a (- active u).
Proof using Type.
  intros W Hi Hu. pose proof (wf_active_le p id a W Hi) as Ha. pose proof (wf_in64 _ W).
  assert (Eu : active_at p a = active u) by (unfold active_at; by rewrite Hu). rewrite Eu in Ha.
  unfold loopyConcurrencyUserReleaseAll. rewrite Hu. cbn [mbind option_bind].
  destruct (active u >? 0)%Z eqn:E; bool_to_prop; (eexists; split; [done|]); [destruct (trackStats _)|]; pool_upd Hu.
Qed.

Lemma userUpdate_upd p a u c :
  heap p !! a = Some u ->
  exists p', loopyConcurrencyUserUpdate p (Some a) (Some c) = Some (p', true) /\ pool_upd p p' a 0.
Proof using Type.
  intros Hu. unfold loopyConcurrencyUserUpdate. rewrite Hu. eexists. split; [done|]. pool_upd Hu.
Qed.

Lemma userResetStats_upd p a u :
  heap p !! a = Some u ->
  exists p', loopyConcurrencyUserResetStats p (Some a) = Some p' /\ pool_upd p p' a 0.
Proof using Type.
  intros Hu. unfold loopyConcurrencyUserResetStats. rewrite Hu. eexists. split; [done|]. pool_upd Hu.
Qed.

(** Adding a user: it holds no slot. *)
Lemma addUser_wf p id cfg m :
  pool_wf p ->
  let '(p', r) := loopyConcurrencyPoolAddUser p id cfg m in
  pool_wf p' /\ globalActive p' = globalActive p /\ config p' = config p /\
  (forall a, r = Some a -> rax_map (users p') !! id = Some a).
Proof using Type.
  intros W. unfold loopyConcurrencyPoolAddUser. rewrite raxFind_spec.
  destruct (_ && _); [by split_and!|]. destruct (negb _); [by split_and!|]. destruct (negb _); [by split_and!|].
  destruct (rax_map (users p) !! id) as [old|] eqn:Eo; [split_and!; try done; by intros a [= <-]|].
  destruct (negb _); [by split_and!|]. cbn zeta.
  set (a := fresh (dom (heap p))). assert (Hf : heap p !! a = None) by (apply not_elem_of_dom, is_fresh).
  assert (Em : rax_map (raxTryInsert (users p) id a) = <[id := a]> (rax_map (users p)))
    by (apply raxTryInsert_spec; by rewrite raxFind_spec).
  assert (Hne : forall id' b, rax_map (users p) !! id' = Some b -> b <> a).
  { intros id' b Hb ->. apply (wf_live _ W) in Hb as [[? ?] _]. congruence. }
  cbn. split_and!; try done.
  2: { intros b [= <-]. by rewrite Em, lookup_insert_eq. }
  constructor; cbn; rewrite ?Em; try apply W.
  - intros id' b Hb. unfold active_at. cbn. apply lookup_insert_Some in Hb as [[<- <-]|[Hk Hb]].
    + rewrite lookup_insert_eq. split; [done|]. by destruct cfg.
    + rewrite lookup_insert_ne by (symmetry; by eapply Hne). apply (wf_live _ W _ _ Hb).
  - intros id1 id2 b. rewrite !lookup_insert_Some. intros [[<- <-]|[Hk1 H1]] [[<- E2]|[Hk2 H2]]; try done.
    + by apply Hne in H2.
    + by apply Hne in H1.
    + by apply (wf_inj _ W _ _ b).
  - unfold slots. cbn. rewrite Em, (zsum_perm _ _ _ (map_to_list_insert _ _ _ Eo)). simpl.
    replace (active_at _ a) with 0%Z by (unfold active_at; cbn; rewrite lookup_insert_eq; by destruct cfg).
    rewrite (wf_global _ W). unfold slots. simpl. apply zsum_ext. intros [k b] Hb.
    apply elem_of_map_to_list in Hb. unfold active_at. cbn.
    by rewrite lookup_insert_ne by (symmetry; by eapply Hne).
  - rewrite map_size_insert_None by done. unfold incr, update. rewrite (wf_count _ W).
    autorewrite with loopy_simpl. f_equal. lia.
Qed.

Lemma removeUser_wf p id :
  pool_wf p ->
  exists p' b, loopyConcurrencyPoolRemoveUser p id = Some (p', b) /\ pool_wf p' /\ config p' = config p /\
    rax_map (users p') = delete id (rax_map (users p)) /\
    globalActive p' = (globalActive p - from_option (active_at p) 0%Z (rax_map (users p) !! id))%Z.
Proof using Type.
  intros W. unfold loopyConcurrencyPoolRemoveUser. rewrite raxFind_spec.
  destruct (rax_map (users p) !! id) as [a|] eqn:Ea; simpl.
  2: { exists p, false. split_and!; try done; [by rewrite delete_id|lia]. }
  destruct (wf_live _ W _ _ Ea) as [[u Hu] _]. rewrite Hu. simpl.
  pose proof (wf_active_le p id a W Ea) as Ha. pose proof (wf_in64 _ W).
  assert (Eu : active_at p a = active u) by (unfold active_at; by rewrite Hu). rewrite Eu in *.
  pose proof (wf_others_nonneg p id W) as Hoth. pose proof (slots_split p id a Ea) as Hsp.
  eexists _, true. split; [done|].
  match goal with |- pool_wf ?q /\ _ => set (p' := q) end.
  assert (Em : rax_map (users p') = delete id (rax_map (users p))).
  { unfold p'. case_if; cbn; apply raxRemove_spec. }
  assert (Eg : globalActive p' = (globalActive p - active u)%Z).
  { unfold p'. destruct (_ >? _)%Z eqn:E; bool_to_prop; cbn; [apply u64_small; unfold in64; lia|lia]. }
  assert (Eh : heap p' = delete a (heap p)) by (unfold p'; by case_if).
  assert (Ec : config p' = config p) by (unfold p'; by case_if).
  assert (En : userCount p' = userCount p -64 1) by (unfold p'; by case_if).
  clearbody p'. split_and!; try done.
  assert (Hne : forall id' b, rax_map (users p') !! id' = Some b -> b <> a /\ rax_map (users p) !! id' = Some b).
  { intros id' b. rewrite Em, lookup_delete_Some. intros [Hk Hb]. split; [|done].
    intros ->. apply Hk. by apply (wf_inj _ W _ _ a). }
  assert (Hact : forall b, b <> a -> active_at p' b = active_at p b).
  { intros b Hb. unfold active_at. by rewrite Eh, lookup_delete_ne. }
  constructor; rewrite ?Ec, ?En, ?Eg; try apply W; try lia.
  - intros id' b Hb. apply Hne in Hb as [Hb Hb']. rewrite Hact by done.
    rewrite Eh, lookup_delete_ne by done. by apply (wf_live _ W) in Hb'.
  - intros id1 id2 b H1 H2. apply Hne in H1 as [_ H1]. apply Hne in H2 as [_ H2]. by apply (wf_inj _ W _ _ b).
  - rewrite (wf_global _ W), Hsp, Eu. unfold slots. rewrite Em.
    rewrite (zsum_ext (fun ka => active_at p' ka.2) (fun ka => active_at p ka.2)); [lia|].
    intros [k b] Hb. apply elem_of_map_to_list in Hb. apply Hact. rewrite <- Em in Hb. by apply Hne in Hb as [? _].
  - pose proof (wf_limit _ W). intros. lia.
  - rewrite Em, (wf_count _ W), map_size_delete_Some by (by rewrite Ea). autorewrite with loopy_simpl.
    assert (size (rax_map (users p)) <> 0) by (intros E; apply map_size_empty_iff in E; rewrite E in Ea; done).
    f_equal. lia.
Qed.
End Accounts.

(** ** Runs of the pool's operations by name *)

Inductive pool_op :=
| PoolAdd (id : string) (cfg : option loopyConcurrencyUserConfig) (m : addAllocs)
| PoolRemove (id : string)
| PoolAcquire (id : string) (count : Z) (m : addAllocs)
| PoolRelease (id : string) (count : Z)
| PoolReleaseAll (id : string)
| PoolUpdate (id : string) (cfg : loopyConcurrencyUserConfig)
| PoolResetStats
| PoolUserResetStats (id : string).

Definition op_count (op : pool_op) : Z := match op with PoolAcquire _ count _ => count | _ => 0 end.
Definition op_size_t (op : pool_op) : Prop :=
  match op with PoolAcquire _ count _ | PoolRelease _ count => (0 <= count)%Z | _ => True end.

Section Runs.
Context {R : Rax} {RS : RaxSpec R}.
Implicit Types (p : loopyConcurrencyPool) (a : nat) (id : string).

Definition pool_apply p (op : pool_op) : option loopyConcurrencyPool :=
  match op with
  | PoolAdd id cfg m => Some (fst (loopyConcurrencyPoolAddUser p id cfg m))
  | PoolRemove id => fst <$> loopyConcurrencyPoolRemoveUser p id
  | PoolAcquire id count m => fst <$> loopyConcurrencyPoolTryAcquire p id count m
  | PoolRelease id count => fst <$> loopyConcurrencyPoolRelease p id count
  | PoolReleaseAll id => fst <$> loopyConcurrencyPoolReleaseAll p id
  | PoolUpdate id cfg =>
      fst <$> loopyConcurrencyUserUpdate p (loopyConcurrencyPoolGetUser p id) (Some cfg)
  | PoolResetStats => Some (loopyConcurrencyPoolResetStats p)
  | PoolUserResetStats id => loopyConcurrencyUserResetStats p (loopyConcurrencyPoolGetUser p id)
  end.

Fixpoint pool_run p (ops : list pool_op) : option loopyConcurrencyPool :=
  match ops with
  | [] => Some p
  | op :: ops => p ← pool_apply p op; pool_run p ops
  end.

(** An operation that neither fails nor takes more than [n] slots. *)
Definition apply_ok p (q : option loopyConcurrencyPool) (n : Z) : Prop :=
  exists p', q = Some p' /\ pool_wf p' /\ config p' = config p /\ (globalActive p' <= globalActive p + n)%Z.

Lemma apply_ok_refl p n : pool_wf p -> (0 <= n)%Z -> apply_ok p (Some p) n.
Proof using Type. intros. exists p. split_and!; try done. lia. Qed.

Lemma apply_ok_upd {B} p (q : option (loopyConcurrencyPool * B)) b p' id a d n :
  pool_wf p -> rax_map (users p) !! id = Some a -> q = Some (p', b) -> pool_upd p p' a d ->
  (0 <= active_at p a + d)%Z -> (globalActive p + d < w64)%Z -> (d <= n)%Z ->
  (0 < globalLimit (config p) -> globalActive p + d <= globalLimit (config p))%Z ->
  apply_ok p (fst <$> q) n.
Proof using Type.
  intros W Hi -> U H0 H64 Hd Hgl. exists p'. split; [done|]. split; [by eapply pool_upd_wf|].
  split; [apply U|]. rewrite (upd_global _ _ _ _ U). lia.
Qed.

Lemma acquire_ok_bound p u count :
  acquire_answer p u count = LOOPY_CONCURRENCY_OK ->
  (0 < globalLimit (config p) -> globalActive p + count <= globalLimit (config p))%Z.
Proof using Type. unfold acquire_answer. repeat case_decide; try done. intros _ ?. lia. Qed.

Lemma pool_acquire_ok p id a count :
  pool_wf p -> rax_map (users p) !! id = Some a -> (0 < count)%Z -> (globalActive p + count < w64)%Z ->
  apply_ok p (fst <$> loopyConcurrencyUserTryAcquire p (Some a) count) count.
Proof using Type.
  intros W Hi Hc H64. destruct (wf_live _ W _ _ Hi) as [[u Hu] Hp].
  destruct (userTryAcquire_spec p id a u count W Hi Hu Hc H64) as (p' & E & U).
  pose proof (wf_active_le p id a W Hi). pose proof (wf_limit _ W).
  eapply apply_ok_upd; [done|done|exact E|exact U|..]; case_decide as Hd; try lia.
  by apply acquire_ok_bound with u.
Qed.

Lemma pool_apply_ok p op :
  pool_wf p -> op_size_t op -> (globalActive p + op_count op < w64)%Z -> apply_ok p (pool_apply p op) (op_count op).
Proof using Type.
  intros W Hs H64. pose proof (wf_limit _ W) as Hl. pose proof (wf_in64 _ W) as Hin.
  destruct op as [id cfg m|id|id count m|id count|id|id cfg| |id]; cbn in Hs, H64; cbn [pool_apply op_count].
  - pose proof (addUser_wf p id cfg m W) as H. destruct (loopyConcurrencyPoolAddUser p id cfg m) as [p' r].
    destruct H as (W' & Eg & Ec & _). exists p'. split_and!; try done. lia.
  - destruct (removeUser_wf p id W) as (p' & b & -> & W' & Ec & _ & Eg). exists p'. split_and!; try done. rewrite Eg.
    destruct (rax_map (users p) !! id) as [a|] eqn:Ea; simpl; [|lia]. apply (wf_live _ W) in Ea as [_ ?]. lia.
  - unfold loopyConcurrencyPoolTryAcquire, loopyConcurrencyPoolGetUser. rewrite raxFind_spec.
    destruct (Z.eqb_spec count 0); [by apply apply_ok_refl|].
    destruct (rax_map (users p) !! id) as [a|] eqn:Ea; [apply pool_acquire_ok with id; [done|done|lia|lia]|].
    destruct (autoCreateUsers (config p)); [|by apply apply_ok_refl].
    pose proof (addUser_wf p id None m W) as H. destruct (loopyConcurrencyPoolAddUser p id None m) as [p1 r].
    destruct H as (W' & Eg & Ec & Hr). destruct r as [a|].
    + destruct (pool_acquire_ok p1 id a count) as (p' & E & W'' & Ec' & Hg); [done|by apply Hr|lia|lia|].
      exists p'. split_and!; [done|done|congruence|lia].
    + exists p1. split_and!; try done. lia.
  - unfold loopyConcurrencyPoolRelease, loopyConcurrencyPoolGetUser. rewrite raxFind_spec.
    destruct (Z.eqb_spec count 0); [by apply apply_ok_refl|].
    destruct (rax_map (users p) !! id) as [a|] eqn:Ea; [|by apply apply_ok_refl].
    destruct (wf_live _ W _ _ Ea) as [[u Hu] Hp].
    destruct (userRelease_spec p id a u count W Ea Hu ltac:(lia)) as (p' & E & U).
    unfold active_at in Hp. rewrite Hu in Hp.
    eapply apply_ok_upd; [done|done|exact E|exact U|..]; unfold active_at; rewrite ?Hu; lia.
  - unfold loopyConcurrencyPoolReleaseAll, loopyConcurrencyPoolGetUser. rewrite raxFind_spec.
    destruct (rax_map (users p) !! id) as [a|] eqn:Ea; [|by apply apply_ok_refl].
    destruct (wf_live _ W _ _ Ea) as [[u Hu] Hp].
    destruct (userReleaseAll_spec p id a u W Ea Hu) as (p' & E & U).
    unfold active_at in Hp. rewrite Hu in Hp.
    eapply apply_ok_upd; [done|done|exact E|exact U|..]; unfold active_at; rewrite ?Hu; lia.
  - unfold loopyConcurrencyPoolGetUser. rewrite raxFind_spec.
    destruct (rax_map (users p) !! id) as [a|] eqn:Ea; [|by apply apply_ok_refl].
    destruct (wf_live _ W _ _ Ea) as [[u Hu] Hp]. destruct (userUpdate_upd p a u cfg Hu) as (p' & E & U).
    eapply apply_ok_upd; [done|done|exact E|exact U|..]; lia.
  - eexists. split; [done|]. split; [|split; [done|cbn; lia]]. destruct W as [].
    by constructor.
  - unfold loopyConcurrencyPoolGetUser. rewrite raxFind_spec.
    destruct (rax_map (users p) !! id) as [a|] eqn:Ea; [|by apply apply_ok_refl].
    destruct (wf_live _ W _ _ Ea) as [[u Hu] Hp]. destruct (userResetStats_upd p a u Hu) as (p' & E & U).
    rewrite E. exists p'. split; [done|]. split; [eapply pool_upd_wf; (done || lia)|].
    split; [apply U|]. rewrite (upd_global _ _ _ _ U). lia.
Qed.

Lemma pool_new_wf cfg p :
  loopyConcurrencyPoolNew true true true cfg = Some p ->
  (0 <= globalLimit (config p) /\ 0 <= defaultUserLimit (config p))%Z -> pool_wf p /\ globalActive p = 0%Z.
Proof using Type.
  intros [= <-] Hc. split; [|done].
  constructor; cbn in *; rewrite ?rax_map_new; try done; try apply w64_pos; try lia.
  unfold slots. cbn. by rewrite rax_map_new, map_to_list_empty.
Qed.
End Runs.

Section RunProperties.
Context {R : Rax} {RS : RaxSpec R}.

(** The pool's books balance.  Whatever sequence of additions, removals,
    acquires, releases and updates is applied to a new pool by name, with
    whatever allocation failures, no operation touches a freed user, the global
    counter is the sum of the active slots of the present users, it respects
    the global limit when there is one, and the user counter is the number of
    users.  (The acquired counts must not add up to 2^64.) *)
Theorem pool_accounts cfg ops p0 :
  loopyConcurrencyPoolNew true true true cfg = Some p0 ->
  (0 <= globalLimit (config p0) /\ 0 <= defaultUserLimit (config p0))%Z ->
  Forall op_size_t ops -> (zsum op_count ops < w64)%Z ->
  exists p, pool_run p0 ops = Some p /\ globalActive p = slots p /\
    (0 < globalLimit (config p0) -> globalActive p <= globalLimit (config p0))%Z /\
    userCount p = u64 (Z.of_nat (size (rax_map (users p)))).
Proof using Type.
  intros Hnew Hc Hops Hsum. destruct (pool_new_wf cfg p0 Hnew Hc) as [W E0].
  assert (G : (globalActive p0 + zsum op_count ops < w64)%Z) by lia. clear Hnew Hc E0 Hsum.
  revert p0 W G. induction Hops as [|op ops Hop Hops IH]; intros p W G; simpl in G.
  { exists p. split_and!; try apply W. done. }
  assert (0 <= zsum op_count ops)%Z.
  { apply zsum_nonneg. intros x Hx. rewrite Forall_forall in Hops. specialize (Hops _ Hx). by destruct x. }
  destruct (pool_apply_ok p op W Hop ltac:(lia)) as (p1 & E & W1 & Ec & Hg).
  destruct (IH p1 W1 ltac:(lia)) as (p' & E' & ? & ? & ?). exists p'. simpl. rewrite E. simpl.
  rewrite <- Ec. done.
Qed.
End RunProperties.

Definition small_pool : loopyConcurrencyPoolConfig := PoolConfig 3 2 0 false true true.
Definition all_allocs : addAllocs := AddAllocs true true true.

Lemma pool_accounts_witness :
  exists p0 p : @loopyConcurrencyPool gmap_rax,
    loopyConcurrencyPoolNew true true true (Some small_pool) = Some p0 /\
    pool_run p0 [PoolAcquire "a" 2 all_allocs; PoolAcquire "b" 2 all_allocs; PoolAcquire "b" 1 all_allocs;
                 PoolRemove "a"; PoolRelease "b" 5] = Some p /\
    globalActive p = slots p /\ (globalActive p <= 3)%Z.
Proof.
  destruct (@loopyConcurrencyPoolNew gmap_rax true true true (Some small_pool)) as [p0|] eqn:E0; [|done].
  pose proof (pool_accounts (Some small_pool)
    [PoolAcquire "a" 2 all_allocs; PoolAcquire "b" 2 all_allocs; PoolAcquire "b" 1 all_allocs;
     PoolRemove "a"; PoolRelease "b" 5] p0 E0) as H.
  assert (Hc : config p0 = small_pool) by (injection E0 as <-; done). rewrite Hc in H.
  destruct H as (p & Hr & Hs & Hl & _).
  - done.
  - repeat constructor; done.
  - done.
  - exists p0, p. split_and!; try done. by apply Hl.
Defined.

(** The count of an acquire is not bounded: [active + count] wraps around, so
    the call succeeds and leaves the user with fewer slots. *)
Lemma pool_count_overflow :
  (p0 ← @loopyConcurrencyPoolNew gmap_rax true true true None;
   '(p1, r1) ← loopyConcurrencyPoolTryAcquire p0 "a" 5 all_allocs;
   '(p2, r2) ← loopyConcurrencyPoolTryAcquire p1 "a" (w64 - 1) all_allocs;
   Some (r1, loopyConcurrencyActive p1 "a", r2, loopyConcurrencyActive p2 "a")) =
  Some (LOOPY_CONCURRENCY_OK, Some 5%Z, LOOPY_CONCURRENCY_OK, Some 4%Z).
Proof. vm_compute. reflexivity. Qed.

(** ** Many threads *)

(** A thread of [loopyConcurrencyUserTryAcquire] or
    [loopyConcurrencyUserRelease] on user [u]; [seen] is the value the next
    compare-and-swap expects. *)
Inductive pool_pc :=
| PIdle
| PGlobal (u : nat) (count seen : Z)
| PUserLoad (u : nat) (count : Z)
| PUser (u : nat) (count seen : Z)
| PRollback (count : Z)
| PAddGlobal (count : Z)
| PReleaseLoad (u : nat) (count : Z)
| PRelease (u : nat) (count seen : Z)
| PSubGlobal (count : Z).

Record poolSys := PoolSys {
  ps_global : Z;
  ps_active : list Z;     (* per user *)
  ps_pcs : list pool_pc
}.

#[export] Instance PoolSys_rebuild : Rebuild poolSys := fun s =>
  PoolSys (ps_global s) (ps_active s) (ps_pcs s).

(** What the code leaves open: the call an idle thread makes, and whether a
    weak compare-and-swap fails spuriously. *)
Inductive pool_choice := DoAcquire (u : nat) (count : Z) | DoRelease (u : nat) (count : Z) | Go | Spurious.

Section PoolThreads.
Variable gl : Z.             (* [config.globalLimit] *)
Variable limits : list Z.    (* [user->limit] of each user *)

Definition cas_ok (choice : pool_choice) (value seen : Z) : bool :=
  match choice with Spurious => false | _ => (value =? seen)%Z end.

Definition pool_thread (s : poolSys) (pc : pool_pc) (choice : pool_choice) : option (poolSys * pool_pc) :=
  match pc with
  | PIdle =>
      match choice with
      | DoAcquire u count =>
          if (count =? 0)%Z then Some (s, PIdle)
          else Some (s, if (gl >? 0)%Z then PGlobal u count (ps_global s) else PUserLoad u count)
      | DoRelease u count => if (count =? 0)%Z then Some (s, PIdle) else Some (s, PReleaseLoad u count)
      | _ => None
      end
  | PGlobal u count seen =>
      if (seen +64 count >? gl)%Z then Some (s, PIdle)
      else if cas_ok choice (ps_global s) seen then Some (s <| ps_global := seen +64 count |>, PUserLoad u count)
      else Some (s, PGlobal u count (ps_global s))
  | PUserLoad u count =>
      active ← ps_active s !! u;
      Some (s, PUser u count active)
  | PUser u count seen =>
      limit ← limits !! u;
      if (seen +64 count >? limit)%Z then Some (s, if (gl >? 0)%Z then PRollback count else PIdle)
      else
        active ← ps_active s !! u;
        if cas_ok choice active seen then
          Some (s <| ps_active ::= fun l => <[u := seen +64 count]> l |>,
                if (gl =? 0)%Z then PAddGlobal count else PIdle)
        else Some (s, PUserLoad u count)
  | PRollback count => Some (s <| ps_global ::= fun g => g -64 count |>, PIdle)
  | PAddGlobal count => Some (s <| ps_global ::= fun g => g +64 count |>, PIdle)
  | PReleaseLoad u count =>
      active ← ps_active s !! u;
      Some (s, PRelease u count active)
  | PRelease u count seen =>
      let count := if (count >? seen)%Z then seen else count in
      if (count =? 0)%Z then Some (s, PIdle)
      else
        active ← ps_active s !! u;
        if cas_ok choice active seen then
          Some (s <| ps_active ::= fun l => <[u := seen -64 count]> l |>, PSubGlobal count)
        else Some (s, PReleaseLoad u count)
  | PSubGlobal count => Some (s <| ps_global ::= fun g => g -64 count |>, PIdle)
  end.

Definition pool_act (s : poolSys) (a : nat * pool_choice) : option poolSys :=
  pc ← ps_pcs s !! a.1;
  '(s', pc') ← pool_thread s pc a.2;
  Some (s' <| ps_pcs ::= fun l => <[a.1 := pc']> l |>).

(** The counts asked for are such that no sum of the code overflows. *)
Definition choice_ok (choice : pool_choice) : Prop :=
  match choice with
  | DoAcquire u count =>
      (0 <= count)%Z /\ (gl + count < w64)%Z /\ forall limit, limits !! u = Some limit -> (limit + count < w64)%Z
  | DoRelease u count => (0 <= count < w64)%Z
  | _ => True
  end.

Definition pool_step (s s' : poolSys) : Prop := exists a, choice_ok a.2 /\ pool_act s a = Some s'.
End PoolThreads.

Definition pool_start (users threads : nat) : poolSys :=
  PoolSys 0 (replicate users 0%Z) (replicate threads PIdle).

Lemma zsum_insert {A} (f : A -> Z) l i x y :
  l !! i = Some x -> zsum f (<[i := y]> l) = (zsum f l - f x + f y)%Z.
Proof.
  revert i. induction l as [|z l IH]; intros [|i] Hi; simpl in *; simplify_eq; [lia|].
  specialize (IH _ Hi). lia.
Qed.

Lemma zsum_replicate {A} (f : A -> Z) n x : zsum f (replicate n x) = (Z.of_nat n * f x)%Z.
Proof.
  induction n as [|n IH]; [done|]. rewrite Nat2Z.inj_succ, Z.mul_succ_l, <- IH. simpl. lia.
Qed.

Section PoolThreadSafety.
Context (gl : Z) (limits : list Z).
Hypothesis Hgl : in64 gl.
Hypothesis Hlimits : Forall in64 limits.

(** What a thread has added to the global counter ahead of the user's, or owes
    it. *)
Definition pc_weight (pc : pool_pc) : Z :=
  match pc with
  | PUserLoad _ count | PUser _ count _ => if (gl >? 0)%Z then count else 0
  | PRollback count | PSubGlobal count => count
  | PAddGlobal count => - count
  | _ => 0
  end.

Definition fits (u : nat) (count : Z) : Prop :=
  (0 < count)%Z /\ forall limit, limits !! u = Some limit -> (limit + count < w64)%Z.

Definition pc_ok (pc : pool_pc) : Prop :=
  match pc with
  | PIdle => True
  | PGlobal u count seen => fits u count /\ (0 < gl /\ gl + count < w64 /\ 0 <= seen <= gl)%Z
  | PUserLoad u count => fits u count
  | PUser u count seen => fits u count /\ forall limit, limits !! u = Some limit -> (0 <= seen <= limit)%Z
  | PRollback count => (0 < gl /\ 0 < count)%Z
  | PAddGlobal count => (gl = 0 /\ 0 < count)%Z
  | PReleaseLoad u count => (0 < count)%Z
  | PRelease u count seen => (0 < count /\ 0 <= seen < w64)%Z
  | PSubGlobal count => (0 < count)%Z
  end.

Definition held (s : poolSys) : Z := zsum id (ps_active s).
Definition owed (s : poolSys) : Z := zsum pc_weight (ps_pcs s).

Record pool_inv (s : poolSys) : Prop := {
  pinv_global : ps_global s = u64 (held s + owed s);
  pinv_limit : (0 < gl -> 0 <= held s + owed s <= gl)%Z;
  pinv_users : Forall2 (fun active limit => 0 <= active <= limit)%Z (ps_active s) limits;
  pinv_pcs : Forall pc_ok (ps_pcs s)
}.

Lemma user_bounds s u active :
  Forall2 (fun active limit => 0 <= active <= limit)%Z (ps_active s) limits -> ps_active s !! u = Some active ->
  exists limit, limits !! u = Some limit /\ (0 <= active <= limit)%Z /\ in64 limit.
Proof using Hlimits.
  intros H Hu. destruct (Forall2_lookup_l _ _ _ _ _ H Hu) as (limit & El & Hl).
  exists limit. split; [done|]. split; [done|]. rewrite Forall_lookup in Hlimits. by apply (Hlimits _ _ El).
Qed.

Lemma users_insert s u active limit :
  Forall2 (fun active limit => 0 <= active <= limit)%Z (ps_active s) limits -> limits !! u = Some limit ->
  (0 <= active <= limit)%Z ->
  Forall2 (fun active limit => 0 <= active <= limit)%Z (<[u := active]> (ps_active s)) limits.
Proof using Type.
  intros H El Ha. rewrite <- (list_insert_id limits u limit El). by apply Forall2_insert.
Qed.

(** The effect of one step of a thread: the change [d] of the global counter is
    the change of the held slots and of what the thread owes. *)
Definition thread_effect (s : poolSys) (pc : pool_pc) (s1 : poolSys) (pc1 : pool_pc) : Prop :=
  exists d, ps_global s1 = u64 (ps_global s + d) /\
    (held s1 - held s + pc_weight pc1 - pc_weight pc = d)%Z /\
    (0 < gl -> d <= 0 \/ ps_global s + d <= gl)%Z /\
    ps_pcs s1 = ps_pcs s /\ pc_ok pc1 /\
    Forall2 (fun active limit => 0 <= active <= limit)%Z (ps_active s1) limits.

(** A step that touches neither counter. *)
Lemma effect_silent s pc pc1 :
  pool_inv s -> pc_ok pc1 -> pc_weight pc1 = pc_weight pc -> thread_effect s pc s pc1.
Proof using Type.
  intros I Ho Hw. exists 0%Z. rewrite Hw, Z.add_0_r. split_and!; try done; try lia; [|apply I].
  rewrite (pinv_global _ I). by rewrite u64_u64.
Qed.

(** A step that changes the global counter alone. *)
Lemma effect_global s pc pc1 d :
  pool_inv s -> pc_ok pc1 -> (pc_weight pc1 - pc_weight pc = d)%Z ->
  (0 < gl -> d <= 0 \/ ps_global s + d <= gl)%Z ->
  thread_effect s pc (s <| ps_global := u64 (ps_global s + d) |>) pc1.
Proof using Type.
  intros I Ho Hw Hl. exists d. unfold held. cbn. split_and!; try done; [lia|apply I].
Qed.

(** A step that changes the slots of a user alone. *)
Lemma effect_user s pc pc1 u active active' limit :
  pool_inv s -> pc_ok pc1 -> ps_active s !! u = Some active -> limits !! u = Some limit ->
  (0 <= active' <= limit)%Z -> (pc_weight pc1 - pc_weight pc = active - active')%Z ->
  thread_effect s pc (s <| ps_active ::= fun l => <[u := active']> l |>) pc1.
Proof using Type.
  intros I Ho Ha El Hr Hw. exists 0%Z. unfold held. cbn. rewrite (zsum_insert _ _ _ _ _ Ha). unfold id.
  split_and!; try done; try lia.
  - rewrite Z.add_0_r, (pinv_global _ I). by rewrite u64_u64.
  - by apply (users_insert s u active' limit); [apply I|..].
Qed.

(** The acquire's side: reservation of global slots, then of the user's. *)
Lemma acquire_effect s pc choice s1 pc1 :
  pool_inv s -> pc_ok pc -> pool_thread gl limits s pc choice = Some (s1, pc1) ->
  match pc with PGlobal _ _ _ | PUserLoad _ _ | PUser _ _ _ | PRollback _ | PAddGlobal _ => True | _ => False end ->
  thread_effect s pc s1 pc1.
Proof using All.
  intros I Ho E Hpc. unfold in64 in Hgl. pose proof (pinv_users _ I) as Hus.
  destruct pc as [|u count seen|u count|u count seen|count|count| | |]; try done; simpl in E, Ho.
  - destruct Ho as (Hf & Hg & Hc & Hs). destruct Hf as [Hc0 Hf].
    rewrite u64_small in E by (unfold in64; lia). assert (Eg : (gl >? 0)%Z = true) by (rewrite Z.gtb_ltb; by apply Z.ltb_lt).
    destruct (Z.gtb_spec (seen + count) gl); [injection E as <- <-; by apply effect_silent|].
    destruct (cas_ok choice (ps_global s) seen) eqn:Ec; injection E as <- <-.
    + assert (ps_global s = seen) as <- by (destruct choice; simpl in Ec; bool_to_prop; done).
      rewrite <- (u64_small (ps_global s + count)) by (unfold in64; lia).
      apply effect_global; simpl; rewrite ?Eg; try done; lia.
    + apply effect_silent; [done| |done]. pose proof (pinv_limit _ I ltac:(lia)).
      simpl. rewrite (pinv_global _ I), u64_small by (unfold in64; lia). done.
  - destruct (ps_active s !! u) as [a|] eqn:Ea; [|done]. injection E as <- <-.
    apply effect_silent; [done| |done]. split; [done|]. intros limit El.
    destruct (user_bounds _ _ _ Hus Ea) as (limit' & El' & Hb & _). by simplify_eq.
  - destruct (limits !! u) as [limit|] eqn:El; [|done]. simpl in E.
    destruct Ho as ([Hc0 Hf] & Hs). pose proof (Hf _ El). specialize (Hs _ eq_refl).
    rewrite u64_small in E by (unfold in64; lia).
    destruct (Z.gtb_spec (seen + count) limit).
    + injection E as <- <-. apply effect_silent; [done|..]; simpl; destruct (Z.gtb_spec gl 0); simpl; done || lia.
    + destruct (ps_active s !! u) as [a|] eqn:Ea; [|done]. simpl in E.
      destruct (cas_ok choice a seen) eqn:Ec; injection E as <- <-.
      * assert (a = seen) as -> by (destruct choice; simpl in Ec; bool_to_prop; done).
        apply (effect_user _ _ _ u seen _ limit); try done; [| lia|]; destruct (Z.eqb_spec gl 0);
          simpl; destruct (Z.gtb_spec gl 0); simpl; done || lia.
      * by apply effect_silent.
  - injection E as <- <-. cbn. unfold update. cbn. apply (effect_global s _ _ (- count)); simpl; lia || done.
  - injection E as <- <-. cbn. unfold update. cbn. apply (effect_global s _ _ count); simpl; lia || done.
Qed.

(** The release's side, and the calls an idle thread makes. *)
Lemma release_effect s pc choice s1 pc1 :
  pool_inv s -> pc_ok pc -> choice_ok gl limits choice -> pool_thread gl limits s pc choice = Some (s1, pc1) ->
  match pc with PIdle | PReleaseLoad _ _ | PRelease _ _ _ | PSubGlobal _ => True | _ => False end ->
  thread_effect s pc s1 pc1.
Proof using All.
  intros I Ho Hch E Hpc. unfold in64 in Hgl. pose proof (pinv_users _ I) as Hus.
  destruct pc as [| | | | | |u count|u count seen|count]; try done; simpl in E, Ho.
  - destruct choice as [u count|u count| |]; try done; simpl in Hch.
    + destruct (Z.eqb_spec count 0); [injection E as <- <-; by apply effect_silent|].
      destruct Hch as (H0 & Hg & Hf). injection E as <- <-.
      assert (fits u count) by (split; [lia|done]).
      destruct (Z.gtb_spec gl 0) as [Hp|Hp].
      * apply effect_silent; [done| |done]. pose proof (pinv_limit _ I Hp).
        simpl. rewrite (pinv_global _ I), u64_small by (unfold in64; lia). done.
      * apply effect_silent; [done|done|]. simpl. destruct (Z.gtb_spec gl 0); lia.
    + destruct (Z.eqb_spec count 0); injection E as <- <-; apply effect_silent; simpl; lia || done.
  - destruct (ps_active s !! u) as [a|] eqn:Ea; [|done]. injection E as <- <-.
    destruct (user_bounds _ _ _ Hus Ea) as (limit & El & Hb & Hl). unfold in64 in Hl.
    apply effect_silent; simpl; lia || done.
  - set (c := if (count >? seen)%Z then seen else count) in *.
    assert (Hc : (0 <= c <= seen)%Z) by (unfold c; destruct (Z.gtb_spec count seen); lia). clearbody c.
    destruct (Z.eqb_spec c 0); [injection E as <- <-; by apply effect_silent|].
    destruct (ps_active s !! u) as [a|] eqn:Ea; [|done]. simpl in E.
    destruct (user_bounds _ _ _ Hus Ea) as (limit & El & Hb & Hl).
    destruct (cas_ok choice a seen) eqn:Ec; injection E as <- <-.
    + assert (a = seen) as -> by (destruct choice; simpl in Ec; bool_to_prop; done).
      rewrite u64_small by (unfold in64 in *; lia).
      apply (effect_user _ _ _ u seen _ limit); simpl; lia || done.
    + apply effect_silent; simpl; lia || done.
  - injection E as <- <-. cbn. unfold update. cbn. apply (effect_global s _ _ (- count)); simpl; lia || done.
Qed.

Lemma owed_insert s i pc pc1 :
  ps_pcs s !! i = Some pc -> zsum pc_weight (<[i := pc1]> (ps_pcs s)) = (owed s - pc_weight pc + pc_weight pc1)%Z.
Proof using Type. apply zsum_insert. Qed.

(** With a global limit nothing is owed to the counter but slots. *)
Lemma held_owed_nonneg s :
  (0 < gl)%Z -> Forall2 (fun active limit => 0 <= active <= limit)%Z (ps_active s) limits ->
  Forall pc_ok (ps_pcs s) -> (0 <= held s)%Z /\ (0 <= owed s)%Z.
Proof using Type.
  intros Hg Hus Hp. split; apply zsum_nonneg.
  - intros a Ha. apply list_elem_of_lookup in Ha as [i Hi].
    destruct (Forall2_lookup_l _ _ _ _ _ Hus Hi) as (? & _ & ?). unfold id. lia.
  - intros pc Hpc. rewrite Forall_forall in Hp. specialize (Hp _ Hpc).
    destruct pc; simpl in *; unfold fits in *; try lia; destruct (Z.gtb_spec gl 0); lia.
Qed.

Lemma pool_inv_step s s' : pool_inv s -> pool_step gl limits s s' -> pool_inv s'.
Proof using All.
  intros I ([i choice] & Hch & E). unfold pool_act in E. simpl in E, Hch.
  destruct (ps_pcs s !! i) as [pc|] eqn:Ei; [|done]. simpl in E.
  destruct (pool_thread gl limits s pc choice) as [[s1 pc1]|] eqn:Et; [|done]. injection E as <-.
  pose proof (pinv_pcs _ I) as Hp. assert (Ho : pc_ok pc) by (rewrite Forall_lookup in Hp; by eapply Hp).
  assert (F : thread_effect s pc s1 pc1)
    by (destruct pc; (by eapply release_effect) || (by eapply acquire_effect)).
  destruct F as (d & Eg & Ed & Hd & Epc & Ho1 & Hus1).
  assert (Hp1 : Forall pc_ok (<[i:=pc1]> (ps_pcs s))) by by apply Forall_insert.
  pose proof (owed_insert s i pc pc1 Ei) as Eo.
  pose proof (pinv_global _ I) as Hg. pose proof (pinv_limit _ I) as Hl.
  constructor; unfold held, owed in *; cbn; rewrite ?Epc; try done.
  - rewrite Eg, Hg, Eo. autorewrite with loopy_simpl. f_equal. lia.
  - intros Hpos. specialize (Hl Hpos). rewrite u64_small in Hg by (unfold in64 in *; lia).
    destruct (held_owed_nonneg (s1 <| ps_pcs ::= fun l => <[i:=pc1]> l |>) Hpos) as [Hh Hw];
      [done|by cbn; rewrite Epc|]. unfold held, owed in *. cbn in Hh, Hw. rewrite Epc in Hw.
    split; [lia|]. rewrite Eo. destruct (Hd Hpos); lia.
Qed.

(** C19. Limits hold under concurrency.  Any number of threads acquire and
    release slots of any users, their steps interleaved at will: no user ever
    holds more than its limit; with a global limit the slots held by all users
    never exceed the global counter, nor the counter the limit; and whenever
    every thread is between calls the counter is exactly the number of slots
    held.  The counts asked for are such that neither limit + count nor global
    limit + count overflows ([choice_ok]): the code adds in 64 bits without a
    check, and the limits fail without this ([pool_count_overflow]). *)
Theorem pool_threads_limits threads s :
  rtc (pool_step gl limits) (pool_start (length limits) threads) s ->
  Forall2 (fun active limit => 0 <= active <= limit)%Z (ps_active s) limits /\
  (0 < gl -> zsum id (ps_active s) <= ps_global s <= gl)%Z /\
  (Forall (fun pc => pc = PIdle) (ps_pcs s) -> ps_global s = u64 (zsum id (ps_active s))).
Proof using All.
  intros Hr.
  assert (I : pool_inv s).
  { revert Hr. apply rtc_invariant; [by apply pool_inv_step|].
    constructor; unfold held, owed; cbn; rewrite ?zsum_replicate; unfold id; simpl.
    - by rewrite !Z.mul_0_r.
    - unfold in64 in Hgl. lia.
    - apply Forall2_same_length_lookup. split; [by rewrite length_replicate|].
      intros i a l Ha Hl. apply lookup_replicate in Ha as [-> _].
      rewrite Forall_lookup in Hlimits. destruct (Hlimits _ _ Hl). lia.
    - by apply Forall_replicate. }
  split; [apply I|]. split.
  - intros Hpos. pose proof (pinv_limit _ I Hpos). unfold in64 in Hgl.
    destruct (held_owed_nonneg s Hpos (pinv_users _ I) (pinv_pcs _ I)).
    rewrite (pinv_global _ I), u64_small by (unfold in64; lia). unfold held in *. lia.
  - intros Hidle. rewrite (pinv_global _ I). unfold held, owed. f_equal.
    replace (zsum pc_weight (ps_pcs s)) with 0%Z; [lia|].
    clear -Hidle. induction Hidle as [|pc l -> Hl IH]; simpl; lia.
Qed.
End PoolThreadSafety.

(** Thread 1 reserves both global slots between thread 0's load and its
    compare-and-swap and is then refused by its own limit; thread 0, refused
    meanwhile, tries again. *)
Definition racing_acquires : list (nat * pool_choice) :=
  [(0, DoAcquire 0 1%Z); (1, DoAcquire 1 2%Z); (1, Go); (1, Go); (0, Go); (0, Go); (1, Go); (1, Go);
   (0, DoAcquire 0 1%Z); (0, Go); (0, Go); (0, Go)].

Lemma pool_threads_limits_witness :
  exists s, rtc (pool_step 2 [2; 1]%Z) (pool_start 2 2) s /\ ps_pcs s = [PIdle; PIdle] /\
    ps_active s = [1; 0]%Z /\ ps_global s = u64 (zsum id (ps_active s)) /\
    (zsum id (ps_active s) <= ps_global s <= 2)%Z.
Proof.
  destruct (schedule (pool_act 2 [2; 1]%Z) (pool_start 2 2) racing_acquires) as [s|] eqn:E; [|vm_compute in E; done].
  assert (Hr : rtc (pool_step 2 [2; 1]%Z) (pool_start 2 2) s).
  { revert E. apply (schedule_rtc _ _ (fun a => choice_ok 2 [2; 1]%Z a.2)); [by intros ? a ? ? ?; exists a|].
    repeat constructor; simpl; try done; intros limit [= <-]; done. }
  exists s. split; [done|].
  assert (H : Forall2 (fun active limit => 0 <= active <= limit)%Z (ps_active s) [2; 1]%Z /\
    (0 < 2 -> zsum id (ps_active s) <= ps_global s <= 2)%Z /\
    (Forall (fun pc => pc = PIdle) (ps_pcs s) -> ps_global s = u64 (zsum id (ps_active s)))).
  { apply (pool_threads_limits 2 [2; 1]%Z) with (threads := 2); [done|by repeat constructor|exact Hr]. }
  vm_compute in E. injection E as <-. destruct H as (_ & Hl & Hi).
  split; [done|]. split; [done|]. split; [apply Hi; by repeat constructor|by apply Hl].
Defined.
