(* ===== verification/CString.v ===== *)
(** * C strings

    A C string is the list of its characters before the terminator.  The
    functions of the C library that the modelled code calls on strings, and
    their lemmas. *)

From S2P Require Import Prelude.
From Stdlib Require Export Ascii.

Local Open Scope char_scope.
Local Open Scope nat_scope.

Abbreviation cstr := (list ascii).

(** [strchr(s, c)] as an offset. *)
Fixpoint strchr (s : cstr) (c : ascii) : option nat :=
  match s with
  | [] => None
  | x :: s => if Ascii.eqb x c then Some 0 else S <$> strchr s c
  end.

Definition is_digit (c : ascii) : bool :=
  let n := nat_of_ascii c in (48 <=? n)%nat && (n <=? 57)%nat.
Definition digit_value (c : ascii) : Z := Z.of_nat (nat_of_ascii c) - 48.
Definition digit_char (d : Z) : ascii := ascii_of_nat (48 + Z.to_nat d).

Definition is_space (c : ascii) : bool :=
  let n := nat_of_ascii c in (n =? 32)%nat || ((9 <=? n)%nat && (n <=? 13)%nat).

(** The value of the digits at the start of [s], after [acc]. *)
Fixpoint read_digits (acc : Z) (s : cstr) : Z :=
  match s with
  | c :: s' => if is_digit c then read_digits (10 * acc + digit_value c) s' else acc
  | [] => acc
  end.

Fixpoint skip_spaces (s : cstr) : cstr :=
  match s with c :: s' => if is_space c then skip_spaces s' else s | [] => [] end.

(** [strtol(s, NULL, 10)], which saturates, and the conversion to [int]. *)
Definition strtol (s : cstr) : Z :=
  let v := match skip_spaces s with
           | c :: s' =>
               if Ascii.eqb c "-" then - read_digits 0 s'
               else if Ascii.eqb c "+" then read_digits 0 s'
               else read_digits 0 (c :: s')
           | [] => 0
           end%Z in
  Z.max (- 2 ^ 63) (Z.min (2 ^ 63 - 1) v).
Definition int_of (z : Z) : Z := ((z + 2 ^ 31) mod 2 ^ 32 - 2 ^ 31)%Z.
Definition atoi (s : cstr) : Z := int_of (strtol s).

(** ["%d"]. *)
Fixpoint digits (fuel : nat) (n : Z) (s : cstr) : cstr :=
  match fuel with
  | O => s
  | S fuel =>
      let s := digit_char (n mod 10) :: s in
      if (n / 10 =? 0)%Z then s else digits fuel (n / 10) s
  end.
(** An [int] has at most ten digits. *)
Definition format_int (z : Z) : cstr :=
  if (z <? 0)%Z then "-"%char :: digits 10 (- z) [] else digits 10 z [].

(** [snprintf] into a buffer of [bufLen] bytes: what the buffer holds
    afterwards ([None]: nothing is written) and the length it wanted. *)
Definition snprintf (bufLen : nat) (out : cstr) : option cstr * nat :=
  (match bufLen with O => None | S n => Some (take n out) end, length out).

Definition text (s : string) : cstr := String.list_ascii_of_string s.

(** ** Printing and reading integers *)

#[global] Arguments digit_char : simpl never.
#[global] Arguments digit_value : simpl never.
#[global] Arguments is_digit : simpl never.
#[global] Arguments is_space : simpl never.

Lemma digit_char_spec d : (0 <= d < 10)%Z -> is_digit (digit_char d) = true /\ digit_value (digit_char d) = d.
Proof.
  intros Hd. unfold is_digit, digit_value, digit_char. rewrite nat_ascii_embedding by lia.
  split; [|lia]. apply andb_true_iff. rewrite !Nat.leb_le. lia.
Qed.

Lemma read_digits_format fuel n s :
  (0 <= n < 10 ^ Z.of_nat fuel)%Z -> fuel <> 0 -> read_digits 0 (digits fuel n s) = read_digits n s.
Proof.
  revert n s. induction fuel as [|fuel IH]; intros n s Hn Hf; [done|]. cbn [digits].
  rewrite Nat2Z.inj_succ, Z.pow_succ_r in Hn by lia.
  pose proof (Z.div_mod n 10 ltac:(done)). pose proof (Z.mod_pos_bound n 10 ltac:(done)) as Hm.
  destruct (digit_char_spec (n mod 10) Hm) as [Ed Ev].
  destruct (Z.eqb_spec (n / 10) 0) as [E|E].
  - cbn [read_digits]. rewrite Ed, Ev. f_equal. lia.
  - assert (0 <= n / 10 < 10 ^ Z.of_nat fuel)%Z.
    { split; [apply Z.div_pos; lia|]. apply Z.div_lt_upper_bound; lia. }
    rewrite IH; [|done|destruct fuel; [simpl in *; lia|done]].
    cbn [read_digits]. rewrite Ed, Ev. f_equal. lia.
Qed.

Lemma digits_head fuel n s : (0 <= n)%Z -> fuel <> 0 -> exists c l, digits fuel n s = c :: l /\ is_digit c = true.
Proof.
  revert n s. induction fuel as [|fuel IH]; intros n s Hn Hf; [done|]. cbn [digits].
  pose proof (Z.mod_pos_bound n 10 ltac:(done)) as Hm. destruct (digit_char_spec _ Hm) as [Ed _].
  destruct (Z.eqb_spec (n / 10) 0) as [E|E]; [by eexists _, _|].
  destruct fuel as [|fuel]; [by eexists _, _|]. apply IH; [apply Z.div_pos; lia|done].
Qed.

(** A digit is neither a space nor a sign. *)
Lemma strtol_digits c l :
  is_digit c = true -> strtol (c :: l) = Z.max (- 2 ^ 63) (Z.min (2 ^ 63 - 1) (read_digits 0 (c :: l))).
Proof.
  intros Hc. unfold strtol.
  assert (is_space c = false /\ c <> "-"%char /\ c <> "+"%char) as (Hs & H1 & H2).
  { split_and!; [|by intros ->|by intros ->].
    unfold is_digit in Hc. unfold is_space. bool_to_prop. apply orb_false_iff.
    rewrite Nat.eqb_neq, andb_false_iff, !Nat.leb_gt. lia. }
  apply Ascii.eqb_neq in H1, H2. simpl skip_spaces. by rewrite Hs, H1, H2.
Qed.

Lemma atoi_format_int port : (0 < port <= 65535)%Z -> atoi (format_int port) = port.
Proof.
  intros Hp. unfold atoi, format_int. replace (port <? 0)%Z with false by (symmetry; apply Z.ltb_ge; lia).
  destruct (digits_head 10 port [] ltac:(lia) ltac:(done)) as (c & l & E & Hc).
  assert (Hr : read_digits 0 (c :: l) = port) by (rewrite <- E; by rewrite read_digits_format by lia).
  rewrite E, strtol_digits, Hr by done. unfold int_of.
  rewrite Z.min_r, Z.max_r by lia. rewrite Z.mod_small; lia.
Qed.

Lemma format_int_cons port : exists c l, format_int port = c :: l.
Proof.
  unfold format_int. destruct (Z.ltb_spec port 0); [by eexists _, _|].
  destruct (digits_head 10 port [] ltac:(lia) ltac:(done)) as (c & l & E & _). by eexists _, _.
Qed.

(** *** Searching *)

Lemma strchr_app_None s1 s2 c : strchr s1 c = None -> strchr (s1 ++ s2) c = Nat.add (length s1) <$> strchr s2 c.
Proof.
  induction s1 as [|x s1 IH]; simpl; intros H.
  { by destruct (strchr s2 c). }
  destruct (Ascii.eqb x c); [done|]. destruct (strchr s1 c); [done|]. rewrite IH by done.
  by destruct (strchr s2 c).
Qed.
