(* ===== verification/Net.v ===== *)
(** * Address strings ([src/loopyNet.c])

    [loopyNetParseAddr] and [loopyNetFormatAddr], the functions of the file
    that compute.  Everything else there sets up sockets by system calls. *)

From S2P Require Import Prelude CString.

Local Open Scope char_scope.
Local Open Scope nat_scope.

(** ** The functions *)

Definition loopyNetAddrIsIPv6 (addr : option cstr) : bool :=
  match addr with None => false | Some s => bool_decide (is_Some (strchr s ":")) end.

(** The number of colons and the offset of the last one; [i] is the offset of
    the rest of the string. *)
Fixpoint scanColons (s : cstr) (i colonCount : nat) (lastColon : option nat) : nat * option nat :=
  match s with
  | [] => (colonCount, lastColon)
  | c :: s =>
      if Ascii.eqb c ":" then scanColons s (S i) (S colonCount) (Some i)
      else scanColons s (S i) colonCount lastColon
  end.

(** Host and port text of an address: offsets of the host's start and end and
    of the port. *)
Definition splitBracketed (rest : cstr) : option (nat * nat * option nat) :=
  bracket ← strchr rest "]";
  match drop (S bracket) rest with
  | [] => Some (1, 1 + bracket, None)
  | c :: _ => if Ascii.eqb c ":" then Some (1, 1 + bracket, Some (1 + bracket + 2)) else None
  end.

Definition splitPlain (addr : cstr) : nat * nat * option nat :=
  match scanColons addr 0 0 None with
  | (1, Some last) => (0, last, Some (last + 1))
  | _ => (0, length addr, None)
  end.

Definition splitAddr (addr : cstr) : option (nat * nat * option nat) :=
  match addr with
  | c :: rest => if Ascii.eqb c "[" then splitBracketed rest else Some (splitPlain addr)
  | [] => Some (splitPlain addr)
  end.

(** What [loopyNetParseAddr] stores and returns. *)
Record parsed := Parsed { p_ok : bool; p_host : option cstr; p_port : option Z }.

(** [hasHost] and [hasPort]: the output pointers are not [NULL]. *)
Definition loopyNetParseAddr (addr : option cstr) (hasHost : bool) (hostLen : nat) (hasPort : bool)
    (defaultPort : Z) : parsed :=
  match addr with
  | None => Parsed false None None
  | Some addr =>
      if negb hasHost || (hostLen =? 0)%nat || negb hasPort then Parsed false None None
      else
        match splitAddr addr with
        | None => Parsed false None (Some defaultPort)
        | Some (hostStart, hostEnd, portStart) =>
            let len := hostEnd - hostStart in
            let len := if (hostLen <=? len)%nat then hostLen - 1 else len in
            let host := take len (drop hostStart addr) in
            let port :=
              match portStart with
              | Some k =>
                  match drop k addr with
                  | [] => defaultPort
                  | text =>
                      let p := atoi text in
                      if (p >? 0)%Z && (p <=? 65535)%Z then p else defaultPort
                  end
              | None => defaultPort
              end in
            Parsed true (Some host) (Some port)
        end
  end.

Definition loopyNetFormatAddr (bufLen : nat) (ip : cstr) (port : Z) : option cstr * nat :=
  snprintf bufLen
    (match strchr ip ":" with
     | Some _ => ["["%char] ++ ip ++ ["]"%char; ":"%char] ++ format_int port
     | None => ip ++ [":"%char] ++ format_int port
     end).

(** Digits contain no colon. *)
Lemma is_digit_colon c : is_digit c = true -> Ascii.eqb c ":" = false.
Proof. intros Hc. apply Ascii.eqb_neq. by intros ->. Qed.

Lemma scanColons_digits fuel n s i k o :
  (0 <= n)%Z -> scanColons (digits fuel n s) i k o = scanColons s (i + length (digits fuel n s) - length s) k o /\
  length s <= length (digits fuel n s).
Proof.
  revert n s i. induction fuel as [|fuel IH]; intros n s i Hn; cbn [digits].
  { split; [f_equal; lia|lia]. }
  pose proof (Z.mod_pos_bound n 10 ltac:(done)) as Hm. destruct (digit_char_spec _ Hm) as [Ed _].
  assert (E1 : forall j, scanColons (digit_char (n mod 10) :: s) j k o = scanColons s (S j) k o)
    by (intros j; cbn [scanColons]; by rewrite is_digit_colon).
  destruct (n / 10 =? 0)%Z; [rewrite E1; cbn [length]; split; [f_equal|]; lia|].
  destruct (IH (n / 10)%Z (digit_char (n mod 10) :: s) i (Z.div_pos n 10 Hn ltac:(lia))) as [-> Hl].
  rewrite E1. cbn [length] in *. split; [f_equal|]; lia.
Qed.

Lemma scanColons_app_None s1 s2 i k o :
  strchr s1 ":" = None -> scanColons (s1 ++ s2) i k o = scanColons s2 (i + length s1) k o.
Proof.
  revert i. induction s1 as [|x s1 IH]; intros i; simpl; intros H; [f_equal; lia|].
  destruct (Ascii.eqb x ":"); [done|]. destruct (strchr s1 ":"); [done|].
  rewrite IH by done. f_equal. lia.
Qed.

(** The host texts a formatted address is parsed back from: an address with
    colons must not contain the bracket that closes it, one without must not
    start with the bracket that opens one. *)
Definition plain_host (ip : cstr) : Prop :=
  match strchr ip ":" with
  | Some _ => strchr ip "]" = None
  | None => head ip <> Some "["%char
  end.

Definition formatted (ip : cstr) (port : Z) : cstr :=
  match strchr ip ":" with
  | Some _ => ["["%char] ++ ip ++ ["]"%char; ":"%char] ++ format_int port
  | None => ip ++ [":"%char] ++ format_int port
  end.

(** Where the parser finds host and port. *)
Lemma splitAddr_formatted ip port :
  plain_host ip -> (0 <= port)%Z ->
  exists start k, splitAddr (formatted ip port) = Some (start, start + length ip, Some k) /\
    take (length ip) (drop start (formatted ip port)) = ip /\ drop k (formatted ip port) = format_int port.
Proof.
  unfold plain_host, formatted. intros Hh Hp. destruct (strchr ip ":") as [i|] eqn:Ec.
  - exists 1, (1 + length ip + 2). split_and!.
    + cbn [app splitAddr]. unfold splitBracketed. rewrite strchr_app_None by done. simpl.
      rewrite Nat.add_0_r, drop_app_ge by lia. by replace (S (length ip) - length ip) with 1 by lia.
    + simpl. by rewrite drop_0, take_app_length.
    + simpl. rewrite drop_app_ge by lia. by replace (length ip + 2 - length ip) with 2 by lia.
  - assert (E0 : forall r, splitAddr (ip ++ ":"%char :: r) = Some (splitPlain (ip ++ ":"%char :: r))).
    { intros r. destruct ip as [|c ip]; [done|]. cbn [app splitAddr]. simpl in Hh.
      destruct (Ascii.eqb c "[") eqn:E; [|done]. apply Ascii.eqb_eq in E as ->. done. }
    exists 0, (length ip + 1). split_and!.
    + cbn [app]. rewrite E0. unfold splitPlain. rewrite scanColons_app_None by done.
      cbn [scanColons Ascii.eqb Bool.eqb]. unfold format_int.
      replace (port <? 0)%Z with false by (symmetry; apply Z.ltb_ge; lia).
      destruct (scanColons_digits 10 port [] (S (0 + length ip)) 1 (Some (0 + length ip)) Hp) as [-> _]. done.
    + by rewrite drop_0, take_app_length.
    + rewrite drop_app_ge by lia. by replace (length ip + 1 - length ip) with 1 by lia.
Qed.

(** C40. Formatting and parsing an address are inverse: whenever the buffers are
    large enough, [loopyNetParseAddr] recovers from the output of
    [loopyNetFormatAddr] the host, with or without brackets, and the port,
    whatever the default port; and the length [loopyNetFormatAddr] returns is
    that of its output. *)
Theorem net_addr_roundtrip ip port bufLen hostLen defaultPort :
  plain_host ip -> (0 < port <= 65535)%Z -> length ip < hostLen ->
  snd (loopyNetFormatAddr bufLen ip port) < bufLen ->
  exists s, loopyNetFormatAddr bufLen ip port = (Some s, length s) /\
    loopyNetParseAddr (Some s) true hostLen true defaultPort = Parsed true (Some ip) (Some port).
Proof.
  intros Hip Hp Hl Hb. exists (formatted ip port).
  change (loopyNetFormatAddr bufLen ip port) with (snprintf bufLen (formatted ip port)) in *.
  unfold snprintf in *. simpl in Hb. split.
  { destruct bufLen as [|n]; [lia|]. by rewrite take_ge by lia. }
  destruct (splitAddr_formatted ip port Hip ltac:(lia)) as (start & k & E & Et & Ed).
  unfold loopyNetParseAddr. replace (hostLen =? 0)%nat with false by (symmetry; apply Nat.eqb_neq; lia).
  cbn [negb orb]. rewrite E. replace (start + length ip - start) with (length ip) by lia.
  replace (hostLen <=? length ip) with false by (symmetry; apply Nat.leb_gt; lia).
  rewrite Et, Ed. destruct (format_int_cons port) as (c & l & Ef).
  rewrite Ef, <- Ef, atoi_format_int by done.
  replace ((port >? 0)%Z && (port <=? 65535)%Z) with true; [done|].
  symmetry. rewrite Z.gtb_ltb. apply andb_true_iff. rewrite Z.ltb_lt, Z.leb_le. lia.
Qed.

Lemma net_addr_roundtrip_witness :
  loopyNetFormatAddr 46 (text "2001:db8::1") 443 = (Some (text "[2001:db8::1]:443"), 17) /\
  loopyNetParseAddr (Some (text "[2001:db8::1]:443")) true 46 true 80 = Parsed true (Some (text "2001:db8::1")) (Some 443%Z).
Proof.
  split; [vm_compute; reflexivity|].
  destruct (net_addr_roundtrip (text "2001:db8::1") 443 46 46 80) as (s & E & H).
  - vm_compute. reflexivity.
  - lia.
  - vm_compute. lia.
  - vm_compute. lia.
  - vm_compute in E. injection E as <-. exact H.
Defined.

(** A port outside the range of [int] wraps around. *)
Lemma parse_port_wraps :
  p_port (loopyNetParseAddr (Some (text "host:4294967376")) true 46 true 1234) = Some 80%Z.
Proof. vm_compute. reflexivity. Qed.

(** A port that does not parse is replaced by the default without an error. *)
Lemma parse_port_ignored :
  loopyNetParseAddr (Some (text "host:http")) true 46 true 1234 = Parsed true (Some (text "host")) (Some 1234%Z).
Proof. vm_compute. reflexivity. Qed.
