(* ===== verification/PubSub.v ===== *)
(** * Publish and subscribe ([src/loopyPubSub.c])

    The hub, its subscriptions and their message queues.  A queue is the linked
    list the code keeps: message entries in a heap, [next] pointers, and the
    head and tail pointers of the subscription, because what happens when they
    disagree is part of the behaviour.  The topic matcher (raxTopic) is a
    dependency and a parameter.  User callbacks are the list of calls they
    receive: they run under the hub's read lock, so they cannot change its
    subscriptions.  The unused flag [acked], the callback's own user data and
    the back pointers to hub and loop are left out. *)

From stdpp Require Import functions.
From S2P Require Import Prelude CString.

Local Open Scope nat_scope.

#[export] Instance ascii_countable : Countable ascii.
Proof.
  refine {| encode c := encode (Ascii.N_of_ascii c); decode p := Ascii.ascii_of_N <$> decode p |}.
  intros c. rewrite decode_encode. simpl. by rewrite Ascii.ascii_N_embedding.
Defined.

(** ** Data *)

Inductive loopyDeliveryMode := LOOPY_DELIVER_SYNC | LOOPY_DELIVER_ASYNC | LOOPY_DELIVER_QUEUE.
Inductive loopyAckMode := LOOPY_ACK_NONE | LOOPY_ACK_AUTO | LOOPY_ACK_MANUAL.
Inductive loopySubscriptionEvent :=
  LOOPY_SUB_SUBSCRIBED | LOOPY_SUB_UNSUBSCRIBED | LOOPY_SUB_QUEUE_FULL | LOOPY_SUB_QUEUE_EMPTY | LOOPY_SUB_ERROR.

#[export] Instance loopyDeliveryMode_eq_dec : EqDecision loopyDeliveryMode.
Proof. solve_decision. Defined.
#[export] Instance loopyAckMode_eq_dec : EqDecision loopyAckMode.
Proof. solve_decision. Defined.

Record loopyMessageEntry := MessageEntry {
  next : option nat;
  topic : option cstr;          (* NULL when the copy failed *)
  data : option bytes;
  len : Z;
  timestamp : Z;
  sequence : Z;
  publisherData : nat
}.

#[export] Instance MessageEntry_rebuild : Rebuild loopyMessageEntry := fun e =>
  MessageEntry (next e) (topic e) (data e) (len e) (timestamp e) (sequence e) (publisherData e).

(** The heap of message entries. *)
Abbreviation messages := (gmap nat loopyMessageEntry).

Record loopySubscriptionConfig := SubscriptionConfig {
  sc_deliveryMode : loopyDeliveryMode;
  sc_ackMode : loopyAckMode;
  sc_queueSize : Z;
  sc_dropOnFull : bool;
  sc_userData : nat
}.

Record loopySubscription := Subscription {
  pattern : cstr;
  callback : nat;
  eventCallback : bool;         (* set *)
  userData : nat;
  deliveryMode : loopyDeliveryMode;
  ackMode : loopyAckMode;
  queueSize : Z;
  dropOnFull : bool;
  queueHead : option nat;
  queueTail : option nat;
  queueLen : Z;
  messagesReceived : Z;
  sub_messagesDropped : Z
}.

#[export] Instance Subscription_rebuild : Rebuild loopySubscription := fun s =>
  Subscription (pattern s) (callback s) (eventCallback s) (userData s) (deliveryMode s) (ackMode s)
    (queueSize s) (dropOnFull s) (queueHead s) (queueTail s) (queueLen s) (messagesReceived s)
    (sub_messagesDropped s).

(** What a subscriber is handed: [topic] and [data] are pointers.  In a
    callback they point to the publisher's arguments ([None]); in a received
    message into a queue entry, given by its address. *)
Record loopyMessage := Message {
  m_entry : option nat;
  m_len : Z;
  m_timestamp : Z;
  m_sequence : Z;
  m_publisherData : nat
}.

(** ** The queue of a subscription *)

Definition subscription_defaults (p : cstr) (cb : nat) : loopySubscription :=
  Subscription p cb false 0 LOOPY_DELIVER_SYNC LOOPY_ACK_AUTO 1024 true None None 0 0 0.

(** The tail of [publishToPattern]: a new entry is linked behind [queueTail].
    [None]: undefined behaviour, the access to freed memory. *)
Definition enqueue (sub : loopySubscription) (mem : messages) (e : loopyMessageEntry)
    : option (loopySubscription * messages) :=
  let a := fresh (dom mem) in
  let mem' := <[a := e <| next := None |>]> mem in
  '(sub, mem') ←
    match queueTail sub with
    | Some t => _ ← mem !! t; Some (sub, alter (fun e => e <| next := Some a |>) t mem')
    | None => Some (sub <| queueHead := Some a |>, mem')
    end;
  Some (sub <| queueTail := Some a |> <| queueLen ::= fun n => n +64 1 |>, mem').

Inductive delivery := Delivered | Dropped | NoMemory.

(** The queueing branch of [publishToPattern], one subscription.  [alloc] is
    the outcome of the entry's allocation; a failed copy of topic or data is in
    [e]. *)
Definition deliverQueue (sub : loopySubscription) (mem : messages) (e : loopyMessageEntry) (alloc : bool)
    : option (loopySubscription * messages * delivery) :=
  if ((queueSize sub >? 0)%Z && (queueLen sub >=? queueSize sub)%Z) && dropOnFull sub then
    Some (sub <| sub_messagesDropped ::= fun n => n +64 1 |>, mem, Dropped)
  else if negb alloc then Some (sub, mem, NoMemory)
  else
    '(sub, mem) ← enqueue sub mem e;
    Some (sub <| messagesReceived ::= fun n => n +64 1 |>, mem, Delivered).

Definition loopySubscriptionPattern (sub : option loopySubscription) : option cstr := pattern <$> sub.

Definition loopySubscriptionPending (sub : loopySubscription) : Z := queueLen sub.

(** [hasMsg]: the output pointer is not [NULL].  The result is the message
    stored there, [None] for [false]. *)
Definition loopySubscriptionReceive (sub : loopySubscription) (mem : messages) (hasMsg : bool)
    : option (loopySubscription * messages * option loopyMessage) :=
  if negb hasMsg || negb (bool_decide (deliveryMode sub = LOOPY_DELIVER_QUEUE)) then Some (sub, mem, None)
  else
    match queueHead sub with
    | None => Some (sub, mem, None)
    | Some a =>
        entry ← mem !! a;
        let msg := Message (Some a) (len entry) (timestamp entry) (sequence entry) (publisherData entry) in
        if bool_decide (ackMode sub = LOOPY_ACK_MANUAL) then Some (sub, mem, Some msg)
        else
          let sub := sub <| queueHead := next entry |> in
          let sub := if bool_decide (queueHead sub = None) then sub <| queueTail := None |> else sub in
          let sub := sub <| queueLen ::= fun n => n -64 1 |> in
          Some (sub, delete a mem, Some msg)
    end.

(** The walk of [loopySubscriptionAck]; [prev] is the entry whose [next] the
    pointer [pp] is, [None] for [queueHead], and [fuel] bounds the entries. *)
Fixpoint ackWalk (fuel : nat) (sub : loopySubscription) (mem : messages) (prev cur : option nat) (seq : Z)
    : option (loopySubscription * messages * bool) :=
  match fuel with
  | O => None
  | S fuel =>
      match cur with
      | None => Some (sub, mem, false)
      | Some a =>
          entry ← mem !! a;
          if (sequence entry =? seq)%Z then
            let '(sub, mem) :=
              match prev with
              | None => (sub <| queueHead := next entry |>, mem)
              | Some p => (sub, alter (fun e => e <| next := next entry |>) p mem)
              end in
            let sub := if bool_decide (queueTail sub = Some a) then sub <| queueTail := None |> else sub in
            let sub := sub <| queueLen ::= fun n => n -64 1 |> in
            Some (sub, delete a mem, true)
          else ackWalk fuel sub mem (Some a) (next entry) seq
      end
  end.

Definition loopySubscriptionAck (sub : loopySubscription) (mem : messages) (seq : Z)
    : option (loopySubscription * messages * bool) :=
  if negb (bool_decide (ackMode sub = LOOPY_ACK_MANUAL)) then Some (sub, mem, false)
  else ackWalk (S (size mem)) sub mem None (queueHead sub) seq.

Definition loopySubscriptionNack (sub : loopySubscription) (seq : Z) : bool := true.

Definition loopySubscriptionOnEvent (sub : loopySubscription) (cb : bool) : loopySubscription :=
  sub <| eventCallback := cb |>.

(** ** Names and validation *)

Record loopyPubSubConfig := PubSubConfig {
  separator : ascii;
  starWildcard : ascii;
  hashWildcard : ascii;
  maxSubscriptions : Z;
  enableStats : bool
}.

Definition loopyPubSubConfigInit : loopyPubSubConfig := PubSubConfig "." "*" "#" 0 true.
Definition loopySubscriptionConfigInit : loopySubscriptionConfig :=
  SubscriptionConfig LOOPY_DELIVER_SYNC LOOPY_ACK_AUTO 1024 true 0.

Fixpoint hasWildcard (config : loopyPubSubConfig) (s : cstr) : bool :=
  match s with
  | [] => false
  | c :: s => (Ascii.eqb c (starWildcard config) || Ascii.eqb c (hashWildcard config)) || hasWildcard config s
  end.

Definition loopyValidateTopic (config : loopyPubSubConfig) (s : option cstr) : bool :=
  match s with
  | None | Some [] => false
  | Some s => negb (hasWildcard config s)
  end.

Definition loopyValidatePattern (config : loopyPubSubConfig) (s : option cstr) : bool :=
  match s with
  | None | Some [] => false
  | Some s =>
      match strchr s (hashWildcard config) with
      | Some k => match drop (S k) s with [] => true | c :: _ => Ascii.eqb c (separator config) end
      | None => true
      end
  end.

Definition loopySubscriptionEventName (e : option loopySubscriptionEvent) : string :=
  match e with
  | Some LOOPY_SUB_SUBSCRIBED => "SUBSCRIBED"
  | Some LOOPY_SUB_UNSUBSCRIBED => "UNSUBSCRIBED"
  | Some LOOPY_SUB_QUEUE_FULL => "QUEUE_FULL"
  | Some LOOPY_SUB_QUEUE_EMPTY => "QUEUE_EMPTY"
  | Some LOOPY_SUB_ERROR => "ERROR"
  | None => "UNKNOWN"
  end.

Definition loopyDeliveryModeName (m : option loopyDeliveryMode) : string :=
  match m with
  | Some LOOPY_DELIVER_SYNC => "SYNC"
  | Some LOOPY_DELIVER_ASYNC => "ASYNC"
  | Some LOOPY_DELIVER_QUEUE => "QUEUE"
  | None => "UNKNOWN"
  end.

Definition loopyAckModeName (m : option loopyAckMode) : string :=
  match m with
  | Some LOOPY_ACK_NONE => "NONE"
  | Some LOOPY_ACK_AUTO => "AUTO"
  | Some LOOPY_ACK_MANUAL => "MANUAL"
  | None => "UNKNOWN"
  end.

(** ** The topic matcher

    [raxTopic] maps patterns to pattern entries; [raxTopicMatch] calls back for
    the entries of the patterns that match a topic. *)

Class RaxTopic := {
  topics : Type;
  raxTopicNew : ascii -> ascii -> ascii -> topics;
  raxTopicGet : topics -> cstr -> option nat;
  raxTopicBind : topics -> cstr -> nat -> topics;
  raxTopicUnbind : topics -> cstr -> topics;
  raxTopicMatch : topics -> cstr -> list (cstr * nat);
  raxTopicIterate : topics -> list (cstr * nat)
}.

Class RaxTopicSpec {T : RaxTopic} := {
  topic_map : topics -> gmap cstr nat;
  topic_map_new a b c : topic_map (raxTopicNew a b c) = ∅;
  raxTopicGet_spec t p : raxTopicGet t p = topic_map t !! p;
  raxTopicBind_spec t p e : topic_map (raxTopicBind t p e) = <[p := e]> (topic_map t);
  raxTopicUnbind_spec t p : topic_map (raxTopicUnbind t p) = delete p (topic_map t);
  raxTopicMatch_nodup t s : NoDup (raxTopicMatch t s);
  raxTopicMatch_bound t s p e : (p, e) ∈ raxTopicMatch t s -> topic_map t !! p = Some e;
  raxTopicIterate_spec t : raxTopicIterate t ≡ₚ map_to_list (topic_map t)
}.
#[global] Arguments RaxTopicSpec T : clear implicits.

(** ** The hub *)

(** The subscriptions of one pattern, newest first: the list linked by
    [nextSamePattern]. *)
Record loopyPatternEntry := PatternEntry {
  pe_pattern : cstr;
  subscriptions : list nat;
  pe_count : Z
}.

#[export] Instance PatternEntry_rebuild : Rebuild loopyPatternEntry := fun e =>
  PatternEntry (pe_pattern e) (subscriptions e) (pe_count e).

(** A call into user code. *)
Inductive pubsub_call :=
| CallMessage (sub : nat) (msg : loopyMessage)
| CallEvent (sub : nat) (event : loopySubscriptionEvent).

(** The outcomes of a publication's allocations for one subscription. *)
Record msgAllocs := MsgAllocs { allocEntry : bool; allocTopic : bool; allocData : bool }.

Section Hub.
Context {T : RaxTopic}.

Record loopyPubSub := PubSub {
  ps_topics : topics;
  entries : gmap nat loopyPatternEntry;
  subs : gmap nat loopySubscription;
  msgs : messages;
  ps_config : loopyPubSubConfig;
  ps_sequence : Z;
  messagesPublished : Z;
  messagesDelivered : Z;
  messagesDropped : Z;
  bytesPublished : Z;
  bytesDelivered : Z;
  subscriptionCount : Z;
  patternCount : Z
}.

#[local] Instance PubSub_rebuild : Rebuild loopyPubSub := fun p =>
  PubSub (ps_topics p) (entries p) (subs p) (msgs p) (ps_config p) (ps_sequence p) (messagesPublished p)
    (messagesDelivered p) (messagesDropped p) (bytesPublished p) (bytesDelivered p)
    (subscriptionCount p) (patternCount p).

(** The booleans are the outcomes of the two allocations and of
    [pthread_rwlock_init]. *)
Definition loopyPubSubNew (alloc allocTopics lockInit : bool) (config : option loopyPubSubConfig)
    : option loopyPubSub :=
  if negb alloc then None
  else
    let c := match config with Some c => c | None => loopyPubSubConfigInit end in
    if negb allocTopics then None
    else if negb lockInit then None
    else Some (PubSub (raxTopicNew (separator c) (starWildcard c) (hashWildcard c)) ∅ ∅ ∅ c 0 0 0 0 0 0 0 0).

(** Allocation of a subscription, its pattern, the pattern's entry with its own
    copy, and the binding; the initialisation of its mutex. *)
Record subAllocs := SubAllocs {
  allocSub : bool; allocPattern : bool; mutexInit : bool; allocPatternEntry : bool; bindOk : bool }.

Definition newSubscription (p : cstr) (cb : nat) (config : option loopySubscriptionConfig) : loopySubscription :=
  match config with
  | Some c => Subscription p cb false (sc_userData c) (sc_deliveryMode c) (sc_ackMode c) (sc_queueSize c)
                (sc_dropOnFull c) None None 0 0 0
  | None => subscription_defaults p cb
  end.

(** Links a subscription into its pattern's list.  A new subscription has no
    event callback yet, so LOOPY_SUB_SUBSCRIBED is never sent. *)
Definition linkSubscription (ps : loopyPubSub) (e : nat) (sub : loopySubscription) : loopyPubSub * nat :=
  let a := fresh (dom (subs ps)) in
  let ps := ps <| subs ::= <[a := sub]> |> in
  let ps := ps <| entries ::= alter (fun x => x <| subscriptions ::= cons a |> <| pe_count ::= fun n => n +64 1 |>) e |> in
  (ps <| subscriptionCount ::= fun n => n +64 1 |>, a).

Definition loopySubscribe (ps : loopyPubSub) (p : option cstr) (cb : option nat)
    (config : option loopySubscriptionConfig) (m : subAllocs) : loopyPubSub * option nat :=
  match p, cb with
  | Some p, Some cb =>
      if (maxSubscriptions (ps_config ps) >? 0)%Z && (subscriptionCount ps >=? maxSubscriptions (ps_config ps))%Z
      then (ps, None)
      else if negb (allocSub m) then (ps, None)
      else if negb (allocPattern m) then (ps, None)
      else
        let sub := newSubscription p cb config in
        if negb (mutexInit m) then (ps, None)
        else
          match raxTopicGet (ps_topics ps) p with
          | Some e => let '(ps, a) := linkSubscription ps e sub in (ps, Some a)
          | None =>
              if negb (allocPatternEntry m) then (ps, None)
              else if negb (bindOk m) then (ps, None)
              else
                let e := fresh (dom (entries ps)) in
                let ps := ps <| entries ::= <[e := PatternEntry p [] 0]> |> in
                let ps := ps <| ps_topics ::= fun t => raxTopicBind t p e |> in
                let ps := ps <| patternCount ::= fun n => n +64 1 |> in
                let '(ps, a) := linkSubscription ps e sub in (ps, Some a)
          end
  | _, _ => (ps, None)
  end.

(** Frees the queue: the walk from [queueHead]. *)
Fixpoint freeQueue (fuel : nat) (mem : messages) (cur : option nat) : option messages :=
  match fuel with
  | O => None
  | S fuel =>
      match cur with
      | None => Some mem
      | Some a => entry ← mem !! a; freeQueue fuel (delete a mem) (next entry)
      end
  end.

(** Removes the first occurrence of a subscription from the list; whether it
    was there. *)
Fixpoint unlink (a : nat) (l : list nat) : list nat * bool :=
  match l with
  | [] => ([], false)
  | x :: l => if (x =? a)%nat then (l, true) else let '(l, b) := unlink a l in (x :: l, b)
  end.

Definition loopyUnsubscribe (ps : loopyPubSub) (sub : option nat)
    : option (loopyPubSub * bool * list pubsub_call) :=
  match sub with
  | None => Some (ps, false, [])
  | Some a =>
      s ← subs ps !! a;
      match raxTopicGet (ps_topics ps) (pattern s) with
      | None => Some (ps, false, [])
      | Some e =>
          entry ← entries ps !! e;
          let '(l, found) := unlink a (subscriptions entry) in
          let entry := entry <| subscriptions := l |> in
          let entry := if found then entry <| pe_count ::= fun n => n -64 1 |> else entry in
          let ps := ps <| entries ::= <[e := entry]> |> in
          let ps :=
            if (pe_count entry =? 0)%Z then
              ps <| ps_topics ::= fun t => raxTopicUnbind t (pattern s) |> <| entries ::= delete e |>
                 <| patternCount ::= fun n => n -64 1 |>
            else ps in
          let ps := ps <| subscriptionCount ::= fun n => n -64 1 |> in
          mem ← freeQueue (S (size (msgs ps))) (msgs ps) (queueHead s);
          Some (ps <| msgs := mem |> <| subs ::= delete a |>, true,
                if eventCallback s then [CallEvent a LOOPY_SUB_UNSUBSCRIBED] else [])
      end
  end.

(** *** Publishing *)

(** [publishContext]. *)
Record publishContext := PublishContext {
  c_topic : cstr;
  c_data : bytes;
  c_timestamp : Z;
  c_sequence : Z;
  c_publisherData : nat
}.

Definition entry_of (ctx : publishContext) (m : msgAllocs) : loopyMessageEntry :=
  MessageEntry None (if allocTopic m then Some (c_topic ctx) else None)
    (if allocData m then Some (c_data ctx) else None) (Z.of_nat (length (c_data ctx)))
    (c_timestamp ctx) (c_sequence ctx) (c_publisherData ctx).

(** One subscription of [publishToPattern]; the result counts deliveries and
    drops and lists the calls made. *)
Definition publishToSub (ps : loopyPubSub) (ctx : publishContext) (alloc : nat -> msgAllocs) (a : nat)
    : option (loopyPubSub * nat * nat * list pubsub_call) :=
  s ← subs ps !! a;
  match deliveryMode s with
  | LOOPY_DELIVER_SYNC =>
      let msg := Message None (Z.of_nat (length (c_data ctx))) (c_timestamp ctx) (c_sequence ctx) (c_publisherData ctx) in
      Some (ps <| subs ::= alter (fun s => s <| messagesReceived ::= fun n => n +64 1 |>) a |>, 1, 0,
            [CallMessage a msg])
  | LOOPY_DELIVER_QUEUE =>
      '(s', mem, d) ← deliverQueue s (msgs ps) (entry_of ctx (alloc a)) (allocEntry (alloc a));
      let ps := ps <| subs ::= <[a := s']> |> <| msgs := mem |> in
      match d with
      | Delivered => Some (ps, 1, 0, [])
      | Dropped => Some (ps, 0, 1, if eventCallback s then [CallEvent a LOOPY_SUB_QUEUE_FULL] else [])
      | NoMemory => Some (ps, 0, 0, [])
      end
  | LOOPY_DELIVER_ASYNC => Some (ps, 0, 0, [])
  end.

Fixpoint publishToSubs (ps : loopyPubSub) (ctx : publishContext) (alloc : nat -> msgAllocs) (l : list nat)
    : option (loopyPubSub * nat * nat * list pubsub_call) :=
  match l with
  | [] => Some (ps, 0, 0, [])
  | a :: l =>
      '(ps, d1, x1, c1) ← publishToSub ps ctx alloc a;
      '(ps, d2, x2, c2) ← publishToSubs ps ctx alloc l;
      Some (ps, d1 + d2, x1 + x2, c1 ++ c2)
  end.

Fixpoint publishToPatterns (ps : loopyPubSub) (ctx : publishContext) (alloc : nat -> msgAllocs)
    (l : list (cstr * nat)) : option (loopyPubSub * nat * nat * list pubsub_call) :=
  match l with
  | [] => Some (ps, 0, 0, [])
  | (_, e) :: l =>
      entry ← entries ps !! e;
      '(ps, d1, x1, c1) ← publishToSubs ps ctx alloc (subscriptions entry);
      '(ps, d2, x2, c2) ← publishToPatterns ps ctx alloc l;
      Some (ps, d1 + d2, x1 + x2, c1 ++ c2)
  end.

Definition loopyPublishEx (ps : loopyPubSub) (t : option cstr) (data : bytes) (publisherData : nat)
    (now : Z) (alloc : nat -> msgAllocs) : option (loopyPubSub * nat * list pubsub_call) :=
  match t with
  | None => Some (ps, 0, [])
  | Some t =>
      let ps := ps <| ps_sequence ::= fun n => n +64 1 |> in
      let seq := ps_sequence ps in
      let ctx := PublishContext t data now seq publisherData in
      '(ps, delivered, dropped, calls) ← publishToPatterns ps ctx alloc (raxTopicMatch (ps_topics ps) t);
      let len := Z.of_nat (length data) in
      let ps :=
        if enableStats (ps_config ps) then
          ps <| messagesPublished ::= fun n => n +64 1 |>
             <| messagesDelivered ::= fun n => n +64 Z.of_nat delivered |>
             <| messagesDropped ::= fun n => n +64 Z.of_nat dropped |>
             <| bytesPublished ::= fun n => n +64 len |>
             <| bytesDelivered ::= fun n => n +64 (len *64 Z.of_nat delivered) |>
        else ps in
      Some (ps, delivered, calls)
  end.

Definition loopyPublish (ps : loopyPubSub) (t : option cstr) (data : bytes) (now : Z)
    (alloc : nat -> msgAllocs) : option (loopyPubSub * nat * list pubsub_call) :=
  loopyPublishEx ps t data 0 now alloc.

(** The last component is the argument of the completion callback, if any. *)
Definition loopyPublishAsync (ps : loopyPubSub) (t : option cstr) (data : bytes) (cb : bool) (now : Z)
    (alloc : nat -> msgAllocs) : option (loopyPubSub * bool * list pubsub_call * option nat) :=
  '(ps, delivered, calls) ← loopyPublish ps t data now alloc;
  Some (ps, true, calls, if cb then Some delivered else None).

(** *** Queries *)

Definition loopyHasSubscribers (ps : loopyPubSub) (p : option cstr) : bool :=
  match p with None => false | Some p => bool_decide (is_Some (raxTopicGet (ps_topics ps) p)) end.

Definition loopyCountSubscribers (ps : loopyPubSub) (p : option cstr) : option Z :=
  match p with
  | None => Some 0%Z
  | Some p =>
      match raxTopicGet (ps_topics ps) p with
      | None => Some 0%Z
      | Some e => entry ← entries ps !! e; Some (pe_count entry)
      end
  end.

Fixpoint countMatches (ps : loopyPubSub) (l : list (cstr * nat)) (total : Z) : option Z :=
  match l with
  | [] => Some total
  | (_, e) :: l => entry ← entries ps !! e; countMatches ps l (total +64 pe_count entry)
  end.

Definition loopyMatchCount (ps : loopyPubSub) (t : option cstr) : option Z :=
  match t with None => Some 0%Z | Some t => countMatches ps (raxTopicMatch (ps_topics ps) t) 0 end.

(** [fn] answers whether to stop. *)
Fixpoint iterateSubs (fn : cstr -> nat -> bool) (p : cstr) (l : list nat) (count : nat) : nat * bool :=
  match l with
  | [] => (count, false)
  | a :: l => if fn p a then (count + 1, true) else iterateSubs fn p l (count + 1)
  end.

Fixpoint iterateEntries (ps : loopyPubSub) (fn : cstr -> nat -> bool) (l : list (cstr * nat)) (count : nat)
    : option nat :=
  match l with
  | [] => Some count
  | (p, e) :: l =>
      entry ← entries ps !! e;
      let '(count, stop) := iterateSubs fn p (subscriptions entry) count in
      if stop then Some count else iterateEntries ps fn l count
  end.

Definition loopyIterateSubscriptions (ps : loopyPubSub) (fn : cstr -> nat -> bool) : option nat :=
  iterateEntries ps fn (raxTopicIterate (ps_topics ps)) 0.

Record loopyPubSubStats := PubSubStats {
  st_messagesPublished : Z; st_messagesDelivered : Z; st_messagesDropped : Z; st_bytesPublished : Z;
  st_bytesDelivered : Z; st_subscriptionCount : Z; st_patternCount : Z }.

Definition loopyPubSubGetStats (ps : loopyPubSub) : loopyPubSubStats :=
  PubSubStats (messagesPublished ps) (messagesDelivered ps) (messagesDropped ps) (bytesPublished ps)
    (bytesDelivered ps) (subscriptionCount ps) (patternCount ps).

Definition loopyPubSubResetStats (ps : loopyPubSub) : loopyPubSub :=
  ps <| messagesPublished := 0%Z |> <| messagesDelivered := 0%Z |> <| messagesDropped := 0%Z |>
     <| bytesPublished := 0%Z |> <| bytesDelivered := 0%Z |>.
End Hub.

#[export] Existing Instance PubSub_rebuild.

(** ** Linked lists of messages *)

(** The contents of an entry: the entry without its link. *)
Definition payload (e : loopyMessageEntry) : loopyMessageEntry := e <| next := None |>.

(** A segment of the list: from [p], through the listed addresses with the
    listed contents, to [q]. *)
Fixpoint seg (mem : messages) (p : option nat) (l : list (nat * loopyMessageEntry)) (q : option nat) : Prop :=
  match l with
  | [] => p = q
  | (a, m) :: l => p = Some a /\ exists e, mem !! a = Some e /\ payload e = m /\ seg mem (next e) l q
  end.

Lemma seg_app mem p l1 l2 q : seg mem p (l1 ++ l2) q <-> exists r, seg mem p l1 r /\ seg mem r l2 q.
Proof.
  revert p. induction l1 as [|[a m] l1 IH]; intros p; simpl.
  - split; [by exists p|]. by intros (r & -> & H).
  - split.
    + intros (-> & e & He & Hp & H). apply IH in H as (r & H1 & H2). exists r. split; [|done].
      split; [done|]. by exists e.
    + intros (r & (-> & e & He & Hp & H1) & H2). split; [done|]. exists e. split_and!; try done.
      apply IH. by exists r.
Qed.

Lemma seg_frame mem mem' p l q :
  (forall a, a ∈ l.*1 -> mem' !! a = mem !! a) -> seg mem p l q -> seg mem' p l q.
Proof.
  revert p. induction l as [|[a m] l IH]; intros p Hf H; [done|]. simpl in *.
  destruct H as (-> & e & He & Hp & H). split; [done|]. exists e. rewrite Hf by (by left).
  split_and!; try done. apply IH; [|done]. intros b Hb. apply Hf. by right.
Qed.

Lemma seg_live mem p l q a m : seg mem p l q -> (a, m) ∈ l -> exists e, mem !! a = Some e /\ payload e = m.
Proof.
  revert p. induction l as [|[b n] l IH]; intros p H Ha; [by apply elem_of_nil in Ha|].
  destruct H as (-> & e & He & Hp & H). apply elem_of_cons in Ha as [[= -> ->]|Ha]; [by exists e|].
  by eapply IH.
Qed.

(** Changing the link of the last cell. *)
Lemma seg_relink mem p l t m q q' :
  seg mem p (l ++ [(t, m)]) q -> t ∉ l.*1 ->
  seg (alter (fun e => e <| next := q' |>) t mem) p (l ++ [(t, m)]) q'.
Proof.
  intros H Ht. apply seg_app in H as (r & H1 & (-> & e & He & Hp & <-)). apply seg_app.
  exists (Some t). split.
  - apply (seg_frame mem); [|done]. intros a Ha. rewrite lookup_alter_ne; [done|]. by intros ->.
  - split; [done|]. eexists. split; [by rewrite lookup_alter_eq, He|]. split; [by rewrite <- Hp|]. done.
Qed.

(** The queue of [sub] holds the entries [l], oldest first. *)
Record queue_rep (sub : loopySubscription) (mem : messages) (l : list (nat * loopyMessageEntry)) : Prop := {
  qr_seg : seg mem (queueHead sub) l None;
  qr_nodup : NoDup l.*1;
  qr_tail : queueTail sub = fst <$> last l;
  qr_len : queueLen sub = Z.of_nat (length l)
}.

Lemma queue_rep_addr sub mem l a : queue_rep sub mem l -> a ∈ l.*1 -> is_Some (mem !! a).
Proof.
  intros R Ha. apply list_elem_of_fmap in Ha as ([b m] & -> & Hb).
  destruct (seg_live _ _ _ _ _ _ (qr_seg _ _ _ R) Hb) as (e & He & _). by eexists.
Qed.

Lemma queue_rep_size sub mem l : queue_rep sub mem l -> length l <= size mem.
Proof.
  intros R. assert (Hsub : list_to_set (C := gset nat) l.*1 ⊆ dom mem).
  { intros a Ha. apply elem_of_list_to_set in Ha. apply elem_of_dom. by eapply queue_rep_addr. }
  apply subseteq_size in Hsub. rewrite size_list_to_set, length_fmap, size_dom in Hsub; [done|]. by destruct R.
Qed.

(** The entries of other queues are left alone. *)
Definition frame (mem mem' : messages) (touched : list nat) : Prop :=
  forall b, b ∉ touched -> mem' !! b = mem !! b.

Lemma enqueue_rep sub mem l e :
  queue_rep sub mem l -> (Z.of_nat (S (length l)) < w64)%Z ->
  exists sub' mem' a, enqueue sub mem e = Some (sub', mem') /\
    queue_rep sub' mem' (l ++ [(a, payload e)]) /\ mem !! a = None /\ frame mem mem' (a :: l.*1) /\
    sub' = sub <| queueHead := queueHead sub' |> <| queueTail := queueTail sub' |> <| queueLen := queueLen sub' |>.
Proof.
  intros R Hl. pose proof R as [Hs Hn Ht Hlen]. unfold enqueue.
  set (a := fresh (dom mem)). assert (Ha : mem !! a = None) by (apply not_elem_of_dom, is_fresh).
  assert (Hal : a ∉ l.*1) by (intros Hi; destruct (queue_rep_addr _ _ _ _ R Hi); congruence).
  assert (Hn' : NoDup (l ++ [(a, payload e)]).*1).
  { rewrite fmap_app. apply NoDup_app. split_and!; [done| |apply NoDup_singleton].
    intros b Hb. simpl. rewrite list_elem_of_singleton. by intros ->. }
  assert (Hlen' : queueLen sub +64 1 = Z.of_nat (length (l ++ [(a, payload e)]))).
  { rewrite Hlen, u64_small by (unfold in64; lia). rewrite length_app. simpl. lia. }
  assert (Hseg : seg (<[a := e <| next := None |>]> mem) (Some a) [(a, payload e)] None).
  { split; [done|]. eexists. by rewrite lookup_insert_eq. }
  destruct l as [|x l _] using rev_ind.
  - simpl in Ht. rewrite Ht. cbn [mbind option_bind]. eexists _, _, a. split; [done|].
    split; [constructor; cbn; try done|]. split; [done|]. split; [|done].
    intros b Hb. rewrite lookup_insert_ne; [done|]. intros ->. apply Hb. by left.
  - destruct x as [t m]. rewrite last_snoc in Ht. simpl in Ht. rewrite Ht.
    destruct (queue_rep_addr _ _ _ t R) as [et Het]; [rewrite fmap_app; apply elem_of_app; right; by left|].
    rewrite Het. cbn [mbind option_bind].
    rewrite fmap_app in Hn, Hal. apply NoDup_app in Hn as (_ & Hdisj & _).
    assert (Htl : t ∉ l.*1) by (intros Hi; apply (Hdisj _ Hi); by left).
    assert (Hta : t <> a) by (intros ->; apply Hal, elem_of_app; right; by left).
    eexists _, _, a. split; [done|]. split; [constructor; cbn; try done|].
    + apply seg_app. exists (Some a). split.
      * apply (seg_relink _ _ _ _ _ None); [|done]. apply (seg_frame mem); [|done].
        intros b Hb. rewrite lookup_insert_ne; [done|]. intros <-. by rewrite fmap_app in Hb.
      * apply (seg_frame (<[a := e <| next := None |>]> mem)); [|done].
        intros b Hb. apply list_elem_of_singleton in Hb as ->. by rewrite lookup_alter_ne.
    + by rewrite last_snoc.
    + split; [done|]. split; [|done]. intros b Hb. rewrite lookup_alter_ne, lookup_insert_ne; [done|..].
      * intros ->. apply Hb. by left.
      * intros ->. apply Hb. right. rewrite fmap_app. apply elem_of_app. right. by left.
Qed.

Lemma receive_pop sub mem a m l :
  queue_rep sub mem ((a, m) :: l) -> deliveryMode sub = LOOPY_DELIVER_QUEUE -> ackMode sub <> LOOPY_ACK_MANUAL ->
  (Z.of_nat (S (length l)) < w64)%Z ->
  exists sub', loopySubscriptionReceive sub mem true =
      Some (sub', delete a mem, Some (Message (Some a) (len m) (timestamp m) (sequence m) (publisherData m))) /\
    queue_rep sub' (delete a mem) l /\
    sub' = sub <| queueHead := queueHead sub' |> <| queueTail := queueTail sub' |> <| queueLen := queueLen sub' |>.
Proof.
  intros [Hs Hn Ht Hlen] Hd Hm Hl. destruct Hs as (Hh & e & He & Hp & Hs). apply NoDup_cons in Hn as [Ha Hn].
  unfold loopySubscriptionReceive. rewrite Hd, Hh, He. rewrite (bool_decide_eq_false_2 (ackMode sub = _)) by done.
  cbn [mbind option_bind negb orb]. rewrite bool_decide_eq_true_2 by done. cbn [negb orb].
  eexists. split; [subst m; done|].
  assert (Hs' : seg (delete a mem) (next e) l None).
  { apply (seg_frame mem); [|done]. intros b Hb. rewrite lookup_delete_ne; [done|]. by intros <-. }
  assert (Hlen' : queueLen sub -64 1 = Z.of_nat (length l)).
  { rewrite Hlen. simpl length. rewrite u64_small by (unfold in64; lia). lia. }
  case_bool_decide as Hne; cbn in Hne |- *; (split; [|done]).
  - constructor; cbn; try done. rewrite Hne in Hs'. by destruct l as [|[b n] l]; [|destruct Hs'].
  - constructor; cbn; try done. rewrite Ht. destruct l as [|x l]; [by rewrite Hs' in Hne|]. done.
Qed.

Lemma receive_peek sub mem a m l :
  queue_rep sub mem ((a, m) :: l) -> deliveryMode sub = LOOPY_DELIVER_QUEUE -> ackMode sub = LOOPY_ACK_MANUAL ->
  loopySubscriptionReceive sub mem true =
    Some (sub, mem, Some (Message (Some a) (len m) (timestamp m) (sequence m) (publisherData m))).
Proof.
  intros [Hs _ _ _] Hd Hm. destruct Hs as (Hh & e & He & Hp & Hs).
  unfold loopySubscriptionReceive. rewrite Hd, Hh, He, Hm. by subst m.
Qed.

Lemma receive_empty sub mem : queue_rep sub mem [] -> loopySubscriptionReceive sub mem true = Some (sub, mem, None).
Proof.
  intros [Hs _ _ _]. unfold loopySubscriptionReceive. simpl in Hs. rewrite Hs. by destruct (_ || _).
Qed.

(** *** Acknowledgement *)

(** The first entry with a sequence number, and what precedes and follows. *)
Fixpoint find_seq (seq : Z) (l : list (nat * loopyMessageEntry))
    : option (list (nat * loopyMessageEntry) * (nat * loopyMessageEntry) * list (nat * loopyMessageEntry)) :=
  match l with
  | [] => None
  | x :: l =>
      if (sequence x.2 =? seq)%Z then Some ([], x, l)
      else '(l1, y, l2) ← find_seq seq l; Some (x :: l1, y, l2)
  end.

Lemma find_seq_split seq l l1 x l2 : find_seq seq l = Some (l1, x, l2) -> l = l1 ++ x :: l2.
Proof.
  revert l1. induction l as [|y l IH]; intros l1 E; simpl in E; [done|].
  destruct (_ =? _)%Z; [by injection E as <- <- <-|].
  destruct (find_seq seq l) as [[[l1' y'] l2']|]; [|done]. injection E as <- <- <-. simpl. f_equal. by apply IH.
Qed.

(** What removing entry [a] makes of the subscription and the heap. *)
Definition unlinked (sub : loopySubscription) (mem : messages) (prev : option nat) (a : nat) (nx : option nat)
    : loopySubscription * messages :=
  let '(sub, mem) :=
    match prev with
    | None => (sub <| queueHead := nx |>, mem)
    | Some p => (sub, alter (fun e => e <| next := nx |>) p mem)
    end in
  let sub := if bool_decide (queueTail sub = Some a) then sub <| queueTail := None |> else sub in
  (sub <| queueLen ::= fun n => n -64 1 |>, delete a mem).

(** The walk finds the first entry with the sequence number. *)
Lemma ackWalk_spec fuel sub mem prev cur l seq :
  seg mem cur l None -> length l < fuel ->
  match find_seq seq l with
  | None => ackWalk fuel sub mem prev cur seq = Some (sub, mem, false)
  | Some (l1, (a, _), _) =>
      exists e, mem !! a = Some e /\
        ackWalk fuel sub mem prev cur seq =
          Some (unlinked sub mem (match last l1 with Some x => Some x.1 | None => prev end) a (next e), true)
  end.
Proof.
  revert prev cur l. induction fuel as [|fuel IH]; intros prev cur l Hs Hf; [lia|].
  destruct l as [|[b m] l]; simpl in Hs; [by rewrite Hs|]. destruct Hs as (-> & e & He & Hp & Hs).
  cbn [ackWalk find_seq snd]. rewrite He. cbn [mbind option_bind].
  assert (Eseq : sequence m = sequence e) by by subst m. rewrite Eseq.
  destruct (sequence e =? seq)%Z eqn:E.
  - exists e. split; [done|]. cbn [last]. unfold unlinked. by destruct prev.
  - specialize (IH (Some b) (next e) l Hs ltac:(simpl in Hf; lia)).
    destruct (find_seq seq l) as [[[l1 [a n]] l2]|]; [|done]. cbn [mbind option_bind].
    destruct IH as (e' & He' & IH). exists e'. split; [done|]. rewrite IH.
    destruct l1 as [|x l1]; [done|]. rewrite (last_cons (b, m)). by destruct (last (x :: l1)) eqn:El;
      [|apply last_None in El].
Qed.

Lemma unlinked_seg sub mem l1 a m l2 e :
  seg mem (queueHead sub) (l1 ++ (a, m) :: l2) None -> NoDup (l1 ++ (a, m) :: l2).*1 -> mem !! a = Some e ->
  let '(sub', mem') := unlinked sub mem (match last l1 with Some x => Some x.1 | None => None end) a (next e) in
  seg mem' (queueHead sub') (l1 ++ l2) None /\ frame mem mem' (l1 ++ (a, m) :: l2).*1 /\
  queueLen sub' = queueLen sub -64 1 /\
  queueTail sub' = (if bool_decide (queueTail sub = Some a) then None else queueTail sub) /\
  deliveryMode sub' = deliveryMode sub /\ ackMode sub' = ackMode sub /\
  queueSize sub' = queueSize sub /\ dropOnFull sub' = dropOnFull sub.
Proof.
  intros Hs Hn He. apply seg_app in Hs as (r & H1 & (-> & e' & He' & Hp & H2)).
  assert (e' = e) as -> by congruence. rewrite fmap_app in Hn. apply NoDup_app in Hn as (Hn1 & Hd & Hn2). simpl in Hn2. apply NoDup_cons in Hn2 as [Ha2 Hn2].
  assert (Ha1 : a ∉ l1.*1) by (intros Hi; apply (Hd _ Hi); by left).
  destruct l1 as [|[t n] l1 _] using rev_ind.
  - simpl. unfold unlinked. split_and!; try (case_bool_decide; done).
    + case_bool_decide; cbn; (apply (seg_frame mem); [|done]); intros b Hb; rewrite lookup_delete_ne; try done; by intros <-.
    + intros b Hb. rewrite lookup_delete_ne; [done|]. intros <-. apply Hb. by left.
  - rewrite last_snoc. cbn [fst]. unfold unlinked.
    rewrite fmap_app in Hn1, Ha1, Hd. apply NoDup_app in Hn1 as (Hn1 & Hd1 & _).
    assert (Ht1 : t ∉ l1.*1) by (intros Hi; apply (Hd1 _ Hi); by left).
    assert (Hta : t <> a) by (intros ->; apply Ha1, elem_of_app; right; by left).
    split_and!; try (case_bool_decide; done).
    + assert (Hseg : seg (delete a (alter (fun x => x <| next := next e |>) t mem)) (queueHead sub) ((l1 ++ [(t, n)]) ++ l2) None).
      { apply seg_app. exists (next e). split.
        - apply (seg_frame (alter (fun x => x <| next := next e |>) t mem)).
          + intros b Hb. rewrite lookup_delete_ne; [done|]. intros <-. apply Ha1. by rewrite fmap_app in Hb.
          + by apply (seg_relink _ _ _ _ _ (Some a)).
        - apply (seg_frame mem); [|done]. intros b Hb. rewrite lookup_delete_ne, lookup_alter_ne; try done.
          + intros <-. apply (Hd t); [apply elem_of_app; right; by left|by right].
          + by intros <-. }
      by case_bool_decide.
    + intros b Hb. rewrite !fmap_app in Hb. rewrite lookup_delete_ne, lookup_alter_ne; try done.
      * intros <-. apply Hb, elem_of_app. left. apply elem_of_app. right. by left.
      * intros <-. apply Hb, elem_of_app. right. by left.
Qed.

(** ** The queue against a list *)

(** What a program does with one queue: a publication that reaches it, a
    receive, an acknowledgement. *)
Inductive queue_op := QPublish (e : loopyMessageEntry) | QReceive | QAck (seq : Z).

(** What it learns: the delivery; length, time, sequence number and publisher's
    data of a message, and the topic and data that its pointers lead to when the
    call returns ([None]: to a freed entry); whether the message was there. *)
Inductive queue_out :=
  | OutDelivery (d : delivery)
  | OutMessage (m : option (Z * Z * Z * nat * option (option cstr * option bytes)))
  | OutAck (b : bool).

Definition contents (e : loopyMessageEntry) : option cstr * option bytes := (topic e, data e).
Definition pointed (mem : messages) (m : loopyMessage) : option (option cstr * option bytes) :=
  a ← m_entry m; contents <$> mem !! a.

Definition queue_do (sub : loopySubscription) (mem : messages) (op : queue_op)
    : option (loopySubscription * messages * queue_out) :=
  match op with
  | QPublish e => '(sub, mem, d) ← deliverQueue sub mem e true; Some (sub, mem, OutDelivery d)
  | QReceive =>
      '(sub, mem, msg) ← loopySubscriptionReceive sub mem true;
      Some (sub, mem, OutMessage ((fun m => (m_len m, m_timestamp m, m_sequence m, m_publisherData m, pointed mem m)) <$> msg))
  | QAck seq => '(sub, mem, b) ← loopySubscriptionAck sub mem seq; Some (sub, mem, OutAck b)
  end.

Fixpoint queue_run (sub : loopySubscription) (mem : messages) (ops : list queue_op)
    : option (loopySubscription * messages * list queue_out) :=
  match ops with
  | [] => Some (sub, mem, [])
  | op :: ops =>
      '(sub, mem, o) ← queue_do sub mem op;
      '(sub, mem, os) ← queue_run sub mem ops;
      Some (sub, mem, o :: os)
  end.

(** The specification: a list of messages, bounded by [size] when [drop].  A
    received message can be read when it stays in the list ([manual]).  It leaves
    open ([None]) only the acknowledgement of the last of several messages. *)
Definition msg_view (m : loopyMessageEntry) : Z * Z * Z * nat :=
  (len m, timestamp m, sequence m, publisherData m).

Fixpoint spec_find (seq : Z) (q : list loopyMessageEntry)
    : option (list loopyMessageEntry * list loopyMessageEntry) :=
  match q with
  | [] => None
  | m :: q =>
      if (sequence m =? seq)%Z then Some ([], q) else '(q1, q2) ← spec_find seq q; Some (m :: q1, q2)
  end.

Definition queue_spec (size : Z) (drop manual : bool) (q : list loopyMessageEntry) (op : queue_op)
    : option (list loopyMessageEntry * queue_out) :=
  match op with
  | QPublish e =>
      if ((size >? 0)%Z && (Z.of_nat (length q) >=? size)%Z) && drop then Some (q, OutDelivery Dropped)
      else Some (q ++ [payload e], OutDelivery Delivered)
  | QReceive =>
      match q with
      | [] => Some (q, OutMessage None)
      | m :: q' => Some (if manual then q else q', OutMessage (Some (msg_view m, if manual then Some (contents m) else None)))
      end
  | QAck seq =>
      if manual then
        match spec_find seq q with
        | None => Some (q, OutAck false)
        | Some (q1, q2) =>
            match q1, q2 with
            | _ :: _, [] => None
            | _, _ => Some (q1 ++ q2, OutAck true)
            end
        end
      else Some (q, OutAck false)
  end.

Fixpoint queue_spec_run (size : Z) (drop manual : bool) (q : list loopyMessageEntry) (ops : list queue_op)
    : option (list loopyMessageEntry * list queue_out) :=
  match ops with
  | [] => Some (q, [])
  | op :: ops =>
      '(q, o) ← queue_spec size drop manual q op;
      '(q, os) ← queue_spec_run size drop manual q ops;
      Some (q, o :: os)
  end.

Definition is_manual (sub : loopySubscription) : bool := bool_decide (ackMode sub = LOOPY_ACK_MANUAL).

Lemma pointed_head sub mem a m l x :
  queue_rep sub mem ((a, m) :: l) -> m_entry x = Some a -> pointed mem x = Some (contents m).
Proof. intros [(_ & e & He & <- & _) _ _ _] Hx. unfold pointed. rewrite Hx. cbn. by rewrite He. Qed.

Lemma spec_find_length seq q : forall q1 q2, spec_find seq q = Some (q1, q2) -> length q = S (length q1 + length q2).
Proof.
  induction q as [|m q IH]; intros q1 q2 E; [done|]. cbn [spec_find] in E. destruct (_ =? _)%Z; [by injection E as <- <-|].
  destruct (spec_find seq q) as [[l1 l2]|]; [|done]. injection E as <- <-. simpl. by rewrite (IH l1 l2).
Qed.

Lemma spec_find_spec seq l :
  spec_find seq l.*2 = (fun '(l1, _, l2) => (l1.*2, l2.*2)) <$> find_seq seq l.
Proof.
  induction l as [|[a m] l IH]; [done|]. cbn [spec_find fmap list_fmap find_seq snd].
  destruct (_ =? _)%Z; [done|]. rewrite IH. by destruct (find_seq seq l) as [[[l1 y] l2]|].
Qed.

(** The fields an operation does not change. *)
Definition same_queue_config (sub sub' : loopySubscription) : Prop :=
  deliveryMode sub' = deliveryMode sub /\ ackMode sub' = ackMode sub /\
  queueSize sub' = queueSize sub /\ dropOnFull sub' = dropOnFull sub.

Lemma queue_ack_sim sub mem l seq q' o :
  queue_rep sub mem l -> (Z.of_nat (length l) < w64)%Z ->
  queue_spec (queueSize sub) (dropOnFull sub) (is_manual sub) l.*2 (QAck seq) = Some (q', o) ->
  exists sub' mem' l', queue_do sub mem (QAck seq) = Some (sub', mem', o) /\ queue_rep sub' mem' l' /\
    l'.*2 = q' /\ length l' <= S (length l) /\ same_queue_config sub sub'.
Proof.
  intros R H64 E. unfold queue_spec, is_manual in E. unfold queue_do, loopySubscriptionAck.
  destruct (bool_decide (ackMode sub = LOOPY_ACK_MANUAL)).
  2: { injection E as <- <-. exists sub, mem, l. split_and!; try done. lia. }
  cbn [negb]. assert (Hsize : length l < S (size mem)) by (apply Nat.lt_succ_r; by eapply queue_rep_size).
  pose proof (ackWalk_spec (S (size mem)) sub mem None (queueHead sub) l seq (qr_seg _ _ _ R) Hsize) as W.
  rewrite spec_find_spec in E. destruct (find_seq seq l) as [[[l1 [a m]] l2]|] eqn:Ef; simpl in E.
  2: { rewrite W. injection E as <- <-. exists sub, mem, l. split_and!; try done. lia. }
  destruct W as (e & He & W). rewrite W. cbn [mbind option_bind].
  apply find_seq_split in Ef as ->.
  pose proof (unlinked_seg sub mem l1 a m l2 e (qr_seg _ _ _ R) (qr_nodup _ _ _ R) He) as U.
  destruct (unlinked sub mem _ a (next e)) as [sub' mem'].
  destruct U as (U1 & _ & U3 & U4 & U5 & U6 & U7 & U8).
  assert (Hspec : (l1 = [] \/ l2 <> []) /\ q' = l1.*2 ++ l2.*2 /\ o = OutAck true).
  { destruct l1 as [|x l1]; simpl in E; [injection E as <- <-; by split_and!; [left|..]|].
    destruct l2 as [|y l2]; simpl in E; [done|]. injection E as <- <-. by split_and!; [right|..]. }
  destruct Hspec as (Hcase & -> & ->).
  exists sub', mem', (l1 ++ l2). split; [done|]. split; [|split; [by rewrite fmap_app|]].
  - pose proof (qr_nodup _ _ _ R) as Hn. rewrite fmap_app in Hn. apply NoDup_app in Hn as (Hn1 & Hd & Hn2).
    simpl in Hn2. apply NoDup_cons in Hn2 as [Ha2 Hn2].
    constructor; [done| | |].
    + rewrite fmap_app. apply NoDup_app. split_and!; [done| |done]. intros b Hb Hb'. apply (Hd b Hb). by right.
    + rewrite U4, (qr_tail _ _ _ R), last_app. rewrite last_app. destruct l2 as [|y l2] using rev_ind.
      * destruct Hcase as [->|]; [|done]. simpl. by rewrite bool_decide_eq_true_2.
      * rewrite app_comm_cons, !last_snoc. cbn [fmap option_fmap option_map].
        rewrite bool_decide_eq_false_2; [done|]. intros [= Eq]. apply Ha2. rewrite <- Eq, fmap_app.
        apply elem_of_app. right. by left.
    + rewrite U3, (qr_len _ _ _ R). rewrite !length_app in *. simpl in *. rewrite u64_small; unfold in64; lia.
  - split; [rewrite !length_app; simpl; lia|]. done.
Qed.

Lemma queue_do_sim sub mem l op q' o :
  queue_rep sub mem l -> deliveryMode sub = LOOPY_DELIVER_QUEUE -> (Z.of_nat (S (length l)) < w64)%Z ->
  queue_spec (queueSize sub) (dropOnFull sub) (is_manual sub) l.*2 op = Some (q', o) ->
  exists sub' mem' l', queue_do sub mem op = Some (sub', mem', o) /\ queue_rep sub' mem' l' /\
    l'.*2 = q' /\ length l' <= S (length l) /\ same_queue_config sub sub'.
Proof.
  intros R Hd H64 E. destruct op as [e| |seq]; [| |by apply queue_ack_sim; try done; lia].
  - simpl in E. unfold queue_do, deliverQueue. rewrite (qr_len _ _ _ R). rewrite length_fmap in E.
    destruct (_ && dropOnFull sub).
    + injection E as <- <-. exists (sub <| sub_messagesDropped ::= fun n => n +64 1 |>), mem, l.
      split; [done|]. split; [by destruct R|]. split_and!; try done. lia.
    + injection E as <- <-. cbn [negb].
      destruct (enqueue_rep sub mem l e R H64) as (sub' & mem' & a & -> & R' & _ & _ & Es).
      cbn [mbind option_bind]. eexists _, mem', (l ++ [(a, payload e)]). split; [done|].
      split; [by destruct R'|]. split; [by rewrite fmap_app|]. split; [rewrite length_app; simpl; lia|].
      rewrite Es. done.
  - simpl in E. unfold queue_do, is_manual in *. destruct l as [|[a m] l]; simpl in E.
    + injection E as <- <-. rewrite receive_empty by done. exists sub, mem, []. split_and!; try done. simpl. lia.
    + injection E as <- <-. case_bool_decide as Hm.
      * rewrite (receive_peek _ _ _ _ _ R) by done. exists sub, mem, ((a, m) :: l).
        cbn [mbind option_bind fmap option_fmap option_map]. rewrite (pointed_head _ _ _ _ _ _ R) by done. split_and!; try done. lia.
      * destruct (receive_pop sub mem a m l R Hd Hm ltac:(simpl in H64; lia)) as (sub' & -> & R' & Es).
        exists sub', (delete a mem), l. split; [by unfold pointed; cbn; rewrite lookup_delete_eq|].
        split; [done|]. split; [done|]. split; [simpl; lia|].
        rewrite Es. done.
Qed.

Lemma queue_spec_bounded size manual ops : forall q q' outs,
  (0 < size)%Z -> (Z.of_nat (length q) <= size)%Z ->
  queue_spec_run size true manual q ops = Some (q', outs) -> (Z.of_nat (length q') <= size)%Z.
Proof.
  induction ops as [|op ops IH]; intros q q' outs Hs Hq E; simpl in E; [by injection E as <- _|].
  destruct (queue_spec size true manual q op) as [[q1 o]|] eqn:E1; [|done]. simpl in E.
  destruct (queue_spec_run size true manual q1 ops) as [[q2 os]|] eqn:E2; [|done]. injection E as <- _.
  eapply IH; [done| |done]. destruct op as [e| |seq]; simpl in E1.
  - rewrite (proj2 (Z.gtb_lt size 0)) in E1 by lia. rewrite andb_true_r in E1. cbn [andb] in E1.
    destruct (Z.geb_spec (Z.of_nat (length q)) size); injection E1 as <- _; [done|]. rewrite length_app. simpl. lia.
  - destruct q as [|m q]; [by injection E1 as <- _|]. destruct manual; injection E1 as <- _; simpl in *; lia.
  - destruct manual; [|by injection E1 as <- _]. destruct (spec_find seq q) as [[l1 l2]|] eqn:Ef; [|by injection E1 as <- _].
    apply spec_find_length in Ef. destruct l1, l2; simplify_eq/=; rewrite ?length_app; simpl in *; lia.
Qed.



(** What the specification leaves out: acknowledging the last of several
    messages makes [queueTail] [NULL] while messages remain; the next message to arrive
    is then stored in [queueHead] and the others, still counted, are no longer
    in the queue. *)
Theorem pubsub_ack_tail_loses sub mem l1 a m e :
  queue_rep sub mem (l1 ++ [(a, m)]) -> l1 <> [] -> (forall x, x ∈ l1 -> sequence x.2 <> sequence m) ->
  ackMode sub = LOOPY_ACK_MANUAL -> (Z.of_nat (S (length l1)) < w64)%Z ->
  exists sub1 mem1 sub2 mem2 b,
    loopySubscriptionAck sub mem (sequence m) = Some (sub1, mem1, true) /\
    seg mem1 (queueHead sub1) l1 None /\
    enqueue sub1 mem1 e = Some (sub2, mem2) /\
    seg mem2 (queueHead sub2) [(b, payload e)] None /\ queueLen sub2 = Z.of_nat (S (length l1)).
Proof.
  intros R Hne Hseq Hm H64.
  assert (Ef : find_seq (sequence m) (l1 ++ [(a, m)]) = Some (l1, (a, m), [])).
  { clear R Hne H64. induction l1 as [|x l1 IH]; cbn [app find_seq snd]; [by rewrite Z.eqb_refl|].
    rewrite (proj2 (Z.eqb_neq _ _)) by (apply Hseq; by left). rewrite IH; [done|]. intros y Hy. apply Hseq. by right. }
  pose proof (ackWalk_spec (S (size mem)) sub mem None (queueHead sub) _ (sequence m) (qr_seg _ _ _ R)
                (proj2 (Nat.lt_succ_r _ _) (queue_rep_size _ _ _ R))) as W.
  rewrite Ef in W. destruct W as (e' & He & W).
  pose proof (unlinked_seg sub mem l1 a m [] e' (qr_seg _ _ _ R) (qr_nodup _ _ _ R) He) as U.
  unfold loopySubscriptionAck. rewrite Hm, W. destruct (unlinked sub mem _ a (next e')) as [sub1 mem1].
  destruct U as (U1 & _ & U3 & U4 & _). rewrite app_nil_r in U1.
  rewrite (qr_tail _ _ _ R), last_snoc in U4. rewrite bool_decide_eq_true_2 in U4 by done.
  rewrite (qr_len _ _ _ R), length_app in U3. simpl in U3.
  eexists sub1, mem1, _, _, (fresh (dom mem1)). split; [done|]. split; [done|]. unfold enqueue. rewrite U4.
  split; [done|]. cbn. split; [split; [done|]|].
  - eexists. split; [apply lookup_insert_eq|]. done.
  - rewrite U3. rewrite !u64_small; unfold in64; try lia.
    rewrite u64_small; unfold in64; lia.
Qed.

Lemma pubsub_ack_tail_loses_witness :
  let m nx n := MessageEntry nx None None 0 5 n 0 in
  let sub := (subscription_defaults [] 7) <| ackMode := LOOPY_ACK_MANUAL |>
               <| queueHead := Some 0 |> <| queueTail := Some 1 |> <| queueLen := 2%Z |> in
  exists sub1 mem1 sub2 mem2 b,
    loopySubscriptionAck sub (<[1 := m None 2%Z]> {[0 := m (Some 1) 1%Z]}) 2 = Some (sub1, mem1, true) /\
    seg mem1 (queueHead sub1) [(0, m None 1%Z)] None /\
    enqueue sub1 mem1 (m None 3%Z) = Some (sub2, mem2) /\
    seg mem2 (queueHead sub2) [(b, m None 3%Z)] None /\ queueLen sub2 = 2%Z.
Proof.
  intros m sub.
  apply (pubsub_ack_tail_loses sub (<[1 := m None 2%Z]> {[0 := m (Some 1) 1%Z]}) [(0, m None 1%Z)] 1 (m None 2%Z) (m None 3%Z));
    try done.
  - constructor; try done.
    + split; [done|]. eexists. split; [reflexivity|]. split; [done|]. split; [done|]. eexists. split; [reflexivity|]. done.
    + apply NoDup_cons. split; [by intros ?%list_elem_of_singleton|apply NoDup_singleton].
  - intros x ->%list_elem_of_singleton. done.
Defined.

(** In the two other modes the message handed out points into an entry that is
    freed before the subscriber sees it. *)
Lemma receive_dangling sub mem a m l :
  queue_rep sub mem ((a, m) :: l) -> deliveryMode sub = LOOPY_DELIVER_QUEUE -> ackMode sub <> LOOPY_ACK_MANUAL ->
  (Z.of_nat (S (length l)) < w64)%Z ->
  exists sub' mem' msg, loopySubscriptionReceive sub mem true = Some (sub', mem', Some msg) /\
    m_entry msg = Some a /\ mem' !! a = None.
Proof.
  intros R Hd Hm H64. destruct (receive_pop sub mem a m l R Hd Hm H64) as (sub' & -> & _).
  eexists _, _, _. split; [done|]. split; [done|]. by rewrite lookup_delete_eq.
Qed.

(** With [dropOnFull] off nothing bounds the queue. *)
Lemma queue_without_drop sub mem l e :
  queue_rep sub mem l -> dropOnFull sub = false -> (Z.of_nat (S (length l)) < w64)%Z ->
  exists sub' mem', deliverQueue sub mem e true = Some (sub', mem', Delivered) /\ queueLen sub' = Z.of_nat (S (length l)).
Proof.
  intros R Hd H64. destruct (enqueue_rep sub mem l e R H64) as (sub' & mem' & a & E & R' & _).
  unfold deliverQueue. rewrite Hd, andb_false_r. cbn [negb]. rewrite E. eexists _, _. split; [done|].
  cbn. rewrite (qr_len _ _ _ R'), length_app. simpl. lia.
Qed.

(** ** The hub's invariant *)

Lemma fn_insert_id {A} (f : nat -> A) a b : (<[a := f a]> f) b = f b.
Proof. destruct (decide (a = b)) as [<-|]; [by rewrite fn_lookup_insert|by rewrite fn_lookup_insert_ne]. Qed.

Section HubInvariant.
Context {T : RaxTopic} `{!RaxTopicSpec T}.

(** [Q] gives the contents of every queue; [n] bounds all the counts. *)
Record hub_ok (n : nat) (ps : loopyPubSub) (Q : nat -> list (nat * loopyMessageEntry)) : Prop := {
  ho_bound p e : topic_map (ps_topics ps) !! p = Some e -> exists en, entries ps !! e = Some en /\ pe_pattern en = p;
  ho_entry e en : entries ps !! e = Some en ->
    topic_map (ps_topics ps) !! pe_pattern en = Some e /\ subscriptions en <> [] /\ NoDup (subscriptions en) /\
    pe_count en = Z.of_nat (length (subscriptions en));
  ho_member e en a : entries ps !! e = Some en -> a ∈ subscriptions en ->
    exists s, subs ps !! a = Some s /\ pattern s = pe_pattern en;
  ho_listed a s : subs ps !! a = Some s ->
    exists e en, topic_map (ps_topics ps) !! pattern s = Some e /\ entries ps !! e = Some en /\ a ∈ subscriptions en;
  ho_queue a s : subs ps !! a = Some s -> queue_rep s (msgs ps) (Q a) /\ length (Q a) <= n;
  ho_disjoint a b x : is_Some (subs ps !! a) -> is_Some (subs ps !! b) -> a <> b -> x ∈ (Q a).*1 -> x ∉ (Q b).*1;
  ho_subs : subscriptionCount ps = Z.of_nat (size (subs ps)) /\ size (subs ps) <= n;
  ho_patterns : patternCount ps = Z.of_nat (size (entries ps)) /\ size (entries ps) <= n
}.

Lemma hub_ok_weaken n ps Q : hub_ok n ps Q -> hub_ok (S n) ps Q.
Proof using Type.
  intros []. constructor; try done; [|intuition lia..]. intros a s Ha. destruct (ho_queue0 a s Ha). split; [done|lia].
Qed.

Lemma hub_ok_ext n ps Q Q' : hub_ok n ps Q -> (forall a, Q' a = Q a) -> hub_ok n ps Q'.
Proof using Type. intros [] E. constructor; try done; intros; rewrite ?E in *; eauto. Qed.

Lemma members_bound n ps Q e en : hub_ok n ps Q -> entries ps !! e = Some en -> length (subscriptions en) <= n.
Proof using Type.
  intros H He. destruct (ho_entry _ _ _ H e en He) as (_ & _ & Hn & _).
  assert (Hs : list_to_set (C := gset nat) (subscriptions en) ⊆ dom (subs ps)).
  { intros a Ha. apply elem_of_list_to_set in Ha. apply elem_of_dom.
    destruct (ho_member _ _ _ H e en a He Ha) as (s & ? & _). by eexists. }
  apply subseteq_size in Hs. rewrite size_list_to_set, size_dom in Hs by done.
  destruct (ho_subs _ _ _ H). lia.
Qed.

Lemma hub_link n ps Q e l p a sub ps' :
  hub_ok n ps Q -> (Z.of_nat (S n) < w64)%Z ->
  entries ps !! e = Some (PatternEntry p l (Z.of_nat (length l))) \/
    (l = [] /\ entries ps !! e = None /\ topic_map (ps_topics ps) !! p = None) ->
  pattern sub = p -> queueHead sub = None -> queueTail sub = None -> queueLen sub = 0%Z -> subs ps !! a = None ->
  entries ps' = <[e := PatternEntry p (a :: l) (Z.of_nat (S (length l)))]> (entries ps) ->
  topic_map (ps_topics ps') = <[p := e]> (topic_map (ps_topics ps)) ->
  subs ps' = <[a := sub]> (subs ps) -> msgs ps' = msgs ps ->
  subscriptionCount ps' = Z.of_nat (S (size (subs ps))) ->
  patternCount ps' = Z.of_nat (size (<[e := PatternEntry p (a :: l) (Z.of_nat (S (length l)))]> (entries ps))) ->
  hub_ok (S n) ps' (<[a := []]> Q).
Proof using Type.
  intros H Hn Hcase Hp Hh Ht Hl Ha Ee Et Es Em Ec Ep.
  assert (Hal : a ∉ l).
  { intros Hi. destruct Hcase as [He|(-> & _)]; [|by apply elem_of_nil in Hi].
    destruct (ho_member _ _ _ H e _ a He Hi) as (s & Hs & _). congruence. }
  assert (Hpe : forall q e', topic_map (ps_topics ps) !! q = Some e' -> q <> p -> e' <> e).
  { intros q e' Hq Hne ->. destruct (ho_bound _ _ _ H q e Hq) as (en & Hen & <-).
    destruct Hcase as [He|(_ & He & _)]; [|congruence]. apply Hne. rewrite He in Hen. by injection Hen as <-. }
  constructor.
  - intros q e'. rewrite Et, Ee. destruct (decide (q = p)) as [->|Hne].
    + rewrite lookup_insert_eq. intros [= <-]. rewrite lookup_insert_eq. by eexists.
    + rewrite lookup_insert_ne by done. intros Hq. rewrite lookup_insert_ne by (symmetry; by eapply Hpe).
      by apply (ho_bound _ _ _ H).
  - intros e' en. rewrite Et, Ee. destruct (decide (e' = e)) as [->|Hne].
    + rewrite lookup_insert_eq. intros [= <-]. simpl. rewrite lookup_insert_eq. split_and!; try done.
      apply NoDup_cons. split; [done|]. destruct Hcase as [He|(-> & _)]; [|constructor].
      by destruct (ho_entry _ _ _ H e _ He) as (_ & _ & ? & _).
    + rewrite lookup_insert_ne by done. intros He'. destruct (ho_entry _ _ _ H e' en He') as (Hb & ?).
      split; [|done]. rewrite lookup_insert_ne; [done|]. intros ->. rewrite Hb in Hcase.
      destruct Hcase as [He|(_ & _ & ?)]; [|done]. destruct (ho_entry _ _ _ H e _ He) as (Hb' & _). simpl in Hb'. congruence.
  - intros e' en b. rewrite Es, Ee. destruct (decide (e' = e)) as [->|Hne].
    + rewrite lookup_insert_eq. intros [= <-]. simpl. intros [->|Hb]%elem_of_cons.
      * exists sub. by rewrite lookup_insert_eq.
      * destruct Hcase as [He|(-> & _)]; [|by apply elem_of_nil in Hb].
        rewrite lookup_insert_ne by (intros ->; done). by apply (ho_member _ _ _ H e _ b He).
    + rewrite lookup_insert_ne by done. intros He' Hb.
      destruct (ho_member _ _ _ H e' en b He' Hb) as (s & Hs & ?). exists s.
      rewrite lookup_insert_ne; [done|]. intros ->. congruence.
  - intros b s. rewrite Es, Et, Ee. destruct (decide (b = a)) as [->|Hne].
    + rewrite lookup_insert_eq. intros [= <-]. rewrite Hp. exists e, (PatternEntry p (a :: l) (Z.of_nat (S (length l)))).
      rewrite !lookup_insert_eq. split_and!; try done. by left.
    + rewrite lookup_insert_ne by done. intros Hb. destruct (ho_listed _ _ _ H b s Hb) as (e' & en & H1 & H2 & H3).
      destruct (decide (pattern s = p)) as [Eq|Hne'].
      * exists e, (PatternEntry p (a :: l) (Z.of_nat (S (length l)))). rewrite Eq, !lookup_insert_eq.
        split_and!; try done. right. rewrite Eq in H1.
        destruct Hcase as [He|(_ & _ & ?)]; [|congruence].
        destruct (ho_entry _ _ _ H e _ He) as (Hb' & _). simpl in Hb'. rewrite Hb' in H1. injection H1 as <-.
        rewrite He in H2. by injection H2 as <-.
      * exists e', en. rewrite !lookup_insert_ne; try done. symmetry. by eapply Hpe.
  - intros b s. rewrite Es, Em. destruct (decide (b = a)) as [->|Hne].
    + rewrite lookup_insert_eq, fn_lookup_insert. intros [= <-]. split; [|simpl; lia].
      constructor; [done|constructor|by rewrite Ht|done].
    + rewrite lookup_insert_ne, fn_lookup_insert_ne by done. intros Hb. destruct (ho_queue _ _ _ H b s Hb). split; [done|lia].
  - intros b c x. rewrite Es. destruct (decide (b = a)) as [->|Hb]; [by rewrite fn_lookup_insert; intros _ _ _ []%elem_of_nil|].
    destruct (decide (c = a)) as [->|Hc]; [by rewrite fn_lookup_insert; intros _ _ _ _ []%elem_of_nil|].
    rewrite !lookup_insert_ne, !fn_lookup_insert_ne by done. apply (ho_disjoint _ _ _ H).
  - rewrite Ec, Es. rewrite map_size_insert_None by done. destruct (ho_subs _ _ _ H). split; [done|lia].
  - rewrite Ep, Ee. split; [done|]. destruct (ho_patterns _ _ _ H). rewrite map_size_insert.
    destruct (entries ps !! e); simpl; lia.
Qed.

Lemma link_entry p a l : (Z.of_nat (S (length l)) < w64)%Z ->
  (PatternEntry p l (Z.of_nat (length l))) <| subscriptions ::= cons a |> <| pe_count ::= fun n => n +64 1 |> =
  PatternEntry p (a :: l) (Z.of_nat (S (length l))).
Proof using Type.
  intros H. transitivity (PatternEntry p (a :: l) (Z.of_nat (length l) +64 1)); [done|].
  rewrite u64_small by (unfold in64; lia). f_equal. lia.
Qed.

Lemma subscribe_ok n ps Q p cb config m :
  hub_ok n ps Q -> (Z.of_nat (S n) < w64)%Z ->
  exists Q', hub_ok (S n) (loopySubscribe ps p cb config m).1 Q'.
Proof using All.
  intros H Hn. pose proof (hub_ok_weaken _ _ _ H) as HS. unfold loopySubscribe.
  destruct p as [p|]; [|by exists Q]. destruct cb as [cb|]; [|by exists Q].
  destruct (_ && _)%Z; [by exists Q|]. destruct (allocSub m); [|by exists Q]. destruct (allocPattern m); [|by exists Q].
  destruct (mutexInit m); [|by exists Q]. cbn [negb].
  destruct (ho_subs _ _ _ H) as [Hc Hc']. destruct (ho_patterns _ _ _ H) as [Hp Hp'].
  assert (Ha : subs ps !! fresh (dom (subs ps)) = None) by apply not_elem_of_dom, is_fresh.
  assert (Hnew : let s := newSubscription p cb config in
    pattern s = p /\ queueHead s = None /\ queueTail s = None /\ queueLen s = 0%Z) by (by destruct config).
  destruct Hnew as (N1 & N2 & N3 & N4). rewrite raxTopicGet_spec.
  destruct (topic_map (ps_topics ps) !! p) as [e|] eqn:Et.
  - destruct (ho_bound _ _ _ H p e Et) as (en & He & Hpe). destruct en as [p' l c]. simpl in Hpe. subst p'.
    destruct (ho_entry _ _ _ H e _ He) as (_ & _ & _ & Hc''). simpl in Hc''. subst c.
    pose proof (members_bound _ _ _ _ _ H He) as Hl. simpl in Hl.
    eexists. eapply (hub_link n ps Q e l p _ (newSubscription p cb config)); try done; [by left| | | |]; cbn.
    + rewrite (alter_alt_Some _ _ _ _ He), link_entry by lia. done.
    + by rewrite insert_id.
    + rewrite Hc, u64_small by (unfold in64; lia). lia.
    + rewrite Hp. f_equal. rewrite map_size_insert_Some; [done|by eexists].
  - destruct (allocPatternEntry m); [|by exists Q]. destruct (bindOk m); [|by exists Q]. cbn [negb].
    assert (He : entries ps !! fresh (dom (entries ps)) = None) by apply not_elem_of_dom, is_fresh.
    eexists. eapply (hub_link n ps Q (fresh (dom (entries ps))) [] p _ (newSubscription p cb config)); try done;
      [by right| | | |]; cbn.
    + by rewrite alter_insert_eq, link_entry by (simpl; lia).
    + by rewrite raxTopicBind_spec.
    + rewrite Hc, u64_small by (unfold in64; lia). lia.
    + rewrite Hp, u64_small by (unfold in64; lia). rewrite map_size_insert_None by done. lia.
Qed.

Lemma unlink_spec a l : a ∈ l -> NoDup l ->
  exists l', unlink a l = (l', true) /\ NoDup l' /\ length l = S (length l') /\ forall b, b ∈ l' <-> b ∈ l /\ b <> a.
Proof using Type.
  induction l as [|x l IH]; intros Ha Hn; [by apply elem_of_nil in Ha|]. apply NoDup_cons in Hn as [Hx Hn].
  cbn [unlink]. destruct (Nat.eqb_spec x a) as [->|Hne].
  - exists l. split_and!; try done. intros b. rewrite elem_of_cons. split; [|by intros [[->|?] ?]].
    intros Hb. split; [by right|]. by intros ->.
  - apply elem_of_cons in Ha as [->|Ha]; [done|]. destruct (IH Ha Hn) as (l' & -> & Hn' & Hl & Hb).
    exists (x :: l'). split_and!; [done| |simpl; lia|].
    + apply NoDup_cons. split; [|done]. by intros [? _]%Hb.
    + intros b. rewrite !elem_of_cons, Hb. split; [intros [->|[]]; auto|intros [[->|] ?]; auto].
Qed.

Lemma freeQueue_seg fuel mem cur l :
  seg mem cur l None -> NoDup l.*1 -> length l < fuel ->
  exists mem', freeQueue fuel mem cur = Some mem' /\ frame mem mem' l.*1.
Proof using Type.
  revert mem cur l. induction fuel as [|fuel IH]; intros mem cur l Hs Hn Hf; [lia|].
  destruct l as [|[a m] l]; simpl in Hs; [rewrite Hs; by exists mem|]. destruct Hs as (-> & e & He & _ & Hs).
  apply NoDup_cons in Hn as [Ha Hn]. cbn [freeQueue]. rewrite He. cbn [mbind option_bind].
  destruct (IH (delete a mem) (next e) l) as (mem' & -> & Hfr); [|done|simpl in Hf; lia|].
  { apply (seg_frame mem); [|done]. intros b Hb. rewrite lookup_delete_ne; [done|]. by intros <-. }
  exists mem'. split; [done|]. intros b Hb. rewrite Hfr, lookup_delete_ne; [done|..].
  - intros <-. apply Hb. by left.
  - intros Hi. apply Hb. by right.
Qed.

Lemma queue_rep_frame sub mem mem' l S :
  queue_rep sub mem l -> frame mem mem' S -> (forall x, x ∈ l.*1 -> x ∉ S) -> queue_rep sub mem' l.
Proof using Type.
  intros [] Hf Hd. constructor; try done. apply (seg_frame mem); [|done]. intros b Hb. by apply Hf, Hd.
Qed.

(** Removing a subscription: what is left of its pattern's entry is [l']. *)
Lemma hub_unlink n ps Q e en a s l' ps' :
  hub_ok n ps Q -> subs ps !! a = Some s -> topic_map (ps_topics ps) !! pattern s = Some e ->
  entries ps !! e = Some en -> a ∈ subscriptions en -> NoDup l' -> length (subscriptions en) = S (length l') ->
  (forall b, b ∈ l' <-> b ∈ subscriptions en /\ b <> a) ->
  (if l' then entries ps' = delete e (entries ps) /\ topic_map (ps_topics ps') = delete (pattern s) (topic_map (ps_topics ps))
   else entries ps' = <[e := PatternEntry (pattern s) l' (Z.of_nat (length l'))]> (entries ps) /\
        topic_map (ps_topics ps') = topic_map (ps_topics ps)) ->
  subs ps' = delete a (subs ps) -> frame (msgs ps) (msgs ps') (Q a).*1 ->
  subscriptionCount ps' = (Z.of_nat (size (subs ps)) - 1)%Z ->
  patternCount ps' = Z.of_nat (size (entries ps')) ->
  hub_ok n ps' Q.
Proof using Type.
  intros H Hs Ht He Ha Hn Hlen Hl' Hcase Es Em Ec Ep.
  destruct (ho_entry _ _ _ H e en He) as (Hb0 & _ & _ & _).
  assert (Hpe : pe_pattern en = pattern s).
  { destruct (ho_bound _ _ _ H _ _ Ht) as (en' & He' & <-). congruence. }
  assert (Hne : forall q e', topic_map (ps_topics ps) !! q = Some e' -> q <> pattern s -> e' <> e).
  { intros q e' Hq Hne ->. destruct (ho_bound _ _ _ H q e Hq) as (en' & He' & <-). congruence. }
  assert (Hne' : forall e' en', entries ps !! e' = Some en' -> e' <> e -> pe_pattern en' <> pattern s).
  { intros e' en' He' Hd Hq. destruct (ho_entry _ _ _ H e' en' He') as (Hb & _). congruence. }
  (* the bindings and entries other than the pattern's are those of before *)
  assert (Et : forall q, q <> pattern s -> topic_map (ps_topics ps') !! q = topic_map (ps_topics ps) !! q).
  { intros q Hq. destruct l'; destruct Hcase as [_ ->]; [by rewrite lookup_delete_ne|done]. }
  assert (Ee : forall e', e' <> e -> entries ps' !! e' = entries ps !! e').
  { intros e' Hd. destruct l'; destruct Hcase as [-> _]; [by rewrite lookup_delete_ne|by rewrite lookup_insert_ne]. }
  assert (E0 : match l' with
               | [] => topic_map (ps_topics ps') !! pattern s = None /\ entries ps' !! e = None
               | _ => topic_map (ps_topics ps') !! pattern s = Some e /\
                      entries ps' !! e = Some (PatternEntry (pattern s) l' (Z.of_nat (length l')))
               end).
  { destruct l'; destruct Hcase as [-> ->]; [by rewrite !lookup_delete_eq|by rewrite lookup_insert_eq]. }
  assert (Hent : forall e' en', entries ps' !! e' = Some en' ->
            (e' <> e /\ entries ps !! e' = Some en') \/
            (e' = e /\ l' <> [] /\ en' = PatternEntry (pattern s) l' (Z.of_nat (length l')))).
  { intros e' en' He'. destruct (decide (e' = e)) as [->|Hd]; [right|left; by rewrite <- Ee].
    destruct l'; destruct E0 as [_ E0]; rewrite E0 in He'; [done|]. by injection He' as <-. }
  clear Hcase. constructor.
  - intros q e' Hq. destruct (decide (q = pattern s)) as [->|Hd].
    + destruct l'; destruct E0 as [E0 E1]; rewrite E0 in Hq; [done|]. injection Hq as <-. by eexists.
    + rewrite Et in Hq by done. rewrite Ee by by eapply Hne. by apply (ho_bound _ _ _ H).
  - intros e' en' [(Hd & He')|(-> & Hl & ->)]%Hent.
    + rewrite Et by by eapply Hne'. by apply (ho_entry _ _ _ H).
    + simpl. split_and!; try done. destruct l'; [done|]. by destruct E0.
  - intros e' en' b He' Hb. rewrite Es. apply Hent in He' as [(Hd & He')|(-> & Hl & ->)].
    + destruct (ho_member _ _ _ H e' en' b He' Hb) as (sb & Hsb & Hp). exists sb. split; [|done].
      rewrite lookup_delete_ne; [done|]. intros <-. assert (sb = s) as -> by congruence. by destruct (Hne' e' en' He' Hd).
    + simpl in Hb. apply Hl' in Hb as [Hb Hd]. destruct (ho_member _ _ _ H e en b He Hb) as (sb & Hsb & Hp).
      exists sb. rewrite lookup_delete_ne by congruence. simpl. by rewrite <- Hpe.
  - intros b sb. rewrite Es. intros [Hd Hsb]%lookup_delete_Some.
    destruct (ho_listed _ _ _ H b sb Hsb) as (e' & en' & H1 & H2 & H3). destruct (decide (e' = e)) as [->|He'].
    + assert (en' = en) as -> by congruence. assert (Hb : b ∈ l') by by apply Hl'.
      destruct (ho_member _ _ _ H e en b H2 H3) as (sb' & Hsb' & Hp). assert (sb' = sb) as -> by congruence.
      rewrite Hp, Hpe. destruct l' as [|x l']; [by apply elem_of_nil in Hb|]. destruct E0. by eexists _, _.
    + exists e', en'. rewrite Et, Ee; [done..|]. intros Eq. rewrite Eq in H1. congruence.
  - intros b sb. rewrite Es. intros [Hd Hsb]%lookup_delete_Some. destruct (ho_queue _ _ _ H b sb Hsb) as [Hq ?].
    split; [|done]. apply (queue_rep_frame _ _ _ _ _ Hq Em). intros x Hx.
    apply (ho_disjoint _ _ _ H b a x); try done; by eexists.
  - intros b c x. rewrite Es. intros [sb [_ Hb]%lookup_delete_Some] [sc [_ Hc]%lookup_delete_Some].
    apply (ho_disjoint _ _ _ H); by eexists.
  - destruct (ho_subs _ _ _ H) as [_ Hc]. rewrite Ec, Es, map_size_delete_Some by by eexists.
    assert (0 < size (subs ps)); [|lia]. apply Nat.neq_0_lt_0. intros Hz%map_size_empty_inv. by rewrite Hz in Hs.
  - split; [done|]. destruct (ho_patterns _ _ _ H) as [_ Hc]. 
    assert (Hsub : dom (entries ps') ⊆ dom (entries ps)).
    { intros x Hx. apply elem_of_dom in Hx as [en' [(_ & Hx)|(-> & _)]%Hent]; apply elem_of_dom; by eexists. }
    apply subseteq_size in Hsub. rewrite !size_dom in Hsub. lia.
Qed.

#[local] Arguments freeQueue : simpl never.

Lemma unsubscribe_ok n ps Q a :
  hub_ok n ps Q -> is_Some (subs ps !! a) -> (Z.of_nat (S n) < w64)%Z ->
  exists ps' calls, loopyUnsubscribe ps (Some a) = Some (ps', true, calls) /\ hub_ok n ps' Q /\
    subs ps' = delete a (subs ps).
Proof using All.
  intros H [s Hs] Hn. destruct (ho_listed _ _ _ H a s Hs) as (e & en & Ht & He & Ha).
  destruct (ho_entry _ _ _ H e en He) as (_ & _ & Hnd & Hc).
  destruct (unlink_spec a _ Ha Hnd) as (l' & Eu & Hnd' & Hlen & Hl').
  destruct (ho_queue _ _ _ H a s Hs) as [Hq Hqn].
  destruct (freeQueue_seg (S (size (msgs ps))) (msgs ps) (queueHead s) (Q a)) as (mem' & Ef & Hfr);
    [by destruct Hq..|pose proof (queue_rep_size _ _ _ Hq); lia|].
  destruct (ho_subs _ _ _ H) as [Hsc Hsn]. destruct (ho_patterns _ _ _ H) as [Hpc Hpn].
  pose proof (members_bound _ _ _ _ _ H He) as Hb.
  assert (Hpos : forall {A} (m : gmap nat A) k x, m !! k = Some x -> 0 < size m).
  { intros A m k x Hk. apply Nat.neq_0_lt_0. intros Hz%map_size_empty_inv. by rewrite Hz in Hk. }
  assert (Hc' : pe_count en -64 1 = Z.of_nat (length l')).
  { rewrite Hc, Hlen, u64_small by (unfold in64; lia). lia. }
  pose proof (Hpos _ _ _ _ Hs). pose proof (Hpos _ _ _ _ He).
  unfold loopyUnsubscribe. rewrite Hs. cbn [mbind option_bind]. rewrite raxTopicGet_spec, Ht, He.
  cbn [mbind option_bind]. rewrite Eu. cbn [pe_count]. cbn. rewrite Hc'.
  assert (Hpe : pe_pattern en = pattern s).
  { destruct (ho_bound _ _ _ H _ _ Ht) as (en' & He' & <-). congruence. }
  assert (Ez : (Z.of_nat (length l') =? 0)%Z = match l' with [] => true | _ => false end) by by destruct l'.
  rewrite Ez. destruct l' as [|x l']; cbn; rewrite Ef; cbn;
    (eexists _, _; split; [done|]; split; [|done]; eapply hub_unlink; try done; cbn).
  - rewrite raxTopicUnbind_spec, delete_insert_eq. done.
  - rewrite u64_small; unfold in64; lia.
  - rewrite delete_insert_eq, map_size_delete_Some by by eexists. rewrite u64_small; unfold in64; lia.
  - split; [|done]. f_equal.
    transitivity (PatternEntry (pe_pattern en) (x :: l') (pe_count en -64 1)); [done|]. by rewrite Hpe, Hc'.
  - rewrite u64_small; unfold in64; lia.
  - rewrite map_size_insert_Some; [done|by eexists].
Qed.

(** What changing one subscription's queue leaves alone. *)
Definition same_hub (ps ps' : loopyPubSub) : Prop :=
  entries ps' = entries ps /\ ps_topics ps' = ps_topics ps /\ ps_config ps' = ps_config ps /\
  subscriptionCount ps' = subscriptionCount ps /\ patternCount ps' = patternCount ps /\
  ps_sequence ps' = ps_sequence ps.

Lemma hub_update n ps Q a s s' l' S ps' :
  hub_ok n ps Q -> subs ps !! a = Some s -> pattern s' = pattern s ->
  queue_rep s' (msgs ps') l' -> length l' <= n -> frame (msgs ps) (msgs ps') S ->
  (forall x, x ∈ l'.*1 -> x ∈ S) -> (forall x, x ∈ S -> x ∈ (Q a).*1 \/ msgs ps !! x = None) ->
  subs ps' = <[a := s']> (subs ps) -> same_hub ps ps' ->
  hub_ok n ps' (<[a := l']> Q).
Proof using Type.
  intros H Hs Hp Hq Hn Hf Hl HS Es (Ee & Et & _ & Ec & Ep & _).
  assert (HS' : forall b x, is_Some (subs ps !! b) -> b <> a -> x ∈ (Q b).*1 -> x ∉ S).
  { intros b x [sb Hb] Hne Hx [HxS|HxS]%HS; [by apply (ho_disjoint _ _ _ H b a x)|].
    destruct (ho_queue _ _ _ H b sb Hb) as [Hqb _]. destruct (queue_rep_addr _ _ _ _ Hqb Hx). congruence. }
  assert (Hdom : forall b, is_Some (<[a := s']> (subs ps) !! b) -> is_Some (subs ps !! b)).
  { intros b. rewrite lookup_insert_is_Some. intros [<-|[_ ?]]; [by eexists|done]. }
  constructor; rewrite ?Ee, ?Et, ?Es.
  - apply (ho_bound _ _ _ H).
  - apply (ho_entry _ _ _ H).
  - intros e en b He Hb. destruct (ho_member _ _ _ H e en b He Hb) as (sb & Hsb & Hpb).
    destruct (decide (b = a)) as [->|Hne]; [|exists sb; by rewrite lookup_insert_ne].
    exists s'. rewrite lookup_insert_eq. split; [done|]. congruence.
  - intros b sb. destruct (decide (b = a)) as [->|Hne].
    + rewrite lookup_insert_eq. intros [= <-]. rewrite Hp. by apply (ho_listed _ _ _ H).
    + rewrite lookup_insert_ne by done. apply (ho_listed _ _ _ H).
  - intros b sb. destruct (decide (b = a)) as [->|Hne].
    + rewrite lookup_insert_eq, fn_lookup_insert. by intros [= <-].
    + rewrite lookup_insert_ne, fn_lookup_insert_ne by done. intros Hb.
      destruct (ho_queue _ _ _ H b sb Hb) as [Hqb ?]. split; [|done].
      apply (queue_rep_frame _ _ _ _ _ Hqb Hf). intros x. apply HS'; [by eexists|done].
  - intros b c x Hb%Hdom Hc%Hdom Hne. destruct (decide (b = a)) as [->|Hba].
    + rewrite fn_lookup_insert, fn_lookup_insert_ne by done. intros Hx%Hl Hx'. by apply (HS' c x).
    + rewrite fn_lookup_insert_ne by done. destruct (decide (c = a)) as [->|Hca].
      * rewrite fn_lookup_insert. intros Hx Hx'%Hl. by apply (HS' b x).
      * rewrite fn_lookup_insert_ne by done. by apply (ho_disjoint _ _ _ H).
  - rewrite Ec, map_size_insert_Some by by eexists. apply (ho_subs _ _ _ H).
  - rewrite Ep. apply (ho_patterns _ _ _ H).
Qed.

(** *** Publication *)

(** The subscriptions of the patterns that match a topic. *)
Definition subscribers (ps : loopyPubSub) (t : cstr) : list nat :=
  raxTopicMatch (ps_topics ps) t ≫= fun x => default [] (subscriptions <$> entries ps !! x.2).

(** Whether a subscription takes the message, and what its queue then gets. *)
Definition accepts (s : loopySubscription) (m : msgAllocs) : bool :=
  match deliveryMode s with
  | LOOPY_DELIVER_SYNC => true
  | LOOPY_DELIVER_ASYNC => false
  | LOOPY_DELIVER_QUEUE =>
      negb (((queueSize s >? 0)%Z && (queueLen s >=? queueSize s)%Z) && dropOnFull s) && allocEntry m
  end.

Definition enqueued (s : loopySubscription) (ctx : publishContext) (m : msgAllocs) : list loopyMessageEntry :=
  if bool_decide (deliveryMode s = LOOPY_DELIVER_QUEUE) && accepts s m then [entry_of ctx m] else [].

(** The callback a synchronous subscription gets. *)
Definition called (s : loopySubscription) (ctx : publishContext) (a : nat) : list pubsub_call :=
  if bool_decide (deliveryMode s = LOOPY_DELIVER_SYNC) then
    [CallMessage a (Message None (Z.of_nat (length (c_data ctx))) (c_timestamp ctx) (c_sequence ctx) (c_publisherData ctx))]
  else [].

Definition is_message (c : pubsub_call) : bool := match c with CallMessage _ _ => true | CallEvent _ _ => false end.

Lemma publishToSub_ok n ps Q ctx alloc a s :
  hub_ok n ps Q -> subs ps !! a = Some s -> S (length (Q a)) <= n -> (Z.of_nat (S n) < w64)%Z ->
  exists ps' l' x calls,
    publishToSub ps ctx alloc a = Some (ps', if accepts s (alloc a) then 1 else 0, x, calls) /\
    hub_ok n ps' (<[a := l']> Q) /\ same_hub ps ps' /\ l'.*2 = (Q a).*2 ++ enqueued s ctx (alloc a) /\
    filter (fun c => is_message c) calls = called s ctx a /\
    is_Some (subs ps' !! a) /\ (forall b, b <> a -> subs ps' !! b = subs ps !! b).
Proof using Type.
  intros H Hs Hl Hn. destruct (ho_queue _ _ _ H a s Hs) as [Hq _].
  unfold publishToSub, enqueued, called, accepts. rewrite Hs. cbn [mbind option_bind].
  destruct (deliveryMode s) eqn:Em; cbn [bool_decide decide andb].
  - eexists _, (Q a), 0, _. split; [done|]. split; [|split; [done|split; [by rewrite app_nil_r|split; [done|]]]].
    + eapply (hub_update n ps Q a s (s <| messagesReceived ::= fun n => n +64 1 |>) (Q a) (Q a).*1); try done; cbn.
      * by destruct Hq.
      * lia.
      * auto.
      * by rewrite (alter_alt_Some _ _ _ _ Hs).
    + cbn. split; [rewrite lookup_alter_eq, Hs; by eexists|]. intros b Hb. by rewrite lookup_alter_ne.
  - exists ps, (Q a), 0, []. split; [done|]. rewrite app_nil_r.
    split; [apply (hub_ok_ext _ _ Q); [done|intros b; apply fn_insert_id]|split_and!; try done; by eexists].
  - unfold deliverQueue. destruct (_ && dropOnFull s).
    + cbn [mbind option_bind negb andb]. eexists _, (Q a), 1, _. split; [done|].
      split; [|split; [done|split; [by rewrite app_nil_r|split; [by destruct (eventCallback s)|]]]].
      * eapply (hub_update n ps Q a s (s <| sub_messagesDropped ::= fun n => n +64 1 |>) (Q a) (Q a).*1); try done; cbn;
          [by destruct Hq|lia|auto].
      * cbn. split; [rewrite lookup_insert_eq; by eexists|]. intros b Hb. by rewrite lookup_insert_ne.
    + cbn [negb andb]. destruct (allocEntry (alloc a)); cbn [mbind option_bind negb].
      * destruct (enqueue_rep s (msgs ps) (Q a) (entry_of ctx (alloc a)) Hq ltac:(lia))
          as (s' & mem' & x & -> & Hq' & Hx & Hf & Es).
        cbn [mbind option_bind]. eexists _, (Q a ++ [(x, payload (entry_of ctx (alloc a)))]), 0, _. split; [done|].
        split; [|split; [done|split; [by rewrite fmap_app|split; [done|]]]].
        -- eapply (hub_update n ps Q a s (s' <| messagesReceived ::= fun n => n +64 1 |>) _ (x :: (Q a).*1)); try done; cbn.
           ++ by rewrite Es.
           ++ by destruct Hq'.
           ++ rewrite length_app. simpl. lia.
           ++ intros y. rewrite fmap_app, elem_of_app, elem_of_cons. intros [?| ->%list_elem_of_singleton]; auto.
           ++ intros y [->|?]%elem_of_cons; auto.
        -- cbn. split; [rewrite lookup_insert_eq; by eexists|]. intros b Hb. by rewrite lookup_insert_ne.
      * eexists _, (Q a), 0, _. split; [done|].
        split; [|split; [done|split; [by rewrite app_nil_r|split; [done|]]]].
        -- eapply (hub_update n ps Q a s s (Q a) (Q a).*1); try done; cbn; [lia|auto].
        -- cbn. split; [rewrite lookup_insert_eq; by eexists|]. intros b Hb. by rewrite lookup_insert_ne.
Qed.

Definition deliveries (ps : loopyPubSub) (alloc : nat -> msgAllocs) (l : list nat) : nat :=
  sum_list_with (fun a => match subs ps !! a with Some s => if accepts s (alloc a) then 1 else 0 | None => 0 end) l.

Definition callbacks (ps : loopyPubSub) (ctx : publishContext) (l : list nat) : list pubsub_call :=
  l ≫= fun a => match subs ps !! a with Some s => called s ctx a | None => [] end.

Lemma callbacks_ext ps ps' ctx l :
  (forall b, b ∈ l -> subs ps' !! b = subs ps !! b) -> callbacks ps' ctx l = callbacks ps ctx l.
Proof using Type.
  unfold callbacks. induction l as [|a l IH]; intros E; [done|]. rewrite !bind_cons, E by by left.
  f_equal. apply IH. intros b Hb. apply E. by right.
Qed.

Lemma deliveries_ext ps ps' alloc l :
  (forall b, b ∈ l -> subs ps' !! b = subs ps !! b) -> deliveries ps' alloc l = deliveries ps alloc l.
Proof using Type.
  unfold deliveries. induction l as [|a l IH]; intros E; [done|]. simpl. rewrite E by by left.
  f_equal. apply IH. intros b Hb. apply E. by right.
Qed.

Lemma same_hub_trans ps1 ps2 ps3 : same_hub ps1 ps2 -> same_hub ps2 ps3 -> same_hub ps1 ps3.
Proof using Type. unfold same_hub. intuition congruence. Qed.

Lemma publishToSubs_ok n ctx alloc l ps Q :
  hub_ok n ps Q -> NoDup l -> (forall a, a ∈ l -> is_Some (subs ps !! a) /\ S (length (Q a)) <= n) ->
  (Z.of_nat (S n) < w64)%Z ->
  exists ps' Q' x calls,
    publishToSubs ps ctx alloc l = Some (ps', deliveries ps alloc l, x, calls) /\
    hub_ok n ps' Q' /\ same_hub ps ps' /\
    (forall b, is_Some (subs ps' !! b) <-> is_Some (subs ps !! b)) /\
    (forall b, b ∉ l -> Q' b = Q b) /\
    (forall a s, a ∈ l -> subs ps !! a = Some s -> (Q' a).*2 = (Q a).*2 ++ enqueued s ctx (alloc a)) /\
    filter (fun c => is_message c) calls = callbacks ps ctx l.
Proof using Type.
  revert ps Q. induction l as [|a l IH]; intros ps Q H Hnd Hl Hn.
  { exists ps, Q, 0, []. split; [done|]. split; [done|]. split; [done|]. split_and!; try done.
    by intros a s []%elem_of_nil. }
  apply NoDup_cons in Hnd as [Ha Hnd]. destruct (Hl a) as [[s Hs] Hla]; [by left|].
  destruct (publishToSub_ok n ps Q ctx alloc a s H Hs Hla Hn) as (ps1 & l1 & x1 & c1 & E1 & H1 & Hsame & Hq1 & Hc1 & Hs1 & Hfr).
  assert (Hfr' : forall b, b ∈ l -> subs ps1 !! b = subs ps !! b) by (intros b Hb; apply Hfr; by intros ->).
  destruct (IH ps1 (<[a := l1]> Q)) as (ps2 & Q2 & x2 & c2 & E2 & H2 & Hsame2 & Hd2 & Hfr2 & Hq2 & Hc2); try done.
  { intros b Hb. rewrite Hfr' by done. rewrite fn_lookup_insert_ne by (intros ->; done). apply Hl. by right. }
  cbn [publishToSubs]. rewrite E1. cbn [mbind option_bind]. rewrite E2. cbn [mbind option_bind].
  eexists ps2, Q2, _, _. split; [|split; [done|split; [by eapply same_hub_trans|split_and!]]].
  - rewrite (deliveries_ext ps) by done. unfold deliveries. simpl. by rewrite Hs.
  - intros b. rewrite Hd2. destruct (decide (b = a)) as [->|Hne]; [by rewrite Hs; split; [by eexists|]|by rewrite Hfr].
  - intros b [Hba Hb]%not_elem_of_cons. by rewrite Hfr2, fn_lookup_insert_ne.
  - intros b sb [->|Hb]%elem_of_cons Hsb.
    + rewrite Hfr2, fn_lookup_insert by done. assert (sb = s) as -> by congruence. done.
    + rewrite (Hq2 b sb), fn_lookup_insert_ne; try done; [by intros ->|by rewrite Hfr'].
  - rewrite filter_app, Hc1, Hc2, (callbacks_ext ps) by done. unfold callbacks. rewrite bind_cons. by rewrite Hs.
Qed.

Lemma publishToSub_entries ps ctx alloc a ps' d x c :
  publishToSub ps ctx alloc a = Some (ps', d, x, c) -> entries ps' = entries ps.
Proof using Type.
  unfold publishToSub. destruct (subs ps !! a) as [s|]; [|done]. cbn [mbind option_bind].
  destruct (deliveryMode s); [by intros [= <- _ _ _]..|].
  destruct (deliverQueue _ _ _ _) as [[[s' mem] []]|]; [..|done]; by intros [= <- _ _ _].
Qed.

Lemma publishToSubs_app ps ctx alloc l1 l2 :
  publishToSubs ps ctx alloc (l1 ++ l2) =
  '(ps, d1, x1, c1) ← publishToSubs ps ctx alloc l1;
  '(ps, d2, x2, c2) ← publishToSubs ps ctx alloc l2;
  Some (ps, d1 + d2, x1 + x2, c1 ++ c2).
Proof using Type.
  revert ps. induction l1 as [|a l1 IH]; intros ps; cbn [app publishToSubs].
  { cbn [mbind option_bind]. by destruct (publishToSubs ps ctx alloc l2) as [[[[]]]|]. }
  destruct (publishToSub ps ctx alloc a) as [[[[ps1 d] x] c]|]; [|done]. cbn [mbind option_bind]. rewrite IH.
  destruct (publishToSubs ps1 ctx alloc l1) as [[[[ps2 d1] x1] c1]|]; [|done]. cbn [mbind option_bind].
  destruct (publishToSubs ps2 ctx alloc l2) as [[[[ps3 d2] x2] c2]|]; [|done]. cbn [mbind option_bind].
  by rewrite !Nat.add_assoc, app_assoc.
Qed.

Lemma publishToSubs_entries ps ctx alloc l ps' d x c :
  publishToSubs ps ctx alloc l = Some (ps', d, x, c) -> entries ps' = entries ps.
Proof using Type.
  revert ps d x c. induction l as [|a l IH]; intros ps d x c; cbn [publishToSubs]; [by intros [= <- _ _ _]|].
  destruct (publishToSub ps ctx alloc a) as [[[[ps1 d1] x1] c1]|] eqn:E; [|done]. cbn [mbind option_bind].
  destruct (publishToSubs ps1 ctx alloc l) as [[[[ps2 d2] x2] c2]|] eqn:E2; [|done]. intros [= <- _ _ _].
  rewrite (IH _ _ _ _ E2). by eapply publishToSub_entries.
Qed.

(** Going through the patterns is going through their subscriptions. *)
Lemma publishToPatterns_flat ps ctx alloc l en :
  (forall x, x ∈ l -> is_Some (en !! x.2)) -> entries ps = en ->
  publishToPatterns ps ctx alloc l =
  publishToSubs ps ctx alloc (l ≫= fun x => default [] (subscriptions <$> en !! x.2)).
Proof using Type.
  revert ps. induction l as [|[p e] l IH]; intros ps Hl He; [done|]. cbn [publishToPatterns].
  destruct (Hl (p, e)) as [entry Hen]; [by left|]. simpl in Hen. rewrite bind_cons. cbn [snd].
  rewrite publishToSubs_app, He, Hen. cbn [mbind option_bind fmap option_fmap option_map default from_option id].
  destruct (publishToSubs ps ctx alloc (subscriptions entry)) as [[[[ps1 d1] x1] c1]|] eqn:E1; [|done].
  cbn [mbind option_bind]. rewrite IH; [done| |].
  - intros x Hx. apply Hl. by right.
  - by rewrite (publishToSubs_entries _ _ _ _ _ _ _ _ E1).
Qed.

Lemma matched_bound n ps Q t x : hub_ok n ps Q -> x ∈ raxTopicMatch (ps_topics ps) t ->
  exists en, entries ps !! x.2 = Some en /\ pe_pattern en = x.1.
Proof using All.
  intros H Hx. destruct x as [p e]. apply (ho_bound _ _ _ H). by eapply raxTopicMatch_bound.
Qed.

Lemma elem_of_subscribers n ps Q t a : hub_ok n ps Q -> a ∈ subscribers ps t ->
  exists s, subs ps !! a = Some s.
Proof using All.
  intros H Ha. unfold subscribers in Ha. apply list_elem_of_bind in Ha as (x & Ha & Hx).
  destruct (matched_bound _ _ _ _ _ H Hx) as (en & He & _).
  rewrite He in Ha. destruct (ho_member _ _ _ H _ en a He Ha) as (s & Hs & _). by eexists.
Qed.

Lemma subscribers_nodup n ps Q t : hub_ok n ps Q -> NoDup (subscribers ps t).
Proof using All.
  intros H. unfold subscribers. pose proof (raxTopicMatch_nodup (ps_topics ps) t) as Hnd.
  pose proof (fun x => matched_bound n ps Q t x H) as Hb. revert Hnd Hb.
  generalize (raxTopicMatch (ps_topics ps) t) as l.
  induction l as [|x l IH]; intros Hnd Hb; [constructor|]. apply NoDup_cons in Hnd as [Hx Hnd].
  rewrite bind_cons. destruct (Hb x) as (en & He & Hp); [by left|]. rewrite He.
  destruct (ho_entry _ _ _ H _ _ He) as (Ht & _ & Hn & _). apply NoDup_app. split_and!; [done| |].
  2: { apply IH; [done|]. intros y Hy. apply Hb. by right. }
  intros a Ha Ha'. apply list_elem_of_bind in Ha' as (y & Ha' & Hy).
  destruct (Hb y) as (en' & He' & Hp'); [by right|].
  rewrite He' in Ha'. cbn in Ha, Ha'.
  destruct (ho_member _ _ _ H _ _ a He Ha) as (s & Hs & Hps).
  destruct (ho_member _ _ _ H _ _ a He' Ha') as (s' & Hs' & Hps').
  destruct (ho_entry _ _ _ H _ _ He') as (Ht' & _).
  assert (x = y); [|by subst]. destruct x as [p e], y as [p' e']. simpl in *. congruence.
Qed.

Lemma publishEx_ok n ps Q t data pd now alloc :
  hub_ok n ps Q -> (Z.of_nat (S (S n)) < w64)%Z ->
  let ctx := PublishContext t data now (ps_sequence ps +64 1) pd in
  exists ps' Q' calls,
    loopyPublishEx ps (Some t) data pd now alloc = Some (ps', deliveries ps alloc (subscribers ps t), calls) /\
    hub_ok (S n) ps' Q' /\ ps_sequence ps' = ps_sequence ps +64 1 /\
    filter (fun c => is_message c) calls = callbacks ps ctx (subscribers ps t) /\
    (forall b, is_Some (subs ps' !! b) <-> is_Some (subs ps !! b)) /\
    forall a s, subs ps !! a = Some s ->
      (Q' a).*2 = (Q a).*2 ++ (if bool_decide (a ∈ subscribers ps t) then enqueued s ctx (alloc a) else []).
Proof using All.
  intros H Hn ctx. unfold loopyPublishEx. cbn.
  set (ps1 := ps <| ps_sequence ::= fun n => n +64 1 |>).
  assert (H1 : hub_ok (S n) ps1 Q) by (apply hub_ok_weaken; by destruct H).
  rewrite (publishToPatterns_flat ps1 ctx alloc _ (entries ps)); [|intros x Hx|done].
  2: { destruct (matched_bound _ _ _ _ _ H Hx) as (en & -> & _). by eexists. }
  change (publishToSubs ps1 ctx alloc _) with (publishToSubs ps1 ctx alloc (subscribers ps t)).
  destruct (publishToSubs_ok (S n) ctx alloc (subscribers ps t) ps1 Q)
    as (ps2 & Q2 & x & calls & -> & H2 & Hsame & Hd & Hfr & Hq & Hc); [done|by eapply subscribers_nodup| |lia|].
  { intros a Ha. destruct (elem_of_subscribers _ _ _ _ _ H Ha) as [s Hs]. split; [by eexists|].
    destruct (ho_queue _ _ _ H a s Hs). lia. }
  cbn [mbind option_bind].
  assert (Hseq : ps_sequence ps2 = ps_sequence ps +64 1) by by destruct Hsame as (_ & _ & _ & _ & _ & ->).
  eexists _, Q2, calls. split; [done|]. split; [by destruct (enableStats _); destruct H2|].
  split; [by destruct (enableStats _)|]. split; [done|]. split; [by destruct (enableStats _)|].
  intros a s Hs. case_bool_decide as Ha; [by apply Hq|]. by rewrite Hfr, app_nil_r.
Qed.

(** Publishing delivers once to every subscription of every matching
    pattern: in a consistent hub no undefined access happens; exactly the
    synchronous subscribers are called, in order; every queueing one that
    accepts the message gets it at the end of its queue; the result counts the
    acceptances; nobody else's queue changes; and the hub stays consistent. *)
Theorem pubsub_publish_delivers n ps Q t data pd now alloc :
  hub_ok n ps Q -> (Z.of_nat (S (S n)) < w64)%Z ->
  let ctx := PublishContext t data now (ps_sequence ps +64 1) pd in
  exists ps' Q' calls,
    loopyPublishEx ps (Some t) data pd now alloc = Some (ps', deliveries ps alloc (subscribers ps t), calls) /\
    hub_ok (S n) ps' Q' /\ ps_sequence ps' = ps_sequence ps +64 1 /\
    filter (fun c => is_message c) calls = callbacks ps ctx (subscribers ps t) /\
    (forall b, is_Some (subs ps' !! b) <-> is_Some (subs ps !! b)) /\
    forall a s, subs ps !! a = Some s ->
      (Q' a).*2 = (Q a).*2 ++ (if bool_decide (a ∈ subscribers ps t) then enqueued s ctx (alloc a) else []).
Proof using All. apply publishEx_ok. Qed.

(** *** Any use of a hub *)

Inductive hub_op :=
| HSubscribe (p : option cstr) (cb : option nat) (config : option loopySubscriptionConfig) (m : subAllocs)
| HUnsubscribe (a : nat)
| HPublish (t : option cstr) (data : bytes) (pd : nat) (now : Z) (alloc : nat -> msgAllocs)
| HReceive (a : nat).

(** A program uses only the subscriptions it holds: the others are skipped. *)
Definition hub_do (ps : loopyPubSub) (op : hub_op) : option loopyPubSub :=
  match op with
  | HSubscribe p cb config m => Some (loopySubscribe ps p cb config m).1
  | HUnsubscribe a =>
      if bool_decide (is_Some (subs ps !! a)) then '(ps, _, _) ← loopyUnsubscribe ps (Some a); Some ps else Some ps
  | HPublish t data pd now alloc => '(ps, _, _) ← loopyPublishEx ps t data pd now alloc; Some ps
  | HReceive a =>
      match subs ps !! a with
      | None => Some ps
      | Some s =>
          '(s, mem, _) ← loopySubscriptionReceive s (msgs ps) true;
          Some (ps <| subs ::= <[a := s]> |> <| msgs := mem |>)
      end
  end.

Fixpoint hub_run (ps : loopyPubSub) (ops : list hub_op) : option loopyPubSub :=
  match ops with [] => Some ps | op :: ops => ps ← hub_do ps op; hub_run ps ops end.

Lemma receive_ok n ps Q a s :
  hub_ok n ps Q -> subs ps !! a = Some s -> (Z.of_nat (S n) < w64)%Z ->
  exists s' mem' msg Q', loopySubscriptionReceive s (msgs ps) true = Some (s', mem', msg) /\
    hub_ok n (ps <| subs ::= <[a := s']> |> <| msgs := mem' |>) Q'.
Proof using Type.
  intros H Hs Hn. destruct (ho_queue _ _ _ H a s Hs) as [Hq Hl].
  assert (Hsame : loopySubscriptionReceive s (msgs ps) true = Some (s, msgs ps, None) \/
    (deliveryMode s = LOOPY_DELIVER_QUEUE /\ Q a <> [])).
  { unfold loopySubscriptionReceive. cbn [negb orb]. case_bool_decide as Hd; [|by left]. cbn [negb].
    destruct (Q a) as [|x l] eqn:Ea; [left|by right]. destruct Hq as [Hseg _ _ _]. simpl in Hseg. by rewrite Hseg. }
  assert (Hid : hub_ok n (ps <| subs ::= <[a := s]> |> <| msgs := msgs ps |>) Q).
  { assert (Es : <[a := s]> (subs ps) = subs ps) by by apply insert_id.
    destruct H. constructor; cbn; rewrite ?Es; done. }
  destruct Hsame as [->|[Hd Hne]]; [by eexists _, _, _, _|].
  destruct (Q a) as [|[b m] l] eqn:Ea; [done|]. destruct (decide (ackMode s = LOOPY_ACK_MANUAL)) as [Hm|Hm].
  - rewrite (receive_peek _ _ _ _ _ Hq Hd Hm). by eexists _, _, _, _.
  - destruct (receive_pop s (msgs ps) b m l Hq Hd Hm ltac:(simpl in Hl; lia)) as (s' & -> & Hq' & Es).
    eexists s', _, _, _. split; [done|].
    eapply (hub_update n ps Q a s s' l (b :: l.*1)); try done; cbn.
    + by rewrite Es.
    + simpl in Hl. lia.
    + intros c Hc. rewrite lookup_delete_ne; [done|]. intros ->. apply Hc. by left.
    + intros x Hx. by right.
    + intros x. rewrite Ea. by left.
Qed.

Lemma hub_created_ok config ps : loopyPubSubNew true true true config = Some ps -> hub_ok 0 ps (fun _ => []).
Proof using Type.
  intros [= <-]. constructor; cbn; rewrite ?topic_map_new; try done; intros *; rewrite ?lookup_empty; done.
Qed.

Lemma hub_do_ok n ps Q op : hub_ok n ps Q -> (Z.of_nat (S (S n)) < w64)%Z ->
  exists ps' Q', hub_do ps op = Some ps' /\ hub_ok (S n) ps' Q'.
Proof using All.
  intros H Hn. destruct op as [p cb config m|a|t data pd now alloc|a]; cbn [hub_do].
  - destruct (subscribe_ok n ps Q p cb config m H) as [Q' ?]; [lia|]. by eexists _, Q'.
  - case_bool_decide as Ha; [|exists ps, Q; split; [done|by apply hub_ok_weaken]].
    destruct (unsubscribe_ok n ps Q a H Ha) as (ps' & calls & -> & H' & _); [lia|].
    exists ps', Q. split; [done|by apply hub_ok_weaken].
  - destruct t as [t|]; [|exists ps, Q; split; [done|by apply hub_ok_weaken]].
    destruct (publishEx_ok n ps Q t data pd now alloc H Hn) as (ps' & Q' & calls & -> & H' & _).
    by exists ps', Q'.
  - destruct (subs ps !! a) as [s|] eqn:Hs; [|exists ps, Q; split; [done|by apply hub_ok_weaken]].
    destruct (receive_ok n ps Q a s H Hs) as (s' & mem' & msg & Q' & -> & H'); [lia|].
    eexists _, Q'. split; [done|by apply hub_ok_weaken].
Qed.

(** C22. Every sequence of subscriptions, unsubscriptions, publications and
    receives on a new hub, whatever allocations fail, runs without an access to
    freed memory and leaves a consistent hub: patterns bound to the entries
    that list their subscriptions, each once, entries of deleted patterns gone,
    queues well formed and apart, and the counts exact. *)
Theorem pubsub_hub_safe config ps ops :
  loopyPubSubNew true true true config = Some ps -> (Z.of_nat (S (length ops)) < w64)%Z ->
  exists ps' Q, hub_run ps ops = Some ps' /\ hub_ok (length ops) ps' Q.
Proof using All.
  intros H Hn. apply hub_created_ok in H.
  assert (G : forall n Q, hub_ok n ps Q -> (Z.of_nat (S (n + length ops)) < w64)%Z ->
    exists ps' Q', hub_run ps ops = Some ps' /\ hub_ok (n + length ops) ps' Q').
  2: { by apply (G 0 (fun _ => [])). }
  clear H Hn. revert ps. induction ops as [|op ops IH]; intros ps n Q H Hn.
  { exists ps, Q. by rewrite Nat.add_0_r. }
  destruct (hub_do_ok n ps Q op H) as (ps1 & Q1 & E & H1); [simpl in Hn; lia|].
  destruct (IH ps1 (S n) Q1 H1) as (ps2 & Q2 & E2 & H2); [simpl in *; lia|].
  exists ps2, Q2. cbn [hub_run length]. rewrite E. split; [done|]. by rewrite <- Nat.add_succ_comm.
Qed.
End HubInvariant.

(** ** A matcher to run the hub with

    The simplest one that keeps the contract: a topic matches the pattern it
    equals. *)
#[local] Instance exact_topics : RaxTopic := {|
  topics := gmap cstr nat;
  raxTopicNew _ _ _ := ∅;
  raxTopicGet t p := t !! p;
  raxTopicBind t p e := <[p := e]> t;
  raxTopicUnbind t p := delete p t;
  raxTopicMatch t s := match t !! s with Some e => [(s, e)] | None => [] end;
  raxTopicIterate t := map_to_list t
|}.

#[local] Instance exact_topics_spec : RaxTopicSpec exact_topics.
Proof.
  refine {| topic_map := (fun t : @topics exact_topics => t : gmap cstr nat) |}; try done.
  - intros t s. simpl. destruct (_ !! _); [apply NoDup_singleton|constructor].
  - intros t s p e Hx. simpl in *. destruct (t !! s) as [e'|] eqn:E; [|by apply elem_of_nil in Hx].
    apply list_elem_of_singleton in Hx. by injection Hx as -> ->.
Defined.

Definition ok_allocs : subAllocs := SubAllocs true true true true true.

Lemma pubsub_hub_safe_witness :
  exists ps ps' Q,
    loopyPubSubNew true true true None = Some ps /\
    hub_run ps [HSubscribe (Some (text "a")) (Some 1) None ok_allocs;
                HSubscribe (Some (text "a")) (Some 2) (Some (SubscriptionConfig LOOPY_DELIVER_QUEUE LOOPY_ACK_AUTO 8 true 0)) ok_allocs;
                HPublish (Some (text "a")) [] 0 5 (fun _ => MsgAllocs true true true); HReceive 1; HUnsubscribe 0] = Some ps' /\
    hub_ok 5 ps' Q.
Proof.
  destruct (loopyPubSubNew true true true None) as [ps|] eqn:E; [|done]. exists ps.
  destruct (pubsub_hub_safe None ps [HSubscribe (Some (text "a")) (Some 1) None ok_allocs;
                HSubscribe (Some (text "a")) (Some 2) (Some (SubscriptionConfig LOOPY_DELIVER_QUEUE LOOPY_ACK_AUTO 8 true 0)) ok_allocs;
                HPublish (Some (text "a")) [] 0 5 (fun _ => MsgAllocs true true true); HReceive 1; HUnsubscribe 0] E)
    as (ps' & Q & E' & H); [done|]. by exists ps', Q.
Defined.

Lemma pubsub_publish_delivers_witness :
  exists ps Q ps' Q' calls,
    hub_ok 1 ps Q /\
    loopyPublishEx ps (Some (text "a")) [] 0 5 (fun _ => MsgAllocs true true true) = Some (ps', 1, calls) /\
    hub_ok 2 ps' Q' /\ length (filter (fun c => is_message c) calls) = 1.
Proof.
  destruct (loopyPubSubNew true true true None) as [ps0|] eqn:E; [|done].
  destruct (subscribe_ok 0 ps0 _ (Some (text "a")) (Some 1) None ok_allocs (hub_created_ok None ps0 E)) as [Q H]; [done|].
  injection E as <-. eexists _, Q.
  destruct (pubsub_publish_delivers 1 _ Q (text "a") [] 0 5 (fun _ => MsgAllocs true true true) H)
    as (ps' & Q' & calls & E & H' & _ & Hc & _); [done|].
  exists ps', Q', calls. split; [exact H|]. split; [rewrite E; reflexivity|]. split; [done|]. by rewrite Hc.
Defined.
