(* ===== verification/ConnPool.v ===== *)
(** * Connection pool ([src/loopyConnPool.c])

    The pool, the heap of its connections and the calls it makes into user
    code.  What the environment answers (the clock, the callbacks that create
    and validate connections, allocations and timers) is an oracle indexed by
    the number of questions asked before, so that the theorems hold for every
    environment.  The callbacks do not call the pool; the idle list linked by
    [next] is the list of its addresses. *)

From S2P Require Import Prelude.

Local Open Scope nat_scope.

(** ** Data *)

Record loopyConnPoolConfig := ConnPoolConfig {
  minIdle : Z;
  maxTotal : Z;
  idleTimeoutUs : Z;
  maxLifetimeUs : Z;
  healthCheckIntervalUs : Z;
  acquireTimeoutUs : Z
}.

Record loopyConnPoolConn := ConnPoolConn {
  userConn : nat;               (* never NULL: createConnection checks *)
  createTime : Z;
  lastUseTime : Z;
  inUse : bool
}.

#[export] Instance ConnPoolConn_rebuild : Rebuild loopyConnPoolConn := fun c =>
  ConnPoolConn (userConn c) (createTime c) (lastUseTime c) (inUse c).

(** The optional callbacks are whether they are set; a wait request is its
    callback and user data, one number. *)
Record loopyConnPool := ConnPool {
  config : loopyConnPoolConfig;
  validateCb : bool;
  acquireCb : bool;
  releaseCb : bool;
  idleConns : list nat;
  totalConns : Z;
  idleCount : Z;
  activeCount : Z;
  waitQueue : list nat;
  healthCheckTimer : option Z;  (* their periods *)
  idleCleanupTimer : option Z;
  totalAcquires : Z;
  totalReleases : Z;
  totalCreates : Z;
  totalDestroys : Z;
  totalTimeouts : Z;
  totalValidationFailures : Z;
  destroyed : bool
}.

#[export] Instance ConnPool_rebuild : Rebuild loopyConnPool := fun p =>
  ConnPool (config p) (validateCb p) (acquireCb p) (releaseCb p) (idleConns p) (totalConns p) (idleCount p)
    (activeCount p) (waitQueue p) (healthCheckTimer p) (idleCleanupTimer p) (totalAcquires p) (totalReleases p)
    (totalCreates p) (totalDestroys p) (totalTimeouts p) (totalValidationFailures p) (destroyed p).

(** The calls into user code that matter to the user. *)
Inductive pool_event :=
| EvCreated (u : nat)                        (* createCb returned u *)
| EvDestroyed (u : nat)                      (* destroyCb(u) *)
| EvAcquired (u : nat)                       (* acquireCb(u) *)
| EvReleased (u : nat)                       (* releaseCb(u) *)
| EvAnswered (w : nat) (conn : option nat).  (* an asynchronous callback *)

Record world := World {
  pool : option loopyConnPool;  (* None: freed *)
  conns : gmap nat loopyConnPoolConn;
  calls : nat;                  (* questions asked of the environment *)
  lastError : string;
  trace : list pool_event       (* newest first *)
}.

#[export] Instance world_rebuild : Rebuild world := fun w =>
  World (pool w) (conns w) (calls w) (lastError w) (trace w).

(** The environment: its [k]-th answer. *)
Class Environment := {
  clock : nat -> Z;                (* gettimeofday in microseconds *)
  created : nat -> option nat;     (* createCb *)
  valid : nat -> nat -> bool;      (* validateCb, of a user connection *)
  allocOk : nat -> bool            (* an allocation, the creation of a timer *)
}.

Section Pool.
Context `{Env : Environment}.

Definition ask : prog world nat :=
  w ← get; modify (fun w => w <| calls ::= S |>) ≫= fun _ => mret (calls w).
Definition emit (e : pool_event) : prog world unit := modify (fun w => w <| trace ::= cons e |>).
Definition setError (msg : string) : prog world unit := modify (fun w => w <| lastError := msg |>).

(** Access to the pool and to a connection: undefined when they are freed. *)
Definition the_pool : prog world loopyConnPool :=
  w ← get; match pool w with Some p => mret p | None => undefined end.
Definition set_pool (f : loopyConnPool -> loopyConnPool) : prog world unit :=
  p ← the_pool; modify (fun w => w <| pool := Some (f p) |>).
Definition the_conn (a : nat) : prog world loopyConnPoolConn :=
  w ← get; match conns w !! a with Some c => mret c | None => undefined end.
Definition set_conn (a : nat) (f : loopyConnPoolConn -> loopyConnPoolConn) : prog world unit :=
  c ← the_conn a; modify (fun w => w <| conns ::= <[a := f c]> |>).

Definition loopyConnPoolGetError (w : world) : option string :=
  if (lastError w =? "")%string then None else Some (lastError w).

Definition getMicroSeconds : prog world Z := k ← ask; mret (u64 (clock k)).

Definition loopyConnPoolConfigDefault : loopyConnPoolConfig :=
  ConnPoolConfig 0 10 30000000 3600000000 60000000 5000000.

(** ** Connections *)

Definition createConnection : prog world (option nat) :=
  p ← the_pool;
  if (totalConns p >=? maxTotal (config p))%Z then
    setError "Pool at maximum capacity" ≫= fun _ => mret None
  else
    k ← ask;
    match created k with
    | None => setError "Connection creation callback failed" ≫= fun _ => mret None
    | Some u =>
        emit (EvCreated u) ≫= fun _ =>
        k ← ask;
        if negb (allocOk k) then
          setError "Memory allocation failed" ≫= fun _ => emit (EvDestroyed u) ≫= fun _ => mret None
        else
          now ← getMicroSeconds;
          w ← get;
          let a := fresh (dom (conns w)) in
          modify (fun w => w <| conns ::= <[a := ConnPoolConn u now now false]> |>) ≫= fun _ =>
          set_pool (fun p => p <| totalConns ::= fun n => n +32 1 |> <| totalCreates ::= fun n => n +64 1 |>) ≫= fun _ =>
          setError "" ≫= fun _ => mret (Some a)
    end.

Definition destroyConnection (a : nat) : prog world unit :=
  c ← the_conn a;
  emit (EvDestroyed (userConn c)) ≫= fun _ =>
  set_pool (fun p => p <| totalConns ::= fun n => n -32 1 |> <| totalDestroys ::= fun n => n +64 1 |>) ≫= fun _ =>
  modify (fun w => w <| conns ::= delete a |>).

Definition validateConnection (a : nat) : prog world bool :=
  c ← the_conn a;
  p ← the_pool;
  if negb (validateCb p) then mret true else k ← ask; mret (valid k (userConn c)).

Definition isConnectionExpired (a : nat) : prog world bool :=
  p ← the_pool;
  if (maxLifetimeUs (config p) =? 0)%Z then mret false
  else
    now ← getMicroSeconds;
    c ← the_conn a;
    mret ((now -64 createTime c) >=? maxLifetimeUs (config p))%Z.

Definition isConnectionIdleTooLong (a : nat) : prog world bool :=
  p ← the_pool;
  if (idleTimeoutUs (config p) =? 0)%Z then mret false
  else
    now ← getMicroSeconds;
    c ← the_conn a;
    mret ((now -64 lastUseTime c) >=? idleTimeoutUs (config p))%Z.

(** ** The idle list and the wait queue *)

Definition addToIdleList (a : nat) : prog world unit :=
  set_pool (fun p => p <| idleConns ::= cons a |> <| idleCount ::= fun n => n +32 1 |>).

Definition removeFromIdleList : prog world (option nat) :=
  p ← the_pool;
  match idleConns p with
  | [] => mret None
  | a :: l =>
      set_pool (fun p => p <| idleConns := l |> <| idleCount ::= fun n => n -32 1 |>
                          <| activeCount ::= fun n => n +32 1 |>) ≫= fun _ =>
      mret (Some a)
  end.

Definition enqueueWaitRequest (r : nat) : prog world unit :=
  k ← ask;
  if negb (allocOk k) then mret tt else set_pool (fun p => p <| waitQueue ::= fun q => q ++ [r] |>).

Definition dequeueWaitRequest : prog world (option nat) :=
  p ← the_pool;
  match waitQueue p with
  | [] => mret None
  | r :: q => set_pool (fun p => p <| waitQueue := q |>) ≫= fun _ => mret (Some r)
  end.

(** ** Acquisition and release

    [nn]: the pointer passed is not [NULL]. *)

(** The loop over idle connections of [loopyConnPoolAcquire]; [fuel] bounds
    their number. *)
Fixpoint acquireIdle (fuel : nat) : prog world (option nat) :=
  p ← the_pool;
  match idleConns p with
  | [] => mret None
  | _ =>
      match fuel with
      | O => undefined
      | S fuel =>
          conn ← removeFromIdleList;
          match conn with
          | None => mret None
          | Some a =>
              ok ← validateConnection a;
              if negb ok then
                set_pool (fun p => p <| totalValidationFailures ::= fun n => n +64 1 |>) ≫= fun _ =>
                destroyConnection a ≫= fun _ => acquireIdle fuel
              else
                expired ← isConnectionExpired a;
                if (expired : bool) then destroyConnection a ≫= fun _ => acquireIdle fuel
                else mret (Some a)
          end
      end
  end.

Definition callAcquire (a : nat) : prog world unit :=
  p ← the_pool; c ← the_conn a; pwhen (acquireCb p) (emit (EvAcquired (userConn c))).

Definition callRelease (a : nat) : prog world unit :=
  p ← the_pool; c ← the_conn a; pwhen (releaseCb p) (emit (EvReleased (userConn c))).

(** The end of [loopyConnPoolAcquire]. *)
Definition handOut (a : nat) : prog world (option nat) :=
  now ← getMicroSeconds;
  set_conn a (fun c => c <| lastUseTime := now |> <| inUse := true |>) ≫= fun _ =>
  callAcquire a ≫= fun _ =>
  set_pool (fun p => p <| totalAcquires ::= fun n => n +64 1 |>) ≫= fun _ =>
  setError "" ≫= fun _ => mret (Some a).

Definition loopyConnPoolAcquire (nn : bool) : prog world (option nat) :=
  if negb nn then setError "Invalid or destroyed pool" ≫= fun _ => mret None
  else
    p ← the_pool;
    if (destroyed p : bool) then setError "Invalid or destroyed pool" ≫= fun _ => mret None
    else
      conn ← acquireIdle (length (idleConns p));
      match conn with
      | Some a => handOut a
      | None =>
          conn ← createConnection;
          match conn with
          | None =>
              set_pool (fun p => p <| totalTimeouts ::= fun n => n +64 1 |>) ≫= fun _ => mret None
          | Some a =>
              set_pool (fun p => p <| activeCount ::= fun n => n +32 1 |>) ≫= fun _ => handOut a
          end
      end.

Definition loopyConnPoolAcquireAsync (nn : bool) (cb : option nat) : prog world bool :=
  match cb with
  | None => setError "NULL pool or callback" ≫= fun _ => mret false
  | Some r =>
      if negb nn then setError "NULL pool or callback" ≫= fun _ => mret false
      else
        p ← the_pool;
        if (destroyed p : bool) then setError "Pool is destroyed" ≫= fun _ => mret false
        else if negb (bool_decide (idleConns p = [])) || (totalConns p <? maxTotal (config p))%Z then
          conn ← loopyConnPoolAcquire nn; emit (EvAnswered r conn) ≫= fun _ => mret true
        else enqueueWaitRequest r ≫= fun _ => setError "" ≫= fun _ => mret true
  end.

(** The replacement of a destroyed connection. *)
Definition replaceConnection : prog world unit :=
  p ← the_pool;
  if (totalConns p <? minIdle (config p))%Z then
    conn ← createConnection;
    match conn with Some a => addToIdleList a | None => mret tt end
  else mret tt.

Definition returnToIdle (a : nat) : prog world unit :=
  now ← getMicroSeconds;
  set_conn a (fun c => c <| lastUseTime := now |>) ≫= fun _ =>
  set_pool (fun p => p <| activeCount ::= fun n => n -32 1 |>) ≫= fun _ => addToIdleList a.

(** A waiting request gets the connection that comes back. *)
Definition serveWaiter (a r : nat) : prog world unit :=
  now ← getMicroSeconds;
  set_conn a (fun c => c <| inUse := true |> <| lastUseTime := now |>) ≫= fun _ =>
  callAcquire a ≫= fun _ =>
  emit (EvAnswered r (Some a)) ≫= fun _ =>
  set_pool (fun p => p <| totalAcquires ::= fun n => n +64 1 |>).

Definition loopyConnPoolRelease (conn : option nat) (healthy : bool) : prog world unit :=
  match conn with
  | None => mret tt
  | Some a =>
      set_conn a (fun c => c <| inUse := false |>) ≫= fun _ =>
      callRelease a ≫= fun _ =>
      set_pool (fun p => p <| totalReleases ::= fun n => n +64 1 |>) ≫= fun _ =>
      p ← the_pool;
      if (destroyed p : bool) then destroyConnection a
      else
        expired ← (if negb healthy then mret true else isConnectionExpired a);
        if (expired : bool) then
          set_pool (fun p => p <| activeCount ::= fun n => n -32 1 |>) ≫= fun _ =>
          destroyConnection a ≫= fun _ => replaceConnection
        else
          waiter ← dequeueWaitRequest;
          match waiter with
          | Some r => serveWaiter a r
          | None => returnToIdle a
          end
  end.

(** ** Maintenance *)

(** Unlinks and destroys an idle connection; [kept] precedes it in the list. *)
Definition unlinkIdle (kept l : list nat) : prog world unit :=
  set_pool (fun p => p <| idleConns := kept ++ l |> <| idleCount ::= fun n => n -32 1 |>).

Fixpoint healthLoop (kept l : list nat) (n : Z) : prog world Z :=
  match l with
  | [] => mret n
  | a :: l =>
      ok ← validateConnection a;
      if negb ok then
        unlinkIdle kept l ≫= fun _ =>
        set_pool (fun p => p <| totalValidationFailures ::= fun n => n +64 1 |>) ≫= fun _ =>
        destroyConnection a ≫= fun _ => healthLoop kept l (n +32 1)
      else healthLoop (kept ++ [a]) l n
  end.

Definition loopyConnPoolHealthCheck (nn : bool) : prog world Z :=
  if negb nn then mret 0%Z
  else p ← the_pool; if (destroyed p : bool) then mret 0%Z else healthLoop [] (idleConns p) 0.

Fixpoint cleanupLoop (kept l : list nat) (n : Z) : prog world Z :=
  match l with
  | [] => mret n
  | a :: l =>
      long ← isConnectionIdleTooLong a;
      p ← the_pool;
      if long && (totalConns p >? minIdle (config p))%Z then
        unlinkIdle kept l ≫= fun _ =>
        destroyConnection a ≫= fun _ => cleanupLoop kept l (n +32 1)
      else cleanupLoop (kept ++ [a]) l n
  end.

Definition loopyConnPoolCleanupIdle (nn : bool) : prog world Z :=
  if negb nn then mret 0%Z
  else p ← the_pool; if (destroyed p : bool) then mret 0%Z else cleanupLoop [] (idleConns p) 0.

(** [n] iterations are left. *)
Fixpoint prewarmLoop (n : nat) (made : Z) : prog world Z :=
  match n with
  | O => mret made
  | S n =>
      p ← the_pool;
      if (totalConns p <? maxTotal (config p))%Z then
        conn ← createConnection;
        match conn with
        | None => mret made
        | Some a => addToIdleList a ≫= fun _ => prewarmLoop n (made +32 1)
        end
      else mret made
  end.

Definition loopyConnPoolPrewarm (nn : bool) (count : Z) : prog world Z :=
  if negb nn then mret 0%Z
  else
    p ← the_pool;
    if (destroyed p : bool) then mret 0%Z
    else
      let count := if (count =? 0)%Z then minIdle (config p) else count in
      prewarmLoop (Z.to_nat count) 0.

(** ** Creation and destruction *)

Fixpoint freeIdle (fuel : nat) : prog world unit :=
  p ← the_pool;
  match idleConns p with
  | [] => mret tt
  | _ =>
      match fuel with
      | O => undefined
      | S fuel =>
          conn ← removeFromIdleList;
          match conn with Some a => destroyConnection a | None => mret tt end ≫= fun _ => freeIdle fuel
      end
  end.

Fixpoint freeWaiters (fuel : nat) : prog world unit :=
  p ← the_pool;
  match waitQueue p with
  | [] => mret tt
  | _ =>
      match fuel with
      | O => undefined
      | S fuel =>
          waiter ← dequeueWaitRequest;
          match waiter with Some r => emit (EvAnswered r None) | None => mret tt end ≫= fun _ => freeWaiters fuel
      end
  end.

Definition loopyConnPoolFree (nn : bool) : prog world unit :=
  if negb nn then mret tt
  else
    set_pool (fun p => p <| destroyed := true |> <| healthCheckTimer := None |> <| idleCleanupTimer := None |>) ≫= fun _ =>
    p ← the_pool;
    freeIdle (length (idleConns p)) ≫= fun _ =>
    p ← the_pool;
    freeWaiters (length (waitQueue p)) ≫= fun _ =>
    modify (fun w => w <| pool := None |>).

Definition cleanupInterval (c : loopyConnPoolConfig) : Z :=
  let i := (idleTimeoutUs c / 2)%Z in if (i <? 1000000)%Z then 1000000%Z else i.

(** A periodic timer, if it is configured; whether it could be created. *)
Definition newTimer (period : Z) (f : option Z -> loopyConnPool -> loopyConnPool) : prog world bool :=
  k ← ask;
  if negb (allocOk k) then mret false else set_pool (f (Some period)) ≫= fun _ => mret true.

Definition failNew (msg : string) : prog world bool :=
  modify (fun w => w <| pool := None |>) ≫= fun _ => setError msg ≫= fun _ => mret false.

(** [loop], [createCb] and [destroyCb]: not [NULL]. *)
Definition loopyConnPoolNew (loop : bool) (cfg : option loopyConnPoolConfig) (createCb destroyCb validateCb : bool)
    : prog world bool :=
  if negb loop then setError "NULL event loop" ≫= fun _ => mret false
  else
    match cfg with
    | None => setError "NULL configuration" ≫= fun _ => mret false
    | Some c =>
        if negb createCb || negb destroyCb then setError "NULL required callback" ≫= fun _ => mret false
        else
          k ← ask;
          if negb (allocOk k) then setError "Memory allocation failed" ≫= fun _ => mret false
          else
            modify (fun w => w <| pool :=
              Some (ConnPool c validateCb false false [] 0 0 0 [] None None 0 0 0 0 0 0 false) |>) ≫= fun _ =>
            ok ← (if (healthCheckIntervalUs c >? 0)%Z then
                    newTimer (healthCheckIntervalUs c) (fun t p => p <| healthCheckTimer := t |>)
                  else mret true);
            if negb ok then failNew "Failed to create health check timer"
            else
              ok ← (if (idleTimeoutUs c >? 0)%Z then
                      newTimer (cleanupInterval c) (fun t p => p <| idleCleanupTimer := t |>)
                    else mret true);
              if negb ok then failNew "Failed to create idle cleanup timer"
              else if (minIdle c >? 0)%Z then
                made ← loopyConnPoolPrewarm true (minIdle c);
                if (made <? minIdle c)%Z then
                  loopyConnPoolFree true ≫= fun _ =>
                  setError "Failed to create minimum idle connections" ≫= fun _ => mret false
                else setError "" ≫= fun _ => mret true
              else setError "" ≫= fun _ => mret true
    end.

Definition loopyConnPoolSetAcquireCallback (nn cb : bool) : prog world unit :=
  pwhen nn (set_pool (fun p => p <| acquireCb := cb |>)).
Definition loopyConnPoolSetReleaseCallback (nn cb : bool) : prog world unit :=
  pwhen nn (set_pool (fun p => p <| releaseCb := cb |>)).

(** ** Queries, on a pool or [NULL] *)

Definition loopyConnPoolGetUserConn (conn : option loopyConnPoolConn) : option nat := userConn <$> conn.

Record loopyConnPoolStats := ConnPoolStats {
  st_totalConns : Z; st_idleConns : Z; st_activeConns : Z; st_totalAcquires : Z; st_totalReleases : Z;
  st_totalCreates : Z; st_totalDestroys : Z; st_totalTimeouts : Z; st_totalValidationFailures : Z }.

Definition loopyConnPoolGetStats (p : option loopyConnPool) : option loopyConnPoolStats :=
  (fun p => ConnPoolStats (totalConns p) (idleCount p) (activeCount p) (totalAcquires p) (totalReleases p)
     (totalCreates p) (totalDestroys p) (totalTimeouts p) (totalValidationFailures p)) <$> p.

Definition loopyConnPoolGetIdleCount (p : option loopyConnPool) : Z := peek_handle 0%Z p idleCount.
Definition loopyConnPoolGetActiveCount (p : option loopyConnPool) : Z := peek_handle 0%Z p activeCount.
Definition loopyConnPoolGetTotalCount (p : option loopyConnPool) : Z := peek_handle 0%Z p totalConns.
End Pool.

(** ** Rules for the accesses *)

Section Rules.
Context `{Env : Environment}.

Lemma wp_the_pool Q w p : pool w = Some p -> Q p w -> wp the_pool Q w.
Proof using Type. intros Hp HQ. unfold the_pool. apply wp_bind, wp_get. by rewrite Hp. Qed.

Lemma wp_set_pool f (Q : unit -> world -> Prop) w p :
  pool w = Some p -> Q tt (w <| pool := Some (f p) |>) -> wp (set_pool f) Q w.
Proof using Type. intros Hp HQ. unfold set_pool. apply wp_bind. by eapply wp_the_pool. Qed.

Lemma wp_the_conn a Q w c : conns w !! a = Some c -> Q c w -> wp (the_conn a) Q w.
Proof using Type. intros Hc HQ. unfold the_conn. apply wp_bind, wp_get. by rewrite Hc. Qed.

Lemma wp_set_conn a f (Q : unit -> world -> Prop) w c :
  conns w !! a = Some c -> Q tt (w <| conns ::= <[a := f c]> |>) -> wp (set_conn a f) Q w.
Proof using Type. intros Hc HQ. unfold set_conn. apply wp_bind. by eapply wp_the_conn. Qed.

Lemma wp_ask (Q : nat -> world -> Prop) w : Q (calls w) (w <| calls ::= S |>) -> wp ask Q w.
Proof using Type. done. Qed.

Lemma wp_getMicroSeconds (Q : Z -> world -> Prop) w :
  (forall t, Q t (w <| calls ::= S |>)) -> wp getMicroSeconds Q w.
Proof using Type. intros HQ. unfold getMicroSeconds. apply wp_bind, wp_ask. apply HQ. Qed.
End Rules.

(** Runs the next statement; the conditions on pool and heap are in the
    context. *)
Ltac wp_step :=
  match goal with
  | |- wp (_ ≫= _) _ _ => apply wp_bind
  | |- wp (mret _) _ _ => apply wp_ret
  | |- wp the_pool _ _ => eapply wp_the_pool; [first [eassumption | reflexivity]|]
  | |- wp (set_pool _) _ _ => eapply wp_set_pool; [first [eassumption | reflexivity]|]
  | |- wp (the_conn _) _ _ => eapply wp_the_conn; [first [eassumption | apply lookup_insert_eq]|]
  | |- wp (set_conn _ _) _ _ => eapply wp_set_conn; [first [eassumption | apply lookup_insert_eq]|]
  | |- wp ask _ _ => apply wp_ask
  | |- wp getMicroSeconds _ _ => apply wp_getMicroSeconds; intros ?
  | |- wp get _ _ => apply wp_get
  | |- wp (modify _) _ _ => apply wp_modify
  | |- wp (emit _) _ _ => apply wp_modify
  | |- wp (setError _) _ _ => apply wp_modify
  | |- wp (pwhen ?b _) _ _ => destruct b; unfold pwhen
  end.

(** ** The invariant *)

Fixpoint created_of (t : list pool_event) : list nat :=
  match t with [] => [] | EvCreated u :: t => u :: created_of t | _ :: t => created_of t end.

Fixpoint destroyed_of (t : list pool_event) : list nat :=
  match t with [] => [] | EvDestroyed u :: t => u :: destroyed_of t | _ :: t => destroyed_of t end.

Definition users (m : gmap nat loopyConnPoolConn) : list nat := userConn <$> (map_to_list m).*2.

(** The connections are those in the idle list, those an operation is moving
    ([T]) and those the program holds ([H]); [k] is the error of
    [activeCount], [e] the connections destroyed so far. *)
Record inv_pool (c : loopyConnPoolConfig) (d : bool) (T H : list nat) (k e : Z) (p : loopyConnPool) (w : world)
    : Prop := {
  iv_keys : (map_to_list (conns w)).*1 ≡ₚ idleConns p ++ T ++ H;
  iv_inUse a x : conns w !! a = Some x -> inUse x = true <-> a ∈ H;
  iv_total : totalConns p = Z.of_nat (size (conns w));
  iv_max : (Z.of_nat (size (conns w)) <= maxTotal c < w32)%Z;
  iv_idle : idleCount p = Z.of_nat (length (idleConns p));
  iv_active : activeCount p = u32 (Z.of_nat (length T) + Z.of_nat (length H) + k);
  iv_destroys : totalDestroys p = u64 e;
  iv_users : created_of (trace w) ≡ₚ destroyed_of (trace w) ++ users (conns w);
  iv_config : config p = c;
  iv_live : destroyed p = d
}.

Definition inv c d T H k e (w : world) : Prop := exists p, pool w = Some p /\ inv_pool c d T H k e p w.

Definition idle_of (w : world) : list nat := match pool w with Some p => idleConns p | None => [] end.

(** What the invariant does not depend on. *)
Lemma inv_pool_ext c d T H k e p p' w w' :
  inv_pool c d T H k e p w -> conns w' = conns w -> created_of (trace w') = created_of (trace w) ->
  destroyed_of (trace w') = destroyed_of (trace w) -> idleConns p' = idleConns p -> totalConns p' = totalConns p ->
  idleCount p' = idleCount p -> activeCount p' = activeCount p -> totalDestroys p' = totalDestroys p ->
  config p' = config p -> destroyed p' = destroyed p -> inv_pool c d T H k e p' w'.
Proof. intros [] Ec E1 E2 E3 E4 E5 E6 E7 E8 E9. constructor; rewrite ?Ec, ?E1, ?E2, ?E3, ?E4, ?E5, ?E6, ?E7, ?E8, ?E9; done. Qed.

(** Closes a goal that the invariant holds after changes it does not see. *)
Ltac inv_ext := eexists; split; [first [eassumption | reflexivity]|]; eapply inv_pool_ext; eauto.

Lemma inv_held c d T H k e p w a : inv_pool c d T H k e p w -> a ∈ idleConns p ++ T ++ H -> exists x, conns w !! a = Some x.
Proof.
  intros [Hk] Ha. rewrite <- Hk in Ha. apply list_elem_of_fmap in Ha as ([b x] & -> & Hb).
  apply elem_of_map_to_list in Hb. by exists x.
Qed.

Lemma inv_size c d T H k e p w : inv_pool c d T H k e p w ->
  size (conns w) = length (idleConns p) + length T + length H.
Proof.
  intros [Hk]. apply Permutation_length in Hk. rewrite length_fmap, length_map_to_list, !length_app in Hk. lia.
Qed.

Lemma inv_perm c d T T' H H' k e w : T ≡ₚ T' -> H ≡ₚ H' -> inv c d T H k e w -> inv c d T' H' k e w.
Proof.
  intros ET EH (p & Hp & []). exists p. split; [done|]. constructor; rewrite <- ?ET, <- ?EH; try done.
  intros a x Ha. rewrite <- EH. eauto.
Qed.

(** Replacing the contents of a connection, the user's connection apart. *)
Lemma map_to_list_update (m : gmap nat loopyConnPoolConn) a x y :
  m !! a = Some x -> (map_to_list (<[a := y]> m)).*1 ≡ₚ (map_to_list m).*1 /\
  (userConn y = userConn x -> users (<[a := y]> m) ≡ₚ users m).
Proof.
  intros Ha. unfold users. rewrite <- insert_delete_eq, map_to_list_insert by apply lookup_delete_eq.
  rewrite <- (map_to_list_delete m a x) by done. simpl. split; [done|]. by intros ->.
Qed.

Section Invariant.
Context `{Env : Environment}.

Lemma createConnection_ok c d T H k e w :
  inv c d T H k e w ->
  wp createConnection (fun r w' => idle_of w' = idle_of w /\
    match r with None => inv c d T H k e w' | Some a => inv c d (a :: T) H (k - 1) e w' end) w.
Proof using Type.
  intros (p & Hp & I). unfold createConnection. do 2 wp_step.
  destruct (totalConns p >=? maxTotal (config p))%Z eqn:Hmax; bool_to_prop.
  { do 3 wp_step. split; [done|]. inv_ext. }
  do 2 wp_step. destruct (created (calls w)) as [u|]; [|do 3 wp_step; split; [done|]; inv_ext].
  do 4 wp_step. destruct (negb (allocOk _)).
  { do 5 wp_step. split; [done|]. destruct I. eexists. split; [eassumption|]. constructor; try done. cbn. by rewrite iv_users0. }
  repeat wp_step. split; [by unfold idle_of; rewrite Hp|].
  set (a := fresh (dom (conns w))). assert (Ha : conns w !! a = None) by apply not_elem_of_dom, is_fresh.
  pose proof (inv_size _ _ _ _ _ _ _ _ I) as Hsz.
  assert (HaH : a ∉ H).
  { intros HH. destruct (inv_held _ _ _ _ _ _ _ _ a I) as [x Hx]; [|congruence].
    apply elem_of_app. right. apply elem_of_app. by right. }
  destruct I. rewrite iv_config0 in Hmax. eexists. split; [reflexivity|]. constructor; cbn; try done.
  - rewrite map_to_list_insert by done. simpl. rewrite iv_keys0. solve_Permutation.
  - intros b x. destruct (decide (b = a)) as [->|Hb].
    + rewrite lookup_insert_eq. intros [= <-]. done.
    + rewrite lookup_insert_ne by done. apply iv_inUse0.
  - rewrite map_size_insert_None, iv_total0 by done. rewrite u32_small; unfold in32; lia.
  - rewrite map_size_insert_None by done. lia.
  - rewrite iv_active0. f_equal. lia.
  - unfold users. rewrite map_to_list_insert by done. simpl. rewrite iv_users0. unfold users. solve_Permutation.
Qed.

Lemma destroyConnection_ok c d a T H k e w :
  inv c d (a :: T) H k e w ->
  wp (destroyConnection a) (fun _ w' => inv c d T H (k + 1) (e + 1) w' /\ idle_of w' = idle_of w) w.
Proof using Type.
  intros (p & Hp & I). pose proof (inv_size _ _ _ _ _ _ _ _ I) as Hsz.
  destruct (inv_held _ _ _ _ _ _ _ _ a I) as [x Hx].
  { apply elem_of_app. right. by left. }
  unfold destroyConnection. repeat wp_step. split; [|by unfold idle_of; rewrite Hp].
  destruct I. eexists. split; [reflexivity|]. simpl in Hsz. constructor; cbn; try done.
  - apply (Permutation_cons_inv (a := a)). 
    transitivity (map_to_list (conns w)).*1; [by rewrite <- (map_to_list_delete (conns w) a x)|].
    rewrite iv_keys0. solve_Permutation.
  - intros b y [_ Hb]%lookup_delete_Some. by apply (iv_inUse0 b y).
  - rewrite iv_total0, map_size_delete_Some by by eexists. rewrite u32_small; unfold in32; lia.
  - rewrite map_size_delete_Some by by eexists. lia.
  - rewrite iv_active0. f_equal. simpl. lia.
  - rewrite iv_destroys0, u64_add_l. done.
  - rewrite iv_users0. unfold users. rewrite <- (map_to_list_delete (conns w) a x) by done. simpl. solve_Permutation.
Qed.

Lemma validateConnection_ok c d T H k e w a :
  inv c d T H k e w -> (exists x, conns w !! a = Some x) ->
  wp (validateConnection a) (fun _ w' => inv c d T H k e w' /\ pool w' = pool w /\ conns w' = conns w) w.
Proof using Type.
  intros (p & Hp & I) [x Hx]. unfold validateConnection. do 4 wp_step. destruct (negb _); repeat wp_step.
  - split; [by exists p|done].
  - split; [inv_ext|done].
Qed.

(** The two questions about the age of a connection. *)
Lemma isConnectionExpired_ok c d T H k e w a :
  inv c d T H k e w -> (exists x, conns w !! a = Some x) ->
  wp (isConnectionExpired a) (fun _ w' => inv c d T H k e w' /\ pool w' = pool w /\ conns w' = conns w) w.
Proof using Type.
  intros (p & Hp & I) [x Hx]. unfold isConnectionExpired. do 2 wp_step. destruct (_ =? _)%Z; repeat wp_step.
  - split; [by exists p|done].
  - split; [inv_ext|done].
Qed.

Lemma isConnectionIdleTooLong_ok c d T H k e w a :
  inv c d T H k e w -> (exists x, conns w !! a = Some x) ->
  wp (isConnectionIdleTooLong a) (fun _ w' => inv c d T H k e w' /\ pool w' = pool w /\ conns w' = conns w) w.
Proof using Type.
  intros (p & Hp & I) [x Hx]. unfold isConnectionIdleTooLong. do 2 wp_step. destruct (_ =? _)%Z; repeat wp_step.
  - split; [by exists p|done].
  - split; [inv_ext|done].
Qed.

Lemma addToIdleList_ok c d a T H k e w :
  inv c d (a :: T) H k e w ->
  wp (addToIdleList a) (fun _ w' => inv c d T H (k + 1) e w' /\ idle_of w' = a :: idle_of w) w.
Proof using Type.
  intros (p & Hp & I). pose proof (inv_size _ _ _ _ _ _ _ _ I) as Hsz.
  unfold addToIdleList. repeat wp_step. split; [|by unfold idle_of; rewrite Hp].
  destruct I. eexists. split; [reflexivity|]. simpl in Hsz. constructor; cbn; try done.
  - rewrite iv_keys0. solve_Permutation.
  - rewrite iv_idle0, u32_small; unfold in32; lia.
  - rewrite iv_active0. f_equal. simpl. lia.
Qed.

Lemma removeFromIdleList_ok c d T H k e w :
  inv c d T H k e w ->
  wp removeFromIdleList (fun r w' =>
    match idle_of w with
    | [] => r = None /\ w' = w
    | a :: l => r = Some a /\ inv c d (a :: T) H k e w' /\ idle_of w' = l
    end) w.
Proof using Type.
  intros (p & Hp & I). pose proof (inv_size _ _ _ _ _ _ _ _ I) as Hsz. unfold removeFromIdleList, idle_of.
  rewrite Hp. do 2 wp_step. destruct (idleConns p) as [|a l] eqn:El; repeat wp_step; [done|]. split; [done|].
  split; [|done]. destruct I. eexists. split; [reflexivity|]. simpl in Hsz. constructor; cbn; try done.
  - rewrite iv_keys0, El. solve_Permutation.
  - rewrite iv_idle0, El. simpl length. rewrite u32_small; unfold in32; lia.
  - rewrite iv_active0, u32_add_l. f_equal. lia.
Qed.

Lemma inv_transit c d a T H k e w : inv c d (a :: T) H k e w -> exists x, conns w !! a = Some x.
Proof using Type. intros (p & _ & I). apply (inv_held _ _ _ _ _ _ _ _ a I), elem_of_app. right. by left. Qed.

(** Every connection the loop discards stays counted as active. *)
Lemma acquireIdle_ok c d T H k e fuel w :
  inv c d T H k e w -> length (idle_of w) <= fuel ->
  wp (acquireIdle fuel) (fun r w' => exists n : nat,
    match r with
    | Some a => inv c d (a :: T) H (k + Z.of_nat n) (e + Z.of_nat n) w'
    | None => inv c d T H (k + Z.of_nat n) (e + Z.of_nat n) w' /\ idle_of w' = [] /\ n = length (idle_of w)
    end) w.
Proof using Type.
  revert k e w. induction fuel as [|fuel IH]; intros k e w I Hf.
  { destruct I as (p & Hp & I). unfold idle_of in *. rewrite Hp in *. destruct (idleConns p) eqn:El; [|simpl in Hf; lia].
    unfold acquireIdle. do 2 wp_step. rewrite El. wp_step. exists 0. rewrite !Z.add_0_r, Hp.
    split; [by exists p|by rewrite El]. }
  pose proof (removeFromIdleList_ok _ _ _ _ _ _ _ I) as HR. destruct I as (p & Hp & I).
  unfold idle_of in HR at 1, Hf |- * at 2. rewrite Hp in HR, Hf. rewrite Hp. cbn [acquireIdle]. do 2 wp_step.
  destruct (idleConns p) as [|a l] eqn:El.
  { wp_step. exists 0. rewrite !Z.add_0_r. split; [by exists p|]. unfold idle_of. by rewrite Hp, El. }
  eapply wp_seq; [exact HR|]. intros ? w1 (-> & I1 & Hl). simpl in Hf.
  eapply wp_seq; [apply (validateConnection_ok _ _ _ _ _ _ _ a I1); by eapply inv_transit|].
  intros ok w2 (I2 & Ep & Ec). assert (Hl2 : idle_of w2 = l) by (unfold idle_of in *; by rewrite Ep).
  assert (Hdrop : forall w', inv c d (a :: T) H k e w' -> idle_of w' = l ->
    wp (destroyConnection a ≫= fun _ => acquireIdle fuel) (fun r w' => exists n : nat,
      match r with
      | Some a => inv c d (a :: T) H (k + Z.of_nat n) (e + Z.of_nat n) w'
      | None => inv c d T H (k + Z.of_nat n) (e + Z.of_nat n) w' /\ idle_of w' = [] /\ n = length (a :: l)
      end) w').
  { intros w' I' Hl'. eapply wp_seq; [by apply (destroyConnection_ok _ _ _ _ _ _ _ _ I')|].
    intros _ w3 [I3 Hl3]. eapply wp_mono; [apply (IH _ _ _ I3); rewrite Hl3, Hl'; lia|].
    intros r w4 (n & Hn). exists (S n). replace (k + Z.of_nat (S n))%Z with (k + 1 + Z.of_nat n)%Z by lia.
    replace (e + Z.of_nat (S n))%Z with (e + 1 + Z.of_nat n)%Z by lia.
    destruct r; [done|]. rewrite Hl3, Hl' in Hn. destruct Hn as (? & ? & ->). done. }
  destruct ok; cbn [negb].
  - eapply wp_seq; [apply (isConnectionExpired_ok _ _ _ _ _ _ _ a I2); by eapply inv_transit|].
    intros ex w3 (I3 & Ep3 & Ec3). destruct ex.
    + apply Hdrop; [done|]. unfold idle_of in *. by rewrite Ep3.
    + wp_step. exists 0. by rewrite !Z.add_0_r.
  - destruct I2 as (p2 & Hp2 & I2). do 2 wp_step. apply Hdrop; [inv_ext|].
    unfold idle_of in *. by rewrite Hp2 in Hl2.
Qed.

(** Changing a connection, and with it perhaps who has it. *)
Lemma set_conn_ok f c d T T' H H' k e w a :
  inv c d T H k e w -> a ∈ T ++ H -> T ++ H ≡ₚ T' ++ H' -> (forall b, b <> a -> b ∈ H <-> b ∈ H') ->
  (forall x, conns w !! a = Some x -> userConn (f x) = userConn x /\ (inUse (f x) = true <-> a ∈ H')) ->
  wp (set_conn a f) (fun _ w' => inv c d T' H' k e w') w.
Proof using Type.
  intros (p & Hp & I) Ha HP HH Hf. destruct (inv_held _ _ _ _ _ _ _ _ a I) as [x Hx].
  { apply elem_of_app. by right. }
  destruct (Hf x Hx) as [Hu Hi]. wp_step. destruct (map_to_list_update (conns w) a x (f x) Hx) as [Hk Hu'].
  eexists. split; [eassumption|]. destruct I. constructor; cbn; try done.
  - by rewrite Hk, iv_keys0, HP.
  - intros b y. destruct (decide (b = a)) as [->|Hb].
    + rewrite lookup_insert_eq. by intros [= <-].
    + rewrite lookup_insert_ne by done. intros Hy. by rewrite (iv_inUse0 b y Hy), HH.
  - by rewrite map_size_insert_Some by by eexists.
  - by rewrite map_size_insert_Some by by eexists.
  - rewrite iv_active0. f_equal. apply Permutation_length in HP. rewrite !length_app in HP. lia.
  - by rewrite Hu'.
Qed.

(** Marking it as used, for the caller or for a waiting request. *)
Lemma markUsed_ok f c d a T H k e w :
  inv c d (a :: T) H k e w -> (forall x, userConn (f x) = userConn x /\ inUse (f x) = true) ->
  wp (set_conn a f) (fun _ w' => inv c d T (a :: H) k e w') w.
Proof using Type.
  intros I Hf. apply (set_conn_ok f c d (a :: T) T H (a :: H)); [done|by left|solve_Permutation| |].
  - intros b Hb. rewrite elem_of_cons. naive_solver.
  - intros x _. destruct (Hf x) as [? ->]. split; [done|]. split; [by left|done].
Qed.

Lemma inv_owned c d a T H k e w : inv c d T (a :: H) k e w -> exists x, conns w !! a = Some x.
Proof using Type.
  intros (p & _ & I). apply (inv_held _ _ _ _ _ _ _ _ a I), elem_of_app. right. apply elem_of_app. right. by left.
Qed.

Lemma callAcquire_ok c d T H k e w a :
  inv c d T (a :: H) k e w -> wp (callAcquire a) (fun _ w' => inv c d T (a :: H) k e w') w.
Proof using Type.
  intros I. destruct (inv_owned _ _ _ _ _ _ _ _ I) as [x Hx]. destruct I as (p & Hp & I).
  unfold callAcquire. repeat wp_step; inv_ext.
Qed.

Lemma handOut_ok c d a T H k e w :
  inv c d (a :: T) H k e w -> wp (handOut a) (fun r w' => r = Some a /\ inv c d T (a :: H) k e w') w.
Proof using Type.
  intros (p & Hp & I). unfold handOut. do 3 wp_step.
  eapply wp_mono; [apply (markUsed_ok _ c d a T H k e); [inv_ext|done]|]. cbv beta. intros ? w1 I1.
  eapply wp_seq; [by apply callAcquire_ok|]. intros ? w2 (p2 & Hp2 & I2). repeat wp_step. split; [done|]. inv_ext.
Qed.

Lemma serveWaiter_ok c d a T H k e w r :
  inv c d (a :: T) H k e w -> wp (serveWaiter a r) (fun _ w' => inv c d T (a :: H) k e w') w.
Proof using Type.
  intros (p & Hp & I). unfold serveWaiter. do 3 wp_step.
  eapply wp_mono; [apply (markUsed_ok _ c d a T H k e); [inv_ext|done]|]. cbv beta. intros ? w1 I1.
  eapply wp_seq; [by apply callAcquire_ok|]. intros ? w2 (p2 & Hp2 & I2). repeat wp_step. inv_ext.
Qed.

Lemma acquire_ok c H k e w :
  inv c false [] H k e w ->
  wp (loopyConnPoolAcquire true) (fun r w' => exists n : nat,
    match r with
    | Some a => inv c false [] (a :: H) (k + Z.of_nat n) (e + Z.of_nat n) w'
    | None => inv c false [] H (k + Z.of_nat n) (e + Z.of_nat n) w' /\ idle_of w' = [] /\ n = length (idle_of w)
    end) w.
Proof using Type.
  intros I. pose proof I as (p & Hp & Ip). unfold loopyConnPoolAcquire. cbn [negb]. do 2 wp_step.
  rewrite (iv_live _ _ _ _ _ _ _ _ Ip). eapply wp_seq; [apply (acquireIdle_ok _ _ _ _ _ _ _ _ I)|].
  { unfold idle_of. by rewrite Hp. }
  intros [a|] w1 [n Hn].
  - eapply wp_mono; [by apply (handOut_ok _ _ _ _ _ _ _ _ Hn)|]. intros r w2 [-> ?]. by exists n.
  - destruct Hn as (I1 & Hl1 & Hn). eapply wp_seq; [by apply createConnection_ok|]. intros [a|] w2 [Hl2 I2].
    + destruct I2 as (p2 & Hp2 & I2). do 2 wp_step. eapply wp_mono; [apply (handOut_ok c false a [] H (k + Z.of_nat n) (e + Z.of_nat n))|].
      * eexists. split; [reflexivity|]. destruct I2. constructor; try done. cbn. rewrite iv_active0, u32_add_l. f_equal. cbn [length]. lia.
      * intros r w3 [-> ?]. by exists n.
    + destruct I2 as (p2 & Hp2 & I2). repeat wp_step. exists n. split; [inv_ext|].
      unfold idle_of in *. rewrite Hp2 in Hl2. split; [|done]. cbn. by rewrite Hl2.
Qed.

Lemma acquireAsync_ok c H k e w cb :
  inv c false [] H k e w ->
  wp (loopyConnPoolAcquireAsync true cb) (fun _ w' => exists H' (n : nat),
    inv c false [] H' (k + Z.of_nat n) (e + Z.of_nat n) w') w.
Proof using Type.
  intros I. pose proof I as (p & Hp & Ip). unfold loopyConnPoolAcquireAsync. destruct cb as [r|].
  2: { repeat wp_step. exists H, 0. rewrite !Z.add_0_r. inv_ext. }
  cbn [negb]. do 2 wp_step. rewrite (iv_live _ _ _ _ _ _ _ _ Ip).
  destruct (_ || _).
  - eapply wp_seq; [by apply acquire_ok|]. intros conn w1 (n & Hn). repeat wp_step.
    destruct conn as [a|]; [exists (a :: H), n|exists H, n; destruct Hn as [Hn _]];
      destruct Hn as (p1 & Hp1 & I1); inv_ext.
  - unfold enqueueWaitRequest. repeat wp_step.
    destruct (negb _); repeat wp_step; exists H, 0; rewrite !Z.add_0_r; inv_ext.
Qed.

Lemma replaceConnection_ok c d T H k e w :
  inv c d T H k e w -> wp replaceConnection (fun _ w' => inv c d T H k e w') w.
Proof using Type.
  intros I. pose proof I as (p & Hp & Ip). unfold replaceConnection. do 2 wp_step.
  destruct (_ <? _)%Z; [|by wp_step]. eapply wp_seq; [by apply createConnection_ok|].
  intros [a|] w1 [_ I1]; [|by wp_step]. eapply wp_mono; [by apply addToIdleList_ok|].
  intros _ w2 [I2 _]. by rewrite Z.sub_add in I2.
Qed.

(** Taking a held connection back. *)
Lemma takeBack_ok c d a T H k e w :
  inv c d T (a :: H) k e w ->
  wp (set_conn a (fun c => c <| inUse := false |>)) (fun _ w' => inv c d (a :: T) H k e w') w.
Proof using Type.
  intros I. assert (HaH : a ∉ H).
  { destruct I as (p & _ & []). assert (Hn : NoDup (idleConns p ++ T ++ a :: H)).
    { rewrite <- iv_keys0. apply NoDup_fst_map_to_list. }
    apply NoDup_app in Hn as (_ & _ & Hn). apply NoDup_app in Hn as (_ & _ & Hn). by apply NoDup_cons in Hn as [? _]. }
  apply (set_conn_ok _ c d T (a :: T) (a :: H) H); [done|apply elem_of_app; right; by left|solve_Permutation| |done].
  intros b Hb. rewrite elem_of_cons. naive_solver.
Qed.

Lemma returnToIdle_ok c d T H k e w a :
  inv c d (a :: T) H k e w -> wp (returnToIdle a) (fun _ w' => inv c d T H k e w') w.
Proof using Type.
  intros I. unfold returnToIdle. do 2 wp_step.
  eapply wp_seq; [apply (set_conn_ok _ c d (a :: T) (a :: T) H H k e); [|by left|done..|]|].
  { destruct I as (p & Hp & I). inv_ext. }
  { intros y Hy. split; [done|]. destruct I as (p & Hp & I). exact (iv_inUse _ _ _ _ _ _ _ _ I a y Hy). }
  intros ? w1 (p1 & Hp1 & I1). do 2 wp_step. eapply wp_mono; [apply (addToIdleList_ok c d a T H (k - 1) e)|].
  - eexists. split; [reflexivity|]. destruct I1. constructor; try done. cbn. rewrite iv_active0, u32_sub_l. f_equal. cbn [length]. lia.
  - intros _ w2 [I2 _]. by rewrite Z.sub_add in I2.
Qed.

Lemma dequeue_ok c d T H k e w :
  inv c d T H k e w -> wp dequeueWaitRequest (fun _ w' => inv c d T H k e w') w.
Proof using Type.
  intros (p & Hp & I). unfold dequeueWaitRequest. do 2 wp_step. destruct (waitQueue p); repeat wp_step; inv_ext.
Qed.

Lemma callRelease_ok c d a T H k e w :
  inv c d (a :: T) H k e w -> wp (callRelease a) (fun _ w' => inv c d (a :: T) H k e w') w.
Proof using Type.
  intros I. destruct (inv_transit _ _ _ _ _ _ _ _ I) as [x Hx]. destruct I as (p & Hp & I).
  unfold callRelease. repeat wp_step; inv_ext.
Qed.

Lemma release_ok c H k e w a healthy :
  inv c false [] (a :: H) k e w ->
  wp (loopyConnPoolRelease (Some a) healthy) (fun _ w' => exists H' e', inv c false [] H' k e' w') w.
Proof using Type.
  intros I. unfold loopyConnPoolRelease. eapply wp_seq; [by apply takeBack_ok|]. cbv beta. intros ? w1 I1.
  eapply wp_seq; [by apply callRelease_ok|]. cbv beta. intros ? w2 (p2 & Hp2 & I2). do 4 wp_step.
  cbn. rewrite (iv_live _ _ _ _ _ _ _ _ I2).
  assert (I3 : inv c false [a] H k e (w2 <| pool := Some (p2 <| totalReleases ::= fun n => n +64 1 |>) |>)) by inv_ext.
  revert I3. generalize (w2 <| pool := Some (p2 <| totalReleases ::= fun n => n +64 1 |>) |>). clear.
  intros w I. wp_step. eapply (wp_mono _ (fun _ w' => inv c false [a] H k e w')).
  { destruct healthy; cbn [negb]; [|by wp_step].
    eapply wp_mono; [by apply isConnectionExpired_ok; [|by eapply inv_transit]|]. by intros ? ? (? & _). }
  clear w I. intros expired w I. destruct expired.
  - destruct I as (p & Hp & I). do 2 wp_step.
    eapply wp_seq; [apply (destroyConnection_ok c false a [] H (k - 1) e)|].
    { eexists. split; [reflexivity|]. destruct I. constructor; try done. cbn. rewrite iv_active0, u32_sub_l. f_equal.
      cbn [length]. lia. }
    intros _ w3 [I3 _]. eapply wp_mono; [by apply replaceConnection_ok|]. cbv beta. intros ? w4 I4.
    rewrite Z.sub_add in I4. by exists H, (e + 1)%Z.
  - eapply wp_seq; [by apply dequeue_ok|]. cbv beta. intros [r|] w1 I1.
    + eapply wp_mono; [by apply serveWaiter_ok|]. cbv beta. intros ? w2 I2. by exists (a :: H), e.
    + eapply wp_mono; [by apply returnToIdle_ok|]. cbv beta. intros ? w2 I2. by exists H, e.
Qed.

(** *** Maintenance *)

Lemma unlinkIdle_ok c d T H k e w a kept l :
  inv c d T H k e w -> idle_of w = kept ++ a :: l ->
  wp (unlinkIdle kept l) (fun _ w' => inv c d (a :: T) H (k - 1) e w' /\ idle_of w' = kept ++ l) w.
Proof using Type.
  intros (p & Hp & I) Hl. unfold idle_of in Hl. rewrite Hp in Hl. unfold unlinkIdle. wp_step.
  pose proof (inv_size _ _ _ _ _ _ _ _ I) as Hsz. split; [|done]. destruct I.
  eexists. split; [reflexivity|]. constructor; cbn; try done.
  - rewrite iv_keys0, Hl. solve_Permutation.
  - rewrite iv_idle0, Hl in *. rewrite !length_app in *. cbn [length] in *. rewrite u32_small; unfold in32; lia.
  - rewrite iv_active0. f_equal. lia.
Qed.

Lemma inv_idle c d T H k e w a : inv c d T H k e w -> a ∈ idle_of w -> exists x, conns w !! a = Some x.
Proof using Type.
  intros (p & Hp & I) Ha. unfold idle_of in Ha. rewrite Hp in Ha.
  apply (inv_held _ _ _ _ _ _ _ _ a I), elem_of_app. by left.
Qed.

Lemma idle_of_pool w w' : pool w' = pool w -> idle_of w' = idle_of w.
Proof using Type. unfold idle_of. by intros ->. Qed.

(** An idle connection is taken out and destroyed. *)
Lemma drop_idle_ok {A} c d T H k e w a kept l (m : prog world A) Q :
  inv c d T H k e w -> idle_of w = kept ++ a :: l ->
  (forall w', inv c d T H k (e + 1) w' -> idle_of w' = kept ++ l -> wp m Q w') ->
  wp (unlinkIdle kept l ≫= fun _ => destroyConnection a ≫= fun _ => m) Q w.
Proof using Type.
  intros I Hl Hm. eapply wp_seq; [by eapply unlinkIdle_ok|]. intros _ w1 [I1 Hl1].
  eapply wp_seq; [by apply destroyConnection_ok|]. intros _ w2 [I2 Hl2].
  rewrite Z.sub_add in I2. apply Hm; [done|congruence].
Qed.

Lemma healthLoop_ok c d T H k kept l n e w :
  inv c d T H k e w -> idle_of w = kept ++ l ->
  wp (healthLoop kept l n) (fun _ w' => exists e', inv c d T H k e' w') w.
Proof using Type.
  revert kept n e w. induction l as [|a l IH]; intros kept n e w I Hl; cbn [healthLoop]; [wp_step; by exists e|].
  eapply wp_seq; [apply (validateConnection_ok _ _ _ _ _ _ _ a I)|].
  { apply (inv_idle _ _ _ _ _ _ _ _ I). rewrite Hl. apply elem_of_app. right. by left. }
  intros ok w1 (I1 & Ep & _). rewrite <- (idle_of_pool _ _ Ep) in Hl. destruct ok; cbn [negb].
  - apply (IH _ _ e); [done|]. by rewrite <- app_assoc.
  - eapply wp_seq; [by apply (unlinkIdle_ok c d T H k e w1 a)|]. intros _ w2 [(p2 & Hp2 & I2) Hl2].
    do 2 wp_step. eapply wp_seq; [apply (destroyConnection_ok c d a T H (k - 1) e); inv_ext|].
    intros _ w3 [I3 Hl3]. rewrite Z.sub_add in I3. eapply IH; [done|]. rewrite Hl3.
    unfold idle_of in *. by rewrite Hp2 in Hl2.
Qed.

Lemma cleanupLoop_ok c d T H k kept l n e w :
  inv c d T H k e w -> idle_of w = kept ++ l ->
  wp (cleanupLoop kept l n) (fun _ w' => exists e', inv c d T H k e' w') w.
Proof using Type.
  revert kept n e w. induction l as [|a l IH]; intros kept n e w I Hl; cbn [cleanupLoop]; [wp_step; by exists e|].
  eapply wp_seq; [apply (isConnectionIdleTooLong_ok _ _ _ _ _ _ _ a I)|].
  { apply (inv_idle _ _ _ _ _ _ _ _ I). rewrite Hl. apply elem_of_app. right. by left. }
  intros long w1 (I1 & Ep & _). rewrite <- (idle_of_pool _ _ Ep) in Hl. pose proof I1 as (p1 & Hp1 & _).
  do 2 wp_step. destruct (_ && _).
  - eapply drop_idle_ok; [done|done|]. intros w2 I2 Hl2. by eapply IH.
  - apply (IH _ _ e); [done|]. by rewrite <- app_assoc.
Qed.

Lemma healthCheck_ok c d T H k e w :
  inv c d T H k e w -> wp (loopyConnPoolHealthCheck true) (fun _ w' => exists e', inv c d T H k e' w') w.
Proof using Type.
  intros I. pose proof I as (p & Hp & _). unfold loopyConnPoolHealthCheck. cbn [negb]. do 2 wp_step.
  destruct (destroyed p); [wp_step; by exists e|]. eapply healthLoop_ok; [done|]. unfold idle_of. by rewrite Hp.
Qed.

Lemma cleanupIdle_ok c d T H k e w :
  inv c d T H k e w -> wp (loopyConnPoolCleanupIdle true) (fun _ w' => exists e', inv c d T H k e' w') w.
Proof using Type.
  intros I. pose proof I as (p & Hp & _). unfold loopyConnPoolCleanupIdle. cbn [negb]. do 2 wp_step.
  destruct (destroyed p); [wp_step; by exists e|]. eapply cleanupLoop_ok; [done|]. unfold idle_of. by rewrite Hp.
Qed.

Lemma prewarmLoop_ok c d T H k e n made w :
  inv c d T H k e w -> (0 <= made)%Z -> (made + Z.of_nat n < w32)%Z ->
  wp (prewarmLoop n made) (fun r w' => inv c d T H k e w' /\ (made <= r <= made + Z.of_nat n)%Z /\
    (Z.of_nat (length (idle_of w')) - Z.of_nat (length (idle_of w)) = r - made)%Z) w.
Proof using Type.
  revert made w. induction n as [|n IH]; intros made w I Hm Hn; cbn [prewarmLoop]; [wp_step; split; [done|lia]|].
  pose proof I as (p & Hp & _). do 2 wp_step. destruct (_ <? _)%Z; [|wp_step; split; [done|lia]].
  eapply wp_seq; [by apply createConnection_ok|]. intros [a|] w1 [Hl1 I1]; [|wp_step; split; [done|rewrite Hl1; lia]].
  eapply wp_seq; [by apply addToIdleList_ok|]. intros _ w2 [I2 Hl2]. rewrite Z.sub_add in I2.
  assert (Eu : (made +32 1) = (made + 1)%Z) by (apply u32_small; unfold in32; lia). rewrite Eu.
  eapply wp_mono; [apply IH; [done|lia|lia]|]. intros r w3 (I3 & Hr & Hl3). rewrite Hl2, Hl1 in Hl3.
  cbn [length] in Hl3. split; [done|]. lia.
Qed.

Lemma prewarm_ok c d T H k e w count :
  inv c d T H k e w -> in32 count -> in32 (minIdle c) ->
  wp (loopyConnPoolPrewarm true count) (fun r w' => inv c d T H k e w' /\
    (d = false -> (Z.of_nat (length (idle_of w')) - Z.of_nat (length (idle_of w)) = r /\ 0 <= r /\ (count <> 0 -> r <= count))%Z)) w.
Proof using Type.
  intros I Hc Hm. pose proof I as (p & Hp & Ip). unfold loopyConnPoolPrewarm. cbn [negb]. do 2 wp_step.
  rewrite (iv_live _ _ _ _ _ _ _ _ Ip), (iv_config _ _ _ _ _ _ _ _ Ip). unfold in32 in *. destruct d; [by wp_step|].
  eapply wp_mono; [apply prewarmLoop_ok; [done|lia|destruct (_ =? _)%Z; lia]|].
  intros r w1 (I1 & Hr & Hl). split; [done|]. intros _. split; [lia|]. split; [lia|]. intros Hc0.
  apply Z.eqb_neq in Hc0. rewrite Hc0 in Hr. lia.
Qed.

(** *** Destruction *)

Lemma freeIdle_ok c d T H k e fuel w :
  inv c d T H k e w -> length (idle_of w) <= fuel ->
  wp (freeIdle fuel) (fun _ w' => exists k' e', inv c d T H k' e' w' /\ idle_of w' = []) w.
Proof using Type.
  revert k e w. induction fuel as [|fuel IH]; intros k e w I Hf;
    pose proof (removeFromIdleList_ok _ _ _ _ _ _ _ I) as HR; pose proof I as (p & Hp & _);
    unfold idle_of in HR at 1, Hf; rewrite Hp in HR, Hf; cbn [freeIdle]; do 2 wp_step;
    (destruct (idleConns p) as [|a l] eqn:El; [wp_step; exists k, e; split; [done|]; unfold idle_of; by rewrite Hp|]);
    [simpl in Hf; lia|].
  eapply wp_seq; [exact HR|]. intros ? w1 (-> & I1 & Hl). simpl in Hf.
  eapply wp_seq; [by apply destroyConnection_ok|]. intros _ w2 [I2 Hl2]. eapply IH; [done|]. rewrite Hl2, Hl. lia.
Qed.

Lemma freeWaiters_ok c d T H k e fuel w p :
  inv c d T H k e w -> pool w = Some p -> length (waitQueue p) <= fuel ->
  wp (freeWaiters fuel) (fun _ w' => inv c d T H k e w' /\ idle_of w' = idle_of w) w.
Proof using Type.
  revert w p. induction fuel as [|fuel IH]; intros w p I Hp Hf; cbn [freeWaiters]; do 2 wp_step;
    (destruct (waitQueue p) as [|r q] eqn:Eq; [by wp_step|]); [simpl in Hf; lia|].
  unfold dequeueWaitRequest. do 3 wp_step. rewrite Eq. repeat wp_step.
  destruct I as (p' & Hp' & I). assert (p' = p) as -> by congruence.
  eapply wp_mono; [eapply IH; [|reflexivity|]|].
  - inv_ext.
  - cbn. simpl in Hf. lia.
  - cbv beta. intros ? w2 [I2 Hl2]. split; [done|]. rewrite Hl2. unfold idle_of. by rewrite Hp.
Qed.

(** Freeing destroys every connection but those the program holds. *)
Lemma free_ok c d H k e w :
  inv c d [] H k e w ->
  wp (loopyConnPoolFree true) (fun _ w' => pool w' = None /\ (map_to_list (conns w')).*1 ≡ₚ H /\
    created_of (trace w') ≡ₚ destroyed_of (trace w') ++ users (conns w')) w.
Proof using Type.
  intros (p & Hp & I). unfold loopyConnPoolFree. cbn [negb]. do 4 wp_step.
  assert (I1 : inv c true [] H k e (w <| pool := Some (p <| destroyed := true |> <| healthCheckTimer := None |>
                 <| idleCleanupTimer := None |>) |>)).
  { eexists. split; [reflexivity|]. by destruct I. }
  eapply wp_seq; [apply (freeIdle_ok _ _ _ _ _ _ _ _ I1); done|]. cbv beta. intros ? w2 (k2 & e2 & I2 & Hl2).
  pose proof I2 as (p2 & Hp2 & _). do 2 wp_step.
  eapply wp_seq; [by apply (freeWaiters_ok _ _ _ _ _ _ _ _ _ I2 Hp2)|]. cbv beta. intros ? w3 [(p3 & Hp3 & I3) Hl3].
  wp_step. split; [done|]. rewrite Hl2 in Hl3. unfold idle_of in Hl3. rewrite Hp3 in Hl3. destruct I3. cbn.
  by rewrite iv_keys0, Hl3.
Qed.

Lemma newTimer_ok c T H k e w period f :
  inv c false T H k e w ->
  (forall t p, idleConns (f t p) = idleConns p /\ totalConns (f t p) = totalConns p /\ idleCount (f t p) = idleCount p /\
     activeCount (f t p) = activeCount p /\ totalDestroys (f t p) = totalDestroys p /\ config (f t p) = config p /\
     destroyed (f t p) = destroyed p) ->
  wp (newTimer period f) (fun _ w' => inv c false T H k e w' /\ idle_of w' = idle_of w) w.
Proof using Type.
  intros (p & Hp & I) Hf. unfold newTimer. do 2 wp_step. destruct (negb _); repeat wp_step; (split; [|done || idtac]).
  - inv_ext.
  - destruct (Hf (Some period) p) as (? & ? & ? & ? & ? & ? & ?). inv_ext.
  - destruct (Hf (Some period) p) as (E & _). unfold idle_of. by rewrite Hp.
Qed.

Definition empty_world (w : world) : Prop := pool w = None /\ conns w = ∅ /\ trace w = [].

(** What [loopyConnPoolNew] leaves when it fails. *)
Definition clean (w : world) : Prop :=
  pool w = None /\ conns w = ∅ /\ created_of (trace w) ≡ₚ destroyed_of (trace w).

Definition config_ok (c : loopyConnPoolConfig) : Prop := in32 (minIdle c) /\ in32 (maxTotal c).

Lemma inv_empty c d w : inv c d [] [] 0 0 w -> idle_of w = [] -> conns w = ∅.
Proof using Type.
  intros (p & Hp & []) Hl. unfold idle_of in Hl. rewrite Hp in Hl. rewrite Hl in iv_keys0. simpl in iv_keys0.
  symmetry in iv_keys0. apply Permutation_nil in iv_keys0. apply fmap_nil_inv in iv_keys0. by apply map_to_list_empty_iff.
Qed.

Lemma users_empty : users ∅ = [].
Proof using Type. unfold users. by rewrite map_to_list_empty. Qed.

(** A failure after the pool was allocated but before connections were made. *)
Lemma failNew_ok c w msg Q : inv c false [] [] 0 0 w -> idle_of w = [] -> (forall w', clean w' -> Q false w') ->
  wp (failNew msg) Q w.
Proof using Type.
  intros I Hl HQ. pose proof (inv_empty _ _ _ I Hl) as Hc. destruct I as (p & Hp & []).
  unfold failNew. repeat wp_step. apply HQ. split; [done|]. split; [done|]. cbn.
  by rewrite iv_users0, Hc, users_empty, app_nil_r.
Qed.

Lemma optional_timer_ok c T H k e w (b : bool) period f :
  inv c false T H k e w ->
  (forall t p, idleConns (f t p) = idleConns p /\ totalConns (f t p) = totalConns p /\ idleCount (f t p) = idleCount p /\
     activeCount (f t p) = activeCount p /\ totalDestroys (f t p) = totalDestroys p /\ config (f t p) = config p /\
     destroyed (f t p) = destroyed p) ->
  wp (if b then newTimer period f else mret true) (fun _ w' => inv c false T H k e w' /\ idle_of w' = idle_of w) w.
Proof using Type. intros I Hf. destruct b; [by apply newTimer_ok|by wp_step]. Qed.

Lemma pool_created_ok loop cfg createCb destroyCb v w :
  empty_world w -> (forall c, cfg = Some c -> config_ok c) ->
  wp (loopyConnPoolNew loop cfg createCb destroyCb v) (fun ok w' =>
    if ok then exists c, cfg = Some c /\ inv c false [] [] 0 0 w' /\ Z.of_nat (length (idle_of w')) = minIdle c
    else clean w') w.
Proof using Type.
  intros (Hp & Hc & Ht) Hcfg. unfold loopyConnPoolNew.
  assert (Hclean : forall w', pool w' = None -> conns w' = ∅ -> trace w' = [] -> clean w').
  { intros w' ? ? Hw. split; [done|]. split; [done|]. by rewrite Hw. }
  destruct loop; cbn [negb]; [|repeat wp_step; by apply Hclean].
  destruct cfg as [c|]; [|repeat wp_step; by apply Hclean]. destruct (Hcfg c eq_refl) as [Hmin Hmax]. unfold in32 in *.
  destruct (_ || _); [repeat wp_step; by apply Hclean|]. do 2 wp_step.
  destruct (negb _); [repeat wp_step; by apply Hclean|]. do 3 wp_step.
  match goal with |- wp _ _ ?w0 => assert (I0 : inv c false [] [] 0 0 w0 /\ idle_of w0 = []) end.
  { split; [|done]. eexists. split; [reflexivity|]. constructor; cbn; try done; rewrite ?Hc, ?Ht, ?users_empty;
      rewrite ?map_to_list_empty, ?map_size_empty; try done. }
  destruct I0 as [I0 Hl0]. eapply wp_mono; [by apply (optional_timer_ok _ _ _ _ _ _ _ _ _ I0)|].
  cbv beta. intros ok1 w1 [I1 Hl1]. rewrite Hl0 in Hl1. destruct ok1; cbn [negb]; [|by eapply failNew_ok].
  wp_step. eapply wp_mono; [by apply (optional_timer_ok _ _ _ _ _ _ _ _ _ I1)|].
  cbv beta. intros ok2 w2 [I2 Hl2]. rewrite Hl1 in Hl2. destruct ok2; cbn [negb]; [|by eapply failNew_ok].
  destruct (minIdle c >? 0)%Z eqn:Em; bool_to_prop.
  - eapply wp_seq; [by apply (prewarm_ok c false [] [] 0 0)|]. intros made w3 [I3 Hm]. destruct (Hm eq_refl) as (Hm1 & Hm2 & Hm3).
    rewrite Hl2 in Hm1. cbn in Hm1. destruct (made <? minIdle c)%Z eqn:Emade; bool_to_prop.
    + eapply wp_seq; [by apply (free_ok _ _ _ _ _ _ I3)|]. cbv beta. intros ? w4 (Hp4 & Hk4 & Hu4). repeat wp_step.
      symmetry in Hk4. apply Permutation_nil, fmap_nil_inv, map_to_list_empty_iff in Hk4. split; [done|]. split; [done|]. cbn.
      by rewrite Hu4, Hk4, users_empty, app_nil_r.
    + repeat wp_step. exists c. split; [done|]. split; [destruct I3 as (p3 & Hp3 & I3); inv_ext|].
      change (idle_of (w3 <| lastError := "" |>)) with (idle_of w3). lia.
  - repeat wp_step. exists c. split; [done|]. split; [destruct I2 as (p2 & Hp2 & I2); inv_ext|].
    assert (idle_of (w2 <| lastError := "" |>) = []) as -> by done. simpl. lia.
Qed.
End Invariant.

(** ** Using a pool *)

Inductive pool_op :=
| OAcquire
| OAcquireAsync (r : nat)
| ORelease (a : nat) (healthy : bool)
| OHealthCheck
| OCleanupIdle
| OPrewarm (count : Z)
| OSetAcquire (cb : bool)
| OSetRelease (cb : bool).

Section Usage.
Context `{Env : Environment}.

(** A program releases the connections it holds and no others; timers call the
    maintenance operations. *)
Definition pool_do (op : pool_op) : prog world unit :=
  match op with
  | OAcquire => loopyConnPoolAcquire true ≫= fun _ => mret tt
  | OAcquireAsync r => loopyConnPoolAcquireAsync true (Some r) ≫= fun _ => mret tt
  | ORelease a healthy =>
      w ← get;
      match conns w !! a with
      | Some x => pwhen (inUse x) (loopyConnPoolRelease (Some a) healthy)
      | None => mret tt
      end
  | OHealthCheck => loopyConnPoolHealthCheck true ≫= fun _ => mret tt
  | OCleanupIdle => loopyConnPoolCleanupIdle true ≫= fun _ => mret tt
  | OPrewarm count => loopyConnPoolPrewarm true (u32 count) ≫= fun _ => mret tt
  | OSetAcquire cb => loopyConnPoolSetAcquireCallback true cb
  | OSetRelease cb => loopyConnPoolSetReleaseCallback true cb
  end.

Fixpoint pool_run (ops : list pool_op) : prog world unit :=
  match ops with [] => mret tt | op :: ops => pool_do op ≫= fun _ => pool_run ops end.

Lemma pool_do_ok c H k e w op : in32 (minIdle c) -> inv c false [] H k e w ->
  wp (pool_do op) (fun _ w' => exists H' (n : nat) e', inv c false [] H' (k + Z.of_nat n) e' w') w.
Proof using Type.
  intros Hmin I. assert (Hsame : forall w' e', inv c false [] H k e' w' ->
    exists H' (n : nat) e', inv c false [] H' (k + Z.of_nat n) e' w').
  { intros w' e' I'. exists H, 0, e'. by rewrite Z.add_0_r. }
  destruct op as [|r|a healthy| | |count|cb|cb]; cbn [pool_do].
  - eapply wp_seq; [by apply acquire_ok|]. intros [a|] w1 [n I1]; wp_step; [by eexists _, n, _|].
    destruct I1 as [I1 _]. by eexists _, n, _.
  - eapply wp_seq; [by eapply acquireAsync_ok|]. intros ? w1 (H' & n & I1). wp_step. by eexists _, n, _.
  - do 2 wp_step. destruct (conns w !! a) as [x|] eqn:Ha; [|wp_step; by apply (Hsame _ e)].
    destruct (inUse x) eqn:Eu; unfold pwhen; [|wp_step; by apply (Hsame _ e)].
    assert (HaH : a ∈ H) by (destruct I as (p & _ & []); by apply (iv_inUse0 a x)).
    apply elem_of_Permutation in HaH as [H0 HP].
    eapply wp_mono; [apply (release_ok c H0 k e); by eapply inv_perm|].
    intros ? w1 (H' & e' & I'). exists H', 0, e'. by rewrite Z.add_0_r.
  - eapply wp_seq; [by eapply healthCheck_ok|]. intros ? w1 (e' & I'). wp_step. by eapply Hsame.
  - eapply wp_seq; [by eapply cleanupIdle_ok|]. intros ? w1 (e' & I'). wp_step. by eapply Hsame.
  - eapply wp_seq; [apply (prewarm_ok _ _ _ _ _ _ _ _ I); [apply u32_range|done]|].
    intros ? w1 [I1 _]. wp_step. by eapply Hsame.
  - destruct I as (p & Hp & I). unfold loopyConnPoolSetAcquireCallback, pwhen. wp_step. eapply Hsame. inv_ext.
  - destruct I as (p & Hp & I). unfold loopyConnPoolSetReleaseCallback, pwhen. wp_step. eapply Hsame. inv_ext.
Qed.

Lemma pool_run_ok c ops H k e w : in32 (minIdle c) -> inv c false [] H k e w ->
  wp (pool_run ops) (fun _ w' => exists H' (n : nat) e', inv c false [] H' (k + Z.of_nat n) e' w') w.
Proof using Type.
  intros Hmin. revert H k e w. induction ops as [|op ops IH]; intros H k e w I; cbn [pool_run].
  { wp_step. exists H, 0, e. by rewrite Z.add_0_r. }
  eapply wp_seq; [by apply (pool_do_ok c H k e w)|]. intros ? w1 (H1 & n1 & e1 & I1).
  eapply wp_mono; [by apply (IH _ _ _ _ I1)|]. intros ? w2 (H2 & n2 & e2 & I2). exists H2, (n1 + n2), e2.
  by rewrite Nat2Z.inj_add, Z.add_assoc.
Qed.

(** C20. A pool used in any way by a program that releases only what it holds,
    in any environment: creation fails cleanly, every connection it made
    destroyed, or leaves minIdle idle connections; from then on no freed
    connection is touched, there are never more than maxTotal connections, each
    is idle or held and never both, totalConns and idleCount are exact, every
    user connection made is live or was destroyed, exactly once, and
    activeCount never falls below the connections held. *)
Theorem conn_pool_accounts cfg createCb destroyCb v ops w :
  empty_world w -> config_ok cfg ->
  exists ok w1, loopyConnPoolNew true (Some cfg) createCb destroyCb v w = Some (ok, w1) /\
    if (ok : bool) then
      Z.of_nat (length (idle_of w1)) = minIdle cfg /\
      exists w2 held (leaked : nat) e, pool_run ops w1 = Some (tt, w2) /\ inv cfg false [] held (Z.of_nat leaked) e w2
    else clean w1.
Proof using Type.
  intros Hw Hcfg. destruct (wp_run _ _ _ (pool_created_ok true (Some cfg) createCb destroyCb v w Hw ltac:(by intros ? [= <-])))
    as (ok & w1 & E & HP). exists ok, w1. split; [done|]. destruct ok; [|done]. destruct HP as (c & [= <-] & I & Hl).
  split; [done|]. destruct (wp_run _ _ _ (pool_run_ok cfg ops _ _ _ _ (proj1 Hcfg) I)) as ([] & w2 & E2 & H & n & e & I2).
  by exists w2, H, n, e.
Qed.

(** An acquisition takes the first idle connection that is valid and not
    too old, and otherwise makes one unless the pool is full; each of the [n]
    it discards on the way is destroyed but stays in activeCount for ever. *)
Theorem conn_pool_acquire cfg held leaked e w :
  inv cfg false [] held leaked e w ->
  exists r w' (n : nat), loopyConnPoolAcquire true w = Some (r, w') /\
    match r with
    | Some a => inv cfg false [] (a :: held) (leaked + Z.of_nat n) (e + Z.of_nat n) w'
    | None => inv cfg false [] held (leaked + Z.of_nat n) (e + Z.of_nat n) w' /\ idle_of w' = [] /\ n = length (idle_of w)
    end.
Proof using Type. intros I. destruct (wp_run _ _ _ (acquire_ok _ _ _ _ _ I)) as (r & w' & E & n & HP). by exists r, w', n. Qed.

(** Freeing a pool destroys its idle connections and frees the pool;
    releasing a connection that was held then reads the freed pool. *)
Theorem conn_pool_free_dangling cfg d held leaked e w a healthy :
  inv cfg d [] held leaked e w -> a ∈ held ->
  exists w', loopyConnPoolFree true w = Some (tt, w') /\ (map_to_list (conns w')).*1 ≡ₚ held /\
    created_of (trace w') ≡ₚ destroyed_of (trace w') ++ users (conns w') /\
    loopyConnPoolRelease (Some a) healthy w' = None.
Proof using Type.
  intros I Ha. destruct (wp_run _ _ _ (free_ok _ _ _ _ _ _ I)) as ([] & w' & E & Hp & Hk & Hu). exists w'.
  split_and!; try done. rewrite <- Hk in Ha. apply list_elem_of_fmap in Ha as ([b x] & -> & Hb).
  apply elem_of_map_to_list in Hb. unfold loopyConnPoolRelease, set_conn, the_conn, callRelease, the_pool.
  unfold mbind, prog_bind, get. simpl. rewrite Hb. cbn. by rewrite Hp.
Qed.
End Usage.

(** ** An environment to run a pool in

    Everything succeeds, except that validation fails for one connection. *)
#[local] Instance plain : Environment := {|
  clock _ := 0%Z; created k := Some k; valid _ u := negb (u =? 6); allocOk _ := true |}.

Definition start : world := World None ∅ 0 "" [].
Definition two_idle : loopyConnPoolConfig := ConnPoolConfig 2 4 30000000 0 60000000 0.

(** Two idle connections, one stale: after one acquisition and its release the
    pool still counts an active connection although all are idle. *)
Lemma conn_pool_accounts_witness :
  exists w1 w2 held leaked e, loopyConnPoolNew true (Some two_idle) true true true start = Some (true, w1) /\
    pool_run [OAcquire; ORelease 0 true] w1 = Some (tt, w2) /\ inv two_idle false [] held (Z.of_nat leaked) e w2 /\
    (activeCount <$> pool w2) = Some 1%Z /\ (idleCount <$> pool w2) = Some 1%Z /\ (totalConns <$> pool w2) = Some 1%Z.
Proof.
  destruct (conn_pool_accounts two_idle true true true [OAcquire; ORelease 0 true] start) as (ok & w1 & E & HP); [done..|].
  pose proof E as E'. vm_compute in E'. injection E' as <- <-. destruct HP as (_ & w2 & held & leaked & e & E2 & I).
  eexists _, w2, held, leaked, e. split; [exact E|]. split; [exact E2|]. split; [exact I|].
  vm_compute in E2. injection E2 as <-. done.
Defined.

Lemma conn_pool_acquire_witness :
  exists w e w' n, loopyConnPoolAcquire true w = Some (Some 0, w') /\
    inv two_idle false [] [] 0 0 w /\ inv two_idle false [] [0] (0 + Z.of_nat n) (e + Z.of_nat n) w' /\
    (totalDestroys <$> pool w') = Some 1%Z.
Proof.
  destruct (wp_run _ _ _ (pool_created_ok true (Some two_idle) true true true start ltac:(done) ltac:(by intros ? [= <-])))
    as (ok & w & E & HP).
  vm_compute in E. injection E as <- <-. destruct HP as (c & [= <-] & I & _).
  destruct (conn_pool_acquire two_idle [] 0 0 _ I) as (r & w' & n & E & HP).
  pose proof E as E'. vm_compute in E'. injection E' as <- <-. eexists _, 0%Z, _, n. split; [exact E|]. by split.
Defined.

Lemma conn_pool_free_dangling_witness :
  exists w w' held, loopyConnPoolFree true w = Some (tt, w') /\ 0 ∈ held /\ (map_to_list (conns w')).*1 ≡ₚ held /\
    loopyConnPoolRelease (Some 0) true w' = None.
Proof.
  destruct (wp_run _ _ _ (pool_created_ok true (Some two_idle) true true true start ltac:(done) ltac:(by intros ? [= <-])))
    as (ok & w & E & HP).
  vm_compute in E. injection E as <- <-. destruct HP as (c & [= <-] & I & _).
  destruct (wp_run _ _ _ (acquire_ok _ _ _ _ _ I)) as (r & w1 & E & n & I1).
  vm_compute in E. injection E as <- <-.
  destruct (conn_pool_free_dangling two_idle false [0] _ _ _ 0 true I1 ltac:(by left)) as (w2 & E2 & Hk & _ & Hr).
  eexists _, w2, [0]. split; [exact E2|]. split; [by left|]. by split.
Defined.

(** A request that waits is served only by a healthy release: after an
    unhealthy one the pool has room, but nobody answers the request. *)
Lemma waiter_not_served :
  (fun '(_, w) => (waitQueue <$> pool w, totalConns <$> pool w)) <$>
    (loopyConnPoolNew true (Some (ConnPoolConfig 0 1 0 0 0 0)) true true true ≫= fun _ =>
     pool_run [OAcquire; OAcquireAsync 7; ORelease 0 false; OHealthCheck; OCleanupIdle]) start =
  Some (Some [7], Some 0%Z).
Proof. vm_compute. reflexivity. Qed.

(** Failed allocation of a wait request: answered with success, never served. *)
Lemma lost_request :
  let E := {| clock _ := 0%Z; created k := Some k; valid _ _ := true; allocOk _ := false |} in
  (fun '(ok, w) => (ok, waitQueue <$> pool w, trace w)) <$> @loopyConnPoolAcquireAsync E true (Some 7)
      (World (Some (ConnPool (ConnPoolConfig 0 0 0 0 0 0) true false false [] 0 0 0 [] None None 0 0 0 0 0 0 false)) ∅ 0 "" [])
    = Some (true, Some [], []).
Proof. vm_compute. reflexivity. Qed.
