(* ===== verification/Cluster.v ===== *)
(** * Cluster registry ([src/loopyClusterRegistry.c])

    The registry of nodes and the configuration store, both over the radix
    tree [Rax], with the heaps of node and entry structures.  The clock and the
    allocations answer from an oracle ([ClusterEnv]); the failure of an
    insertion into a radix tree is that of an allocation.  Node handles are
    addresses: using one after the node was unregistered is undefined.

    The specification ([clspec], [cl_trans]) is a map of nodes and a map of values
    with their times of expiry: for each operation what it answers, what it leaves
    and what it tells, as a function of the state, the reading of the clock and the
    answers of the allocations. *)

From S2P Require Import Prelude Rax.

Local Open Scope nat_scope.

(** ** Data *)

Inductive loopyNodeState :=
| LOOPY_NODE_UNKNOWN | LOOPY_NODE_JOINING | LOOPY_NODE_ACTIVE | LOOPY_NODE_DRAINING | LOOPY_NODE_LEAVING
| LOOPY_NODE_FAILED.

#[export] Instance loopyNodeState_eq_dec : EqDecision loopyNodeState.
Proof. solve_decision. Defined.

Definition LOOPY_ROLE_NONE : Z := 0.
Definition LOOPY_ROLE_WORKER : Z := 1.
Definition LOOPY_ROLE_LEADER : Z := 2.
Definition LOOPY_ROLE_CANDIDATE : Z := 4.
Definition LOOPY_ROLE_OBSERVER : Z := 8.

Inductive loopyClusterEventType :=
| LOOPY_CLUSTER_NODE_JOINED | LOOPY_CLUSTER_NODE_LEFT | LOOPY_CLUSTER_NODE_FAILED | LOOPY_CLUSTER_NODE_STATE
| LOOPY_CLUSTER_CONFIG_CHANGE | LOOPY_CLUSTER_LEADER_CHANGE.

(** What a node's structure and [loopyNodeInfo], its copy for callbacks, hold. *)
Record loopyClusterNode := ClusterNode {
  nodeId : string;
  address : option string;
  state : loopyNodeState;
  roles : Z;
  joinTime : Z;
  lastSeen : Z;
  userData : nat
}.

#[export] Instance ClusterNode_rebuild : Rebuild loopyClusterNode := fun n =>
  ClusterNode (nodeId n) (address n) (state n) (roles n) (joinTime n) (lastSeen n) (userData n).

Record loopyNodeInfo := NodeInfo {
  i_nodeId : string;
  i_address : option string;
  i_state : loopyNodeState;
  i_roles : Z;
  i_joinTime : Z;
  i_lastSeen : Z;
  i_userData : nat
}.

Record configEntry := ConfigEntry {
  value : bytes;
  version : Z;
  expireAt : Z                  (* 0: no expiration *)
}.

Record loopyConfigValue := ConfigValue {
  v_key : string;
  v_value : bytes;
  v_version : Z;
  v_expireAt : Z
}.

Record loopyClusterConfig := ClusterConfig {
  cfg_localNodeId : option string;
  cfg_localAddress : option string;
  cfg_localRoles : Z;
  heartbeatIntervalMs : Z;
  failureTimeoutMs : Z;
  autoHeartbeat : bool;
  eventCallback : bool          (* set *)
}.

(** An event callback: its type and what it is shown. *)
Record cluster_event := ClusterEvent {
  ev_type : loopyClusterEventType;
  ev_node : option loopyNodeInfo;
  ev_config : option loopyConfigValue
}.

(** What a function returns for a node: [RAX_NOT_FOUND] is a pointer of its
    own, neither [NULL] nor a node. *)
Inductive node_ptr := NodeNull | NodeNotFound | NodeAt (a : nat).

(** The wall clock in milliseconds and the outcomes of allocations, by the
    number of questions asked before. *)
Class ClusterEnv := { wallclock : nat -> Z; mallocOk : nat -> bool }.

Section Registry.
Context {R : Rax} `{Env : ClusterEnv}.

Record loopyClusterRegistry := ClusterRegistry {
  localNodeId : string;
  config : loopyClusterConfig;
  nodes : rax;
  configData : rax;
  configVersion : Z
}.

#[local] Instance ClusterRegistry_rebuild : Rebuild loopyClusterRegistry := fun r =>
  ClusterRegistry (localNodeId r) (config r) (nodes r) (configData r) (configVersion r).

(** The memory: the registry, [None] when freed, and the two heaps. *)
Record cluster := Cluster {
  registry : option loopyClusterRegistry;
  nodeHeap : gmap nat loopyClusterNode;
  entryHeap : gmap nat configEntry;
  asked : nat;
  events : list cluster_event   (* newest first *)
}.

#[local] Instance cluster_rebuild : Rebuild cluster := fun c =>
  Cluster (registry c) (nodeHeap c) (entryHeap c) (asked c) (events c).

Definition ask : prog cluster nat :=
  c ← get; modify (fun c => c <| asked ::= S |>) ≫= fun _ => mret (asked c).
Definition malloc : prog cluster bool := k ← ask; mret (mallocOk k).
Definition the_registry : prog cluster loopyClusterRegistry :=
  c ← get; match registry c with Some r => mret r | None => undefined end.
Definition set_registry (f : loopyClusterRegistry -> loopyClusterRegistry) : prog cluster unit :=
  r ← the_registry; modify (fun c => c <| registry := Some (f r) |>).
Definition the_node (a : nat) : prog cluster loopyClusterNode :=
  c ← get; match nodeHeap c !! a with Some n => mret n | None => undefined end.
Definition set_node (a : nat) (f : loopyClusterNode -> loopyClusterNode) : prog cluster unit :=
  n ← the_node a; modify (fun c => c <| nodeHeap ::= <[a := f n]> |>).
Definition the_entry (a : nat) : prog cluster configEntry :=
  c ← get; match entryHeap c !! a with Some e => mret e | None => undefined end.

(** ** Helpers *)

Definition registryStrdup (s : option string) : prog cluster (option string) :=
  match s with
  | None => mret None
  | Some s => ok ← malloc; mret (if (ok : bool) then Some s else None)
  end.

Definition currentTimeMs : prog cluster Z := k ← ask; mret (u64 (wallclock k)).

Definition freeNode (a : nat) : prog cluster unit :=
  _ ← the_node a; modify (fun c => c <| nodeHeap ::= delete a |>).
Definition freeConfigEntry (a : nat) : prog cluster unit :=
  _ ← the_entry a; modify (fun c => c <| entryHeap ::= delete a |>).

Definition emitEvent (t : loopyClusterEventType) (node : option loopyNodeInfo) (cv : option loopyConfigValue)
    : prog cluster unit :=
  r ← the_registry;
  pwhen (eventCallback (config r)) (modify (fun c => c <| events ::= cons (ClusterEvent t node cv) |>)).

Definition nodeToInfo (n : loopyClusterNode) : loopyNodeInfo :=
  NodeInfo (nodeId n) (address n) (state n) (roles n) (joinTime n) (lastSeen n) (userData n).

Definition loopyClusterConfigInit : loopyClusterConfig := ClusterConfig None None 0 1000 5000 false false.

(** ** Nodes

    [nn]: the registry passed is not [NULL]. *)

Definition loopyClusterRegisterNode (nn : bool) (id : option string) (addr : option string) (rl : Z)
    : prog cluster node_ptr :=
  match id with
  | None => mret NodeNull
  | Some id =>
      if negb nn then mret NodeNull
      else
        r ← the_registry;
        match raxFind (nodes r) id with
        | Some a =>
            now ← currentTimeMs;
            set_node a (fun n => n <| lastSeen := now |>) ≫= fun _ =>
            n ← the_node a;
            (match addr, address n with
             | Some _, None => ad ← registryStrdup addr; set_node a (fun n => n <| address := ad |>)
             | _, _ => mret tt
             end) ≫= fun _ =>
            set_node a (fun n => n <| roles := rl |>) ≫= fun _ => mret (NodeAt a)
        | None =>
            ok ← malloc;
            if negb ok then mret NodeNull
            else
              idCopy ← registryStrdup (Some id);
              ad ← registryStrdup addr;
              now ← currentTimeMs;
              match idCopy with
              | None => mret NodeNull
              | Some id =>
                  ok ← malloc;        (* raxTryInsert *)
                  if negb ok then
                    r ← the_registry;
                    mret (match raxFind (nodes r) id with Some a => NodeAt a | None => NodeNotFound end)
                  else
                    c ← get;
                    let a := fresh (dom (nodeHeap c)) in
                    let st := if (id =? localNodeId r)%string then LOOPY_NODE_ACTIVE else LOOPY_NODE_JOINING in
                    let n := ClusterNode id ad st rl now now 0 in
                    modify (fun c => c <| nodeHeap ::= <[a := n]> |>) ≫= fun _ =>
                    set_registry (fun r => r <| nodes ::= fun t => raxTryInsert t id a |>) ≫= fun _ =>
                    emitEvent LOOPY_CLUSTER_NODE_JOINED (Some (nodeToInfo n)) None ≫= fun _ =>
                    mret (NodeAt a)
              end
        end
  end.

Definition loopyClusterUnregisterNode (nn : bool) (id : option string) : prog cluster bool :=
  match id with
  | None => mret false
  | Some id =>
      if negb nn then mret false
      else
        r ← the_registry;
        if (id =? localNodeId r)%string then mret false
        else
          match raxFind (nodes r) id with
          | None => mret false
          | Some a =>
              n ← the_node a;
              set_registry (fun r => r <| nodes ::= fun t => raxRemove t id |>) ≫= fun _ =>
              emitEvent LOOPY_CLUSTER_NODE_LEFT (Some (nodeToInfo n)) None ≫= fun _ =>
              freeNode a ≫= fun _ => mret true
          end
  end.

Definition loopyClusterGetNode (nn : bool) (id : option string) : prog cluster (option nat) :=
  match id with
  | None => mret None
  | Some id => if negb nn then mret None else r ← the_registry; mret (raxFind (nodes r) id)
  end.

Definition loopyClusterNodeSetState (node : option nat) (st : loopyNodeState) : prog cluster bool :=
  match node with
  | None => mret false
  | Some a =>
      n ← the_node a;
      now ← currentTimeMs;
      let n' := n <| state := st |> <| lastSeen := now |> in
      set_node a (fun _ => n') ≫= fun _ =>
      pwhen (negb (bool_decide (state n = st)))
        (emitEvent LOOPY_CLUSTER_NODE_STATE (Some (nodeToInfo n')) None) ≫= fun _ => mret true
  end.

Definition isLeader (rl : Z) : bool := negb (Z.land rl LOOPY_ROLE_LEADER =? 0)%Z.

Definition loopyClusterNodeSetRoles (node : option nat) (rl : Z) : prog cluster bool :=
  match node with
  | None => mret false
  | Some a =>
      n ← the_node a;
      let n' := n <| roles := rl |> in
      set_node a (fun _ => n') ≫= fun _ =>
      pwhen (negb (Bool.eqb (isLeader (roles n)) (isLeader rl)))
        (emitEvent LOOPY_CLUSTER_LEADER_CHANGE (Some (nodeToInfo n')) None) ≫= fun _ => mret true
  end.

Definition loopyClusterNodeHeartbeat (node : option nat) : prog cluster bool :=
  match node with
  | None => mret false
  | Some a =>
      now ← currentTimeMs;
      set_node a (fun n => n <| lastSeen := now |>) ≫= fun _ =>
      n ← the_node a;
      (if bool_decide (state n = LOOPY_NODE_JOINING) then loopyClusterNodeSetState (Some a) LOOPY_NODE_ACTIVE
       else mret true) ≫= fun _ => mret true
  end.

Definition loopyClusterNodeGetInfo (node : option nat) : prog cluster (option loopyNodeInfo) :=
  match node with None => mret None | Some a => n ← the_node a; mret (Some (nodeToInfo n)) end.

Definition loopyClusterNodeSetUserData (node : option nat) (d : nat) : prog cluster unit :=
  match node with None => mret tt | Some a => set_node a (fun n => n <| userData := d |>) end.

Definition loopyClusterNodeGetUserData (node : option nat) : prog cluster (option nat) :=
  match node with None => mret None | Some a => n ← the_node a; mret (Some (userData n)) end.

(** ** Creation and destruction

    The allocations: registry, copied name, the two trees, the lock. *)

Definition loopyClusterRegistryNew (cfg : option loopyClusterConfig) : prog cluster bool :=
  match cfg with
  | None => mret false
  | Some cfg =>
      match cfg_localNodeId cfg with
      | None => mret false
      | Some id =>
          ok ← malloc;
          if negb ok then mret false
          else
            idCopy ← registryStrdup (Some id);
            match idCopy with
            | None => mret false
            | Some id =>
                ok1 ← malloc;
                if negb ok1 then mret false
                else
                  ok2 ← malloc;
                  if negb ok2 then mret false
                  else
                    ok3 ← malloc;
                    if negb ok3 then mret false
                    else
                      modify (fun c => c <| registry := Some (ClusterRegistry id cfg raxNew raxNew 0) |>) ≫= fun _ =>
                      loopyClusterRegisterNode true (Some id) (cfg_localAddress cfg) (cfg_localRoles cfg) ≫= fun _ =>
                      mret true
            end
      end
  end.

Fixpoint freeAll (free : nat -> prog cluster unit) (l : list (string * nat)) : prog cluster unit :=
  match l with [] => mret tt | (_, a) :: l => free a ≫= fun _ => freeAll free l end.

Definition loopyClusterRegistryFree (nn : bool) : prog cluster unit :=
  if negb nn then mret tt
  else
    r ← the_registry;
    freeAll freeNode (raxElems (nodes r)) ≫= fun _ =>
    freeAll freeConfigEntry (raxElems (configData r)) ≫= fun _ =>
    modify (fun c => c <| registry := None |>).

Definition loopyClusterLocalNodeId (r : option loopyClusterRegistry) : option string := localNodeId <$> r.

(** ** Queries *)

Definition loopyClusterNodeCount (nn : bool) : prog cluster Z :=
  if negb nn then mret 0%Z else r ← the_registry; mret (Z.of_nat (length (raxElems (nodes r)))).

(** The nodes an iteration visits that satisfy [p]. *)
Fixpoint selectNodes (p : loopyClusterNode -> bool) (l : list (string * nat)) : prog cluster (list nat) :=
  match l with
  | [] => mret []
  | (_, a) :: l =>
      n ← the_node a; rest ← selectNodes p l; mret (if p n then a :: rest else rest)
  end.

Definition loopyClusterActiveNodeCount (nn : bool) : prog cluster Z :=
  if negb nn then mret 0%Z
  else
    r ← the_registry;
    l ← selectNodes (fun n => bool_decide (state n = LOOPY_NODE_ACTIVE)) (raxElems (nodes r));
    mret (Z.of_nat (length l)).

(** The loop of [loopyClusterGetLeader] ends at the first leader. *)
Fixpoint findLeader (l : list (string * nat)) : prog cluster (option nat) :=
  match l with
  | [] => mret None
  | (_, a) :: l => n ← the_node a; if isLeader (roles n) then mret (Some a) else findLeader l
  end.

Definition loopyClusterGetLeader (nn : bool) : prog cluster (option nat) :=
  if negb nn then mret None else r ← the_registry; findLeader (raxElems (nodes r)).

(** [fn] answers whether to stop; the result lists what it was shown. *)
Fixpoint iterateNodes (p : loopyClusterNode -> bool) (fn : loopyNodeInfo -> bool) (l : list (string * nat))
    : prog cluster (list loopyNodeInfo) :=
  match l with
  | [] => mret []
  | (_, a) :: l =>
      n ← the_node a;
      if p n then
        if fn (nodeToInfo n) then mret [nodeToInfo n]
        else rest ← iterateNodes p fn l; mret (nodeToInfo n :: rest)
      else iterateNodes p fn l
  end.

Definition loopyClusterIterateNodes (nn : bool) (fn : option (loopyNodeInfo -> bool))
    : prog cluster (list loopyNodeInfo) :=
  match fn with
  | None => mret []
  | Some fn => if negb nn then mret [] else r ← the_registry; iterateNodes (fun _ => true) fn (raxElems (nodes r))
  end.

Definition loopyClusterIterateNodesByRole (nn : bool) (role : Z) (fn : option (loopyNodeInfo -> bool))
    : prog cluster (list loopyNodeInfo) :=
  match fn with
  | None => mret []
  | Some fn =>
      if negb nn then mret []
      else
        r ← the_registry;
        iterateNodes (fun n => negb (Z.land (roles n) role =? 0)%Z) fn (raxElems (nodes r))
  end.

(** ** The configuration store *)

Definition isExpired (e : configEntry) (now : Z) : bool := (expireAt e >? 0)%Z && (now >=? expireAt e)%Z.

Definition toConfigValue (key : string) (e : configEntry) : loopyConfigValue :=
  ConfigValue key (value e) (version e) (expireAt e).

(** [val]: [None] for [NULL]. *)
Definition loopyClusterConfigSet (nn : bool) (key : option string) (val : option bytes) (ttlMs : Z)
    : prog cluster Z :=
  match key, val with
  | Some key, Some val =>
      if negb nn || (length val =? 0)%nat then mret 0%Z
      else
        r ← the_registry;
        let newVersion := configVersion r +64 1 in
        let expiry := (if (ttlMs >? 0)%Z then now ← currentTimeMs; mret (now +64 ttlMs) else mret 0%Z) in
        let bump := set_registry (fun r => r <| configVersion := newVersion |>) in
        match raxFind (configData r) key with
        | Some a =>
            ok ← malloc;
            if negb ok then mret 0%Z
            else
              _ ← the_entry a;
              bump ≫= fun _ =>
              at_ ← expiry;
              let e := ConfigEntry val newVersion at_ in
              modify (fun c => c <| entryHeap ::= <[a := e]> |>) ≫= fun _ =>
              emitEvent LOOPY_CLUSTER_CONFIG_CHANGE None (Some (toConfigValue key e)) ≫= fun _ =>
              mret newVersion
        | None =>
            ok ← malloc;
            if negb ok then mret 0%Z
            else
              ok ← malloc;
              if negb ok then mret 0%Z
              else
                bump ≫= fun _ =>
                at_ ← expiry;
                ok ← malloc;         (* raxInsert *)
                if negb ok then mret 0%Z
                else
                  c ← get;
                  let a := fresh (dom (entryHeap c)) in
                  let e := ConfigEntry val newVersion at_ in
                  modify (fun c => c <| entryHeap ::= <[a := e]> |>) ≫= fun _ =>
                  set_registry (fun r => r <| configData ::= fun t => raxTryInsert t key a |>) ≫= fun _ =>
                  emitEvent LOOPY_CLUSTER_CONFIG_CHANGE None (Some (toConfigValue key e)) ≫= fun _ =>
                  mret newVersion
        end
  | _, _ => mret 0%Z
  end.

(** The string with its terminator. *)
Definition string_bytes (s : string) : bytes := String.list_byte_of_string s ++ [Byte.x00].

Definition loopyClusterConfigSetString (nn : bool) (key val : option string) (ttlMs : Z) : prog cluster Z :=
  match val with
  | None => mret 0%Z
  | Some s => loopyClusterConfigSet nn key (Some (string_bytes s)) ttlMs
  end.

Definition loopyClusterConfigGet (nn : bool) (key : option string) : prog cluster (option bytes) :=
  match key with
  | None => mret None
  | Some key =>
      if negb nn then mret None
      else
        r ← the_registry;
        match raxFind (configData r) key with
        | None => mret None
        | Some a =>
            e ← the_entry a;
            expired ← (if (expireAt e >? 0)%Z then now ← currentTimeMs; mret (now >=? expireAt e)%Z else mret false);
            mret (if (expired : bool) then None else Some (value e))
        end
  end.

Definition loopyClusterConfigGetString (nn : bool) (key : option string) : prog cluster (option bytes) :=
  loopyClusterConfigGet nn key.

Definition loopyClusterConfigDelete (nn : bool) (key : option string) : prog cluster bool :=
  match key with
  | None => mret false
  | Some key =>
      if negb nn then mret false
      else
        r ← the_registry;
        match raxFind (configData r) key with
        | None => mret false
        | Some a =>
            set_registry (fun r => r <| configData ::= fun t => raxRemove t key |>) ≫= fun _ =>
            e ← the_entry a;
            emitEvent LOOPY_CLUSTER_CONFIG_CHANGE None (Some (ConfigValue key (value e) (version e) 0)) ≫= fun _ =>
            freeConfigEntry a ≫= fun _ => mret true
        end
  end.

Definition loopyClusterConfigExists (nn : bool) (key : option string) : prog cluster bool :=
  match key with
  | None => mret false
  | Some key =>
      if negb nn then mret false
      else
        r ← the_registry;
        match raxFind (configData r) key with
        | None => mret false
        | Some a =>
            e ← the_entry a;
            if (expireAt e =? 0)%Z then mret true else now ← currentTimeMs; mret (now <? expireAt e)%Z
        end
  end.

Definition loopyClusterConfigVersion (nn : bool) (key : option string) : prog cluster Z :=
  match key with
  | None => mret 0%Z
  | Some key =>
      if negb nn then mret 0%Z
      else
        r ← the_registry;
        match raxFind (configData r) key with
        | None => mret 0%Z
        | Some a => e ← the_entry a; mret (version e)
        end
  end.

(** The copy of a key for the callback is cut to 255 bytes. *)
Definition shownKey (k : string) : string := String.substring 0 255 k.

Fixpoint iterateConfig (fn : loopyConfigValue -> bool) (now : Z) (l : list (string * nat))
    : prog cluster (list loopyConfigValue) :=
  match l with
  | [] => mret []
  | (k, a) :: l =>
      e ← the_entry a;
      if isExpired e now then iterateConfig fn now l
      else
        let cv := toConfigValue (shownKey k) e in
        if fn cv then mret [cv] else rest ← iterateConfig fn now l; mret (cv :: rest)
  end.

Definition loopyClusterConfigIterate (nn : bool) (fn : option (loopyConfigValue -> bool))
    : prog cluster (list loopyConfigValue) :=
  match fn with
  | None => mret []
  | Some fn =>
      if negb nn then mret []
      else now ← currentTimeMs; r ← the_registry; iterateConfig fn now (raxElems (configData r))
  end.

(** An iterator set to ">=" a key: the elements from there on, in key order. *)
Fixpoint iteratePrefix (fn : loopyConfigValue -> bool) (now : Z) (prefix : string) (l : list (string * nat))
    : prog cluster (list loopyConfigValue) :=
  match l with
  | [] => mret []
  | (k, a) :: l =>
      if negb (String.prefix prefix k) then mret []
      else
        e ← the_entry a;
        if isExpired e now then iteratePrefix fn now prefix l
        else
          let cv := toConfigValue (shownKey k) e in
          if fn cv then mret [cv] else rest ← iteratePrefix fn now prefix l; mret (cv :: rest)
  end.

Definition loopyClusterConfigIteratePrefix (raxFrom : rax -> string -> list (string * nat)) (nn : bool)
    (prefix : option string) (fn : option (loopyConfigValue -> bool)) : prog cluster (list loopyConfigValue) :=
  match prefix, fn with
  | Some prefix, Some fn =>
      if negb nn then mret []
      else
        now ← currentTimeMs;
        r ← the_registry;
        iteratePrefix fn now prefix (raxFrom (configData r) prefix)
  | _, _ => mret []
  end.

(** ** Periodic processing *)

Fixpoint collectExpired (l : list (string * nat)) (now : Z) (count : nat) : prog cluster (list string) :=
  match l with
  | [] => mret []
  | (k, a) :: l =>
      if (count <? 64)%nat then
        e ← the_entry a;
        if isExpired e now then
          ok ← malloc;
          if (ok : bool) then rest ← collectExpired l now (S count); mret (k :: rest)
          else collectExpired l now count
        else collectExpired l now count
      else mret []
  end.

Fixpoint removeExpired (ks : list string) (n : Z) : prog cluster Z :=
  match ks with
  | [] => mret n
  | k :: ks =>
      r ← the_registry;
      match raxFind (configData r) k with
      | None => removeExpired ks n
      | Some a =>
          set_registry (fun r => r <| configData ::= fun t => raxRemove t k |>) ≫= fun _ =>
          e ← the_entry a;
          emitEvent LOOPY_CLUSTER_CONFIG_CHANGE None (Some (toConfigValue k e)) ≫= fun _ =>
          freeConfigEntry a ≫= fun _ => removeExpired ks (n +64 1)
      end
  end.

(** Whether a node's silence is over the limit. *)
Definition timedOut (local : string) (n : loopyClusterNode) (now timeout : Z) : bool :=
  negb (nodeId n =? local)%string && negb (bool_decide (state n = LOOPY_NODE_FAILED)) &&
  ((now -64 lastSeen n) >? timeout)%Z.

Fixpoint collectFailed (local : string) (l : list (string * nat)) (now timeout : Z) (count : nat)
    : prog cluster (list string) :=
  match l with
  | [] => mret []
  | (_, a) :: l =>
      if (count <? 64)%nat then
        n ← the_node a;
        if timedOut local n now timeout then
          id ← registryStrdup (Some (nodeId n));
          match id with
          | Some id => rest ← collectFailed local l now timeout (S count); mret (id :: rest)
          | None => collectFailed local l now timeout count
          end
        else collectFailed local l now timeout count
      else mret []
  end.

Fixpoint markFailed (ids : list string) (n : Z) : prog cluster Z :=
  match ids with
  | [] => mret n
  | id :: ids =>
      r ← the_registry;
      match raxFind (nodes r) id with
      | None => markFailed ids n
      | Some a =>
          set_node a (fun x => x <| state := LOOPY_NODE_FAILED |>) ≫= fun _ =>
          x ← the_node a;
          emitEvent LOOPY_CLUSTER_NODE_FAILED (Some (nodeToInfo x)) None ≫= fun _ => markFailed ids (n +64 1)
      end
  end.

Definition loopyClusterProcess (nn : bool) : prog cluster Z :=
  if negb nn then mret 0%Z
  else
    now ← currentTimeMs;
    r ← the_registry;
    ks ← collectExpired (raxElems (configData r)) now 0;
    n ← removeExpired ks 0;
    r ← the_registry;
    ids ← collectFailed (localNodeId r) (raxElems (nodes r)) now (failureTimeoutMs (config r)) 0;
    markFailed ids n.

Definition loopyClusterNow : prog cluster Z := currentTimeMs.
End Registry.

#[export] Existing Instance ClusterRegistry_rebuild.
#[export] Existing Instance cluster_rebuild.

(** [None] is a value outside the enumeration. *)
Definition loopyNodeStateName (s : option loopyNodeState) : string :=
  match s with
  | Some LOOPY_NODE_UNKNOWN => "UNKNOWN"
  | Some LOOPY_NODE_JOINING => "JOINING"
  | Some LOOPY_NODE_ACTIVE => "ACTIVE"
  | Some LOOPY_NODE_DRAINING => "DRAINING"
  | Some LOOPY_NODE_LEAVING => "LEAVING"
  | Some LOOPY_NODE_FAILED => "FAILED"
  | None => "INVALID"
  end.

Definition loopyClusterEventName (t : option loopyClusterEventType) : string :=
  match t with
  | Some LOOPY_CLUSTER_NODE_JOINED => "NODE_JOINED"
  | Some LOOPY_CLUSTER_NODE_LEFT => "NODE_LEFT"
  | Some LOOPY_CLUSTER_NODE_FAILED => "NODE_FAILED"
  | Some LOOPY_CLUSTER_NODE_STATE => "NODE_STATE"
  | Some LOOPY_CLUSTER_CONFIG_CHANGE => "CONFIG_CHANGE"
  | Some LOOPY_CLUSTER_LEADER_CHANGE => "LEADER_CHANGE"
  | None => "INVALID"
  end.

(** ** Maps of addresses

    What a tree of addresses and the heap they point into stand for. *)

Definition view {A} (m : gmap string nat) (h : gmap nat A) : gmap string A := omap (fun a => h !! a) m.

(** Every address in the tree is live, and every live one is in the tree once. *)
Record linked {A} (m : gmap string nat) (h : gmap nat A) : Prop := {
  lk_live k a : m !! k = Some a -> is_Some (h !! a);
  lk_reached a : is_Some (h !! a) -> exists k, m !! k = Some a;
  lk_inj k k' a : m !! k = Some a -> m !! k' = Some a -> k = k'
}.

Section Linked.
Context {A : Type}.
Implicit Types (m : gmap string nat) (h : gmap nat A).

Lemma view_lookup m h k : view m h !! k = m !! k ≫= fun a => h !! a.
Proof. unfold view. by rewrite lookup_omap. Qed.

Lemma view_None m h k : linked m h -> view m h !! k = None <-> m !! k = None.
Proof.
  intros L. rewrite view_lookup. destruct (m !! k) as [a|] eqn:E; simpl; [|done].
  destruct (lk_live _ _ L k a E) as [x ->]. done.
Qed.

Lemma view_Some m h k a : linked m h -> m !! k = Some a -> exists x, h !! a = Some x /\ view m h !! k = Some x.
Proof.
  intros L E. destruct (lk_live _ _ L k a E) as [x Hx]. exists x. split; [done|]. by rewrite view_lookup, E.
Qed.

Lemma linked_empty : linked (A := A) ∅ ∅.
Proof. constructor; intros *; rewrite ?lookup_empty; done. Qed.

Lemma linked_insert m h k a x : linked m h -> m !! k = None -> h !! a = None ->
  linked (<[k := a]> m) (<[a := x]> h) /\ view (<[k := a]> m) (<[a := x]> h) = <[k := x]> (view m h).
Proof.
  intros L Hk Ha. assert (Hne : forall k' b, m !! k' = Some b -> b <> a).
  { intros k' b Hb ->. destruct (lk_live _ _ L k' a Hb). congruence. }
  split; [constructor|].
  - intros k' b. rewrite lookup_insert_Some, lookup_insert_is_Some. intros [[-> ->]|[_ Hb]]; [by left|].
    right. split; [by apply not_eq_sym, (Hne k')|by apply (lk_live _ _ L k')].
  - intros b. rewrite lookup_insert_is_Some. intros [->|[Hb Hx]]; [exists k; apply lookup_insert_eq|].
    destruct (lk_reached _ _ L b Hx) as [k' Hk']. exists k'. rewrite lookup_insert_ne; [done|]. congruence.
  - intros k1 k2 b. rewrite !lookup_insert_Some. intros [[E1 E2]|[_ H1]] [[E3 E4]|[_ H2]].
    + congruence.
    + by destruct (Hne k2 b).
    + by destruct (Hne k1 b).
    + by apply (lk_inj _ _ L k1 k2 b).
  - apply map_eq. intros k'. rewrite view_lookup. destruct (decide (k' = k)) as [->|Hk'].
    + rewrite !lookup_insert_eq. simpl. by rewrite lookup_insert_eq.
    + rewrite !lookup_insert_ne, view_lookup by done. destruct (m !! k') as [b|] eqn:Eb; [|done]. simpl.
      rewrite lookup_insert_ne; [done|]. apply not_eq_sym. by apply (Hne k').
Qed.

Lemma linked_update m h k a x : linked m h -> m !! k = Some a ->
  linked m (<[a := x]> h) /\ view m (<[a := x]> h) = <[k := x]> (view m h).
Proof.
  intros L Hk. destruct (lk_live _ _ L k a Hk) as [y Hy].
  assert (Hdom : forall b, is_Some (<[a := x]> h !! b) <-> is_Some (h !! b)).
  { intros b. rewrite lookup_insert_is_Some'. naive_solver. }
  split; [constructor|].
  - intros k' b Hb. apply Hdom. by apply (lk_live _ _ L k').
  - intros b Hb. apply Hdom in Hb. by apply (lk_reached _ _ L).
  - apply (lk_inj _ _ L).
  - apply map_eq. intros k'. rewrite view_lookup. destruct (decide (k' = k)) as [->|Hk'].
    + rewrite Hk, lookup_insert_eq. simpl. by rewrite lookup_insert_eq.
    + rewrite lookup_insert_ne, view_lookup by done. destruct (m !! k') as [b|] eqn:Eb; [|done]. simpl.
      rewrite lookup_insert_ne; [done|]. intros ->. apply Hk'. by apply (lk_inj _ _ L k' k b).
Qed.

Lemma linked_delete m h k a : linked m h -> m !! k = Some a ->
  linked (delete k m) (delete a h) /\ view (delete k m) (delete a h) = delete k (view m h).
Proof.
  intros L Hk. assert (Hne : forall k' b, k' <> k -> m !! k' = Some b -> b <> a).
  { intros k' b Hk' Hb ->. apply Hk'. by apply (lk_inj _ _ L k' k a). }
  split; [constructor|].
  - intros k' b [Hk' Hb]%lookup_delete_Some. rewrite lookup_delete_ne; [by apply (lk_live _ _ L k')|].
    apply not_eq_sym. by apply (Hne k').
  - intros b [x [Hb Hx]%lookup_delete_Some]. destruct (lk_reached _ _ L b) as [k' Hk']; [by eexists|]. exists k'.
    rewrite lookup_delete_ne; [done|]. congruence.
  - intros k1 k2 b [_ H1]%lookup_delete_Some [_ H2]%lookup_delete_Some. by apply (lk_inj _ _ L k1 k2 b).
  - apply map_eq. intros k'. rewrite view_lookup. destruct (decide (k' = k)) as [->|Hk'].
    + by rewrite !lookup_delete_eq.
    + rewrite !lookup_delete_ne, view_lookup by done. destruct (m !! k') as [b|] eqn:Eb; [|done]. simpl.
      rewrite lookup_delete_ne; [done|]. apply not_eq_sym. by apply (Hne k').
Qed.
End Linked.

(** ** The registry as finite maps *)

Record cview := CView {
  cv_local : string;
  cv_cfg : loopyClusterConfig;
  cv_nodes : gmap string loopyClusterNode;
  cv_store : gmap string configEntry;
  cv_version : Z
}.

#[export] Instance cview_rebuild : Rebuild cview := fun v =>
  CView (cv_local v) (cv_cfg v) (cv_nodes v) (cv_store v) (cv_version v).

(** The specification's state: the registry as finite maps, the questions asked and
    the events. *)
Record clspec := ClSpec { sv : cview; sa : nat; se : list cluster_event }.
#[export] Instance clspec_rebuild : Rebuild clspec := fun s => ClSpec (sv s) (sa s) (se s).

Section Representation.
Context {R : Rax} {RS : RaxSpec R} `{Env : ClusterEnv}.

Record rep_at (r : loopyClusterRegistry) (c : cluster) (v : cview) : Prop := {
  rp_local : localNodeId r = cv_local v;
  rp_config : config r = cv_cfg v;
  rp_nodes : linked (rax_map (nodes r)) (nodeHeap c);
  rp_nodes_view : cv_nodes v = view (rax_map (nodes r)) (nodeHeap c);
  rp_ids id n : cv_nodes v !! id = Some n -> nodeId n = id;
  rp_data : linked (rax_map (configData r)) (entryHeap c);
  rp_data_view : cv_store v = view (rax_map (configData r)) (entryHeap c);
  rp_version : configVersion r = cv_version v
}.

Definition rep (c : cluster) (v : cview) : Prop := exists r, registry c = Some r /\ rep_at r c v.

Lemma rep_ext c c' v : rep c v -> registry c' = registry c -> nodeHeap c' = nodeHeap c -> entryHeap c' = entryHeap c ->
  rep c' v.
Proof using Type. intros (r & Hr & []) E1 E2 E3. exists r. split; [congruence|]. constructor; rewrite ?E2, ?E3; done. Qed.

(** *** Rules for the accesses *)

Lemma wp_the_registry Q c r : registry c = Some r -> Q r c -> wp the_registry Q c.
Proof using Type. intros Hr HQ. unfold the_registry. apply wp_bind, wp_get. by rewrite Hr. Qed.

Lemma wp_set_registry f (Q : unit -> cluster -> Prop) c r :
  registry c = Some r -> Q tt (c <| registry := Some (f r) |>) -> wp (set_registry f) Q c.
Proof using Type. intros Hr HQ. unfold set_registry. apply wp_bind. by eapply wp_the_registry. Qed.

Lemma wp_the_node a Q (c : cluster) n : nodeHeap c !! a = Some n -> Q n c -> wp (the_node a) Q c.
Proof using Type. intros Hn HQ. unfold the_node. apply wp_bind, wp_get. by rewrite Hn. Qed.

Lemma wp_set_node a f (Q : unit -> cluster -> Prop) c n :
  nodeHeap c !! a = Some n -> Q tt (c <| nodeHeap ::= <[a := f n]> |>) -> wp (set_node a f) Q c.
Proof using Type. intros Hn HQ. unfold set_node. apply wp_bind. by eapply wp_the_node. Qed.

Lemma wp_the_entry a Q (c : cluster) e : entryHeap c !! a = Some e -> Q e c -> wp (the_entry a) Q c.
Proof using Type. intros He HQ. unfold the_entry. apply wp_bind, wp_get. by rewrite He. Qed.

Lemma wp_malloc (Q : bool -> cluster -> Prop) c :
  Q (mallocOk (asked c)) (c <| asked ::= S |>) -> wp malloc Q c.
Proof using Type. done. Qed.

Lemma wp_currentTimeMs (Q : Z -> cluster -> Prop) c :
  Q (u64 (wallclock (asked c))) (c <| asked ::= S |>) -> wp currentTimeMs Q c.
Proof using Type. done. Qed.

(** A copy, and the number of questions after it. *)
Definition copied (s : option string) (n : nat) : option string :=
  match s with Some s => if mallocOk n then Some s else None | None => None end.
Definition after_copy (s : option string) (n : nat) : nat := match s with Some _ => S n | None => n end.

Lemma wp_registryStrdup s (Q : option string -> cluster -> Prop) c :
  Q (copied s (asked c)) (c <| asked := after_copy s (asked c) |>) -> wp (registryStrdup s) Q c.
Proof using Type.
  intros HQ. unfold registryStrdup. destruct s as [s|]; [by apply wp_bind, wp_malloc, wp_ret|].
  apply wp_ret. by destruct c.
Qed.

(** The events after one more, if there is a callback. *)
Definition emitted (cfg : loopyClusterConfig) (t : loopyClusterEventType) (n : option loopyNodeInfo)
    (cv : option loopyConfigValue) (es : list cluster_event) : list cluster_event :=
  if eventCallback cfg then ClusterEvent t n cv :: es else es.

Lemma wp_emitEvent t n cv (Q : unit -> cluster -> Prop) c r :
  registry c = Some r -> Q tt (c <| events ::= emitted (config r) t n cv |>) -> wp (emitEvent t n cv) Q c.
Proof using Type.
  intros Hr HQ. unfold emitEvent, emitted in *. apply wp_bind. eapply wp_the_registry; [done|].
  unfold pwhen. destruct (eventCallback _); [by apply wp_modify|apply wp_ret]. by destruct c.
Qed.

Definition sim (c : cluster) (s : clspec) : Prop := rep c (sv s) /\ asked c = sa s /\ events c = se s.
Definition abs (c : cluster) (v : cview) : clspec := ClSpec v (asked c) (events c).

Lemma abs_sim c v : rep c v -> sim c (abs c v).
Proof using Type. done. Qed.

Lemma sim_abs c s : sim c s -> s = abs c (sv s).
Proof using Type. intros (_ & E1 & E2). destruct s. unfold abs. cbn in *. by rewrite E1, E2. Qed.

Lemma sim_tick c v n : rep c v -> sim (c <| asked := n |>) (ClSpec v n (events c)).
Proof using Type. intros H. split; [by eapply rep_ext|done]. Qed.

Definition clock (n : nat) : Z := u64 (wallclock n).
End Representation.

(** Runs the next statement. *)
Ltac cstep :=
  match goal with
  | |- wp (_ ≫= _) _ _ => apply wp_bind
  | |- wp (mret _) _ _ => apply wp_ret
  | |- wp the_registry _ _ => eapply wp_the_registry; [first [eassumption | reflexivity]|]
  | |- wp (set_registry _) _ _ => eapply wp_set_registry; [first [eassumption | reflexivity]|]
  | |- wp (the_node _) _ _ => eapply wp_the_node; [first [eassumption | apply lookup_insert_eq]|]
  | |- wp (set_node _ _) _ _ => eapply wp_set_node; [first [eassumption | apply lookup_insert_eq]|]
  | |- wp (the_entry _) _ _ => eapply wp_the_entry; [first [eassumption | apply lookup_insert_eq]|]
  | |- wp malloc _ _ => apply wp_malloc
  | |- wp (emitEvent _ _ _) _ _ => eapply wp_emitEvent; [first [eassumption | reflexivity]|]
  | |- wp (registryStrdup _) _ _ => apply wp_registryStrdup
  | |- wp currentTimeMs _ _ => apply wp_currentTimeMs
  | |- wp get _ _ => apply wp_get
  | |- wp (modify _) _ _ => apply wp_modify
  end.

(** ** The configuration store *)

Section Store.
Context {R : Rax} {RS : RaxSpec R} `{Env : ClusterEnv}.

(** When a time to live is over, in 64 bits; 0: never. *)
Definition spec_expiry (ttl : Z) (n : nat) : Z * nat := if (ttl >? 0)%Z then (clock n +64 ttl, S n) else (0%Z, n).

Definition spec_store (k : string) (val : bytes) (at_ : Z) (n : nat) (s : clspec) : Z * clspec :=
  let ver := cv_version (sv s) +64 1 in
  let e := ConfigEntry val ver at_ in
  (ver, ClSpec ((sv s) <| cv_version := ver |> <| cv_store ::= <[k := e]> |>) n
          (emitted (cv_cfg (sv s)) LOOPY_CLUSTER_CONFIG_CHANGE None (Some (toConfigValue k e)) (se s))).

(** A set answers the version stored, the next number, or 0: for an empty value,
    or when memory runs out - after which the number may have been used up. *)
Definition spec_set (k : string) (val : bytes) (ttl : Z) (s : clspec) : Z * clspec :=
  let n := sa s in
  if (length val =? 0)%nat then (0%Z, s)
  else if negb (mallocOk n) then (0%Z, s <| sa := S n |>)
  else
    match cv_store (sv s) !! k with
    | Some _ => let '(at_, n) := spec_expiry ttl (S n) in spec_store k val at_ n s
    | None =>
        if negb (mallocOk (S n)) then (0%Z, s <| sa := S (S n) |>)
        else
          let '(at_, n) := spec_expiry ttl (S (S n)) in
          if negb (mallocOk n)
          then (0%Z, ClSpec ((sv s) <| cv_version := cv_version (sv s) +64 1 |>) (S n) (se s))
          else spec_store k val at_ (S n) s
    end.

(** A lookup reads the clock only for an entry with a time. *)
Definition spec_get (k : string) (s : clspec) : option bytes * clspec :=
  match cv_store (sv s) !! k with
  | None => (None, s)
  | Some e =>
      if (expireAt e >? 0)%Z then (if (clock (sa s) >=? expireAt e)%Z then None else Some (value e), s <| sa ::= S |>)
      else (Some (value e), s)
  end.

Definition spec_delete (k : string) (s : clspec) : bool * clspec :=
  match cv_store (sv s) !! k with
  | None => (false, s)
  | Some e =>
      (true, ClSpec ((sv s) <| cv_store ::= delete k |>) (sa s)
               (emitted (cv_cfg (sv s)) LOOPY_CLUSTER_CONFIG_CHANGE None (Some (ConfigValue k (value e) (version e) 0)) (se s)))
  end.

(** The entry of a key, through the tree. *)
Lemma rep_entry c v r k : registry c = Some r -> rep_at r c v ->
  match raxFind (configData r) k with
  | None => cv_store v !! k = None
  | Some a => exists e, entryHeap c !! a = Some e /\ cv_store v !! k = Some e
  end.
Proof using All.
  intros Hr H. rewrite raxFind_spec, (rp_data_view _ _ _ H).
  destruct (rax_map (configData r) !! k) as [a|] eqn:E.
  - by apply view_Some; [apply (rp_data _ _ _ H)|].
  - by apply view_None; [apply (rp_data _ _ _ H)|].
Qed.

Lemma configGet_ok c v k : rep c v ->
  wp (loopyClusterConfigGet true (Some k)) (fun x c' => x = fst (spec_get k (abs c v)) /\ sim c' (snd (spec_get k (abs c v)))) c.
Proof using All.
  intros H. pose proof H as (r & Hr & Hv). pose proof (rep_entry c v r k Hr Hv) as HE.
  unfold loopyClusterConfigGet, spec_get. cbn [negb abs sv sa se]. do 2 cstep.
  destruct (raxFind (configData r) k) as [a|]; [|cstep; by rewrite HE].
  destruct HE as (e & He & ->). do 3 cstep.
  destruct (expireAt e >? 0)%Z; repeat cstep; (split; [done|]); [by apply sim_tick|done].
Qed.

Lemma configVersion_ok c v k : rep c v ->
  wp (loopyClusterConfigVersion true (Some k)) (fun x c' => rep c' v /\
    x = match cv_store v !! k with Some e => version e | None => 0%Z end) c.
Proof using All.
  intros H. pose proof H as (r & Hr & Hv). pose proof (rep_entry c v r k Hr Hv) as HE.
  unfold loopyClusterConfigVersion. cbn [negb]. do 2 cstep.
  destruct (raxFind (configData r) k) as [a|]; [|cstep; by rewrite HE].
  destruct HE as (e & He & ->). by repeat cstep.
Qed.

(** The time of expiry, as it is computed. *)
Lemma wp_expiry ttl Q c : Q (fst (spec_expiry ttl (asked c))) (c <| asked := snd (spec_expiry ttl (asked c)) |>) ->
  wp (if (ttl >? 0)%Z then now ← currentTimeMs; mret (now +64 ttl) else mret 0%Z) Q c.
Proof using Type. unfold spec_expiry. destruct (ttl >? 0)%Z; intros HQ; repeat cstep; [done|]. by destruct c. Qed.

Lemma configSet_ok c v k val ttl : rep c v ->
  wp (loopyClusterConfigSet true (Some k) (Some val) ttl) (fun ver c' =>
    ver = fst (spec_set k val ttl (abs c v)) /\ sim c' (snd (spec_set k val ttl (abs c v)))) c.
Proof using All.
  intros H. pose proof H as (r & Hr & Hv). pose proof (rep_entry c v r k Hr Hv) as HE.
  unfold loopyClusterConfigSet, spec_set. cbn [negb orb abs sv sa se]. destruct (length val =? 0)%nat; [by cstep|].
  do 2 cstep. set (nv := configVersion r +64 1). pose proof (rp_version _ _ _ Hv) as Ev. pose proof (rp_config _ _ _ Hv) as Ec.
  destruct (raxFind (configData r) k) as [a|] eqn:Ef.
  - destruct HE as (e0 & He0 & ->). do 2 cstep. destruct (negb (mallocOk (asked c))); [cstep; split; [done|by apply sim_tick]|].
    repeat cstep. apply wp_expiry. match goal with |- context [spec_expiry ttl (asked ?x)] => change (asked x) with (S (asked c)) end. destruct (spec_expiry ttl (S (asked c))) as [at_ n]. cbn [fst snd].
    repeat cstep. unfold spec_store. cbn [fst snd sv se abs]. rewrite <- Ev. split; [done|].
    set (e := ConfigEntry val nv at_). rewrite raxFind_spec in Ef.
    destruct (linked_update _ _ k a e (rp_data _ _ _ Hv) Ef) as [L1 L2].
    split; [|split; [done|by cbn; rewrite Ec]]. exists (r <| configVersion := nv |>). split; [done|].
    destruct Hv. constructor; cbn; try done. rewrite rp_data_view0. symmetry. exact L2.
  - rewrite HE. do 2 cstep. destruct (negb (mallocOk (asked c))); [cstep; split; [done|by apply sim_tick]|].
    do 2 cstep. change (asked (c <| asked ::= S |>)) with (S (asked c)).
    destruct (negb (mallocOk (S (asked c)))); [cstep; split; [done|by apply (sim_tick c v (S (S (asked c))))]|].
    repeat cstep. apply wp_expiry. match goal with |- context [spec_expiry ttl (asked ?x)] => change (asked x) with (S (S (asked c))) end. destruct (spec_expiry ttl (S (S (asked c)))) as [at_ n]. cbn [fst snd].
    do 2 cstep. match goal with |- context [mallocOk (asked ?x)] => change (asked x) with n end. destruct (negb (mallocOk n)).
    { cstep. split; [done|]. split; [|done]. exists (r <| configVersion := nv |>). split; [done|].
      destruct Hv. constructor; cbn; try done. by rewrite <- Ev. }
    do 2 cstep. match goal with |- context [fresh (dom ?h)] => change h with (entryHeap c) end.
    set (a := fresh (dom (entryHeap c))). assert (Ha : entryHeap c !! a = None) by apply not_elem_of_dom, is_fresh.
    set (e := ConfigEntry val nv at_). repeat cstep. unfold spec_store. cbn [fst snd sv se abs]. rewrite <- Ev. split; [done|].
    pose proof Ef as Ef'. rewrite raxFind_spec in Ef. destruct (linked_insert _ _ k a e (rp_data _ _ _ Hv) Ef Ha) as [L1 L2].
    split; [|split; [done|by cbn; rewrite Ec]]. eexists. split; [reflexivity|].
    destruct Hv. constructor; cbn; rewrite ?raxTryInsert_spec by done; try done. rewrite rp_data_view0. symmetry. exact L2.
Qed.

(** Removing an entry from the tree, reporting and freeing it. *)
Lemma remove_entry_ok {A} c v r k a e cv (m : prog cluster A) Q :
  registry c = Some r -> rep_at r c v -> raxFind (configData r) k = Some a -> entryHeap c !! a = Some e ->
  (forall c', sim c' (ClSpec (v <| cv_store ::= delete k |>) (asked c)
      (emitted (cv_cfg v) LOOPY_CLUSTER_CONFIG_CHANGE None (Some (cv e)) (events c))) -> wp m Q c') ->
  wp (set_registry (fun r => r <| configData ::= fun t => raxRemove t k |>) ≫= fun _ =>
      e ← the_entry a;
      emitEvent LOOPY_CLUSTER_CONFIG_CHANGE None (Some (cv e)) ≫= fun _ =>
      freeConfigEntry a ≫= fun _ => m) Q c.
Proof using All.
  intros Hr Hv Ef He Hm. unfold freeConfigEntry. do 10 cstep.
  rewrite raxFind_spec in Ef. destruct (linked_delete _ _ k a (rp_data _ _ _ Hv) Ef) as [L1 L2]. apply Hm.
  split; [|split; [done|by cbn; rewrite (rp_config _ _ _ Hv)]]. eexists. split; [reflexivity|].
  destruct Hv. constructor; cbn; rewrite ?raxRemove_spec; try done. rewrite rp_data_view0. symmetry. exact L2.
Qed.

Lemma configDelete_ok c v k : rep c v ->
  wp (loopyClusterConfigDelete true (Some k)) (fun x c' =>
    x = fst (spec_delete k (abs c v)) /\ sim c' (snd (spec_delete k (abs c v)))) c.
Proof using All.
  intros H. pose proof H as (r & Hr & Hv). pose proof (rep_entry c v r k Hr Hv) as HE.
  unfold loopyClusterConfigDelete, spec_delete. cbn [negb abs sv]. do 2 cstep. destruct (raxFind (configData r) k) as [a|] eqn:Ef.
  - destruct HE as (e & He & ->).
    eapply (remove_entry_ok c v r k a e (fun e => ConfigValue k (value e) (version e) 0)); [done..|].
    intros c1 H1. by cstep.
  - cstep. by rewrite HE.
Qed.
End Store.

(** ** The nodes *)

Section Nodes.
Context {R : Rax} {RS : RaxSpec R} `{Env : ClusterEnv}.

(** [a] is the handle of the node [id]. *)
Definition handle (c : cluster) (id : string) (a : nat) : Prop :=
  exists r, registry c = Some r /\ rax_map (nodes r) !! id = Some a.

Lemma rep_handle c v id a : rep c v -> handle c id a ->
  exists n, nodeHeap c !! a = Some n /\ cv_nodes v !! id = Some n.
Proof using All.
  intros (r & Hr & H) (r' & Hr' & Ha). assert (r' = r) as -> by congruence. rewrite (rp_nodes_view _ _ _ H).
  apply view_Some; [apply (rp_nodes _ _ _ H)|done].
Qed.

Lemma rep_find c v r id : registry c = Some r -> rep_at r c v ->
  match raxFind (nodes r) id with
  | Some a => handle c id a
  | None => cv_nodes v !! id = None
  end.
Proof using All.
  intros Hr H. rewrite raxFind_spec. destruct (rax_map (nodes r) !! id) as [a|] eqn:E; [by exists r|].
  rewrite (rp_nodes_view _ _ _ H). by apply view_None; [apply (rp_nodes _ _ _ H)|].
Qed.

Lemma rep_set_node c c' v id a n' : rep c v -> handle c id a -> nodeId n' = id ->
  registry c' = registry c -> nodeHeap c' = <[a := n']> (nodeHeap c) -> entryHeap c' = entryHeap c ->
  rep c' (v <| cv_nodes ::= <[id := n']> |>) /\ handle c' id a.
Proof using All.
  intros (r & Hr & H) (r' & Hr' & Ha) Hid E1 E2 E3. assert (r' = r) as -> by congruence.
  destruct (linked_update _ _ id a n' (rp_nodes _ _ _ H) Ha) as [L1 L2].
  split; exists r; (split; [congruence|]); [|done]. destruct H. constructor; cbn; rewrite ?E2, ?E3; try done.
  - rewrite rp_nodes_view0. symmetry. exact L2.
  - intros id' m. rewrite lookup_insert_Some. intros [[-> <-]|[_ Hm]]; [done|by apply rp_ids0].
Qed.

(** An update of one node. *)
Definition upd_node (id : string) (f : loopyClusterNode -> loopyClusterNode) (v : cview) : cview :=
  v <| cv_nodes ::= alter f id |>.

Lemma upd_node_eq id f v :
  upd_node id f v = CView (cv_local v) (cv_cfg v) (alter f id (cv_nodes v)) (cv_store v) (cv_version v).
Proof using Type. done. Qed.

Lemma upd_node_ext id f g v : (forall n, cv_nodes v !! id = Some n -> f n = g n) -> upd_node id f v = upd_node id g v.
Proof using Type.
  intros E. rewrite !upd_node_eq. f_equal. apply map_eq. intros k.
  destruct (decide (k = id)) as [->|]; [|by rewrite !lookup_alter_ne].
  rewrite !lookup_alter_eq. destruct (cv_nodes v !! id) as [n|]; simpl; [f_equal; by apply E|done].
Qed.

Lemma upd_upd id f g v : upd_node id f (upd_node id g v) = upd_node id (fun n => f (g n)) v.
Proof using Type.
  rewrite !upd_node_eq. cbn. f_equal. apply map_eq. intros k.
  destruct (decide (k = id)) as [->|]; [|by rewrite !lookup_alter_ne].
  rewrite !lookup_alter_eq. by destruct (cv_nodes v !! id).
Qed.

Lemma wp_update_node c v id a f (Q : unit -> cluster -> Prop) : rep c v -> handle c id a ->
  (forall n, nodeId (f n) = nodeId n) ->
  (forall c', rep c' (upd_node id f v) -> handle c' id a -> asked c' = asked c /\ events c' = events c -> Q tt c') ->
  wp (set_node a f) Q c.
Proof using All.
  intros H Hh Hf HQ. destruct (rep_handle c v id a H Hh) as (n & Hn & Hv). eapply wp_set_node; [done|].
  assert (Hid : nodeId n = id) by (destruct H as (r & _ & H); by eapply rp_ids).
  destruct (rep_set_node c (c <| nodeHeap ::= <[a := f n]> |>) v id a (f n) H Hh) as [H' Hh']; try done; [by rewrite Hf|].
  apply HQ; [|done..]. unfold upd_node. destruct H' as (r' & ? & H'). exists r'. split; [done|].
  assert (Ea : alter f id (cv_nodes v) = <[id := f n]> (cv_nodes v)) by by rewrite (alter_alt_Some _ _ _ n).
  destruct H'. constructor; cbn in *; rewrite ?Ea; done.
Qed.

(** *** The specification of the operations on nodes *)

Definition put_node (id : string) (nd : loopyClusterNode) (v : cview) : cview := v <| cv_nodes ::= <[id := nd]> |>.

Lemma put_put id x y v : put_node id x (put_node id y v) = put_node id x v.
Proof using Type.
  change (CView (cv_local v) (cv_cfg v) (<[id := x]> (<[id := y]> (cv_nodes v))) (cv_store v) (cv_version v) =
    CView (cv_local v) (cv_cfg v) (<[id := x]> (cv_nodes v)) (cv_store v) (cv_version v)). by rewrite insert_insert_eq.
Qed.

(** A node gets a state, now. *)
Definition set_state (id : string) (nd : loopyClusterNode) (st : loopyNodeState) (s : clspec) : clspec :=
  let nd' := nd <| state := st |> <| lastSeen := clock (sa s) |> in
  ClSpec (put_node id nd' (sv s)) (S (sa s))
    (if bool_decide (state nd = st) then se s
     else emitted (cv_cfg (sv s)) LOOPY_CLUSTER_NODE_STATE (Some (nodeToInfo nd')) None (se s)).

(** An operation on a node by its name answers false when there is none. *)
Definition on_node (id : string) (f : loopyClusterNode -> clspec -> clspec) (s : clspec) : bool * clspec :=
  match cv_nodes (sv s) !! id with None => (false, s) | Some nd => (true, f nd s) end.

Definition spec_set_state (id : string) (st : loopyNodeState) : clspec -> bool * clspec :=
  on_node id (fun nd => set_state id nd st).

Definition set_roles (id : string) (rl : Z) (nd : loopyClusterNode) (s : clspec) : clspec :=
  let nd' := nd <| roles := rl |> in
  ClSpec (put_node id nd' (sv s)) (sa s)
    (if Bool.eqb (isLeader (roles nd)) (isLeader rl) then se s
     else emitted (cv_cfg (sv s)) LOOPY_CLUSTER_LEADER_CHANGE (Some (nodeToInfo nd')) None (se s)).
Definition spec_set_roles (id : string) (rl : Z) : clspec -> bool * clspec := on_node id (set_roles id rl).

(** A heartbeat makes a joining node active. *)
Definition heartbeat (id : string) (nd : loopyClusterNode) (s : clspec) : clspec :=
  let nd := nd <| lastSeen := clock (sa s) |> in
  let s := ClSpec (put_node id nd (sv s)) (S (sa s)) (se s) in
  if bool_decide (state nd = LOOPY_NODE_JOINING) then set_state id nd LOOPY_NODE_ACTIVE s else s.
Definition spec_heartbeat (id : string) : clspec -> bool * clspec := on_node id (heartbeat id).

(** What the user learns of a registration: nothing, a pointer that is no node, or
    the node that the handle leads to. *)
Inductive node_out := OutNull | OutNotFound | OutNode (i : loopyNodeInfo).

(** Registering a known name refreshes it, and gives it an address if it has none;
    a new one is joining, or active when it is the local one. *)
Definition spec_register (id : string) (addr : option string) (rl : Z) (s : clspec) : node_out * clspec :=
  let n := sa s in
  match cv_nodes (sv s) !! id with
  | Some nd =>
      let '(ad, n') :=
        match addr, address nd with
        | Some _, None => (copied addr (S n), after_copy addr (S n))
        | _, _ => (address nd, S n)
        end in
      let nd' := nd <| lastSeen := clock n |> <| address := ad |> <| roles := rl |> in
      (OutNode (nodeToInfo nd'), ClSpec (put_node id nd' (sv s)) n' (se s))
  | None =>
      if negb (mallocOk n) then (OutNull, s <| sa := S n |>)
      else
        let k := after_copy addr (S (S n)) in
        if negb (mallocOk (S n)) then (OutNull, s <| sa := S k |>)
        else if negb (mallocOk (S k)) then (OutNotFound, s <| sa := S (S k) |>)
        else
          let st := if (id =? cv_local (sv s))%string then LOOPY_NODE_ACTIVE else LOOPY_NODE_JOINING in
          let nd := ClusterNode id (copied addr (S (S n))) st rl (clock k) (clock k) 0 in
          (OutNode (nodeToInfo nd), ClSpec (put_node id nd (sv s)) (S (S k))
             (emitted (cv_cfg (sv s)) LOOPY_CLUSTER_NODE_JOINED (Some (nodeToInfo nd)) None (se s)))
  end.

(** The local node stays. *)
Definition spec_unregister (id : string) (s : clspec) : bool * clspec :=
  if (id =? cv_local (sv s))%string then (false, s)
  else
    match cv_nodes (sv s) !! id with
    | None => (false, s)
    | Some nd =>
        (true, ClSpec ((sv s) <| cv_nodes ::= delete id |>) (sa s)
                 (emitted (cv_cfg (sv s)) LOOPY_CLUSTER_NODE_LEFT (Some (nodeToInfo nd)) None (se s)))
    end.

(** *** The operations implement it *)

(** A node is written. *)
Lemma wp_put_node c v id a nd f (Q : unit -> cluster -> Prop) : rep c v -> handle c id a -> nodeHeap c !! a = Some nd ->
  nodeId (f nd) = id ->
  (forall c', c' = c <| nodeHeap ::= <[a := f nd]> |> -> rep c' (put_node id (f nd) v) -> handle c' id a -> Q tt c') ->
  wp (set_node a f) Q c.
Proof using All.
  intros H Hh Hn Hid HQ. eapply wp_set_node; [done|].
  destruct (rep_set_node c (c <| nodeHeap ::= <[a := f nd]> |>) v id a (f nd) H Hh) as [H' Hh']; [done..|]. by apply HQ.
Qed.

Lemma rep_node_id c v id nd : rep c v -> cv_nodes v !! id = Some nd -> nodeId nd = id.
Proof using All. intros (r & _ & H) Hn. by eapply rp_ids. Qed.

Lemma rep_registry c v : rep c v -> exists r, registry c = Some r /\ config r = cv_cfg v.
Proof using All. intros (r & Hr & H). exists r. split; [done|apply (rp_config _ _ _ H)]. Qed.

Lemma setState_ok c v id a st nd : rep c v -> handle c id a -> cv_nodes v !! id = Some nd ->
  wp (loopyClusterNodeSetState (Some a) st) (fun b c' => b = true /\ sim c' (set_state id nd st (abs c v))) c.
Proof using All.
  intros H Hh Hv. destruct (rep_handle c v id a H Hh) as (n & Hn & Hv'). assert (n = nd) as -> by congruence.
  unfold loopyClusterNodeSetState. do 4 cstep. cstep.
  eapply (wp_put_node (c <| asked ::= S |>) v id a nd); [by eapply rep_ext|done|done|exact (rep_node_id c v id nd H Hv)|].
  intros c1 -> H1 Hh1. cstep. unfold pwhen, set_state. destruct (rep_registry _ _ H) as (r & Hr & Ec). case_bool_decide; cbn [negb].
  - do 2 cstep. split; [done|]. by split.
  - eapply wp_emitEvent; [exact Hr|]. cstep. split; [done|]. split; [by eapply rep_ext|]. split; [done|]. cbn. by rewrite Ec.
Qed.

Lemma setRoles_ok c v id a rl nd : rep c v -> handle c id a -> cv_nodes v !! id = Some nd ->
  wp (loopyClusterNodeSetRoles (Some a) rl) (fun b c' => b = true /\ sim c' (set_roles id rl nd (abs c v))) c.
Proof using All.
  intros H Hh Hv. destruct (rep_handle c v id a H Hh) as (n & Hn & Hv'). assert (n = nd) as -> by congruence.
  unfold loopyClusterNodeSetRoles, set_roles. do 3 cstep.
  eapply (wp_put_node c v id a nd); [done|done|done|exact (rep_node_id c v id nd H Hv)|].
  intros c1 -> H1 Hh1. cstep. unfold pwhen. destruct (rep_registry _ _ H) as (r & Hr & Ec). destruct (Bool.eqb _ _); cbn [negb].
  - do 2 cstep. split; [done|]. by split.
  - eapply wp_emitEvent; [exact Hr|]. cstep. split; [done|]. split; [by eapply rep_ext|]. split; [done|]. cbn. by rewrite Ec.
Qed.

Lemma heartbeat_ok c v id a nd : rep c v -> handle c id a -> cv_nodes v !! id = Some nd ->
  wp (loopyClusterNodeHeartbeat (Some a)) (fun b c' => b = true /\ sim c' (heartbeat id nd (abs c v))) c.
Proof using All.
  intros H Hh Hv. destruct (rep_handle c v id a H Hh) as (n & Hn & Hv'). assert (n = nd) as -> by congruence.
  unfold loopyClusterNodeHeartbeat, heartbeat. do 3 cstep.
  eapply (wp_put_node (c <| asked ::= S |>) v id a nd); [by eapply rep_ext|done|done|exact (rep_node_id c v id nd H Hv)|].
  intros c1 E1 H1 Hh1. set (nd1 := nd <| lastSeen := clock (asked c) |>) in *.
  assert (Hn1 : nodeHeap c1 !! a = Some nd1) by (rewrite E1; apply lookup_insert_eq).
  do 3 cstep. case_bool_decide as Hst.
  - eapply wp_mono; [apply (setState_ok c1 (put_node id nd1 v) id a LOOPY_NODE_ACTIVE nd1 H1 Hh1); apply lookup_insert_eq|].
    intros b c2 [-> H2]. cstep. split; [done|]. cbv beta zeta. rewrite (bool_decide_eq_true_2 (state _ = _)) by done. by rewrite E1 in H2.
  - do 2 cstep. split; [done|]. cbv beta zeta. rewrite (bool_decide_eq_false_2 (state _ = _)) by done. rewrite E1 in *. by split.
Qed.

(** The answer to a registration, through the handle. *)
Definition node_answer (p : node_ptr) : prog cluster node_out :=
  match p with
  | NodeNull => mret OutNull
  | NodeNotFound => mret OutNotFound
  | NodeAt a =>
      i ← loopyClusterNodeGetInfo (Some a);
      mret (match i with Some i => OutNode i | None => OutNull end)
  end.

Lemma node_answer_at c a nd (Q : node_out -> cluster -> Prop) : nodeHeap c !! a = Some nd -> Q (OutNode (nodeToInfo nd)) c -> wp (node_answer (NodeAt a)) Q c.
Proof using Type. intros Hn HQ. unfold node_answer, loopyClusterNodeGetInfo. by repeat cstep. Qed.

Lemma register_again_ok c v id a addr rl nd : rep c v -> handle c id a -> cv_nodes v !! id = Some nd ->
  wp (now ← currentTimeMs;
      set_node a (fun n => n <| lastSeen := now |>) ≫= fun _ =>
      n ← the_node a;
      (match addr, address n with
       | Some _, None => ad ← registryStrdup addr; set_node a (fun n => n <| address := ad |>)
       | _, _ => mret tt
       end) ≫= fun _ =>
      set_node a (fun n => n <| roles := rl |>) ≫= fun _ => mret (NodeAt a))
    (fun p c' => wp (node_answer p) (fun o c'' => o = fst (spec_register id addr rl (abs c v)) /\
       sim c'' (snd (spec_register id addr rl (abs c v)))) c') c.
Proof using All.
  intros H Hh Hv. destruct (rep_handle c v id a H Hh) as (n & Hn & Hv'). assert (n = nd) as -> by congruence.
  pose proof (rep_node_id c v id nd H Hv) as Hid. unfold spec_register. cbn [abs sv sa]. rewrite Hv. do 3 cstep.
  eapply (wp_put_node (c <| asked ::= S |>) v id a nd); [by eapply rep_ext|done|done|done|].
  intros c1 E1 H1 Hh1. set (nd1 := nd <| lastSeen := clock (asked c) |>) in *.
  assert (Hn1 : nodeHeap c1 !! a = Some nd1) by (rewrite E1; apply lookup_insert_eq). do 2 cstep.
  assert (Hend : forall c2 ad, nodeHeap c2 !! a = Some (nd1 <| address := ad |>) -> handle c2 id a ->
    rep c2 (put_node id (nd1 <| address := ad |>) v) -> events c2 = events c ->
    wp (set_node a (fun n => n <| roles := rl |>) ≫= fun _ => mret (NodeAt a))
      (fun p c' => wp (node_answer p) (fun o c'' => o = OutNode (nodeToInfo (nd1 <| address := ad |> <| roles := rl |>)) /\
         sim c'' (ClSpec (put_node id (nd1 <| address := ad |> <| roles := rl |>) v) (asked c2) (events c))) c') c2).
  { intros c2 ad Hn2 Hh2 H2 He2. cstep. eapply (wp_put_node c2 _ id a); [exact H2|done|exact Hn2|done|].
    intros c3 -> H3 _. cstep. eapply node_answer_at; [apply lookup_insert_eq|]. split; [done|]. rewrite put_put in H3. by split. }
  assert (Hsame : nd1 = nd1 <| address := address nd |>) by (unfold nd1; by destruct nd).
  assert (Hstay : wp (set_node a (fun n => n <| roles := rl |>) ≫= fun _ => mret (NodeAt a))
      (fun p c' => wp (node_answer p) (fun o c'' => o = OutNode (nodeToInfo (nd1 <| address := address nd |> <| roles := rl |>)) /\
         sim c'' (ClSpec (put_node id (nd1 <| address := address nd |> <| roles := rl |>) v) (S (asked c)) (events c))) c') c1).
  { assert (Ea : S (asked c) = asked c1) by by rewrite E1. rewrite Ea. apply Hend; [by rewrite <- Hsame|done|by rewrite <- Hsame|by rewrite E1]. }
  change (address nd1) with (address nd). cstep. destruct addr as [ad|]; [|cstep; exact Hstay].
  destruct (address nd) as [ad0|] eqn:Ead; [cstep; exact Hstay|]. do 2 cstep.
  assert (Ea : asked c1 = S (asked c)) by by rewrite E1. rewrite Ea.
  eapply (wp_put_node (c1 <| asked := after_copy (Some ad) (S (asked c)) |>) (put_node id nd1 v) id a nd1); [by eapply rep_ext|done|done|done|].
  intros c2 E2 H2 Hh2. rewrite put_put in H2.
  assert (Ea2 : after_copy (Some ad) (S (asked c)) = asked c2) by by rewrite E2. rewrite Ea2.
  apply Hend; [by rewrite E2; apply lookup_insert_eq|done|done|by rewrite E2, E1].
Qed.

Lemma registerNode_ok c v id addr rl : rep c v ->
  wp (loopyClusterRegisterNode true (Some id) addr rl) (fun p c' => wp (node_answer p) (fun o c'' =>
    o = fst (spec_register id addr rl (abs c v)) /\ sim c'' (snd (spec_register id addr rl (abs c v)))) c') c.
Proof using All.
  intros H. pose proof H as (r & Hr & Hv). pose proof (rep_find c v r id Hr Hv) as HF.
  unfold loopyClusterRegisterNode. cbn [negb]. do 2 cstep. destruct (raxFind (nodes r) id) as [a|] eqn:Ef.
  { destruct (rep_handle c v id a H HF) as (nd & _ & Hnd). by apply (register_again_ok _ _ _ _ _ _ nd). }
  unfold spec_register. cbn [abs sv sa]. rewrite HF. do 2 cstep. destruct (negb (mallocOk (asked c))).
  { cstep. cbn [node_answer]. cstep. split; [done|by apply sim_tick]. }
  cstep. unfold registryStrdup at 1. do 4 cstep. cstep. do 2 cstep. change (asked (c <| asked ::= S |>)) with (S (asked c)).
  match goal with |- context [copied addr (asked ?x)] => change (asked x) with (S (S (asked c))) end.
  set (k := after_copy addr (S (S (asked c)))). set (ad := copied addr _).
  destruct (mallocOk (S (asked c))) eqn:Em; cbn [negb].
  2: { cstep. cbn [node_answer]. cstep. split; [done|by apply (sim_tick c v (S k))]. }
  do 2 cstep. match goal with |- context [mallocOk (asked ?x)] => change (asked x) with (S k) end.
  match goal with |- context [wallclock (asked ?x)] => change (asked x) with k end.
  destruct (mallocOk (S k)) eqn:Ek; cbn [negb].
  2: { do 2 cstep. rewrite Ef. cstep. cbn [node_answer]. cstep. split; [done|by apply (sim_tick c v (S (S k)))]. }
  do 2 cstep. match goal with |- context [fresh (dom ?h)] => change h with (nodeHeap c) end.
  rewrite (rp_local _ _ _ Hv). set (a := fresh (dom (nodeHeap c))). set (nd := ClusterNode _ _ _ _ _ _ _).
  assert (Ha : nodeHeap c !! a = None) by apply not_elem_of_dom, is_fresh.
  repeat cstep. eapply node_answer_at; [apply lookup_insert_eq|]. split; [done|].
  pose proof Ef as Ef'. rewrite raxFind_spec in Ef'. destruct (linked_insert _ _ id a nd (rp_nodes _ _ _ Hv) Ef' Ha) as [L1 L2].
  split; [|split; [done|by cbn; rewrite (rp_config _ _ _ Hv)]]. eexists. split; [reflexivity|].
  destruct Hv. constructor; cbn; rewrite ?raxTryInsert_spec by done; try done.
  - rewrite rp_nodes_view0. symmetry. exact L2.
  - intros k' m. rewrite lookup_insert_Some. intros [[-> <-]|[_ Hm]]; [done|by apply rp_ids0].
Qed.

Lemma unregister_ok c v id : rep c v ->
  wp (loopyClusterUnregisterNode true (Some id)) (fun x c' =>
    x = fst (spec_unregister id (abs c v)) /\ sim c' (snd (spec_unregister id (abs c v)))) c.
Proof using All.
  intros H. pose proof H as (r & Hr & Hv). pose proof (rep_find c v r id Hr Hv) as HF.
  unfold loopyClusterUnregisterNode, spec_unregister. cbn [negb abs sv]. do 2 cstep. rewrite (rp_local _ _ _ Hv).
  destruct (id =? cv_local v)%string; [by cstep|]. destruct (raxFind (nodes r) id) as [a|] eqn:Ef; [|rewrite HF; by cstep].
  destruct (rep_handle c v id a H HF) as (n & Hn & ->). unfold freeNode. repeat cstep. split; [done|].
  rewrite raxFind_spec in Ef. destruct (linked_delete _ _ id a (rp_nodes _ _ _ Hv) Ef) as [L1 L2].
  split; [|split; [done|by cbn; rewrite (rp_config _ _ _ Hv)]]. eexists. split; [reflexivity|].
  destruct Hv. constructor; cbn; rewrite ?raxRemove_spec; try done.
  - rewrite rp_nodes_view0. symmetry. exact L2.
  - intros k m [_ Hm]%lookup_delete_Some. by apply rp_ids0.
Qed.
End Nodes.

(** ** Periodic processing *)

(** The store without some keys; the nodes with some of them failed. *)
Definition drop_keys (ks : list string) (m : gmap string configEntry) : gmap string configEntry :=
  filter (fun x => x.1 ∉ ks) m.
Definition fail_nodes (ids : list string) (m : gmap string loopyClusterNode) : gmap string loopyClusterNode :=
  map_imap (fun id n => Some (if bool_decide (id ∈ ids) then n <| state := LOOPY_NODE_FAILED |> else n)) m.

Lemma drop_keys_cons k ks m : drop_keys ks (delete k m) = drop_keys (k :: ks) m.
Proof.
  unfold drop_keys. apply map_eq. intros i. rewrite !map_lookup_filter. destruct (decide (i = k)) as [->|Hne].
  - rewrite lookup_delete_eq. simpl. destruct (m !! k); simpl; [|done]. by rewrite option_guard_False; [|set_solver].
  - rewrite lookup_delete_ne by done. destruct (m !! i); simpl; [|done].
    destruct (decide (i ∈ ks)); [rewrite !option_guard_False; set_solver|rewrite !option_guard_True; set_solver].
Qed.

Lemma drop_keys_nil m : drop_keys [] m = m.
Proof. unfold drop_keys. apply map_filter_id. intros i x _. apply not_elem_of_nil. Qed.

Lemma fail_nodes_lookup ids m id : fail_nodes ids m !! id =
  (fun n => if bool_decide (id ∈ ids) then n <| state := LOOPY_NODE_FAILED |> else n) <$> m !! id.
Proof. unfold fail_nodes. rewrite map_lookup_imap. by destruct (m !! id). Qed.

Lemma fail_nodes_nil m : fail_nodes [] m = m.
Proof.
  apply map_eq. intros i. rewrite fail_nodes_lookup, bool_decide_eq_false_2 by apply not_elem_of_nil.
  by destruct (m !! i).
Qed.

Lemma fail_nodes_cons id ids m :
  fail_nodes ids (alter (fun n => n <| state := LOOPY_NODE_FAILED |>) id m) = fail_nodes (id :: ids) m.
Proof.
  apply map_eq. intros i. rewrite !fail_nodes_lookup. destruct (decide (i = id)) as [->|Hne].
  - rewrite lookup_alter_eq. destruct (m !! id) as [n|]; simpl; [|done].
    rewrite (bool_decide_eq_true_2 (id ∈ id :: ids)) by set_solver. by case_bool_decide.
  - rewrite lookup_alter_ne by done. destruct (m !! i) as [n|]; simpl; [|done].
    by rewrite (bool_decide_ext (i ∈ id :: ids) (i ∈ ids)) by set_solver.
Qed.

Section Process.
Context {R : Rax} {RS : RaxSpec R} `{Env : ClusterEnv}.

(** No allocation from number [lo] to before number [hi] fails. *)
Definition memory_ok (lo hi : nat) : Prop := forall k, lo <= k < hi -> mallocOk k = true.

(** What the two collecting loops return: keys of elements that satisfy [p],
    each once, all of them if memory ([mem]) and the 64 places are enough. *)
Definition collected (mem : Prop) (p : string -> nat -> Prop) (l : list (string * nat)) (count : nat) (ks : list string) : Prop :=
  (forall k, k ∈ ks -> exists a, (k, a) ∈ l /\ p k a) /\ NoDup ks /\ length ks + count <= 64 /\
  (mem -> length ks + count < 64 -> forall k a, (k, a) ∈ l -> p k a -> k ∈ ks).

Lemma collected_nil mem p l count : count <= 64 -> (count < 64 -> forall k a, (k, a) ∈ l -> ~ p k a) -> collected mem p l count [].
Proof using Type.
  intros Hc Hl. split; [by intros k ?%elem_of_nil|]. split; [constructor|]. split; [done|].
  intros _ Hlt k a Hka Hp. by destruct (Hl Hlt k a Hka).
Qed.

Lemma collected_take mem p l count ks k a : NoDup ((k, a) :: l).*1 -> p k a -> collected mem p l (S count) ks ->
  collected mem p ((k, a) :: l) count (k :: ks).
Proof using Type.
  intros Hn Hp (H1 & H2 & H3 & H4). apply NoDup_cons in Hn as [Hk _]. split; [|split; [|split]].
  - intros k' [->|Hk']%elem_of_cons; [exists a; split; [by left|done]|].
    destruct (H1 k' Hk') as (a' & ? & ?). exists a'. split; [by right|done].
  - apply NoDup_cons. split; [|done]. intros Hin. destruct (H1 k Hin) as (a' & Ha' & _). apply Hk.
    apply list_elem_of_fmap. by exists (k, a').
  - simpl. lia.
  - intros Hm Hlt k' a' [Heq|Hin]%elem_of_cons Hp'; [injection Heq as -> ->; by left|].
    right. apply (H4 Hm ltac:(simpl in Hlt; lia) k' a'); done.
Qed.

Lemma collected_mono (mem mem' : Prop) p l count ks : (mem' -> mem) -> collected mem p l count ks -> collected mem' p l count ks.
Proof using Type. intros Hm (H1 & H2 & H3 & H4). split_and!; [done..|]. intros Hm'. by apply H4, Hm. Qed.

Lemma collected_skip (mem : Prop) p l count ks k a : (mem -> ~ p k a) -> collected mem p l count ks ->
  collected mem p ((k, a) :: l) count ks.
Proof using Type.
  intros Hp (H1 & H2 & H3 & H4). split; [|split; [done|split; [done|]]].
  - intros k' Hk'. destruct (H1 k' Hk') as (a' & ? & ?). exists a'. split; [by right|done].
  - intros Hm Hlt k' a' [Heq|Hin]%elem_of_cons Hp'; [injection Heq as -> ->; by destruct (Hp Hm)|]. by apply (H4 Hm Hlt k' a').
Qed.

(** The loops only ask for memory. *)
Definition quiet (c c' : cluster) : Prop :=
  registry c' = registry c /\ nodeHeap c' = nodeHeap c /\ entryHeap c' = entryHeap c /\ events c' = events c /\
  asked c <= asked c'.

Lemma quiet_refl c : quiet c c.
Proof using Type. by unfold quiet. Qed.

Lemma quiet_tick c c' : quiet (c <| asked ::= S |>) c' -> quiet c c'.
Proof using Type. unfold quiet. cbn. intros (? & ? & ? & ? & ?). split_and!; [done..|lia]. Qed.

Lemma memory_tick n m : memory_ok n m -> memory_ok (S n) m.
Proof using Type. intros H k Hk. apply H. lia. Qed.

Lemma collectExpired_ok now l count c :
  NoDup l.*1 -> (forall k a, (k, a) ∈ l -> is_Some (entryHeap c !! a)) -> count <= 64 ->
  wp (collectExpired l now count) (fun ks c' => quiet c c' /\
    collected (memory_ok (asked c) (asked c')) (fun _ a => exists e, entryHeap c !! a = Some e /\ isExpired e now = true) l count ks) c.
Proof using Type.
  revert count c. induction l as [|[k a] l IH]; intros count c Hn Hl Hc; cbn [collectExpired].
  { cstep. split; [apply quiet_refl|]. apply collected_nil; [done|]. by intros _ k a ?%elem_of_nil. }
  destruct (Nat.ltb_spec count 64); [|cstep; split; [apply quiet_refl|]; apply collected_nil; [done|lia]].
  destruct (Hl k a) as [e He]; [by left|]. pose proof Hn as Hn'. apply NoDup_cons in Hn' as [_ Hn'].
  assert (Hl' : forall k a, (k, a) ∈ l -> is_Some (entryHeap c !! a)) by (intros k' a' Hi; apply (Hl k' a'); by right).
  do 2 cstep. destruct (isExpired e now) eqn:Ee.
  - do 2 cstep. destruct (mallocOk (asked c)) eqn:Em.
    + cstep. eapply wp_mono; [eapply (IH (S count)); [exact Hn'|exact Hl'|exact H]|].
      cbv beta. intros ks c1 [Hq Hks]. cstep. split; [by apply quiet_tick|].
      apply collected_take; [done|by exists e|]. eapply collected_mono; [|exact Hks]. by apply memory_tick.
    + eapply wp_mono; [eapply (IH count); [exact Hn'|exact Hl'|exact Hc]|].
      cbv beta. intros ks c1 [Hq Hks]. split; [by apply quiet_tick|]. apply collected_skip; [|eapply collected_mono; [|exact Hks]; by apply memory_tick].
      intros Hm. destruct Hq as (_ & _ & _ & _ & Hq). cbn in Hq. by rewrite Hm in Em by lia.
  - eapply wp_mono; [exact (IH count c Hn' Hl' Hc)|]. cbv beta. intros ks c1 [Hq Hks]. split; [done|].
    apply collected_skip; [|done]. intros _ (e' & He' & Ex). congruence.
Qed.

Lemma collectFailed_ok local now timeout l count c :
  NoDup l.*1 -> (forall k a, (k, a) ∈ l -> exists n, nodeHeap c !! a = Some n /\ nodeId n = k) -> count <= 64 ->
  wp (collectFailed local l now timeout count) (fun ks c' => quiet c c' /\
    collected (memory_ok (asked c) (asked c')) (fun _ a => exists n, nodeHeap c !! a = Some n /\ timedOut local n now timeout = true) l count ks) c.
Proof using Type.
  revert count c. induction l as [|[k a] l IH]; intros count c Hn Hl Hc; cbn [collectFailed].
  { cstep. split; [apply quiet_refl|]. apply collected_nil; [done|]. by intros _ k a ?%elem_of_nil. }
  destruct (Nat.ltb_spec count 64); [|cstep; split; [apply quiet_refl|]; apply collected_nil; [done|lia]].
  destruct (Hl k a) as (n & He & Hid); [by left|]. pose proof Hn as Hn'. apply NoDup_cons in Hn' as [_ Hn'].
  assert (Hl' : forall k a, (k, a) ∈ l -> exists n, nodeHeap c !! a = Some n /\ nodeId n = k)
    by (intros k' a' Hi; apply (Hl k' a'); by right).
  do 2 cstep. destruct (timedOut local n now timeout) eqn:Ee.
  - unfold registryStrdup. do 4 cstep. destruct (mallocOk (asked c)) eqn:Em.
    + cstep. eapply wp_mono; [eapply (IH (S count)); [exact Hn'|exact Hl'|exact H]|].
      cbv beta. intros ks c1 [Hq Hks]. cstep. split; [by apply quiet_tick|]. rewrite Hid.
      apply collected_take; [done|by exists n|]. eapply collected_mono; [|exact Hks]. by apply memory_tick.
    + eapply wp_mono; [eapply (IH count); [exact Hn'|exact Hl'|exact Hc]|].
      cbv beta. intros ks c1 [Hq Hks]. split; [by apply quiet_tick|]. apply collected_skip; [|eapply collected_mono; [|exact Hks]; by apply memory_tick].
      intros Hm. destruct Hq as (_ & _ & _ & _ & Hq). cbn in Hq. by rewrite Hm in Em by lia.
  - eapply wp_mono; [exact (IH count c Hn' Hl' Hc)|]. cbv beta. intros ks c1 [Hq Hks]. split; [done|].
    apply collected_skip; [|done]. intros _ (e' & He' & Ex). congruence.
Qed.

Lemma store_eq v f : v <| cv_store ::= f |> = CView (cv_local v) (cv_cfg v) (cv_nodes v) (f (cv_store v)) (cv_version v).
Proof using Type. done. Qed.

(** What is reported of the entries and of the nodes, in order. *)
Definition expired_events (cfg : loopyClusterConfig) (store : gmap string configEntry) (ks : list string) (es : list cluster_event) :=
  fold_left (fun es k => emitted cfg LOOPY_CLUSTER_CONFIG_CHANGE None (toConfigValue k <$> store !! k) es) ks es.
Definition failed_info (n : loopyClusterNode) : loopyNodeInfo := nodeToInfo (n <| state := LOOPY_NODE_FAILED |>).
Definition failed_events (cfg : loopyClusterConfig) (ns : gmap string loopyClusterNode) (ids : list string) (es : list cluster_event) :=
  fold_left (fun es id => emitted cfg LOOPY_CLUSTER_NODE_FAILED (failed_info <$> ns !! id) None es) ids es.

Lemma expired_events_ext cfg m m' ks : (forall k, k ∈ ks -> m !! k = m' !! k) ->
  forall es, expired_events cfg m ks es = expired_events cfg m' ks es.
Proof using Type.
  unfold expired_events. induction ks as [|k ks IH]; intros Hk es; [done|]. cbn [fold_left]. rewrite (Hk k) by by left.
  apply IH. intros k' Hk'. apply Hk. by right.
Qed.

Lemma failed_events_ext cfg m m' ids : (forall k, k ∈ ids -> m !! k = m' !! k) ->
  forall es, failed_events cfg m ids es = failed_events cfg m' ids es.
Proof using Type.
  unfold failed_events. induction ids as [|k ids IH]; intros Hk es; [done|]. cbn [fold_left]. rewrite (Hk k) by by left.
  apply IH. intros k' Hk'. apply Hk. by right.
Qed.

Lemma removeExpired_ok ks n c v :
  rep c v -> NoDup ks -> (forall k, k ∈ ks -> is_Some (cv_store v !! k)) -> (0 <= n)%Z -> (n + Z.of_nat (length ks) < w64)%Z ->
  wp (removeExpired ks n) (fun m c' => m = (n + Z.of_nat (length ks))%Z /\
    sim c' (ClSpec (v <| cv_store ::= drop_keys ks |>) (asked c) (expired_events (cv_cfg v) (cv_store v) ks (events c)))) c.
Proof using All.
  revert n c v. induction ks as [|k ks IH]; intros n c v H Hn Hk H0 H64; cbn [removeExpired].
  { cstep. rewrite store_eq, drop_keys_nil. split; [simpl; lia|]. by destruct v. }
  pose proof H as (r & Hr & Hv). pose proof (rep_entry c v r k Hr Hv) as HE. apply NoDup_cons in Hn as [Hnk Hn].
  destruct (Hk k) as [e0 He0]; [by left|]. do 2 cstep.
  destruct (raxFind (configData r) k) as [a|] eqn:Ef; [|congruence]. destruct HE as (e & He & Ee).
  eapply (remove_entry_ok c v r k a e (toConfigValue k)); [done..|]. intros c1 (H1 & Ha1 & He1). simpl length in *. cbn in Ha1, He1.
  assert (En : (n +64 1) = (n + 1)%Z) by (apply u64_small; unfold in64; lia). rewrite En.
  eapply wp_mono; [apply (IH _ _ _ H1 Hn); [|lia|lia]|].
  - intros k' Hk'. cbn. rewrite lookup_delete_ne by (intros ->; done). apply Hk. by right.
  - intros m c2 [Hm H2]. split; [lia|]. unfold expired_events at 1. cbn [fold_left]. rewrite Ee. cbn [fmap option_fmap option_map].
    rewrite store_eq in H2 |- *. cbn in H2. rewrite drop_keys_cons, Ha1, He1 in H2.
    rewrite (expired_events_ext _ (delete k (cv_store v)) (cv_store v)) in H2; [exact H2|].
    intros k' Hk'. apply lookup_delete_ne. by intros ->.
Qed.

Lemma markFailed_ok ids n c v :
  rep c v -> NoDup ids -> (forall id, id ∈ ids -> is_Some (cv_nodes v !! id)) -> (0 <= n)%Z ->
  (n + Z.of_nat (length ids) < w64)%Z ->
  wp (markFailed ids n) (fun m c' => m = (n + Z.of_nat (length ids))%Z /\
    sim c' (ClSpec (v <| cv_nodes ::= fail_nodes ids |>) (asked c) (failed_events (cv_cfg v) (cv_nodes v) ids (events c)))) c.
Proof using All.
  revert n c v. induction ids as [|id ids IH]; intros n c v H Hn Hk H0 H64; cbn [markFailed].
  { cstep. split; [simpl; lia|]. split; [|done]. cbn [sv].
    change (v <| cv_nodes ::= fail_nodes [] |>) with (CView (cv_local v) (cv_cfg v) (fail_nodes [] (cv_nodes v)) (cv_store v) (cv_version v)).
    rewrite fail_nodes_nil. by destruct v. }
  pose proof H as (r & Hr & Hv). pose proof (rep_find c v r id Hr Hv) as HF. apply NoDup_cons in Hn as [Hnk Hn].
  destruct (Hk id) as [n0 Hn0]; [by left|]. do 2 cstep.
  destruct (raxFind (nodes r) id) as [a|] eqn:Ef; [|congruence].
  cstep. eapply (wp_update_node c v id a); [done|done|done|]. intros c1 H1 Hh1 [Ea1 Ee1].
  destruct (rep_handle c1 _ id a H1 Hh1) as (n1 & Hn1 & Hv1). do 3 cstep.
  assert (En1 : n1 = n0 <| state := LOOPY_NODE_FAILED |>) by (unfold upd_node in Hv1; cbn in Hv1; rewrite lookup_alter_eq, Hn0 in Hv1; by injection Hv1 as <-).
  pose proof H1 as (r1 & Hr1 & Hvw1). eapply wp_emitEvent; [exact Hr1|].
  set (c2 := c1 <| events ::= _ |>).
  assert (H2 : rep c2 (upd_node id (fun x => x <| state := LOOPY_NODE_FAILED |>) v)) by by eapply rep_ext.
  simpl length in *. assert (En : (n +64 1) = (n + 1)%Z) by (apply u64_small; unfold in64; lia). rewrite En.
  eapply wp_mono; [apply (IH _ _ _ H2 Hn); [|lia|lia]|].
  - intros k' Hk'. unfold upd_node. cbn. rewrite lookup_alter_ne by (intros ->; done). apply Hk. by right.
  - intros m c3 [Hm H3]. split; [lia|].
    change (v <| cv_nodes ::= fail_nodes (id :: ids) |>) with
      (CView (cv_local v) (cv_cfg v) (fail_nodes (id :: ids) (cv_nodes v)) (cv_store v) (cv_version v)).
    rewrite <- fail_nodes_cons. unfold failed_events at 1. cbn [fold_left]. rewrite Hn0. cbn [fmap option_fmap option_map].
    assert (Ee2 : events c2 = emitted (cv_cfg v) LOOPY_CLUSTER_NODE_FAILED (Some (failed_info n0)) None (events c)).
    { unfold c2. cbn. rewrite Ee1, En1. f_equal. rewrite (rp_config _ _ _ Hvw1). done. }
    destruct H3 as (H3 & Ha3 & He3). split; [exact H3|]. split; [cbn in *; by rewrite Ha3, Ea1|].
    cbn [se] in *. rewrite He3, Ee2. apply failed_events_ext. intros k' Hk'. apply lookup_alter_ne. by intros ->.
Qed.

(** The keys to drop and the nodes to fail at time [now]. *)
Definition process_effect (mem : Prop) (v : cview) (now : Z) (ks ids : list string) (v' : cview) : Prop :=
  (forall k, k ∈ ks -> exists e, cv_store v !! k = Some e /\ isExpired e now = true) /\
  (forall id, id ∈ ids -> exists n, cv_nodes v !! id = Some n /\
     timedOut (cv_local v) n now (failureTimeoutMs (cv_cfg v)) = true) /\
  NoDup ks /\ NoDup ids /\
  (mem -> length ks < 64 -> forall k e, cv_store v !! k = Some e -> isExpired e now = true -> k ∈ ks) /\
  (mem -> length ids < 64 -> forall id n, cv_nodes v !! id = Some n ->
     timedOut (cv_local v) n now (failureTimeoutMs (cv_cfg v)) = true -> id ∈ ids) /\
  length ks <= 64 /\ length ids <= 64 /\
  v' = v <| cv_store ::= drop_keys ks |> <| cv_nodes ::= fail_nodes ids |>.

(** The elements an iteration over a tree goes through. *)
Lemma elems_nodup t : NoDup (raxElems t).*1.
Proof using All. rewrite raxElems_spec. apply NoDup_fst_map_to_list. Qed.

Lemma elem_of_elems t k a : (k, a) ∈ raxElems t <-> rax_map t !! k = Some a.
Proof using All. rewrite raxElems_spec. apply elem_of_map_to_list. Qed.

Definition process_events (v : cview) (ks ids : list string) (es : list cluster_event) : list cluster_event :=
  failed_events (cv_cfg v) (cv_nodes v) ids (expired_events (cv_cfg v) (cv_store v) ks es).

Lemma clusterProcess_ok c v : rep c v ->
  wp (loopyClusterProcess true) (fun m c' => exists ks ids v', rep c' v' /\
    process_effect (memory_ok (asked c) (asked c')) v (clock (asked c)) ks ids v' /\ m = Z.of_nat (length ks + length ids) /\
    asked c < asked c' /\ events c' = process_events v ks ids (events c)) c.
Proof using All.
  intros H. pose proof H as (r & Hr & Hv). unfold loopyClusterProcess. cbn [negb]. do 4 cstep.
  set (now := u64 (wallclock (asked c))). change (clock (asked c)) with now. set (c0 := c <| asked ::= S |>).
  assert (H0 : rep c0 v) by by eapply rep_ext.
  eapply wp_seq; [apply (collectExpired_ok now _ 0 c0 (elems_nodup _)); [|lia]|].
  { intros k a Ha%elem_of_elems. by apply (lk_live _ _ (rp_data _ _ _ Hv) k a). }
  intros ks c1 [(Q1 & Q2 & Q3 & Q4 & Q5) (K1 & K2 & K3 & K4)].
  assert (Hst : forall k e, cv_store v !! k = Some e <-> exists a, (k, a) ∈ raxElems (configData r) /\ entryHeap c0 !! a = Some e).
  { intros k e. rewrite (rp_data_view _ _ _ Hv), view_lookup. setoid_rewrite elem_of_elems.
    destruct (rax_map (configData r) !! k) as [a|]; simpl; [split; [by exists a|by intros (? & [= <-] & ?)]|naive_solver]. }
  assert (HK : forall k, k ∈ ks -> exists e, cv_store v !! k = Some e /\ isExpired e now = true).
  { intros k Hk. destruct (K1 k Hk) as (a & Ha & e & He & Ex). exists e. split; [|done]. apply Hst. by exists a. }
  eapply wp_seq; [apply (removeExpired_ok ks 0 c1 v); [eapply rep_ext; [exact H0|done..]|done| |done|unfold w64; lia]|].
  { intros k Hk. destruct (HK k Hk) as (e & He & _). by eexists. }
  intros m c2 [-> (H2 & A2 & E2)]. cbn in H2, A2, E2. pose proof H2 as (r2 & Hr2 & Hv2). do 2 cstep.
  eapply wp_seq; [apply (collectFailed_ok _ now _ _ 0 c2 (elems_nodup _)); [|lia]|].
  { intros id a Ha%elem_of_elems. destruct (view_Some _ _ id a (rp_nodes _ _ _ Hv2) Ha) as (n & Hn & En).
    exists n. split; [done|]. rewrite <- (rp_nodes_view _ _ _ Hv2) in En. by apply (rp_ids _ _ _ Hv2). }
  intros ids c3 [(P1 & P2 & P3 & P4 & P5) (I1 & I2 & I3 & I4)].
  assert (Hnd : forall id n, cv_nodes v !! id = Some n <-> exists a, (id, a) ∈ raxElems (nodes r2) /\ nodeHeap c2 !! a = Some n).
  { intros id n. change (cv_nodes v) with (cv_nodes (v <| cv_store ::= drop_keys ks |>)).
    rewrite (rp_nodes_view _ _ _ Hv2), view_lookup. setoid_rewrite elem_of_elems.
    destruct (rax_map (nodes r2) !! id) as [a|]; simpl; [split; [by exists a|by intros (? & [= <-] & ?)]|naive_solver]. }
  pose proof (rp_local _ _ _ Hv2) as EL. pose proof (rp_config _ _ _ Hv2) as EC. cbn in EL, EC. rewrite EL, EC in *.
  assert (HI : forall id, id ∈ ids -> exists n, cv_nodes v !! id = Some n /\
     timedOut (cv_local v) n now (failureTimeoutMs (cv_cfg v)) = true).
  { intros id Hid. destruct (I1 id Hid) as (a & Ha & n & Hn & Et). exists n. split; [|done]. apply Hnd. by exists a. }
  eapply wp_mono; [apply (markFailed_ok ids _ c3 (v <| cv_store ::= drop_keys ks |>)); [eapply rep_ext; [exact H2|done..]|done| |lia|unfold w64; lia]|].
  { intros id Hid. destruct (HI id Hid) as (n & Hn & _). by eexists. }
  intros m c4 [-> (H4 & A4 & E4)]. cbn in H4, A4, E4. eexists ks, ids, _. split; [exact H4|].
  split; [|split; [lia|split; [cbn in Q5; lia|by rewrite E4, P4, E2, Q4]]].
  split; [done|]. split; [done|]. split; [done|]. split; [done|]. split; [|split; [|split; [lia|split; [lia|done]]]].
  - intros Hm Hl k e (a & Ha & He)%Hst Ex. apply (K4 ltac:(intros j Hj; apply Hm; cbn in *; lia) ltac:(lia) k a Ha). by exists e.
  - intros Hm Hl id n (a & Ha & Hn)%Hnd Et. apply (I4 ltac:(intros j Hj; apply Hm; cbn in *; lia) ltac:(lia) id a Ha). by exists n.
Qed.
End Process.

(** ** Any use of a registry *)

Inductive cl_op :=
| CRegister (id : string) (addr : option string) (rl : Z)
| CUnregister (id : string)
| CSetState (id : string) (st : loopyNodeState)
| CSetRoles (id : string) (rl : Z)
| CHeartbeat (id : string)
| CSet (k : string) (val : bytes) (ttl : Z)
| CGet (k : string)
| CDelete (k : string)
| CProcess.

Section Usage.
Context {R : Rax} {RS : RaxSpec R} `{Env : ClusterEnv}.

(** An operation on a node by its name; the user's result. *)
Inductive cl_out :=
| OutReg (o : node_out)
| OutBool (b : bool)
| OutVersion (ver : Z)
| OutValue (x : option bytes)
| OutCount (m : Z).

Definition with_node (id : string) (f : option nat -> prog cluster bool) : prog cluster cl_out :=
  a ← loopyClusterGetNode true (Some id); b ← f a; mret (OutBool b).

Definition cl_do (op : cl_op) : prog cluster cl_out :=
  match op with
  | CRegister id addr rl => p ← loopyClusterRegisterNode true (Some id) addr rl; o ← node_answer p; mret (OutReg o)
  | CUnregister id => b ← loopyClusterUnregisterNode true (Some id); mret (OutBool b)
  | CSetState id st => with_node id (fun a => loopyClusterNodeSetState a st)
  | CSetRoles id rl => with_node id (fun a => loopyClusterNodeSetRoles a rl)
  | CHeartbeat id => with_node id loopyClusterNodeHeartbeat
  | CSet k val ttl => ver ← loopyClusterConfigSet true (Some k) (Some val) ttl; mret (OutVersion ver)
  | CGet k => x ← loopyClusterConfigGet true (Some k); mret (OutValue x)
  | CDelete k => b ← loopyClusterConfigDelete true (Some k); mret (OutBool b)
  | CProcess => m ← loopyClusterProcess true; mret (OutCount m)
  end.

Fixpoint cl_run (ops : list cl_op) : prog cluster (list cl_out) :=
  match ops with [] => mret [] | op :: ops => o ← cl_do op; os ← cl_run ops; mret (o :: os) end.

(** The specification: result and next state.  They are functions of the state but
    for the processing, whose order is that of the trees: there is a set of entries
    to drop and one of nodes to fail, as [process_effect] says. *)
Definition cl_trans (op : cl_op) (s : clspec) (o : cl_out) (s' : clspec) : Prop :=
  match op with
  | CRegister id addr rl => (o, s') = (OutReg (fst (spec_register id addr rl s)), snd (spec_register id addr rl s))
  | CUnregister id => (o, s') = (OutBool (fst (spec_unregister id s)), snd (spec_unregister id s))
  | CSetState id st => (o, s') = (OutBool (fst (spec_set_state id st s)), snd (spec_set_state id st s))
  | CSetRoles id rl => (o, s') = (OutBool (fst (spec_set_roles id rl s)), snd (spec_set_roles id rl s))
  | CHeartbeat id => (o, s') = (OutBool (fst (spec_heartbeat id s)), snd (spec_heartbeat id s))
  | CSet k val ttl => (o, s') = (OutVersion (fst (spec_set k val ttl s)), snd (spec_set k val ttl s))
  | CGet k => (o, s') = (OutValue (fst (spec_get k s)), snd (spec_get k s))
  | CDelete k => (o, s') = (OutBool (fst (spec_delete k s)), snd (spec_delete k s))
  | CProcess => exists ks ids, process_effect (memory_ok (sa s) (sa s')) (sv s) (clock (sa s)) ks ids (sv s') /\
      o = OutCount (Z.of_nat (length ks + length ids)) /\ sa s < sa s' /\ se s' = process_events (sv s) ks ids (se s)
  end.

Fixpoint cl_reach (s : clspec) (ops : list cl_op) (os : list cl_out) (s' : clspec) : Prop :=
  match ops, os with
  | [], [] => s' = s
  | op :: ops, o :: os => exists s1, cl_trans op s o s1 /\ cl_reach s1 ops os s'
  | _, _ => False
  end.

(** Creation needs five allocations; then the local node is registered, which may
    fail unnoticed. *)
Definition spec_new (cfg : option loopyClusterConfig) (s : nat * list cluster_event) : option clspec :=
  cfg ← cfg; id ← cfg_localNodeId cfg;
  let '(n, es) := s in
  if mallocOk n && mallocOk (S n) && mallocOk (2 + n) && mallocOk (3 + n) && mallocOk (4 + n)
  then Some (snd (spec_register id (cfg_localAddress cfg) (cfg_localRoles cfg) (ClSpec (CView id cfg ∅ ∅ 0) (5 + n) es)))
  else None.

(** A step from related states gives the specified result and related states. *)
Lemma with_node_ok c v id f g : rep c v -> (forall c, wp (f None) (fun b c' => b = false /\ c' = c) c) ->
  (forall a nd, handle c id a -> cv_nodes v !! id = Some nd -> wp (f (Some a)) (fun b c' => b = true /\ sim c' (g nd (abs c v))) c) ->
  wp (with_node id f) (fun o c' => o = OutBool (fst (on_node id g (abs c v))) /\ sim c' (snd (on_node id g (abs c v)))) c.
Proof using All.
  intros H HN HS. pose proof H as (r & Hr & Hv). unfold with_node, loopyClusterGetNode, on_node. cbn [negb abs sv]. do 4 cstep.
  pose proof (rep_find c v r id Hr Hv) as HF. destruct (raxFind (nodes r) id) as [a|]; cstep.
  - destruct (rep_handle c v id a H HF) as (nd & _ & Hnd). rewrite Hnd. eapply wp_mono; [exact (HS a nd HF Hnd)|]. intros b c1 [-> H1]. by cstep.
  - rewrite HF. eapply wp_mono; [by apply HN|]. intros b c1 [-> ->]. by cstep.
Qed.

Lemma cl_do_ok op c v : rep c v -> wp (cl_do op) (fun o c' => exists s', sim c' s' /\ cl_trans op (abs c v) o s') c.
Proof using All.
  intros H. destruct op as [id addr rl|id|id st|id rl|id|k val ttl|k|k|]; cbn [cl_do cl_trans].
  - eapply wp_seq; [by apply registerNode_ok|]. intros p c1 H1. eapply wp_seq; [exact H1|]. intros o c2 [-> H2]. cstep. eauto.
  - eapply wp_seq; [by apply unregister_ok|]. intros b c1 [-> H1]. cstep. eauto.
  - eapply wp_mono; [apply (with_node_ok c v id (fun a => loopyClusterNodeSetState a st) (fun nd => set_state id nd st)); [done|intros c'; by apply wp_ret|]|].
    + intros a nd Ha Hn. by apply setState_ok.
    + intros o c1 [-> H1]. eexists. split; [exact H1|]. done.
  - eapply wp_mono; [apply (with_node_ok c v id (fun a => loopyClusterNodeSetRoles a rl) (set_roles id rl)); [done|intros c'; by apply wp_ret|]|].
    + intros a nd Ha Hn. by apply setRoles_ok.
    + intros o c1 [-> H1]. eexists. split; [exact H1|]. done.
  - eapply wp_mono; [apply (with_node_ok c v id loopyClusterNodeHeartbeat (heartbeat id)); [done|intros c'; by apply wp_ret|]|].
    + intros a nd Ha Hn. by apply heartbeat_ok.
    + intros o c1 [-> H1]. eexists. split; [exact H1|]. done.
  - eapply wp_seq; [by apply configSet_ok|]. intros ver c1 [-> H1]. cstep. eauto.
  - eapply wp_seq; [by apply configGet_ok|]. intros x c1 [-> H1]. cstep. eauto.
  - eapply wp_seq; [by apply configDelete_ok|]. intros x c1 [-> H1]. cstep. eauto.
  - eapply wp_seq; [by apply clusterProcess_ok|]. intros m c1 (ks & ids & v1 & H1 & HT & -> & Ha & He). cstep.
    exists (abs c1 v1). split; [by apply abs_sim|]. exists ks, ids. by split_and!.
Qed.

Lemma cl_run_ok ops c s : sim c s -> wp (cl_run ops) (fun os c' => exists s', sim c' s' /\ cl_reach s ops os s') c.
Proof using All.
  revert c s. induction ops as [|op ops IH]; intros c s H; cbn [cl_run cl_reach]; [cstep; by exists s|].
  rewrite (sim_abs _ _ H). eapply wp_seq; [apply cl_do_ok; apply H|]. intros o c1 (s1 & H1 & HT).
  eapply wp_seq; [by apply IH|]. intros os c2 (s2 & H2 & HR). cstep. exists s2. eauto.
Qed.

Definition fresh_cluster (c : cluster) : Prop := registry c = None /\ nodeHeap c = ∅ /\ entryHeap c = ∅.

Lemma node_answer_state p (P : cluster -> Prop) Q c : wp (node_answer p) (fun o c' => Q o /\ P c') c -> exists o, Q o /\ P c.
Proof using Type.
  destruct p as [| |a]; cbn [node_answer]; intros H; [exists OutNull; exact H|exists OutNotFound; exact H|].
  revert H. unfold loopyClusterNodeGetInfo, the_node, wp, prog_bind, get, mbind, mret. cbn -[lookup].
  destruct (nodeHeap c !! a); [|done]. intros H. eexists. exact H.
Qed.

Lemma registryNew_ok cfg c : fresh_cluster c ->
  wp (loopyClusterRegistryNew cfg) (fun ok c' =>
    match spec_new cfg (asked c, events c) with Some s => ok = true /\ sim c' s | None => ok = false /\ fresh_cluster c' end) c.
Proof using All.
  intros (Hr & Hn & He). unfold loopyClusterRegistryNew, spec_new. destruct cfg as [cfg|]; [|by cstep].
  cbn [mbind option_bind]. destruct (cfg_localNodeId cfg) as [id|]; [|by cstep]. cbn [mbind option_bind]. do 2 cstep.
  destruct (mallocOk (asked c)); cbn [negb andb]; [|by cstep].
  do 2 cstep. change (asked (c <| asked ::= S |>)) with (S (asked c)). cbn [copied]. destruct (mallocOk (S (asked c))); cbn [andb]; [|by cstep].
  do 2 cstep. match goal with |- context [mallocOk (asked ?x)] => change (asked x) with (2 + asked c) end.
  destruct (mallocOk (2 + asked c)); cbn [negb andb]; [|by cstep].
  do 2 cstep. match goal with |- context [mallocOk (asked ?x)] => change (asked x) with (3 + asked c) end.
  destruct (mallocOk (3 + asked c)); cbn [negb andb]; [|by cstep].
  do 2 cstep. match goal with |- context [mallocOk (asked ?x)] => change (asked x) with (4 + asked c) end.
  destruct (mallocOk (4 + asked c)); cbn [negb andb]; [|by cstep].
  do 3 cstep.
  eapply wp_mono; [apply (registerNode_ok _ (CView id cfg ∅ ∅ 0))|].
  - eexists. split; [reflexivity|]. constructor; cbn; rewrite ?Hn, ?He, ?rax_map_new; try done; apply linked_empty.
  - intros p c2 Hp. apply node_answer_state in Hp as (o & _ & H2). cstep. split; [done|]. exact H2.
Qed.

(** C29. A registry implements its specification on finite maps.  Creation
    succeeds exactly when [spec_new] says so; from then on every sequence of
    operations, whatever allocations fail and whatever the clock says, runs without
    an access to freed memory, and results, nodes, configuration, clock readings
    and events are those of [cl_trans]: a function of the state for every
    operation, but for periodic processing: the order in which it reports, which it
    chooses when 64 or more entries or nodes are due, and which it misses when one
    of its own allocations fails. *)
Theorem cluster_refines cfg ops c :
  fresh_cluster c ->
  exists ok c1, loopyClusterRegistryNew cfg c = Some (ok, c1) /\
    match spec_new cfg (asked c, events c) with
    | Some s1 => ok = true /\ sim c1 s1 /\
        exists os c2 s2, cl_run ops c1 = Some (os, c2) /\ sim c2 s2 /\ cl_reach s1 ops os s2
    | None => ok = false /\ fresh_cluster c1
    end.
Proof using All.
  intros Hc. destruct (wp_run _ _ _ (registryNew_ok cfg c Hc)) as (ok & c1 & E & HP). exists ok, c1. split; [done|].
  destruct (spec_new cfg _) as [s1|]; [|done]. destruct HP as (-> & H1). split; [done|]. split; [done|].
  destruct (wp_run _ _ _ (cl_run_ok ops c1 s1 H1)) as (os & c2 & E2 & s2 & H2 & HR). by exists os, c2, s2.
Qed.

Lemma clock_range n : (0 <= clock n < w64)%Z.
Proof using Type. apply u64_range. Qed.

(** What a successful set stores. *)
Lemma spec_set_stored k val ttl s : fst (spec_set k val ttl s) <> 0%Z ->
  let ver := cv_version (sv s) +64 1 in
  fst (spec_set k val ttl s) = ver /\
  sv (snd (spec_set k val ttl s)) = (sv s) <| cv_version := ver |> <| cv_store ::= <[k := ConfigEntry val ver
    (fst (spec_expiry ttl (match cv_store (sv s) !! k with Some _ => S (sa s) | None => S (S (sa s)) end)))]> |>.
Proof using Type.
  unfold spec_set. destruct (_ =? 0); [done|]. destruct (negb (mallocOk (sa s))); [done|].
  destruct (cv_store (sv s) !! k).
  - destruct (spec_expiry ttl _). done.
  - destruct (negb (mallocOk (S (sa s)))); [done|]. destruct (spec_expiry ttl _) as [at_ n]. by destruct (negb (mallocOk n)).
Qed.

(** The clock reading that a set of [k] with a time to live makes: after the one or
    two allocations. *)
Definition set_clock (c : cluster) (v : cview) (k : string) : Z :=
  clock (match cv_store v !! k with Some _ => S (asked c) | None => S (S (asked c)) end).

(** C32. What is set can be read: a set that answers a version answers the next
    one; a later read of the key, while the registry is unchanged, finds the value
    until the clock has advanced by the time to live since the reading that the set
    made ([set_clock]), and reads of other keys find what they found.  The time to
    live is such that the time of expiry fits in 64 bits: the code does not check
    ([config_ttl_wraps]). *)
Theorem cluster_config_roundtrip c v k val ttl c1 ver :
  rep c v -> (0 <= ttl)%Z -> (set_clock c v k + ttl < w64)%Z ->
  loopyClusterConfigSet true (Some k) (Some val) ttl c = Some (ver, c1) -> ver <> 0%Z ->
  ver = (cv_version v +64 1) /\
  exists v1, rep c1 v1 /\ forall c2 k', rep c2 v1 ->
    exists c3, loopyClusterConfigGet true (Some k') c2 = Some
      (if (k' =? k)%string then
         if (ttl >? 0)%Z && (clock (asked c2) >=? set_clock c v k + ttl)%Z then None else Some val
       else fst (spec_get k' (abs c2 v)), c3).
Proof using All.
  intros H H0 H64 E Hver. destruct (wp_run _ _ _ (configSet_ok c v k val ttl H)) as (ver' & c1' & E' & Ev & HS).
  rewrite E in E'. injection E' as <- <-. pose proof (spec_set_stored k val ttl (abs c v) ltac:(by rewrite <- Ev)) as [Hst Hsv].
  rewrite <- Ev in Hst. split; [exact Hst|]. destruct HS as (H1 & _). eexists. split; [exact H1|]. intros c2 k' H2.
  destruct (wp_run _ _ _ (configGet_ok c2 _ k' H2)) as (x & c3 & E3 & -> & _). exists c3. rewrite E3. do 2 f_equal.
  unfold spec_get. cbn [abs sv sa]. rewrite Hsv. cbn [cv_store update rebuild cview_rebuild]. cbn -[spec_expiry].
  destruct (String.eqb_spec k' k) as [->|Hne]; [|rewrite lookup_insert_ne by done; destruct (cv_store v !! k') as [e'|]; [by destruct (expireAt e' >? 0)%Z|done]].
  rewrite lookup_insert_eq. cbn [expireAt value].
  unfold set_clock in *. set (n := match cv_store v !! k with Some _ => _ | None => _ end) in *. unfold spec_expiry.
  rewrite !Z.gtb_ltb. destruct (Z.ltb_spec 0 ttl); [|done]. cbn [fst andb]. pose proof (clock_range n).
  rewrite u64_small by (unfold in64; lia). rewrite (proj2 (Z.ltb_lt 0 _)) by lia. done.
Qed.

(** Periodic processing removes entries that are over their time and fails
    nodes that were silent for longer than the timeout, never the local one
    and never others; with enough memory it misses none unless there are 64 or
    more; the result counts both. *)
Theorem cluster_process c v : rep c v ->
  exists m c' ks ids v', loopyClusterProcess true c = Some (m, c') /\ rep c' v' /\
    process_effect (memory_ok (asked c) (asked c')) v (clock (asked c)) ks ids v' /\ m = Z.of_nat (length ks + length ids) /\
    cv_nodes v' !! cv_local v = cv_nodes v !! cv_local v.
Proof using All.
  intros H. destruct (wp_run _ _ _ (clusterProcess_ok c v H)) as (m & c' & E & ks & ids & v' & H' & HP & Hm & _).
  exists m, c', ks, ids, v'. split_and!; try done. destruct HP as (_ & HI & _ & _ & _ & _ & _ & _ & ->). cbn.
  rewrite fail_nodes_lookup, bool_decide_eq_false_2; [by destruct (cv_nodes v !! _)|].
  intros (n & Hn & Ht)%HI. unfold timedOut in Ht. destruct H as (r & _ & H).
  rewrite (rp_ids _ _ _ H _ n Hn), String.eqb_refl in Ht. done.
Qed.
End Usage.

(** A node whose last sign of life is later than the time [loopyClusterProcess]
    read (the wall clock was set back, or another thread's heartbeat came in
    between: heartbeats take no lock) counts as silent for nearly 2^64
    milliseconds. *)
Lemma timedOut_future local n now d timeout :
  (1 <= d)%Z -> (0 <= now)%Z -> (now + d < w64)%Z -> (0 <= timeout < w64 - d)%Z -> lastSeen n = (now + d)%Z -> nodeId n <> local ->
  state n <> LOOPY_NODE_FAILED -> timedOut local n now timeout = true.
Proof.
  intros Hd H0 Hn Ht El Hid Hst. unfold timedOut. rewrite (proj2 (String.eqb_neq _ _)) by done.
  rewrite bool_decide_eq_false_2 by done. cbn [negb andb]. rewrite El.
  assert ((now -64 (now + d)) = (w64 - d)%Z) as ->.
  { unfold u64. replace (now - (now + d))%Z with (w64 - d + (-1) * w64)%Z by lia.
    rewrite Z.mod_add by (unfold w64; lia). apply Z.mod_small. unfold w64 in *. lia. }
  rewrite Z.gtb_ltb. apply Z.ltb_lt. lia.
Qed.

(** A time to live that carries the sum over 2^64 gives a value that has
    expired when it is stored. *)

(** ** Instances of the theorems *)

(** A clock that advances by 10 ms at each question, and enough memory. *)
Definition ticking : ClusterEnv := {| wallclock k := (Z.of_nat k * 10)%Z; mallocOk _ := true |}.

Definition demo_config : loopyClusterConfig := ClusterConfig (Some "a") None LOOPY_ROLE_LEADER 0 15 false true.

Definition no_cluster : @cluster gmap_rax := Cluster None ∅ ∅ 0 [].

Definition demo_ops : list cl_op :=
  [CRegister "b" None LOOPY_ROLE_WORKER; CSetState "b" LOOPY_NODE_ACTIVE; CSet "k" [Byte.x01] 5; CProcess].

#[local] Existing Instance ticking.

(** A time to live that carries the sum over 2^64 gives a value that has
    expired when it is stored. *)
Lemma config_ttl_wraps : fst (spec_expiry (w64 - 4) 1) = 6%Z /\ (6 <= clock 1)%Z.
Proof. by vm_compute. Qed.

Lemma cluster_refines_witness :
  exists c1 s1 os c2 s2, loopyClusterRegistryNew (Some demo_config) no_cluster = Some (true, c1) /\
    cl_run demo_ops c1 = Some (os, c2) /\ sim c1 s1 /\ sim c2 s2 /\ cl_reach s1 demo_ops os s2 /\
    (cv_local (sv s2), state <$> cv_nodes (sv s2) !! "b", cv_store (sv s2) !! "k") = ("a", Some LOOPY_NODE_FAILED, None) /\
    drop 1 os = [OutBool true; OutVersion 1; OutCount 2].
Proof.
  destruct (cluster_refines (Some demo_config) demo_ops no_cluster) as (ok & c1 & E & HP); [done|].
  destruct (spec_new (Some demo_config) (asked no_cluster, events no_cluster)) as [s1|] eqn:Es; [|by vm_compute in Es].
  destruct HP as (-> & H1 & os & c2 & s2 & E2 & H2 & HR). pose proof E as E'. evaluate E'. injection E' as <-.
  eexists _, s1, os, c2, s2. split; [exact E|]. split; [exact E2|]. split; [exact H1|]. split; [exact H2|]. split; [exact HR|].
  evaluate E2. injection E2 as <- <-. destruct H2 as ((r & [= <-] & []) & _).
  rewrite rp_nodes_view0, rp_data_view0, <- rp_local0. by vm_compute.
Defined.

Lemma cluster_config_roundtrip_witness :
  exists c0 v c1 v1 c2, loopyClusterRegistryNew (Some demo_config) no_cluster = Some (true, c0) /\ rep c0 v /\
    loopyClusterConfigSet true (Some "k") (Some [Byte.x01]) 50 c0 = Some (1%Z, c1) /\ rep c1 v1 /\
    loopyClusterConfigGet true (Some "k") c1 = Some (Some [Byte.x01], c2).
Proof.
  destruct (wp_run _ _ _ (registryNew_ok (Some demo_config) no_cluster ltac:(done))) as (ok & c0 & E & HP).
  destruct (spec_new (Some demo_config) _) as [s0|] eqn:Es; [|by vm_compute in Es]. destruct HP as (-> & H & _). set (v := sv s0) in *.
  assert (Hv : v = sv s0) by done. vm_compute in Es. injection Es as Es. rewrite <- Es in Hv. clearbody v.
  pose proof E as E'. evaluate E'. injection E' as <-.
  destruct (wp_run _ _ _ (configSet_ok _ v "k" [Byte.x01] 50 H)) as (ver & c1 & E1 & _).
  pose proof E1 as E1'. evaluate E1'. injection E1' as <- <-.
  destruct (cluster_config_roundtrip _ v "k" [Byte.x01] 50 _ _ H ltac:(lia) ltac:(rewrite Hv; by vm_compute) E1 ltac:(done)) as (_ & v2 & H2 & HG).
  destruct (HG _ "k" H2) as (c & E2).
  eexists _, v, _, v2, c. split; [exact E|]. split; [exact H|]. split; [exact E1|]. split; [exact H2|].
  rewrite E2, Hv. by vm_compute.
Defined.

Lemma cluster_process_witness :
  exists c0 v c1 ks ids v1, loopyClusterRegistryNew (Some demo_config) no_cluster = Some (true, c0) /\ rep c0 v /\
    loopyClusterProcess true c0 = Some (0%Z, c1) /\ rep c1 v1 /\
    process_effect (memory_ok (asked c0) (asked c1)) v (clock (asked c0)) ks ids v1 /\ 0%Z = Z.of_nat (length ks + length ids).
Proof.
  destruct (wp_run _ _ _ (registryNew_ok (Some demo_config) no_cluster ltac:(done))) as (ok & c0 & E & HP).
  destruct (spec_new (Some demo_config) _) as [s0|] eqn:Es; [|by vm_compute in Es]. destruct HP as (-> & H & _).
  set (v := sv s0) in *. clearbody v. pose proof E as E'. evaluate E'. injection E' as <-.
  destruct (cluster_process _ v H) as (m & c1 & ks & ids & v1 & E1 & H1 & HP & Hm & _).
  pose proof E1 as E1'. evaluate E1'. injection E1' as <- <-.
  eexists _, v, _, ks, ids, v1. split; [exact E|]. split; [exact H|]. split; [exact E1|]. split; [exact H1|].
  split; [exact HP|]. exact Hm.
Defined.

(** Node [b], registered at 110 ms and silent since, fails after 15 ms; the
    local node never does. *)
Example process_example :
  (fun '(_, c) => (fun '(_, n) => (nodeId n, state n)) <$> map_to_list (nodeHeap c)) <$>
    (loopyClusterRegistryNew (Some demo_config) ≫= fun _ => cl_run demo_ops) no_cluster =
  Some [("b", LOOPY_NODE_FAILED); ("a", LOOPY_NODE_ACTIVE)].
Proof. vm_compute. reflexivity. Qed.
