(* ===== verification/Chain.v ===== *)
(** * Singly linked queues in a heap

    [chain next h hd l]: in the heap [h], following [next] from [hd] visits
    exactly the addresses [l].  [queue] adds a tail pointer.  The worker
    pool's item queues and the write queue of streams are such queues. *)

From S2P Require Import Prelude.

Local Open Scope nat_scope.

Section Chain.
Context {A : Type} (next : A -> option nat).
Implicit Types (h : gmap nat A) (l : list nat).

Fixpoint chain h (hd : option nat) l : Prop :=
  match l with
  | [] => hd = None
  | a :: l => hd = Some a /\ exists x, h !! a = Some x /\ chain h (next x) l
  end.

Record queue h (hd tl : option nat) l : Prop := {
  q_chain : chain h hd l;
  q_tail : tl = last l
}.

Lemma chain_head h hd l : chain h hd l -> hd = head l.
Proof using Type. destruct l; [done|]. by intros [-> _]. Qed.

Lemma chain_lookup h hd l a : chain h hd l -> a ∈ l -> is_Some (h !! a).
Proof using Type.
  revert hd. induction l as [|b l IH]; intros hd H Ha; [by apply elem_of_nil in Ha|].
  destruct H as (_ & x & Hx & Hc). apply elem_of_cons in Ha as [-> |Ha]; eauto.
Qed.

Lemma chain_size h hd l : chain h hd l -> NoDup l -> length l <= size h.
Proof using Type.
  intros Hc Hnd. rewrite <- size_dom, <- (size_list_to_set (C := gset nat) l Hnd). apply subseteq_size.
  intros a Ha%elem_of_list_to_set. apply elem_of_dom. by eapply chain_lookup.
Qed.

Lemma chain_at h hd l1 a l2 :
  chain h hd (l1 ++ a :: l2) -> exists x, h !! a = Some x /\ next x = head l2 /\ chain h (next x) l2.
Proof using Type.
  revert hd. induction l1 as [|b l1 IH]; intros hd (_ & x & Hx & Hc); [|by eapply IH].
  exists x. by pose proof (chain_head _ _ _ Hc).
Qed.

(** Only the links of the members matter. *)
Lemma chain_ext h h' hd l :
  (forall a, a ∈ l -> next <$> h' !! a = next <$> h !! a) -> chain h hd l -> chain h' hd l.
Proof using Type.
  revert hd. induction l as [|b l IH]; intros hd He H; [done|].
  destruct H as (-> & x & Hx & Hc). split; [done|].
  pose proof (He b ltac:(by left)) as E. rewrite Hx in E. destruct (h' !! b) as [y|]; [|done].
  exists y. split; [done|]. injection E as ->. apply IH; [|done]. intros a Ha. apply He. by right.
Qed.

Lemma chain_snoc h hd l t x x' a y :
  chain h hd l -> NoDup l -> last l = Some t -> h !! t = Some x -> next x' = Some a ->
  a ∉ l -> h !! a = Some y -> next y = None -> chain (<[t := x']> h) hd (l ++ [a]).
Proof using Type.
  revert hd. induction l as [|b l IH]; intros hd H Hnd Hl Ht Hx' Ha Hy Hny; [done|].
  apply NoDup_cons in Hnd as [Hb Hnd]. apply not_elem_of_cons in Ha as [Hab Ha].
  destruct H as (-> & z & Hz & Hc). split; [done|]. destruct l as [|c l].
  - injection Hl as ->. exists x'. rewrite lookup_insert_eq. split; [done|]. rewrite Hx'. split; [done|].
    exists y. by rewrite lookup_insert_ne.
  - rewrite last_cons in Hl. destruct (last (c :: l)) as [t'|] eqn:El; [|by apply last_None in El].
    injection Hl as ->. assert (t <> b) by (intros ->; apply Hb; by apply last_Some_elem_of).
    exists z. rewrite lookup_insert_ne by done. split; [done|]. by apply IH.
Qed.

(** The element after [p] is taken out. *)
Lemma chain_drop h hd l1 p m l2 x x' y :
  chain h hd (l1 ++ p :: m :: l2) -> NoDup (l1 ++ p :: m :: l2) -> h !! p = Some x -> h !! m = Some y -> next x' = next y ->
  chain (<[p := x']> h) hd (l1 ++ p :: l2).
Proof using Type.
  revert hd. induction l1 as [|b l1 IH]; intros hd H Hnd Hp Hm Hn; cbn [app] in *; apply NoDup_cons in Hnd as [Hb Hnd].
  - destruct H as (-> & z & _ & _ & u & Hu & Hc). assert (u = y) as -> by congruence. split; [done|].
    exists x'. rewrite lookup_insert_eq, Hn. split; [done|]. eapply chain_ext; [|exact Hc].
    intros a Ha. rewrite lookup_insert_ne; [done|]. intros ->. apply Hb. by right.
  - destruct H as (-> & z & Hz & Hc). split; [done|]. exists z. rewrite lookup_insert_ne by set_solver. split; [done|]. eauto.
Qed.

Lemma queue_empty h : queue h None None [].
Proof using Type. by split. Qed.

Lemma queue_nil h hd tl l : queue h hd tl l -> hd = None -> l = [].
Proof using Type. intros [H _] ->. destruct l; [done|]. by destruct H. Qed.

Lemma queue_ext h h' hd tl l :
  (forall a, a ∈ l -> next <$> h' !! a = next <$> h !! a) -> queue h hd tl l -> queue h' hd tl l.
Proof using Type. intros He [H ->]. split; [by eapply chain_ext|done]. Qed.

(** What happens to other addresses does not matter. *)
Lemma queue_frame h hd tl l a x : a ∉ l -> queue h hd tl l -> queue (<[a := x]> h) hd tl l.
Proof using Type. intros Ha. apply queue_ext. intros b Hb. by rewrite lookup_insert_ne by set_solver. Qed.

Lemma queue_delete h hd tl l a : a ∉ l -> queue h hd tl l -> queue (delete a h) hd tl l.
Proof using Type. intros Ha. apply queue_ext. intros b Hb. by rewrite lookup_delete_ne by set_solver. Qed.

(** Changes that keep the link. *)
Lemma queue_update h hd tl l a x x' :
  h !! a = Some x -> next x' = next x -> queue h hd tl l -> queue (<[a := x']> h) hd tl l.
Proof using Type.
  intros Hx Hn. apply queue_ext. intros b _. destruct (decide (b = a)) as [-> |Hb].
  - rewrite lookup_insert_eq, Hx. cbn. congruence.
  - by rewrite lookup_insert_ne.
Qed.

Lemma queue_pop h a tl l x :
  queue h (Some a) tl l -> h !! a = Some x ->
  exists l', l = a :: l' /\ queue h (next x) (if bool_decide (next x = None) then None else tl) l'.
Proof using Type.
  intros [H ->] Hx. destruct l as [|b l]; [done|]. destruct H as ([= ->] & y & Hy & Hc).
  assert (y = x) as -> by congruence. exists l. split; [done|]. split; [done|].
  pose proof (chain_head _ _ _ Hc) as Eh. rewrite last_cons.
  destruct l as [|c l]; cbn in Eh; rewrite Eh; [by rewrite bool_decide_true|].
  rewrite bool_decide_false by done. by destruct (last (c :: l)) eqn:El; [|apply last_None in El].
Qed.

Lemma queue_push_empty h hd l a y :
  queue h hd None l -> h !! a = Some y -> next y = None -> l = [] /\ queue h (Some a) (Some a) [a].
Proof using Type.
  intros [H Ht] Hy Hn. symmetry in Ht. apply last_None in Ht as ->. split; [done|]. split; [|done].
  split; [done|]. by exists y.
Qed.

Lemma queue_push h hd l t x x' a y :
  queue h hd (Some t) l -> NoDup l -> h !! t = Some x -> next x' = Some a ->
  a ∉ l -> h !! a = Some y -> next y = None -> queue (<[t := x']> h) hd (Some a) (l ++ [a]).
Proof using Type.
  intros [H Ht] Hnd Hx Hx' Ha Hy Hn. split; [by eapply chain_snoc|]. by rewrite last_snoc.
Qed.

Lemma queue_tail_in h hd t l : queue h hd (Some t) l -> t ∈ l.
Proof using Type. intros [_ Ht]. by apply last_Some_elem_of. Qed.
End Chain.

(** ** Doubly linked lists

    [dchain h p hd l]: from [hd] the [next] links visit [l], the [prev] links go
    back, that of the first to [p]. *)
Section DChain.
Context {A : Type} (next prev : A -> option nat).
Implicit Types (h : gmap nat A) (l : list nat).

Fixpoint dchain h (p hd : option nat) l : Prop :=
  match l with
  | [] => hd = None
  | a :: l => hd = Some a /\ exists x, h !! a = Some x /\ prev x = p /\ dchain h (Some a) (next x) l
  end.

Lemma dchain_head h p hd l : dchain h p hd l -> hd = head l.
Proof using Type. destruct l; [done|]. by intros [-> _]. Qed.

Lemma dchain_lookup h p hd l a : dchain h p hd l -> a ∈ l -> is_Some (h !! a).
Proof using Type.
  revert p hd. induction l as [|b l IH]; intros p hd H Ha; [by apply elem_of_nil in Ha|].
  destruct H as (_ & x & Hx & _ & Hc). apply elem_of_cons in Ha as [-> |Ha]; eauto.
Qed.

Lemma dchain_size h p hd l : dchain h p hd l -> NoDup l -> length l <= size h.
Proof using Type.
  intros Hc Hnd. rewrite <- size_dom, <- (size_list_to_set (C := gset nat) l Hnd). apply subseteq_size.
  intros a Ha%elem_of_list_to_set. apply elem_of_dom. by eapply dchain_lookup.
Qed.

Lemma dchain_ext h h' p hd l :
  (forall a, a ∈ l -> (fun x => (next x, prev x)) <$> h' !! a = (fun x => (next x, prev x)) <$> h !! a) ->
  dchain h p hd l -> dchain h' p hd l.
Proof using Type.
  revert p hd. induction l as [|b l IH]; intros p hd He H; [done|].
  destruct H as (-> & x & Hx & Hp & Hc). split; [done|].
  pose proof (He b ltac:(by left)) as E. rewrite Hx in E. destruct (h' !! b) as [y|]; [|done].
  injection E as E1 E2. exists y. split_and!; [done|congruence|]. rewrite E1. apply IH; [|done]. intros a Ha. apply He. by right.
Qed.

Lemma dchain_frame h p hd l a x : a ∉ l -> dchain h p hd l -> dchain (<[a := x]> h) p hd l.
Proof using Type. intros Ha. apply dchain_ext. intros b Hb. by rewrite lookup_insert_ne by set_solver. Qed.

Lemma dchain_delete h p hd l a : a ∉ l -> dchain h p hd l -> dchain (delete a h) p hd l.
Proof using Type. intros Ha. apply dchain_ext. intros b Hb. by rewrite lookup_delete_ne by set_solver. Qed.

Lemma dchain_update h p hd l a x x' :
  h !! a = Some x -> next x' = next x -> prev x' = prev x -> dchain h p hd l -> dchain (<[a := x']> h) p hd l.
Proof using Type.
  intros Hx Hn Hp. apply dchain_ext. intros b _. destruct (decide (b = a)) as [-> |Hb].
  - rewrite lookup_insert_eq, Hx. cbn. congruence.
  - by rewrite lookup_insert_ne.
Qed.

(** The link back of the first element is changed. *)
Lemma dchain_relink h p p' b l x x' :
  dchain h p (Some b) l -> NoDup l -> h !! b = Some x -> next x' = next x -> prev x' = p' -> dchain (<[b := x']> h) p' (Some b) l.
Proof using Type.
  destruct l as [|b' l]; [done|]. intros ([= <-] & y & Hy & _ & Hc) [Hb _]%NoDup_cons Hx Hn Hp. split; [done|].
  exists x'. rewrite lookup_insert_eq. split_and!; try done. rewrite Hn. assert (y = x) as -> by congruence. by apply dchain_frame.
Qed.

(** The links around an element; the next one after it. *)
Lemma dchain_split h p hd l1 a l2 :
  dchain h p hd (l1 ++ a :: l2) ->
  exists x, h !! a = Some x /\ prev x = (match last l1 with Some b => Some b | None => p end) /\ next x = head l2 /\
    dchain h (Some a) (next x) l2.
Proof using Type.
  revert p hd. induction l1 as [|b l1 IH]; intros p hd H.
  - destruct H as (-> & x & Hx & Hp & Hc). exists x. split_and!; try done. by apply dchain_head in Hc.
  - destruct H as (-> & y & Hy & Hp & Hc). destruct (IH _ _ Hc) as (x & Hx & Hpx & Hn & Hc'). exists x.
    split_and!; try done. rewrite Hpx, last_cons. by destruct (last l1).
Qed.

Context (setn setp : option nat -> A -> A).
Context (next_setn : forall v x, next (setn v x) = v) (prev_setn : forall v x, prev (setn v x) = prev x)
        (next_setp : forall v x, next (setp v x) = next x) (prev_setp : forall v x, prev (setp v x) = v).

(** The heap when [x] is unlinked: the neighbours take over its links. *)
Definition unlinked h x : gmap nat A :=
  let h1 := match prev x with Some b => alter (setn (next x)) b h | None => h end in
  match next x with Some b => alter (setp (prev x)) b h1 | None => h1 end.

Lemma alter_is_insert (f : A -> A) b h x : h !! b = Some x -> alter f b h = <[b := f x]> h.
Proof using Type.
  intros Hx. apply map_eq. intros c. destruct (decide (c = b)) as [-> |Hne].
  - by rewrite lookup_alter_eq, lookup_insert_eq, Hx.
  - by rewrite lookup_alter_ne, lookup_insert_ne.
Qed.

Lemma unlinked_other h x b : Some b <> prev x -> Some b <> next x -> unlinked h x !! b = h !! b.
Proof using Type.
  intros Hp Hn. unfold unlinked. destruct (next x) as [n|].
  - rewrite lookup_alter_ne by congruence. destruct (prev x); [|done]. by rewrite lookup_alter_ne by congruence.
  - destruct (prev x); [|done]. by rewrite lookup_alter_ne by congruence.
Qed.

Lemma dchain_unlink h p hd l1 a l2 x :
  dchain h p hd (l1 ++ a :: l2) -> NoDup (l1 ++ a :: l2) -> (forall b, p = Some b -> b ∉ l1 ++ a :: l2) -> h !! a = Some x ->
  dchain (unlinked h x) p (match l1 with [] => next x | _ => hd end) (l1 ++ l2).
Proof using All.
  revert p hd. induction l1 as [|b l1 IH]; intros p hd H Hnd Hp Ha; pose proof (dchain_split _ _ _ _ _ _ H) as (x' & Hx & Hpx & Hnx & Hc);
    assert (x' = x) as -> by congruence; clear Hx.
  - cbn in Hpx, Hp. apply NoDup_cons in Hnd as [Hna Hnd]. cbn. rewrite Hnx in Hc |- *. unfold unlinked. rewrite Hpx, Hnx.
    set (h1 := match p with Some b => alter (setn (head l2)) b h | None => h end).
    assert (Hother : forall b, b ∈ l2 -> h1 !! b = h !! b).
    { intros b Hb. unfold h1. destruct p as [q|]; [|done]. rewrite lookup_alter_ne; [done|]. intros ->. apply (Hp b eq_refl). by right. }
    assert (Hc1 : dchain h1 (Some a) (head l2) l2) by (eapply dchain_ext; [|exact Hc]; intros b Hb; by rewrite Hother).
    clearbody h1. destruct l2 as [|c l2]; [done|]. cbn [head] in *. destruct Hc as (_ & y & Hy & _).
    rewrite <- Hother in Hy by left. rewrite (alter_is_insert _ _ _ y) by done. by eapply dchain_relink.
  - destruct H as (-> & y & Hy & Hpy & Hcb). cbn [app] in Hnd, Hp. apply NoDup_cons in Hnd as [Hbl Hnd].
    assert (Hpb : forall b', Some b = Some b' -> b' ∉ l1 ++ a :: l2) by (intros b' [= <-]; done).
    pose proof (IH _ _ Hcb Hnd Hpb Ha) as Hrec. cbn [app]. split; [done|].
    assert (Hnb : next x <> Some b).
    { rewrite Hnx. intros E. apply Hbl. destruct l2 as [|c l2]; [done|]. injection E as ->. set_solver. }
    destruct l1 as [|c l1].
    + exists (setn (next x) y). rewrite next_setn, prev_setn. split_and!; [|done|exact Hrec].
      change (prev x = Some b) in Hpx. unfold unlinked. rewrite Hpx. destruct (next x) as [n|]; [rewrite lookup_alter_ne by congruence|]; rewrite lookup_alter_eq, Hy; done.
    + exists y. split_and!; [|done|exact Hrec]. rewrite unlinked_other; [done| |congruence]. rewrite Hpx.
      change (last (b :: c :: l1)) with (last (c :: l1)). destruct (last (c :: l1)) as [d|] eqn:El; [|by apply last_None in El].
      intros [= <-]. apply Hbl, elem_of_app. left. by apply last_Some_elem_of.
Qed.

(** A new element in front. *)
Definition pushed h a y hd : gmap nat A :=
  match hd with Some b => alter (setp (Some a)) b (<[a := y]> h) | None => <[a := y]> h end.

Lemma dchain_push h hd l a y :
  dchain h None hd l -> NoDup l -> h !! a = None -> next y = hd -> prev y = None -> dchain (pushed h a y hd) None (Some a) (a :: l).
Proof using All.
  intros H Hnd Ha Hn Hp. assert (Hal : a ∉ l) by (intros Hal; destruct (dchain_lookup _ _ _ _ _ H Hal); congruence).
  assert (Hc : dchain (<[a := y]> h) None hd l) by by apply dchain_frame.
  split; [done|]. exists y. unfold pushed. destruct hd as [b|].
  - destruct l as [|b' l]; [done|]. assert (b' = b) as -> by (destruct H; congruence). clear H.
    pose proof Hc as (_ & z & Hz & _). rewrite (alter_is_insert _ b _ z) by done.
    rewrite lookup_insert_ne, lookup_insert_eq by set_solver. split_and!; [done|done|]. rewrite Hn. by eapply dchain_relink.
  - rewrite lookup_insert_eq, Hn. split_and!; try done. destruct l; [done|]. by destruct H.
Qed.

Lemma pushed_lookup h a y hd c : c <> a -> Some c <> hd -> pushed h a y hd !! c = h !! c.
Proof using Type.
  intros Hc Hd. unfold pushed. destruct hd; [rewrite lookup_alter_ne by congruence|]; by rewrite lookup_insert_ne.
Qed.
End DChain.
