(* ===== verification/Work.v ===== *)
(** * The worker pool ([src/loopyWork.c])

    The items are structures in a heap, linked into a pending and a completed
    queue.  [work_step] runs the owner of the pool (who creates it, runs the
    event loop and frees the pool), its worker threads and other threads that
    queue and cancel, one atomic action at a time.  An action is what a
    thread does between two points where another can intervene: a section
    under the mutex, a wait on the condition, an atomic of the async handle, a
    callback.  The mutex is held across actions only by a worker in its
    waiting loop ([KCheck], [KSleep]). *)

From S2P Require Import Prelude Chain Async.

Local Open Scope nat_scope.

(** ** Data *)

Inductive loopyWorkStatus := LOOPY_WORK_OK | LOOPY_WORK_ERROR | LOOPY_WORK_CANCELLED.

Record loopyWorkItem := WorkItem {
  id : Z;
  workCb : bool;    (* not [NULL] *)
  afterCb : bool;
  userData : nat;
  status : loopyWorkStatus;
  cancelled : bool;
  next : option nat
}.

#[export] Instance WorkItem_rebuild : Rebuild loopyWorkItem := fun i =>
  WorkItem (id i) (workCb i) (afterCb i) (userData i) (status i) (cancelled i) (next i).

Record loopyWorkConfig := WorkConfig { minThreads : Z; maxThreads : Z; maxQueueSize : Z }.

Record loopyWork := Work {
  w_loop : nat;
  w_userData : nat;
  config : loopyWorkConfig;
  async : loopyAsync;
  workerCount : nat;
  shutdown : bool;
  pendingHead : option nat;
  pendingTail : option nat;
  pendingCount : Z;
  runningCount : Z;
  nextWorkId : Z;
  completedHead : option nat;
  completedTail : option nat
}.

#[export] Instance Work_rebuild : Rebuild loopyWork := fun w =>
  Work (w_loop w) (w_userData w) (config w) (async w) (workerCount w) (shutdown w) (pendingHead w) (pendingTail w)
    (pendingCount w) (runningCount w) (nextWorkId w) (completedHead w) (completedTail w).

(** The memory: the pool, [None] when freed, and the items. *)
Record workPool := WorkPool { work : option loopyWork; items : gmap nat loopyWorkItem }.

#[export] Instance WorkPool_rebuild : Rebuild workPool := fun p => WorkPool (work p) (items p).

Definition the_work : prog workPool loopyWork :=
  p ← get; match work p with Some w => mret w | None => undefined end.
Definition set_work (f : loopyWork -> loopyWork) : prog workPool unit :=
  w ← the_work; modify (fun p => p <| work := Some (f w) |>).
Definition the_item (a : nat) : prog workPool loopyWorkItem :=
  p ← get; match items p !! a with Some i => mret i | None => undefined end.
Definition set_item (a : nat) (f : loopyWorkItem -> loopyWorkItem) : prog workPool unit :=
  i ← the_item a; modify (fun p => p <| items ::= <[a := f i]> |>).
Definition free_item (a : nat) : prog workPool unit :=
  i ← the_item a; modify (fun p => p <| items ::= delete a |>).

(** ** Lifecycle *)

Definition LOOPY_WORK_CONFIG_DEFAULT : loopyWorkConfig := WorkConfig 1 4 256.

Definition loopyWorkConfigInit (c : option loopyWorkConfig) : option loopyWorkConfig :=
  match c with None => None | Some _ => Some LOOPY_WORK_CONFIG_DEFAULT end.

Definition validThreads (c : loopyWorkConfig) : loopyWorkConfig :=
  let c := if (minThreads c =? 0)%Z then WorkConfig 1 (maxThreads c) (maxQueueSize c) else c in
  let c := if (maxThreads c =? 0)%Z then WorkConfig (minThreads c) 4 (maxQueueSize c) else c in
  if (maxThreads c <? minThreads c)%Z then WorkConfig (minThreads c) (minThreads c) (maxQueueSize c) else c.

(** Up to the creation of the threads.  The arguments are the results of the
    allocation, the initialisations of mutex and condition, [loopyAsyncNew]
    and the allocation of the thread table. *)
Definition loopyWorkNew (loop : option nat) (c : option loopyWorkConfig)
    (mallocOk mutexOk condOk : bool) (async : option loopyAsync) (workersOk : bool) : option loopyWork :=
  loop ← loop;
  if negb mallocOk then None
  else
    let c := validThreads (default LOOPY_WORK_CONFIG_DEFAULT c) in
    if negb mutexOk then None
    else if negb condOk then None
    else
      a ← async;
      if negb workersOk then None
      else Some (Work loop 0 c a (Z.to_nat (minThreads c)) false None None 0 0 1 None None).

(** ** Work queue operations *)

(** A section under the mutex: [None] when it returns 0, otherwise the id of
    the new item; a worker is then signalled. *)
Definition loopyWorkQueue (args mallocOk afterCb : bool) (data : nat) : prog workPool (option Z) :=
  if negb args then mret None
  else
    w ← the_work;
    if (0 <? maxQueueSize (config w))%Z && (maxQueueSize (config w) <=? pendingCount w)%Z then mret None
    else if negb mallocOk then mret None
    else
      p ← get;
      let item := fresh (dom (items p)) in
      let i := WorkItem (nextWorkId w) true afterCb data LOOPY_WORK_OK false None in
      modify (fun p => p <| items ::= <[item := i]> |>) ≫= fun _ =>
      set_work (fun w => w <| nextWorkId ::= fun n => n +64 1 |>) ≫= fun _ =>
      match pendingTail w with
      | Some t => set_item t (fun x => x <| next := Some item |>)
      | None => set_work (fun w => w <| pendingHead := Some item |>)
      end ≫= fun _ =>
      set_work (fun w => w <| pendingTail := Some item |> <| pendingCount ::= fun n => n +64 1 |>) ≫= fun _ =>
      mret (Some (id i)).

(** The walks over the pending queue; [fuel] bounds its length. *)
Fixpoint cancelFind (fuel : nat) (item : option nat) (workId : Z) : prog workPool bool :=
  match fuel with
  | 0 => undefined
  | S fuel =>
      match item with
      | None => mret false
      | Some a =>
          i ← the_item a;
          if (id i =? workId)%Z then set_item a (fun x => x <| cancelled := true |>) ≫= fun _ => mret true
          else cancelFind fuel (next i) workId
      end
  end.

Definition loopyWorkCancel (nn : bool) (workId : Z) : prog workPool bool :=
  if negb nn || (workId =? 0)%Z then mret false
  else
    w ← the_work; p ← get;
    cancelFind (S (size (items p))) (pendingHead w) workId.

(** Also answers the ids of the items it marked. *)
Fixpoint cancelWalk (fuel : nat) (item : option nat) : prog workPool (list Z) :=
  match fuel with
  | 0 => undefined
  | S fuel =>
      match item with
      | None => mret []
      | Some a =>
          set_item a (fun x => x <| cancelled := true |>) ≫= fun _ =>
          i ← the_item a; l ← cancelWalk fuel (next i); mret (id i :: l)
      end
  end.

Definition loopyWorkCancelAll (nn : bool) : prog workPool (list Z) :=
  if negb nn then mret []
  else w ← the_work; p ← get; cancelWalk (S (size (items p))) (pendingHead w).

(** ** Status *)

Definition loopyWorkPendingCount (w : option loopyWork) : Z := peek_handle 0%Z w pendingCount.
Definition loopyWorkRunningCount (w : option loopyWork) : Z := peek_handle 0%Z w runningCount.
Definition loopyWorkThreadCount (w : option loopyWork) : nat := peek_handle 0 w workerCount.
Definition loopyWorkStatusString (s : loopyWorkStatus) : string :=
  match s with LOOPY_WORK_OK => "OK" | LOOPY_WORK_CANCELLED => "CANCELLED" | LOOPY_WORK_ERROR => "ERROR" end.
Definition loopyWorkGetLoop (w : option loopyWork) : option nat := w_loop <$> w.
Definition loopyWorkGetData (w : option loopyWork) : option nat := w_userData <$> w.
Definition loopyWorkSetData (w : option loopyWork) (d : nat) : option loopyWork :=
  w ← w; Some (w <| w_userData := d |>).

(** ** The queues *)

Definition workDequeue : prog workPool (option nat) :=
  w ← the_work;
  match pendingHead w with
  | None => mret None
  | Some item =>
      i ← the_item item;
      set_work (fun w => w <| pendingHead := next i |>) ≫= fun _ =>
      w ← the_work;
      pwhen (bool_decide (pendingHead w = None)) (set_work (fun w => w <| pendingTail := None |>)) ≫= fun _ =>
      set_work (fun w => w <| pendingCount ::= fun n => n -64 1 |>) ≫= fun _ =>
      set_item item (fun x => x <| next := None |>) ≫= fun _ =>
      mret (Some item)
  end.

Definition workEnqueueCompleted (item : nat) : prog workPool unit :=
  w ← the_work;
  match completedTail w with
  | Some t => set_item t (fun x => x <| next := Some item |>)
  | None => set_work (fun w => w <| completedHead := Some item |>)
  end ≫= fun _ =>
  set_work (fun w => w <| completedTail := Some item |>) ≫= fun _ =>
  set_item item (fun x => x <| next := None |>).

(** The section under the mutex of [workProcessCompleted]. *)
Definition takeCompleted : prog workPool (option nat) :=
  w ← the_work;
  match completedHead w with
  | None => mret None
  | Some item =>
      i ← the_item item;
      set_work (fun w => w <| completedHead := next i |>) ≫= fun _ =>
      w ← the_work;
      pwhen (bool_decide (completedHead w = None)) (set_work (fun w => w <| completedTail := None |>)) ≫= fun _ =>
      mret (Some item)
  end.

Fixpoint freeItems (fuel : nat) (item : option nat) : prog workPool unit :=
  match fuel with
  | 0 => undefined
  | S fuel =>
      match item with
      | None => mret tt
      | Some a => i ← the_item a; free_item a ≫= fun _ => freeItems fuel (next i)
      end
  end.

(** [loopyWorkFree] after the workers were joined. *)
Definition freeRest : prog workPool unit :=
  w ← the_work; p ← get;
  freeItems (S (size (items p))) (pendingHead w) ≫= fun _ =>
  p ← get;
  freeItems (S (size (items p))) (completedHead w) ≫= fun _ =>
  modify (fun p => p <| work := None |>).

(** [loopyAsyncSend], as its two atomic actions, and [asyncEventCallback], as
    the read of the eventfd and the reset of the flag. *)
Definition sendCas : prog workPool bool :=
  w ← the_work;
  if as_pending (async w) then mret false
  else set_work (fun w => w <| async ::= fun a => a <| as_pending := true |> |>) ≫= fun _ => mret true.
Definition sendWrite : prog workPool unit :=
  set_work (fun w => w <| async ::= fun a => a <| as_eventfd ::= fun v => (v + 1)%Z |> |>).
Definition drainEvent : prog workPool unit :=
  set_work (fun w => w <| async ::= fun a => a <| as_eventfd := 0%Z |> |>).
Definition clearPending : prog workPool unit :=
  set_work (fun w => w <| async ::= fun a => a <| as_pending := false |> |>).

(** ** The threads *)

Inductive worker_pc :=
  | KLock             (* about to lock the mutex *)
  | KCheck            (* holds it; about to test the condition of the waiting loop *)
  | KSleep            (* holds it; about to wait *)
  | KWait             (* in [pthread_cond_wait] *)
  | KWoken            (* woken; about to lock the mutex again *)
  | KTaken (a : nat)  (* has dequeued an item; about to test [cancelled] *)
  | KCall (a : nat)   (* in the work callback *)
  | KDone (a : nat)   (* about to lock and decrement [runningCount] *)
  | KEnqueue (a : nat)
  | KSend             (* about to exchange the pending flag of the async handle *)
  | KWrite            (* won the exchange; about to write to the eventfd *)
  | KExit.

Inductive owner_pc :=
  | OCreate (i : nat)   (* about to create thread [i] *)
  | OFailSet            (* creation failed; about to set [shutdown], without the mutex *)
  | OFailCast           (* about to broadcast *)
  | OFailJoin (j : nat) (* waiting for thread [j] to end *)
  | OPoll               (* in the event loop *)
  | ORead | OClear      (* in [asyncEventCallback] *)
  | OProcess            (* in [workProcessCompleted], about to lock *)
  | OAfter (a : nat)    (* has taken an item; about to call its after-work callback *)
  | OJoin (j : nat)     (* in [loopyWorkFree], waiting for thread [j] to end *)
  | OFreed.

#[export] Instance worker_pc_eq_dec : EqDecision worker_pc.
Proof. solve_decision. Defined.

(** What happens to items, by their ids. *)
Inductive work_event :=
  | EvQueued (i : Z)
  | EvCancelled (i : Z)
  | EvDequeued (i : Z)
  | EvStarted (i : Z)
  | EvAfter (i : Z) (st : loopyWorkStatus). (* the item is done; its callback ran, if it has one *)

Record workSys := WorkSys {
  pool : workPool;
  workers : list worker_pc;
  owner : owner_pc;
  log : list work_event (* newest first *)
}.

#[export] Instance WorkSys_rebuild : Rebuild workSys := fun s => WorkSys (pool s) (workers s) (owner s) (log s).

Inductive outcome := Blocked | Undefined | Next (s : workSys).

(** What an action does to the pool, and then to the rest. *)
Definition exec {A} (m : prog workPool A) (s : workSys) (k : A -> workSys -> workSys) : outcome :=
  match m (pool s) with None => Undefined | Some (x, p) => Next (k x (s <| pool := p |>)) end.

Definition emit (e : work_event) (s : workSys) : workSys := s <| log ::= cons e |>.

Definition emit_opt (e : option work_event) (s : workSys) : workSys := match e with Some e => emit e s | None => s end.

(** From a test of the waiting loop's condition to the call of the wait or to
    the end of the section; answers where the worker is then, and the event. *)
Definition waitOrDequeue : prog workPool (worker_pc * option work_event) :=
  w ← the_work;
  if bool_decide (pendingHead w = None) && negb (shutdown w) then mret (KSleep, None)
  else if shutdown w then mret (KExit, None)
  else
    item ← workDequeue;
    match item with
    | None => mret (KLock, None)
    | Some a =>
        set_work (fun w => w <| runningCount ::= fun n => n +64 1 |>) ≫= fun _ =>
        x ← the_item a; mret (KTaken a, Some (EvDequeued (id x)))
    end.

Definition startItem (a : nat) : prog workPool (worker_pc * option work_event) :=
  x ← the_item a;
  if cancelled x then set_item a (fun x => x <| status := LOOPY_WORK_CANCELLED |>) ≫= fun _ => mret (KDone a, None)
  else if workCb x then mret (KCall a, Some (EvStarted (id x)))
  else set_item a (fun x => x <| status := LOOPY_WORK_OK |>) ≫= fun _ => mret (KDone a, None).

(** The after-work callback and the release of the item. *)
Definition finishItem (a : nat) : prog workPool work_event :=
  x ← the_item a; free_item a ≫= fun _ => mret (EvAfter (id x) (status x)).

(** The mutex is taken. *)
Definition held (s : workSys) : bool := existsb (fun pc => bool_decide (pc = KCheck) || bool_decide (pc = KSleep)) (workers s).

Definition locked (s : workSys) (o : outcome) : outcome := if held s then Blocked else o.

Definition goto (i : nat) (pc : worker_pc) (s : workSys) : workSys := s <| workers ::= <[i := pc]> |>.

Definition woken (pc : worker_pc) : worker_pc := match pc with KWait => KWoken | _ => pc end.

Definition broadcast (s : workSys) : workSys := s <| workers ::= fmap woken |>.

(** [pthread_cond_signal]: if threads wait, one of them, [k], is woken. *)
Definition signal (k : nat) (s : workSys) : option workSys :=
  if existsb (fun pc => bool_decide (pc = KWait)) (workers s) then
    if decide (workers s !! k = Some KWait) then Some (goto k KWoken s) else None
  else Some s.

(** The next action of worker [i] ([workWorkerThread]). *)
Definition worker_action (i : nat) (pc : worker_pc) (s : workSys) : outcome :=
  match pc with
  | KLock | KWoken => locked s (exec the_work s (fun _ => goto i KCheck))
  | KCheck => exec waitOrDequeue s (fun '(pc, e) s => goto i pc (emit_opt e s))
  | KSleep => Next (goto i KWait s)
  | KWait => Blocked
  | KTaken a => exec (startItem a) s (fun '(pc, e) s => goto i pc (emit_opt e s))
  | KCall a => exec (set_item a (fun x => x <| status := LOOPY_WORK_OK |>)) s (fun _ => goto i (KDone a))
  | KDone a =>
      locked s (exec (set_work (fun w => w <| runningCount ::= fun n => n -64 1 |>)) s (fun _ => goto i (KEnqueue a)))
  | KEnqueue a => locked s (exec (workEnqueueCompleted a) s (fun _ => goto i KSend))
  | KSend => exec sendCas s (fun won => goto i (if won then KWrite else KLock))
  | KWrite => exec sendWrite s (fun _ => goto i KLock)
  | KExit => Blocked
  end.

(** Joining thread [j], then [k]. *)
Definition join (j : nat) (s : workSys) (more : owner_pc) (last : outcome) : outcome :=
  match workers s !! j with
  | None => last
  | Some KExit => Next (s <| owner := more |>)
  | Some _ => Blocked
  end.

(** The next action of the owner; [created] is the result of
    [pthread_create]. *)
Definition owner_action (created : bool) (s : workSys) : outcome :=
  match owner s with
  | OCreate i =>
      exec the_work s (fun w s =>
        if bool_decide (i < workerCount w) then
          if created then s <| workers ::= fun ws => ws ++ [KLock] |> <| owner := OCreate (S i) |>
          else s <| owner := OFailSet |>
        else s <| owner := OPoll |>)
  | OFailSet => exec (set_work (fun w => w <| shutdown := true |>)) s (fun _ s => s <| owner := OFailCast |>)
  | OFailCast => Next (broadcast s <| owner := OFailJoin 0 |>)
  | OFailJoin j =>
      join j s (OFailJoin (S j))
        (exec (the_work ≫= fun _ => modify (fun p => p <| work := None |>)) s (fun _ s => s <| owner := OFreed |>))
  | OPoll =>
      match work (pool s) with
      | None => Undefined
      | Some w => if (as_eventfd (async w) =? 0)%Z then Blocked else Next (s <| owner := ORead |>)
      end
  | ORead => exec drainEvent s (fun _ s => s <| owner := OClear |>)
  | OClear => exec clearPending s (fun _ s => s <| owner := OProcess |>)
  | OProcess =>
      locked s (exec takeCompleted s
        (fun item s => s <| owner := match item with Some a => OAfter a | None => OPoll end |>))
  | OAfter a =>
      exec (finishItem a) s
        (fun e s => emit e s <| owner := OProcess |>)
  | OJoin j => join j s (OJoin (S j)) (exec freeRest s (fun _ s => s <| owner := OFreed |>))
  | OFreed => Blocked
  end.

(** The pool's handle is known to its users, and not freed. *)
Definition published (o : owner_pc) : bool :=
  match o with
  | OPoll | ORead | OClear | OProcess | OAfter _ | OJoin _ => true
  | _ => false
  end.

Inductive action :=
  | AOwner (created : bool)
  | AWorker (i : nat)
  | ASpurious (i : nat)   (* a wait that ends by itself *)
  | AQueue (mallocOk afterCb : bool) (data wake : nat)
  | ACancel (workId : Z)
  | ACancelAll
  | AFree.                (* the owner calls [loopyWorkFree] *)

Definition work_step (s : workSys) (a : action) : outcome :=
  match a with
  | AOwner created => owner_action created s
  | AWorker i => match workers s !! i with Some pc => worker_action i pc s | None => Blocked end
  | ASpurious i => if decide (workers s !! i = Some KWait) then Next (goto i KWoken s) else Blocked
  | AQueue mallocOk afterCb data wake =>
      if published (owner s) then
        locked s
          match loopyWorkQueue true mallocOk afterCb data (pool s) with
          | None => Undefined
          | Some (None, p) => Next (s <| pool := p |>)
          | Some (Some i, p) =>
              match signal wake (emit (EvQueued i) (s <| pool := p |>)) with Some s => Next s | None => Blocked end
          end
      else Blocked
  | ACancel workId =>
      if published (owner s) then
        locked s (exec (loopyWorkCancel true workId) s
          (fun b s => if (b : bool) then emit (EvCancelled workId) s else s))
      else Blocked
  | ACancelAll =>
      if published (owner s) then
        locked s (exec (loopyWorkCancelAll true) s (fun l s => s <| log := foldl (fun lg i => EvCancelled i :: lg) (log s) l |>))
      else Blocked
  | AFree =>
      match owner s with
      | OPoll =>
          locked s (exec (set_work (fun w => w <| shutdown := true |>)) s (fun _ s => broadcast s <| owner := OJoin 0 |>))
      | _ => Blocked
      end
  end.

Definition work_start (w : loopyWork) : workSys := WorkSys (WorkPool (Some w) ∅) [] (OCreate 0) [].

(** [work_run acts s s']: the actions are possible in this order. *)
Inductive work_run : list action -> workSys -> workSys -> Prop :=
  | run_nil s : work_run [] s s
  | run_cons a acts s s1 s' : work_step s a = Next s1 -> work_run acts s1 s' -> work_run (a :: acts) s s'.

(** ** The life of an item

    What the pool promises about each id is an automaton on its events; a log
    is accepted when it has a state for every id. *)

Inductive task := TNew | TPending (c : bool) | TTaken (c : bool) | TRunning | TDone (st : loopyWorkStatus).

Definition ev_id (e : work_event) : Z :=
  match e with EvQueued i | EvCancelled i | EvDequeued i | EvStarted i | EvAfter i _ => i end.

Definition task_next (t : task) (e : work_event) : option task :=
  match e, t with
  | EvQueued _, TNew => Some (TPending false)
  | EvCancelled _, TPending _ => Some (TPending true)
  | EvDequeued _, TPending c => Some (TTaken c)
  | EvStarted _, TTaken false => Some TRunning
  | EvAfter _ LOOPY_WORK_OK, TRunning => Some (TDone LOOPY_WORK_OK)
  | EvAfter _ LOOPY_WORK_CANCELLED, TTaken true => Some (TDone LOOPY_WORK_CANCELLED)
  | _, _ => None
  end.

Fixpoint task_of (i : Z) (log : list work_event) : option task :=
  match log with
  | [] => Some TNew
  | e :: log => t ← task_of i log; if (ev_id e =? i)%Z then task_next t e else Some t
  end.

Fixpoint queued (log : list work_event) : Z :=
  match log with [] => 0 | EvQueued _ :: log => 1 + queued log | _ :: log => queued log end.

(** Oldest first. *)
Fixpoint dequeued (log : list work_event) : list Z :=
  match log with [] => [] | EvDequeued i :: log => dequeued log ++ [i] | _ :: log => dequeued log end.

(** ** Where items are *)

(** [PlLimbo]: between the event and the change of the item that belong to one
    action. *)
Inductive place := PlPending | PlTaken | PlCall | PlFinished | PlLimbo.

Definition worker_items (pc : worker_pc) : list (nat * place) :=
  match pc with
  | KTaken a => [(a, PlTaken)]
  | KCall a => [(a, PlCall)]
  | KDone a | KEnqueue a => [(a, PlFinished)]
  | _ => []
  end.

Definition owner_items (o : owner_pc) : list (nat * place) :=
  match o with OAfter a => [(a, PlFinished)] | _ => [] end.

Definition owned (pend comp : list nat) (ws : list worker_pc) (o : owner_pc) : list (nat * place) :=
  ((fun a => (a, PlPending)) <$> pend) ++ ((fun a => (a, PlFinished)) <$> comp) ++ (ws ≫= worker_items) ++ owner_items o.

Definition item_ok (log : list work_event) (x : loopyWorkItem) (pl : place) : Prop :=
  workCb x = true /\
  match pl with
  | PlPending => status x = LOOPY_WORK_OK /\ task_of (id x) log = Some (TPending (cancelled x))
  | PlTaken => task_of (id x) log = Some (TTaken (cancelled x))
  | PlCall => task_of (id x) log = Some TRunning
  | PlFinished =>
      (status x = LOOPY_WORK_OK /\ task_of (id x) log = Some TRunning) \/
      (status x = LOOPY_WORK_CANCELLED /\ task_of (id x) log = Some (TTaken true))
  | PlLimbo => True
  end.

Record items_ok (h : gmap nat loopyWorkItem) (log : list work_event) (own : list (nat * place)) : Prop := {
  io_nodup : NoDup own.*1;
  io_dom a : is_Some (h !! a) -> a ∈ own.*1;
  io_item a pl : (a, pl) ∈ own -> exists x, h !! a = Some x /\ item_ok log x pl;
  io_inj a b x y : h !! a = Some x -> h !! b = Some y -> id x = id y -> a = b;
  io_range a x : h !! a = Some x -> (0 < id x <= queued log)%Z;
  io_log i : is_Some (task_of i log);
  io_fresh i : (queued log < i)%Z -> task_of i log = Some TNew;
  io_done i : (0 < i <= queued log)%Z ->
    (exists a x, h !! a = Some x /\ id x = i) \/ exists st, task_of i log = Some (TDone st)
}.

Lemma task_of_cons i e log t : task_of i log = Some t ->
  task_of i (e :: log) = if (ev_id e =? i)%Z then task_next t e else Some t.
Proof. intros H. cbn [task_of]. by rewrite H. Qed.

Lemma task_of_other i e log : ev_id e <> i -> task_of i (e :: log) = task_of i log.
Proof.
  intros H. cbn [task_of]. destruct (task_of i log) as [t|]; [|done]. cbn. by rewrite (proj2 (Z.eqb_neq _ _)).
Qed.

Lemma item_ok_other e log x pl : ev_id e <> id x -> item_ok log x pl -> item_ok (e :: log) x pl.
Proof. unfold item_ok. intros H. by rewrite !task_of_other. Qed.

Lemma items_ok_perm h log own own' : own ≡ₚ own' -> items_ok h log own -> items_ok h log own'.
Proof.
  intros E []. constructor; try done.
  - by rewrite <- E.
  - intros a Ha. rewrite <- E. eauto.
  - intros a pl H. rewrite <- E in H. eauto.
Qed.

Lemma in_fst (a : nat) (pl : place) own : (a, pl) ∈ own -> a ∈ own.*1.
Proof. intros H. apply list_elem_of_fmap. by exists (a, pl). Qed.

(** An item changes its state and place, and nothing is logged. *)
Lemma items_ok_set h log own a pl pl' x x' :
  items_ok h log ((a, pl) :: own) -> h !! a = Some x -> id x' = id x -> item_ok log x' pl' ->
  items_ok (<[a := x']> h) log ((a, pl') :: own).
Proof.
  intros [] Hx Hid Hok. constructor; try done.
  - intros b Hb. destruct (decide (b = a)) as [-> |Hne]; [by left|]. rewrite lookup_insert_ne in Hb by done.
    by apply io_dom0 in Hb.
  - intros b pb [[= -> ->]|Hb]%elem_of_cons; [exists x'; by rewrite lookup_insert_eq|].
    destruct (io_item0 b pb) as (y & Hy & Ho); [by right|]. exists y. rewrite lookup_insert_ne; [done|].
    intros ->. cbn in io_nodup0. apply NoDup_cons in io_nodup0 as [Hn _]. apply Hn.
    by eapply in_fst.
  - intros b c y z Hb Hc E. destruct (decide (b = a)) as [-> |Hba], (decide (c = a)) as [-> |Hca]; try done;
      rewrite ?lookup_insert_eq, ?lookup_insert_ne in * by done; simplify_eq; try (symmetry; eapply io_inj0; eauto; congruence);
      eapply io_inj0; eauto; congruence.
  - intros b y Hb. destruct (decide (b = a)) as [-> |Hba]; rewrite ?lookup_insert_eq, ?lookup_insert_ne in Hb by done;
      simplify_eq; [rewrite Hid|]; eauto.
  - intros i Hi. destruct (io_done0 i Hi) as [(b & y & Hb & Hy)|H]; [left|by right].
    destruct (decide (b = a)) as [-> |Hba]; [exists a, x'; rewrite lookup_insert_eq; split; [done|congruence]|].
    exists b, y. by rewrite lookup_insert_ne.
Qed.

(** An event of one item; it stays where it is. *)
Lemma items_ok_event h log own a pl pl' x e t :
  items_ok h log ((a, pl) :: own) -> h !! a = Some x -> ev_id e = id x -> (forall i, e <> EvQueued i) ->
  (exists t0, task_of (id x) log = Some t0 /\ t0 <> TNew /\ task_next t0 e = Some t) ->
  item_ok (e :: log) x pl' -> items_ok h (e :: log) ((a, pl') :: own).
Proof.
  intros [] Hx He Hq (t0 & Ht0 & Hnew & Ht) Hok.
  assert (Eq : queued (e :: log) = queued log) by (destruct e; try done; by edestruct Hq).
  assert (Et : task_of (id x) (e :: log) = Some t) by (rewrite (task_of_cons _ _ _ t0), He, Z.eqb_refl; done).
  constructor; rewrite ?Eq; try done.
  - intros b pb [[= -> ->]|Hb]%elem_of_cons; [by exists x|].
    destruct (io_item0 b pb) as (y & Hy & Ho); [by right|]. exists y. split; [done|]. apply item_ok_other; [|done].
    rewrite He. intros E. assert (a = b) as -> by eauto. cbn in io_nodup0. apply NoDup_cons in io_nodup0 as [Hn _].
    apply Hn. by eapply in_fst.
  - intros i. destruct (Z.eq_dec (id x) i) as [<- |Hi]; [by rewrite Et|]. rewrite task_of_other by congruence. done.
  - intros i Hi. destruct (Z.eq_dec (id x) i) as [<- |Hne]; [|rewrite task_of_other by congruence; auto].
    apply io_range0 in Hx. lia.
  - intros i Hi. destruct (io_done0 i Hi) as [H|[st H]]; [by left|].
    destruct (Z.eq_dec (id x) i) as [<- |Hne]; [left; eauto|right; exists st; rewrite task_of_other by congruence; done].
Qed.

(** A new item. *)
Lemma items_ok_new h log own a x :
  items_ok h log own -> h !! a = None -> (0 <= queued log)%Z -> id x = (1 + queued log)%Z -> workCb x = true ->
  status x = LOOPY_WORK_OK -> cancelled x = false ->
  items_ok (<[a := x]> h) (EvQueued (id x) :: log) ((a, PlPending) :: own).
Proof.
  intros [] Hn Hq Hid Hcb Hst Hc.
  assert (Et : task_of (id x) (EvQueued (id x) :: log) = Some (TPending false)).
  { rewrite (task_of_cons _ _ _ TNew) by (apply io_fresh0; lia). cbn. by rewrite Z.eqb_refl. }
  assert (Hlt : forall b y, h !! b = Some y -> id y <> id x) by (intros b y Hb%io_range0; lia).
  assert (Hab : forall b y, h !! b = Some y -> b <> a) by (intros b y Hb ->; congruence).
  constructor.
  - cbn. apply NoDup_cons. split; [|done]. intros ([b pb] & -> & Hb)%list_elem_of_fmap. cbn in Hn.
    destruct (io_item0 b pb Hb) as (y & Hy & _). congruence.
  - intros b Hb. destruct (decide (b = a)) as [-> |Hne]; [by left|]. rewrite lookup_insert_ne in Hb by done. right. auto.
  - intros b pb [[= -> ->]|Hb]%elem_of_cons.
    + exists x. rewrite lookup_insert_eq. split; [done|]. split; [done|]. by rewrite Et, Hc.
    + destruct (io_item0 b pb Hb) as (y & Hy & Ho). exists y. rewrite lookup_insert_ne by (symmetry; eauto).
      split; [done|]. apply item_ok_other; [|done]. cbn. symmetry. eauto.
  - intros b c y z Hb Hc' E. destruct (decide (b = a)) as [-> |Hba], (decide (c = a)) as [-> |Hca]; try done;
      rewrite ?lookup_insert_eq, ?lookup_insert_ne in * by done; simplify_eq; [| |by eauto]; exfalso; [|by eapply Hlt].
    by eapply Hlt.
  - intros b y Hb. cbn [queued]. destruct (decide (b = a)) as [-> |Hba].
    + rewrite lookup_insert_eq in Hb. injection Hb as <-. lia.
    + rewrite lookup_insert_ne in Hb by done. apply io_range0 in Hb. lia.
  - intros i. destruct (Z.eq_dec (id x) i) as [<- |Hi]; [by rewrite Et|]. by rewrite task_of_other.
  - cbn [queued]. intros i Hi. rewrite task_of_other by (cbn; lia). apply io_fresh0. lia.
  - cbn [queued]. intros i Hi. destruct (Z.eq_dec (id x) i) as [<- |Hne]; [left; exists a, x; by rewrite lookup_insert_eq|].
    destruct (io_done0 i ltac:(lia)) as [(b & y & Hb & Hy)|[st H]].
    + left. exists b, y. rewrite lookup_insert_ne by (symmetry; eauto). done.
    + right. exists st. by rewrite task_of_other.
Qed.

(** An item is done and freed. *)
Lemma items_ok_after h log own a x :
  items_ok h log ((a, PlFinished) :: own) -> h !! a = Some x ->
  items_ok (delete a h) (EvAfter (id x) (status x) :: log) own.
Proof.
  intros [] Hx.
  assert (Et : task_of (id x) (EvAfter (id x) (status x) :: log) = Some (TDone (status x))).
  { destruct (io_item0 a PlFinished ltac:(by left)) as (y & Hy & _ & Ho). assert (y = x) as -> by congruence.
    destruct Ho as [[E H]|[E H]]; rewrite (task_of_cons _ _ _ _ H); cbn; by rewrite Z.eqb_refl, E. }
  cbn in io_nodup0. apply NoDup_cons in io_nodup0 as [Ha Hnd].
  assert (Hne : forall b pb, (b, pb) ∈ own -> b <> a) by (intros b pb Hb ->; apply Ha; by eapply in_fst).
  constructor; cbn [queued]; try done.
  - intros b Hb. destruct (decide (b = a)) as [-> |Hba]; [by rewrite lookup_delete_eq in Hb; destruct Hb|].
    rewrite lookup_delete_ne in Hb by done. apply io_dom0 in Hb. cbn in Hb. by apply elem_of_cons in Hb as [? |?].
  - intros b pb Hb. destruct (io_item0 b pb ltac:(by right)) as (y & Hy & Ho). exists y.
    rewrite lookup_delete_ne by (symmetry; eauto). split; [done|]. apply item_ok_other; [|done]. cbn. intros E.
    apply (Hne b pb Hb). symmetry. eauto.
  - intros b c y z Hb Hc. apply lookup_delete_Some in Hb as [_ Hb]. apply lookup_delete_Some in Hc as [_ Hc]. eauto.
  - intros b y Hb. apply lookup_delete_Some in Hb as [_ Hb]. eauto.
  - intros i. destruct (Z.eq_dec (id x) i) as [<- |Hi]; [by rewrite Et|]. by rewrite task_of_other.
  - intros i Hi. rewrite task_of_other; [auto|]. cbn. apply io_range0 in Hx. lia.
  - intros i Hi. destruct (Z.eq_dec (id x) i) as [<- |Hi']; [right; by eexists|].
    destruct (io_done0 i Hi) as [(b & y & Hb & Hy)|[st H]].
    + left. exists b, y. rewrite lookup_delete_ne; [done|]. intros ->. congruence.
    + right. exists st. by rewrite task_of_other.
Qed.

(** ** The shape of the memory *)

Definition ids_of (h : gmap nat loopyWorkItem) (l : list nat) : list Z := omap (fun a => id <$> h !! a) l.

Definition at_place (pl : place) (l : list nat) : list (nat * place) := (fun a => (a, pl)) <$> l.

(** [pend] and [comp] are the two queues, [rest] the items that threads work on. *)
Record shape (p : workPool) (log : list work_event) (w : loopyWork) (pend comp : list nat) (rest : list (nat * place)) : Prop := {
  sh_work : work p = Some w;
  sh_pend : queue next (items p) (pendingHead w) (pendingTail w) pend;
  sh_comp : queue next (items p) (completedHead w) (completedTail w) comp;
  sh_count : pendingCount w = u64 (Z.of_nat (length pend));
  sh_items : items_ok (items p) log (at_place PlPending pend ++ at_place PlFinished comp ++ rest);
  sh_order : dequeued log ++ ids_of (items p) pend = seqZ 1 (queued log);
  sh_next : nextWorkId w = u64 (1 + queued log);
  sh_queued : (0 <= queued log)%Z;
  sh_cap : (0 < maxQueueSize (config w))%Z -> (Z.of_nat (length pend) <= maxQueueSize (config w))%Z
}.

(** What the operations on the queues leave alone. *)
Definition same_control (w w' : loopyWork) : Prop :=
  async w' = async w /\ workerCount w' = workerCount w /\ shutdown w' = shutdown w /\ config w' = config w.

Lemma ids_of_ext h h' l : (forall a, a ∈ l -> id <$> h' !! a = id <$> h !! a) -> ids_of h' l = ids_of h l.
Proof.
  unfold ids_of. induction l as [|a l IH]; intros H; [done|]. cbn. rewrite (H a) by (by left).
  rewrite IH; [done|]. intros b Hb. apply H. by right.
Qed.

Lemma ids_of_set h a x x' l : h !! a = Some x -> id x' = id x -> ids_of (<[a := x']> h) l = ids_of h l.
Proof.
  intros Hx E. apply ids_of_ext. intros b _. destruct (decide (b = a)) as [-> |Hne].
  - rewrite lookup_insert_eq, Hx. cbn. congruence.
  - by rewrite lookup_insert_ne.
Qed.

Lemma shape_rest p log w pend comp rest rest' : rest ≡ₚ rest' -> shape p log w pend comp rest -> shape p log w pend comp rest'.
Proof.
  intros E []. constructor; try done. eapply items_ok_perm; [|done]. by rewrite E.
Qed.

Lemma shape_ctl p log w w' pend comp rest :
  shape p log w pend comp rest ->
  pendingHead w' = pendingHead w -> pendingTail w' = pendingTail w -> completedHead w' = completedHead w ->
  completedTail w' = completedTail w -> pendingCount w' = pendingCount w -> nextWorkId w' = nextWorkId w ->
  config w' = config w -> shape (p <| work := Some w' |>) log w' pend comp rest.
Proof. intros [] E1 E2 E3 E4 E5 E6 E7. by constructor; cbn; rewrite ?E1, ?E2, ?E3, ?E4, ?E5, ?E6, ?E7. Qed.

Lemma rest_in p log w pend comp rest a pl : shape p log w pend comp rest -> (a, pl) ∈ rest ->
  a ∉ pend /\ a ∉ comp /\ exists x, items p !! a = Some x /\ item_ok log x pl.
Proof.
  intros [] Ha. destruct sh_items0. rewrite !fmap_app in io_nodup0. apply NoDup_app in io_nodup0 as (_ & Hp & H).
  apply NoDup_app in H as (_ & Hc & _). split_and!.
  - intros H. apply (Hp a); [|apply elem_of_app; right; by eapply in_fst].
    apply (in_fst a PlPending), list_elem_of_fmap. by exists a.
  - intros H. apply (Hc a); [|by eapply in_fst]. apply (in_fst a PlFinished), list_elem_of_fmap. by exists a.
  - apply io_item0. rewrite !elem_of_app. auto.
Qed.

Lemma queues_nodup p log w pend comp rest : shape p log w pend comp rest ->
  NoDup pend /\ NoDup comp /\ forall a, a ∈ pend -> a ∉ comp.
Proof.
  intros [] . destruct sh_items0. rewrite !fmap_app in io_nodup0. unfold at_place in io_nodup0.
  rewrite <- !list_fmap_compose in io_nodup0. apply NoDup_app in io_nodup0 as (Hp & Hd & H).
  apply NoDup_app in H as (Hc & _ & _).
  assert (E : forall pl l, fst ∘ (fun a : nat => (a, pl : place)) <$> l = l) by (intros; apply list_fmap_id).
  rewrite !E in *. split_and!; [done..|]. intros a Ha Hc'. apply (Hd a Ha). apply elem_of_app. by left.
Qed.

(** *** Rules for the accesses *)

Lemma wp_the_work (Q : loopyWork -> workPool -> Prop) p w : work p = Some w -> Q w p -> wp the_work Q p.
Proof. intros Hr HQ. unfold the_work. apply wp_bind, wp_get. by rewrite Hr. Qed.

Lemma wp_set_work f (Q : unit -> workPool -> Prop) p w :
  work p = Some w -> Q tt (p <| work := Some (f w) |>) -> wp (set_work f) Q p.
Proof. intros Hr HQ. unfold set_work. apply wp_bind. by eapply wp_the_work. Qed.

Lemma wp_the_item a (Q : loopyWorkItem -> workPool -> Prop) p x : items p !! a = Some x -> Q x p -> wp (the_item a) Q p.
Proof. intros Hn HQ. unfold the_item. apply wp_bind, wp_get. by rewrite Hn. Qed.

Lemma wp_set_item a f (Q : unit -> workPool -> Prop) p x :
  items p !! a = Some x -> Q tt (p <| items ::= <[a := f x]> |>) -> wp (set_item a f) Q p.
Proof. intros Hn HQ. unfold set_item. apply wp_bind. by eapply wp_the_item. Qed.

Lemma wp_free_item a (Q : unit -> workPool -> Prop) p x :
  items p !! a = Some x -> Q tt (p <| items ::= delete a |>) -> wp (free_item a) Q p.
Proof. intros Hn HQ. unfold free_item. apply wp_bind. by eapply wp_the_item. Qed.

Lemma wp_pwhen_set (b : bool) f (Q : unit -> workPool -> Prop) p w :
  work p = Some w -> Q tt (p <| work := Some (if b then f w else w : loopyWork) |>) -> wp (pwhen b (set_work f)) Q p.
Proof.
  intros Hw HQ. destruct b; [by eapply wp_set_work|]. apply wp_ret. destruct p. cbn in Hw. by subst.
Qed.

Ltac wkstep :=
  match goal with
  | |- wp (_ ≫= _) _ _ => apply wp_bind
  | |- wp (mret _) _ _ => apply wp_ret
  | |- wp the_work _ _ => eapply wp_the_work; [first [eassumption | reflexivity]|]
  | |- wp (set_work _) _ _ => eapply wp_set_work; [first [eassumption | reflexivity]|]
  | |- wp (pwhen _ (set_work _)) _ _ => eapply wp_pwhen_set; [first [eassumption | reflexivity]|]
  | |- wp (the_item _) _ _ => eapply wp_the_item; [first [eassumption | apply lookup_insert_eq]|]
  | |- wp (set_item _ _) _ _ => eapply wp_set_item; [first [eassumption | apply lookup_insert_eq]|]
  | |- wp (free_item _) _ _ => eapply wp_free_item; [first [eassumption | apply lookup_insert_eq]|]
  | |- wp get _ _ => apply wp_get
  | |- wp (modify _) _ _ => apply wp_modify
  end.

(** *** The operations of the workers *)

Lemma workDequeue_ok p log w pend comp rest a :
  shape p log w pend comp rest -> pendingHead w = Some a ->
  wp workDequeue (fun r p' => r = Some a /\ exists w' l x, pend = a :: l /\ items p' !! a = Some x /\
    same_control w w' /\ runningCount w' = runningCount w /\
    shape p' (EvDequeued (id x) :: log) w' l comp ((a, PlTaken) :: rest)) p.
Proof.
  intros H Ha. pose proof H as []. pose proof (queues_nodup _ _ _ _ _ _ H) as (Np & Nc & Ndis).
  pose proof sh_pend0 as Hq. rewrite Ha in Hq.
  destruct (chain_lookup next _ _ pend a (q_chain _ _ _ _ _ Hq)) as [x Hx].
  { destruct Hq as [Hc _]. destruct pend; [done|]. destruct Hc as [[= ->] _]. by left. }
  destruct (queue_pop next _ _ _ _ _ Hq Hx) as (l & -> & Hl). apply NoDup_cons in Np as [Hal Nl].
  unfold workDequeue. do 2 wkstep. rewrite Ha. do 4 wkstep. cbn.
  do 6 wkstep. cbn. do 3 wkstep. cbn. split; [done|].
  exists (w <| pendingHead := next x |> <| pendingTail := if bool_decide (next x = None) then None else pendingTail w |>
    <| pendingCount ::= fun n => n -64 1 |>), l. eexists. split; [done|].
  split; [apply lookup_insert_eq|]. split; [done|]. split; [done|].
  assert (Hx' : items p !! a = Some x) by done.
  constructor; cbn; try done.
  - by case_bool_decide.
  - apply queue_frame; [done|]. done.
  - apply queue_frame; [apply Ndis; by left|]. done.
  - rewrite sh_count0. cbn [length]. rewrite u64_sub_l. f_equal. lia.
  - destruct (io_item _ _ _ sh_items0 a PlPending ltac:(by left)) as (y & Hy & Hcb & Hst & Ht).
    assert (y = x) as -> by congruence.
    eapply items_ok_perm; [symmetry; by rewrite app_assoc, <- Permutation_middle, <- app_assoc|].
    eapply items_ok_set with (pl := PlLimbo) (x := x); [|done|done|].
    + eapply (items_ok_event _ _ _ a PlPending PlLimbo x); [exact sh_items0|done|done|by intros|by eexists|by split].
    + split; [done|]. cbn [id]. rewrite (task_of_cons _ _ _ _ Ht). cbn. by rewrite Z.eqb_refl.
  - rewrite <- sh_order0. cbn [ids_of omap list_omap]. rewrite Hx. cbn. rewrite <- app_assoc. cbn. do 2 f_equal.
    by eapply ids_of_set.
  - intros Hm. specialize (sh_cap0 Hm). cbn in sh_cap0. lia.
Qed.

Lemma enqueueCompleted_ok p log w pend comp rest a :
  shape p log w pend comp ((a, PlFinished) :: rest) ->
  wp (workEnqueueCompleted a) (fun _ p' => exists w', same_control w w' /\ runningCount w' = runningCount w /\
    shape p' log w' pend (comp ++ [a]) rest) p.
Proof.
  intros H. pose proof H as []. pose proof (queues_nodup _ _ _ _ _ _ H) as (Np & Nc & Ndis).
  destruct (rest_in _ _ _ _ _ _ a PlFinished H) as (Hap & Hac & x & Hx & Hok); [by left|].
  assert (Hperm : at_place PlPending pend ++ at_place PlFinished (comp ++ [a]) ++ rest ≡ₚ
    (a, PlFinished) :: (at_place PlPending pend ++ at_place PlFinished comp ++ rest)).
  { unfold at_place. rewrite fmap_app, <- app_assoc. cbn. rewrite <- !Permutation_middle. done. }
  assert (Hperm0 : at_place PlPending pend ++ at_place PlFinished comp ++ (a, PlFinished) :: rest ≡ₚ
    (a, PlFinished) :: (at_place PlPending pend ++ at_place PlFinished comp ++ rest)) by by rewrite <- !Permutation_middle.
  apply (items_ok_perm _ _ _ _ Hperm0) in sh_items0.
  unfold workEnqueueCompleted. do 3 wkstep. destruct (completedTail w) as [t|] eqn:Et.
  - pose proof (queue_tail_in next _ _ _ _ sh_comp0) as Htc.
    assert (Hta : t <> a) by (intros ->; done). assert (Htp : t ∉ pend) by (intros ?; by eapply Ndis).
    destruct (chain_lookup next _ _ _ t (q_chain _ _ _ _ _ sh_comp0) Htc) as [y Hy].
    wkstep. cbn. do 2 wkstep. cbn. eapply wp_set_item; [cbn; by rewrite lookup_insert_ne|]. cbn.
    exists (w <| completedTail := Some a |>). split; [done|]. split; [done|].
    constructor; cbn; try rewrite insert_insert_ne by done; try done.
    + apply queue_frame; [done|]. by apply queue_frame.
    + eapply queue_push; [by eapply queue_frame|done|by rewrite lookup_insert_ne|done|done|apply lookup_insert_eq|done].
    + assert (Ht : exists rest', at_place PlPending pend ++ at_place PlFinished (comp ++ [a]) ++ rest ≡ₚ
        (t, PlFinished) :: rest').
      { destruct (list_elem_of_split _ _ Htc) as (l1 & l2 & ->).
        exists (at_place PlPending pend ++ at_place PlFinished (l1 ++ l2 ++ [a]) ++ rest).
        unfold at_place. rewrite !fmap_app. cbn. rewrite <- !app_assoc. cbn. by rewrite <- !Permutation_middle. }
      destruct Ht as [rest' Ht]. eapply items_ok_perm; [symmetry; exact Ht|].
      assert (Hi : items_ok (<[a := x <| next := None |>]> (items p)) log ((t, PlFinished) :: rest')).
      { eapply items_ok_perm; [exact Ht|]. eapply items_ok_perm; [symmetry; exact Hperm|].
        by eapply items_ok_set. }
      destruct (io_item _ _ _ Hi t PlFinished ltac:(by left)) as (y' & Hy' & Hok').
      assert (y' = y) as -> by (rewrite lookup_insert_ne in Hy' by done; congruence).
      eapply items_ok_set; [exact Hi|done|done|exact Hok'].
    + rewrite (ids_of_set _ t y) by (by rewrite ?lookup_insert_ne). by rewrite (ids_of_set _ a x).
  - wkstep. cbn. do 2 wkstep. cbn. wkstep. cbn.
    exists (w <| completedHead := Some a |> <| completedTail := Some a |>). split; [done|]. split; [done|].
    assert (comp = []) as ->.
    { destruct sh_comp0 as [_ E]. symmetry in E. by apply last_None in E. }
    constructor; cbn; try done.
    + by apply queue_frame.
    + split; [|done]. split; [done|]. eexists. rewrite lookup_insert_eq. done.
    + eapply items_ok_perm; [symmetry; exact Hperm|]. by eapply items_ok_set.
    + by rewrite (ids_of_set _ a x).
Qed.

Lemma takeCompleted_ok p log w pend comp rest :
  shape p log w pend comp rest ->
  wp takeCompleted (fun r p' => exists w', same_control w w' /\ runningCount w' = runningCount w /\
    match r with
    | Some a => exists l, comp = a :: l /\ shape p' log w' pend l ((a, PlFinished) :: rest)
    | None => comp = [] /\ shape p' log w' pend [] rest
    end) p.
Proof.
  intros H. pose proof H as []. unfold takeCompleted. do 2 wkstep. destruct (completedHead w) as [a|] eqn:Eh.
  - destruct (chain_lookup next _ _ comp a (q_chain _ _ _ _ _ sh_comp0)) as [x Hx].
    { destruct sh_comp0 as [Hc _]. destruct comp; [done|]. destruct Hc as [[= ->] _]. by left. }
    destruct (queue_pop next _ _ _ _ _ sh_comp0 Hx) as (l & -> & Hl).
    do 8 wkstep. cbn.
    exists (w <| completedHead := next x |> <| completedTail := if bool_decide (next x = None) then None else completedTail w |>).
    split; [done|]. split; [done|]. exists l. split; [done|]. constructor; cbn; try done; [by case_bool_decide|].
    eapply items_ok_perm; [|exact sh_items0]. by rewrite <- Permutation_middle.
  - apply queue_nil in sh_comp0 as ->; [|done]. wkstep. exists w. done.
Qed.

(** *** The operations of the users *)

Lemma pend_length p log w pend comp rest : shape p log w pend comp rest -> (Z.of_nat (length pend) <= queued log)%Z.
Proof.
  intros []. assert (E : length (ids_of (items p) pend) = length pend).
  { clear -sh_pend0. destruct sh_pend0 as [Hc _]. revert Hc. generalize (pendingHead w) as hd.
    induction pend as [|a l IH]; intros hd H; [done|]. destruct H as (_ & x & Hx & Hc). cbn. rewrite Hx. cbn. f_equal.
    by eapply IH. }
  apply (f_equal length) in sh_order0. rewrite length_app, length_seqZ, E in sh_order0. lia.
Qed.

Lemma pend_size p log w pend comp rest : shape p log w pend comp rest -> length pend <= size (items p) /\ length comp <= size (items p).
Proof.
  intros H. pose proof (queues_nodup _ _ _ _ _ _ H) as (Np & Nc & _). destruct H.
  destruct sh_pend0, sh_comp0. split; by eapply chain_size.
Qed.

Lemma workQueue_ok p log w pend comp rest m af d :
  shape p log w pend comp rest -> (1 + queued log < w64)%Z ->
  wp (loopyWorkQueue true m af d) (fun r p' =>
    match r with
    | None => p' = p
    | Some i => exists w' a, same_control w w' /\ runningCount w' = runningCount w /\ i = (1 + queued log)%Z /\
        shape p' (EvQueued i :: log) w' (pend ++ [a]) comp rest
    end) p.
Proof.
  intros H H64. pose proof H as []. pose proof (pend_length _ _ _ _ _ _ H) as Hlen.
  pose proof (queues_nodup _ _ _ _ _ _ H) as (Np & Nc & Ndis).
  unfold loopyWorkQueue. cbn [negb]. do 2 wkstep. destruct (_ && _) eqn:Ecap; [by wkstep|].
  destruct (negb m); [by wkstep|]. do 2 wkstep.
  pose proof (is_fresh (dom (items p))) as Hf. set (a := fresh (dom (items p))) in *. apply not_elem_of_dom in Hf.
  set (x := WorkItem _ _ _ _ _ _ _).
  assert (Hid : id x = (1 + queued log)%Z) by (cbn; rewrite sh_next0; apply u64_small; unfold in64; lia).
  assert (Hxf : workCb x = true /\ status x = LOOPY_WORK_OK /\ cancelled x = false /\ next x = None) by done.
  destruct Hxf as (Hx1 & Hx2 & Hx3 & Hx4). clearbody x.
  assert (Hna : forall l : list nat, (forall b, b ∈ l -> is_Some (items p !! b)) -> a ∉ l).
  { intros l Hl [y Hy]%Hl. congruence. }
  assert (Hap : a ∉ pend) by (apply Hna; intros b; by eapply chain_lookup, sh_pend0).
  assert (Hac : a ∉ comp) by (apply Hna; intros b; by eapply chain_lookup, sh_comp0).
  assert (Hperm : at_place PlPending (pend ++ [a]) ++ at_place PlFinished comp ++ rest ≡ₚ
    (a, PlPending) :: (at_place PlPending pend ++ at_place PlFinished comp ++ rest)).
  { unfold at_place. rewrite fmap_app, <- app_assoc. cbn. by rewrite <- Permutation_middle. }
  assert (Hcnt : (u64 (Z.of_nat (length pend)) +64 1) = u64 (Z.of_nat (length (pend ++ [a])))).
  { rewrite u64_add_l, length_app. cbn. f_equal. lia. }
  assert (Hcap : (0 < maxQueueSize (config w))%Z -> (Z.of_nat (length (pend ++ [a])) <= maxQueueSize (config w))%Z).
  { intros Hm. rewrite sh_count0, u64_small in Ecap by (unfold in64; lia). rewrite length_app. cbn.
    apply andb_false_iff in Ecap as [E|E]; [apply Z.ltb_ge in E|apply Z.leb_gt in E]; lia. }
  assert (Hnext : (nextWorkId w +64 1) = u64 (1 + queued (EvQueued (id x) :: log))).
  { rewrite sh_next0, u64_add_l. cbn. f_equal. lia. }
  assert (Hord : forall h', (forall b, b ∈ pend -> id <$> h' !! b = id <$> items p !! b) -> id <$> h' !! a = Some (id x) ->
    dequeued (EvQueued (id x) :: log) ++ ids_of h' (pend ++ [a]) = seqZ 1 (queued (EvQueued (id x) :: log))).
  { intros h' Hh Ha. unfold ids_of. rewrite omap_app. fold (ids_of h' pend). rewrite (ids_of_ext (items p) h') by done.
    cbn. rewrite Ha. cbn. rewrite app_assoc, sh_order0, Hid.
    rewrite (Z.add_comm 1 (queued log)), seqZ_app by lia. f_equal. cbn. rewrite Z.add_comm. reflexivity. }
  do 4 wkstep. cbn.
  assert (Hnew : items_ok (<[a := x]> (items p)) (EvQueued (id x) :: log)
    (at_place PlPending (pend ++ [a]) ++ at_place PlFinished comp ++ rest)).
  { eapply items_ok_perm; [symmetry; exact Hperm|]. by apply items_ok_new. }
  destruct (pendingTail w) as [t|] eqn:Et.
  - pose proof (queue_tail_in next _ _ _ _ sh_pend0) as Htp.
    assert (Hta : t <> a) by (intros ->; done). assert (Htc : t ∉ comp) by auto.
    destruct (chain_lookup next _ _ _ t (q_chain _ _ _ _ _ sh_pend0) Htp) as [y Hy].
    wkstep. eapply wp_set_item; [cbn; by rewrite lookup_insert_ne|]. cbn. do 3 wkstep. cbn.
    exists (w <| nextWorkId ::= fun n => n +64 1 |> <| pendingTail := Some a |> <| pendingCount ::= fun n => n +64 1 |>), a.
    split; [done|]. split; [done|]. split; [exact Hid|]. constructor; cbn; try done; try congruence.
    + eapply queue_push; [by apply queue_frame|done|by rewrite lookup_insert_ne|done|done|apply lookup_insert_eq|done].
    + apply queue_frame; [done|]. by apply queue_frame.
    + assert (Ht : exists rest', at_place PlPending (pend ++ [a]) ++ at_place PlFinished comp ++ rest ≡ₚ (t, PlPending) :: rest').
      { destruct (list_elem_of_split _ _ Htp) as (l1 & l2 & ->).
        exists (at_place PlPending (l1 ++ l2 ++ [a]) ++ at_place PlFinished comp ++ rest).
        unfold at_place. rewrite !fmap_app. cbn. rewrite <- !app_assoc. cbn. by rewrite <- !Permutation_middle. }
      destruct Ht as [rest' Ht]. eapply items_ok_perm; [symmetry; exact Ht|]. apply (items_ok_perm _ _ _ _ Ht) in Hnew.
      destruct (io_item _ _ _ Hnew t PlPending ltac:(by left)) as (y' & Hy' & Hok').
      assert (y' = y) as -> by (rewrite lookup_insert_ne in Hy' by done; congruence).
      eapply items_ok_set; [exact Hnew|done|done|exact Hok'].
    + apply Hord.
      * intros b Hb. destruct (decide (b = t)) as [-> |Hbt]; [rewrite lookup_insert_eq, Hy; done|].
        rewrite !lookup_insert_ne by (try done; intros ->; done). done.
      * rewrite lookup_insert_ne by done. by rewrite lookup_insert_eq.
    + lia.
  - assert (pend = []) as ->.
    { destruct sh_pend0 as [_ E]. symmetry in E. by apply last_None in E. }
    wkstep. wkstep. cbn. do 3 wkstep. cbn.
    exists (w <| nextWorkId ::= fun n => n +64 1 |> <| pendingHead := Some a |> <| pendingTail := Some a |>
      <| pendingCount ::= fun n => n +64 1 |>), a.
    split; [done|]. split; [done|]. split; [exact Hid|]. constructor; cbn; try done; try congruence.
    + split; [|done]. split; [done|]. exists x. by rewrite lookup_insert_eq.
    + by apply queue_frame.
    + rewrite sh_count0. exact Hcnt.
    + apply (Hord (<[a := x]> (items p))); [intros b Hb; by apply elem_of_nil in Hb|]. by rewrite lookup_insert_eq.
    + lia.
Qed.

Lemma cancel_one p log w pend comp rest a x :
  shape p log w pend comp rest -> a ∈ pend -> items p !! a = Some x ->
  shape (p <| items ::= <[a := x <| cancelled := true |>]> |>) (EvCancelled (id x) :: log) w pend comp rest.
Proof.
  intros H Ha Hx. pose proof H as []. pose proof (queues_nodup _ _ _ _ _ _ H) as (Np & Nc & Ndis).
  constructor; cbn; try done; [by eapply queue_update..| |].
  - assert (Ht : exists rest', at_place PlPending pend ++ at_place PlFinished comp ++ rest ≡ₚ (a, PlPending) :: rest').
    { destruct (list_elem_of_split _ _ Ha) as (l1 & l2 & ->).
      exists (at_place PlPending (l1 ++ l2) ++ at_place PlFinished comp ++ rest).
      unfold at_place. rewrite !fmap_app. cbn. by rewrite <- !Permutation_middle. }
    destruct Ht as [rest' Ht]. eapply items_ok_perm; [symmetry; exact Ht|]. apply (items_ok_perm _ _ _ _ Ht) in sh_items0.
    destruct (io_item _ _ _ sh_items0 a PlPending ltac:(by left)) as (y & Hy & Hcb & Hst & Htk).
    assert (y = x) as -> by congruence.
    eapply items_ok_set with (pl := PlLimbo) (x := x); [|done|done|].
    + eapply (items_ok_event _ _ _ a PlPending PlLimbo x); [exact sh_items0|done|done|by intros|by eexists|by split].
    + split; [done|]. split; [done|]. cbn [id cancelled]. rewrite (task_of_cons _ _ _ _ Htk). cbn. by rewrite Z.eqb_refl.
  - by rewrite (ids_of_set _ a x).
Qed.

Lemma cancelFind_ok p i : forall fuel l hd, chain next (items p) hd l -> length l < fuel ->
  wp (cancelFind fuel hd i) (fun b p' =>
    if (b : bool) then exists a x, a ∈ l /\ items p !! a = Some x /\ id x = i /\
      p' = p <| items ::= <[a := x <| cancelled := true |>]> |>
    else p' = p) p.
Proof.
  induction fuel as [|fuel IH]; intros l hd Hc Hl; [lia|]. cbn [cancelFind]. destruct l as [|a l].
  { rewrite Hc. by wkstep. }
  destruct Hc as (-> & x & Hx & Hc). do 2 wkstep. destruct (Z.eqb_spec (id x) i) as [Hi|Hi].
  - do 3 wkstep. exists a, x. split; [by left|]. done.
  - eapply wp_mono; [apply (IH l); [done|cbn in Hl; lia]|]. cbv beta. intros [] p'; [|done].
    intros (b & y & Hb & Hy). exists b, y. split; [by right|done].
Qed.

Lemma workCancel_ok p log w pend comp rest i :
  shape p log w pend comp rest ->
  wp (loopyWorkCancel true i) (fun b p' => shape p' (if (b : bool) then EvCancelled i :: log else log) w pend comp rest) p.
Proof.
  intros H. pose proof H as []. unfold loopyWorkCancel. cbn [negb orb]. destruct (i =? 0)%Z; [by wkstep|]. do 4 wkstep.
  eapply wp_mono; [apply (cancelFind_ok p i _ pend); [apply sh_pend0|]|].
  { pose proof (pend_size _ _ _ _ _ _ H). lia. }
  cbv beta. intros [] p'; [|by intros ->]. intros (a & x & Ha & Hx & <- & ->). by apply cancel_one.
Qed.

Definition cancels (log : list work_event) (l : list Z) : list work_event := foldl (fun lg i => EvCancelled i :: lg) log l.

Lemma cancelWalk_ok w pend comp rest : forall fuel l p log hd, shape p log w pend comp rest ->
  chain next (items p) hd l -> (forall a, a ∈ l -> a ∈ pend) -> length l < fuel ->
  wp (cancelWalk fuel hd) (fun r p' => shape p' (cancels log r) w pend comp rest) p.
Proof.
  induction fuel as [|fuel IH]; intros l p log hd H Hc Hin Hl; [lia|]. cbn [cancelWalk]. destruct l as [|a l].
  { rewrite Hc. by wkstep. }
  destruct Hc as (-> & x & Hx & Hc). do 4 wkstep. cbn.
  pose proof (cancel_one _ _ _ _ _ _ a x H (Hin a ltac:(by left)) Hx) as H1.
  eapply wp_seq.
  - eapply (IH l); [exact H1| | |cbn in Hl; lia].
    + eapply chain_ext; [|exact Hc]. intros b Hb. cbn. destruct (decide (b = a)) as [-> |Hne].
      * by rewrite lookup_insert_eq, Hx.
      * by rewrite lookup_insert_ne.
    + intros b Hb. apply Hin. by right.
  - intros r p' H'. wkstep. exact H'.
Qed.

Lemma workCancelAll_ok p log w pend comp rest :
  shape p log w pend comp rest ->
  wp (loopyWorkCancelAll true) (fun r p' => shape p' (cancels log r) w pend comp rest) p.
Proof.
  intros H. pose proof H as []. unfold loopyWorkCancelAll. cbn [negb]. do 4 wkstep.
  apply (cancelWalk_ok w pend comp rest _ pend); [done|apply sh_pend0|done|].
  pose proof (pend_size _ _ _ _ _ _ H). lia.
Qed.

(** *** The operations on an item outside the queues *)

Lemma shape_perm_rest (pend comp : list nat) a pl rest :
  at_place PlPending pend ++ at_place PlFinished comp ++ (a, pl) :: rest ≡ₚ
    (a, pl) :: (at_place PlPending pend ++ at_place PlFinished comp ++ rest).
Proof. by rewrite <- !Permutation_middle. Qed.

Lemma shape_event p log w pend comp rest a pl pl' x e t :
  shape p log w pend comp ((a, pl) :: rest) -> items p !! a = Some x -> ev_id e = id x ->
  match e with EvQueued _ | EvDequeued _ => False | _ => True end ->
  (exists t0, task_of (id x) log = Some t0 /\ t0 <> TNew /\ task_next t0 e = Some t) ->
  item_ok (e :: log) x pl' -> shape p (e :: log) w pend comp ((a, pl') :: rest).
Proof.
  intros [] Hx He Hk Ht Hok. apply (items_ok_perm _ _ _ _ (shape_perm_rest _ _ _ _ _)) in sh_items0.
  assert (Hne : forall i, e <> EvQueued i) by (intros i ->; done).
  constructor; try done; try by destruct e.
  eapply items_ok_perm; [symmetry; apply shape_perm_rest|]. by eapply items_ok_event.
Qed.

Lemma shape_set p log w pend comp rest a pl pl' x x' :
  shape p log w pend comp ((a, pl) :: rest) -> items p !! a = Some x -> id x' = id x -> next x' = next x ->
  item_ok log x' pl' -> shape (p <| items ::= <[a := x']> |>) log w pend comp ((a, pl') :: rest).
Proof.
  intros [] Hx Hid Hn Hok. apply (items_ok_perm _ _ _ _ (shape_perm_rest _ _ _ _ _)) in sh_items0.
  constructor; cbn; try done; [by eapply queue_update..| |by rewrite (ids_of_set _ a x)].
  eapply items_ok_perm; [symmetry; apply shape_perm_rest|]. by eapply items_ok_set.
Qed.

Lemma startItem_ok p log w pend comp rest a :
  shape p log w pend comp ((a, PlTaken) :: rest) ->
  wp (startItem a) (fun '(pc, e) p' =>
    (pc = KDone a /\ e = None /\ shape p' log w pend comp ((a, PlFinished) :: rest)) \/
    (pc = KCall a /\ exists i, e = Some (EvStarted i) /\ shape p' (EvStarted i :: log) w pend comp ((a, PlCall) :: rest))) p.
Proof.
  intros H. destruct (rest_in _ _ _ _ _ _ a PlTaken H) as (_ & _ & x & Hx & Hcb & Ht); [by left|].
  unfold startItem. do 2 wkstep. destruct (cancelled x) eqn:Ec.
  - do 3 wkstep. left. split; [done|]. split; [done|]. eapply shape_set; try done. split; [done|]. right. by split.
  - rewrite Hcb. wkstep. right. split; [done|]. eexists. split; [done|].
    eapply (shape_event _ _ _ _ _ _ a PlTaken PlCall x (EvStarted (id x)) TRunning); try done; [by eexists|].
    split; [done|]. rewrite (task_of_cons _ _ _ _ Ht). cbn. by rewrite Z.eqb_refl.
Qed.

Lemma callDone_ok p log w pend comp rest a :
  shape p log w pend comp ((a, PlCall) :: rest) ->
  wp (set_item a (fun x => x <| status := LOOPY_WORK_OK |>))
    (fun _ p' => shape p' log w pend comp ((a, PlFinished) :: rest)) p.
Proof.
  intros H. destruct (rest_in _ _ _ _ _ _ a PlCall H) as (_ & _ & x & Hx & Hcb & Ht); [by left|].
  wkstep. eapply shape_set; try done. split; [done|]. left. by split.
Qed.

Lemma finishItem_ok p log w pend comp rest a :
  shape p log w pend comp ((a, PlFinished) :: rest) ->
  wp (finishItem a) (fun e p' => (exists i st, e = EvAfter i st) /\ shape p' (e :: log) w pend comp rest) p.
Proof.
  intros H. destruct (rest_in _ _ _ _ _ _ a PlFinished H) as (Hp & Hc & x & Hx & Hok); [by left|].
  unfold finishItem. do 5 wkstep. split; [by do 2 eexists|]. destruct H.
  constructor; cbn; try done; [by apply queue_delete..| |].
  - apply items_ok_after; [|done]. eapply items_ok_perm; [apply shape_perm_rest|done].
  - rewrite (ids_of_ext (items p)); [done|]. intros b Hb. rewrite lookup_delete_ne; [done|]. by intros ->.
Qed.

Lemma freeItems_ok : forall fuel l p hd, chain next (items p) hd l -> NoDup l -> length l < fuel ->
  wp (freeItems fuel hd) (fun _ p' => work p' = work p /\
    forall b, items p' !! b = if decide (b ∈ l) then None else items p !! b) p.
Proof.
  induction fuel as [|fuel IH]; intros l p hd Hc Hnd Hl; [lia|]. cbn [freeItems]. destruct l as [|a l].
  { rewrite Hc. wkstep. split; [done|]. intros b. by rewrite decide_False by set_solver. }
  destruct Hc as (-> & x & Hx & Hc). apply NoDup_cons in Hnd as [Ha Hnd]. do 4 wkstep.
  eapply wp_mono; [eapply (IH l); [|done|cbn in Hl; lia]|].
  - eapply chain_ext; [|exact Hc]. intros b Hb. cbn. rewrite lookup_delete_ne by (by intros ->). done.
  - cbn. intros _ p' [Hw Hi]. split; [done|]. intros b. rewrite Hi.
    destruct (decide (b = a)) as [-> |Hba].
    + rewrite decide_False by done. rewrite decide_True by by left. apply lookup_delete_eq.
    + rewrite lookup_delete_ne by done. do 2 case_decide; set_solver.
Qed.

Lemma freeRest_ok p log w pend comp :
  shape p log w pend comp [] -> wp freeRest (fun _ p' => work p' = None /\ items p' = ∅) p.
Proof.
  intros H. pose proof (queues_nodup _ _ _ _ _ _ H) as (Np & Nc & Ndis). pose proof (pend_size _ _ _ _ _ _ H) as [Lp Lc].
  destruct H. unfold freeRest. do 4 wkstep. eapply wp_seq.
  { eapply freeItems_ok; [apply sh_pend0|done|lia]. }
  cbv beta. intros _ p1 [Hw1 Hi1].
  assert (Hc1 : chain next (items p1) (completedHead w) comp).
  { eapply chain_ext; [|apply sh_comp0]. intros b Hb. rewrite Hi1, decide_False; [done|]. intros Hb'. by eapply Ndis. }
  do 2 wkstep.
  eapply wp_seq.
  { eapply freeItems_ok; [exact Hc1|done|].
    pose proof (chain_size _ _ _ _ Hc1 Nc). lia. }
  cbv beta. intros _ p2 [_ Hi2]. wkstep. split; [done|]. cbn. apply map_eq. intros b. rewrite Hi2, Hi1, lookup_empty.
  case_decide as Hb; [done|]. case_decide as Hb'; [done|]. apply eq_None_not_Some. intros Hs.
  apply (io_dom _ _ _ sh_items0) in Hs. unfold at_place in Hs. rewrite app_nil_r, fmap_app, <- !list_fmap_compose in Hs.
  assert (E : forall pl l, fst ∘ (fun a : nat => (a, pl : place)) <$> l = l) by (intros; apply list_fmap_id).
  rewrite !E in Hs. set_solver.
Qed.

(** ** The invariant of the system *)

Definition is_running (pc : worker_pc) : nat := match pc with KTaken _ | KCall _ | KDone _ => 1 | _ => 0 end.

Definition running (ws : list worker_pc) : nat := sum_list_with is_running ws.

Definition shutting_down (o : owner_pc) : bool :=
  match o with OFailCast | OFailJoin _ | OJoin _ => true | _ => false end.

Definition eventfd (w : loopyWork) : Z := as_eventfd (async w).
Definition flag (w : loopyWork) : bool := as_pending (async w).

Record control (w : loopyWork) (pend comp : list nat) (ws : list worker_pc) (o : owner_pc) (log : list work_event) : Prop := {
  ct_running : runningCount w = u64 (Z.of_nat (running ws));
  ct_threads : match o with
    | OCreate i => length ws = i /\ i <= workerCount w
    | OFailSet | OFailCast | OFailJoin _ => True
    | _ => length ws = workerCount w
    end;
  ct_some : 0 < workerCount w;
  ct_shutdown : shutdown w = shutting_down o;
  ct_exit : shutdown w = false -> KExit ∉ ws;
  ct_joined j : o = OJoin j \/ o = OFailJoin j -> forall i, i < j -> ws !! i = Some KExit;
  ct_no_wait j : o = OJoin j -> KWait ∉ ws /\ KSleep ∉ ws;
  ct_sleep : KSleep ∈ ws -> pend = [];
  ct_awake : pend <> [] -> shutdown w = false -> exists pc, pc ∈ ws /\ pc <> KWait /\ pc <> KSleep;
  ct_private : published o = false -> queued log = 0%Z;
  ct_fd : (0 <= eventfd w)%Z;
  ct_flag : flag w = true -> KWrite ∈ ws \/ (0 < eventfd w)%Z \/ o = OClear;
  ct_comp : comp <> [] ->
    KSend ∈ ws \/ flag w = true \/ o = OProcess \/ (exists a, o = OAfter a) \/ (exists j, o = OJoin j);
  ct_read : o = ORead -> (0 < eventfd w)%Z
}.

Record freed (s : workSys) : Prop := {
  fr_work : work (pool s) = None;
  fr_items : items (pool s) = ∅;
  fr_workers : Forall (fun pc => pc = KExit) (workers s);
  fr_log i : is_Some (task_of i (log s));
  fr_order : exists l, dequeued (log s) ++ l = seqZ 1 (queued (log s))
}.

Definition threads_items (ws : list worker_pc) (o : owner_pc) : list (nat * place) := (ws ≫= worker_items) ++ owner_items o.

(** A bound on the number of actions that workers and owner can do without
    new calls of the users. *)
Definition worker_rank (pc : worker_pc) : nat :=
  match pc with
  | KLock | KWoken => 3
  | KCheck => 2
  | KSleep => 1
  | KWait | KExit => 0
  | KTaken _ => 24
  | KCall _ => 23
  | KDone _ => 22
  | KEnqueue _ => 21
  | KSend => 15
  | KWrite => 14
  end.

Definition owner_rank (n threads : nat) (o : owner_pc) : nat :=
  match o with
  | OCreate i => 4 * (n - i) + 4 * n + 20
  | OFailSet => 4 * threads + 6
  | OFailCast => 4 * threads + 5
  | OFailJoin j | OJoin j => 1 + (threads - j)
  | OPoll => 1
  | ORead => 0
  | OClear => 5
  | OProcess => 3
  | OAfter _ => 5
  | OFreed => 0
  end.

Definition measure (w : loopyWork) (pend comp : list nat) (ws : list worker_pc) (o : owner_pc) : nat :=
  23 * length pend + 5 * length comp + 10 * Z.to_nat (eventfd w) + sum_list_with worker_rank ws +
    owner_rank (workerCount w) (length ws) o.

#[local] Arguments Nat.mul : simpl never.
#[local] Arguments Nat.sub : simpl never.

Definition live_lt (s : workSys) (m : nat) : Prop :=
  exists w pend comp, shape (pool s) (log s) w pend comp (threads_items (workers s) (owner s)) /\
    control w pend comp (workers s) (owner s) (log s) /\ measure w pend comp (workers s) (owner s) < m.

#[export] Instance owner_pc_eq_dec : EqDecision owner_pc.
Proof. solve_decision. Defined.

Definition inv_lt (s : workSys) (m : nat) : Prop :=
  if decide (owner s = OFreed) then 0 < m /\ freed s else live_lt s m.

Definition inv (s : workSys) : Prop := exists m, inv_lt s m.

Lemma inv_live s m : owner s <> OFreed -> live_lt s m -> inv_lt s m.
Proof. intros H. unfold inv_lt. by rewrite decide_False. Qed.

(** *** Moving one worker *)

Lemma threads_split ws i pc o : ws !! i = Some pc ->
  exists others, forall pc', threads_items (<[i := pc']> ws) o ≡ₚ worker_items pc' ++ others.
Proof.
  intros H.
  exists ((take i ws ≫= worker_items) ++ (drop (S i) ws ≫= worker_items) ++ owner_items o). intros pc'.
  unfold threads_items. rewrite insert_take_drop by (by eapply lookup_lt_Some). rewrite bind_app, bind_cons.
  rewrite <- !app_assoc. rewrite (app_assoc (take i ws ≫= worker_items)), (Permutation_app_comm (take i ws ≫= worker_items)).
  by rewrite <- app_assoc.
Qed.

Lemma threads_items_self ws i pc o others :
  ws !! i = Some pc -> (forall pc', threads_items (<[i := pc']> ws) o ≡ₚ worker_items pc' ++ others) ->
  threads_items ws o ≡ₚ worker_items pc ++ others.
Proof. intros H E. specialize (E pc). by rewrite list_insert_id in E. Qed.

Lemma elem_of_moved (ws : list worker_pc) i pc pc' q : ws !! i = Some pc -> q ∈ ws -> q <> pc -> q ∈ <[i := pc']> ws.
Proof.
  intros Hi [k Hk]%list_elem_of_lookup Hne. apply list_elem_of_lookup. exists k.
  rewrite list_lookup_insert_ne; [done|]. intros ->. congruence.
Qed.

Lemma elem_of_here (ws : list worker_pc) i pc pc' : ws !! i = Some pc -> pc' ∈ <[i := pc']> ws.
Proof. intros Hi. apply list_elem_of_lookup. exists i. apply list_lookup_insert_eq. by eapply lookup_lt_Some. Qed.

Lemma elem_of_back (ws : list worker_pc) i pc' q : q ∈ <[i := pc']> ws -> q = pc' \/ q ∈ ws.
Proof.
  intros [k Hk]%list_elem_of_lookup. destruct (decide (k = i)) as [-> |Hne].
  - left. apply list_lookup_insert_Some in Hk as [(_ & -> & _)|[? _]]; done.
  - right. rewrite list_lookup_insert_ne in Hk by done. by eapply list_elem_of_lookup_2.
Qed.

(** What a worker's move may change. *)
Record moves (w w' : loopyWork) (pend pend' comp comp' : list nat) (o : owner_pc) (pc pc' : worker_pc) : Prop := {
  mv_config : config w' = config w;
  mv_workerCount : workerCount w' = workerCount w;
  mv_shutdown : shutdown w' = shutdown w;
  mv_running : runningCount w' = u64 (runningCount w + Z.of_nat (is_running pc') - Z.of_nat (is_running pc));
  mv_not_exit : pc <> KExit;
  mv_exit : pc' = KExit -> shutdown w = true;
  mv_wait : pc' = KWait \/ pc' = KSleep -> pend' = [] /\ (forall j, o <> OJoin j);
  mv_pend : pend = [] -> pend' = [];
  mv_fd : (eventfd w <= eventfd w')%Z;
  mv_flag : flag w' = true -> pc' = KWrite \/ (0 < eventfd w')%Z \/ flag w = true /\ pc <> KWrite;
  mv_flag_stays : flag w = true -> flag w' = true;
  mv_comp : comp' <> [] -> pc' = KSend \/ flag w' = true \/ comp <> [] /\ pc <> KSend
}.

Lemma control_worker w w' pend pend' comp comp' ws o log log' i pc pc' :
  control w pend comp ws o log -> ws !! i = Some pc -> moves w w' pend pend' comp comp' o pc pc' ->
  queued log' = queued log -> control w' pend' comp' (<[i := pc']> ws) o log'.
Proof.
  intros [] Hi [] Hq. constructor; try (rewrite ?mv_workerCount0, ?mv_shutdown0, ?length_insert, ?Hq; done).
  - rewrite mv_running0, ct_running0. pose proof (sum_list_with_insert is_running _ _ _ pc' Hi) as E.
    fold (running ws) in E. unfold running at 2.
    unfold u64. rewrite Zminus_mod, Zplus_mod_idemp_l, <- Zminus_mod. f_equal. lia.
  - rewrite mv_shutdown0. intros Hs He%elem_of_back. destruct He as [He|He]; [|by apply ct_exit0].
    symmetry in He. apply mv_exit0 in He. congruence.
  - intros j Ho k Hk. rewrite list_lookup_insert_ne; [by eapply ct_joined0|]. intros ->.
    specialize (ct_joined0 j Ho k Hk). congruence.
  - intros j Ho. destruct (ct_no_wait0 j Ho) as [N1 N2].
    split; intros He%elem_of_back; (destruct He as [He|He]; [|done]); symmetry in He;
      [destruct (mv_wait0 (or_introl He)) as [_ He']|destruct (mv_wait0 (or_intror He)) as [_ He']]; by eapply He'.
  - intros He%elem_of_back. destruct He as [He|He]; [|auto]. symmetry in He. by apply mv_wait0; right.
  - intros Hp Hs. exists pc'. split; [by eapply elem_of_here|]. split; intros E; apply Hp; apply mv_wait0; auto.
  - lia.
  - intros Hf. destruct (mv_flag0 Hf) as [-> |[?|[Hf' Hne]]]; [left; by eapply elem_of_here|auto|].
    destruct (ct_flag0 Hf') as [?|[?|?]]; [left; by eapply elem_of_moved|right; left; lia|auto].
  - intros Hc. destruct (mv_comp0 Hc) as [-> |[?|[Hc' Hne]]]; [left; by eapply elem_of_here|auto|].
    destruct (ct_comp0 Hc') as [?|[?|?]]; [left; by eapply elem_of_moved|auto|auto].
  - intros Ho. apply ct_read0 in Ho. lia.
Qed.

(** ** The steps preserve the invariant *)

Definition out (P : workSys -> Prop) (o : outcome) : Prop :=
  match o with Next s => P s | Blocked => True | Undefined => False end.

Definition good (m : nat) (o : outcome) : Prop := out (fun s => inv_lt s m) o.

Lemma exec_good {A} (m : prog workPool A) s k Q (P : workSys -> Prop) :
  wp m Q (pool s) -> (forall x p, Q x p -> P (k x (s <| pool := p |>))) -> out P (exec m s k).
Proof. unfold wp, exec. intros H HQ. destruct (m (pool s)) as [[x p]|]; [|done]. by apply HQ. Qed.

Lemma locked_good P s o : (held s = false -> out P o) -> out P (locked s o).
Proof. unfold locked. destruct (held s); [done|auto]. Qed.

(** A worker moved: what is to be shown. *)
Lemma moved_inv s p' log' w w' pend pend' comp comp' i pc pc' others :
  owner s <> OFreed -> workers s !! i = Some pc ->
  (forall pc', threads_items (<[i := pc']> (workers s)) (owner s) ≡ₚ worker_items pc' ++ others) ->
  control w pend comp (workers s) (owner s) (log s) -> moves w w' pend pend' comp comp' (owner s) pc pc' ->
  queued log' = queued (log s) -> shape p' log' w' pend' comp' (worker_items pc' ++ others) ->
  23 * length pend' + 5 * length comp' + 10 * Z.to_nat (eventfd w') + worker_rank pc' <
    23 * length pend + 5 * length comp + 10 * Z.to_nat (eventfd w) + worker_rank pc ->
  inv_lt (goto i pc' (WorkSys p' (workers s) (owner s) log')) (measure w pend comp (workers s) (owner s)).
Proof.
  intros Ho Hi Hsplit Hc Hm Hq Hs Hlt. apply inv_live; [done|]. exists w', pend', comp'. cbn. split_and!.
  - eapply shape_rest; [|exact Hs]. symmetry. apply Hsplit.
  - by eapply control_worker.
  - unfold measure. rewrite length_insert, (mv_workerCount _ _ _ _ _ _ _ _ _ Hm).
    pose proof (sum_list_with_insert worker_rank _ _ _ pc' Hi). lia.
Qed.

(** A move that does not touch the pool. *)
Lemma moves_same w pend comp o pc pc' :
  is_running pc' = is_running pc -> in64 (runningCount w) -> pc <> KExit -> pc <> KSend -> pc <> KWrite ->
  (pc' = KExit -> shutdown w = true) -> (pc' = KWait \/ pc' = KSleep -> pend = [] /\ forall j, o <> OJoin j) ->
  moves w w pend pend comp comp o pc pc'.
Proof.
  intros E R H1 H2 H3 H4 H5. constructor; try done; try lia; [|intros; auto..].
  rewrite E, Z.add_simpl_r. symmetry. by apply u64_small.
Qed.

(** The fields of [moves] that do not depend on the state. *)
Ltac mv_auto := try done; try solve [by intros [?|?] | intros; auto | rewrite Z.add_simpl_r; symmetry; by apply u64_small].

Ltac same := apply moves_same; mv_auto.

Lemma running_in64 w pend comp ws o log : control w pend comp ws o log -> in64 (runningCount w).
Proof. intros []. rewrite ct_running0. apply u64_range. Qed.

Lemma shape_w p log w pend comp rest : shape p log w pend comp rest -> work p = Some w.
Proof. by intros []. Qed.

Lemma waitOrDequeue_good s w pend comp i others :
  owner s <> OFreed -> workers s !! i = Some KCheck ->
  (forall pc', threads_items (<[i := pc']> (workers s)) (owner s) ≡ₚ worker_items pc' ++ others) ->
  shape (pool s) (log s) w pend comp others -> control w pend comp (workers s) (owner s) (log s) ->
  good (measure w pend comp (workers s) (owner s)) (exec waitOrDequeue s (fun '(pc, e) s => goto i pc (emit_opt e s))).
Proof.
  intros Ho Hi Hsp Hs Hc. pose proof (shape_w _ _ _ _ _ _ Hs) as Hw. pose proof (running_in64 _ _ _ _ _ _ Hc) as R.
  eapply (exec_good _ _ _ (fun '(pc, e) p => inv_lt (goto i pc (emit_opt e (s <| pool := p |>))) (measure w pend comp (workers s) (owner s)))); [|by intros [] ?].
  unfold waitOrDequeue. do 2 wkstep. destruct (_ && _) eqn:E1; [|destruct (shutdown w) eqn:E2].
  - wkstep. apply andb_true_iff in E1 as [Hn Hsd]. apply bool_decide_eq_true in Hn. apply negb_true_iff in Hsd.
    pose proof (sh_pend _ _ _ _ _ _ Hs) as Hq. apply queue_nil in Hq as ->; [|done].
    destruct s. eapply (moved_inv _ _ _ w w [] [] comp comp); try done; [apply moves_same; try done|cbn; lia].
    intros _. split; [done|]. intros j E. rewrite (ct_shutdown _ _ _ _ _ _ Hc), E in Hsd. done.
  - wkstep. destruct s. eapply (moved_inv _ _ _ w w pend pend comp comp); try done; [by same|cbn; lia].
  - rewrite andb_true_r in E1. apply bool_decide_eq_false in E1. destruct (pendingHead w) as [a|] eqn:Eh; [|done].
    eapply wp_seq; [by eapply workDequeue_ok|]. intros r p' (-> & w' & l & x & -> & Hx & Hsc & Hr & H').
    pose proof (shape_w _ _ _ _ _ _ H') as Hw'. do 3 wkstep. eapply wp_the_item; [exact Hx|]. wkstep.
    destruct s as [p ws o lg]. cbn [emit_opt emit log].
    eapply (moved_inv (WorkSys p ws o lg) _ _ w (w' <| runningCount ::= fun n => n +64 1 |>) _ l comp comp); try done.
    + destruct Hsc as (Ha & Hn & Hsd & Hcf). constructor; cbn; try done; try congruence; unfold eventfd, flag; cbn;
        rewrite ?Ha; try done; try (by intros [?|?]); try (intros; auto).
      rewrite Hr. f_equal. lia.
    + eapply shape_ctl; [exact H'|done..].
    + unfold eventfd. cbn. destruct Hsc as (-> & _). lia.
Qed.

Lemma worker_good s w pend comp i pc :
  owner s <> OFreed -> workers s !! i = Some pc ->
  shape (pool s) (log s) w pend comp (threads_items (workers s) (owner s)) ->
  control w pend comp (workers s) (owner s) (log s) -> good (measure w pend comp (workers s) (owner s)) (worker_action i pc s).
Proof.
  intros Ho Hi Hs Hc. destruct (threads_split _ _ _ (owner s) Hi) as [others Hsp].
  apply (shape_rest _ _ _ _ _ _ _ (threads_items_self _ _ _ _ _ Hi Hsp)) in Hs.
  pose proof (shape_w _ _ _ _ _ _ Hs) as Hw. pose proof (running_in64 _ _ _ _ _ _ Hc) as R.
  destruct pc as [| | | | |a|a|a|a| | |]; cbn [worker_action worker_items app] in *; try done.
  all: destruct s as [p0 ws o lg]; cbn in Ho, Hi, Hsp, Hs, Hc, Hw |- *.
  - apply locked_good. intros _. apply exec_good with (Q := fun _ p => p = p0); [by eapply wp_the_work|].
    cbn. intros _ p ->. eapply (moved_inv (WorkSys p0 ws o lg) _ _ w w pend pend comp comp); try done; [by same|cbn; lia].
  - by eapply waitOrDequeue_good.
  - eapply (moved_inv (WorkSys p0 ws o lg) _ _ w w pend pend comp comp); try done; [|cbn; lia]. apply moves_same; try done.
    intros _. split; [apply (ct_sleep _ _ _ _ _ _ Hc); by eapply list_elem_of_lookup_2|].
    intros j E. cbn in E. subst o. apply (ct_no_wait _ _ _ _ _ _ Hc j eq_refl). by eapply list_elem_of_lookup_2.
  - apply locked_good. intros _. apply exec_good with (Q := fun _ p => p = p0); [by eapply wp_the_work|].
    cbn. intros _ p ->. eapply (moved_inv (WorkSys p0 ws o lg) _ _ w w pend pend comp comp); try done; [by same|cbn; lia].
  - eapply exec_good; [by eapply startItem_ok|].
    intros [pc' e] p' [(-> & -> & H')|(-> & i' & -> & H')]; cbn [emit_opt].
    + eapply (moved_inv (WorkSys p0 ws o lg) _ _ w w pend pend comp comp); try done; [by same|cbn; lia].
    + eapply (moved_inv (WorkSys p0 ws o lg) _ (EvStarted i' :: lg) w w pend pend comp comp); try done; [by same|cbn; lia].
  - eapply exec_good; [by eapply callDone_ok|]. cbv beta. intros _ p' H'.
    eapply (moved_inv (WorkSys p0 ws o lg) _ _ w w pend pend comp comp); try done; [by same|cbn; lia].
  - apply locked_good. intros _.
    eapply exec_good; [eapply (wp_set_work _ (fun _ p => p = p0 <| work := Some (w <| runningCount ::= fun n => n -64 1 |>) |>)); done|].
    cbv beta. intros _ p' ->.
    eapply (moved_inv (WorkSys p0 ws o lg) _ _ w _ pend pend comp comp); try done; [|by eapply shape_ctl|unfold eventfd; cbn; lia].
    constructor; cbn; mv_auto. f_equal. lia.
  - apply locked_good. intros _. eapply exec_good; [by eapply enqueueCompleted_ok|].
    cbv beta. intros _ p' (w' & Hsc & Hr & H').
    eapply (moved_inv (WorkSys p0 ws o lg) _ _ w w' pend pend comp (comp ++ [a])); try done;
      [|rewrite length_app; unfold eventfd; destruct Hsc as (-> & _); cbn; lia].
    destruct Hsc as (Ha & Hn & Hsd & Hcf). constructor; unfold eventfd, flag; rewrite ?Ha; mv_auto.
    rewrite Hr, Z.add_simpl_r. symmetry. by apply u64_small.
  - eapply (exec_good _ _ _ (fun won p' => exists w', work p' = Some w' /\ shape p' lg w' pend comp others /\
      moves w w' pend pend comp comp o KSend (if (won : bool) then KWrite else KLock) /\ eventfd w' = eventfd w)).
    + unfold sendCas. do 2 wkstep. destruct (as_pending (async w)) eqn:Ef.
      * wkstep. exists w. split; [done|]. split; [done|]. split; [|done].
        constructor; unfold flag; mv_auto.
      * do 3 wkstep. eexists. split; [reflexivity|]. split; [by eapply shape_ctl|]. split; [|done].
        constructor; cbn; mv_auto.
    + cbv beta. intros won p' (w' & Hw' & H' & Hm & Hfd).
      eapply (moved_inv (WorkSys p0 ws o lg) _ _ w w' pend pend comp comp); try done; [by destruct won|].
      rewrite Hfd. destruct won; cbn; lia.
  - eapply (exec_good _ _ _ (fun _ p' => exists w', shape p' lg w' pend comp others /\
      moves w w' pend pend comp comp o KWrite KLock /\ eventfd w' = (eventfd w + 1)%Z)).
    + unfold sendWrite. wkstep. eexists. split; [by eapply shape_ctl|].
      pose proof (ct_fd _ _ _ _ _ _ Hc) as Hfd.
      split; [|done]. constructor; unfold eventfd, flag in *; cbn; mv_auto; [lia|right; left; lia].
    + cbv beta. intros won p' (w' & H' & Hm & Hfd).
      eapply (moved_inv (WorkSys p0 ws o lg) _ _ w w' pend pend comp comp); try done.
      rewrite Hfd. pose proof (ct_fd _ _ _ _ _ _ Hc). cbn. lia.
Qed.

(** *** The owner *)

Lemma woken_elem (ws : list worker_pc) pc : pc ∈ ws -> pc <> KWait -> pc ∈ (woken <$> ws).
Proof. intros H Hne. apply list_elem_of_fmap. exists pc. by destruct pc. Qed.

Lemma woken_back (ws : list worker_pc) pc : pc ∈ (woken <$> ws) -> pc <> KWait /\ (pc = KWoken \/ pc ∈ ws).
Proof. intros (q & -> & Hq)%list_elem_of_fmap. by destruct q; auto. Qed.

Lemma woken_items (ws : list worker_pc) : (woken <$> ws) ≫= worker_items = ws ≫= worker_items.
Proof. induction ws as [|pc ws IH]; [done|]. cbn. rewrite IH. by destruct pc. Qed.

Lemma woken_running ws : running (woken <$> ws) = running ws.
Proof. unfold running. induction ws as [|pc ws IH]; [done|]. cbn. rewrite IH. by destruct pc. Qed.

Lemma control_broadcast w pend comp ws o log : control w pend comp ws o log -> control w pend comp (woken <$> ws) o log.
Proof.
  intros []. constructor; rewrite ?woken_running, ?length_fmap; try done.
  - intros Hs [_ [He|He]]%woken_back; [done|]. by apply ct_exit0.
  - intros j Hj i Hi. rewrite list_lookup_fmap, (ct_joined0 j Hj i Hi). done.
  - intros j Hj. split; [by intros [? _]%woken_back|]. intros [_ [?|He]]%woken_back; [done|]. by apply (ct_no_wait0 j Hj).
  - intros [_ [?|He]]%woken_back; [done|auto].
  - intros Hp Hs. destruct (ct_awake0 Hp Hs) as (pc & Hpc & Hne & ?). exists pc. split; [by apply woken_elem|done].
  - intros Hf. destruct (ct_flag0 Hf) as [?|?]; [left; by apply woken_elem|by right].
  - intros Hf. destruct (ct_comp0 Hf) as [?|?]; [left; by apply woken_elem|by right].
Qed.

Lemma control_done w pend comp ws o log :
  control w pend comp ws o log -> (exists j, (o = OJoin j \/ o = OFailJoin j) /\ ws !! j = None) ->
  Forall (fun pc => pc = KExit) ws.
Proof.
  intros [] (j & Hj & Hn). apply Forall_lookup. intros i pc Hi.
  assert (Hlt : i < j) by (apply lookup_lt_Some in Hi; apply lookup_ge_None in Hn; lia).
  pose proof (ct_joined0 j Hj i Hlt). congruence.
Qed.

Lemma exited_items (ws : list worker_pc) : Forall (fun pc => pc = KExit) ws -> ws ≫= worker_items = [].
Proof. induction 1 as [|pc ws -> _ IH]; [done|]. by cbn. Qed.

Lemma order_prefix p log w pend comp rest : shape p log w pend comp rest -> exists l, dequeued log ++ l = seqZ 1 (queued log).
Proof. intros []. eauto. Qed.

Lemma freed_inv p ws lg p' w pend comp o :
  shape p lg w pend comp (threads_items ws o) -> Forall (fun pc => pc = KExit) ws -> work p' = None -> items p' = ∅ ->
  (exists j, o = OJoin j \/ o = OFailJoin j) -> inv_lt (WorkSys p' ws OFreed lg) (measure w pend comp ws o).
Proof.
  intros H He Hw Hi Hj. unfold inv_lt. cbn. rewrite decide_True by done.
  split; [unfold measure; destruct Hj as [j [-> | ->]]; cbn; lia|]. constructor; cbn; try done.
  - intros i. eapply io_log, sh_items, H.
  - by eapply order_prefix.
Qed.

Lemma join_next w pend comp ws j lg :
  ws !! j = Some KExit ->
  (control w pend comp ws (OJoin j) lg -> control w pend comp ws (OJoin (S j)) lg) /\
  (control w pend comp ws (OFailJoin j) lg -> control w pend comp ws (OFailJoin (S j)) lg).
Proof.
  intros He.
  assert (Hlt : forall i, (forall k, k < j -> ws !! k = Some KExit) -> i < S j -> ws !! i = Some KExit).
  { intros i Hall Hi. destruct (decide (i = j)) as [-> |]; [done|]. apply Hall. lia. }
  split; intros []; (constructor; cbn in *; try done).
  - intros k [[= <-]|[=]] i Hi. apply Hlt; [|done]. intros m. apply (ct_joined0 j). by left.
  - intros k [= <-]. by eapply ct_no_wait0.
  - intros Hf. destruct (ct_flag0 Hf) as [?|[?|?]]; [by left|right; by left|done].
  - intros Hf. destruct (ct_comp0 Hf) as [?|[?|[?|[[? ?]|?]]]]; [by left|right; by left|done|done|]. right. right. right. right. eauto.
  - intros k [[=]|[= <-]] i Hi. apply Hlt; [|done]. intros m. apply (ct_joined0 j). by right.
  - intros Hf. destruct (ct_flag0 Hf) as [?|[?|?]]; [by left|right; by left|done].
  - intros Hf. destruct (ct_comp0 Hf) as [?|[?|[?|[[? ?]|[? ?]]]]]; [by left|right; by left|done|done|done].
Qed.

(** The owner goes from [o] to [o'], where shutdown and async handle change as told. *)
Record omoves (w w' : loopyWork) (comp comp' : list nat) (ws : list worker_pc) (o o' : owner_pc) : Prop := {
  om_same : runningCount w' = runningCount w /\ workerCount w' = workerCount w;
  om_threads : match o' with
    | OCreate i => length ws = i /\ i <= workerCount w
    | OFailSet | OFailCast | OFailJoin _ => True
    | _ => length ws = workerCount w
    end;
  om_shutdown : shutdown w' = shutting_down o' /\ (shutdown w' = false -> shutdown w = false);
  om_join : match o' with OJoin _ | OFailJoin (S _) => False | _ => True end;
  om_published : published o = true -> published o' = true;
  om_fd : (0 <= eventfd w -> 0 <= eventfd w')%Z;
  om_flag : flag w' = true -> flag w = true /\ (eventfd w' = eventfd w \/ o' = OClear) /\ (o = OClear -> o' = OClear);
  om_comp : comp' <> [] -> o' = OProcess \/ (exists a, o' = OAfter a) \/ comp' = comp /\
    (o = OProcess -> False) /\ ((exists a, o = OAfter a) -> False) /\ ((exists j, o = OJoin j) -> False) /\ flag w' = flag w;
  om_read : o' = ORead -> (0 < eventfd w')%Z
}.

Lemma control_owner w w' pend comp comp' ws o o' log log' :
  control w pend comp ws o log -> omoves w w' comp comp' ws o o' -> (0 <= eventfd w)%Z -> queued log' = queued log ->
  control w' pend comp' ws o' log'.
Proof.
  intros [] [[R1 R2] ? [S1 S2] ? ? ? ? ? ?] Hfd Hq. constructor; rewrite ?R1, ?R2, ?Hq; try done; auto.
  - intros j [-> | ->] i Hi; [done|]. destruct j; [lia|done].
  - by intros j ->.
  - intros Hp. apply ct_private0. destruct (published o); [|done]. rewrite om_published0 in Hp by done. done.
  - intros Hf. destruct (om_flag0 Hf) as (Hf' & Hw & Hcl). destruct (ct_flag0 Hf') as [?|[?|?]]; [by left| |auto].
    destruct Hw as [-> |?]; auto.
  - intros Hcc. destruct (om_comp0 Hcc) as [?|[?|(-> & N1 & N2 & N3 & Ef)]]; [auto..|].
    destruct (ct_comp0 Hcc) as [?|[?|[?|[?|?]]]]; [by left|right; left; congruence|exfalso; auto..].
Qed.

Ltac om_auto :=
  try done; auto;
  try solve [intros ?; split_and!; first [done | auto] | intros ?; right; left; by eexists | by intros ?; left | intros ?; right; right; split_and!; try done; intros [? [=]]].

Ltac om_easy := constructor; om_auto.

Lemma owner_inv p w pend comp ws o lg m :
  o <> OFreed -> shape p lg w pend comp (threads_items ws o) -> control w pend comp ws o lg ->
  measure w pend comp ws o < m -> inv_lt (WorkSys p ws o lg) m.
Proof. intros. apply inv_live; [done|]. by exists w, pend, comp. Qed.

Lemma woken_rank (ws : list worker_pc) : sum_list_with worker_rank (woken <$> ws) <= sum_list_with worker_rank ws + 3 * length ws.
Proof. induction ws as [|pc ws IH]; [done|]. cbn in *. destruct pc; cbn; lia. Qed.

Lemma owner_good created s w pend comp :
  owner s <> OFreed ->
  shape (pool s) (log s) w pend comp (threads_items (workers s) (owner s)) ->
  control w pend comp (workers s) (owner s) (log s) ->
  good (measure w pend comp (workers s) (owner s)) (owner_action created s).
Proof.
  intros Ho Hs Hc. pose proof (shape_w _ _ _ _ _ _ Hs) as Hw. destruct s as [p0 ws o lg]. cbn in Ho, Hs, Hc, Hw.
  pose proof (ct_fd _ _ _ _ _ _ Hc) as Hfd. pose proof (ct_shutdown _ _ _ _ _ _ Hc) as Hsd.
  pose proof (ct_threads _ _ _ _ _ _ Hc) as Hth. unfold good. cbn in Hth.
  destruct o as [i| | |j| | | | |a|j|]; unfold owner_action; cbn [owner pool workers log]; cbn in Hth; try done.
  - apply exec_good with (Q := fun x p => x = w /\ p = p0); [by eapply wp_the_work|]. intros x p [-> ->]. cbn.
    case_bool_decide as Hi; [destruct created|].
    + eapply (owner_inv p0 w pend comp (ws ++ [KLock])); [done| | |].
      * unfold threads_items in *. rewrite bind_app. cbn. by rewrite !app_nil_r in *.
      * destruct Hc, Hth. constructor; rewrite ?length_app; cbn in *; try done.
        -- rewrite ct_running0. unfold running. rewrite sum_list_with_app. cbn. do 2 f_equal. lia.
        -- lia.
        -- intros Hf. rewrite elem_of_app, list_elem_of_singleton. intros [He|He]; [by apply ct_exit0|done].
        -- by intros j [?|?].
        -- rewrite elem_of_app, list_elem_of_singleton. intros [He|He]; [auto|done].
        -- intros Hp Hsh. destruct (ct_awake0 Hp Hsh) as (pc & Hpc & Hne). exists pc. split; [apply elem_of_app; by left|done].
        -- intros Hf. destruct (ct_flag0 Hf) as [?|[?|?]]; [left; apply elem_of_app; by left|auto|done].
        -- intros Hf. destruct (ct_comp0 Hf) as [?|[?|[?|[[? ?]|[? ?]]]]]; [left; apply elem_of_app; by left|auto|done..].
      * unfold measure. rewrite sum_list_with_app. cbn. lia.
    + eapply (owner_inv p0 w pend comp); [done|done| |unfold measure, eventfd; cbn; lia].
      eapply control_owner; [exact Hc| |done|done]. om_easy.
    + eapply (owner_inv p0 w pend comp); [done|done| |unfold measure, eventfd; cbn; lia].
      eapply control_owner; [exact Hc| |done|done]. om_easy. cbn. lia.
  - eapply exec_good; [eapply (wp_set_work _ (fun _ p => p = p0 <| work := Some (w <| shutdown := true |>) |>)); done|].
    cbv beta. intros _ p ->. eapply owner_inv; [done|eapply shape_ctl; [exact Hs|done..]| |unfold measure, eventfd; cbn; lia].
    eapply control_owner; [exact Hc| |done|done]. om_easy.
  - eapply (owner_inv p0 w pend comp (woken <$> ws)); [done| | |].
    + unfold threads_items in *. by rewrite woken_items.
    + apply control_broadcast in Hc. eapply control_owner; [exact Hc| |done|done]. om_easy.
    + unfold measure. pose proof (woken_rank ws). rewrite length_fmap. cbn. lia.
  - unfold join. cbn. destruct (ws !! j) as [pc|] eqn:Ej.
    + destruct pc; try done. apply lookup_lt_Some in Ej as Hlt.
      eapply (owner_inv p0 w pend comp); [done|done| |unfold measure, eventfd; cbn; lia].
      by apply (join_next w pend comp ws j lg Ej).
    + apply exec_good with (Q := fun _ p => p = p0 <| work := None |>).
      { do 2 wkstep. by wkstep. }
      cbn. intros _ p ->. eapply freed_inv; [exact Hs| |done| |by eauto].
      * eapply control_done; [exact Hc|]. exists j. auto.
      * cbn. apply map_eq. intros b. rewrite lookup_empty. apply eq_None_not_Some. intros [x Hx].
        destruct Hs. apply (io_range _ _ _ sh_items0) in Hx. rewrite (ct_private _ _ _ _ _ _ Hc) in Hx by done. lia.
  - rewrite Hw. destruct (Z.eqb_spec (as_eventfd (async w)) 0) as [E|E]; [done|]. unfold eventfd in Hfd.
    eapply (owner_inv p0 w pend comp); [done|done| |unfold measure, eventfd; cbn; lia].
    eapply control_owner; [exact Hc| |done|done]. om_easy. intros _. unfold eventfd. lia.
  - pose proof (ct_read _ _ _ _ _ _ Hc eq_refl) as Hrd. eapply exec_good.
    { eapply (wp_set_work _ (fun _ p => p = p0 <| work := Some (w <| async ::= fun a => a <| as_eventfd := 0%Z |> |>) |>)); done. }
    cbv beta. intros _ p ->. eapply owner_inv; [done|eapply shape_ctl; [exact Hs|done..]| |].
    + eapply control_owner; [exact Hc| |done|done]. om_easy.
    + unfold measure, eventfd in *. cbn. lia.
  - eapply exec_good.
    { eapply (wp_set_work _ (fun _ p => p = p0 <| work := Some (w <| async ::= fun a => a <| as_pending := false |> |>) |>)); done. }
    cbv beta. intros _ p ->. eapply owner_inv; [done|eapply shape_ctl; [exact Hs|done..]| |].
    + eapply control_owner; [exact Hc| |done|done]. om_easy.
    + unfold measure, eventfd in *. cbn. lia.
  - apply locked_good. intros _. eapply exec_good; [by eapply takeCompleted_ok|].
    cbv beta. intros r p' (w' & (Ha & Hn & Hsd' & Hcf) & Hr & H'). destruct r as [a|].
    + destruct H' as (l & -> & H'). eapply (owner_inv p' w' pend l); [done| | |].
      * eapply shape_rest; [|exact H']. unfold threads_items. cbn. rewrite app_nil_r. apply Permutation_cons_append.
      * eapply control_owner; [exact Hc| |done|done].
        constructor; unfold eventfd, flag in *; rewrite ?Ha, ?Hn, ?Hsd'; om_auto.
      * unfold measure, eventfd. rewrite Ha. cbn. lia.
    + destruct H' as [-> H']. eapply (owner_inv p' w' pend []); [done|exact H'| |].
      * eapply control_owner; [exact Hc| |done|done].
        constructor; unfold eventfd, flag in *; rewrite ?Ha, ?Hn, ?Hsd'; om_auto.
      * unfold measure, eventfd. rewrite Ha. cbn. lia.
  - eapply exec_good.
    { eapply finishItem_ok. eapply shape_rest; [|exact Hs]. unfold threads_items. cbn. symmetry. apply Permutation_cons_append. }
    cbv beta. intros e p' [(i & st & ->) H'].
    eapply (owner_inv p' w pend comp); [done| | |unfold measure, eventfd; cbn; lia].
    + unfold threads_items. cbn. by rewrite app_nil_r.
    + eapply control_owner; [exact Hc| |done|done]. om_easy.
  - unfold join. cbn. destruct (ws !! j) as [pc|] eqn:Ej.
    + destruct pc; try done. apply lookup_lt_Some in Ej as Hlt.
      eapply (owner_inv p0 w pend comp); [done|done| |unfold measure, eventfd; cbn; lia].
      by apply (join_next w pend comp ws j lg Ej).
    + assert (He : Forall (fun pc => pc = KExit) ws) by (eapply control_done; [exact Hc|]; exists j; auto).
      eapply exec_good.
      { eapply freeRest_ok. unfold threads_items in Hs. rewrite exited_items in Hs by done. exact Hs. }
      cbv beta. intros _ p' [Hn Hi]. eapply freed_inv; [exact Hs|done|done|done|by eauto].
Qed.

(** *** Users *)

Lemma not_held s : held s = false -> KCheck ∉ workers s /\ KSleep ∉ workers s.
Proof.
  unfold held. intros H. split; intros Hin; (enough (held s = true) by (unfold held in *; congruence));
    apply existsb_exists; eexists; (split; [by apply list_elem_of_In|done]).
Qed.

Lemma control_queue w w' pend pend' comp ws o log log' :
  control w pend comp ws o log -> published o = true -> same_control w w' -> runningCount w' = runningCount w ->
  KSleep ∉ ws -> (exists pc, pc ∈ ws /\ pc <> KWait) -> control w' pend' comp ws o log'.
Proof.
  intros [] Hp (Ha & Hn & Hs & Hcf) Hr Hns (pc & Hpc & Hne).
  constructor; unfold eventfd, flag in *; rewrite ?Ha, ?Hn, ?Hs, ?Hr; try done; [|by rewrite Hp].
  intros _ _. exists pc. split_and!; try done. by intros ->.
Qed.

Lemma published_threads w pend comp ws o log : control w pend comp ws o log -> published o = true -> 0 < length ws.
Proof. intros [] Hp. destruct o; try done; rewrite ct_threads0; done. Qed.

Lemma wake_control w pend comp ws o log i :
  control w pend comp ws o log -> ws !! i = Some KWait -> control w pend comp (<[i := KWoken]> ws) o log.
Proof.
  intros Hc Hi. eapply control_worker; [exact Hc|exact Hi| |done]. pose proof (running_in64 _ _ _ _ _ _ Hc). by same.
Qed.

Lemma wake_items (ws : list worker_pc) i o : ws !! i = Some KWait -> threads_items (<[i := KWoken]> ws) o ≡ₚ threads_items ws o.
Proof.
  intros Hi. destruct (threads_split _ _ _ o Hi) as [others H]. rewrite (threads_items_self _ _ _ _ _ Hi H), H. done.
Qed.

(** What a signal does: one worker that waits is woken, if there is one. *)
Lemma signal_spec k s s' : signal k s = Some s' ->
  (s' = s /\ KWait ∉ workers s) \/ (s' = goto k KWoken s /\ workers s !! k = Some KWait).
Proof.
  unfold signal. destruct (existsb _ _) eqn:E.
  - case_decide; [|done]. intros [= <-]. by right.
  - intros [= <-]. left. split; [done|]. intros H. assert (existsb (fun pc => bool_decide (pc = KWait)) (workers s) = true).
    { apply existsb_exists. exists KWait. split; [by apply list_elem_of_In|done]. }
    congruence.
Qed.

Lemma published_live o : published o = true -> o <> OFreed.
Proof. by intros H ->. Qed.

Lemma cancels_queued l : forall lg, queued (cancels lg l) = queued lg.
Proof. induction l as [|i l IH]; intros lg; cbn; [done|]. by rewrite IH. Qed.

Lemma control_log w pend comp ws o log log' : control w pend comp ws o log -> queued log' = queued log -> control w pend comp ws o log'.
Proof. intros [] E. constructor; rewrite ?E; done. Qed.

Definition internal (a : action) : bool := match a with AOwner _ | AWorker _ => true | _ => false end.

Lemma freed_blocked s a : owner s = OFreed -> freed s -> work_step s a = Blocked.
Proof.
  intros Ho []. rewrite Forall_lookup in fr_workers0.
  destruct a as [c|i|i|m af d k|i| |]; cbn; rewrite ?Ho; cbn; try done.
  - unfold owner_action. by rewrite Ho.
  - destruct (workers s !! i) as [pc|] eqn:E; [|done]. by rewrite (fr_workers0 _ _ E).
  - case_decide as E; [|done]. by apply fr_workers0 in E.
Qed.

Lemma internal_good s a m : internal a = true -> inv_lt s (S m) -> good m (work_step s a).
Proof.
  intros Ha Hi. unfold inv_lt in Hi. case_decide as Ho.
  { rewrite freed_blocked; [done..|]. apply Hi. }
  destruct Hi as (w & pend & comp & Hs & Hc & Hm).
  assert (Hle : forall o, good (measure w pend comp (workers s) (owner s)) o -> good m o).
  { intros [| |s'] Hg; try done. unfold good, out, inv_lt in *. case_decide; [split; [lia|apply Hg]|].
    destruct Hg as (w' & pend' & comp' & ? & ? & ?). exists w', pend', comp'. split_and!; try done. lia. }
  apply Hle. destruct a as [c|i| | | | |]; try done; cbn [work_step].
  - by apply owner_good.
  - destruct (workers s !! i) as [pc|] eqn:E; [|done]. by apply worker_good.
Qed.

Lemma live_inv s w pend comp : owner s <> OFreed ->
  shape (pool s) (log s) w pend comp (threads_items (workers s) (owner s)) ->
  control w pend comp (workers s) (owner s) (log s) -> inv s.
Proof. intros. eexists. apply inv_live; [done|]. exists w, pend, comp. split_and!; try done. apply Nat.lt_succ_diag_r. Qed.

Lemma step_good s a : inv s -> (1 + queued (log s) < w64)%Z -> out inv (work_step s a).
Proof.
  intros [m0 Hi] H64. destruct (internal a) eqn:Ha.
  { assert (Hi' : inv_lt s (S m0)).
    { unfold inv_lt in *. case_decide; [split; [lia|apply Hi]|]. destruct Hi as (w & pend & comp & ? & ? & ?).
      exists w, pend, comp. split_and!; try done. lia. }
    pose proof (internal_good s a m0 Ha Hi') as Hg. destruct (work_step s a); try done. by exists m0. }
  unfold inv_lt in Hi. case_decide as Ho; [rewrite freed_blocked; [done..|]; apply Hi|].
  destruct Hi as (w & pend & comp & Hs & Hc & _). pose proof (shape_w _ _ _ _ _ _ Hs) as Hw.
  destruct a as [c|i|i|m af d k|i| |]; cbn [work_step]; try done.
  - case_decide as E; [|done]. apply (live_inv _ w pend comp); [done| |by apply wake_control].
    cbn. eapply shape_rest; [|exact Hs]. symmetry. by apply wake_items.
  - destruct (published (owner s)) eqn:Hp; [|done]. apply locked_good. intros Hns%not_held.
    pose proof (workQueue_ok _ _ _ _ _ _ m af d Hs H64) as Hq. unfold wp in Hq.
    destruct (loopyWorkQueue true m af d (pool s)) as [[[i|] p']|]; [| |done].
    + destruct Hq as (w' & a & Hsc & Hr & -> & H'). destruct s as [p0 ws o lg]. cbn in *.
      destruct (signal _ _) as [s'|] eqn:E; [|done]. apply signal_spec in E as [[-> Hn]|[-> Hk]]; cbn in *.
      * apply (live_inv _ w' (pend ++ [a]) comp); [done|done|].
        eapply control_queue; [exact Hc|done..|by apply Hns|]. pose proof (published_threads _ _ _ _ _ _ Hc Hp) as Hl.
        destruct ws as [|pc ws]; [cbn in Hl; lia|]. exists pc. split; [by left|]. intros ->. apply Hn. by left.
      * apply (live_inv _ w' (pend ++ [a]) comp); [done| |].
        { cbn. eapply shape_rest; [|exact H']. symmetry. by apply wake_items. }
        eapply control_queue; [by apply wake_control|done..| |].
        { intros He%elem_of_back. destruct He as [?|?]; [done|]. by apply Hns. }
        exists KWoken. split; [by eapply elem_of_here|done].
    + subst p'. apply (live_inv _ w pend comp); by destruct s.
  - destruct (published (owner s)) eqn:Hp; [|done]. apply locked_good. intros _.
    eapply exec_good; [by eapply workCancel_ok|]. cbv beta. intros b p' H'. destruct s as [p0 ws o lg]. cbn in *.
    destruct b; (apply (live_inv _ w pend comp); [done|done|]); [by eapply control_log|done].
  - destruct (published (owner s)) eqn:Hp; [|done]. apply locked_good. intros _.
    eapply exec_good; [by eapply workCancelAll_ok|]. cbv beta. intros r p' H'. destruct s as [p0 ws o lg]. cbn in *.
    apply (live_inv _ w pend comp); [done|done|]. eapply control_log; [exact Hc|]. apply cancels_queued.
  - destruct (owner s) eqn:Eo; try done. apply locked_good. intros Hns%not_held.
    eapply exec_good.
    { eapply (wp_set_work _ (fun _ p => p = (pool s) <| work := Some (w <| shutdown := true |>) |>)); done. }
    cbv beta. intros _ p ->. eapply (live_inv _ _ pend comp); [done| |]; cbn.
    { unfold threads_items in *. rewrite woken_items. eapply shape_ctl; [exact Hs|done..]. }
    apply control_broadcast in Hc. destruct Hc. constructor; cbn in *; try done.
    + intros j [[= <-]|[=]] i Hi. lia.
    + intros j _. split; intros Hin; apply woken_back in Hin as [? [?|?]]; try done. by apply Hns.
    + intros Hf. destruct (ct_flag0 Hf) as [?|[?|?]]; [by left|auto|done].
    + intros _. right. right. right. right. by eexists.
Qed.

Lemma queued_cons e log : (queued log <= queued (e :: log))%Z.
Proof. destruct e; cbn; lia. Qed.

Definition after (P : workSys -> Prop) (o : outcome) : Prop := match o with Next s => P s | _ => True end.

Lemma exec_after {A} (P : workSys -> Prop) (m : prog workPool A) s k :
  (forall x p, P (k x (s <| pool := p |>))) -> after P (exec m s k).
Proof. unfold exec. destruct (m (pool s)) as [[x p]|]; [|done]. intros H. apply H. Qed.

Lemma locked_after P s o : after P o -> after P (locked s o).
Proof. unfold locked. by destruct (held s). Qed.

Ltac after_step :=
  repeat first
    [ progress (cbn; intros) | done | lia | apply exec_after | apply locked_after
    | match goal with |- after _ (match ?x with _ => _ end) => destruct x end
    | match goal with |- context [if ?x then _ else _] => destruct x end
    | match goal with |- context [let '(_, _) := ?x in _] => destruct x end ].

Lemma step_queued s a : after (fun s' => (queued (log s) <= queued (log s'))%Z) (work_step s a).
Proof.
  assert (Hopt : forall e s, (queued (log s) <= queued (log (emit_opt e s)))%Z).
  { intros [e|] s0; [apply queued_cons|cbn; lia]. }
  destruct a as [c|i|i|m af d k|i| |]; cbn [work_step].
  - unfold owner_action, join. destruct (owner s); after_step; destruct s; cbn; apply queued_cons.
  - destruct (workers s !! i) as [pc|]; [|done]. destruct pc; unfold worker_action; after_step; match goal with |- context [emit_opt ?e ?t] => exact (Hopt e t) end.
  - after_step.
  - destruct (published (owner s)); [|done]. apply locked_after.
    destruct (loopyWorkQueue _ _ _ _ _) as [[[i|] p]|]; [|cbn; lia|done].
    destruct (signal _ _) as [s'|] eqn:E; [|done]. apply signal_spec in E as [[-> _]|[-> _]]; cbn; lia.
  - after_step.
  - after_step. rewrite cancels_queued. lia.
  - after_step.
Qed.

Lemma run_queued acts s s' : work_run acts s s' -> (queued (log s) <= queued (log s'))%Z.
Proof.
  induction 1 as [|a acts s s1 s' E _ IH]; [lia|]. pose proof (step_queued s a) as H. rewrite E in H. cbn in H. lia.
Qed.

Lemma run_inv acts s s' : work_run acts s s' -> inv s -> (queued (log s') < w64 - 1)%Z -> inv s'.
Proof.
  induction 1 as [|a acts s s1 s' E Hr IH]; [done|]. intros Hi H64. apply IH; [|done].
  pose proof (run_queued _ _ _ Hr) as Hq. pose proof (step_queued s a) as Hq1. rewrite E in Hq1. cbn in Hq1.
  pose proof (step_good s a Hi ltac:(lia)) as Hg. by rewrite E in Hg.
Qed.

Definition work_init (c : option loopyWorkConfig) (s : workSys) : Prop :=
  exists loop m mu co a1 a2 a3 a4 wk w,
    loopyWorkNew loop c m mu co (loopyAsyncNew a1 a2 a3 a4) wk = Some w /\ s = work_start w.

Definition size_t_config (c : option loopyWorkConfig) : Prop :=
  forall c0, c = Some c0 -> (0 <= minThreads c0)%Z /\ (0 <= maxThreads c0)%Z.

Lemma validThreads_pos c : (0 <= minThreads c)%Z -> (0 < minThreads (validThreads c))%Z.
Proof.
  intros H. unfold validThreads. repeat match goal with |- context [if ?b then _ else _] => destruct b eqn:? end;
    bool_to_prop; cbn in *; lia.
Qed.

Lemma start_inv c s : work_init c s -> size_t_config c -> inv s.
Proof.
  intros (lp & m & mu & co & a1 & a2 & a3 & a4 & wk & w & E & ->) Hc. unfold loopyWorkNew, loopyAsyncNew in E.
  destruct lp as [lp|]; [|done]. cbn in E. destruct m; [|done]. cbn in E. destruct mu; [|done]. destruct co; [|done].
  cbn in E. destruct a1; [|done]. destruct a2; [|done]. destruct a3; [|done]. destruct a4; [|done]. cbn in E.
  destruct wk; [|done]. injection E as <-. eapply (live_inv _ _ [] []); [done|cbn|].
  - constructor; cbn; try done; try lia.
    constructor; cbn; try done; try lia; [apply NoDup_nil_2|..].
    + intros a [x Hx]. by rewrite lookup_empty in Hx.
    + intros a pl H. by apply elem_of_nil in H.
  - constructor; cbn; try done; try lia.
    + assert (0 < minThreads (validThreads (default LOOPY_WORK_CONFIG_DEFAULT c)))%Z; [|lia].
      apply validThreads_pos. destruct c as [c|]; [|done]. by apply Hc.
    + intros _ H. by apply elem_of_nil in H.
    + by intros j [?|?].
Qed.

(** ** What the log says of one item *)

#[export] Instance loopyWorkStatus_eq_dec : EqDecision loopyWorkStatus.
Proof. solve_decision. Defined.

#[export] Instance work_event_eq_dec : EqDecision work_event.
Proof. solve_decision. Defined.

Fixpoint times (e : work_event) (log : list work_event) : nat :=
  match log with [] => 0 | e' :: log => if decide (e' = e) then S (times e log) else times e log end.

(** How often an item in state [t] was started, cancelled and finished. *)
Definition history (i : Z) (t : task) (log : list work_event) : Prop :=
  let n := times (EvStarted i) log in
  let c := times (EvCancelled i) log in
  let ok := times (EvAfter i LOOPY_WORK_OK) log in
  let ca := times (EvAfter i LOOPY_WORK_CANCELLED) log in
  times (EvAfter i LOOPY_WORK_ERROR) log = 0 /\
  match t with
  | TNew | TPending false | TTaken false => n = 0 /\ c = 0 /\ ok = 0 /\ ca = 0
  | TPending true | TTaken true => n = 0 /\ 0 < c /\ ok = 0 /\ ca = 0
  | TRunning => n = 1 /\ c = 0 /\ ok = 0 /\ ca = 0
  | TDone LOOPY_WORK_OK => n = 1 /\ c = 0 /\ ok = 1 /\ ca = 0
  | TDone LOOPY_WORK_CANCELLED => n = 0 /\ 0 < c /\ ok = 0 /\ ca = 1
  | TDone LOOPY_WORK_ERROR => False
  end.

Lemma times_cons e e' log : times e (e' :: log) = if decide (e' = e) then S (times e log) else times e log.
Proof. done. Qed.

Lemma history_ok i log t : task_of i log = Some t -> history i t log.
Proof.
  revert t. induction log as [|e log IH]; intros t E; [by injection E as <-|].
  cbn [task_of] in E. destruct (task_of i log) as [t0|] eqn:E0; [|done]. cbn in E. specialize (IH t0 eq_refl).
  unfold history in *. rewrite !times_cons. destruct (Z.eqb_spec (ev_id e) i) as [<- |Hne].
  - destruct e as [j|j|j|j|j []], t0 as [|[]|[]| |[]]; cbn in E; try discriminate E; injection E as <-; cbn in IH |- *;
      repeat case_decide; simplify_eq; lia.
  - injection E as <-. by rewrite !decide_False by (intros ->; done).
Qed.

(** ** Properties *)

(** C7. Whatever its users and threads do, in whatever order, and whatever
    allocations fail, the pool never touches a freed item or the freed pool;
    each id goes through its life as [task_next] says (started at most once,
    finished once), and workers take the items in the order in which they were
    queued.  (Fewer than 2^64 - 2 items.) *)
Theorem work_safe c s0 acts s a :
  work_init c s0 -> size_t_config c -> work_run acts s0 s -> (queued (log s) < w64 - 1)%Z ->
  work_step s a <> Undefined /\ (forall i, is_Some (task_of i (log s))) /\
  exists l, dequeued (log s) ++ l = seqZ 1 (queued (log s)).
Proof.
  intros H0 Hc Hr H64. pose proof (run_inv _ _ _ Hr (start_inv _ _ H0 Hc) H64) as Hi. split.
  - pose proof (step_good s a Hi ltac:(lia)) as Hg. by intros E; rewrite E in Hg.
  - destruct Hi as [m Hi]. unfold inv_lt in Hi. case_decide; [split; apply Hi|].
    destruct Hi as (w & pend & comp & Hs & _). split; [|by eapply order_prefix]. intros i. eapply io_log, sh_items, Hs.
Qed.

(** Cancellation is reliable: when [loopyWorkCancel] answered true for an
    id (or [loopyWorkCancelAll] marked it), its work callback never runs, and
    its after-work callback is called at most once, with
    [LOOPY_WORK_CANCELLED]; an item that was not cancelled is called back with
    [LOOPY_WORK_OK], at most once and only after its work callback ran. *)
Theorem work_cancel_reliable c s0 acts s i :
  work_init c s0 -> size_t_config c -> work_run acts s0 s -> (queued (log s) < w64 - 1)%Z ->
  (0 < times (EvCancelled i) (log s) ->
     times (EvStarted i) (log s) = 0 /\ times (EvAfter i LOOPY_WORK_OK) (log s) = 0 /\
     times (EvAfter i LOOPY_WORK_CANCELLED) (log s) <= 1) /\
  (times (EvCancelled i) (log s) = 0 ->
     times (EvStarted i) (log s) <= 1 /\ times (EvAfter i LOOPY_WORK_OK) (log s) <= times (EvStarted i) (log s) /\
     times (EvAfter i LOOPY_WORK_CANCELLED) (log s) = 0).
Proof.
  intros H0 Hc Hr H64. destruct (run_inv _ _ _ Hr (start_inv _ _ H0 Hc) H64) as [m Hi].
  assert (Hl : is_Some (task_of i (log s))).
  { unfold inv_lt in Hi. case_decide; [apply Hi|]. destruct Hi as (w & pend & comp & Hs & _). eapply io_log, sh_items, Hs. }
  destruct Hl as [t Ht]. apply history_ok in Ht as [_ H]. destruct t as [|[]|[]| |[]]; cbn in H; lia.
Qed.

(** The counters are exact: the queue never holds more items than
    [maxQueueSize] when that is not 0, and [runningCount] is the number of
    workers between taking an item and finishing it, at most the number of
    threads. *)
Theorem work_counts c s0 acts s w :
  work_init c s0 -> size_t_config c -> work_run acts s0 s -> (queued (log s) < w64 - 1)%Z -> work (pool s) = Some w ->
  (0 <= pendingCount w)%Z /\ ((0 < maxQueueSize (config w))%Z -> (pendingCount w <= maxQueueSize (config w))%Z) /\
  runningCount w = u64 (Z.of_nat (running (workers s))) /\ running (workers s) <= length (workers s).
Proof.
  intros H0 Hc Hr H64 Hw. destruct (run_inv _ _ _ Hr (start_inv _ _ H0 Hc) H64) as [m Hi].
  unfold inv_lt in Hi. case_decide; [destruct Hi as [_ []]; congruence|].
  destruct Hi as (w' & pend & comp & Hs & Hct & _). pose proof (pend_length _ _ _ _ _ _ Hs) as Hl.
  assert (w' = w) as -> by (apply shape_w in Hs; congruence). split_and!.
  - rewrite (sh_count _ _ _ _ _ _ Hs). apply u64_range.
  - intros Hm. pose proof (sh_cap _ _ _ _ _ _ Hs Hm). rewrite (sh_count _ _ _ _ _ _ Hs), u64_small; [lia|unfold in64; lia].
  - apply Hct.
  - clear. unfold running. induction (workers s) as [|pc ws IH]; cbn; [lia|]. destruct pc; cbn in *; lia.
Qed.

(** C36. The pool comes to rest: from every reachable state there is a bound on
    the number of actions its workers and its owner can do without new calls
    of the users (and spurious wake-ups), in any order. *)
Theorem work_terminates c s0 acts s :
  work_init c s0 -> size_t_config c -> work_run acts s0 s -> (queued (log s) < w64 - 1)%Z ->
  exists n, forall acts' s', Forall (fun a => internal a = true) acts' -> work_run acts' s s' -> length acts' <= n.
Proof.
  intros H0 Hc Hr H64. destruct (run_inv _ _ _ Hr (start_inv _ _ H0 Hc) H64) as [m Hi]. exists m.
  intros acts' s' Hint Hr'. clear Hr H64. revert m Hi Hint.
  induction Hr' as [s|a acts' s s1 s' E Hr' IH]; intros m Hi Hint; [cbn; lia|].
  apply Forall_cons in Hint as [Ha Hint]. destruct m as [|m].
  { exfalso. unfold inv_lt in Hi. case_decide; [destruct Hi; lia|]. destruct Hi as (? & ? & ? & _ & _ & ?). lia. }
  pose proof (internal_good s a m Ha Hi) as Hg. rewrite E in Hg. cbn.
  enough (length acts' <= m) by lia. by apply IH.
Qed.

Definition at_rest (s : workSys) : Prop := forall a, internal a = true -> work_step s a = Blocked.

Lemma exec_not_blocked {A} (m : prog workPool A) s k : exec m s k <> Blocked.
Proof. unfold exec. by destruct (m (pool s)) as [[? ?]|]. Qed.

Lemma rest_not_held s : at_rest s -> held s = false.
Proof.
  intros H. apply not_true_iff_false. intros Hh. apply existsb_exists in Hh as (pc & Hin & Hpc).
  apply list_elem_of_In, list_elem_of_lookup in Hin as [i Hi]. specialize (H (AWorker i) eq_refl). cbn in H. rewrite Hi in H.
  apply orb_true_iff in Hpc as [E%bool_decide_eq_true|E%bool_decide_eq_true]; subst pc; [|done].
  by apply exec_not_blocked in H.
Qed.

Lemma rest_workers s pc : at_rest s -> pc ∈ workers s -> pc = KWait \/ pc = KExit.
Proof.
  intros H [i Hi]%list_elem_of_lookup. pose proof (rest_not_held s H) as Hh. specialize (H (AWorker i) eq_refl). cbn in H.
  rewrite Hi in H. destruct pc; cbn in H; unfold locked in H; rewrite ?Hh in H; auto;
    first [done | by apply exec_not_blocked in H].
Qed.

Lemma rest_items (ws : list worker_pc) : (forall pc, pc ∈ ws -> pc = KWait \/ pc = KExit) -> ws ≫= worker_items = [].
Proof.
  induction ws as [|pc ws IH]; intros H; [done|]. cbn. rewrite IH by (intros q Hq; apply H; by right).
  destruct (H pc ltac:(by left)) as [-> | ->]; done.
Qed.

(** C8. Where it comes to rest: either the loop runs and every item ever
    queued is done, or the pool was freed and no item is left allocated, or
    its creation failed and waits for a thread that sleeps. *)
Theorem work_rest c s0 acts s :
  work_init c s0 -> size_t_config c -> work_run acts s0 s -> (queued (log s) < w64 - 1)%Z -> at_rest s ->
  (owner s = OPoll /\ items (pool s) = ∅ /\
     forall i, (0 < i <= queued (log s))%Z -> exists st, task_of i (log s) = Some (TDone st)) \/
  (owner s = OFreed /\ work (pool s) = None /\ items (pool s) = ∅ /\ Forall (fun pc => pc = KExit) (workers s)) \/
  exists j, owner s = OFailJoin j /\ workers s !! j = Some KWait.
Proof.
  intros H0 Hc Hr H64 Hrest. destruct (run_inv _ _ _ Hr (start_inv _ _ H0 Hc) H64) as [m Hi].
  unfold inv_lt in Hi. case_decide as Ho; [right; left; split; [done|]; destruct Hi as [_ []]; by split_and!|].
  destruct Hi as (w & pend & comp & Hs & Hct & _). pose proof (rest_workers s) as Hw. specialize (fun pc => Hw pc Hrest).
  pose proof (rest_not_held s Hrest) as Hh. pose proof (Hrest (AOwner true) eq_refl) as E. cbn in E. unfold owner_action, join in E.
  pose proof (shape_w _ _ _ _ _ _ Hs) as Hwk.
  destruct (owner s) as [i| | |j| | | | |a|j|] eqn:Eo; try (by apply exec_not_blocked in E); try done.
  - right. right. exists j. split; [done|]. destruct (workers s !! j) as [pc|] eqn:Ej; [|by apply exec_not_blocked in E].
    destruct (Hw pc) as [-> | ->]; [by eapply list_elem_of_lookup_2|done|done].
  - left. rewrite Hwk in E. destruct (Z.eqb_spec (as_eventfd (async w)) 0) as [Efd|]; [|done].
    assert (Hexit : forall pc, pc ∈ workers s -> pc = KWait).
    { intros pc Hpc. destruct (Hw pc Hpc) as [? | ->]; [done|]. exfalso. eapply ct_exit; [exact Hct| |exact Hpc].
      by rewrite (ct_shutdown _ _ _ _ _ _ Hct). }
    assert (pend = []) as ->.
    { destruct pend; [done|]. destruct (ct_awake _ _ _ _ _ _ Hct) as (pc & Hpc & Hne & _); [done| |].
      - by rewrite (ct_shutdown _ _ _ _ _ _ Hct).
      - by apply Hexit in Hpc. }
    assert (Hfl : flag w = false).
    { apply not_true_iff_false. intros Hf. destruct (ct_flag _ _ _ _ _ _ Hct Hf) as [Hk|[Hk|?]]; [by apply Hexit in Hk| |done].
      unfold eventfd in Hk. lia. }
    assert (comp = []) as ->.
    { destruct comp; [done|]. destruct (ct_comp _ _ _ _ _ _ Hct) as [Hk|[Hk|[?|[[? ?]|[? ?]]]]]; try done; [by apply Hexit in Hk|congruence]. }
    destruct Hs. unfold threads_items in sh_items0. rewrite rest_items in sh_items0 by auto. cbn in sh_items0.
    assert (He : items (pool s) = ∅).
    { apply map_eq. intros b. rewrite lookup_empty. apply eq_None_not_Some. intros Hb.
      apply (io_dom _ _ _ sh_items0) in Hb. by apply elem_of_nil in Hb. }
    split_and!; [done|done|]. intros i Hi. destruct (io_done _ _ _ sh_items0 i Hi) as [(b & x & Hb & _)|?]; [|done].
    by rewrite He, lookup_empty in Hb.
  - unfold locked in E. rewrite Hh in E. by apply exec_not_blocked in E.
  - exfalso. destruct (workers s !! j) as [pc|] eqn:Ej; [|by apply exec_not_blocked in E].
    destruct (ct_no_wait _ _ _ _ _ _ Hct j eq_refl) as [N _].
    destruct (Hw pc) as [-> | ->]; [by eapply list_elem_of_lookup_2| |done]. apply N. by eapply list_elem_of_lookup_2.
Qed.

(** An executable run. *)
Fixpoint go (acts : list action) (s : workSys) : option workSys :=
  match acts with [] => Some s | a :: acts => match work_step s a with Next s => go acts s | _ => None end end.

Lemma go_run acts : forall s s', go acts s = Some s' -> work_run acts s s'.
Proof.
  induction acts as [|a acts IH]; cbn; intros s s' E; [injection E as <-; constructor|].
  destruct (work_step s a) as [| |s1] eqn:Ea; try done. econstructor; [done|]. by apply IH.
Qed.

Definition two_threads : option loopyWorkConfig := Some (WorkConfig 2 4 1).

Definition two_start : option workSys :=
  w ← loopyWorkNew (Some 0) two_threads true true true (loopyAsyncNew true true true true) true; Some (work_start w).

(** When a thread cannot be created, [loopyWorkNew] may wait for ever: it
    sets [shutdown] and broadcasts without the mutex, and a worker that has
    tested the condition but does not wait yet misses both.  Nothing but a
    spurious wake-up can then go on. *)
Theorem work_new_hangs :
  exists c s0 acts s, work_init c s0 /\ work_run acts s0 s /\ owner s = OFailJoin 0 /\ workers s = [KWait] /\ at_rest s.
Proof.
  exists two_threads. destruct two_start as [s0|] eqn:E0; [|done].
  exists s0, [AOwner true; AWorker 0; AWorker 0; AOwner false; AOwner true; AOwner true; AWorker 0].
  destruct (go [AOwner true; AWorker 0; AWorker 0; AOwner false; AOwner true; AOwner true; AWorker 0] s0) as [s|] eqn:E.
  - exists s. split.
    { unfold two_start in E0. destruct (loopyWorkNew _ _ _ _ _ _ _) as [w|] eqn:Ew; [|done]. injection E0 as <-.
      exists (Some 0), true, true, true, true, true, true, true, true, w. done. }
    split; [by apply go_run|]. injection E0 as <-. vm_compute in E. injection E as <-. split_and!; [done..|].
    intros [| [|i] | | | | |]; done.
  - injection E0 as <-. vm_compute in E. done.
Qed.

(** ** Instances of the theorems *)

(** An item is queued, cancelled, taken by the second worker and called back;
    then everything is at rest. *)
Definition demo_acts : list action :=
  [AOwner true; AOwner true; AOwner true; AQueue true true 7 0; ACancel 1] ++ replicate 7 (AWorker 1) ++
  replicate 6 (AOwner true) ++ replicate 3 (AWorker 0) ++ replicate 3 (AWorker 1).

Definition demo_state : option workSys := s0 ← two_start; go demo_acts s0.

Lemma two_start_init s0 : two_start = Some s0 -> work_init two_threads s0.
Proof.
  unfold two_start. destruct (loopyWorkNew _ _ _ _ _ _ _) as [w|] eqn:Ew; [|done]. intros [= <-].
  by exists (Some 0), true, true, true, true, true, true, true, true, w.
Qed.

Lemma two_threads_size_t : size_t_config two_threads.
Proof. intros c [= <-]. done. Qed.

Lemma demo_run : exists s0 s, work_init two_threads s0 /\ work_run demo_acts s0 s /\ demo_state = Some s.
Proof.
  destruct two_start as [s0|] eqn:E0; [|done]. destruct (go demo_acts s0) as [s|] eqn:E.
  - exists s0, s. split; [by apply two_start_init|]. split; [by apply go_run|]. unfold demo_state. by rewrite E0.
  - injection E0 as <-. vm_compute in E. done.
Qed.

Lemma demo_ended s : demo_state = Some s ->
  queued (log s) = 1%Z /\ owner s = OPoll /\ times (EvCancelled 1) (log s) = 1 /\
  (times (EvAfter 1 LOOPY_WORK_CANCELLED) (log s) = 1) /\ at_rest s.
Proof.
  intros E. evaluate E. injection E as <-. split_and!; try done. intros [| [|[|i]] | | | | |]; done.
Qed.

Lemma work_safe_witness : exists s, demo_state = Some s /\ work_step s AFree <> Undefined /\
  exists l, dequeued (log s) ++ l = seqZ 1 1.
Proof.
  destruct demo_run as (s0 & s & H0 & Hr & E). destruct (demo_ended s E) as (Hq & _). exists s. split; [done|].
  destruct (work_safe two_threads s0 demo_acts s AFree H0 two_threads_size_t Hr) as (H & _ & Hl); [rewrite Hq; done|].
  rewrite Hq in Hl. by split.
Defined.

Lemma work_cancel_reliable_witness : exists s, demo_state = Some s /\ times (EvCancelled 1) (log s) = 1 /\
  times (EvStarted 1) (log s) = 0.
Proof.
  destruct demo_run as (s0 & s & H0 & Hr & E). destruct (demo_ended s E) as (Hq & _ & Hc & _). exists s. split; [done|].
  destruct (work_cancel_reliable two_threads s0 demo_acts s 1 H0 two_threads_size_t Hr) as [H _]; [rewrite Hq; done|].
  split; [done|]. apply H. rewrite Hc. apply Nat.lt_0_1.
Defined.

Lemma work_counts_witness : exists s w, demo_state = Some s /\ work (pool s) = Some w /\ (pendingCount w <= 1)%Z.
Proof.
  destruct demo_run as (s0 & s & H0 & Hr & E). destruct (demo_ended s E) as (Hq & _).
  destruct (work (pool s)) as [w|] eqn:Ew; [|exfalso; evaluate E; injection E as <-; done].
  exists s, w. split; [done|]. split; [done|].
  destruct (work_counts two_threads s0 demo_acts s w H0 two_threads_size_t Hr ltac:(rewrite Hq; done) Ew) as (_ & H & _).
  assert (Hm : maxQueueSize (config w) = 1%Z) by (evaluate E; injection E as <-; by injection Ew as <-).
  rewrite Hm in H. by apply H.
Defined.

Lemma work_terminates_witness : exists s n, demo_state = Some s /\
  forall acts' s', Forall (fun a => internal a = true) acts' -> work_run acts' s s' -> length acts' <= n.
Proof.
  destruct demo_run as (s0 & s & H0 & Hr & E). destruct (demo_ended s E) as (Hq & _).
  destruct (work_terminates two_threads s0 demo_acts s H0 two_threads_size_t Hr ltac:(rewrite Hq; done)) as [n Hn].
  exists s, n. by split.
Defined.

Lemma work_rest_witness : exists s, demo_state = Some s /\ owner s = OPoll /\ at_rest s /\ exists st, task_of 1 (log s) = Some (TDone st).
Proof.
  destruct demo_run as (s0 & s & H0 & Hr & E). destruct (demo_ended s E) as (Hq & Ho & _ & _ & Hrest). exists s. split; [done|].
  split; [done|]. split; [done|].
  destruct (work_rest two_threads s0 demo_acts s H0 two_threads_size_t Hr ltac:(rewrite Hq; done) Hrest) as [(_ & _ & H)|[[H _]|(j & H & _)]].
  - apply H. rewrite Hq; lia.
  - congruence.
  - congruence.
Defined.

(** The counter of ids wraps around: the item that gets id 0 is queued, but
    [loopyWorkQueue] answers 0, its answer for an error, and the item cannot be
    cancelled. *)
Lemma work_id_wraps :
  (fun '(r, p) => (r, size (items p))) <$>
    loopyWorkQueue true true false 0
      (WorkPool (Some (Work 0 0 LOOPY_WORK_CONFIG_DEFAULT (Async false 0) 1 false None None 0 0 (u64 w64) None None)) ∅) =
  Some (Some 0%Z, 1).
Proof. vm_compute. reflexivity. Qed.
