(* ===== verification/Timer.v ===== *)
(** * Timer handles ([src/loopyTimer.c])

    A handle is a structure in a heap, registered with the timer wheel of the
    loop of [EventLoop.v] under one callback, [timerWheelCallbackWrapper], whose
    data is the handle.  What a wheel promises to its users is the class
    [FiringWheel].  [timer_step] interleaves the calls of users, also from
    within callbacks, with the wheel's calls of the wrapper. *)

From S2P Require Import Prelude MaxHeap EventLoop.

Local Open Scope nat_scope.

(** ** What is assumed of the wheel

    [tw_map] are the registrations, [tw_ids] the ids given so far, which are
    not given again; [tw_returned id b] is what the wheel does when a callback
    returned [b]: it goes on if and only if [b]. *)
Class FiringWheel (T : Type) `{!TimerWheel T} := {
  tw_map : T -> gmap Z (Z * Z);
  tw_ids : T -> gset Z;
  tw_returned : Z -> bool -> T -> T;
  fw_new : tw_map tw_new = ∅;
  fw_register start repeat cb data t :
    let '(t', id) := tw_register start repeat cb data t in
    tw_ids t ⊆ tw_ids t' /\
    ((id = 0%Z /\ tw_map t' = tw_map t) \/
     (id <> 0%Z /\ id ∉ tw_ids t /\ id ∈ tw_ids t' /\ tw_map t' = <[id := (cb, data)]> (tw_map t)));
  fw_unregister id t : tw_map (fst (tw_unregister id t)) = delete id (tw_map t) /\ tw_ids (fst (tw_unregister id t)) = tw_ids t;
  fw_returned id b t :
    tw_map (tw_returned id b t) = (if b then tw_map t else delete id (tw_map t)) /\ tw_ids (tw_returned id b t) = tw_ids t
}.

(** ** Data *)

(** Callbacks and data are opaque; 0 is [NULL].  The field [loop] is left out:
    all handles are of the one loop of [timers]. *)
Record loopyTimer := Timer {
  timerId : Z;
  cb : Z;
  userData : Z;
  isPeriodic : bool;
  isActive : bool;
  inCallback : bool
}.

#[export] Instance Timer_rebuild : Rebuild loopyTimer := fun t =>
  Timer (timerId t) (cb t) (userData t) (isPeriodic t) (isActive t) (inCallback t).

(** A call of a user's callback. *)
Record timer_call := TimerCall { tc_cb : Z; tc_timer : nat; tc_userData : Z }.

Section Timers.
Context {K : Type} {T : Type} `{!TimerWheel T}.

Record timers := Timers {
  loop : loopyLoop K T;
  heap : gmap nat loopyTimer;
  lastError : option string;
  calls : list timer_call (* newest first *)
}.

#[export] Instance timers_rebuild : Rebuild timers := fun w => Timers (loop w) (heap w) (lastError w) (calls w).

Definition the_timer (a : nat) : prog timers loopyTimer :=
  w ← get; match heap w !! a with Some t => mret t | None => undefined end.
Definition set_timer (a : nat) (f : loopyTimer -> loopyTimer) : prog timers unit :=
  t ← the_timer a; modify (fun w => w <| heap ::= <[a := f t]> |>).
Definition free_timer (a : nat) : prog timers unit :=
  t ← the_timer a; modify (fun w => w <| heap ::= delete a |>).

Definition setError (msg : string) : prog timers unit := modify (fun w => w <| lastError := Some msg |>).
Definition loopyTimerGetError (w : timers) : option string := lastError w.

(** ** The wrapper

    The address of [timerWheelCallbackWrapper]; up to the user's callback, with
    [None] when it returns false without calling it, and from there on. *)
Definition timerWheelCallbackWrapper : Z := 1.

Definition wrapperEnter (clientData : Z) : prog timers (option bool) :=
  if (clientData =? 0)%Z then mret None
  else
    let timer := Z.to_nat clientData in
    t ← the_timer timer;
    if negb (isActive t) then mret None
    else
      set_timer timer (fun t => t <| inCallback := true |>) ≫= fun _ =>
      t ← the_timer timer;
      (if (cb t =? 0)%Z then mret tt
       else modify (fun w => w <| calls ::= cons (TimerCall (cb t) timer (userData t)) |>)) ≫= fun _ =>
      mret (Some (isPeriodic t)).

Definition wrapperLeave (timer : nat) (isPeriodic : bool) : prog timers bool :=
  set_timer timer (fun t => t <| inCallback := false |>) ≫= fun _ =>
  t ← the_timer timer;
  if negb (isActive t) then free_timer timer ≫= fun _ => mret false
  else if isPeriodic then mret true
  else
    set_timer timer (fun t => t <| isActive := false |>) ≫= fun _ =>
    free_timer timer ≫= fun _ => mret false.

(** ** Creation *)

(** [nn]: the loop is not [NULL]. *)
Definition createTimer (nn mallocOk : bool) (startAfterUs intervalUs callback data : Z) : prog timers (option nat) :=
  if negb nn then setError "NULL event loop" ≫= fun _ => mret None
  else if (callback =? 0)%Z then setError "NULL callback" ≫= fun _ => mret None
  else if negb mallocOk then setError "Memory allocation failed" ≫= fun _ => mret None
  else
    w ← get;
    let timer := fresh ({[0]} ∪ dom (heap w)) in
    modify (fun w => w <| heap ::= <[timer := Timer 0 callback data (intervalUs >? 0)%Z true false]> |>) ≫= fun _ =>
    let '(l, id) := loopyRegisterTimer startAfterUs intervalUs timerWheelCallbackWrapper (Z.of_nat timer) (loop w) in
    modify (fun w => w <| loop := l |>) ≫= fun _ =>
    set_timer timer (fun t => t <| timerId := id |>) ≫= fun _ =>
    if (id =? 0)%Z then
      setError "Failed to register timer with event loop" ≫= fun _ => free_timer timer ≫= fun _ => mret None
    else modify (fun w => w <| lastError := None |>) ≫= fun _ => mret (Some timer).

Definition loopyTimerOneShot (nn m : bool) (delayUs c d : Z) := createTimer nn m delayUs 0 c d.
Definition loopyTimerOneShotMs (nn m : bool) (delayMs c d : Z) := loopyTimerOneShot nn m (delayMs *64 1000) c d.
Definition loopyTimerOneShotSeconds (nn m : bool) (delaySeconds c d : Z) :=
  loopyTimerOneShot nn m (delaySeconds *64 1000000) c d.
Definition loopyTimerPeriodic (nn m : bool) (intervalUs c d : Z) := createTimer nn m intervalUs intervalUs c d.
Definition loopyTimerPeriodicDelayed (nn m : bool) (initialDelayUs intervalUs c d : Z) :=
  createTimer nn m initialDelayUs intervalUs c d.
Definition loopyTimerPeriodicMs (nn m : bool) (intervalMs c d : Z) := loopyTimerPeriodic nn m (intervalMs *64 1000) c d.
Definition loopyTimerPeriodicSeconds (nn m : bool) (intervalSeconds c d : Z) :=
  loopyTimerPeriodic nn m (intervalSeconds *64 1000000) c d.

(** ** Management *)

Definition loopyTimerCancel (timer : option nat) : prog timers unit :=
  match timer with
  | None => mret tt
  | Some a =>
      t ← the_timer a;
      (if isActive t then
         w ← get;
         match loopyUnregisterTimer (timerId t) (loop w) with
         | None => undefined
         | Some (l, _) => modify (fun w => w <| loop := l |>)
         end ≫= fun _ => set_timer a (fun t => t <| isActive := false |>)
       else mret tt) ≫= fun _ =>
      t ← the_timer a;
      if inCallback t then mret tt else free_timer a
  end.

Definition loopyTimerIsActive (timer : option nat) : prog timers bool :=
  match timer with None => mret false | Some a => t ← the_timer a; mret (isActive t) end.
Definition loopyTimerGetData (timer : option nat) : prog timers Z :=
  match timer with None => mret 0%Z | Some a => t ← the_timer a; mret (userData t) end.
(** True stands for the loop. *)
Definition loopyTimerGetLoop (timer : option nat) : prog timers bool :=
  match timer with None => mret false | Some a => t ← the_timer a; mret true end.

Definition loopyTimerSetData (timer : option nat) (data : Z) : prog timers bool :=
  match timer with
  | None => mret false
  | Some a =>
      t ← the_timer a;
      if negb (isActive t) then mret false
      else set_timer a (fun t => t <| userData := data |>) ≫= fun _ => mret true
  end.
End Timers.

(** ** Users and the wheel *)

Inductive timer_op :=
  | TCreate (nn mallocOk : bool) (startAfterUs intervalUs callback data : Z)
  | TCancel (a : nat)
  | TSetData (a : nat) (data : Z)
  | TQuery (a : nat).

Section System.
Context {K : Type} {T : Type} `{!TimerWheel T} `{!FiringWheel T}.
Notation timers := (@timers K T).

Definition timer_do (op : timer_op) : prog timers unit :=
  match op with
  | TCreate nn m s i c d => createTimer nn m s i c d ≫= fun _ => mret tt
  | TCancel a => loopyTimerCancel (Some a)
  | TSetData a d => loopyTimerSetData (Some a) d ≫= fun _ => mret tt
  | TQuery a => loopyTimerIsActive (Some a) ≫= fun _ => mret tt
  end.

(** A user may only pass handles that are not freed. *)
Definition legal (op : timer_op) (w : timers) : Prop :=
  match op with TCreate _ _ _ _ _ _ => True | TCancel a | TSetData a _ | TQuery a => is_Some (heap w !! a) end.

Definition registered (w : timers) : gmap Z (Z * Z) := default ∅ (tw_map <$> lp_timer (loop w)).

(** The wheel takes note that the callback of registration [id] returned [b]. *)
Definition returned (id : Z) (b : bool) : prog timers unit :=
  modify (fun w => w <| loop ::= fun l => l <| lp_timer ::= fmap (tw_returned id b) |> |>).

(** [running]: the registration that fired, its handle, what [wrapperEnter]
    answered. *)
Record timerSys := TSys { world : timers; running : option (Z * nat * bool) }.

(** The result of an action; [None] is an access to a freed handle. *)
Definition op_result (op : timer_op) (s : timerSys) : option timerSys :=
  '(_, w) ← timer_do op (world s); Some (TSys w (running s)).
Definition fire_result (id data : Z) (s : timerSys) : option timerSys :=
  '(r, w) ← wrapperEnter data (world s);
  match r with
  | Some p => Some (TSys w (Some (id, Z.to_nat data, p)))
  | None => '(_, w) ← returned id false w; Some (TSys w None)
  end.
Definition return_result (id : Z) (a : nat) (p : bool) (s : timerSys) : option timerSys :=
  '(_, w) ← (wrapperLeave a p ≫= returned id) (world s); Some (TSys w None).

Inductive timer_step (s : timerSys) : option timerSys -> Prop :=
  | ts_op op : legal op (world s) -> timer_step s (op_result op s)
  | ts_fire id data : running s = None -> registered (world s) !! id = Some (timerWheelCallbackWrapper, data) ->
      timer_step s (fire_result id data s)
  | ts_return id a p : running s = Some (id, a, p) -> timer_step s (return_result id a p s).

Inductive timer_reach (s : timerSys) : timerSys -> Prop :=
  | reach_refl : timer_reach s s
  | reach_step s1 s2 : timer_reach s s1 -> timer_step s1 (Some s2) -> timer_reach s s2.

(** ** The invariant *)

Record timers_ok (w : timers) (r : option (Z * nat * bool)) : Prop := {
  ok_address a t : heap w !! a = Some t -> a <> 0 /\ cb t <> 0%Z;
  ok_wheel a t : heap w !! a = Some t -> exists tw, lp_timer (loop w) = Some tw /\ timerId t ∈ tw_ids tw;
  ok_active a t : heap w !! a = Some t -> isActive t = true ->
    registered w !! timerId t = Some (timerWheelCallbackWrapper, Z.of_nat a);
  ok_inactive a t : heap w !! a = Some t -> isActive t = false -> inCallback t = true;
  ok_registered id data : registered w !! id = Some (timerWheelCallbackWrapper, data) ->
    exists a t, data = Z.of_nat a /\ heap w !! a = Some t /\ timerId t = id /\ isActive t = true;
  ok_ids a b t u : heap w !! a = Some t -> heap w !! b = Some u -> timerId t = timerId u -> a = b;
  ok_running a t : heap w !! a = Some t -> inCallback t = true -> exists id p, r = Some (id, a, p);
  ok_run id a p : r = Some (id, a, p) ->
    exists t, heap w !! a = Some t /\ timerId t = id /\ isPeriodic t = p /\ inCallback t = true
}.

Lemma wp_the_timer (Q : loopyTimer -> timers -> Prop) a w t : heap w !! a = Some t -> Q t w -> wp (the_timer a) Q w.
Proof using Type. intros Hn HQ. unfold the_timer. apply wp_bind, wp_get. by rewrite Hn. Qed.

Lemma wp_set_timer f (Q : unit -> timers -> Prop) a w t :
  heap w !! a = Some t -> Q tt (w <| heap ::= <[a := f t]> |>) -> wp (set_timer a f) Q w.
Proof using Type. intros Hn HQ. unfold set_timer. apply wp_bind. by eapply wp_the_timer. Qed.

Lemma wp_free_timer (Q : unit -> timers -> Prop) a w t :
  heap w !! a = Some t -> Q tt (w <| heap ::= delete a |>) -> wp (free_timer a) Q w.
Proof using Type. intros Hn HQ. unfold free_timer. apply wp_bind. by eapply wp_the_timer. Qed.

Lemma the_timer_freed {B} (k : loopyTimer -> prog timers B) a w : heap w !! a = None -> (the_timer a ≫= k) w = None.
Proof using Type. intros Hn. unfold the_timer, prog_bind, get, mbind. cbn -[lookup]. by rewrite Hn. Qed.

Ltac tstep :=
  match goal with
  | |- wp (_ ≫= _) _ _ => apply wp_bind
  | |- wp (mret _) _ _ => apply wp_ret
  | |- wp (the_timer _) _ _ => eapply wp_the_timer; [first [eassumption | apply lookup_insert_eq]|]
  | |- wp (set_timer _ _) _ _ => eapply wp_set_timer; [first [eassumption | apply lookup_insert_eq]|]
  | |- wp (free_timer _) _ _ => eapply wp_free_timer; [first [eassumption | apply lookup_insert_eq]|]
  | |- wp (setError _) _ _ => apply wp_modify
  | |- wp get _ _ => apply wp_get
  | |- wp (modify _) _ _ => apply wp_modify
  end.

(** The invariant depends on handles and wheel only. *)
Lemma timers_ok_ext w w' r : timers_ok w r -> heap w' = heap w -> lp_timer (loop w') = lp_timer (loop w) -> timers_ok w' r.
Proof using Type.
  intros [] E1 E2. assert (E3 : registered w' = registered w) by (unfold registered; by rewrite E2).
  constructor; rewrite ?E1, ?E2, ?E3; done.
Qed.

(** A change of a handle that keeps its place in the wheel. *)
Lemma timers_ok_update w r r' a t t' :
  timers_ok w r -> heap w !! a = Some t -> timerId t' = timerId t -> isActive t' = isActive t -> cb t' = cb t ->
  (isActive t' = false -> inCallback t' = true) ->
  (inCallback t' = true -> exists id p, r' = Some (id, a, p)) ->
  (forall b u, b <> a -> heap w !! b = Some u -> inCallback u = true -> exists id p, r' = Some (id, b, p)) ->
  (forall id b p, r' = Some (id, b, p) -> exists u, <[a := t']> (heap w) !! b = Some u /\ timerId u = id /\
     isPeriodic u = p /\ inCallback u = true) ->
  timers_ok (w <| heap ::= <[a := t']> |>) r'.
Proof using Type.
  intros [] Ha Eid Eact Ecb Hin Hcb Hcb' Hrun.
  assert (E : forall b u, <[a := t']> (heap w) !! b = Some u ->
    (b = a /\ u = t') \/ (b <> a /\ heap w !! b = Some u)).
  { intros b u H. destruct (decide (b = a)) as [-> |Hne]; [left|right].
    - rewrite lookup_insert_eq in H. by injection H as <-.
    - by rewrite lookup_insert_ne in H. }
  constructor; cbn; try done.
  - intros b u [[-> ->]|[? H]]%E; [rewrite Ecb|]; eauto.
  - intros b u [[-> ->]|[? H]]%E; [rewrite Eid|]; eauto.
  - intros b u [[-> ->]|[? H]]%E; [rewrite Eid, Eact|]; eauto.
  - intros b u [[-> ->]|[? H]]%E; eauto.
  - intros id data H. destruct (ok_registered0 id data H) as (b & u & -> & Hb & Hid & Hact). exists b.
    destruct (decide (b = a)) as [-> |Hne].
    + exists t'. rewrite lookup_insert_eq. split_and!; try done; congruence.
    + exists u. by rewrite lookup_insert_ne.
  - intros b c u v [[-> ->]|[? Hb]]%E [[-> ->]|[? Hc]]%E; rewrite ?Eid; eauto.
  - intros b u [[-> ->]|[? H]]%E; eauto.
Qed.

(** A handle that is not registered is freed. *)
Lemma timers_ok_free w r r' a t :
  timers_ok w r -> heap w !! a = Some t -> registered w !! timerId t = None ->
  (forall b u, b <> a -> heap w !! b = Some u -> inCallback u = true -> exists id p, r' = Some (id, b, p)) ->
  (forall id b p, r' = Some (id, b, p) -> b <> a /\ r = r') ->
  timers_ok (w <| heap ::= delete a |>) r'.
Proof using Type.
  intros [] Ha Hreg Hcb Hrun. constructor; cbn; try done.
  - intros b u [? H]%lookup_delete_Some; eauto.
  - intros b u [? H]%lookup_delete_Some; eauto.
  - intros b u [? H]%lookup_delete_Some; eauto.
  - intros b u [? H]%lookup_delete_Some; eauto.
  - intros id data H. destruct (ok_registered0 id data H) as (b & u & -> & Hb & Hid & Hact). exists b, u.
    split_and!; try done. rewrite lookup_delete_ne; [done|]. intros <-. assert (u = t) as -> by congruence. subst id.
    change (registered w !! timerId t = Some (timerWheelCallbackWrapper, Z.of_nat a)) in H. congruence.
  - intros b c u v [? Hb]%lookup_delete_Some [? Hc]%lookup_delete_Some; eauto.
  - intros b u [? H]%lookup_delete_Some; eauto.
  - intros id b p H. destruct (Hrun id b p H) as [Hne <-]. destruct (ok_run0 id b p H) as (u & Hu & ?). exists u.
    by rewrite lookup_delete_ne.
Qed.
(** *** The operations keep the invariant *)

Lemma createTimer_ok nn m st i c d w r :
  timers_ok w r -> wp (createTimer nn m st i c d) (fun a w' => timers_ok w' r /\
    forall x, a = Some x -> heap w !! x = None /\
      exists t, heap w' !! x = Some t /\ cb t = c /\ userData t = d /\ isActive t = true /\ isPeriodic t = (i >? 0)%Z) w.
Proof using All.
  intros H. unfold createTimer.
  assert (He : forall msg, timers_ok (w <| lastError := msg |>) r) by (intros; by eapply timers_ok_ext).
  destruct (negb nn); [by do 2 tstep|]. destruct (Z.eqb_spec c 0); [by do 2 tstep|]. destruct (negb m); [by do 2 tstep|].
  do 4 tstep. cbn. pose proof (is_fresh ({[0]} ∪ dom (heap w))) as Hf. set (a := fresh _) in *.
  apply not_elem_of_union in Hf as [Ha0 Hf]. apply not_elem_of_dom in Hf. rewrite not_elem_of_singleton in Ha0. clearbody a.
  unfold loopyRegisterTimer.
  set (t0 := match lp_timer (loop w) with Some t => t | None => tw_new end).
  assert (Ht0 : registered w = tw_map t0).
  { unfold registered, t0. destruct (lp_timer (loop w)); cbn; [done|]. by rewrite fw_new. }
  pose proof (fw_register st i timerWheelCallbackWrapper (Z.of_nat a) t0) as Hreg.
  destruct (tw_register st i timerWheelCallbackWrapper (Z.of_nat a) t0) as [t1 id]. destruct Hreg as [Hids Hreg].
  do 4 tstep. cbn beta. set (t := Timer id c d (i >? 0)%Z true false).
  match goal with |- wp _ _ ?x =>
    assert (Eh : heap x = <[a := t]> (heap w)) by apply insert_insert_eq;
    assert (Et : lp_timer (loop x) = Some t1) by done; generalize dependent x
  end.
  intros w1 Eh Et. assert (Er : registered w1 = tw_map t1) by (unfold registered; by rewrite Et).
  assert (Hids0 : forall b u, heap w !! b = Some u -> timerId u ∈ tw_ids t0 /\ lp_timer (loop w) = Some t0).
  { intros b u Hb. destruct (ok_wheel _ _ H b u Hb) as (tw & E & Hin). unfold t0. by rewrite E. }
  destruct Hreg as [[-> Hm]|(Hid & Hfr & Hin & Hm)].
  - cbn. do 3 tstep. eapply wp_free_timer; [cbn; rewrite Eh; apply lookup_insert_eq|]. tstep. split; [|done].
    assert (Eh' : delete a (heap w1) = heap w) by (by rewrite Eh, delete_insert_id).
    destruct H. constructor; unfold registered; cbn; rewrite ?Eh', ?Et; cbn; rewrite ?Hm, <- ?Ht0; try done.
    intros b u Hb. destruct (Hids0 b u Hb) as [Hb' _]. exists t1. split; [done|]. by apply Hids.
  - rewrite (proj2 (Z.eqb_neq _ _)) by done. do 2 tstep. tstep. split.
    + apply (timers_ok_ext w1); [|done..]. destruct H. constructor; rewrite ?Eh, ?Er, ?Et, ?Hm, <- ?Ht0.
      * intros b u. destruct (decide (b = a)) as [-> |Hne].
        -- rewrite lookup_insert_eq. intros [= <-]. done.
        -- rewrite lookup_insert_ne by done. eauto.
      * intros b u. destruct (decide (b = a)) as [-> |Hne].
        -- rewrite lookup_insert_eq. intros [= <-]. eauto.
        -- rewrite lookup_insert_ne by done. intros Hb. destruct (Hids0 b u Hb) as [Hb' _]. eauto.
      * intros b u. destruct (decide (b = a)) as [-> |Hne].
        -- rewrite lookup_insert_eq. intros [= <-] _. by rewrite lookup_insert_eq.
        -- rewrite lookup_insert_ne by done. intros Hb Hact. rewrite lookup_insert_ne; [eauto|].
           intros ->. destruct (Hids0 b u Hb) as [Hb' _]. done.
      * intros b u. destruct (decide (b = a)) as [-> |Hne]; [rewrite lookup_insert_eq; by intros [= <-]|].
        rewrite lookup_insert_ne by done. eauto.
      * intros id' data. destruct (decide (id' = id)) as [-> |Hne].
        -- rewrite lookup_insert_eq. intros [= <-]. exists a, t. by rewrite lookup_insert_eq.
        -- rewrite lookup_insert_ne by done. intros Hr. destruct (ok_registered0 _ _ Hr) as (b & u & -> & Hb & ? & ?).
           exists b, u. rewrite lookup_insert_ne; [done|]. intros <-. congruence.
      * assert (Hne : forall b u, heap w !! b = Some u -> timerId u <> id).
        { intros b u Hb E. destruct (Hids0 b u Hb) as [Hb' _]. by rewrite E in Hb'. }
        intros b b' u u'. destruct (decide (b = a)) as [-> |Hba], (decide (b' = a)) as [-> |Hba']; try done;
          rewrite ?lookup_insert_eq, ?(lookup_insert_ne _ a) by done; [intros [= <-] Hb E|intros Hb [= <-] E|eauto]; exfalso.
        -- by eapply Hne.
        -- by eapply Hne.
      * intros b u. destruct (decide (b = a)) as [-> |Hne]; [rewrite lookup_insert_eq; by intros [= <-]|].
        rewrite lookup_insert_ne by done. eauto.
      * intros id' b p Hr. destruct (ok_run0 id' b p Hr) as (u & Hu & ?). exists u.
        rewrite lookup_insert_ne; [done|]. intros <-. congruence.
    + intros x [= <-]. split; [done|]. exists t. cbn. by rewrite Eh, lookup_insert_eq.
Qed.

Lemma registered_lp w tw : lp_timer (loop w) = Some tw -> registered w = tw_map tw.
Proof using Type. unfold registered. by intros ->. Qed.

(** The registration of a handle is taken back, and the handle marked. *)
Lemma timers_ok_unregister w r a t tw tw' :
  timers_ok w r -> heap w !! a = Some t -> lp_timer (loop w) = Some tw ->
  tw_map tw' = delete (timerId t) (tw_map tw) -> tw_ids tw' = tw_ids tw ->
  timers_ok (w <| loop ::= fun l => l <| lp_timer := Some tw' |> |> <| heap := delete a (heap w) |>)
    (match r with Some (_, b, _) => if decide (b = a) then None else r | None => None end) /\
  (inCallback t = true ->
   timers_ok (w <| loop ::= fun l => l <| lp_timer := Some tw' |> |> <| heap := <[a := t <| isActive := false |>]> (heap w) |>) r).
Proof using Type.
  intros [] Ha Htw Hm Hi. pose proof (registered_lp w tw Htw) as Er.
  assert (Hother : forall b u, b <> a -> heap w !! b = Some u -> isActive u = true ->
    tw_map tw' !! timerId u = Some (timerWheelCallbackWrapper, Z.of_nat b)).
  { intros b u Hne Hb Hu. rewrite Hm, lookup_delete_ne, <- Er; [eauto|]. intros E. apply Hne. symmetry. eauto. }
  assert (Hids : forall b u, heap w !! b = Some u -> exists tw0, Some tw' = Some tw0 /\ timerId u ∈ tw_ids tw0).
  { intros b u Hb. destruct (ok_wheel0 b u Hb) as (tw0 & E & Hin). exists tw'. split; [done|]. rewrite Hi. congruence. }
  assert (Hback : forall id data, tw_map tw' !! id = Some (timerWheelCallbackWrapper, data) ->
    exists b u, data = Z.of_nat b /\ b <> a /\ heap w !! b = Some u /\ timerId u = id /\ isActive u = true).
  { intros id data. rewrite Hm, <- Er. intros [Hne H]%lookup_delete_Some. destruct (ok_registered0 _ _ H) as (b & u & -> & Hb & E & ?).
    exists b, u. split_and!; try done. intros ->. apply Hne. congruence. }
  split.
  - constructor; unfold registered; cbn.
    + intros b u [? H]%lookup_delete_Some; eauto.
    + intros b u [? H]%lookup_delete_Some; eauto.
    + intros b u [? H]%lookup_delete_Some; eauto.
    + intros b u [? H]%lookup_delete_Some; eauto.
    + intros id data H. destruct (Hback id data H) as (b & u & -> & Hne & Hb & ? & ?). exists b, u.
      by rewrite lookup_delete_ne.
    + intros b c u v [? Hb]%lookup_delete_Some [? Hc]%lookup_delete_Some; eauto.
    + intros b u [Hne H]%lookup_delete_Some Hin. destruct (ok_running0 b u H Hin) as (id & p & ->). rewrite decide_False by done.
      eauto.
    + intros id b p H. destruct r as [[[id' b'] p']|]; [|done]. case_decide as Hne; [done|]. injection H as -> -> ->.
      destruct (ok_run0 id b p eq_refl) as (u & Hu & ?). exists u. by rewrite lookup_delete_ne.
  - intros Hin.
    assert (E : forall b u, <[a := t <| isActive := false |>]> (heap w) !! b = Some u ->
      (b = a /\ u = t <| isActive := false |>) \/ (b <> a /\ heap w !! b = Some u)).
    { intros b u H. destruct (decide (b = a)) as [-> |Hne]; [left|right].
      - rewrite lookup_insert_eq in H. by injection H as <-.
      - by rewrite lookup_insert_ne in H. }
    constructor; unfold registered; cbn.
    + intros b u [[-> ->]|[? H]]%E; [exact (ok_address0 a t Ha)|eauto].
    + intros b u [[-> ->]|[? H]]%E; [exact (Hids a t Ha)|by eapply Hids].
    + intros b u [[-> ->]|[? H]]%E; [done|eauto].
    + intros b u [[-> ->]|[? H]]%E; eauto.
    + intros id data H. destruct (Hback id data H) as (b & u & -> & Hne & Hb & ? & ?). exists b, u.
      by rewrite lookup_insert_ne.
    + intros b c u v [[-> ->]|[? Hb]]%E [[-> ->]|[? Hc]]%E; eauto.
    + intros b u [[-> ->]|[? H]]%E; eauto.
    + intros id b p H. destruct (ok_run0 id b p H) as (u & Hu & ?). destruct (decide (b = a)) as [-> |Hne].
      * exists (t <| isActive := false |>). rewrite lookup_insert_eq. assert (u = t) as -> by congruence. done.
      * exists u. by rewrite lookup_insert_ne.
Qed.

Lemma timers_ok_eq w w' r r' : timers_ok w r -> heap w' = heap w -> lp_timer (loop w') = lp_timer (loop w) -> r' = r -> timers_ok w' r'.
Proof using Type. intros H E1 E2 ->. by eapply timers_ok_ext. Qed.

Lemma cancel_ok a w r :
  timers_ok w r -> is_Some (heap w !! a) ->
  wp (loopyTimerCancel (Some a)) (fun _ w' => timers_ok w' r /\
    match heap w' !! a with Some t => isActive t = false /\ inCallback t = true | None => True end /\
    (forall t, heap w !! a = Some t -> inCallback t = false -> heap w' !! a = None)) w.
Proof using All.
  intros H [t Ht]. unfold loopyTimerCancel. do 3 tstep. destruct (isActive t) eqn:Ea.
  - do 3 tstep. destruct (ok_wheel _ _ H a t Ht) as (tw & Etw & _). unfold loopyUnregisterTimer. rewrite Etw. cbn.
    pose proof (fw_unregister (timerId t) tw) as [Hm Hi]. destruct (tw_unregister (timerId t) tw) as [tw' b]. cbn in Hm, Hi.
    destruct (timers_ok_unregister w r a t tw tw' H Ht Etw Hm Hi) as [Hfree Hkeep].
    tstep. eapply wp_set_timer; [exact Ht|]. do 2 tstep. cbn. destruct (inCallback t) eqn:Ec.
    + tstep. split_and!.
      * eapply timers_ok_eq; [by apply Hkeep|done..].
      * cbn. rewrite lookup_insert_eq. done.
      * intros t' Ht'. assert (t' = t) as -> by congruence. congruence.
    + eapply wp_free_timer; [apply lookup_insert_eq|]. split_and!.
      * eapply timers_ok_eq; [exact Hfree|cbn; by rewrite delete_insert_eq|done|].
        destruct r as [[[id b'] p]|]; [|done]. case_decide as Hb; [|done]. subst b'.
        destruct (ok_run _ _ H id a p eq_refl) as (u & Hu & _ & _ & Hu'). congruence.
      * cbn. by rewrite lookup_delete_eq.
      * intros _ _ _. cbn. apply lookup_delete_eq.
  - do 3 tstep. pose proof (ok_inactive _ _ H a t Ht Ea) as Ec. rewrite Ec. tstep. split; [done|]. rewrite Ht. split; [done|].
    intros t' Ht'. assert (t' = t) as -> by congruence. congruence.
Qed.

Lemma timer_do_ok op s : timers_ok (world s) (running s) -> legal op (world s) ->
  wp (timer_do op) (fun _ w => timers_ok w (running s)) (world s).
Proof using All.
  intros H Hl. destruct op as [nn m st i c d|a|a d|a]; cbn [timer_do legal] in *.
  - eapply wp_seq; [by apply createTimer_ok|]. intros ? w' [H' _]. by tstep.
  - eapply wp_mono; [by apply cancel_ok|]. by intros ? w' (? & _).
  - destruct Hl as [t Ht]. unfold loopyTimerSetData. do 3 tstep. destruct (isActive t) eqn:Ea; cbn [negb]; [|by do 2 tstep].
    do 4 tstep. cbn. eapply timers_ok_update; try done.
    + cbn. congruence.
    + intros Hc. by eapply ok_running.
    + intros b u _ Hb Hc. by eapply ok_running.
    + intros id b p Hr. destruct (ok_run _ _ H id b p Hr) as (u & Hu & ?). destruct (decide (b = a)) as [-> |Hne].
      * eexists. rewrite lookup_insert_eq. split; [done|]. assert (u = t) as -> by congruence. done.
      * exists u. by rewrite lookup_insert_ne.
  - destruct Hl as [t Ht]. unfold loopyTimerIsActive. do 4 tstep. done.
Qed.
(** The wrapper is entered for a registered handle: it calls the user's
    callback and waits for its return. *)
Lemma wrapperEnter_ok w id data :
  timers_ok w None -> registered w !! id = Some (timerWheelCallbackWrapper, data) ->
  exists a t, data = Z.of_nat a /\ heap w !! a = Some t /\ timerId t = id /\
    wp (wrapperEnter data) (fun r w' => r = Some (isPeriodic t) /\ timers_ok w' (Some (id, a, isPeriodic t)) /\
      heap w' = <[a := t <| inCallback := true |>]> (heap w) /\ loop w' = loop w /\
      calls w' = TimerCall (cb t) a (userData t) :: calls w) w.
Proof using Type.
  intros H Hr. destruct (ok_registered _ _ H id data Hr) as (a & t & -> & Ha & Hid & Hact). exists a, t.
  destruct (ok_address _ _ H a t Ha) as [Ha0 Hcb]. split_and!; try done. unfold wrapperEnter.
  rewrite (proj2 (Z.eqb_neq _ _)) by lia. rewrite Nat2Z.id. do 2 tstep. rewrite Hact. cbn [negb]. do 4 tstep.
  cbn [cb]. rewrite (proj2 (Z.eqb_neq _ _)) by done. do 3 tstep. split_and!; try done.
  apply (timers_ok_ext (w <| heap ::= <[a := t <| inCallback := true |>]> |>)); [|done..]. rewrite <- Hid.
  eapply (timers_ok_update _ None _ a t (t <| inCallback := true |>)); try done.
  - eauto.
  - intros b u _ Hb Hc. by destruct (ok_running _ _ H b u Hb Hc) as (? & ? & ?).
  - intros ? ? ? [= <- <- <-]. exists (t <| inCallback := true |>). by rewrite lookup_insert_eq.
Qed.

(** The wheel learns that the callback of [id] answered true. *)
Lemma timers_ok_wheel w r tw' tw :
  timers_ok w r -> lp_timer (loop w) = Some tw -> tw_map tw' = tw_map tw -> tw_ids tw' = tw_ids tw ->
  timers_ok (w <| loop ::= fun l => l <| lp_timer := Some tw' |> |>) r.
Proof using Type.
  intros [] Htw Hm Hi. pose proof (registered_lp w tw Htw) as Er.
  constructor; unfold registered; cbn; rewrite ?Hm, <- ?Er; try done.
  intros a t Ha. destruct (ok_wheel0 a t Ha) as (tw0 & E & Hin). exists tw'. rewrite Hi. split; [done|]. congruence.
Qed.

(** What a return does: an uncancelled periodic handle goes on, any other is
    freed and its registration gone; nothing else changes. *)
Lemma wrapperLeave_ok w id a p :
  timers_ok w (Some (id, a, p)) ->
  exists t, heap w !! a = Some t /\ timerId t = id /\
    wp (wrapperLeave a p ≫= returned id) (fun _ w' => timers_ok w' None /\
      (if isActive t && p
       then heap w' = <[a := t <| inCallback := false |>]> (heap w) /\ registered w' = registered w
       else heap w' = delete a (heap w) /\ registered w' = delete id (registered w)) /\
      calls w' = calls w) w.
Proof using All.
  intros H. destruct (ok_run _ _ H id a p eq_refl) as (t & Ha & Hid & Hp & Hin). exists t. split_and!; try done.
  destruct (ok_wheel _ _ H a t Ha) as (tw & Htw & _). pose proof (registered_lp w tw Htw) as Er.
  set (w2 := w <| heap ::= delete a |> <| loop ::= fun l => l <| lp_timer ::= fmap (tw_returned id false) |> |>).
  assert (Hfin : timers_ok w2 None /\ registered w2 = delete id (registered w)).
  { destruct (fw_returned id false tw) as [Hm Hi].
    destruct (timers_ok_unregister w _ a t tw (tw_returned id false tw) H Ha Htw) as [Hfree _]; [by rewrite Hid|done|].
    rewrite decide_True in Hfree by done. split.
    - eapply timers_ok_ext; [exact Hfree|done|]. cbn. by rewrite Htw.
    - unfold registered. cbn. rewrite Htw. cbn. by rewrite Hm. }
  unfold wrapperLeave. do 5 tstep.
  change (isActive (t <| inCallback := false |>)) with (isActive t).
  assert (Hleave : forall w1, loop w1 = loop w -> delete a (heap w1) = delete a (heap w) -> calls w1 = calls w ->
     heap w1 !! a <> None ->
     wp (free_timer a ≫= fun _ => mret false) (fun b => wp (returned id b) (fun _ w' => timers_ok w' None /\
       (heap w' = delete a (heap w) /\ registered w' = delete id (registered w)) /\ calls w' = calls w)) w1).
  { intros w1 El Eh Ec Hne. destruct (heap w1 !! a) eqn:E1; [|done]. tstep. eapply wp_free_timer; [done|]. tstep.
    unfold returned. tstep. destruct Hfin as [Hok Hreg]. split_and!; try done.
    - eapply (timers_ok_ext w2); [done|by cbn|]. cbn. by rewrite El.
    - rewrite <- Hreg. unfold registered. cbn. by rewrite El. }
  destruct (isActive t) eqn:Hact; cbn [negb andb].
  - destruct p.
    + tstep. unfold returned. tstep. destruct (fw_returned id true tw) as [Hm Hi]. split_and!.
      * pose proof (timers_ok_update w _ None a t (t <| inCallback := false |>) H Ha) as Hu.
        eapply timers_ok_ext; [eapply (timers_ok_wheel _ None (tw_returned id true tw) tw)|done|cbn; by rewrite Htw]; try done.
        apply Hu; try done; [cbn; congruence|].
        intros b u Hne Hb Hc. destruct (ok_running _ _ H b u Hb Hc) as (? & ? & [= _ <- _]). done.
      * done.
      * unfold registered. cbn. rewrite Htw. cbn. by rewrite Hm.
      * done.
    + do 2 tstep. cbn beta. apply Hleave; cbn; try done.
      * by rewrite insert_insert_eq, delete_insert_eq.
      * by rewrite lookup_insert_eq.
  - apply Hleave; cbn; try done.
    + by rewrite delete_insert_eq.
    + by rewrite lookup_insert_eq.
Qed.

(** A loop of which the wheel has no registration of the wrapper. *)
Definition no_timers (l : loopyLoop K T) : Prop :=
  forall id data, registered (Timers l ∅ None []) !! id <> Some (timerWheelCallbackWrapper, data).
Definition timers0 (l : loopyLoop K T) : timerSys := TSys (Timers l ∅ None []) None.

Lemma timers0_ok l : no_timers l -> timers_ok (Timers l ∅ None []) None.
Proof using Type. intros H. constructor; try done. intros id data E. by destruct (H id data). Qed.

Lemma timer_step_good s o : timers_ok (world s) (running s) -> timer_step s o ->
  exists s', o = Some s' /\ timers_ok (world s') (running s').
Proof using All.
  intros H Hs. destruct Hs as [op Hl|id data Hr Hreg|id a p Hr]; unfold op_result, fire_result, return_result.
  - destruct (wp_run _ _ _ (timer_do_ok op s H Hl)) as (u & w & E & Hw). rewrite E. cbn. by eexists.
  - rewrite Hr in H. destruct (wrapperEnter_ok _ id data H Hreg) as (a & t & -> & _ & _ & Hw).
    destruct (wp_run _ _ _ Hw) as (u & w & E & -> & Hok & _). rewrite E. cbn. rewrite Nat2Z.id. by eexists.
  - rewrite Hr in H. destruct (wrapperLeave_ok _ id a p H) as (t & _ & _ & Hw).
    destruct (wp_run _ _ _ Hw) as (u & w & E & Hok & _). rewrite E. cbn. by eexists.
Qed.

Lemma timer_reach_ok l s : no_timers l -> timer_reach (timers0 l) s -> timers_ok (world s) (running s).
Proof using All.
  intros Hl. induction 1 as [|s1 s2 _ IH Hs]; [by apply timers0_ok|].
  destruct (timer_step_good _ _ IH Hs) as (s' & [= <-] & Hok). done.
Qed.

(** Nothing is asked of a freed handle. *)
Lemma op_legal op s : is_Some (op_result op s) -> legal op (world s).
Proof using Type.
  intros [s' E]. destruct op as [|a|a d|a]; [done| | |]; cbn [legal]; destruct (heap (world s) !! a) as [t|] eqn:Ha; try done;
    unfold op_result, timer_do, loopyTimerCancel, loopyTimerSetData, loopyTimerIsActive in E.
  - by rewrite the_timer_freed in E.
  - revert E. unfold the_timer, prog_bind, get, mbind. cbn -[lookup]. by rewrite Ha.
  - revert E. unfold the_timer, prog_bind, get, mbind. cbn -[lookup]. by rewrite Ha.
Qed.

(** ** The theorems *)

(** C11. However the calls of users, from within callbacks too, interleave with
    the wheel's calls of the wrapper, the module itself touches no freed handle,
    as long as users do not pass one: a call is undefined exactly when the handle
    it is given is freed - also a cancellation, which the header documents as safe
    then ([timer_double_cancel]).  The registrations of the wrapper are one for one
    those of the active handles, and a handle that is not active is the one
    whose callback runs, so none is lost and none fires after it is freed. *)
Theorem timer_safe l s : no_timers l -> timer_reach (timers0 l) s ->
  (forall o, timer_step s o -> is_Some o) /\
  (forall op, is_Some (op_result op s) <-> legal op (world s)) /\
  (forall id data, registered (world s) !! id = Some (timerWheelCallbackWrapper, data) <->
     exists a t, data = Z.of_nat a /\ heap (world s) !! a = Some t /\ timerId t = id /\ isActive t = true) /\
  (forall a t, heap (world s) !! a = Some t -> isActive t = false -> exists id p, running s = Some (id, a, p)).
Proof using All.
  intros Hl Hr. pose proof (timer_reach_ok l s Hl Hr) as H. split_and!.
  - intros o Hs. destruct (timer_step_good s o H Hs) as (s' & -> & _). by eexists.
  - intros op. split; [apply op_legal|]. intros Hl'. destruct (timer_step_good s _ H (ts_op s op Hl')) as (s' & -> & _). by eexists.
  - intros id data. split; [apply (ok_registered _ _ H)|]. intros (a & t & -> & Ha & <- & Hact). by eapply ok_active.
  - intros a t Ha Hact. eapply ok_running; [done..|]. by eapply ok_inactive.
Qed.

(** The life of a handle.  When the wheel fires one, the user's callback is
    called once, with the handle and its data at that moment.  When that
    callback has returned, the handle is freed and its registration gone if it
    was a one-shot timer or the callback cancelled it; a periodic handle that
    was not cancelled stays registered, and no other handle changes. *)
Theorem timer_lifetime l s : no_timers l -> timer_reach (timers0 l) s ->
  (forall id data, running s = None -> registered (world s) !! id = Some (timerWheelCallbackWrapper, data) ->
     exists a t w', data = Z.of_nat a /\ heap (world s) !! a = Some t /\
       wrapperEnter data (world s) = Some (Some (isPeriodic t), w') /\
       calls w' = TimerCall (cb t) a (userData t) :: calls (world s)) /\
  (forall id a p, running s = Some (id, a, p) -> exists t u w', heap (world s) !! a = Some t /\
     (wrapperLeave a p ≫= returned id) (world s) = Some (u, w') /\
     if isActive t && isPeriodic t
     then heap w' = <[a := t <| inCallback := false |>]> (heap (world s)) /\ registered w' = registered (world s)
     else heap w' = delete a (heap (world s)) /\ registered w' = delete id (registered (world s))).
Proof using All.
  intros Hl Hr. pose proof (timer_reach_ok l s Hl Hr) as H. split.
  - intros id data En Hreg. rewrite En in H. destruct (wrapperEnter_ok _ id data H Hreg) as (a & t & -> & Ha & _ & Hw).
    destruct (wp_run _ _ _ Hw) as (u & w & E & -> & _ & _ & _ & Hc). by exists a, t, w.
  - intros id a p Er. rewrite Er in H. destruct (ok_run _ _ H id a p eq_refl) as (t' & Ha' & _ & <- & _).
    destruct (wrapperLeave_ok _ id a _ H) as (t & Ha & _ & Hw). assert (t' = t) as -> by congruence.
    destruct (wp_run _ _ _ Hw) as (u & w & E & _ & Hw' & _). by exists t, u, w.
Qed.

(** Cancelling a handle outside its callback frees it at once, so that a
    second call with the same handle reads freed memory; from within its
    callback it may be cancelled any number of times. *)
Theorem timer_double_cancel l s a t : no_timers l -> timer_reach (timers0 l) s -> heap (world s) !! a = Some t ->
  exists w, loopyTimerCancel (Some a) (world s) = Some (tt, w) /\
    if inCallback t then exists w', loopyTimerCancel (Some a) w = Some (tt, w') /\ heap w' = heap w
    else loopyTimerCancel (Some a) w = None.
Proof using All.
  intros Hl Hr Ha. pose proof (timer_reach_ok l s Hl Hr) as H.
  destruct (wp_run _ _ _ (cancel_ok a _ _ H (mk_is_Some _ _ Ha))) as ([] & w & E & Hok & Hin & Hout). exists w. split; [done|].
  destruct (heap w !! a) as [t'|] eqn:E'.
  - destruct (inCallback t) eqn:Ec; [|specialize (Hout t Ha Ec); congruence].
    destruct Hin as [Hact Hcb]. assert (Hw : wp (loopyTimerCancel (Some a)) (fun _ w' => w' = w) w).
    { unfold loopyTimerCancel. do 3 tstep. rewrite Hact. do 3 tstep. rewrite Hcb. by tstep. }
    by destruct (wp_run _ _ _ Hw) as ([] & ? & E2 & ->); exists w.
  - destruct (inCallback t) eqn:Ec; [|unfold loopyTimerCancel; by rewrite the_timer_freed].
    destruct (ok_running _ _ H a t Ha Ec) as (id & p & Er). rewrite Er in Hok. destruct (ok_run _ _ Hok id a p eq_refl) as (? & ? & _).
    congruence.
Qed.
End System.

(** The intervals are multiplied in 64 bits: a periodic timer of [2^61]
    milliseconds is a one-shot timer that fires at once. *)
Lemma timer_ms_wraps {K T} `{!TimerWheel T} nn m c d :
  @loopyTimerPeriodicMs K T _ nn m (2 ^ 61) c d = loopyTimerOneShot nn m 0 c d.
Proof. done. Qed.

(** ** A wheel *)

Record simple_wheel := SimpleWheel { sw_ids : gset Z; sw_map : gmap Z (Z * Z) }.

#[export] Instance simple_timer_wheel : TimerWheel simple_wheel := {
  tw_new := SimpleWheel ∅ ∅;
  tw_register _ _ cb data t :=
    let id := fresh ({[0%Z]} ∪ sw_ids t) in (SimpleWheel ({[id]} ∪ sw_ids t) (<[id := (cb, data)]> (sw_map t)), id);
  tw_unregister id t := (SimpleWheel (sw_ids t) (delete id (sw_map t)), bool_decide (is_Some (sw_map t !! id)));
  tw_next _ := 0%Z;
  tw_process _ t := (t, [])
}.

#[export] Instance simple_firing_wheel : FiringWheel simple_wheel.
Proof.
  refine {| tw_map := sw_map; tw_ids := sw_ids;
            tw_returned id b t := SimpleWheel (sw_ids t) (if b then sw_map t else delete id (sw_map t)) |}; try done.
  intros start repeat cb data t. cbn. set (id := fresh _).
  assert (Hid : id ∉ {[0%Z]} ∪ sw_ids t) by apply is_fresh. clearbody id. split; [set_solver|right]. set_solver.
Defined.

Definition demo_loop : loopyLoop unit simple_wheel :=
  Loop None [] (MaxHeapS [] [] 0 0 0 true) None None None None 0 4 (-1) 0 false false false true false.
Definition demo_system : timerSys := timers0 demo_loop.

(** A periodic and a one-shot timer; the first fires and is cancelled in its
    callback. *)
Definition demo_created : option timerSys :=
  op_result (TCreate true true 5 5 7 9) demo_system ≫= op_result (TCreate true true 5 0 8 0).
Definition demo_fired : option timerSys := demo_created ≫= fire_result 1 1.
Definition demo_cancelled : option timerSys := demo_fired ≫= op_result (TCancel 1).

Lemma reach_result {K T} `{!TimerWheel T} `{!FiringWheel T} (s0 s s' : @timerSys K T) r :
  timer_reach s0 s -> timer_step s r -> r = Some s' -> timer_reach s0 s'.
Proof. intros H Hs ->. by eapply reach_step. Qed.

Lemma demo_no_timers : no_timers demo_loop.
Proof. intros id data E. discriminate. Qed.

Lemma demo_created_reached s : demo_created = Some s -> timer_reach demo_system s.
Proof.
  unfold demo_created. destruct (op_result _ demo_system) as [s1|] eqn:E1; [|done]. cbn [mbind option_bind]. intros E2.
  refine (reach_result _ s1 s _ (reach_result _ _ s1 _ (reach_refl _) _ E1) _ E2); by apply ts_op.
Qed.

Lemma demo_fired_reached s : demo_fired = Some s -> timer_reach demo_system s.
Proof.
  unfold demo_fired. destruct demo_created as [s1|] eqn:E1; [|done]. cbn [mbind option_bind]. intros E2.
  refine (reach_result _ s1 s _ (demo_created_reached s1 E1) (ts_fire _ _ _ _ _) E2); evaluate E1; injection E1 as <-; by vm_compute.
Qed.

Lemma demo_cancelled_reached s : demo_cancelled = Some s -> timer_reach demo_system s.
Proof.
  unfold demo_cancelled. destruct demo_fired as [s1|] eqn:E1; [|done]. cbn [mbind option_bind]. intros E2.
  refine (reach_result _ s1 s _ (demo_fired_reached s1 E1) (ts_op _ _ _) E2).
  evaluate E1. injection E1 as <-. vm_compute. by eexists.
Qed.

Lemma timer_safe_witness : exists s, demo_cancelled = Some s /\ (forall o, timer_step s o -> is_Some o) /\
  size (heap (world s)) = 2 /\ size (registered (world s)) = 1.
Proof.
  destruct demo_cancelled as [s|] eqn:E; [|by vm_compute in E]. exists s. split; [done|].
  pose proof (timer_safe demo_loop s demo_no_timers (demo_cancelled_reached s E)) as (H & _). split; [done|].
  evaluate E. injection E as <-. by vm_compute.
Defined.

(** The periodic timer, cancelled in its callback, is freed on return. *)
Lemma timer_lifetime_witness : exists s w, demo_cancelled = Some s /\ return_result 1 1 true s = Some w /\
  heap (world w) = delete 1 (heap (world s)) /\ dom (heap (world w)) = {[2]}.
Proof.
  destruct demo_cancelled as [s|] eqn:E; [|by vm_compute in E].
  pose proof (timer_lifetime demo_loop s demo_no_timers (demo_cancelled_reached s E)) as (_ & H).
  destruct (H 1%Z 1 true) as (t & u & w & Ht & Hw & Hrest); [evaluate E; injection E as <-; by vm_compute|].
  exists s, (TSys w None). split; [done|]. unfold return_result. rewrite Hw. split; [done|]. cbn [world].
  evaluate E; injection E as <-. vm_compute in Ht. injection Ht as <-. destruct Hrest as [Hh _]. rewrite Hh. by split.
Defined.

(** The one-shot timer, cancelled twice before it fires. *)
Lemma timer_double_cancel_witness : exists s w, demo_created = Some s /\
  loopyTimerCancel (Some 2) (world s) = Some (tt, w) /\ loopyTimerCancel (Some 2) w = None.
Proof.
  destruct demo_created as [s|] eqn:E; [|by vm_compute in E].
  destruct (heap (world s) !! 2) as [t|] eqn:Ht; [|evaluate E; injection E as <-; by vm_compute in Ht].
  destruct (timer_double_cancel demo_loop s 2 t demo_no_timers (demo_created_reached s E) Ht) as (w & Hw & H2).
  exists s, w. split_and!; [done|done|]. assert (Et : inCallback t = false); [|by rewrite Et in H2].
  evaluate E; injection E as <-. vm_compute in Ht. by injection Ht as <-.
Defined.
