(* ===== verification/Idle.v ===== *)
(** * Idle, prepare and check handles ([src/loopyIdle.c])

    Per loop a manager with one doubly linked list of handles for each kind, and
    with the sleep callbacks of the loop as they were before it took them over.
    The handle functions are the same for the three kinds ([kind] is their
    parameter) but for the timer of idle handles.  The reference is [registry]:
    per loop and kind the list of handles, newest first, and what is known of
    each handle; [idle_refines] is the refinement, [idle_pass_refines] that of
    the walks before and after the loop sleeps, with callbacks of the user that
    may call every function of the interface, and [idle_free_next_unsafe] and
    [idle_free_last_unsafe] what they may not do. *)

From S2P Require Import Prelude EventLoop Timer Chain.

Local Open Scope nat_scope.

(** ** Data *)

Inductive kind := KIdle | KPrepare | KCheck.

#[export] Instance kind_eq : EqDecision kind.
Proof. solve_decision. Defined.

(** One value per kind. *)
Record per (A : Type) := Per { of_idle : A; of_prepare : A; of_check : A }.
Arguments Per {A}.
Arguments of_idle {A}.
Arguments of_prepare {A}.
Arguments of_check {A}.

Definition pget {A} (k : kind) (p : per A) : A :=
  match k with KIdle => of_idle p | KPrepare => of_prepare p | KCheck => of_check p end.
Definition pset {A} (k : kind) (f : A -> A) (p : per A) : per A :=
  match k with
  | KIdle => Per (f (of_idle p)) (of_prepare p) (of_check p)
  | KPrepare => Per (of_idle p) (f (of_prepare p)) (of_check p)
  | KCheck => Per (of_idle p) (of_prepare p) (f (of_check p))
  end.
Definition pconst {A} (a : A) : per A := Per a a a.
Definition pmap {A B} (f : A -> B) (p : per A) : per B := Per (f (of_idle p)) (f (of_prepare p)) (f (of_check p)).

(** Addresses of handles, managers and loops are natural numbers, [NULL] is
    [None]; callbacks and user data are numbers, of which 0 is [NULL]. *)
Record loopyHandle := Handle {
  hd_loop : nat;
  hd_cb : Z;
  hd_userData : Z;
  hd_active : bool;
  hd_next : option nat;
  hd_prev : option nat
}.

#[export] Instance Handle_rebuild : Rebuild loopyHandle := fun h =>
  Handle (hd_loop h) (hd_cb h) (hd_userData h) (hd_active h) (hd_next h) (hd_prev h).

(** The counters count structures in memory and cannot overflow.  The saved
    callbacks are [None] for [NULL]. *)
Record loopyIdleManager := Manager {
  mg_loop : nat;
  lists : per (option nat);
  activeCount : per nat;
  origBefore : option (Z * Z);
  origAfter : option (Z * Z);
  idleTimerId : Z;
  idleTimerActive : bool;
  mg_next : option nat
}.

#[export] Instance Manager_rebuild : Rebuild loopyIdleManager := fun m =>
  Manager (mg_loop m) (lists m) (activeCount m) (origBefore m) (origAfter m) (idleTimerId m) (idleTimerActive m) (mg_next m).

(** What a pass calls: the callback of a handle, or the saved one. *)
Inductive call :=
  | CHandle (k : kind) (a : nat) (cb userData : Z)
  | COriginal (cb clientData : Z).

Section Idle.
Context {K : Type} {T : Type} `{!TimerWheel T}.

Record idleWorld := World {
  loops : gmap nat (loopyLoop K T);
  managers : gmap nat loopyIdleManager;
  g_managers : option nat;
  handles : per (gmap nat loopyHandle);
  calls : list call (* newest first *)
}.

#[export] Instance World_rebuild : Rebuild idleWorld := fun w =>
  World (loops w) (managers w) (g_managers w) (handles w) (calls w).

Notation iprog := (prog idleWorld).

(** ** Memory *)

Definition the_loop (l : nat) : iprog (loopyLoop K T) :=
  w ← get; match loops w !! l with Some x => mret x | None => undefined end.
Definition set_loop (l : nat) (x : loopyLoop K T) : iprog unit := modify (fun w => w <| loops ::= <[l := x]> |>).
Definition the_mgr (m : nat) : iprog loopyIdleManager :=
  w ← get; match managers w !! m with Some x => mret x | None => undefined end.
Definition set_mgr (m : nat) (f : loopyIdleManager -> loopyIdleManager) : iprog unit :=
  the_mgr m ≫= fun _ => modify (fun w => w <| managers ::= alter f m |>).
Definition the_handle (k : kind) (a : nat) : iprog loopyHandle :=
  w ← get; match pget k (handles w) !! a with Some x => mret x | None => undefined end.
Definition set_handle (k : kind) (a : nat) (f : loopyHandle -> loopyHandle) : iprog unit :=
  the_handle k a ≫= fun _ => modify (fun w => w <| handles ::= pset k (alter f a) |>).
Definition free_handle (k : kind) (a : nat) : iprog unit :=
  the_handle k a ≫= fun _ => modify (fun w => w <| handles ::= pset k (delete a) |>).
Definition record_call (c : call) : iprog unit := modify (fun w => w <| calls ::= cons c |>).

(** ** Managers *)

(** The addresses of [idleBeforeSleepCallback], [idleAfterSleepCallback] and
    [idleTimerCallback]. *)
Definition idleBeforeSleepCallback_ptr : Z := -1.
Definition idleAfterSleepCallback_ptr : Z := -2.
Definition idleTimerCallback_ptr : Z := -3.

Fixpoint findManager (fuel : nat) (mgr : option nat) (loop : nat) : iprog (option nat) :=
  match fuel with
  | 0 => undefined
  | S fuel =>
      match mgr with
      | None => mret None
      | Some m => x ← the_mgr m; if mg_loop x =? loop then mret (Some m) else findManager fuel (mg_next x) loop
      end
  end.

Definition idleGetManager (loop : nat) : iprog (option nat) :=
  w ← get; findManager (S (size (managers w))) (g_managers w) loop.

Definition idleCreateManager (loop : nat) (mallocOk : bool) : iprog (option nat) :=
  idleGetManager loop ≫= fun mgr =>
  match mgr with
  | Some m => mret (Some m)
  | None =>
      if negb mallocOk then mret None
      else
        w ← get;
        let m := fresh (dom (managers w)) in
        x ← the_loop loop;
        modify (fun w => w <| managers ::= <[m := Manager loop (pconst None) (pconst 0) (lp_before x) (lp_after x) 0 false None]> |>) ≫= fun _ =>
        set_loop loop (loopySetAfterSleepCallback idleAfterSleepCallback_ptr (Z.of_nat m)
                         (loopySetBeforeSleepCallback idleBeforeSleepCallback_ptr (Z.of_nat m) x)) ≫= fun _ =>
        set_mgr m (fun y => y <| mg_next := g_managers w |>) ≫= fun _ =>
        modify (fun w => w <| g_managers := Some m |>) ≫= fun _ =>
        mret (Some m)
  end.

Definition setBefore (o : option (Z * Z)) (x : loopyLoop K T) : loopyLoop K T :=
  loopySetBeforeSleepCallback (default 0%Z (fst <$> o)) (default 0%Z (snd <$> o)) x.
Definition setAfter (o : option (Z * Z)) (x : loopyLoop K T) : loopyLoop K T :=
  loopySetAfterSleepCallback (default 0%Z (fst <$> o)) (default 0%Z (snd <$> o)) x.

Definition unregisterTimer (loop : nat) (id : Z) : iprog unit :=
  x ← the_loop loop; match loopyUnregisterTimer id x with None => undefined | Some (x, _) => set_loop loop x end.

(** [while (prev && prev->next != mgr) prev = prev->next;] *)
Fixpoint findPrevious (fuel : nat) (prev : option nat) (mgr : nat) : iprog (option nat) :=
  match fuel with
  | 0 => undefined
  | S fuel =>
      match prev with
      | None => mret None
      | Some p => x ← the_mgr p; if bool_decide (mg_next x = Some mgr) then mret (Some p) else findPrevious fuel (mg_next x) mgr
      end
  end.

Definition idleDestroyManager (mgr : option nat) : iprog unit :=
  match mgr with
  | None => mret tt
  | Some m =>
      x ← the_mgr m;
      pwhen (idleTimerActive x) (unregisterTimer (mg_loop x) (idleTimerId x)) ≫= fun _ =>
      l ← the_loop (mg_loop x);
      set_loop (mg_loop x) (setAfter (origAfter x) (setBefore (origBefore x) l)) ≫= fun _ =>
      w ← get;
      (if bool_decide (g_managers w = Some m) then modify (fun w => w <| g_managers := mg_next x |>)
       else
         findPrevious (S (size (managers w))) (g_managers w) m ≫= fun prev =>
         match prev with None => mret tt | Some p => set_mgr p (fun y => y <| mg_next := mg_next x |>) end) ≫= fun _ =>
      modify (fun w => w <| managers ::= delete m |>)
  end.

(** ** The timer that keeps the loop from blocking *)

Definition idleTimerCallback : bool := true.

Definition idleUpdateTimer (m : nat) : iprog unit :=
  x ← the_mgr m;
  if (0 <? of_idle (activeCount x)) && negb (idleTimerActive x) then
    l ← the_loop (mg_loop x);
    let '(l, id) := loopyRegisterTimer 0 1 idleTimerCallback_ptr (Z.of_nat m) l in
    set_loop (mg_loop x) l ≫= fun _ =>
    set_mgr m (fun y => y <| idleTimerId := id |>) ≫= fun _ =>
    pwhen (negb (id =? 0)%Z) (set_mgr m (fun y => y <| idleTimerActive := true |>))
  else if (of_idle (activeCount x) =? 0) && idleTimerActive x then
    unregisterTimer (mg_loop x) (idleTimerId x) ≫= fun _ => set_mgr m (fun y => y <| idleTimerActive := false |>)
  else mret tt.

(** Only the functions of idle handles have the call. *)
Definition updateTimer (k : kind) (m : nat) : iprog unit := match k with KIdle => idleUpdateTimer m | _ => mret tt end.

(** ** Handles *)

Definition handleStart (k : kind) (loop : option nat) (cb userData : Z) (mallocMgr mallocHandle : bool) : iprog (option nat) :=
  match loop with
  | None => mret None
  | Some loop =>
      if (cb =? 0)%Z then mret None
      else
        idleCreateManager loop mallocMgr ≫= fun mgr =>
        match mgr with
        | None => mret None
        | Some m =>
            if negb mallocHandle then mret None
            else
              w ← get;
              let handle := fresh (dom (pget k (handles w))) in
              modify (fun w => w <| handles ::= pset k <[handle := Handle loop cb userData true None None]> |>) ≫= fun _ =>
              x ← the_mgr m;
              set_handle k handle (fun h => h <| hd_next := pget k (lists x) |>) ≫= fun _ =>
              match pget k (lists x) with None => mret tt | Some b => set_handle k b (fun h => h <| hd_prev := Some handle |>) end ≫= fun _ =>
              set_mgr m (fun x => x <| lists ::= pset k (fun _ => Some handle) |>) ≫= fun _ =>
              set_mgr m (fun x => x <| activeCount ::= pset k S |>) ≫= fun _ =>
              updateTimer k m ≫= fun _ =>
              mret (Some handle)
        end
  end.

Definition handleStop (k : kind) (handle : option nat) : iprog unit :=
  match handle with
  | None => mret tt
  | Some a =>
      h ← the_handle k a;
      if negb (hd_active h) then mret tt
      else
        set_handle k a (fun h => h <| hd_active := false |>) ≫= fun _ =>
        idleGetManager (hd_loop h) ≫= fun mgr =>
        match mgr with
        | None => mret tt
        | Some m =>
            x ← the_mgr m;
            if 0 <? pget k (activeCount x) then
              set_mgr m (fun x => x <| activeCount ::= pset k pred |>) ≫= fun _ => updateTimer k m
            else mret tt
        end
  end.

Definition handleRestart (k : kind) (handle : option nat) : iprog bool :=
  match handle with
  | None => mret false
  | Some a =>
      h ← the_handle k a;
      if hd_active h then mret false
      else
        set_handle k a (fun h => h <| hd_active := true |>) ≫= fun _ =>
        idleGetManager (hd_loop h) ≫= fun mgr =>
        match mgr with
        | None => mret tt
        | Some m => set_mgr m (fun x => x <| activeCount ::= pset k S |>) ≫= fun _ => updateTimer k m
        end ≫= fun _ =>
        mret true
  end.

Definition lists_empty (p : per (option nat)) : bool :=
  bool_decide (of_idle p = None) && bool_decide (of_prepare p = None) && bool_decide (of_check p = None).

Definition handleFree (k : kind) (handle : option nat) : iprog unit :=
  match handle with
  | None => mret tt
  | Some a =>
      h ← the_handle k a;
      pwhen (hd_active h) (handleStop k (Some a)) ≫= fun _ =>
      h ← the_handle k a;
      idleGetManager (hd_loop h) ≫= fun mgr =>
      match mgr with
      | None => mret tt
      | Some m =>
          match hd_prev h with
          | Some p => set_handle k p (fun y => y <| hd_next := hd_next h |>)
          | None => set_mgr m (fun x => x <| lists ::= pset k (fun _ => hd_next h) |>)
          end ≫= fun _ =>
          match hd_next h with
          | Some n => set_handle k n (fun y => y <| hd_prev := hd_prev h |>)
          | None => mret tt
          end ≫= fun _ =>
          x ← the_mgr m;
          pwhen (lists_empty (lists x)) (idleDestroyManager (Some m))
      end ≫= fun _ =>
      free_handle k a
  end.

Definition handleIsActive (k : kind) (handle : option nat) : iprog bool :=
  match handle with None => mret false | Some a => h ← the_handle k a; mret (hd_active h) end.
Definition handleGetLoop (k : kind) (handle : option nat) : iprog (option nat) :=
  match handle with None => mret None | Some a => h ← the_handle k a; mret (Some (hd_loop h)) end.
Definition handleGetData (k : kind) (handle : option nat) : iprog Z :=
  match handle with None => mret 0%Z | Some a => h ← the_handle k a; mret (hd_userData h) end.
Definition handleSetData (k : kind) (handle : option nat) (data : Z) : iprog unit :=
  match handle with None => mret tt | Some a => set_handle k a (fun h => h <| hd_userData := data |>) end.
Definition handleCount (k : kind) (loop : nat) : iprog nat :=
  idleGetManager loop ≫= fun mgr =>
  match mgr with None => mret 0 | Some m => x ← the_mgr m; mret (pget k (activeCount x)) end.
Definition loopyHasActiveIdle (loop : nat) : iprog bool :=
  idleGetManager loop ≫= fun mgr =>
  match mgr with None => mret false | Some m => x ← the_mgr m; mret (0 <? of_idle (activeCount x)) end.

(** The functions of the interface. *)
Definition loopyIdleStart := handleStart KIdle.
Definition loopyIdleStop := handleStop KIdle.
Definition loopyIdleRestart := handleRestart KIdle.
Definition loopyIdleFree := handleFree KIdle.
Definition loopyIdleIsActive := handleIsActive KIdle.
Definition loopyIdleGetLoop := handleGetLoop KIdle.
Definition loopyIdleGetData := handleGetData KIdle.
Definition loopyIdleSetData := handleSetData KIdle.
Definition loopyIdleCount := handleCount KIdle.
Definition loopyPrepareStart := handleStart KPrepare.
Definition loopyPrepareStop := handleStop KPrepare.
Definition loopyPrepareRestart := handleRestart KPrepare.
Definition loopyPrepareFree := handleFree KPrepare.
Definition loopyPrepareIsActive := handleIsActive KPrepare.
Definition loopyPrepareGetLoop := handleGetLoop KPrepare.
Definition loopyPrepareGetData := handleGetData KPrepare.
Definition loopyPrepareSetData := handleSetData KPrepare.
Definition loopyPrepareCount := handleCount KPrepare.
Definition loopyCheckStart := handleStart KCheck.
Definition loopyCheckStop := handleStop KCheck.
Definition loopyCheckRestart := handleRestart KCheck.
Definition loopyCheckFree := handleFree KCheck.
Definition loopyCheckIsActive := handleIsActive KCheck.
Definition loopyCheckGetLoop := handleGetLoop KCheck.
Definition loopyCheckGetData := handleGetData KCheck.
Definition loopyCheckSetData := handleSetData KCheck.
Definition loopyCheckCount := handleCount KCheck.
End Idle.
Arguments idleWorld : clear implicits.

(** ** Calls of the user *)

Inductive idle_op :=
  | OStart (k : kind) (loop : option nat) (cb userData : Z) (mallocMgr mallocHandle : bool)
  | OStop (k : kind) (a : nat)
  | ORestart (k : kind) (a : nat)
  | OFree (k : kind) (a : nat)
  | OSetData (k : kind) (a : nat) (data : Z)
  | OIsActive (k : kind) (a : nat)
  | OCount (k : kind) (loop : nat).

Inductive idle_result := RHandle (a : option nat) | RUnit | RBool (b : bool) | RCount (n : nat).

Section Passes.
Context {K : Type} {T : Type} `{!TimerWheel T}.
Notation iprog := (prog (idleWorld K T)).

Definition idle_do (op : idle_op) : iprog idle_result :=
  match op with
  | OStart k loop cb d m1 m2 => handleStart k loop cb d m1 m2 ≫= fun x => mret (RHandle x)
  | OStop k a => handleStop k (Some a) ≫= fun _ => mret RUnit
  | ORestart k a => handleRestart k (Some a) ≫= fun x => mret (RBool x)
  | OFree k a => handleFree k (Some a) ≫= fun _ => mret RUnit
  | OSetData k a d => handleSetData k (Some a) d ≫= fun _ => mret RUnit
  | OIsActive k a => handleIsActive k (Some a) ≫= fun x => mret (RBool x)
  | OCount k loop => handleCount k loop ≫= fun x => mret (RCount x)
  end.

Fixpoint run_script (ops : list idle_op) : iprog unit :=
  match ops with [] => mret tt | op :: ops => idle_do op ≫= fun _ => run_script ops end.

(** What the user's callbacks do: the calls of the [i]th of them, and its
    result, which only those of idle handles have. *)
Variable user : nat -> list idle_op * bool.

Definition call_handle (k : kind) (a : nat) : iprog bool :=
  h ← the_handle k a;
  w ← get;
  let '(ops, continueRunning) := user (length (calls w)) in
  record_call (CHandle k a (hd_cb h) (hd_userData h)) ≫= fun _ => run_script ops ≫= fun _ => mret continueRunning.

(** The loop over the list of one kind, which reads the link of a handle before
    its callback. *)
Fixpoint walk (k : kind) (fuel : nat) (p : option nat) : iprog unit :=
  match fuel with
  | 0 => undefined
  | S fuel =>
      match p with
      | None => mret tt
      | Some a =>
          h ← the_handle k a;
          (if hd_active h && negb (hd_cb h =? 0)%Z then
             call_handle k a ≫= fun continueRunning =>
             match k with
             | KIdle => if negb continueRunning then handleStop KIdle (Some a) else mret tt
             | _ => mret tt
             end
           else mret tt) ≫= fun _ =>
          walk k fuel (hd_next h)
      end
  end.

Definition walk_list (k : kind) (m : nat) : iprog unit :=
  x ← the_mgr m; w ← get; walk k (S (size (pget k (handles w)))) (pget k (lists x)).

Definition call_original (o : option (Z * Z)) : iprog unit :=
  match o with None => mret tt | Some (cb, d) => record_call (COriginal cb d) end.

Definition idleBeforeSleepCallback (m : nat) : iprog unit :=
  walk_list KPrepare m ≫= fun _ => walk_list KIdle m ≫= fun _ => x ← the_mgr m; call_original (origBefore x).
Definition idleAfterSleepCallback (m : nat) : iprog unit :=
  walk_list KCheck m ≫= fun _ => x ← the_mgr m; call_original (origAfter x).
End Passes.

(** ** The reference

    [members]: for every loop with a manager the handles of each kind, newest
    first; [base]: the sleep callbacks of each loop itself. *)

(** What is known of a handle but for its links. *)
Record hinfo := HInfo { hi_loop : nat; hi_cb : Z; hi_data : Z; hi_active : bool }.
#[export] Instance HInfo_rebuild : Rebuild hinfo := fun h => HInfo (hi_loop h) (hi_cb h) (hi_data h) (hi_active h).

Record registry := Registry {
  members : gmap nat (per (list nat));
  info : per (gmap nat hinfo);
  rg_calls : list call
}.
#[export] Instance Registry_rebuild : Rebuild registry := fun r => Registry (members r) (info r) (rg_calls r).

Definition lists_of (r : registry) (loop : nat) : per (list nat) := default (pconst []) (members r !! loop).
Definition all_empty (p : per (list nat)) : bool :=
  bool_decide (of_idle p = []) && bool_decide (of_prepare p = []) && bool_decide (of_check p = []).

Definition active_handles (r : registry) (k : kind) (l : list nat) : list nat :=
  filter (fun a => hi_active <$> pget k (info r) !! a = Some true) l.

Definition ref_active (k : kind) (a : nat) (b : bool) (r : registry) : registry :=
  r <| info ::= pset k (alter (fun h => h <| hi_active := b |>) a) |>.

Definition ref_op (op : idle_op) (r : registry) : registry * idle_result :=
  match op with
  | OStart k loop cb d m1 m2 =>
      match loop with
      | None => (r, RHandle None)
      | Some loop =>
          if (cb =? 0)%Z then (r, RHandle None)
          else if negb m1 && bool_decide (members r !! loop = None) then (r, RHandle None)
          else if negb m2 then (r <| members ::= <[loop := lists_of r loop]> |>, RHandle None)
          else
            let a := fresh (dom (pget k (info r))) in
            (r <| members ::= <[loop := pset k (cons a) (lists_of r loop)]> |>
               <| info ::= pset k <[a := HInfo loop cb d true]> |>, RHandle (Some a))
      end
  | OStop k a => (ref_active k a false r, RUnit)
  | ORestart k a =>
      if bool_decide (hi_active <$> pget k (info r) !! a = Some true) then (r, RBool false) else (ref_active k a true r, RBool true)
  | OFree k a =>
      match pget k (info r) !! a with
      | None => (r, RUnit)
      | Some h =>
          let ls := pset k (filter (fun b => b <> a)) (lists_of r (hi_loop h)) in
          (r <| members ::= (if all_empty ls then delete (hi_loop h) else <[hi_loop h := ls]>) |>
             <| info ::= pset k (delete a) |>, RUnit)
      end
  | OSetData k a d => (r <| info ::= pset k (alter (fun h => h <| hi_data := d |>) a) |>, RUnit)
  | OIsActive k a => (r, RBool (bool_decide (hi_active <$> pget k (info r) !! a = Some true)))
  | OCount k loop => (r, RCount (length (active_handles r k (pget k (lists_of r loop)))))
  end.

(** The loop must exist, and a handle must not be freed. *)
Definition idle_legal (op : idle_op) (ls : gset nat) (r : registry) : Prop :=
  match op with
  | OStart _ (Some loop) _ _ _ _ => loop ∈ ls
  | OStart _ None _ _ _ _ | OCount _ _ => True
  | OStop k a | ORestart k a | OFree k a | OSetData k a _ | OIsActive k a => is_Some (pget k (info r) !! a)
  end.

(** Sequences of calls, with their results. *)
Fixpoint ref_run (ops : list idle_op) (r : registry) : registry * list idle_result :=
  match ops with
  | [] => (r, [])
  | op :: ops => let '(r, x) := ref_op op r in let '(r, xs) := ref_run ops r in (r, x :: xs)
  end.

Fixpoint idle_run {K T} `{!TimerWheel T} (ops : list idle_op) : prog (idleWorld K T) (list idle_result) :=
  match ops with
  | [] => mret []
  | op :: ops => idle_do op ≫= fun x => idle_run ops ≫= fun xs => mret (x :: xs)
  end.

Fixpoint run_legal (ops : list idle_op) (lps : gset nat) (r : registry) : Prop :=
  match ops with [] => True | op :: ops => idle_legal op lps r /\ run_legal ops lps (fst (ref_op op r)) end.

Definition registry0 : registry := Registry ∅ (pconst ∅) [].
Definition world0 {K T} (lps : gmap nat (loopyLoop K T)) : idleWorld K T := World lps ∅ None (pconst ∅) [].

(** *** A walk *)

Section ReferenceWalk.
Variable user : nat -> list idle_op * bool.

Definition ref_script (ops : list idle_op) (r : registry) : registry := foldl (fun r op => fst (ref_op op r)) r ops.

Definition ref_call (c : call) (r : registry) : registry := r <| rg_calls ::= cons c |>.

(** The turn of a handle: its callback, if it is active. *)
Definition ref_turn (k : kind) (r : registry) (a : nat) : registry :=
  match pget k (info r) !! a with
  | Some h =>
      if hi_active h && negb (hi_cb h =? 0)%Z then
        let '(ops, continueRunning) := user (length (rg_calls r)) in
        let r := ref_script ops (ref_call (CHandle k a (hi_cb h) (hi_data h)) r) in
        match k with KIdle => if continueRunning then r else ref_active KIdle a false r | _ => r end
      else r
  | None => r
  end.

Definition ref_walk (k : kind) (l : list nat) (r : registry) : registry := foldl (ref_turn k) r l.

Definition ref_original (o : option (Z * Z)) (r : registry) : registry :=
  match o with Some (cb, d) => ref_call (COriginal cb d) r | None => r end.

Definition ref_after (loop : nat) (o : option (Z * Z)) (r : registry) : registry :=
  ref_original o (ref_walk KCheck (of_check (lists_of r loop)) r).
Definition ref_before (loop : nat) (o : option (Z * Z)) (r : registry) : registry :=
  let r := ref_walk KPrepare (of_prepare (lists_of r loop)) r in
  ref_original o (ref_walk KIdle (of_idle (lists_of r loop)) r).

(** What callbacks may do: free neither the handles of the list still to be
    visited, nor the idle handle itself when its callback answers that it
    should be stopped, nor the last handle of the loop. *)
Fixpoint script_legal (keep : list nat) (k : kind) (loop : nat) (lps : gset nat) (ops : list idle_op) (r : registry) : Prop :=
  match ops with
  | [] => True
  | op :: ops =>
      idle_legal op lps r /\ (forall a, op = OFree k a -> a ∉ keep) /\ is_Some (members (fst (ref_op op r)) !! loop) /\
      script_legal keep k loop lps ops (fst (ref_op op r))
  end.

Definition turn_legal (l : list nat) (k : kind) (loop : nat) (lps : gset nat) (a : nat) (r : registry) : Prop :=
  match pget k (info r) !! a with
  | Some h =>
      if hi_active h && negb (hi_cb h =? 0)%Z then
        let '(ops, continueRunning) := user (length (rg_calls r)) in
        script_legal (match k with KIdle => if continueRunning then l else a :: l | _ => l end) k loop lps ops
          (ref_call (CHandle k a (hi_cb h) (hi_data h)) r)
      else True
  | None => True
  end.

Fixpoint walk_legal (k : kind) (loop : nat) (lps : gset nat) (l : list nat) (r : registry) : Prop :=
  match l with [] => True | a :: l => turn_legal l k loop lps a r /\ walk_legal k loop lps l (ref_turn k r a) end.

Definition after_legal (loop : nat) (lps : gset nat) (r : registry) : Prop :=
  walk_legal KCheck loop lps (of_check (lists_of r loop)) r.
Definition before_legal (loop : nat) (lps : gset nat) (r : registry) : Prop :=
  walk_legal KPrepare loop lps (of_prepare (lists_of r loop)) r /\
  let r := ref_walk KPrepare (of_prepare (lists_of r loop)) r in walk_legal KIdle loop lps (of_idle (lists_of r loop)) r.
End ReferenceWalk.

(** ** The invariant *)

Lemma pget_pset_eq {A} k (f : A -> A) p : pget k (pset k f p) = f (pget k p).
Proof. by destruct k. Qed.
Lemma pget_pset_ne {A} k k' (f : A -> A) p : k <> k' -> pget k (pset k' f p) = pget k p.
Proof. by destruct k, k'. Qed.
Lemma pget_pconst {A} k (a : A) : pget k (pconst a) = a.
Proof. by destruct k. Qed.
Lemma pset_id {A} k (f : A -> A) p : f (pget k p) = pget k p -> pset k f p = p.
Proof. destruct p, k; cbn; by intros ->. Qed.
Lemma per_eq {A} (p q : per A) : (forall k, pget k p = pget k q) -> p = q.
Proof. intros H. destruct p, q. f_equal; [apply (H KIdle)|apply (H KPrepare)|apply (H KCheck)]. Qed.

Definition strip (h : loopyHandle) : hinfo := HInfo (hd_loop h) (hd_cb h) (hd_userData h) (hd_active h).

Lemma registry_eq r r' :
  members r = members r' -> (forall k, pget k (info r) = pget k (info r')) -> rg_calls r = rg_calls r' -> r = r'.
Proof. intros ? H%per_eq ?. destruct r, r'. cbn in *. congruence. Qed.

Lemma members_same r loop ls : members r !! loop = Some ls -> r <| members ::= <[loop := ls]> |> = r.
Proof. intros H. destruct r as [ms i c]. cbn in H. change (Registry (<[loop := ls]> ms) i c = Registry ms i c). by rewrite insert_id. Qed.

Record registry_ok (r : registry) : Prop := {
  rg_nodup k loop ls : members r !! loop = Some ls -> NoDup (pget k ls);
  rg_member k loop ls a : members r !! loop = Some ls -> a ∈ pget k ls -> hi_loop <$> pget k (info r) !! a = Some loop;
  rg_handle k a h : pget k (info r) !! a = Some h -> exists ls, members r !! hi_loop h = Some ls /\ a ∈ pget k ls
}.

(** Handles of other loops are other handles. *)
Lemma other_loop r k loop ls loop' ls' a :
  registry_ok r -> members r !! loop = Some ls -> members r !! loop' = Some ls' -> a ∈ pget k ls -> a ∈ pget k ls' -> loop = loop'.
Proof.
  intros H Hl Hl' Ha Ha'. pose proof (rg_member _ H k _ _ _ Hl Ha). pose proof (rg_member _ H k _ _ _ Hl' Ha'). congruence.
Qed.

Lemma active_handles_ext r r' k l :
  (forall a, a ∈ l -> pget k (info r') !! a = pget k (info r) !! a) -> active_handles r' k l = active_handles r k l.
Proof.
  unfold active_handles. induction l as [|a l IH]; intros H; [done|]. rewrite !filter_cons, H by left. rewrite IH; [done|].
  intros b Hb. apply H. by right.
Qed.

Lemma registry_ok_empty r loop : registry_ok r -> registry_ok (r <| members ::= <[loop := lists_of r loop]> |>).
Proof.
  intros H. unfold lists_of. destruct (members r !! loop) as [ls|] eqn:E.
  { cbn [default]. by rewrite members_same. }
  cbn. destruct H as [H1 H2 H3]. constructor; cbn.
  - intros k l ls. destruct (decide (l = loop)) as [-> |Hne].
    + rewrite lookup_insert_eq. intros [= <-]. rewrite pget_pconst. apply NoDup_nil_2.
    + rewrite lookup_insert_ne by done. eauto.
  - intros k l ls a. destruct (decide (l = loop)) as [-> |Hne].
    + rewrite lookup_insert_eq. intros [= <-]. rewrite pget_pconst. by intros ?%elem_of_nil.
    + rewrite lookup_insert_ne by done. eauto.
  - intros k a h Ha. destruct (H3 k a h Ha) as (ls & Hls & Hin). exists ls. rewrite lookup_insert_ne by congruence. done.
Qed.

Lemma ref_active_info k a b r k' a' :
  pget k' (info (ref_active k a b r)) !! a' =
  (if decide (k' = k /\ a' = a) then (fun h => h <| hi_active := b |>) <$> pget k (info r) !! a else pget k' (info r) !! a').
Proof.
  unfold ref_active. cbn. destruct (decide (k' = k)) as [-> |Hk].
  - rewrite pget_pset_eq. destruct (decide (a' = a)) as [-> |Ha]; [by rewrite lookup_alter_eq, decide_True|].
    rewrite lookup_alter_ne, decide_False by naive_solver. done.
  - rewrite pget_pset_ne, decide_False by naive_solver. done.
Qed.

Lemma ref_active_ok k a b r : registry_ok r -> registry_ok (ref_active k a b r).
Proof.
  intros [H1 H2 H3]. constructor; [done| |].
  - intros k' loop ls a' Hls Ha'. rewrite ref_active_info. case_decide as E; [|eauto]. destruct E as [-> ->].
    rewrite <- option_fmap_compose. by eapply H2.
  - intros k' a' h. rewrite ref_active_info. case_decide as E; [|eauto]. destruct E as [-> ->]. cbn.
    destruct (pget k (info r) !! a) as [h'|] eqn:Ei; [|done]. intros [= <-]. exact (H3 k a h' Ei).
Qed.

Lemma active_count_other k a b r k' l : ~ (k' = k /\ a ∈ l) -> active_handles (ref_active k a b r) k' l = active_handles r k' l.
Proof. intros Hn. apply active_handles_ext. intros a' Ha'. rewrite ref_active_info, decide_False; [done|]. naive_solver. Qed.

Lemma active_count k a b r l :
  NoDup l -> a ∈ l -> hi_active <$> pget k (info r) !! a = Some (negb b) ->
  length (active_handles (ref_active k a b r) k l) = (if b then S else pred) (length (active_handles r k l)) /\
  (b = false -> 0 < length (active_handles r k l)).
Proof.
  intros Hnd Ha Hact. induction l as [|c l IH]; [by apply elem_of_nil in Ha|]. apply NoDup_cons in Hnd as [Hc Hnd].
  assert (Hhead : hi_active <$> pget k (info (ref_active k a b r)) !! a = Some b).
  { rewrite ref_active_info, decide_True by done. destruct (pget k (info r) !! a); [done|by destruct b]. }
  unfold active_handles in *. rewrite !filter_cons. destruct (decide (c = a)) as [-> |Hne].
  - rewrite Hhead, Hact. pose proof (active_count_other k a b r k l ltac:(naive_solver)) as E. unfold active_handles in E. rewrite E.
    destruct b; cbn [negb]; repeat case_decide; try done; cbn; split; try done; intros; lia.
  - apply elem_of_cons in Ha as [-> |Ha]; [done|]. destruct (IH Hnd Ha) as [IH1 IH2].
    assert (E : pget k (info (ref_active k a b r)) !! c = pget k (info r) !! c).
    { rewrite ref_active_info. case_decide as Hd; [|done]. by destruct Hd as [_ ?]. }
    rewrite E. case_decide; cbn [length]; rewrite IH1; destruct b; split; try done; try lia.
Qed.

Lemma info_alter f g k a (hs : per (gmap nat loopyHandle)) i :
  (forall h, strip (f h) = g (strip h)) -> (forall k, pget k i = strip <$> pget k hs) ->
  forall k', pget k' (pset k (alter g a) i) = strip <$> pget k' (pset k (alter f a) hs).
Proof.
  intros Hfg H k'. destruct (decide (k' = k)) as [-> |Hk]; [|by rewrite !pget_pset_ne].
  rewrite !pget_pset_eq, H. apply map_eq. intros b. rewrite lookup_fmap. destruct (decide (b = a)) as [-> |Hb].
  - rewrite !lookup_alter_eq, lookup_fmap. destruct (pget k hs !! a); [|done]. cbn. by rewrite Hfg.
  - by rewrite !lookup_alter_ne, lookup_fmap.
Qed.

Lemma filter_ne_mid (l1 l2 : list nat) a : NoDup (l1 ++ a :: l2) -> filter (fun b => b <> a) (l1 ++ a :: l2) = l1 ++ l2.
Proof.
  intros Hnd. assert (Hf : forall l : list nat, a ∉ l -> filter (fun b => b <> a) l = l).
  { intros l. induction l as [|b l IH]; intros Hn; [done|]. apply not_elem_of_cons in Hn as [Hb Hn].
    rewrite filter_cons_True by congruence. by rewrite IH. }
  apply NoDup_app in Hnd as (_ & Hd & Hnd). apply NoDup_cons in Hnd as [H2 _].
  rewrite filter_app, filter_cons_False by (intros E; by apply E). rewrite !Hf; [done|done|]. intros Ha. apply (Hd a Ha). by left.
Qed.

Lemma ref_free_ok r k a h ls : registry_ok r -> pget k (info r) !! a = Some h -> members r !! hi_loop h = Some ls ->
  registry_ok (r <| members ::= <[hi_loop h := pset k (filter (fun b => b <> a)) ls]> |> <| info ::= pset k (delete a) |>).
Proof.
  intros [H1 H2 H3] Ha Hls. set (ls' := pset k _ ls).
  assert (Hsub : forall k' b, b ∈ pget k' ls' <-> b ∈ pget k' ls /\ ~ (k' = k /\ b = a)).
  { intros k' b. unfold ls'. destruct (decide (k' = k)) as [-> |Hk].
    - rewrite pget_pset_eq, list_elem_of_filter. naive_solver.
    - rewrite pget_pset_ne by done. naive_solver. }
  constructor; cbn.
  - intros k' l ls1. destruct (decide (l = hi_loop h)) as [-> |Hne].
    + rewrite lookup_insert_eq. intros [= <-]. unfold ls'. destruct (decide (k' = k)) as [-> |Hk].
      * rewrite pget_pset_eq. apply NoDup_filter. eauto.
      * rewrite pget_pset_ne by done. eauto.
    + rewrite lookup_insert_ne by done. eauto.
  - intros k' l ls1 b Hl Hb. assert (Hold : hi_loop <$> pget k' (info r) !! b = Some l /\ ~ (k' = k /\ b = a)).
    { destruct (decide (l = hi_loop h)) as [-> |Hne].
      - rewrite lookup_insert_eq in Hl. injection Hl as <-. apply Hsub in Hb as [Hb Hn]. split; [eauto|done].
      - rewrite lookup_insert_ne in Hl by done. assert (Hb' : hi_loop <$> pget k' (info r) !! b = Some l) by eauto. split; [done|].
        intros [-> ->]. rewrite Ha in Hb'. injection Hb' as <-. done. }
    destruct Hold as [Hold Hn]. destruct (decide (k' = k)) as [-> |Hk]; [|by rewrite pget_pset_ne].
    rewrite pget_pset_eq, lookup_delete_ne; [done|]. intros <-. by apply Hn.
  - intros k' b i Hi. assert (Hold : pget k' (info r) !! b = Some i /\ ~ (k' = k /\ b = a)).
    { destruct (decide (k' = k)) as [-> |Hk]; [|rewrite pget_pset_ne in Hi by done; split; [done|by intros [? _]]].
      rewrite pget_pset_eq in Hi. apply lookup_delete_Some in Hi as [Hne Hi]. split; [done|]. intros [_ ->]. done. }
    destruct Hold as [Hold Hn]. destruct (H3 k' b i Hold) as (ls1 & Hl & Hb). destruct (decide (hi_loop i = hi_loop h)) as [E|E].
    + rewrite E in *. rewrite lookup_insert_eq. exists ls'. split; [done|]. apply Hsub. split; [|done]. congruence.
    + rewrite lookup_insert_ne by done. by exists ls1.
Qed.

(** A legal call leaves the handles to be visited where they are. *)
Lemma ref_op_suffix op k loop lps r ls front l :
  idle_legal op lps r -> (forall a, op = OFree k a -> a ∉ l) -> is_Some (members (fst (ref_op op r)) !! loop) ->
  members r !! loop = Some ls -> pget k ls = front ++ l ->
  exists ls' front', members (fst (ref_op op r)) !! loop = Some ls' /\ pget k ls' = front' ++ l.
Proof.
  intros Hleg Hk Hs Hls Hl. destruct op as [k' loop' c d m1 m2|k' a|k' a|k' a|k' a d|k' a|k' loop']; cbn [ref_op fst] in *; eauto.
  - destruct loop' as [loop'|]; [|by exists ls, front]. destruct (c =? 0)%Z; [by exists ls, front|].
    destruct (negb m1 && _); [by exists ls, front|]. destruct (decide (loop' = loop)) as [-> |Hne].
    + assert (E : lists_of r loop = ls) by (unfold lists_of; by rewrite Hls). rewrite E.
      destruct (negb m2); cbn; rewrite lookup_insert_eq; [by exists ls, front|].
      destruct (decide (k' = k)) as [-> |Hkk]; eexists.
      * exists (fresh (dom (pget k (info r))) :: front). split; [done|]. by rewrite pget_pset_eq, Hl.
      * exists front. split; [done|]. by rewrite pget_pset_ne by congruence.
    + destruct (negb m2); cbn; rewrite lookup_insert_ne by done; eauto.
  - destruct (bool_decide _); cbn; eauto.
  - destruct (pget k' (info r) !! a) as [h|]; [|by exists ls, front]. cbn in Hs |- *. destruct (decide (hi_loop h = loop)) as [E|Hne].
    + assert (E' : lists_of r (hi_loop h) = ls) by (unfold lists_of; by rewrite E, Hls). rewrite E' in *. clear E'. rewrite E in *.
      destruct (all_empty _); [rewrite lookup_delete_eq in Hs; by destruct Hs|]. rewrite lookup_insert_eq.
      destruct (decide (k' = k)) as [-> |Hkk]; eexists.
      * exists (filter (fun b => b <> a) front). split; [done|]. rewrite pget_pset_eq, Hl, filter_app. f_equal.
        specialize (Hk a eq_refl). clear -Hk. induction l as [|b l IH]; [done|]. apply not_elem_of_cons in Hk as [Hb Hk].
        rewrite filter_cons_True by congruence. by rewrite IH.
      * exists front. split; [done|]. by rewrite pget_pset_ne by congruence.
    + destruct (all_empty _); [rewrite lookup_delete_ne by done|rewrite lookup_insert_ne by done]; eauto.
Qed.

Lemma ref_op_alive op k lps r a :
  idle_legal op lps r -> op <> OFree k a -> is_Some (pget k (info r) !! a) -> is_Some (pget k (info (fst (ref_op op r))) !! a).
Proof.
  intros Hleg Hne Ha. destruct op as [k' loop' c d m1 m2|k' b|k' b|k' b|k' b d|k' b|k' loop']; cbn [ref_op fst] in *; try done.
  - destruct loop' as [loop'|]; [|done]. destruct (c =? 0)%Z; [done|]. destruct (negb m1 && _); [done|]. destruct (negb m2); [done|].
    cbn. destruct (decide (k' = k)) as [-> |Hk]; [|by rewrite pget_pset_ne by congruence]. rewrite pget_pset_eq. apply lookup_insert_is_Some'. by right.
  - rewrite ref_active_info. case_decide as E; [|done]. destruct E as [-> ->]. by rewrite fmap_is_Some.
  - destruct (bool_decide _); [done|]. cbn [fst]. rewrite ref_active_info. case_decide as E; [|done]. destruct E as [-> ->]. by rewrite fmap_is_Some.
  - destruct (pget k' (info r) !! b); [|done]. cbn. destruct (decide (k' = k)) as [-> |Hk]; [|by rewrite pget_pset_ne by congruence].
    rewrite pget_pset_eq, lookup_delete_ne by congruence. done.
  - cbn. destruct (decide (k' = k)) as [-> |Hk]; [|by rewrite pget_pset_ne by congruence]. rewrite pget_pset_eq.
    destruct (decide (b = a)) as [-> |Hb]; [rewrite lookup_alter_eq; by rewrite fmap_is_Some|by rewrite lookup_alter_ne].
Qed.

Lemma ref_op_calls op r : rg_calls (fst (ref_op op r)) = rg_calls r.
Proof.
  destruct op as [k' loop' c d m1 m2|k' b|k' b|k' b|k' b d|k' b|k' loop']; cbn [ref_op fst]; try done.
  - destruct loop' as [loop'|]; [|done]. destruct (c =? 0)%Z; [done|]. destruct (negb m1 && _); [done|]. by destruct (negb m2).
  - by destruct (bool_decide _).
  - by destruct (pget k' (info r) !! b).
Qed.

Lemma ref_script_calls ops r : rg_calls (ref_script ops r) = rg_calls r.
Proof. unfold ref_script. revert r. induction ops as [|op ops IH]; intros r; [done|]. cbn. by rewrite IH, ref_op_calls. Qed.

Definition call_of (k : kind) (a : nat) (c : call) : Prop := exists cb d, c = CHandle k a cb d.

(** A walk calls handles of the list, each at most once, in the order of the
    list. *)
Lemma ref_walk_calls user k l r :
  exists called cs, sublist called l /\ Forall2 (call_of k) called cs /\ rg_calls (ref_walk user k l r) = rev cs ++ rg_calls r.
Proof.
  unfold ref_walk. revert r. induction l as [|a l IH]; intros r; [by exists [], []|]. cbn [foldl].
  destruct (IH (ref_turn user k r a)) as (called & cs & Hsub & Hcs & E). rewrite E. unfold ref_turn.
  destruct (pget k (info r) !! a) as [h|]; [|exists called, cs; split; [by constructor|done]].
  destruct (hi_active h && _); [|exists called, cs; split; [by constructor|done]].
  destruct (user _) as [ops cont]. exists (a :: called), (CHandle k a (hi_cb h) (hi_data h) :: cs).
  split; [by constructor|]. split; [constructor; [by eexists _, _|done]|]. cbn [rev]. rewrite <- app_assoc. f_equal.
  destruct k, cont; cbn; by rewrite ref_script_calls.
Qed.

Definition prev_to (v : option nat) (h : loopyHandle) : loopyHandle := h <| hd_prev := v |>.
Definition next_to (v : option nat) (h : loopyHandle) : loopyHandle := h <| hd_next := v |>.

Lemma strip_alter f c (hs : gmap nat loopyHandle) : (forall h, strip (f h) = strip h) -> strip <$> alter f c hs = strip <$> hs.
Proof.
  intros Hf. apply map_eq. intros b. rewrite !lookup_fmap. destruct (decide (b = c)) as [-> |Hne]; [|by rewrite lookup_alter_ne].
  rewrite lookup_alter_eq. destruct (hs !! c); [|done]. cbn. by rewrite Hf.
Qed.

Lemma strip_unlinked (hs : gmap nat loopyHandle) h : strip <$> unlinked hd_next hd_prev next_to prev_to hs h = strip <$> hs.
Proof. unfold unlinked. by destruct (hd_next h), (hd_prev h); rewrite ?strip_alter. Qed.

Section Invariant.
Context {K : Type} {T : Type} `{!TimerWheel T}.
Notation iprog := (prog (idleWorld K T)).
Notation idleWorld := (idleWorld K T).

(** The sleep callbacks of the loops without managers. *)
Variable base : gmap nat (option (Z * Z) * option (Z * Z)).
Hypothesis base_set : forall loop b d, base !! loop = Some b -> fst b <> Some (0%Z, d) /\ snd b <> Some (0%Z, d).

(** The wheel refuses some timer. *)
Definition wheel_fails : Prop := exists start repeat cb data (t : T), snd (tw_register start repeat cb data t) = 0%Z.

(** [timed]: the timer of the manager is as it should be. *)
Record mgr_ok (hs : per (gmap nat loopyHandle)) (w : idleWorld) (r : registry) (timed : bool) m x (ls : per (list nat)) : Prop := {
  mo_chain k : dchain hd_next hd_prev (pget k hs) None (pget k (lists x)) (pget k ls);
  mo_count k : pget k (activeCount x) = length (active_handles r k (pget k ls));
  mo_loop : exists lp b, loops w !! mg_loop x = Some lp /\ base !! mg_loop x = Some b /\
    lp_before lp = Some (idleBeforeSleepCallback_ptr, Z.of_nat m) /\ lp_after lp = Some (idleAfterSleepCallback_ptr, Z.of_nat m) /\
    origBefore x = fst b /\ origAfter x = snd b /\ (idleTimerActive x = true -> is_Some (lp_timer lp));
  mo_timer : timed = true -> (idleTimerActive x = true -> 0 < of_idle (activeCount x)) /\
    (0 < of_idle (activeCount x) -> idleTimerActive x = true \/ wheel_fails)
}.

(** [hs] are the handles; one that is being freed is left out.  [late] is the
    manager whose timer is still to be updated. *)
Record idle_inv (hs : per (gmap nat loopyHandle)) (late : option nat) (w : idleWorld) (r : registry) : Prop := {
  inv_registry : registry_ok r;
  inv_calls : rg_calls r = calls w;
  inv_info k : pget k (info r) = strip <$> pget k hs;
  inv_ms : exists ms, chain mg_next (managers w) (g_managers w) ms /\ NoDup ms /\ forall m, is_Some (managers w !! m) <-> m ∈ ms;
  inv_mgr m x : managers w !! m = Some x ->
    exists ls, members r !! mg_loop x = Some ls /\ mgr_ok hs w r (negb (bool_decide (late = Some m))) m x ls;
  inv_one m m' x x' : managers w !! m = Some x -> managers w !! m' = Some x' -> mg_loop x = mg_loop x' -> m = m';
  inv_members loop : is_Some (members r !! loop) -> exists m x, managers w !! m = Some x /\ mg_loop x = loop;
  inv_free loop lp : members r !! loop = None -> loops w !! loop = Some lp ->
    exists b, base !! loop = Some b /\ lp_before lp = fst b /\ lp_after lp = snd b;
  inv_dom : dom (loops w) = dom base
}.

Definition idle_ok (w : idleWorld) (r : registry) : Prop := idle_inv (handles w) None w r.

(** A change of one manager, of its loop and of the handles of that loop. *)
Lemma inv_step hs hs' late late' (w w' : idleWorld) r r' m x x' lp' ls' :
  idle_inv hs late w r -> managers w !! m = Some x -> mg_loop x' = mg_loop x -> mg_next x' = mg_next x ->
  managers w' = <[m := x']> (managers w) -> g_managers w' = g_managers w -> loops w' = <[mg_loop x := lp']> (loops w) ->
  rg_calls r' = calls w' -> registry_ok r' -> (forall k, pget k (info r') = strip <$> pget k hs') ->
  members r' = <[mg_loop x := ls']> (members r) -> (late = None \/ late = Some m) -> (late' = None \/ late' = Some m) ->
  (forall k loop ls a, loop <> mg_loop x -> members r !! loop = Some ls -> a ∈ pget k ls -> pget k hs' !! a = pget k hs !! a) ->
  mgr_ok hs' w' r' (negb (bool_decide (late' = Some m))) m x' ls' -> idle_inv hs' late' w' r'.
Proof using All.
  intros [Hreg Hcalls Hinfo (ms & Hms & Hnd & Hin) Hmgr Hone Hmem Hfree Hdom] Hm El En Em Eg Elp Ec Hreg' Hinfo' Emem Hlate Hlate' Hhs Hmo.
  assert (Hlook : forall m' y, managers w' !! m' = Some y -> (m' = m /\ y = x') \/ (m' <> m /\ managers w !! m' = Some y)).
  { intros m' y. rewrite Em. destruct (decide (m' = m)) as [-> |Hne].
    - rewrite lookup_insert_eq. intros [= <-]. by left.
    - rewrite lookup_insert_ne by done. by right. }
  constructor; try done.
  - exists ms. rewrite Eg, Em. split_and!; [|done|].
    + eapply chain_ext; [|exact Hms]. intros m' _. destruct (decide (m' = m)) as [-> |Hne].
      * rewrite lookup_insert_eq, Hm. cbn. by rewrite En.
      * by rewrite lookup_insert_ne.
    + intros m'. rewrite <- Hin. destruct (decide (m' = m)) as [-> |Hne]; [|by rewrite lookup_insert_ne].
      rewrite lookup_insert_eq, Hm. split; by eexists.
  - intros m' y [[-> ->]|[Hne Hy]]%Hlook.
    + exists ls'. by rewrite El, Emem, lookup_insert_eq.
    + destruct (Hmgr m' y Hy) as (ls & Hls & [Hch Hcnt (lp & b & Hlp & Hrest) Htim]).
      assert (Hl : mg_loop y <> mg_loop x) by (intros E; apply Hne; by eapply Hone).
      exists ls. rewrite Emem, lookup_insert_ne by done. split; [done|]. constructor.
      * intros k. eapply dchain_ext; [|exact (Hch k)]. intros a Ha. by rewrite (Hhs k _ _ a Hl Hls Ha).
      * intros k. rewrite Hcnt. f_equal. symmetry. apply active_handles_ext. intros a Ha.
        by rewrite Hinfo, Hinfo', !lookup_fmap, (Hhs k _ _ a Hl Hls Ha).
      * exists lp, b. by rewrite Elp, lookup_insert_ne.
      * intros _. apply Htim. rewrite bool_decide_false; [done|]. intros E. destruct Hlate; congruence.
  - intros m1 m2 y1 y2 [[-> ->]|[Hne1 Hy1]]%Hlook [[-> ->]|[Hne2 Hy2]]%Hlook; rewrite ?El; intros E; eauto.
  - intros loop. rewrite Emem. destruct (decide (loop = mg_loop x)) as [-> |Hne].
    + intros _. exists m, x'. by rewrite Em, lookup_insert_eq.
    + rewrite lookup_insert_ne by done. intros Hs. destruct (Hmem loop Hs) as (m' & y & Hy & Hl). exists m', y.
      rewrite Em, lookup_insert_ne; [done|]. intros <-. congruence.
  - intros loop lp. rewrite Emem, Elp. destruct (decide (loop = mg_loop x)) as [-> |Hne].
    + by rewrite lookup_insert_eq.
    + rewrite !lookup_insert_ne by done. apply Hfree.
  - rewrite Elp, dom_insert_L, <- Hdom. destruct (Hmgr m x Hm) as (ls & _ & Hmo'). destruct (mo_loop _ _ _ _ _ _ _ Hmo') as (lp & b & Hlp & _).
    apply elem_of_dom_2 in Hlp. set_solver.
Qed.

(** *** Programs on one cell *)

Lemma wp_the_loop (Q : loopyLoop K T -> idleWorld -> Prop) l w x : loops w !! l = Some x -> Q x w -> wp (the_loop l) Q w.
Proof using Type. intros Hn HQ. unfold the_loop. apply wp_bind, wp_get. by rewrite Hn. Qed.
Lemma wp_the_mgr (Q : loopyIdleManager -> idleWorld -> Prop) m w x : managers w !! m = Some x -> Q x w -> wp (the_mgr m) Q w.
Proof using Type. intros Hn HQ. unfold the_mgr. apply wp_bind, wp_get. by rewrite Hn. Qed.
Lemma wp_the_handle (Q : loopyHandle -> idleWorld -> Prop) k a w x :
  pget k (handles w) !! a = Some x -> Q x w -> wp (the_handle k a) Q w.
Proof using Type. intros Hn HQ. unfold the_handle. apply wp_bind, wp_get. by rewrite Hn. Qed.
Lemma wp_set_mgr f (Q : unit -> idleWorld -> Prop) m w :
  is_Some (managers w !! m) -> Q tt (w <| managers ::= alter f m |>) -> wp (set_mgr m f) Q w.
Proof using Type. intros [x Hn] HQ. unfold set_mgr. apply wp_bind. by eapply wp_the_mgr. Qed.
Lemma wp_set_handle f (Q : unit -> idleWorld -> Prop) k a w :
  is_Some (pget k (handles w) !! a) -> Q tt (w <| handles ::= pset k (alter f a) |>) -> wp (set_handle k a f) Q w.
Proof using Type. intros [x Hn] HQ. unfold set_handle. apply wp_bind. by eapply wp_the_handle. Qed.

(** The managers of [w] are still there in [w']. *)
Definition kept (w w' : idleWorld) : Prop :=
  forall m x, managers w !! m = Some x -> exists x', managers w' !! m = Some x' /\ mg_loop x' = mg_loop x.

(** As far as their loops still have one. *)
Definition kept_in (r : registry) (w w' : idleWorld) : Prop :=
  forall m x, managers w !! m = Some x -> is_Some (members r !! mg_loop x) -> exists x', managers w' !! m = Some x' /\ mg_loop x' = mg_loop x.

Lemma kept_same w w' : managers w' = managers w -> kept w w'.
Proof using Type. intros E m x Hm. exists x. by rewrite E. Qed.

Lemma kept_trans w1 w2 w3 : kept w1 w2 -> kept w2 w3 -> kept w1 w3.
Proof using Type. intros H1 H2 m x Hm. destruct (H1 m x Hm) as (y & Hy & <-). by apply H2. Qed.

Lemma kept_kept_in r w w' : kept w w' -> kept_in r w w'.
Proof using Type. intros H m x Hm _. by apply H. Qed.

Lemma kept_insert w w' m x x' :
  managers w !! m = Some x -> mg_loop x' = mg_loop x -> managers w' = <[m := x']> (managers w) -> kept w w'.
Proof using Type.
  intros Hm El E m' y Hy. rewrite E. destruct (decide (m' = m)) as [-> |Hne].
  - exists x'. rewrite lookup_insert_eq. split; [done|]. congruence.
  - exists y. by rewrite lookup_insert_ne.
Qed.

(** *** The timer *)

Lemma updateTimer_ok hs late k (w : idleWorld) r m x :
  idle_inv hs late w r -> managers w !! m = Some x -> late = None \/ (late = Some m /\ k = KIdle) ->
  wp (updateTimer k m) (fun _ w' => handles w' = handles w /\ calls w' = calls w /\ kept w w' /\ idle_inv hs None w' r) w.
Proof using All.
  intros H Hm Hlate. assert (Hlate' : late = None \/ late = Some m) by tauto.
  destruct (inv_mgr _ _ _ _ H m x Hm) as (ls & Hls & Hmo). pose proof Hmo as [Hch Hcnt (lp & b & Hlp & Hb & Hbef & Haft & Hob & Hoa & Htim) _].
  assert (Hfin : forall x' lp' w', mg_loop x' = mg_loop x -> mg_next x' = mg_next x -> lists x' = lists x ->
    activeCount x' = activeCount x -> origBefore x' = origBefore x -> origAfter x' = origAfter x ->
    lp_before lp' = lp_before lp -> lp_after lp' = lp_after lp -> (idleTimerActive x' = true -> is_Some (lp_timer lp')) ->
    (idleTimerActive x' = true -> 0 < of_idle (activeCount x)) ->
    (0 < of_idle (activeCount x) -> idleTimerActive x' = true \/ wheel_fails) ->
    managers w' = <[m := x']> (managers w) -> g_managers w' = g_managers w -> loops w' = <[mg_loop x := lp']> (loops w) ->
    calls w' = calls w -> kept w w' /\ idle_inv hs None w' r).
  { intros x' lp' w' E1 E2 E3 E4 E5 E6 E7 E8 Ht Ht1 Ht2 Em Eg El Ec. split; [by eapply kept_insert|].
    eapply (inv_step hs hs late None w w' r r m x x' lp' ls); try done.
    - by rewrite Ec, (inv_calls _ _ _ _ H).
    - by eapply inv_registry.
    - by eapply inv_info.
    - by rewrite insert_id.
    - by left.
    - constructor; rewrite ?E1, ?E3, ?E4; try done. exists lp', b. rewrite El, lookup_insert_eq, E5, E6, E7, E8. by split_and!. }
  assert (Hsame : (idleTimerActive x = true -> 0 < of_idle (activeCount x)) ->
    (0 < of_idle (activeCount x) -> idleTimerActive x = true \/ wheel_fails) -> kept w w /\ idle_inv hs None w r).
  { intros Ht1 Ht2. apply (Hfin x lp w); try done; by rewrite insert_id. }
  destruct k; [|apply wp_ret; split_and!; try done; [by apply kept_same|destruct Hlate as [-> |[_ [=]]]; done]..].
  cbn [updateTimer]. unfold idleUpdateTimer. apply wp_bind. eapply wp_the_mgr; [done|].
  destruct (Nat.ltb_spec 0 (of_idle (activeCount x))), (idleTimerActive x) eqn:Eact; cbn [negb andb].
  - rewrite (proj2 (Nat.eqb_neq _ 0)) by lia. cbn [andb]. apply wp_ret. do 2 (split; [done|]). apply Hsame; [done|]. by left.
  - apply wp_bind. eapply wp_the_loop; [done|]. unfold loopyRegisterTimer.
    destruct (tw_register _ _ _ _ _) as [t' id] eqn:Ereg. apply wp_bind, wp_modify, wp_bind, wp_set_mgr; [by eexists|].
    cbn [managers]. destruct (Z.eqb_spec id 0) as [-> |Hid]; cbn [negb pwhen].
    + apply wp_ret. do 2 (split; [done|]).
      eapply (Hfin (x <| idleTimerId := 0%Z |>) (lp <| lp_timer := Some t' |>)); try done.
      * intros _. right. do 5 eexists. by rewrite Ereg.
      * cbn. by apply alter_is_insert.
    + apply wp_set_mgr; [cbn; rewrite lookup_alter_eq, Hm; by eexists|]. do 2 (split; [done|]).
      eapply (Hfin (x <| idleTimerId := id |> <| idleTimerActive := true |>) (lp <| lp_timer := Some t' |>)); try done.
      * intros _. by left.
      * cbn. rewrite (alter_is_insert _ m (managers w) x) by done. rewrite (alter_is_insert _ _ _ (x <| idleTimerId := id |>)) by apply lookup_insert_eq.
        by rewrite insert_insert_eq.
  - rewrite (proj2 (Nat.eqb_eq _ 0)) by lia. cbn [andb]. apply wp_bind. unfold unregisterTimer. apply wp_bind. eapply wp_the_loop; [done|].
    destruct (Htim eq_refl) as [t Ht]. unfold loopyUnregisterTimer. rewrite Ht. cbn [mbind option_bind].
    destruct (tw_unregister _ t) as [t' ok]. apply wp_modify, wp_set_mgr; [by eexists|]. do 2 (split; [done|]).
    eapply (Hfin (x <| idleTimerActive := false |>) (lp <| lp_timer := Some t' |>)); try done.
    + intros; lia.
    + cbn. by apply alter_is_insert.
  - rewrite andb_false_r. apply wp_ret. do 2 (split; [done|]). apply Hsame; [congruence|intros; lia].
Qed.

(** *** The list of managers *)

Lemma findManager_ok fuel (w : idleWorld) ms p loop :
  chain mg_next (managers w) p ms -> length ms < fuel ->
  wp (findManager fuel p loop) (fun o w' => w' = w /\
    match o with
    | Some m => exists x, managers w !! m = Some x /\ mg_loop x = loop
    | None => forall m x, m ∈ ms -> managers w !! m = Some x -> mg_loop x <> loop
    end) w.
Proof using Type.
  revert fuel p. induction ms as [|m ms IH]; intros fuel p H Hf; (destruct fuel as [|fuel]; [cbn in Hf; lia|]); cbn [findManager].
  - destruct p; [done|]. apply wp_ret. split; [done|]. intros m x Hm. by apply elem_of_nil in Hm.
  - destruct H as (-> & x & Hx & Hc). apply wp_bind. eapply wp_the_mgr; [done|].
    destruct (Nat.eqb_spec (mg_loop x) loop) as [E|E]; [apply wp_ret; split; [done|]; by exists x|].
    eapply wp_mono; [apply IH; [done|cbn in Hf; lia]|]. cbv beta. intros o w' [-> Ho]. split; [done|].
    destruct o as [m'|]; [done|]. intros m' x' [-> |Hm']%elem_of_cons Hx'; [congruence|eauto].
Qed.

Lemma idleGetManager_ok hs late (w : idleWorld) r loop :
  idle_inv hs late w r -> wp (idleGetManager loop) (fun o w' => w' = w /\
    match o with
    | Some m => exists x, managers w !! m = Some x /\ mg_loop x = loop
    | None => members r !! loop = None
    end) w.
Proof using Type.
  intros H. destruct (inv_ms _ _ _ _ H) as (ms & Hms & Hnd & Hin). unfold idleGetManager. apply wp_bind, wp_get.
  eapply wp_mono; [eapply findManager_ok; [done|]; pose proof (chain_size _ _ _ _ Hms Hnd); lia|]. cbv beta. intros o w' [-> Ho].
  split; [done|]. destruct o as [m|]; [done|]. apply eq_None_not_Some. intros Hs.
  destruct (inv_members _ _ _ _ H loop Hs) as (m & x & Hx & E). eapply Ho; [apply Hin; by eexists|done..].
Qed.

Lemma idleGetManager_at hs late (w w1 : idleWorld) r m x :
  idle_inv hs late w r -> managers w1 = managers w -> g_managers w1 = g_managers w -> managers w !! m = Some x ->
  wp (idleGetManager (mg_loop x)) (fun o w' => w' = w1 /\ o = Some m) w1.
Proof using Type.
  intros H Em Eg Hm. destruct (inv_ms _ _ _ _ H) as (ms & Hms & Hnd & Hin). unfold idleGetManager. apply wp_bind, wp_get.
  rewrite <- Em, <- Eg in Hms. eapply wp_mono; [eapply findManager_ok; [done|]; pose proof (chain_size _ _ _ _ Hms Hnd); lia|].
  cbv beta. intros o w' [-> Ho]. split; [done|]. rewrite Em in Ho. destruct o as [m'|].
  - destruct Ho as (y & Hy & E). f_equal. by eapply inv_one.
  - exfalso. eapply Ho; [apply Hin; by exists x|done..].
Qed.

Lemma idleCreateManager_ok hs (w : idleWorld) r loop ok :
  idle_inv hs None w r -> loop ∈ dom base ->
  wp (idleCreateManager loop ok) (fun o w' => handles w' = handles w /\ calls w' = calls w /\ kept w w' /\
    match o with
    | None => ok = false /\ members r !! loop = None /\ w' = w
    | Some m => (ok = true \/ is_Some (members r !! loop)) /\ (exists x, managers w' !! m = Some x /\ mg_loop x = loop) /\
        idle_inv hs None w' (r <| members ::= <[loop := lists_of r loop]> |>)
    end) w.
Proof using All.
  intros H Hl. unfold idleCreateManager. eapply wp_seq; [by eapply idleGetManager_ok|]. cbv beta. intros o w' [-> Ho].
  destruct o as [m|].
  { destruct Ho as (x & Hx & <-). apply wp_ret. destruct (inv_mgr _ _ _ _ H m x Hx) as (ls & Hls & _). split_and!; try done.
    - by apply kept_same.
    - right. by eexists.
    - by exists x.
    - unfold lists_of. rewrite Hls. cbn [default]. by rewrite members_same. }
  destruct ok; cbn [negb]; [|apply wp_ret; split_and!; try done; by apply kept_same]. apply wp_bind, wp_get. set (m := fresh _).
  assert (Hm : managers w !! m = None) by apply not_elem_of_dom, is_fresh. clearbody m.
  assert (Hlp : is_Some (loops w !! loop)) by (apply elem_of_dom; by rewrite (inv_dom _ _ _ _ H)). destruct Hlp as [lp Hlp].
  apply wp_bind. eapply wp_the_loop; [done|]. do 2 apply wp_bind, wp_modify. apply wp_bind, wp_set_mgr.
  { cbn. rewrite lookup_insert_eq. by eexists. }
  apply wp_bind, wp_modify, wp_ret. cbn. split_and!; try done; [|by left| |].
  { intros m' y Hy. exists y. cbn. rewrite lookup_alter_ne, lookup_insert_ne by (intros <-; congruence). done. }
  { rewrite lookup_alter_eq, lookup_insert_eq. eexists. by split. }
  destruct (inv_free _ _ _ _ H loop lp Ho Hlp) as (b & Hb & Ebef & Eaft).
  set (x := Manager loop (pconst None) (pconst 0) (lp_before lp) (lp_after lp) 0 false (g_managers w)).
  set (lp' := loopySetAfterSleepCallback idleAfterSleepCallback_ptr (Z.of_nat m) (loopySetBeforeSleepCallback idleBeforeSleepCallback_ptr (Z.of_nat m) lp)).
  match goal with |- idle_inv _ _ ?v _ =>
    assert (Em : managers v = <[m := x]> (managers w));
      [cbn; rewrite (alter_is_insert _ m _ (x <| mg_next := None |>)) by apply lookup_insert_eq; by rewrite insert_insert_eq|];
    assert (Eg : g_managers v = Some m) by done; assert (El : loops v = <[loop := lp']> (loops w)) by done;
    assert (Ec : calls v = calls w) by done; generalize dependent v
  end.
  intros w' Em Eg El Ec.
  pose proof H as [Hreg Hcalls Hinfo (ms & Hms & Hnd & Hin) Hmgr Hone Hmem Hfree Hdom].
  assert (Hne : forall m' y, managers w !! m' = Some y -> m' <> m /\ mg_loop y <> loop).
  { intros m' y Hy. split; [intros ->; congruence|]. intros E. destruct (Hmgr m' y Hy) as (ls & Hls & _). congruence. }
  assert (Els : lists_of r loop = pconst []) by (unfold lists_of; by rewrite Ho).
  constructor; rewrite ?Em, ?El, ?Eg, ?Ec; cbn; try done.
  - by apply registry_ok_empty.
  - exists (m :: ms). split_and!.
    + split; [done|]. exists x. rewrite lookup_insert_eq. split; [done|]. cbn. eapply chain_ext; [|exact Hms].
      intros m' Hm'. rewrite lookup_insert_ne; [done|]. intros <-. apply Hin in Hm' as [? ?]. congruence.
    + apply NoDup_cons. split; [|done]. intros Hm'. apply Hin in Hm' as [? ?]. congruence.
    + intros m'. rewrite elem_of_cons, <- Hin. destruct (decide (m' = m)) as [-> |Hn].
      * rewrite lookup_insert_eq. split; [by left|by eexists].
      * rewrite lookup_insert_ne by done. tauto.
  - intros m' y. destruct (decide (m' = m)) as [-> |Hn].
    + rewrite lookup_insert_eq. intros [= <-]. exists (pconst []). cbn. rewrite lookup_insert_eq, Els. split; [done|]. constructor.
      * by intros [].
      * by intros [].
      * exists lp', b. rewrite El. cbn. rewrite lookup_insert_eq. by split_and!.
      * cbn. intros _. split; [done|intros; lia].
    + rewrite lookup_insert_ne by done. intros Hy. destruct (Hne m' y Hy) as [_ Hly]. destruct (Hmgr m' y Hy) as (ls & Hls & Hmo).
      exists ls. cbn. rewrite lookup_insert_ne by done. split; [done|]. destruct Hmo as [Hch Hcnt (lp1 & b' & Hlp' & Hrest) Htim].
      constructor; try done. exists lp1, b'. rewrite El, lookup_insert_ne by done. done.
  - intros m1 m2 y1 y2. destruct (decide (m1 = m)) as [-> |Hn1], (decide (m2 = m)) as [-> |Hn2];
      rewrite ?lookup_insert_eq, ?(lookup_insert_ne _ m) by done; try done.
    + intros [= <-] H2 E. destruct (Hne _ _ H2) as [_ []]. done.
    + intros H1 [= <-] E. destruct (Hne _ _ H1) as [_ []]. done.
    + eauto.
  - intros l. destruct (decide (l = loop)) as [-> |Hn].
    + intros _. exists m, x. by rewrite lookup_insert_eq.
    + rewrite lookup_insert_ne by done. intros Hs. destruct (Hmem l Hs) as (m' & y & Hy & <-). exists m', y.
      rewrite lookup_insert_ne; [done|]. intros <-. congruence.
  - intros l lp1. destruct (decide (l = loop)) as [-> |Hn]; [by rewrite lookup_insert_eq|].
    rewrite !lookup_insert_ne by done. apply Hfree.
  - rewrite dom_insert_L, <- Hdom. apply elem_of_dom_2 in Hlp. set_solver.
Qed.

Lemma findPrevious_ok fuel (w : idleWorld) ms p m :
  chain mg_next (managers w) p ms -> NoDup ms -> m ∈ ms -> p <> Some m -> length ms < fuel ->
  wp (findPrevious fuel p m) (fun o w' => w' = w /\ exists l1 q l2, o = Some q /\ ms = l1 ++ q :: m :: l2) w.
Proof using Type.
  revert fuel p. induction ms as [|b ms IH]; intros fuel p H Hnd Hm Hp Hf; [by apply elem_of_nil in Hm|].
  destruct fuel as [|fuel]; [cbn in Hf; lia|]. cbn [findPrevious]. destruct H as (-> & x & Hx & Hc).
  apply NoDup_cons in Hnd as [Hb Hnd]. apply elem_of_cons in Hm as [-> |Hm]; [done|].
  apply wp_bind. eapply wp_the_mgr; [done|]. case_bool_decide as E.
  - apply wp_ret. split; [done|]. exists [], b. rewrite E in Hc. destruct ms as [|c ms]; [done|]. destruct Hc as [[= ->] _]. by exists ms.
  - eapply wp_mono; [apply IH; try done; cbn in Hf; lia|]. cbv beta. intros o w' [-> (l1 & q & l2 & -> & ->)]. split; [done|].
    by exists (b :: l1), q, l2.
Qed.

Lemma setBefore_base loop b (lp : loopyLoop K T) : base !! loop = Some b -> lp_before (setAfter (snd b) (setBefore (fst b) lp)) = fst b /\
  lp_after (setAfter (snd b) (setBefore (fst b) lp)) = snd b.
Proof using All.
  intros Hb. destruct b as [o1 o2]. unfold setAfter, setBefore, loopySetAfterSleepCallback, loopySetBeforeSleepCallback, sleepCallback. cbn.
  split; [destruct o1 as [[c d]|]|destruct o2 as [[c d]|]]; cbn; try done; destruct (Z.eqb_spec c 0) as [-> |]; try done;
    destruct (base_set loop _ d Hb); done.
Qed.

(** The manager [m] is taken out: from [w] to [w2] its loop got its callbacks
    back and the links around it changed. *)
Lemma manager_gone hs (w w2 : idleWorld) r m x ls (ms ms' : list nat) b lp lp' :
  idle_inv hs None w r -> managers w !! m = Some x -> members r !! mg_loop x = Some ls -> (forall k, pget k ls = []) ->
  (forall m, is_Some (managers w !! m) <-> m ∈ ms) -> base !! mg_loop x = Some b -> loops w !! mg_loop x = Some lp ->
  lp_before lp' = fst b /\ lp_after lp' = snd b ->
  chain mg_next (managers w2) (g_managers w2) ms' -> NoDup ms' -> (forall m', m' ∈ ms' <-> m' ∈ ms /\ m' <> m) ->
  (forall m' y, m' <> m -> managers w2 !! m' = Some y -> exists y', managers w !! m' = Some y' /\ y = y' <| mg_next := mg_next y |>) ->
  (forall m', m' <> m -> is_Some (managers w !! m') -> is_Some (managers w2 !! m')) ->
  loops w2 = <[mg_loop x := lp']> (loops w) -> calls w2 = calls w ->
  idle_inv hs None (w2 <| managers ::= delete m |>) (r <| members ::= delete (mg_loop x) |>).
Proof using All.
  intros [Hreg Hcalls Hinfo _ Hmgr Hone Hmem Hfree Hdom] Hm Hls Hnil Hin Hb Hlp Hlp' Hc Hnd' Hms' Hm2 Hm2' El Ec.
  assert (Hother : forall m' y, m' <> m -> managers w !! m' = Some y -> mg_loop y <> mg_loop x).
  { intros m' y Hne Hy E. apply Hne. by eapply Hone. }
  constructor; cbn; try done.
  - destruct Hreg as [H1 H2 H3]. constructor; cbn.
    + intros k l ls' [_ Hl]%lookup_delete_Some. eauto.
    + intros k l ls' a [_ Hl]%lookup_delete_Some. eauto.
    + intros k a h Ha. destruct (H3 k a h Ha) as (ls' & Hl & Hal). exists ls'. rewrite lookup_delete_ne; [done|].
      intros E. rewrite <- E, Hls in Hl. injection Hl as <-. rewrite Hnil in Hal. by apply elem_of_nil in Hal.
  - by rewrite Ec.
  - exists ms'. split_and!; [|done|].
    + eapply chain_ext; [|exact Hc]. intros m' Hm'. rewrite lookup_delete_ne; [done|]. intros <-. by apply Hms' in Hm' as [_ ?].
    + intros m'. rewrite Hms', <- Hin. destruct (decide (m' = m)) as [-> |Hne].
      * rewrite lookup_delete_eq. split; [by intros [? ?]|by intros [_ ?]].
      * rewrite lookup_delete_ne by done. split; [|by intros [? _]; apply Hm2']. intros [y Hy].
        destruct (Hm2 m' y Hne Hy) as (y' & -> & _). split; [by eexists|done].
  - intros m' y [Hne Hy]%lookup_delete_Some. destruct (Hm2 m' y) as (y' & Hy' & ->); [done..|].
    destruct (Hmgr m' y' Hy') as (ls1 & Hls1 & [Hch1 Hcnt1 (lp1 & b1 & Hlp1 & Hrest) Htim1]). exists ls1. cbn.
    rewrite lookup_delete_ne by (apply not_eq_sym; by eapply Hother). split; [done|]. constructor; try done.
    exists lp1, b1. cbn. rewrite El, lookup_insert_ne by (apply not_eq_sym; by eapply Hother). done.
  - intros m1 m2 y1 y2 [Hn1 Hy1]%lookup_delete_Some [Hn2 Hy2]%lookup_delete_Some E.
    destruct (Hm2 m1 y1) as (y1' & Hy1' & Ey1); [done..|]. destruct (Hm2 m2 y2) as (y2' & Hy2' & Ey2); [done..|].
    rewrite Ey1, Ey2 in E. cbn in E. by eapply Hone.
  - intros l [ls1 Hl]. apply lookup_delete_Some in Hl as [Hne Hl]. destruct (Hmem l) as (m' & y & Hy & <-); [by eexists|].
    destruct (Hm2' m') as [y' Hy']; [by intros ->; congruence|by eexists|]. exists m', y'.
    rewrite lookup_delete_ne by (intros <-; congruence). split; [done|].
    destruct (Hm2 m' y') as (y2 & Hy2 & ->); [by intros ->; congruence|done|]. cbn. congruence.
  - intros l lp1. rewrite El. destruct (decide (l = mg_loop x)) as [-> |Hne].
    + rewrite lookup_insert_eq. intros _ [= <-]. exists b. destruct Hlp'. done.
    + rewrite lookup_insert_ne, lookup_delete_ne by done. apply Hfree.
  - rewrite El, dom_insert_L, <- Hdom. apply elem_of_dom_2 in Hlp. set_solver.
Qed.

Lemma idleDestroyManager_ok hs (w : idleWorld) r m x ls :
  idle_inv hs None w r -> managers w !! m = Some x -> members r !! mg_loop x = Some ls -> (forall k, pget k ls = []) ->
  wp (idleDestroyManager (Some m)) (fun _ w' => handles w' = handles w /\ calls w' = calls w /\
    (forall m' y, m' <> m -> managers w !! m' = Some y -> exists y', managers w' !! m' = Some y' /\ mg_loop y' = mg_loop y) /\
    idle_inv hs None w' (r <| members ::= delete (mg_loop x) |>)) w.
Proof using All.
  intros H Hm Hls Hnil. pose proof H as [Hreg Hcalls Hinfo (ms & Hms & Hnd & Hin) Hmgr Hone Hmem Hfree Hdom].
  destruct (Hmgr m x Hm) as (ls' & Els & Hmo). assert (ls' = ls) as -> by congruence.
  destruct Hmo as [_ Hcnt (lp & b & Hlp & Hb & _ & _ & Hob & Hoa & _) Htim].
  assert (Hact : idleTimerActive x = false).
  { destruct (idleTimerActive x) eqn:E; [|done]. destruct (Htim eq_refl) as [Ht _]. specialize (Ht eq_refl).
    pose proof (Hcnt KIdle) as Hc. cbn in Hc. pose proof (Hnil KIdle) as Hn. cbn in Hn. rewrite Hn in Hc. cbn in Hc. lia. }
  set (lp' := setAfter (origAfter x) (setBefore (origBefore x) lp)).
  assert (Hlp' : lp_before lp' = fst b /\ lp_after lp' = snd b) by (unfold lp'; rewrite Hob, Hoa; by eapply setBefore_base).
  unfold idleDestroyManager. apply wp_bind. eapply wp_the_mgr; [done|]. rewrite Hact. cbn [pwhen]. apply wp_bind, wp_ret.
  apply wp_bind. eapply wp_the_loop; [done|]. apply wp_bind, wp_modify. apply wp_bind, wp_get. apply wp_bind.
  set (w1 := w <| loops ::= <[mg_loop x := lp']> |>).
  change (wp (if bool_decide (g_managers w = Some m) then modify (fun w => w <| g_managers := mg_next x |>)
       else findPrevious (S (size (managers w))) (g_managers w) m ≫= fun prev =>
         match prev with None => mret tt | Some p => set_mgr p (fun y => y <| mg_next := mg_next x |>) end)
    (fun _ => wp (modify (fun w => w <| managers ::= delete m |>)) (fun _ w' => handles w' = handles w /\ calls w' = calls w /\
      (forall m' y, m' <> m -> managers w !! m' = Some y -> exists y', managers w' !! m' = Some y' /\ mg_loop y' = mg_loop y) /\
      idle_inv hs None w' (r <| members ::= delete (mg_loop x) |>))) w1).
  destruct (bool_decide_reflect (g_managers w = Some m)) as [Eg|Eg].
  - apply wp_modify. cbv beta. apply wp_modify. split_and!; [done..| |].
    { intros m' y Hne Hy. exists y. cbn. by rewrite lookup_delete_ne. }
    pose proof (proj1 (Hin m) (mk_is_Some _ _ Hm)) as Hmm.
    destruct ms as [|m0 ms]; [by apply elem_of_nil in Hmm|].
    destruct Hms as (E0 & x0 & Hx0 & Hc). assert (m0 = m) as -> by congruence. assert (x0 = x) as -> by congruence.
    apply NoDup_cons in Hnd as [Hn0 Hnd].
    eapply (manager_gone _ w (w1 <| g_managers := mg_next x |>) _ _ _ _ (m :: ms) ms b lp lp'); try done.
    + intros m'. rewrite elem_of_cons. split; [|by intros [[? | ?] ?]]. intros Hm'. split; [by right|]. by intros ->.
    + intros m' y Hne Hy. exists y. split; [done|]. by destruct y.
  - eapply wp_seq; [eapply (findPrevious_ok _ w1 ms); try done|].
    + apply Hin. by eexists.
    + pose proof (chain_size _ _ _ _ Hms Hnd). lia.
    + cbv beta. intros o w2 [-> (l1 & q & l2 & -> & ->)].
      assert (Hq : is_Some (managers w !! q)) by (apply Hin; set_solver). destruct Hq as [y Hy].
      apply wp_set_mgr; [by exists y|]. apply wp_modify. split_and!; [done..| |].
      { intros m' z Hne Hz. cbn. rewrite lookup_delete_ne by done. destruct (decide (m' = q)) as [-> |Hnq].
        - rewrite lookup_alter_eq, Hz. by eexists.
        - rewrite lookup_alter_ne by done. by exists z. }
      apply NoDup_app in Hnd as Hnd'. destruct Hnd' as (_ & Hd & Hnd2). apply NoDup_cons in Hnd2 as [Hq Hnd2]. apply NoDup_cons in Hnd2 as [Hm2 Hnd2].
      eapply (manager_gone _ w (w1 <| managers ::= alter (fun y => y <| mg_next := mg_next x |>) q |>) _ _ _ _ _ (l1 ++ q :: l2) b lp lp'); try done.
      * cbn. rewrite (alter_is_insert _ q _ y) by done. by eapply chain_drop.
      * eapply sublist_NoDup; [exact Hnd|]. apply sublist_app; [done|]. do 2 constructor. done.
      * intros m'. rewrite !elem_of_app, !elem_of_cons. split; [|naive_solver].
        intros Hm'. split; [naive_solver|]. intros ->. destruct Hm' as [Hm'|[-> |Hm']]; [apply (Hd m Hm'); set_solver|set_solver|done].
      * intros m' z Hne. cbn. destruct (decide (m' = q)) as [-> |Hnq].
        -- rewrite lookup_alter_eq, Hy. intros [= <-]. exists y. by split.
        -- rewrite lookup_alter_ne by done. intros Hz. exists z. split; [done|]. by destruct z.
      * intros m' Hne [z Hz]. cbn. destruct (decide (m' = q)) as [-> |Hnq].
        -- rewrite lookup_alter_eq, Hy. by eexists.
        -- rewrite lookup_alter_ne by done. by eexists.
Qed.

(** *** Stopping and restarting *)

Lemma inv_handle (w : idleWorld) r k a h :
  idle_ok w r -> pget k (handles w) !! a = Some h ->
  pget k (info r) !! a = Some (strip h) /\
  exists m x ls, managers w !! m = Some x /\ mg_loop x = hd_loop h /\ members r !! hd_loop h = Some ls /\ a ∈ pget k ls /\ NoDup (pget k ls) /\
    mgr_ok (handles w) w r true m x ls.
Proof using Type.
  intros H Ha. assert (Hi : pget k (info r) !! a = Some (strip h)) by (by rewrite (inv_info _ _ _ _ H), lookup_fmap, Ha). split; [done|].
  destruct (rg_handle _ (inv_registry _ _ _ _ H) k a _ Hi) as (ls & Hls & Hal). cbn in Hls.
  destruct (inv_members _ _ _ _ H (hd_loop h)) as (m & x & Hx & El); [by eexists|].
  destruct (inv_mgr _ _ _ _ H m x Hx) as (ls' & Hls' & Hmo). rewrite El in Hls'. assert (ls' = ls) as -> by congruence.
  exists m, x, ls. split_and!; try done. by eapply rg_nodup; [eapply inv_registry|].
Qed.

Lemma set_active_ok (w : idleWorld) r k a b h m x ls :
  idle_ok w r -> pget k (handles w) !! a = Some h -> hd_active h = negb b -> managers w !! m = Some x -> mg_loop x = hd_loop h ->
  members r !! hd_loop h = Some ls -> a ∈ pget k ls ->
  let w' := w <| handles ::= pset k (alter (fun h => h <| hd_active := b |>) a) |>
              <| managers ::= alter (fun x => x <| activeCount ::= pset k (if b then S else pred) |>) m |> in
  idle_inv (handles w') (match k with KIdle => Some m | _ => None end) w' (ref_active k a b r).
Proof using All.
  intros H Ha Hact Hm El Hls Hal w'. pose proof (inv_registry _ _ _ _ H) as Hreg.
  destruct (inv_handle w r k a h H Ha) as (Hi & _). destruct (inv_mgr _ _ _ _ H m x Hm) as (ls' & Hls' & Hmo).
  assert (ls' = ls) as -> by congruence. destruct Hmo as [Hch Hcnt (lp & b0 & Hlp & Hrest) Htim].
  assert (Hal' : hi_active <$> pget k (info r) !! a = Some (negb b)) by (rewrite Hi; cbn; by rewrite Hact).
  destruct (active_count k a b r (pget k ls) (rg_nodup _ Hreg k _ ls Hls) Hal Hal') as [Hn _].
  eapply (inv_step (handles w) (handles w') None _ w w' r (ref_active k a b r) m x (x <| activeCount ::= pset k (if b then S else pred) |>) lp ls);
    try done.
  - cbn. by apply alter_is_insert.
  - cbn. by rewrite insert_id.
  - apply (inv_calls _ _ _ _ H).
  - by apply ref_active_ok.
  - apply info_alter; [done|]. by eapply inv_info.
  - cbn. by rewrite insert_id.
  - by left.
  - destruct k; [by right|by left..].
  - intros k' loop ls' a' Hne Hls1 Ha'. cbn. destruct (decide (k' = k)) as [-> |Hk]; [|by rewrite pget_pset_ne].
    rewrite pget_pset_eq, lookup_alter_ne; [done|]. intros <-. apply Hne. rewrite El. by eapply (other_loop r k loop ls' _ ls).
  - constructor.
    + intros k'. cbn. destruct (decide (k' = k)) as [-> |Hk]; [|by rewrite pget_pset_ne].
      rewrite pget_pset_eq, (alter_is_insert _ a _ h) by done. by eapply dchain_update.
    + intros k'. cbn. destruct (decide (k' = k)) as [-> |Hk].
      * rewrite pget_pset_eq, Hn, Hcnt. done.
      * rewrite pget_pset_ne, Hcnt by done. f_equal. symmetry. apply active_count_other. naive_solver.
    + exists lp, b0. done.
    + destruct k; cbn; [by rewrite bool_decide_true|done..].
Qed.

Lemma ref_active_same k a b r : hi_active <$> pget k (info r) !! a = Some b -> ref_active k a b r = r.
Proof using Type.
  intros H. destruct r as [ms i c]. cbn in H. change (Registry ms (pset k (alter (fun h => h <| hi_active := b |>) a) i) c = Registry ms i c).
  f_equal. apply pset_id, map_eq. intros a'.
  destruct (decide (a' = a)) as [-> |Hne]; [|by rewrite lookup_alter_ne].
  rewrite lookup_alter_eq. destruct (pget k i !! a) as [[]|]; [|done]. cbn in *. by injection H as ->.
Qed.

(** What [handleStop] and [handleRestart] have in common. *)
Lemma change_active_ok (w : idleWorld) r k a b h m x ls (Q : unit -> idleWorld -> Prop) :
  idle_ok w r -> pget k (handles w) !! a = Some h -> hd_active h = negb b -> managers w !! m = Some x -> mg_loop x = hd_loop h ->
  members r !! hd_loop h = Some ls -> a ∈ pget k ls ->
  (forall w', kept w w' -> idle_ok w' (ref_active k a b r) -> Q tt w') ->
  wp (set_mgr m (fun x => x <| activeCount ::= pset k (if b then S else pred) |>) ≫= fun _ => updateTimer k m) Q
     (w <| handles ::= pset k (alter (fun h => h <| hd_active := b |>) a) |>).
Proof using All.
  intros H Ha Hact Hm El Hls Hal HQ. apply wp_bind, wp_set_mgr; [by exists x|].
  pose proof (set_active_ok w r k a b h m x ls H Ha Hact Hm El Hls Hal) as Hinv.
  eapply wp_mono; [eapply (updateTimer_ok _ _ k _ _ m); [exact Hinv| |]|].
  - cbn. by rewrite lookup_alter_eq, Hm.
  - destruct k; [by right|by left..].
  - cbv beta. intros [] w' (Eh & _ & Hk & Hok). apply HQ; [|unfold idle_ok; by rewrite Eh].
    eapply kept_trans; [|exact Hk]. eapply kept_insert; [exact Hm| |cbn; by apply alter_is_insert]. done.
Qed.

Lemma handleStop_ok k a (w : idleWorld) r :
  idle_ok w r -> is_Some (pget k (info r) !! a) ->
  wp (handleStop k (Some a)) (fun _ w' => kept w w' /\ idle_ok w' (ref_active k a false r)) w.
Proof using All.
  intros H Ha. destruct (pget k (handles w) !! a) as [h|] eqn:Eh.
  2: { rewrite (inv_info _ _ _ _ H), lookup_fmap, Eh in Ha. by destruct Ha. }
  destruct (inv_handle w r k a h H Eh) as (Hi & m & x & ls & Hm & El & Hls & Hal & Hnd & Hmo).
  unfold handleStop. apply wp_bind. eapply wp_the_handle; [done|]. destruct (hd_active h) eqn:Eact; cbn [negb].
  2: { apply wp_ret. rewrite ref_active_same; [split; [by apply kept_same|done]|]. rewrite Hi. cbn. by rewrite Eact. }
  apply wp_bind, wp_set_handle; [by exists h|]. set (w1 := w <| handles ::= _ |>).
  eapply wp_seq with (P := fun o w' => w' = w1 /\ o = Some m).
  { rewrite <- El. by eapply idleGetManager_at. }
  cbv beta. intros o w' [-> ->]. apply wp_bind. eapply wp_the_mgr; [exact Hm|].
  assert (Hpos : 0 < pget k (activeCount x)).
  { rewrite (mo_count _ _ _ _ _ _ _ Hmo). destruct (active_count k a false r (pget k ls) Hnd Hal) as [_ Hp]; [|by apply Hp].
    rewrite Hi. cbn. by rewrite Eact. }
  rewrite (proj2 (Nat.ltb_lt _ _)) by done. by eapply (change_active_ok w r k a false h m x ls).
Qed.

Lemma handleRestart_ok k a (w : idleWorld) r :
  idle_ok w r -> is_Some (pget k (info r) !! a) ->
  wp (handleRestart k (Some a)) (fun b w' => kept w w' /\ b = negb (bool_decide (hi_active <$> pget k (info r) !! a = Some true)) /\
    idle_ok w' (ref_active k a true r)) w.
Proof using All.
  intros H Ha. destruct (pget k (handles w) !! a) as [h|] eqn:Eh.
  2: { rewrite (inv_info _ _ _ _ H), lookup_fmap, Eh in Ha. by destruct Ha. }
  destruct (inv_handle w r k a h H Eh) as (Hi & m & x & ls & Hm & El & Hls & Hal & Hnd & Hmo). rewrite Hi. cbn [fmap option_fmap option_map strip hi_active].
  unfold handleRestart. apply wp_bind. eapply wp_the_handle; [done|]. destruct (hd_active h) eqn:Eact; cbn [negb].
  { apply wp_ret. split; [by apply kept_same|]. split; [by rewrite bool_decide_true|]. rewrite ref_active_same; [done|]. rewrite Hi. cbn. by rewrite Eact. }
  apply wp_bind, wp_set_handle; [by exists h|]. set (w1 := w <| handles ::= _ |>).
  eapply wp_seq with (P := fun o w' => w' = w1 /\ o = Some m).
  { rewrite <- El. by eapply idleGetManager_at. }
  cbv beta. intros o w' [-> ->]. apply wp_bind. eapply (change_active_ok w r k a true h m x ls); try done.
Qed.

(** *** New handles *)

Lemma ref_start_ok r k loop a i : registry_ok r -> pget k (info r) !! a = None -> hi_loop i = loop ->
  registry_ok (r <| members ::= <[loop := pset k (cons a) (lists_of r loop)]> |> <| info ::= pset k <[a := i]> |>).
Proof using Type.
  intros Hr Ha Hi. pose proof (registry_ok_empty r loop Hr) as [H1 H2 H3]. cbn in H1, H2, H3.
  assert (Hls : forall k' a', a' ∈ pget k' (lists_of r loop) -> hi_loop <$> pget k' (info r) !! a' = Some loop).
  { intros k' a'. eapply (H2 k' loop). apply lookup_insert_eq. }
  constructor; cbn.
  - intros k' l ls. destruct (decide (l = loop)) as [-> |Hne].
    + rewrite lookup_insert_eq. intros [= <-]. destruct (decide (k' = k)) as [-> |Hk].
      * rewrite pget_pset_eq. apply NoDup_cons. split; [|eapply H1; apply lookup_insert_eq]. intros Hal. apply Hls in Hal. by rewrite Ha in Hal.
      * rewrite pget_pset_ne by done. eapply H1. apply lookup_insert_eq.
    + rewrite lookup_insert_ne by done. eapply rg_nodup. done.
  - intros k' l ls a' Hl Ha'. assert (Hold : hi_loop <$> pget k' (info r) !! a' = Some l \/ (k' = k /\ a' = a /\ l = loop)).
    { destruct (decide (l = loop)) as [-> |Hne].
      - rewrite lookup_insert_eq in Hl. injection Hl as <-. destruct (decide (k' = k)) as [-> |Hk].
        + rewrite pget_pset_eq in Ha'. apply elem_of_cons in Ha' as [-> |Ha']; [by right|left; by apply Hls].
        + rewrite pget_pset_ne in Ha' by done. left. by apply Hls.
      - rewrite lookup_insert_ne in Hl by done. left. by eapply rg_member. }
    destruct Hold as [Hold|(-> & -> & ->)]; [|rewrite pget_pset_eq, lookup_insert_eq; cbn; by rewrite Hi].
    destruct (decide (k' = k)) as [-> |Hk]; [|by rewrite pget_pset_ne]. rewrite pget_pset_eq, lookup_insert_ne; [done|]. intros <-.
    by rewrite Ha in Hold.
  - intros k' a' h Hh. destruct (decide (k' = k /\ a' = a)) as [[-> ->]|Hne].
    + rewrite pget_pset_eq, lookup_insert_eq in Hh. injection Hh as <-. rewrite Hi, lookup_insert_eq. eexists. split; [done|].
      rewrite pget_pset_eq. by left.
    + assert (Hold : pget k' (info r) !! a' = Some h).
      { destruct (decide (k' = k)) as [-> |Hk]; [|by rewrite pget_pset_ne in Hh].
        rewrite pget_pset_eq, lookup_insert_ne in Hh; [done|]. intros <-. by apply Hne. }
      destruct (H3 k' a' h Hold) as (ls & Hls' & Hin). destruct (decide (hi_loop h = loop)) as [E|E].
      * rewrite E in *. rewrite lookup_insert_eq in Hls' |- *. injection Hls' as <-. eexists. split; [done|].
        destruct (decide (k' = k)) as [-> |Hk]; [rewrite pget_pset_eq; by right|by rewrite pget_pset_ne].
      * rewrite lookup_insert_ne in Hls' |- * by done. by exists ls.
Qed.

(** A handle [a] is put in front of the list of its manager. *)
Lemma pushed_inv (w w' : idleWorld) r k loop a c d m x ls :
  idle_ok w r -> managers w !! m = Some x -> mg_loop x = loop -> members r !! loop = Some ls ->
  pget k (handles w) !! a = None ->
  handles w' = pset k (fun hs => pushed prev_to hs a (Handle loop c d true (pget k (lists x)) None) (pget k (lists x))) (handles w) ->
  managers w' = <[m := x <| lists ::= pset k (fun _ => Some a) |> <| activeCount ::= pset k S |>]> (managers w) ->
  g_managers w' = g_managers w -> loops w' = loops w -> calls w' = calls w ->
  idle_inv (handles w') (match k with KIdle => Some m | _ => None end) w'
    (r <| members ::= <[loop := pset k (cons a) (lists_of r loop)]> |> <| info ::= pset k <[a := HInfo loop c d true]> |>).
Proof using All.
  intros H Hm El Hls Ha Eh Em Eg Elp Ec. pose proof (inv_registry _ _ _ _ H) as Hreg.
  destruct (inv_mgr _ _ _ _ H m x Hm) as (ls' & Hls' & [Hch Hcnt (lp & b & Hlp & Hrest) Htim]).
  rewrite El in Hls'. assert (ls' = ls) as -> by congruence. clear Hls'.
  assert (Hi : pget k (info r) !! a = None) by (by rewrite (inv_info _ _ _ _ H), lookup_fmap, Ha).
  set (r' := r <| members ::= _ |> <| info ::= _ |>).
  assert (Hold : forall k' l, ~ (k' = k /\ a ∈ l) -> active_handles r' k' l = active_handles r k' l).
  { intros k' l Hn. apply active_handles_ext. intros a' Ha'. cbn. destruct (decide (k' = k)) as [-> |Hk]; [|by rewrite pget_pset_ne].
    rewrite pget_pset_eq, lookup_insert_ne; [done|]. intros <-. by apply Hn. }
  assert (Hal : a ∉ pget k ls) by (intros Hal; pose proof (rg_member _ Hreg k _ ls a Hls Hal) as E; by rewrite Hi in E).
  eapply (inv_step (handles w) (handles w') None _ w w' r r' m x _ lp (pset k (cons a) ls)); try exact Em; try done.
  - by rewrite Elp, insert_id.
  - rewrite Ec. apply (inv_calls _ _ _ _ H).
  - by apply ref_start_ok.
  - intros k'. rewrite Eh. cbn. destruct (decide (k' = k)) as [-> |Hk].
    + rewrite !pget_pset_eq, (inv_info _ _ _ _ H). unfold pushed. destruct (pget k (lists x)); [|by rewrite fmap_insert].
      apply map_eq. intros a'. rewrite lookup_fmap. destruct (decide (a' = n)) as [-> |Hne].
      * rewrite lookup_alter_eq. destruct (decide (n = a)) as [-> |Hna]; [by rewrite !lookup_insert_eq|].
        rewrite !lookup_insert_ne, lookup_fmap by done. by destruct (pget k (handles w) !! n).
      * rewrite lookup_alter_ne by done. destruct (decide (a' = a)) as [-> |Hna]; [by rewrite !lookup_insert_eq|].
        by rewrite !lookup_insert_ne, lookup_fmap.
    + rewrite !pget_pset_ne by done. by eapply inv_info.
  - cbn. rewrite El. unfold lists_of. by rewrite Hls.
  - by left.
  - destruct k; [by right|by left..].
  - intros k' l ls' a' Hne Hls' Ha'. rewrite Eh. destruct (decide (k' = k)) as [-> |Hk]; [|by rewrite pget_pset_ne].
    rewrite pget_pset_eq. apply pushed_lookup.
    + intros ->. pose proof (rg_member _ Hreg k _ ls' a Hls' Ha') as E. by rewrite Hi in E.
    + intros E. apply Hne. rewrite El. eapply (other_loop r k l ls' loop ls a'); try done.
      specialize (Hch k). rewrite <- E in Hch. destruct (pget k ls); [done|]. destruct Hch as [[= ->] _]. by left.
  - constructor; cbn.
    + intros k'. destruct (decide (k' = k)) as [-> |Hk].
      * rewrite Eh, !pget_pset_eq. eapply (dchain_push _ _ next_to prev_to); try done. by eapply rg_nodup.
      * rewrite Eh, !pget_pset_ne by done. apply Hch.
    + intros k'. destruct (decide (k' = k)) as [-> |Hk].
      * rewrite !pget_pset_eq, Hcnt. unfold active_handles at 2. rewrite filter_cons. cbn [info]. rewrite decide_True.
        -- cbn [length]. f_equal. f_equal. symmetry. apply Hold. by intros [_ ?].
        -- cbn. by rewrite pget_pset_eq, lookup_insert_eq.
      * rewrite !pget_pset_ne, Hcnt by done. f_equal. symmetry. apply Hold. by intros [-> _].
    + exists lp, b. by rewrite Elp.
    + destruct k; cbn; [by rewrite bool_decide_true|done..].
Qed.

Lemma world_eq (w w' : idleWorld) :
  loops w = loops w' -> managers w = managers w' -> g_managers w = g_managers w' -> calls w = calls w' ->
  (forall k, pget k (handles w) = pget k (handles w')) -> w = w'.
Proof using Type. intros ? ? ? ? H%per_eq. destruct w, w'. cbn in *. congruence. Qed.

Lemma handleStart_ok k loop c d m1 m2 (w : idleWorld) r :
  idle_ok w r -> match loop with Some l => l ∈ dom base | None => True end ->
  wp (handleStart k loop c d m1 m2) (fun a w' => kept w w' /\ exists r', ref_op (OStart k loop c d m1 m2) r = (r', RHandle a) /\ idle_ok w' r') w.
Proof using All.
  intros H Hl. unfold handleStart. cbn [ref_op]. destruct loop as [loop|]; [|apply wp_ret; split; [by apply kept_same|by eexists]].
  destruct (c =? 0)%Z; [apply wp_ret; split; [by apply kept_same|by eexists]|].
  eapply wp_seq; [by apply (idleCreateManager_ok (handles w) w r loop m1)|]. cbv beta. intros o w1 (Eh & Ec & Hkept & Ho).
  destruct o as [m|].
  2: { destruct Ho as (-> & Hn & ->). apply wp_ret. rewrite bool_decide_true by done. split; [done|by eexists]. }
  destruct Ho as (Hm1 & (x & Hx & El) & Hok). rewrite <- Eh in Hok.
  assert (Em1 : negb m1 && bool_decide (members r !! loop = None) = false).
  { destruct m1; [done|]. cbn. apply bool_decide_false. intros E. rewrite E in Hm1. by destruct Hm1 as [?|[? ?]]. }
  rewrite Em1.
  destruct m2; cbn [negb]; [|apply wp_ret; split; [done|by eexists]].
  set (r1 := r <| members ::= <[loop := lists_of r loop]> |>) in *. apply wp_bind, wp_get.
  assert (Edom : dom (pget k (info r)) = dom (pget k (handles w1))).
  { change (info r) with (info r1). rewrite (inv_info _ _ _ _ Hok). apply dom_fmap_L. }
  rewrite Edom. set (a := fresh _). assert (Ha : pget k (handles w1) !! a = None) by apply not_elem_of_dom, is_fresh. clearbody a.
  apply wp_bind, wp_modify, wp_bind. eapply wp_the_mgr; [exact Hx|]. apply wp_bind, wp_set_handle.
  { cbn. rewrite pget_pset_eq, lookup_insert_eq. by eexists. }
  assert (Hls : members r1 !! loop = Some (lists_of r loop)) by apply lookup_insert_eq.
  destruct (inv_mgr _ _ _ _ Hok m x Hx) as (ls & Hls' & Hmo). rewrite El, Hls in Hls'. injection Hls' as <-.
  set (w2 := w1 <| handles ::= pset k (fun hs => pushed prev_to hs a (Handle loop c d true (pget k (lists x)) None) (pget k (lists x))) |>).
  apply wp_bind. eapply wp_mono with (P := fun _ w' => w' = w2).
  { assert (E : forall hs : gmap nat loopyHandle, alter (fun h => h <| hd_next := pget k (lists x) |>) a (<[a := Handle loop c d true None None]> hs) =
                    <[a := Handle loop c d true (pget k (lists x)) None]> hs).
    { intros hs. rewrite (alter_is_insert _ a _ (Handle loop c d true None None)) by apply lookup_insert_eq. by rewrite insert_insert_eq. }
    destruct (pget k (lists x)) as [b|] eqn:Ehd.
    - apply wp_set_handle.
      + cbn. rewrite !pget_pset_eq, E. assert (Hb : is_Some (pget k (handles w1) !! b)).
        { pose proof (mo_chain _ _ _ _ _ _ _ Hmo k) as Hch. rewrite Ehd in Hch. destruct (pget k (lists_of r loop)); [done|].
          destruct Hch as ([= <-] & y & Hy & _). by exists y. }
        destruct (decide (b = a)) as [-> |Hne]; [rewrite lookup_insert_eq; by eexists|by rewrite lookup_insert_ne].
      + unfold w2. apply world_eq; try done. intros k'. cbn.
        destruct (decide (k' = k)) as [-> |Hk]; [rewrite !pget_pset_eq; cbn; by rewrite E|by rewrite !pget_pset_ne].
    - apply wp_ret. unfold w2. apply world_eq; try done. intros k'. cbn.
      destruct (decide (k' = k)) as [-> |Hk]; [rewrite !pget_pset_eq; cbn; by rewrite E|by rewrite !pget_pset_ne]. }
  cbv beta. intros _ w' ->. apply wp_bind, wp_set_mgr; [by exists x|]. apply wp_bind, wp_set_mgr; [cbn; rewrite lookup_alter_eq, Hx; by eexists|].
  apply wp_bind. set (w3 := w2 <| managers ::= _ |> <| managers ::= _ |>).
  assert (Em : managers w3 = <[m := x <| lists ::= pset k (fun _ => Some a) |> <| activeCount ::= pset k S |>]> (managers w1)).
  { cbn. rewrite (alter_is_insert _ m (managers w1) x) by done.
    rewrite (alter_is_insert _ m _ (x <| lists ::= pset k (fun _ => Some a) |>)) by apply lookup_insert_eq. by rewrite insert_insert_eq. }
  eapply wp_mono; [eapply (updateTimer_ok _ _ k w3 _ m)|].
  - eapply (pushed_inv w1 w3 r1 k loop a c d m x); try done.
  - rewrite Em. apply lookup_insert_eq.
  - destruct k; [by right|by left..].
  - cbv beta. intros [] w4 (Eh4 & _ & Hk4 & Hok4). apply wp_ret. split.
    { eapply kept_trans; [exact Hkept|]. eapply kept_trans; [|exact Hk4]. eapply (kept_insert w1 w3); [exact Hx| |exact Em]; done. }
    eexists. split; [done|]. unfold idle_ok. rewrite Eh4.
    assert (Er : lists_of r1 loop = lists_of r loop) by (unfold lists_of at 1; by rewrite Hls). rewrite Er in Hok4.
    assert (E : forall ls', r1 <| members ::= <[loop := ls']> |> = r <| members ::= <[loop := ls']> |>).
    { intros ls'. destruct r as [ms i cs]. change (Registry (<[loop := ls']> (<[loop := lists_of (Registry ms i cs) loop]> ms)) i cs =
        Registry (<[loop := ls']> ms) i cs). by rewrite insert_insert_eq. }
    by rewrite E in Hok4.
Qed.

(** *** Freeing *)

Lemma unlinked_inv (w w' : idleWorld) r k a h m x ls :
  idle_ok w r -> pget k (handles w) !! a = Some h -> hd_active h = false -> managers w !! m = Some x -> mg_loop x = hd_loop h ->
  members r !! hd_loop h = Some ls ->
  handles w' = pset k (fun hs => unlinked hd_next hd_prev next_to prev_to hs h) (handles w) ->
  managers w' = <[m := match hd_prev h with None => x <| lists ::= pset k (fun _ => hd_next h) |> | Some _ => x end]> (managers w) ->
  g_managers w' = g_managers w -> loops w' = loops w -> calls w' = calls w ->
  idle_inv (pset k (delete a) (handles w')) None w'
    (r <| members ::= <[hd_loop h := pset k (filter (fun b => b <> a)) ls]> |> <| info ::= pset k (delete a) |>).
Proof using All.
  intros H Ha Hact Hm El Hls Eh Em Eg Elp Ec. pose proof (inv_registry _ _ _ _ H) as Hreg.
  destruct (inv_handle w r k a h H Ha) as (Hi & _).
  destruct (inv_mgr _ _ _ _ H m x Hm) as (ls' & Hls' & [Hch Hcnt (lp & b & Hlp & Hrest) Htim]).
  rewrite El in Hls'. assert (ls' = ls) as -> by congruence. clear Hls'.
  destruct (rg_handle _ Hreg k a _ Hi) as (ls' & Hls' & Hal). assert (ls' = ls) as -> by (cbn in Hls'; congruence). clear Hls'.
  pose proof (rg_nodup _ Hreg k _ ls Hls) as Hnd. apply list_elem_of_split in Hal as (l1 & l2 & Hl). rewrite Hl in Hnd.
  pose proof (filter_ne_mid _ _ _ Hnd) as Efil. pose proof (Hch k) as Hchk. rewrite Hl in Hchk.
  destruct (dchain_split _ _ _ _ _ _ _ _ Hchk) as (h' & Ha' & Hprev & Hnext & _). assert (h' = h) as -> by congruence. clear Ha'.
  assert (Hnb : forall b, Some b = hd_prev h \/ Some b = hd_next h -> b ∈ l1 ++ l2).
  { intros b' [E|E]; apply elem_of_app.
    - left. rewrite Hprev in E. destruct (last l1) eqn:El1; [|done]. injection E as ->. by apply last_Some_elem_of.
    - right. rewrite Hnext in E. destruct l2; [done|]. injection E as ->. by left. }
  assert (Hna : a ∉ l1 ++ l2) by (intros Hin; apply NoDup_app in Hnd as (_ & Hd & Hnd); apply NoDup_cons in Hnd as [? _];
    apply elem_of_app in Hin as [Hin|Hin]; [apply (Hd a Hin); by left|done]).
  set (r' := r <| members ::= _ |> <| info ::= _ |>). set (x' := match hd_prev h with None => x <| lists ::= pset k (fun _ => hd_next h) |> | Some _ => x end) in *.
  assert (Hold : forall k' l, ~ (k' = k /\ a ∈ l) -> active_handles r' k' l = active_handles r k' l).
  { intros k' l Hn. apply active_handles_ext. intros a' Ha'. cbn. destruct (decide (k' = k)) as [-> |Hk]; [|by rewrite pget_pset_ne].
    rewrite pget_pset_eq, lookup_delete_ne; [done|]. intros <-. by apply Hn. }
  assert (Elists : forall k', pget k' (lists x') = if decide (k' = k) then match l1 with [] => hd_next h | _ => pget k (lists x) end else pget k' (lists x)).
  { intros k'. unfold x'. rewrite Hprev. destruct l1 as [|c l1].
    - change (pget k' (pset k (fun _ => hd_next h) (lists x)) = if decide (k' = k) then hd_next h else pget k' (lists x)).
      destruct (decide (k' = k)) as [-> |Hk]; [by rewrite pget_pset_eq|by rewrite pget_pset_ne].
    - destruct (last (c :: l1)) eqn:E; [|by apply last_None in E]. destruct (decide (k' = k)) as [-> |Hk]; done. }
  assert (Ex' : mg_loop x' = mg_loop x /\ mg_next x' = mg_next x /\ activeCount x' = activeCount x /\ origBefore x' = origBefore x /\
    origAfter x' = origAfter x /\ idleTimerActive x' = idleTimerActive x) by (unfold x'; by destruct (hd_prev h)).
  destruct Ex' as (E1 & E2 & E3 & E4 & E5 & E6). clearbody x'.
  eapply (inv_step (handles w) _ None None w w' r r' m x x' lp (pset k (filter (fun b => b <> a)) ls)); try done.
  - by rewrite Elp, insert_id.
  - rewrite Ec. apply (inv_calls _ _ _ _ H).
  - exact (ref_free_ok r k a (strip h) ls Hreg Hi Hls).
  - intros k'. rewrite Eh. cbn. destruct (decide (k' = k)) as [-> |Hk].
    + by rewrite !pget_pset_eq, (inv_info _ _ _ _ H), fmap_delete, strip_unlinked.
    + rewrite !pget_pset_ne by done. by eapply inv_info.
  - cbn. by rewrite El.
  - by left.
  - by left.
  - intros k' l ls' b' Hne Hls' Hb'. rewrite Eh. destruct (decide (k' = k)) as [-> |Hk]; [|by rewrite !pget_pset_ne].
    assert (Hbl : b' ∉ pget k ls) by (intros Hin; apply Hne; rewrite El; by eapply (other_loop r k l ls' _ ls)). rewrite Hl in Hbl.
    rewrite !pget_pset_eq, lookup_delete_ne, unlinked_other; [done|..].
    + intros E. apply Hbl. specialize (Hnb b' (or_introl E)). set_solver.
    + intros E. apply Hbl. specialize (Hnb b' (or_intror E)). set_solver.
    + intros <-. apply Hbl. set_solver.
  - constructor.
    + intros k'. rewrite Elists, Eh. destruct (decide (k' = k)) as [-> |Hk].
      * rewrite !pget_pset_eq, Hl, Efil. apply dchain_delete; [done|].
        by eapply (dchain_unlink _ _ next_to prev_to).
      * rewrite !pget_pset_ne by done. apply Hch.
    + intros k'. rewrite E3, Hcnt. f_equal. destruct (decide (k' = k)) as [-> |Hk].
      * rewrite !pget_pset_eq, Hl, Efil, Hold by (by intros [_ ?]). unfold active_handles. rewrite !filter_app, filter_cons_False; [done|].
        rewrite Hi. cbn. by rewrite Hact.
      * rewrite !pget_pset_ne by done. symmetry. apply Hold. by intros [-> _].
    + exists lp, b. rewrite E1, E4, E5, E6, Elp. done.
    + rewrite E3, E6. intros _. apply Htim. by rewrite bool_decide_false.
Qed.

Lemma lists_empty_spec hs w r t m x ls : mgr_ok hs w r t m x ls -> lists_empty (lists x) = all_empty ls.
Proof using Type.
  intros H. assert (E : forall k, bool_decide (pget k (lists x) = None) = bool_decide (pget k ls = [])).
  { intros k. rewrite (dchain_head _ _ _ _ _ _ (mo_chain _ _ _ _ _ _ _ H k)). by destruct (pget k ls). }
  pose proof (E KIdle) as E1. pose proof (E KPrepare) as E2. pose proof (E KCheck) as E3. cbn in E1, E2, E3.
  unfold lists_empty, all_empty. by rewrite E1, E2, E3.
Qed.

Lemma all_empty_spec ls : all_empty ls = true -> forall k, pget k ls = [].
Proof using Type. unfold all_empty. intros [[E1%bool_decide_eq_true E2%bool_decide_eq_true]%andb_true_iff E3%bool_decide_eq_true]%andb_true_iff []; done. Qed.

Lemma ref_free_eq r k a b h : pget k (info r) !! a = Some h ->
  ref_op (OFree k a) (ref_active k a b r) = ref_op (OFree k a) r.
Proof using Type.
  intros Ha. cbn [ref_op]. rewrite ref_active_info, decide_True, Ha by done. cbn [fmap option_fmap option_map]. f_equal.
  apply registry_eq; [done| |done]. intros k'. cbn. destruct (decide (k' = k)) as [-> |Hk]; [|by rewrite !pget_pset_ne]. rewrite !pget_pset_eq.
  apply map_eq. intros c'. destruct (decide (c' = a)) as [-> |Hne]; [by rewrite !lookup_delete_eq|].
  by rewrite !lookup_delete_ne, lookup_alter_ne by done.
Qed.

(** The links around a handle. *)
Lemma unlink_run {B} (cont : iprog B) Q k a (w : idleWorld) r h m x :
  idle_ok w r -> pget k (handles w) !! a = Some h -> managers w !! m = Some x ->
  let w1 := w <| handles ::= pset k (fun hs => unlinked hd_next hd_prev next_to prev_to hs h) |>
    <| managers := <[m := match hd_prev h with None => x <| lists ::= pset k (fun _ => hd_next h) |> | Some _ => x end]> (managers w) |> in
  wp cont Q w1 ->
  wp (match hd_prev h with
      | Some p => set_handle k p (fun y => y <| hd_next := hd_next h |>)
      | None => set_mgr m (fun x => x <| lists ::= pset k (fun _ => hd_next h) |>)
      end ≫= fun _ =>
      match hd_next h with
      | Some n => set_handle k n (fun y => y <| hd_prev := hd_prev h |>)
      | None => mret tt
      end ≫= fun _ => cont) Q w.
Proof using Type.
  intros H Ha Hm w1 Hcont. destruct (inv_handle w r k a h H Ha) as (Hi & m' & x' & ls & Hm' & El & Hls & Hal & Hnd & Hmo).
  apply list_elem_of_split in Hal as (l1 & l2 & Hl). pose proof (mo_chain _ _ _ _ _ _ _ Hmo k) as Hch. rewrite Hl in Hch.
  destruct (dchain_split _ _ _ _ _ _ _ _ Hch) as (h' & Ha' & Hprev & Hnext & _). assert (h' = h) as -> by congruence. clear Ha'.
  assert (Hnb : forall b, Some b = hd_prev h \/ Some b = hd_next h -> is_Some (pget k (handles w) !! b)).
  { intros b E. eapply dchain_lookup; [exact Hch|]. destruct E as [E|E].
    - rewrite Hprev in E. destruct (last l1) eqn:El1; [|done]. injection E as ->. apply elem_of_app. left. by apply last_Some_elem_of.
    - rewrite Hnext in E. destruct l2; [done|]. injection E as ->. apply elem_of_app. right. right. by left. }
  assert (Hend : forall w0, w0 = w <| handles ::= pset k (fun hs => match hd_prev h with Some p => alter (next_to (hd_next h)) p hs | None => hs end) |>
      <| managers := managers w1 |> ->
    wp (match hd_next h with Some n => set_handle k n (fun y => y <| hd_prev := hd_prev h |>) | None => mret tt end) (fun _ w' => w' = w1) w0).
  { intros w0 ->. unfold w1, unlinked. destruct (hd_next h) as [n|] eqn:En.
    - apply wp_set_handle; [|apply world_eq; try done; intros k'; cbn; destruct (decide (k' = k)) as [-> |Hk];
        [by rewrite !pget_pset_eq|by rewrite !pget_pset_ne]].
      cbn. rewrite pget_pset_eq. specialize (Hnb n (or_intror eq_refl)). destruct (hd_prev h) as [p|]; [|done].
      destruct (decide (n = p)) as [-> |Hne]; [rewrite lookup_alter_eq; by rewrite fmap_is_Some|by rewrite lookup_alter_ne].
    - apply wp_ret, world_eq; try done. }
  apply wp_bind. destruct (hd_prev h) as [p|] eqn:Ep.
  - apply wp_set_handle; [apply Hnb; by left|]. eapply wp_seq; [apply Hend, world_eq; try done; cbn; by rewrite insert_id|]. by intros _ ? ->.
  - apply wp_set_mgr; [by exists x|]. eapply wp_seq; [apply Hend, world_eq; try done|by intros _ ? ->].
    + cbn. by apply alter_is_insert.
    + intros k'. cbn. symmetry. f_equal. by apply pset_id.
Qed.

(** The last part of [handleFree], for a handle that is not active. *)
Lemma free_inactive_ok k a (w : idleWorld) r h :
  idle_ok w r -> pget k (handles w) !! a = Some h -> hd_active h = false ->
  wp (idleGetManager (hd_loop h) ≫= fun mgr =>
      match mgr with
      | None => mret tt
      | Some m =>
          match hd_prev h with
          | Some p => set_handle k p (fun y => y <| hd_next := hd_next h |>)
          | None => set_mgr m (fun x => x <| lists ::= pset k (fun _ => hd_next h) |>)
          end ≫= fun _ =>
          match hd_next h with
          | Some n => set_handle k n (fun y => y <| hd_prev := hd_prev h |>)
          | None => mret tt
          end ≫= fun _ =>
          x ← the_mgr m;
          pwhen (lists_empty (lists x)) (idleDestroyManager (Some m))
      end ≫= fun _ =>
      free_handle k a) (fun _ w' => kept_in (fst (ref_op (OFree k a) r)) w w' /\ idle_ok w' (fst (ref_op (OFree k a) r))) w.
Proof using All.
  intros H Ha Hact. destruct (inv_handle w r k a h H Ha) as (Hi & m & x & ls & Hm & El & Hls & Hal & Hnd & Hmo).
  eapply wp_seq with (P := fun o w' => w' = w /\ o = Some m); [rewrite <- El; by eapply idleGetManager_at|].
  cbv beta. intros o w' [-> ->]. set (w1 := w <| handles ::= pset k (fun hs => unlinked hd_next hd_prev next_to prev_to hs h) |>
    <| managers := <[m := match hd_prev h with None => x <| lists ::= pset k (fun _ => hd_next h) |> | Some _ => x end]> (managers w) |>).
  pose proof (unlinked_inv w w1 r k a h m x ls H Ha Hact Hm El Hls eq_refl eq_refl eq_refl eq_refl eq_refl) as Hinv.
  set (r1 := r <| members ::= _ |> <| info ::= _ |>) in Hinv.
  assert (Hx1 : exists x1, managers w1 !! m = Some x1 /\ mg_loop x1 = hd_loop h).
  { eexists. split; [apply lookup_insert_eq|]. by destruct (hd_prev h). }
  destruct Hx1 as (x1 & Hx1 & El1). destruct (inv_mgr _ _ _ _ Hinv m x1 Hx1) as (ls1 & Hls1 & Hmo1).
  assert (ls1 = pset k (filter (fun b => b <> a)) ls) as ->.
  { rewrite El1 in Hls1. cbn in Hls1. rewrite lookup_insert_eq in Hls1. by injection Hls1 as <-. }
  assert (Eref : fst (ref_op (OFree k a) r) =
    if all_empty (pset k (filter (fun b => b <> a)) ls) then r1 <| members ::= delete (hd_loop h) |> else r1).
  { cbn [ref_op]. rewrite Hi. cbn [strip hi_loop]. assert (E : lists_of r (hd_loop h) = ls) by (unfold lists_of; by rewrite Hls).
    rewrite E. destruct (all_empty _); [|done]. unfold r1. destruct r as [ms i c]. cbn.
    change (Registry (delete (hd_loop h) ms) (pset k (delete a) i) c =
      Registry (delete (hd_loop h) (<[hd_loop h := pset k (filter (fun b => b <> a)) ls]> ms)) (pset k (delete a) i) c). by rewrite delete_insert_eq. }
  rewrite Eref. apply wp_bind. eapply unlink_run; [exact H|exact Ha|exact Hm|]. fold w1.
  apply wp_bind. eapply wp_the_mgr; [exact Hx1|]. rewrite (lists_empty_spec _ _ _ _ _ _ _ Hmo1).
  assert (Hk1 : kept w w1) by (eapply (kept_insert w w1); [exact Hm| |done]; by destruct (hd_prev h)).
  assert (Hfin : forall w2 r2, handles w2 = handles w1 -> idle_inv (pset k (delete a) (handles w1)) None w2 r2 -> kept_in r2 w w2 ->
     wp (free_handle k a) (fun _ w' => kept_in r2 w w' /\ idle_ok w' r2) w2).
  { intros w2 r2 Eh2 Hok Hk. unfold free_handle. apply wp_bind. assert (Ha2 : is_Some (pget k (handles w2) !! a)).
    { rewrite Eh2. cbn. rewrite pget_pset_eq. apply (fmap_is_Some strip). rewrite <- lookup_fmap, strip_unlinked, lookup_fmap, Ha.
      by eexists. }
    destruct Ha2 as [h2 Ha2]. eapply wp_the_handle; [done|]. apply wp_modify. split; [done|]. unfold idle_ok.
    change (handles (w2 <| handles ::= pset k (delete a) |>)) with (pset k (delete a) (handles w2)). rewrite Eh2.
    destruct Hok as [? ? ? ? Hmg ? ? ? ?]. constructor; try done. intros m' y Hy. destruct (Hmg m' y Hy) as (ls' & ? & []).
    exists ls'. split; [done|]. by constructor. }
  destruct (all_empty (pset k _ ls)) eqn:Eall; cbn [pwhen]; [|apply wp_ret, Hfin; try done; intros m' y Hy _; by apply Hk1].
  eapply wp_mono; [eapply (idleDestroyManager_ok _ w1 r1 m x1); try done; by apply all_empty_spec|].
  cbv beta. intros _ w2 (Eh2 & _ & Hk2 & Hok). rewrite El1 in Hok. apply Hfin; try done.
  intros m' y Hy [ls' Hs]. cbn in Hs. apply lookup_delete_Some in Hs as [Hne _]. destruct (Hk1 m' y Hy) as (y1 & Hy1 & <-).
  apply Hk2; [|done]. intros ->. apply Hne. congruence.
Qed.

Lemma handle_alive (w : idleWorld) r k a : idle_ok w r -> is_Some (pget k (info r) !! a) ->
  exists h, pget k (handles w) !! a = Some h /\ pget k (info r) !! a = Some (strip h).
Proof using Type.
  intros H Ha. rewrite (inv_info _ _ _ _ H), lookup_fmap in Ha |- *. destruct (pget k (handles w) !! a) as [h|]; [by exists h|by destruct Ha].
Qed.

Lemma handleFree_ok k a (w : idleWorld) r :
  idle_ok w r -> is_Some (pget k (info r) !! a) ->
  wp (handleFree k (Some a)) (fun _ w' => kept_in (fst (ref_op (OFree k a) r)) w w' /\ idle_ok w' (fst (ref_op (OFree k a) r))) w.
Proof using All.
  intros H Ha. destruct (handle_alive w r k a H Ha) as (h & Eh & Hi). unfold handleFree. apply wp_bind. eapply wp_the_handle; [done|].
  assert (Hrest : forall w1, idle_ok w1 (ref_active k a false r) -> exists h1, pget k (handles w1) !! a = Some h1 /\ hd_active h1 = false).
  { intros w1 H1. assert (E : pget k (info (ref_active k a false r)) !! a = Some ((strip h) <| hi_active := false |>)).
    { rewrite ref_active_info, decide_True, Hi by done. done. }
    destruct (handle_alive w1 _ k a H1 (mk_is_Some _ _ E)) as (h1 & Eh1 & Hi1). exists h1. split; [done|]. rewrite Hi1 in E. by injection E. }
  rewrite <- (ref_free_eq r k a false (strip h)) by done.
  eapply wp_seq with (P := fun _ w1 => kept w w1 /\ idle_ok w1 (ref_active k a false r)).
  - destruct (hd_active h) eqn:Eact; cbn [pwhen]; [by apply handleStop_ok|]. apply wp_ret.
    rewrite ref_active_same; [split; [by apply kept_same|done]|]. rewrite Hi. cbn. by rewrite Eact.
  - cbv beta. intros _ w1 [Hk1 H1]. destruct (Hrest w1 H1) as (h1 & Eh1 & Hact). apply wp_bind. eapply wp_the_handle; [done|].
    eapply wp_mono; [by apply (free_inactive_ok k a w1 (ref_active k a false r) h1)|]. cbv beta. intros _ w2 [Hk2 H2]. split; [|done].
    intros m x Hm Hs. destruct (Hk1 m x Hm) as (x1 & Hx1 & E1). rewrite <- E1 in Hs |- *. by apply Hk2.
Qed.

Lemma handleSetData_ok k a d (w : idleWorld) r :
  idle_ok w r -> is_Some (pget k (info r) !! a) ->
  wp (handleSetData k (Some a) d) (fun _ w' => kept w w' /\ idle_ok w' (fst (ref_op (OSetData k a d) r))) w.
Proof using All.
  intros H Ha. destruct (handle_alive w r k a H Ha) as (h & Eh & Hi). apply wp_set_handle; [by exists h|]. split; [by apply kept_same|]. cbn [ref_op fst].
  set (r' := r <| info ::= _ |>). set (w' := w <| handles ::= _ |>).
  assert (Hl : forall k' b, hi_loop <$> pget k' (info r') !! b = hi_loop <$> pget k' (info r) !! b /\
     hi_active <$> pget k' (info r') !! b = hi_active <$> pget k' (info r) !! b).
  { intros k' b. cbn. destruct (decide (k' = k)) as [-> |Hk]; [|by rewrite pget_pset_ne]. rewrite pget_pset_eq.
    destruct (decide (b = a)) as [-> |Hne]; [|by rewrite lookup_alter_ne]. rewrite lookup_alter_eq. by destruct (pget k (info r) !! a). }
  assert (Hact : forall k' l, active_handles r' k' l = active_handles r k' l).
  { intros k' l. unfold active_handles. apply list_filter_iff. intros b. by rewrite (proj2 (Hl k' b)). }
  destruct H as [[R1 R2 R3] Hc Hinfo Hms Hmgr Hone Hmem Hfree Hdom]. constructor; try done.
  - constructor; [done| |].
    + intros k' loop ls b Hls Hb. rewrite (proj1 (Hl k' b)). eauto.
    + intros k' b i Hib. pose proof (proj1 (Hl k' b)) as E. rewrite Hib in E. destruct (pget k' (info r) !! b) as [i'|] eqn:Ei; [|done].
      injection E as ->. eauto.
  - by apply info_alter.
  - intros m x Hm. destruct (Hmgr m x Hm) as (ls & Hls & [Hch Hcnt Hlp Htim]). exists ls. split; [done|]. constructor; try done.
    + intros k'. cbn. destruct (decide (k' = k)) as [-> |Hk]; [|by rewrite pget_pset_ne].
      rewrite pget_pset_eq, (alter_is_insert _ a _ h) by done. by eapply dchain_update.
    + intros k'. by rewrite Hact.
Qed.

Lemma handleCount_ok k loop (w : idleWorld) r :
  idle_ok w r -> wp (handleCount k loop) (fun n w' => w' = w /\ n = length (active_handles r k (pget k (lists_of r loop)))) w.
Proof using Type.
  intros H. unfold handleCount. eapply wp_seq; [by eapply idleGetManager_ok|]. cbv beta. intros o w' [-> Ho]. unfold lists_of.
  destruct o as [m|].
  - destruct Ho as (x & Hx & El). apply wp_bind. eapply wp_the_mgr; [done|]. apply wp_ret. split; [done|].
    destruct (inv_mgr _ _ _ _ H m x Hx) as (ls & Hls & Hmo). rewrite <- El, Hls. apply Hmo.
  - apply wp_ret. rewrite Ho. cbn. by rewrite pget_pconst.
Qed.

Lemma idle_do_ok op (w : idleWorld) r :
  idle_ok w r -> idle_legal op (dom base) r ->
  wp (idle_do op) (fun res w' => res = snd (ref_op op r) /\ kept_in (fst (ref_op op r)) w w' /\ idle_ok w' (fst (ref_op op r))) w.
Proof using All.
  intros H Hl. destruct op as [k loop c d m1 m2|k a|k a|k a|k a d|k a|k loop]; cbn [idle_do idle_legal] in *.
  - eapply wp_seq; [apply handleStart_ok; [done|by destruct loop]|]. cbv beta. intros o w' (Hk & r' & E & Hok). apply wp_ret. rewrite E. split; [done|]. split; [by apply kept_kept_in|done].
  - eapply wp_seq; [by apply handleStop_ok|]. cbv beta. intros [] w' [Hk Hok]. apply wp_ret. split_and!; [done|by apply kept_kept_in|done].
  - eapply wp_seq; [by apply handleRestart_ok|]. cbv beta. intros b w' (Hk & -> & Hok). apply wp_ret. cbn [ref_op].
    case_bool_decide as E; (split; [done|]; split; [by apply kept_kept_in|]); [by rewrite ref_active_same in Hok|done].
  - eapply wp_seq; [by apply handleFree_ok|]. cbv beta. intros [] w' Hok. apply wp_ret. split; [|exact Hok]. cbn. by destruct (pget k (info r) !! a).
  - eapply wp_seq; [by apply handleSetData_ok|]. cbv beta. intros [] w' [Hk Hok]. apply wp_ret. split_and!; [done|by apply kept_kept_in|done].
  - destruct (handle_alive w r k a H Hl) as (h & Eh & Hi). unfold handleIsActive. do 2 apply wp_bind. eapply wp_the_handle; [done|].
    do 2 apply wp_ret. cbn [ref_op fst snd]. split; [|split; [by apply kept_kept_in, kept_same|done]]. rewrite Hi. cbn. f_equal. by destruct (hd_active h).
  - eapply wp_seq; [by eapply handleCount_ok|]. cbv beta. intros n w' [-> ->]. apply wp_ret. split; [done|]. split; [by apply kept_kept_in, kept_same|done].
Qed.

Lemma idle_run_ok ops (w : idleWorld) r :
  idle_ok w r -> run_legal ops (dom base) r ->
  wp (idle_run ops) (fun xs w' => xs = snd (ref_run ops r) /\ idle_ok w' (fst (ref_run ops r))) w.
Proof using All.
  revert w r. induction ops as [|op ops IH]; intros w r H Hl; [by apply wp_ret|]. destruct Hl as [Hop Hl]. cbn [idle_run ref_run].
  eapply wp_seq; [by apply idle_do_ok|]. cbv beta. intros x w' (-> & _ & Hok). eapply wp_seq; [by apply IH|].
  cbv beta. intros xs w2 [-> Hok2]. apply wp_ret. destruct (ref_op op r) as [r1 x1]. cbn [fst snd] in *. by destruct (ref_run ops r1) as [r2 xs2].
Qed.

(** *** Walks *)

Variable user : nat -> list idle_op * bool.

Lemma record_call_ok (w : idleWorld) r c : idle_ok w r -> idle_ok (w <| calls ::= cons c |>) (ref_call c r).
Proof using Type.
  intros [[R1 R2 R3] Hc Hinfo Hms Hmgr Hone Hmem Hfree Hdom]. constructor; try done.
  - cbn. by rewrite Hc.
  - intros m x Hm. destruct (Hmgr m x Hm) as (ls & Hls & []). exists ls. split; [done|]. by constructor.
Qed.

(** The manager [m] of the loop and the part [l] of a list still to be visited. *)
Definition visiting (k : kind) (loop m : nat) (l : list nat) (w : idleWorld) (r : registry) : Prop :=
  idle_ok w r /\ (exists x, managers w !! m = Some x /\ mg_loop x = loop) /\
  exists ls front, members r !! loop = Some ls /\ pget k ls = front ++ l.

Lemma run_script_ok k loop m l alive ops (w : idleWorld) r :
  visiting k loop m l w r -> script_legal (alive ++ l) k loop (dom base) ops r -> (forall a, a ∈ alive -> is_Some (pget k (info r) !! a)) ->
  wp (run_script ops) (fun _ w' => visiting k loop m l w' (ref_script ops r) /\
    (forall a, a ∈ alive -> is_Some (pget k (info (ref_script ops r)) !! a))) w.
Proof using All.
  revert w r. induction ops as [|op ops IH]; intros w r (H & (x & Hx & El) & ls & front & Hls & Hl) Hleg Ha.
  - apply wp_ret. split; [|done]. split; [done|]. split; [by exists x|by exists ls, front].
  - destruct Hleg as (Hop & Hkeep & Hs & Hleg). cbn [run_script]. eapply wp_seq; [by apply idle_do_ok|]. cbv beta.
    intros res w' (_ & Hk & Hok). apply IH; [|done|].
    + split; [done|]. split.
      * destruct (Hk m x Hx) as (x' & Hx' & E); [by rewrite El|]. exists x'. split; [done|congruence].
      * eapply ref_op_suffix; try done. intros a E. specialize (Hkeep a E). by apply not_elem_of_app in Hkeep as [_ ?].
    + intros a Hal. eapply ref_op_alive; [done| |by apply Ha]. intros E. apply (Hkeep a E). apply elem_of_app. by left.
Qed.

(** The part of a walk that belongs to one handle. *)
Lemma turn_ok k loop m a l (w : idleWorld) r :
  visiting k loop m (a :: l) w r -> turn_legal user l k loop (dom base) a r ->
  exists h, pget k (handles w) !! a = Some h /\ hd_next h = head l /\
    wp (if hd_active h && negb (hd_cb h =? 0)%Z then
          call_handle user k a ≫= fun continueRunning =>
          match k with KIdle => if negb continueRunning then handleStop KIdle (Some a) else mret tt | _ => mret tt end
        else mret tt) (fun _ w' => visiting k loop m l w' (ref_turn user k r a)) w.
Proof using All.
  intros (H & (x & Hx & El) & ls & front & Hls & Hl) Hleg. destruct (inv_mgr _ _ _ _ H m x Hx) as (ls' & Hls' & Hmo).
  rewrite El in Hls'. assert (ls' = ls) as -> by congruence. clear Hls'. pose proof (mo_chain _ _ _ _ _ _ _ Hmo k) as Hch. rewrite Hl in Hch.
  destruct (dchain_split _ _ _ _ _ _ _ _ Hch) as (h & Hh & _ & Hnext & _). exists h. split; [done|]. split; [done|].
  destruct (inv_handle w r k a h H Hh) as (Hi & _). unfold turn_legal in Hleg. unfold ref_turn. rewrite Hi in *. cbn [strip hi_active hi_cb hi_data] in *.
  assert (Hvis : visiting k loop m l w r).
  { split; [done|]. split; [by exists x|]. exists ls, (front ++ [a]). split; [done|]. by rewrite <- app_assoc. }
  destruct (hd_active h && negb (hd_cb h =? 0)%Z); [|by apply wp_ret].
  unfold call_handle. do 2 apply wp_bind. eapply wp_the_handle; [done|]. apply wp_bind, wp_get. rewrite (inv_calls _ _ _ _ H) in *.
  destruct (user (length (calls w))) as [ops cont]. apply wp_bind, wp_modify. apply wp_bind.
  set (w1 := w <| calls ::= cons _ |>). set (r1 := ref_call _ r) in *.
  assert (Hvis1 : visiting k loop m l w1 r1).
  { destruct Hvis as (_ & Hmg & Hmem). split; [by apply record_call_ok|]. by split. }
  set (alive := match k with KIdle => if cont then [] else [a] | _ => [] end).
  eapply wp_mono; [apply (run_script_ok k loop m l alive ops w1 r1 Hvis1)|].
  - unfold alive. destruct k, cont; exact Hleg.
  - intros b Hb. assert (b = a) as ->.
    { unfold alive in Hb. destruct k, cont; try by apply elem_of_nil in Hb. by apply list_elem_of_singleton in Hb. }
    cbn. rewrite Hi. by eexists.
  - cbv beta. intros _ w2 [Hvis2 Hal]. apply wp_ret. destruct k; [|by apply wp_ret..]. destruct cont; cbn [negb]; [by apply wp_ret|].
    destruct Hvis2 as (H2 & (x2 & Hx2 & El2) & ls2 & front2 & Hls2 & Hl2).
    eapply wp_mono; [apply handleStop_ok; [exact H2|]; apply Hal; by left|]. cbv beta. intros _ w3 [Hk3 H3].
    split; [done|]. split; [|by exists ls2, front2]. destruct (Hk3 m x2 Hx2) as (x3 & Hx3 & E). exists x3. split; [done|congruence].
Qed.

Lemma walk_ok k loop m l fuel p (w : idleWorld) r :
  visiting k loop m l w r -> p = head l -> walk_legal user k loop (dom base) l r -> length l < fuel ->
  wp (walk user k fuel p) (fun _ w' => visiting k loop m [] w' (ref_walk user k l r)) w.
Proof using All.
  revert fuel p w r. induction l as [|a l IH]; intros fuel p w r Hvis -> Hleg Hf; (destruct fuel as [|fuel]; [cbn in Hf; lia|]); cbn [walk head].
  - by apply wp_ret.
  - destruct Hleg as [Ht Hleg]. destruct (turn_ok k loop m a l w r Hvis Ht) as (h & Hh & Hn & Hw).
    apply wp_bind. eapply wp_the_handle; [done|]. eapply wp_seq; [exact Hw|]. cbv beta. intros _ w' Hvis'.
    apply IH; [done|done|done|cbn in Hf; lia].
Qed.

Lemma walk_list_ok k loop m (w : idleWorld) r :
  idle_ok w r -> (exists x, managers w !! m = Some x /\ mg_loop x = loop) ->
  walk_legal user k loop (dom base) (pget k (lists_of r loop)) r ->
  wp (walk_list user k m) (fun _ w' => idle_ok w' (ref_walk user k (pget k (lists_of r loop)) r) /\
    exists x, managers w' !! m = Some x /\ mg_loop x = loop) w.
Proof using All.
  intros H (x & Hx & El) Hleg. destruct (inv_mgr _ _ _ _ H m x Hx) as (ls & Hls & Hmo). rewrite El in Hls.
  assert (E : lists_of r loop = ls) by (unfold lists_of; by rewrite Hls). rewrite E in *.
  unfold walk_list. apply wp_bind. eapply wp_the_mgr; [done|]. apply wp_bind, wp_get. pose proof (mo_chain _ _ _ _ _ _ _ Hmo k) as Hch.
  pose proof (rg_nodup _ (inv_registry _ _ _ _ H) k _ ls Hls) as Hnd.
  eapply wp_mono; [apply (walk_ok k loop m (pget k ls))|].
  - split; [done|]. split; [by exists x|]. by exists ls, [].
  - by apply dchain_head in Hch.
  - done.
  - pose proof (dchain_size _ _ _ _ _ _ Hch Hnd). lia.
  - cbv beta. intros _ w' (Hok & Hm & _). by split.
Qed.

Lemma call_original_ok o (w : idleWorld) r :
  idle_ok w r -> wp (call_original o) (fun _ w' => idle_ok w' (ref_original o r)) w.
Proof using Type. intros H. destruct o as [[cb d]|]; [|by apply wp_ret]. apply wp_modify. by apply record_call_ok. Qed.

Lemma world0_ok (lps : gmap nat (loopyLoop K T)) :
  base = (fun lp => (lp_before lp, lp_after lp)) <$> lps -> idle_ok (world0 lps) registry0.
Proof using Type.
  intros Eb. constructor; try done.
  - constructor.
    + intros k loop ls. cbn. by rewrite lookup_empty.
    + intros k loop ls a. cbn. by rewrite lookup_empty.
    + intros k a h. cbn. by rewrite pget_pconst, lookup_empty.
  - intros k. cbn. by rewrite !pget_pconst, fmap_empty.
  - exists []. split; [done|]. split; [apply NoDup_nil_2|]. intros m. cbn. rewrite lookup_empty. split; [by intros [? ?]|by intros ?%elem_of_nil].
  - intros loop. cbn. rewrite lookup_empty. by intros [? ?].
  - intros loop lp _ Hlp. exists (lp_before lp, lp_after lp). rewrite Eb, lookup_fmap. cbn in Hlp. by rewrite Hlp.
  - cbn. by rewrite Eb, dom_fmap_L.
Qed.

Lemma bind_none {A B} (m : iprog A) (f : A -> iprog B) P w :
  wp m P w -> (forall a w', P a w' -> f a w' = None) -> (m ≫= f) w = None.
Proof using Type. unfold wp, mbind, prog_bind. destruct (m w) as [[a w']|]; [eauto|done]. Qed.

(** A callback frees the handle that the walk visits next. *)
Lemma walk_freed_next k loop m a b l cont fuel (w : idleWorld) r h :
  visiting k loop m (a :: b :: l) w r -> pget k (info r) !! a = Some h -> hi_active h = true -> hi_cb h <> 0%Z ->
  user (length (calls w)) = ([OFree k b], cont) -> walk user k (S (S fuel)) (Some a) w = None.
Proof using All.
  intros (H & (x & Hx & El) & ls & front & Hls & Hl) Hi Hact Hcb Huser. destruct (inv_mgr _ _ _ _ H m x Hx) as (ls' & Hls' & Hmo).
  rewrite El in Hls'. assert (ls' = ls) as -> by congruence. clear Hls'. pose proof (mo_chain _ _ _ _ _ _ _ Hmo k) as Hch. rewrite Hl in Hch.
  destruct (dchain_split _ _ _ _ _ _ _ _ Hch) as (hc & Hh & _ & Hnext & _). pose proof (inv_registry _ _ _ _ H) as Hreg.
  assert (hi_active (strip hc) = true /\ hi_cb (strip hc) <> 0%Z) as [Hact' Hcb'].
  { rewrite (inv_info _ _ _ _ H), lookup_fmap, Hh in Hi. by injection Hi as <-. } cbn in Hact', Hcb'.
  assert (Hab : a <> b).
  { pose proof (rg_nodup _ Hreg k _ ls Hls) as Hnd. rewrite Hl in Hnd. apply NoDup_app in Hnd as (_ & _ & Hnd).
    apply NoDup_cons in Hnd as [Hn _]. intros ->. apply Hn. by left. }
  assert (Hb : is_Some (pget k (info r) !! b)).
  { assert (Hbl : b ∈ pget k ls) by (rewrite Hl; apply elem_of_app; right; right; by left).
    pose proof (rg_member _ Hreg k _ ls b Hls Hbl) as E. by destruct (pget k (info r) !! b). }
  change (walk user k (S (S fuel)) (Some a)) with (h ← the_handle k a;
    (if hd_active h && negb (hd_cb h =? 0)%Z then
       call_handle user k a ≫= fun continueRunning =>
       match k with KIdle => if negb continueRunning then handleStop KIdle (Some a) else mret tt | _ => mret tt end
     else mret tt) ≫= fun _ => walk user k (S fuel) (hd_next h) : iprog unit).
  eapply bind_none with (P := fun y w' => y = hc /\ w' = w); [by eapply wp_the_handle|]. intros y w' [-> ->].
  rewrite Hact', (proj2 (Z.eqb_neq _ 0)) by done. cbn [andb negb].
  eapply bind_none with (P := fun _ w' => exists r', idle_ok w' r' /\ pget k (info r') !! b = None).
  - apply wp_bind. unfold call_handle. apply wp_bind. eapply wp_the_handle; [done|]. apply wp_bind, wp_get. rewrite Huser.
    apply wp_bind, wp_modify. set (w1 := w <| calls ::= cons _ |>). pose proof (record_call_ok w r (CHandle k a (hd_cb hc) (hd_userData hc)) H) as H1.
    fold w1 in H1. set (r1 := ref_call _ r) in H1. apply wp_bind. cbn [run_script]. eapply wp_seq; [by apply (idle_do_ok (OFree k b) w1 r1)|].
    cbv beta. intros res w2 (_ & _ & H2). do 2 apply wp_ret. set (r2 := fst (ref_op (OFree k b) r1)) in *.
    assert (Hb2 : pget k (info r2) !! b = None).
    { unfold r2, r1. cbn. destruct Hb as [hb Hb]. rewrite Hb. cbn. by rewrite pget_pset_eq, lookup_delete_eq. }
    assert (Ha2 : is_Some (pget k (info r2) !! a)).
    { eapply (ref_op_alive _ _ (dom base)); [done|by intros [= E]|]. cbn. by rewrite Hi. }
    destruct k; [|apply wp_ret; by exists r2..]. destruct cont; cbn [negb]; [apply wp_ret; by exists r2|].
    eapply wp_mono; [by apply handleStop_ok|]. cbv beta. intros _ w3 [_ H3]. eexists. split; [exact H3|].
    rewrite ref_active_info. destruct (decide (KIdle = KIdle /\ b = a)) as [[_ E]|_]; [by destruct Hab|done].
  - cbv beta. intros _ w' (r' & Hok & Hb'). rewrite Hnext. cbn [head walk]. unfold the_handle, mbind, prog_bind, get.
    rewrite (inv_info _ _ _ _ Hok), lookup_fmap in Hb'. by destruct (pget k (handles w') !! b).
Qed.

Lemma after_ok loop b m (w : idleWorld) r :
  idle_ok w r -> (exists x, managers w !! m = Some x /\ mg_loop x = loop) -> base !! loop = Some b -> after_legal user loop (dom base) r ->
  wp (idleAfterSleepCallback user m) (fun _ w' => idle_ok w' (ref_after user loop (snd b) r)) w.
Proof using All.
  intros H Hm Hb Hleg. unfold idleAfterSleepCallback. eapply wp_seq; [by apply (walk_list_ok KCheck loop m w r)|]. cbv beta.
  intros _ w' (Hok & x & Hx & El). apply wp_bind. eapply wp_the_mgr; [done|]. destruct (inv_mgr _ _ _ _ Hok m x Hx) as (ls & _ & Hmo).
  destruct (mo_loop _ _ _ _ _ _ _ Hmo) as (lp & b' & _ & Hb' & _ & _ & _ & Eo & _). rewrite El, Hb in Hb'. injection Hb' as <-.
  rewrite Eo. by apply call_original_ok.
Qed.

Lemma before_ok loop b m (w : idleWorld) r :
  idle_ok w r -> (exists x, managers w !! m = Some x /\ mg_loop x = loop) -> base !! loop = Some b -> before_legal user loop (dom base) r ->
  wp (idleBeforeSleepCallback user m) (fun _ w' => idle_ok w' (ref_before user loop (fst b) r)) w.
Proof using All.
  intros H Hm Hb [Hleg1 Hleg2]. unfold idleBeforeSleepCallback. eapply wp_seq; [by apply (walk_list_ok KPrepare loop m w r)|]. cbv beta.
  intros _ w1 (Hok1 & Hm1). eapply wp_seq; [by apply (walk_list_ok KIdle loop m w1)|]. cbv beta.
  intros _ w' (Hok & x & Hx & El). apply wp_bind. eapply wp_the_mgr; [done|]. destruct (inv_mgr _ _ _ _ Hok m x Hx) as (ls & _ & Hmo).
  destruct (mo_loop _ _ _ _ _ _ _ Hmo) as (lp & b' & _ & Hb' & _ & _ & Eo & _). rewrite El, Hb in Hb'. injection Hb' as <-.
  rewrite Eo. by apply call_original_ok.
Qed.

(** A loop with handles has the callbacks of its manager. *)
Lemma hooked (w : idleWorld) r loop ls : idle_ok w r -> members r !! loop = Some ls ->
  exists lp b m x, loops w !! loop = Some lp /\ base !! loop = Some b /\ managers w !! m = Some x /\ mg_loop x = loop /\
    lp_before lp = Some (idleBeforeSleepCallback_ptr, Z.of_nat m) /\ lp_after lp = Some (idleAfterSleepCallback_ptr, Z.of_nat m) /\
    origBefore x = fst b /\ origAfter x = snd b /\ mgr_ok (handles w) w r true m x ls.
Proof using Type.
  intros H Hls. destruct (inv_members _ _ _ _ H loop) as (m & x & Hx & El); [by eexists|].
  destruct (inv_mgr _ _ _ _ H m x Hx) as (ls' & Hls' & Hmo). rewrite El in Hls'. assert (ls' = ls) as -> by congruence.
  destruct (mo_loop _ _ _ _ _ _ _ Hmo) as (lp & b & Hlp & Hb & ? & ? & ? & ? & _). rewrite El in *. exists lp, b, m, x. by split_and!.
Qed.
End Invariant.

(** ** The theorems *)

Section Theorems.
Context {K : Type} {T : Type} `{!TimerWheel T}.

Definition sleeps (lps : gmap nat (loopyLoop K T)) : gmap nat (option (Z * Z) * option (Z * Z)) :=
  (fun lp => (lp_before lp, lp_after lp)) <$> lps.

(** [NULL] callbacks are [None]. *)
Definition proper_sleeps (lps : gmap nat (loopyLoop K T)) : Prop :=
  forall loop b d, sleeps lps !! loop = Some b -> fst b <> Some (0%Z, d) /\ snd b <> Some (0%Z, d).

(** C12. Any sequence of calls on the handles of any loops answers as the
    reference of lists and is never undefined; the counts are those of the
    active handles.  A loop with handles has the callbacks of its manager, which
    kept those the loop had; a loop whose last handle was freed has got its own
    back.  If the wheel takes every timer, the idle timer runs if and only if an
    idle handle is active. *)
Theorem idle_refines (lps : gmap nat (loopyLoop K T)) ops :
  proper_sleeps lps -> run_legal ops (dom lps) registry0 ->
  let r := fst (ref_run ops registry0) in
  exists w, idle_run ops (world0 lps) = Some (snd (ref_run ops registry0), w) /\
    (forall k, pget k (info r) = strip <$> pget k (handles w)) /\
    forall loop lp0, lps !! loop = Some lp0 -> exists lp, loops w !! loop = Some lp /\
      match members r !! loop with
      | None => lp_before lp = lp_before lp0 /\ lp_after lp = lp_after lp0
      | Some ls => exists m x, managers w !! m = Some x /\ mg_loop x = loop /\
          lp_before lp = Some (idleBeforeSleepCallback_ptr, Z.of_nat m) /\ lp_after lp = Some (idleAfterSleepCallback_ptr, Z.of_nat m) /\
          origBefore x = lp_before lp0 /\ origAfter x = lp_after lp0 /\
          (~ wheel_fails (T := T) -> idleTimerActive x = true <-> active_handles r KIdle (of_idle ls) <> [])
      end.
Proof using All.
  intros Hp Hl. cbv zeta. pose proof (world0_ok (sleeps lps) lps eq_refl) as H0. unfold sleeps in H0. fold (sleeps lps) in H0.
  assert (Hl' : run_legal ops (dom (sleeps lps)) registry0) by (unfold sleeps; by rewrite dom_fmap_L).
  destruct (wp_run _ _ _ (idle_run_ok (sleeps lps) Hp ops _ _ H0 Hl')) as (xs & w & E & -> & Hok). exists w. split; [done|].
  set (r := fst (ref_run ops registry0)) in *. split; [by eapply inv_info|]. intros loop lp0 Hlp0.
  assert (Hb : sleeps lps !! loop = Some (lp_before lp0, lp_after lp0)) by (unfold sleeps; by rewrite lookup_fmap, Hlp0).
  destruct (members r !! loop) as [ls|] eqn:Els.
  - destruct (hooked (sleeps lps) w r loop ls Hok Els) as (lp & b & m & x & Hlp & Hb' & Hx & El & Hbef & Haft & Eb & Ea & Hmo).
    assert (b = (lp_before lp0, lp_after lp0)) as -> by congruence. exists lp. split; [done|]. exists m, x. split_and!; try done.
    intros Hw. destruct (mo_timer _ _ _ _ _ _ _ _ Hmo eq_refl) as [Ht1 Ht2]. pose proof (mo_count _ _ _ _ _ _ _ _ Hmo KIdle) as Hc.
    change (of_idle (activeCount x) = length (active_handles r KIdle (of_idle ls))) in Hc. rewrite Hc in Ht1, Ht2. split; [intros Ht E'; specialize (Ht1 Ht); rewrite E' in Ht1; cbn in Ht1; lia|].
    intros Hne. destruct Ht2 as [?|?]; [|done|done]. destruct (active_handles r KIdle (of_idle ls)); [done|cbn; lia].
  - assert (Hd : is_Some (loops w !! loop)) by (apply elem_of_dom; rewrite (inv_dom _ _ _ _ _ Hok); apply elem_of_dom; by eexists).
    destruct Hd as [lp Hlp]. exists lp. split; [done|]. destruct (inv_free _ _ _ _ _ Hok loop lp Els Hlp) as (b & Hb' & ? & ?).
    assert (b = (lp_before lp0, lp_after lp0)) as -> by congruence. done.
Qed.

(** C13. The sleep callbacks of a loop with handles are those of its manager, and
    with callbacks of users that may start, stop, restart and free handles they
    run like the reference, which visits the handles that were in the list in its
    order, calls those active at their turn and then the callback the loop had
    itself; no freed handle is read.  The callbacks of a pass do not free a handle
    that is still to be visited, nor the last handle of the loop ([before_legal],
    [after_legal]): the code does not hold against either
    ([idle_free_next_unsafe], [idle_free_last_unsafe]). *)
Theorem idle_pass_refines base user (w : idleWorld K T) r loop ls :
  (forall loop b d, base !! loop = Some b -> fst b <> Some (0%Z, d) /\ snd b <> Some (0%Z, d)) ->
  idle_ok base w r -> members r !! loop = Some ls ->
  exists lp b m, loops w !! loop = Some lp /\ base !! loop = Some b /\
    lp_before lp = Some (idleBeforeSleepCallback_ptr, Z.of_nat m) /\ lp_after lp = Some (idleAfterSleepCallback_ptr, Z.of_nat m) /\
    (before_legal user loop (dom base) r -> exists w', idleBeforeSleepCallback user m w = Some (tt, w') /\
       idle_ok base w' (ref_before user loop (fst b) r)) /\
    (after_legal user loop (dom base) r -> exists w' called cs, idleAfterSleepCallback user m w = Some (tt, w') /\
       idle_ok base w' (ref_after user loop (snd b) r) /\ sublist called (of_check ls) /\ Forall2 (call_of KCheck) called cs /\
       calls w' = match snd b with Some (c, d) => [COriginal c d] | None => [] end ++ rev cs ++ calls w).
Proof using All.
  intros Hbase H Hls. destruct (hooked base w r loop ls H Hls) as (lp & b & m & x & Hlp & Hb & Hx & El & Hbef & Haft & _).
  exists lp, b, m. split_and!; try done.
  - intros Hleg. destruct (wp_run _ _ _ (before_ok base Hbase user loop b m w r H ltac:(by exists x) Hb Hleg)) as ([] & w' & E & Hok). by exists w'.
  - intros Hleg. destruct (wp_run _ _ _ (after_ok base Hbase user loop b m w r H ltac:(by exists x) Hb Hleg)) as ([] & w' & E & Hok).
    destruct (ref_walk_calls user KCheck (of_check ls) r) as (called & cs & Hsub & Hcs & Ec). exists w', called, cs. split_and!; try done.
    rewrite <- (inv_calls _ _ _ _ _ Hok). unfold ref_after, lists_of. rewrite Hls. cbn [default]. rewrite <- (inv_calls _ _ _ _ _ H), <- Ec.
    by destruct (snd b) as [[c d]|].
Qed.

(** A callback that frees the handle after its own makes the walk read
    freed memory: the link was taken before the callback. *)
Theorem idle_free_next_unsafe base user (w : idleWorld K T) r loop ls k a b l h cont :
  (forall loop b d, base !! loop = Some b -> fst b <> Some (0%Z, d) /\ snd b <> Some (0%Z, d)) ->
  idle_ok base w r -> members r !! loop = Some ls -> pget k ls = a :: b :: l ->
  pget k (info r) !! a = Some h -> hi_active h = true -> hi_cb h <> 0%Z -> user (length (calls w)) = ([OFree k b], cont) ->
  exists m x, managers w !! m = Some x /\ mg_loop x = loop /\ walk_list user k m w = None.
Proof using All.
  intros Hbase H Hls Hl Hi Hact Hcb Huser. destruct (hooked base w r loop ls H Hls) as (lp & bb & m & x & _ & _ & Hx & El & _ & _ & _ & _ & Hmo).
  exists m, x. split_and!; try done. pose proof (mo_chain _ _ _ _ _ _ _ _ Hmo k) as Hch.
  pose proof (rg_nodup _ (inv_registry _ _ _ _ _ H) k _ ls Hls) as Hnd. pose proof (dchain_size _ _ _ _ _ _ Hch Hnd) as Hsz.
  pose proof (dchain_head _ _ _ _ _ _ Hch) as Hhd. rewrite Hl in Hsz, Hhd. cbn in Hsz, Hhd.
  unfold walk_list. eapply bind_none with (P := fun y w' => y = x /\ w' = w); [by eapply wp_the_mgr|]. intros y w' [-> ->].
  eapply bind_none with (P := fun y w' => y = w /\ w' = w); [by apply wp_get|]. intros y w' [-> ->]. rewrite Hhd.
  destruct (size (pget k (handles w))) as [|[|n]]; [lia|lia|].
  eapply (walk_freed_next base Hbase user k loop m a b l cont); try done. split; [done|]. split; [by exists x|]. by exists ls, [].
Qed.
End Theorems.

(** ** Two check handles of a loop *)

Definition demo_lps : gmap nat (loopyLoop unit simple_wheel) := {[5 := demo_loop <| lp_after := Some (9, 3)%Z |>]}.
Definition demo_ops : list idle_op := [OStart KCheck (Some 5) 8 2 true true; OStart KCheck (Some 5) 8 3 true true].
Definition demo_registry : registry := fst (ref_run demo_ops registry0).

Lemma demo_proper : proper_sleeps demo_lps.
Proof.
  intros loop b d. unfold sleeps, demo_lps. rewrite map_fmap_singleton. intros [_ <-]%lookup_singleton_Some. by split.
Qed.

Lemma demo_dom : dom (sleeps demo_lps) = {[5]}.
Proof. by vm_compute. Qed.

Lemma demo_legal : run_legal demo_ops (dom (sleeps demo_lps)) registry0.
Proof. rewrite demo_dom. repeat split; cbn [idle_legal]; set_solver. Qed.

Lemma demo_reached : exists w : idleWorld unit simple_wheel, idle_ok (sleeps demo_lps) w demo_registry.
Proof.
  pose proof (idle_run_ok _ demo_proper demo_ops _ _ (world0_ok _ demo_lps eq_refl) demo_legal) as H.
  destruct (wp_run _ _ _ H) as (xs & w & _ & _ & Hok). by exists w.
Qed.

Lemma idle_refines_witness :
  exists w, idle_run (demo_ops ++ [OCount KCheck 5; OStop KCheck 1; OCount KCheck 5; OFree KCheck 0; OFree KCheck 1; OCount KCheck 5])
      (world0 demo_lps) = Some ([RHandle (Some 0); RHandle (Some 1); RCount 2; RUnit; RCount 1; RUnit; RUnit; RCount 0], w) /\
    lp_after <$> loops w !! 5 = Some (Some (9, 3)%Z).
Proof.
  set (ops := demo_ops ++ _). assert (Hl : run_legal ops (dom demo_lps) registry0).
  { assert (E : dom demo_lps = {[5]}) by by vm_compute. rewrite E.
    repeat split; cbn [idle_legal]; try set_solver; vm_compute; by eexists. }
  destruct (idle_refines demo_lps ops demo_proper Hl) as (w & E & _ & Hloop). exists w. split.
  - rewrite E. by vm_compute.
  - destruct (Hloop 5 (demo_loop <| lp_after := Some (9, 3)%Z |>)) as (lp & Hlp & Hcase); [by vm_compute|]. rewrite Hlp.
    assert (Em : members (fst (ref_run ops registry0)) !! 5 = None) by by vm_compute. rewrite Em in Hcase.
    destruct Hcase as [_ Ha]. cbn. by rewrite Ha.
Defined.

(** The first callback frees its own handle and starts an idle handle. *)
Definition demo_user (i : nat) : list idle_op * bool :=
  if i =? 0 then ([OStart KIdle (Some 5) 7 4 true true; OFree KCheck 1], true) else ([], true).

Lemma idle_pass_refines_witness : exists (w : idleWorld unit simple_wheel) m w', idle_ok (sleeps demo_lps) w demo_registry /\
  idleAfterSleepCallback demo_user m w = Some (tt, w') /\
  calls w' = [COriginal 9 3; CHandle KCheck 0 8 2; CHandle KCheck 1 8 3].
Proof.
  destruct demo_reached as [w Hw].
  destruct (idle_pass_refines (sleeps demo_lps) demo_user w demo_registry 5 (Per [] [] [1; 0]) demo_proper Hw ltac:(by vm_compute))
    as (lp & b & m & _ & Hb & _ & _ & _ & Haft).
  assert (Hleg : after_legal demo_user 5 (dom (sleeps demo_lps)) demo_registry).
  { rewrite demo_dom. unfold after_legal. replace (of_check (lists_of demo_registry 5)) with [1; 0] by by vm_compute.
    split; [|split; [by vm_compute|done]].
    unfold turn_legal. replace (pget KCheck (info demo_registry) !! 1) with (Some (HInfo 5 8 3 true)) by by vm_compute.
    cbn [hi_active hi_cb Z.eqb negb andb]. change (length (rg_calls demo_registry)) with 0. cbn [demo_user Nat.eqb].
    split_and!; first [done | intros a [= <-]; set_solver | by (vm_compute; eexists) | cbn [idle_legal]; set_solver]. }
  destruct (Haft Hleg) as (w' & _ & _ & Hrun & Hok & _). exists w, m, w'. split; [done|]. split; [done|].
  rewrite <- (inv_calls _ _ _ _ _ Hok). replace b with (@None (Z * Z), Some (9, 3)%Z); [by vm_compute|].
  vm_compute in Hb. by injection Hb as <-.
Defined.

Lemma idle_free_next_unsafe_witness : exists (w : idleWorld unit simple_wheel) m,
  walk_list (fun _ => ([OFree KCheck 0], true)) KCheck m w = None.
Proof.
  destruct demo_reached as [w Hw].
  assert (Hm : members demo_registry !! 5 = Some (Per [] [] [1; 0])) by by vm_compute.
  assert (Hi : pget KCheck (info demo_registry) !! 1 = Some (HInfo 5 8 3 true)) by by vm_compute.
  pose proof (idle_free_next_unsafe (sleeps demo_lps) (fun _ => ([OFree KCheck 0], true)) w demo_registry 5 (Per [] [] [1; 0]) KCheck 1 0 []
    (HInfo 5 8 3 true) true demo_proper Hw Hm eq_refl Hi eq_refl ltac:(done) eq_refl) as (m & _ & _ & _ & Hrun). by exists w, m.
Defined.

(** A callback that frees the last handle of its loop frees the manager, which
    the rest of the pass reads. *)
Lemma idle_free_last_unsafe k :
  exists x w, idle_run [OStart k (Some 5) 8 2 true true] (world0 demo_lps) = Some (x, w) /\
    let user := fun _ => ([OFree k 0], true) in
    match k with KCheck => idleAfterSleepCallback user 0 w | _ => idleBeforeSleepCallback user 0 w end = None.
Proof. destruct k; do 2 eexists; (split; [by vm_compute|]); by vm_compute. Qed.

(** An allocation that fails leaves an empty manager with the loop's sleep
    callbacks. *)
Lemma idle_failed_start_hooks :
  exists w, idle_run [OStart KIdle (Some 5) 8 2 true false] (world0 demo_lps) = Some ([RHandle None], w) /\
    lp_after <$> loops w !! 5 = Some (Some (idleAfterSleepCallback_ptr, 0)%Z).
Proof. eexists. split; by vm_compute. Qed.
