(* ===== verification/FdLoop.v ===== *)
(** * What a handle needs of the event loop

    A handle over a descriptor (a stream) only asks for notification and takes
    the request back.  [FdLoop] is that interface, with what the registration
    means for the two kinds of interest; the loop of [EventLoop.v] implements
    it over any adapter. *)

From S2P Require Import Prelude Adapter EventLoop.

Local Open Scope Z_scope.

(** [fl_on l fd w]: the loop watches [fd] for writing ([w]) or reading.
    [fl_fd]: the descriptors it can hold. *)
Class FdLoop (L : Type) := {
  fl_register : bool -> Z -> Z -> Z -> L -> option (L * bool); (* write, fd, callback, data *)
  fl_unregister : bool -> bool -> Z -> L -> option L; (* read, write, fd *)
  fl_on : L -> Z -> bool -> bool;
  fl_fd : Z -> Prop;
  fl_ok : L -> Prop;
  fl_register_spec w fd cb data l : fl_ok l -> fl_fd fd ->
    exists l' ok, fl_register w fd cb data l = Some (l', ok) /\ fl_ok l' /\
      forall x b, fl_on l' x b = (ok && (x =? fd) && Bool.eqb b w) || fl_on l x b;
  fl_unregister_spec r w fd l : fl_ok l -> fl_fd fd ->
    exists l', fl_unregister r w fd l = Some l' /\ fl_ok l' /\
      forall x b, fl_on l' x b = fl_on l x b && negb ((x =? fd) && (if b then w else r))
}.

Section Instance.
Context {K : Type} `{!Adapter K} {T : Type} `{!TimerWheel T}.
Variables (junk : Z) (heapMem : bool * bool).

Definition action_of (r w : bool) : Z := Z.lor (if r then LOOPY_ACTION_READ else 0) (if w then LOOPY_ACTION_WRITE else 0).
Definition on (l : loopyLoop K T) (fd : Z) (b : bool) : bool := if b then isWrite (mask_at l fd) else isRead (mask_at l fd).

Lemma action_of_ok r w : mask_ok (action_of r w).
Proof using Type. by destruct r, w. Qed.

Lemma action_bits a r w : mask_ok a ->
  isRead (Z.lor a (action_of r w)) = isRead a || r /\ isWrite (Z.lor a (action_of r w)) = isWrite a || w /\
  isRead (Z.ldiff a (action_of r w)) = isRead a && negb r /\ isWrite (Z.ldiff a (action_of r w)) = isWrite a && negb w.
Proof using Type. intros Ha. mask_destruct; by destruct r, w. Qed.

(** The registrations of [EventLoop.v], whether or not memory for the heap of
    descriptors is granted; memory for the table is. *)
#[export] Program Instance event_fd_loop : FdLoop (loopyLoop K T) := {
  fl_register w fd cb data l :=
    if w then loopyRegisterWrite junk (LoopMem true heapMem) fd cb data l else loopyRegisterRead junk (LoopMem true heapMem) fd cb data l;
  fl_unregister r w fd l := loopyDeleteFileEvent fd (action_of r w) l;
  fl_on := on;
  fl_fd fd := 0 <= fd /\ 2 * fd <= INT_MAX /\ ad_fits fd;
  fl_ok := loop_wf_at false
}.
Next Obligation.
  intros w fd cb data l Hwf (H0 & Hi & Hf). cbn.
    assert (E : (if w then loopyRegisterWrite junk (LoopMem true heapMem) fd cb data l else loopyRegisterRead junk (LoopMem true heapMem) fd cb data l) =
      loopyNewFileEvent junk (LoopMem true heapMem) fd (action_of (negb w) w) cb data l) by by destruct w. rewrite E.
    destruct (register_wf junk (LoopMem true heapMem) fd (action_of (negb w) w) cb data l Hwf) as (l' & ok & El & Hwf' & _ & Hm & _); try done; [by destruct w..|].
    exists l', ok. split_and!; [done..|]. intros x b. unfold on. rewrite Hm.
    destruct ok; cbn [andb]; [|done]. destruct (Z.eqb_spec x fd) as [-> |]; cbn [andb]; [|done].
    destruct (action_bits (mask_at l fd) (negb w) w (mask_at_ok l fd Hwf)) as (Hr & Hw & _).
    destruct b; rewrite ?Hr, ?Hw; destruct w; cbn [negb Bool.eqb orb]; by rewrite ?orb_false_r, ?orb_true_r.
Qed.
Next Obligation.
  intros r w fd l Hwf (H0 & _ & _).
    destruct (unregister_wf fd (action_of r w) l Hwf H0 (action_of_ok r w)) as (l' & El & Hwf' & _ & Hm).
    exists l'. split_and!; [done..|]. intros x b. unfold on. rewrite Hm. destruct (Z.eqb_spec x fd) as [-> |]; cbn [andb negb].
    + destruct (action_bits (mask_at l fd) r w (mask_at_ok l fd Hwf)) as (_ & _ & Hr & Hw). by destruct b.
    + by rewrite andb_true_r.
Qed.

(** Where the adapter refuses no descriptor, no registration is refused. *)
Lemma event_accepts w fd cb data (l l' : loopyLoop K T) ok :
  (forall old g m k k' b, ad_add old g m k = Some (k', b) -> b = true) ->
  fl_register w fd cb data l = Some (l', ok) -> ok = true.
Proof using Type.
  intros Had E. assert (loopyNewFileEvent junk (LoopMem true heapMem) fd (action_of (negb w) w) cb data l = Some (l', ok)) as E'
    by by destruct w.
  clear E. revert E'. unfold loopyNewFileEvent. destruct (fdConformStorageBounds _ fd l) as [l1|]; [|done].
  cbn -[ad_add updateMaxfd set_event]. destruct (event l1 fd) as [fe|]; [|done].
  cbn -[ad_add updateMaxfd set_event]. destruct (lp_state l1) as [k|]; [|done].
  cbn -[ad_add updateMaxfd set_event]. destruct (ad_add _ _ _ _) as [[k' b]|] eqn:Ea; [|done].
  rewrite (Had _ _ _ _ _ _ Ea). by intros [= _ <-].
Qed.
End Instance.

(** ** The loop over [select], and over an epoll that is full

    Concrete loops for examples: one whose adapter accepts every descriptor in
    its range, and one whose kernel refuses every [EPOLL_CTL_ADD]. *)

Definition select_loop : Type := loopyLoop fdSets (list (Z * (Z * Z))).
#[export] Instance select_fd_loop : FdLoop select_loop := event_fd_loop 0 (true, true).

Inductive full_epoll := FullEpoll.
#[export] Program Instance full_epoll_kernel : EpollKernel full_epoll := {
  ep_create := FullEpoll;
  ep_interest _ _ := None;
  ep_ctl _ _ _ k := (k, false)
}.
Solve Obligations with done.

Definition full_loop : Type := loopyLoop full_epoll (list (Z * (Z * Z))).
#[export] Instance full_fd_loop : FdLoop full_loop := event_fd_loop 0 (true, true).

Definition new_loop {K T} `{!Adapter K} `{!TimerWheel T} (setSize : Z) : loopyLoop K T :=
  match loopyNew true true mem_ok setSize with Some (Some l) => l | _ => zeroLoop end.

Lemma new_loop_ok {K T} `{!Adapter K} `{!TimerWheel T} setSize k :
  1 <= setSize -> ad_new true = Some k -> loop_wf_at false (new_loop setSize : loopyLoop K T).
Proof.
  intros Hs Hk. destruct (loopyNew_wf (K := K) (T := T) setSize k Hs Hk) as (l & E & [[] _ _] & _).
  unfold new_loop. rewrite E. by split.
Qed.

Definition select_start : select_loop := new_loop 8.
Definition full_start : full_loop := new_loop 8.

Lemma select_loop_ok : fl_ok select_start.
Proof. apply (new_loop_ok 8 (FdSets ∅ ∅)); [lia|done]. Qed.

Lemma select_fits g : 0 <= g < FD_SETSIZE -> fl_fd (L := select_loop) g.
Proof. intros Hg. cbn. unfold FD_SETSIZE, INT_MAX in *. lia. Qed.

Lemma select_accepts w g cb d (l l' : select_loop) ok : fl_register w g cb d l = Some (l', ok) -> ok = true.
Proof.
  apply event_accepts. clear. intros old g m k k' b. cbn. unfold selectAddEvent.
  destruct (if isRead m then _ else _); [|done]. destruct (if isWrite m then _ else _); [|done]. by intros [= _ <-].
Qed.

(** A small loop: the set of what is watched. *)
Definition watch_set : Type := gset (Z * bool).
#[export] Program Instance watch_loop : FdLoop watch_set := {
  fl_register w fd cb data l := Some ({[(fd, w)]} ∪ l, true);
  fl_unregister r w fd l := Some (filter (fun x => ~ (x = (fd, true) /\ w = true \/ x = (fd, false) /\ r = true)) l);
  fl_on l fd w := bool_decide ((fd, w) ∈ l);
  fl_fd fd := True;
  fl_ok l := True
}.
Next Obligation.
  intros w fd cb data l _ _. eexists _, _. split_and!; [done..|]. intros x b. cbn [andb].
  destruct (Z.eqb_spec x fd) as [-> |Hx], (Bool.eqb_spec b w) as [-> |Hb]; cbn [andb orb];
    first [apply bool_decide_eq_true; set_solver|apply bool_decide_ext; set_solver].
Qed.
Next Obligation.
  intros r w fd l _ _. eexists. split_and!; [done..|]. intros x b. apply eq_bool_prop_intro.
  rewrite andb_True, negb_True, !bool_decide_spec, elem_of_filter, andb_True.
  destruct (Z.eqb_spec x fd) as [-> |Hx]; [|naive_solver].
  destruct b, r, w; naive_solver.
Qed.
