(* ===== verification/Stream.v ===== *)
(** * Streams ([src/loopyStream.c])

    One stream over one descriptor, with its queue of write requests in a heap.
    The kernel is a function of the system calls so far ([kernel]), the callbacks
    of users are scripts of calls ([user]), which run where the code calls them
    and may call the stream again.  [syslog] lists the system calls with their
    results and [evs] the callbacks, newest first.  A queue that is written out
    in [rounds] rounds may not be finished: the code keeps writing until the
    kernel refuses. *)

From S2P Require Import Prelude Chain FdLoop.

Local Open Scope nat_scope.

(** ** System calls *)

Inductive syscall :=
  | SysSocket (v6 : bool)
  | SysGetFlags (fd : Z)
  | SysSetNonblock (fd flags : Z)
  | SysSetsockopt (fd : Z) (v6only : bool)
  | SysBind (fd : Z) (v6 : bool) (port : Z)
  | SysListen (fd backlog : Z)
  | SysAccept (fd : Z)
  | SysConnect (fd : Z) (v6 : bool) (port : Z)
  | SysGetSoError (fd : Z)
  | SysGetsockname (fd : Z)
  | SysGetpeername (fd : Z)
  | SysRead (fd : Z) (len : nat)
  | SysRecvmsg (fd : Z) (len : nat)
  | SysWrite (fd : Z) (data : list Z)
  | SysSendmsg (fd : Z) (data : list Z) (fds : list Z)
  | SysShutdown (fd : Z)
  | SysClose (fd : Z).

(** The value returned, [errno], and what was received: for [SysGetSoError] the
    pending error, for the name of a socket its family (IPv6 or not), address as
    [inet_ntop] writes it and port, or nothing for another family. *)
Record sysret := SysRet {
  ret : Z;
  errno : Z;
  received : list Z;
  receivedFds : list Z;
  soError : Z;
  address : option (bool * string * Z)
}.

Definition EAGAIN : Z := 11. (* and [EWOULDBLOCK] *)
Definition EINPROGRESS : Z := 115.

(** ** Data *)

Inductive loopyStreamType := LOOPY_STREAM_TCP | LOOPY_STREAM_PIPE | LOOPY_STREAM_UNKNOWN.
#[export] Instance stream_type_eq : EqDecision loopyStreamType.
Proof. solve_decision. Defined.

Definition LOOPY_STREAM_MAX_FDS : nat := 8.

(** Callbacks and user data are numbers, 0 is [NULL]; [rq_len] is [length
    rq_data]. *)
Record loopyWriteReq := WriteReq {
  rq_data : list Z;
  rq_written : nat;
  rq_cb : Z;
  rq_userData : Z;
  rq_next : option nat;
  rq_fds : list Z;
  rq_fdsSent : bool
}.
#[export] Instance WriteReq_rebuild : Rebuild loopyWriteReq := fun r =>
  WriteReq (rq_data r) (rq_written r) (rq_cb r) (rq_userData r) (rq_next r) (rq_fds r) (rq_fdsSent r).
Definition rq_len (r : loopyWriteReq) : nat := length (rq_data r).

(** The fields for io_uring are not used by the code.  The sizes count bytes
    and structures in memory. *)
Record loopyStream := Stream {
  userData : Z;
  fd : Z;
  type : loopyStreamType;
  readable : bool;
  writable : bool;
  reading : bool;
  listening : bool;
  connected : bool;
  connecting : bool;
  shutdownPending : bool;
  closing : bool;
  allocCb : Z;
  readCb : Z;
  readFdCb : Z;
  readUserData : Z;
  writeHead : option nat;
  writeTail : option nat;
  writeQueueSize : nat;
  writeQueueCount : nat;
  listenCb : Z;
  listenUserData : Z;
  connectCb : Z;
  connectUserData : Z;
  shutdownCb : Z;
  shutdownUserData : Z;
  closeCb : Z;
  closeUserData : Z;
  errorString : option string (* the call that failed *)
}.
#[export] Instance Stream_rebuild : Rebuild loopyStream := fun s =>
  Stream (userData s) (fd s) (type s) (readable s) (writable s) (reading s) (listening s) (connected s) (connecting s)
    (shutdownPending s) (closing s) (allocCb s) (readCb s) (readFdCb s) (readUserData s) (writeHead s) (writeTail s)
    (writeQueueSize s) (writeQueueCount s) (listenCb s) (listenUserData s) (connectCb s) (connectUserData s)
    (shutdownCb s) (shutdownUserData s) (closeCb s) (closeUserData s) (errorString s).

(** The calls of user callbacks. *)
Inductive event :=
  | EvAlloc (cb : Z) (suggested : Z) (userData : Z)
  | EvRead (cb : Z) (nread : Z) (data : list Z) (userData : Z)
  | EvReadFd (cb : Z) (nread : Z) (data fds : list Z) (userData : Z)
  | EvWrite (cb status userData : Z)
  | EvListen (cb userData : Z)
  | EvConnect (cb status userData : Z)
  | EvShutdown (cb status userData : Z)
  | EvClose (cb userData : Z).

(** What a user calls. *)
Inductive stream_op :=
  | OWrite (data : list Z) (cb userData : Z) (mallocReq mallocData : bool)
  | OWriteFd (data fds : list Z) (cb userData : Z) (mallocReq mallocData : bool)
  | OTryWrite (data : list Z)
  | OShutdown (cb userData : Z)
  | OReadStart (alloc read userData : Z)
  | OReadStartFd (alloc read userData : Z)
  | OReadStop
  | OSetData (data : Z)
  | OAccept (mallocOk : bool)
  | OClose (cb userData : Z).

Section Stream.
Context {L : Type} `{!FdLoop L}.
Variable kernel : list (syscall * sysret) -> syscall -> sysret.
(** The calls made by a callback and, for an allocation callback, the size of the
    buffer. *)
Variable user : list event -> event -> list stream_op * nat.
Variable pton : bool -> string -> bool. (* [inet_pton] accepts the address *)

(** [st]: the stream, until it is freed.  [accepted] is a history, newest first:
    the writes that were queued, with descriptors, callback and user data, and
    what was written at once. *)
Record streamWorld := World {
  st : option loopyStream;
  reqs : gmap nat loopyWriteReq;
  loop : L;
  syslog : list (syscall * sysret);
  evs : list event;
  accepted : list (list Z * list Z * Z * Z)
}.
#[export] Instance World_rebuild : Rebuild streamWorld := fun w =>
  World (st w) (reqs w) (loop w) (syslog w) (evs w) (accepted w).

Notation sprog := (prog streamWorld).

(** ** Memory, kernel and loop *)

Definition the_stream : sprog loopyStream :=
  w ← get; match st w with Some s => mret s | None => undefined end.
Definition upd (f : loopyStream -> loopyStream) : sprog unit :=
  the_stream ≫= fun _ => modify (fun w => w <| st ::= fmap f |>).
Definition free_stream : sprog unit := the_stream ≫= fun _ => modify (fun w => w <| st := None |>).
Definition the_req (a : nat) : sprog loopyWriteReq :=
  w ← get; match reqs w !! a with Some r => mret r | None => undefined end.
Definition upd_req (a : nat) (f : loopyWriteReq -> loopyWriteReq) : sprog unit :=
  the_req a ≫= fun _ => modify (fun w => w <| reqs ::= alter f a |>).
Definition free_req (a : nat) : sprog unit := the_req a ≫= fun _ => modify (fun w => w <| reqs ::= delete a |>).

Definition sys (c : syscall) : sprog sysret :=
  w ← get; let r := kernel (syslog w) c in modify (fun w => w <| syslog ::= cons (c, r) |>) ≫= fun _ => mret r.

(** The addresses of the callbacks and of the stream. *)
Definition streamReadCallback_ptr : Z := 1.
Definition streamWriteCallback_ptr : Z := 2.
Definition streamListenCallback_ptr : Z := 3.
Definition streamConnectCallback_ptr : Z := 4.
Definition stream_ptr : Z := 1.

Definition register (write : bool) (fd cb : Z) : sprog bool :=
  w ← get;
  match fl_register write fd cb stream_ptr (loop w) with
  | None => undefined
  | Some (l, ok) => modify (fun w => w <| loop := l |>) ≫= fun _ => mret ok
  end.
Definition unregister (read write : bool) (fd : Z) : sprog unit :=
  w ← get;
  match fl_unregister read write fd (loop w) with
  | None => undefined
  | Some l => modify (fun w => w <| loop := l |>)
  end.

(** ** Helpers *)

(** The text that [strerror] adds is left out. *)
Definition streamSetError (field : string) : sprog unit := upd (fun s => s <| errorString := Some field |>).

Definition streamSetNonBlock (fd : Z) : sprog bool :=
  flags ← sys (SysGetFlags fd);
  if (ret flags <? 0)%Z then mret false else r ← sys (SysSetNonblock fd (ret flags)); mret (0 <=? ret r)%Z.

Definition streamUpdateWriteWatcher : sprog unit :=
  s ← the_stream;
  if bool_decide (is_Some (writeHead s)) || shutdownPending s || connecting s
  then register true (fd s) streamWriteCallback_ptr ≫= fun _ => mret tt
  else unregister false true (fd s).

(** ** New streams *)

Definition streamNew (t : loopyStreamType) : loopyStream :=
  Stream 0 (-1) t true true false false false false false false 0 0 0 0 None None 0 0 0 0 0 0 0 0 0 0 None.

Definition loopyStreamFromFd (nn mallocOk : bool) (fd0 : Z) (t : loopyStreamType) : sprog (option loopyStream) :=
  if (fd0 <? 0)%Z then mret None
  else if negb nn || negb mallocOk then mret None
  else
    ok ← streamSetNonBlock fd0;
    let s := (streamNew t) <| fd := fd0 |> <| connected := true |> in
    mret (Some (if (ok : bool) then s else s <| errorString := Some "fcntl" |>)).

(** The stream of the client, which is another stream. *)
Definition loopyStreamAccept (mallocOk : bool) : sprog (option loopyStream) :=
  s ← the_stream;
  if negb (listening s) || (fd s <? 0)%Z then mret None
  else
    r ← sys (SysAccept (fd s));
    if (ret r <? 0)%Z then
      (if (errno r =? EAGAIN)%Z then mret tt else streamSetError "accept") ≫= fun _ => mret None
    else
      client ← loopyStreamFromFd true mallocOk (ret r) LOOPY_STREAM_TCP;
      match client with
      | None => sys (SysClose (ret r)) ≫= fun _ => mret None
      | Some c => mret (Some c)
      end.

(** ** Code that calls the user

    [inv e] runs the callback [e]. *)
Section Callbacks.
Variable inv : event -> sprog nat.

Definition call_if (cb : Z) (e : event) : sprog unit :=
  if (cb =? 0)%Z then mret tt else inv e ≫= fun _ => mret tt.

(** The queue does not grow while it is drained unless callbacks write. *)
Fixpoint drainLoop (fuel : nat) (req : option nat) (status : Z) : sprog unit :=
  match fuel with
  | 0 => undefined
  | S fuel =>
      match req with
      | None => mret tt
      | Some a =>
          r ← the_req a;
          call_if (rq_cb r) (EvWrite (rq_cb r) status (rq_userData r)) ≫= fun _ =>
          free_req a ≫= fun _ =>
          drainLoop fuel (rq_next r) status
      end
  end.

Definition streamDrainWriteQueue (status : Z) : sprog unit :=
  s ← the_stream;
  w ← get;
  drainLoop (S (size (reqs w))) (writeHead s) status ≫= fun _ =>
  upd (fun s => s <| writeHead := None |> <| writeTail := None |> <| writeQueueSize := 0 |> <| writeQueueCount := 0 |>).

(** *** Reading *)

Definition loopyStreamReadStart (alloc read data : Z) : sprog bool :=
  if (alloc =? 0)%Z || (read =? 0)%Z then mret false
  else
    s ← the_stream;
    if (fd s <? 0)%Z || negb (readable s) then mret false
    else
      upd (fun s => s <| allocCb := alloc |> <| readCb := read |> <| readUserData := data |> <| reading := true |>) ≫= fun _ =>
      register false (fd s) streamReadCallback_ptr ≫= fun _ =>
      mret true.

Definition loopyStreamReadStop : sprog unit :=
  s ← the_stream;
  if negb (reading s) then mret tt
  else
    upd (fun s => s <| reading := false |>) ≫= fun _ =>
    if negb (listening s) then unregister true false (fd s) else mret tt.

Definition loopyStreamReadStartWithFd (alloc read data : Z) : sprog bool :=
  if (alloc =? 0)%Z || (read =? 0)%Z then mret false
  else
    s ← the_stream;
    if negb (bool_decide (type s = LOOPY_STREAM_PIPE)) then mret false
    else if (fd s <? 0)%Z || negb (readable s) || reading s then mret false
    else
      upd (fun s => s <| allocCb := alloc |> <| readCb := 0%Z |> <| readFdCb := read |> <| readUserData := data |>) ≫= fun _ =>
      ok ← register false (fd s) streamReadCallback_ptr;
      if negb ok then mret false
      else upd (fun s => s <| reading := true |>) ≫= fun _ => mret true.

(** [nread] bytes, the descriptors that came with them, to the callback in
    force. *)
Definition deliver (nread : Z) (data fds : list Z) : sprog unit :=
  s ← the_stream;
  if negb (readFdCb s =? 0)%Z
  then inv (EvReadFd (readFdCb s) nread data fds (readUserData s)) ≫= fun _ => mret tt
  else if (readCb s =? 0)%Z then undefined
  else inv (EvRead (readCb s) nread data (readUserData s)) ≫= fun _ => mret tt.

Definition streamReadCallback : sprog unit :=
  s ← the_stream;
  if negb (reading s) || (allocCb s =? 0)%Z || ((readCb s =? 0)%Z && (readFdCb s =? 0)%Z) then mret tt
  else
    bufLen ← inv (EvAlloc (allocCb s) 65536 (readUserData s));
    s ← the_stream;
    if bufLen =? 0 then
      if negb (readCb s =? 0)%Z then inv (EvRead (readCb s) (-1) [] (readUserData s)) ≫= fun _ => mret tt
      else if (readFdCb s =? 0)%Z then undefined
      else inv (EvReadFd (readFdCb s) (-1) [] [] (readUserData s)) ≫= fun _ => mret tt
    else
      let withFds := negb (readFdCb s =? 0)%Z && bool_decide (type s = LOOPY_STREAM_PIPE) in
      r ← sys (if withFds then SysRecvmsg (fd s) bufLen else SysRead (fd s) bufLen);
      if (0 <? ret r)%Z then deliver (ret r) (received r) (if withFds then take LOOPY_STREAM_MAX_FDS (receivedFds r) else [])
      else if (ret r =? 0)%Z then upd (fun s => s <| readable := false |>) ≫= fun _ => deliver 0 [] []
      else if (errno r =? EAGAIN)%Z then mret tt
      else streamSetError "read" ≫= fun _ => deliver (-1) [] [].

(** *** Writing *)

(** The request is put at the end of the queue. *)
Definition enqueue (r : loopyWriteReq) : sprog unit :=
  w ← get;
  let req := fresh (dom (reqs w)) in
  modify (fun w => w <| reqs ::= <[req := r]> |> <| accepted ::= cons (rq_data r, rq_fds r, rq_cb r, rq_userData r) |>) ≫= fun _ =>
  s ← the_stream;
  match writeTail s with
  | Some t => upd_req t (fun r => r <| rq_next := Some req |>) ≫= fun _ => upd (fun s => s <| writeTail := Some req |>)
  | None => upd (fun s => s <| writeTail := Some req |> <| writeHead := Some req |>)
  end ≫= fun _ =>
  upd (fun s => s <| writeQueueSize ::= fun n => n + rq_len r |> <| writeQueueCount ::= S |>).

(** [data = []] stands for [NULL] or no bytes. *)
Definition loopyStreamWrite (data : list Z) (cb d : Z) (mallocReq mallocData : bool) : sprog bool :=
  if bool_decide (data = []) then mret false
  else
    s ← the_stream;
    if (fd s <? 0)%Z || negb (writable s) || closing s then mret false
    else if negb mallocReq || negb mallocData then mret false
    else enqueue (WriteReq data 0 cb d None [] false) ≫= fun _ => streamUpdateWriteWatcher ≫= fun _ => mret true.

Definition loopyStreamWriteWithFd (data fds : list Z) (cb d : Z) (mallocReq mallocData : bool) : sprog bool :=
  if bool_decide (data = []) || bool_decide (fds = []) then mret false
  else
    s ← the_stream;
    if negb (bool_decide (type s = LOOPY_STREAM_PIPE)) then mret false
    else if LOOPY_STREAM_MAX_FDS <? length fds then mret false
    else if (fd s <? 0)%Z || negb (writable s) || closing s then mret false
    else if negb mallocReq || negb mallocData then mret false
    else enqueue (WriteReq data 0 cb d None fds false) ≫= fun _ => streamUpdateWriteWatcher ≫= fun _ => mret true.

Definition loopyStreamTryWrite (data : list Z) : sprog Z :=
  if bool_decide (data = []) then mret (-1)%Z
  else
    s ← the_stream;
    if (fd s <? 0)%Z || negb (writable s) || negb (connected s) then mret (-1)%Z
    else
      match writeHead s with
      | Some _ => mret (-1)%Z
      | None =>
          r ← sys (SysWrite (fd s) data);
          (if (ret r <? 0)%Z && negb (errno r =? EAGAIN)%Z then streamSetError "write" else mret tt) ≫= fun _ =>
          modify (fun w => w <| accepted ::= cons (take (Z.to_nat (ret r)) data, [], 0%Z, 0%Z) |>) ≫= fun _ =>
          mret (ret r)
      end.

(** *** Connecting *)

Definition connect_error (r : sysret) : Z := if (ret r <? 0)%Z then errno r else soError r.

Definition streamConnectCallback : sprog unit :=
  s ← the_stream;
  r ← sys (SysGetSoError (fd s));
  upd (fun s => s <| connecting := false |>) ≫= fun _ =>
  if (connect_error r =? 0)%Z then
    upd (fun s => s <| connected := true |>) ≫= fun _ =>
    unregister false true (fd s) ≫= fun _ =>
    streamUpdateWriteWatcher ≫= fun _ =>
    s ← the_stream; call_if (connectCb s) (EvConnect (connectCb s) 0 (connectUserData s))
  else
    streamSetError "connect" ≫= fun _ =>
    unregister false true (fd s) ≫= fun _ =>
    s ← the_stream; call_if (connectCb s) (EvConnect (connectCb s) (-1) (connectUserData s)).

(** *** The write callback

    One round of the loop over the queue: whether it goes on. *)
Inductive progress := Again | Stopped | Failed | Drained.

Definition writeRound : sprog progress :=
  s ← the_stream;
  match writeHead s with
  | None => mret Drained
  | Some a =>
      r ← the_req a;
      let remaining := drop (rq_written r) (rq_data r) in
      let withFds := negb (bool_decide (rq_fds r = [])) && negb (rq_fdsSent r) && bool_decide (type s = LOOPY_STREAM_PIPE) in
      x ← sys (if withFds then SysSendmsg (fd s) remaining (rq_fds r) else SysWrite (fd s) remaining);
      (if withFds && (0 <? ret x)%Z then upd_req a (fun r => r <| rq_fdsSent := true |>) else mret tt) ≫= fun _ =>
      if (ret x <? 0)%Z then
        if (errno x =? EAGAIN)%Z then mret Stopped
        else
          streamSetError "write" ≫= fun _ =>
          streamDrainWriteQueue (-1) ≫= fun _ =>
          streamUpdateWriteWatcher ≫= fun _ =>
          mret Failed
      else
        let n := Z.to_nat (ret x) in
        upd_req a (fun r => r <| rq_written ::= fun k => k + n |>) ≫= fun _ =>
        upd (fun s => s <| writeQueueSize ::= fun k => k - n |>) ≫= fun _ =>
        r ← the_req a;
        (if rq_len r <=? rq_written r then
           upd (fun s => s <| writeHead := rq_next r |>) ≫= fun _ =>
           s ← the_stream;
           (if bool_decide (writeHead s = None) then upd (fun s => s <| writeTail := None |>) else mret tt) ≫= fun _ =>
           upd (fun s => s <| writeQueueCount ::= pred |>) ≫= fun _ =>
           call_if (rq_cb r) (EvWrite (rq_cb r) 0 (rq_userData r)) ≫= fun _ =>
           free_req a
         else mret tt) ≫= fun _ =>
        mret Again
  end.

Fixpoint writeRounds (rounds : nat) : sprog progress :=
  match rounds with
  | 0 => mret Again
  | S rounds => p ← writeRound; match p with Again => writeRounds rounds | _ => mret p end
  end.

(** After the queue was written out. *)
Definition finishWrites : sprog unit :=
  s ← the_stream;
  (if shutdownPending s && bool_decide (writeHead s = None) then
     sys (SysShutdown (fd s)) ≫= fun _ =>
     upd (fun s => s <| writable := false |> <| shutdownPending := false |>) ≫= fun _ =>
     s ← the_stream;
     call_if (shutdownCb s) (EvShutdown (shutdownCb s) 0 (shutdownUserData s))
   else mret tt) ≫= fun _ =>
  streamUpdateWriteWatcher.

(** Whether it returned within the rounds. *)
Definition streamWriteCallback (rounds : nat) : sprog bool :=
  s ← the_stream;
  if connecting s then streamConnectCallback ≫= fun _ => mret true
  else
    p ← writeRounds rounds;
    match p with
    | Again => mret false
    | Stopped | Failed => mret true
    | Drained => finishWrites ≫= fun _ => mret true
    end.

(** *** Shutdown and close *)

Definition loopyStreamShutdown (cb d : Z) : sprog bool :=
  s ← the_stream;
  if (fd s <? 0)%Z || negb (writable s) then mret false
  else
    upd (fun s => s <| shutdownCb := cb |> <| shutdownUserData := d |>) ≫= fun _ =>
    match writeHead s with
    | Some _ => upd (fun s => s <| shutdownPending := true |>) ≫= fun _ => mret true
    | None =>
        r ← sys (SysShutdown (fd s));
        if (ret r <? 0)%Z then streamSetError "shutdown" ≫= fun _ => mret false
        else
          upd (fun s => s <| writable := false |>) ≫= fun _ =>
          call_if cb (EvShutdown cb 0 d) ≫= fun _ => mret true
    end.

Definition loopyStreamClose (cb d : Z) : sprog unit :=
  s ← the_stream;
  if closing s then mret tt
  else
    upd (fun s => s <| closing := true |> <| closeCb := cb |> <| closeUserData := d |>) ≫= fun _ =>
    (if reading s then loopyStreamReadStop else mret tt) ≫= fun _ =>
    s ← the_stream;
    (if (0 <=? fd s)%Z then unregister true true (fd s) else mret tt) ≫= fun _ =>
    streamDrainWriteQueue (-1) ≫= fun _ =>
    s ← the_stream;
    (if (0 <=? fd s)%Z then sys (SysClose (fd s)) ≫= fun _ => upd (fun s => s <| fd := (-1)%Z |>) else mret tt) ≫= fun _ =>
    call_if cb (EvClose cb d) ≫= fun _ =>
    free_stream.

(** *** Calls of the user *)

Definition stream_do (op : stream_op) : sprog unit :=
  match op with
  | OWrite data cb d m1 m2 => loopyStreamWrite data cb d m1 m2 ≫= fun _ => mret tt
  | OWriteFd data fds cb d m1 m2 => loopyStreamWriteWithFd data fds cb d m1 m2 ≫= fun _ => mret tt
  | OTryWrite data => loopyStreamTryWrite data ≫= fun _ => mret tt
  | OShutdown cb d => loopyStreamShutdown cb d ≫= fun _ => mret tt
  | OReadStart alloc read d => loopyStreamReadStart alloc read d ≫= fun _ => mret tt
  | OReadStartFd alloc read d => loopyStreamReadStartWithFd alloc read d ≫= fun _ => mret tt
  | OReadStop => loopyStreamReadStop
  | OSetData d => upd (fun s => s <| userData := d |>)
  | OAccept mallocOk => loopyStreamAccept mallocOk ≫= fun _ => mret tt
  | OClose cb d => loopyStreamClose cb d
  end.

Fixpoint stream_script (ops : list stream_op) : sprog unit :=
  match ops with [] => mret tt | op :: ops => stream_do op ≫= fun _ => stream_script ops end.
End Callbacks.

(** Callbacks within callbacks, to a depth: only a shutdown and a close call
    back at once, and each of them does so once. *)
Fixpoint invoke (depth : nat) (e : event) : sprog nat :=
  match depth with
  | 0 => undefined
  | S depth =>
      w ← get;
      let '(ops, len) := user (evs w) e in
      modify (fun w => w <| evs ::= cons e |>) ≫= fun _ => stream_script (invoke depth) ops ≫= fun _ => mret len
  end.
Definition call_user : event -> sprog nat := invoke 3.

(** ** Connections *)

(** The creators give the stream that a world starts with. *)
Definition loopyStreamNewTcp (nn mallocOk : bool) : sprog (option loopyStream) :=
  if negb nn || negb mallocOk then mret None
  else
    r ← sys (SysSocket false);
    if (ret r <? 0)%Z then mret None
    else
      ok ← streamSetNonBlock (ret r);
      if negb ok then sys (SysClose (ret r)) ≫= fun _ => mret None
      else mret (Some ((streamNew LOOPY_STREAM_TCP) <| fd := ret r |>)).

Definition loopyStreamNewPipe (nn mallocOk : bool) : option loopyStream :=
  if negb nn || negb mallocOk then None else Some (streamNew LOOPY_STREAM_PIPE).

Definition loopyStreamListen (backlog cb d : Z) : sprog bool :=
  s ← the_stream;
  if negb (bool_decide (type s = LOOPY_STREAM_TCP)) || (fd s <? 0)%Z || (cb =? 0)%Z then mret false
  else
    r ← sys (SysListen (fd s) backlog);
    if (ret r <? 0)%Z then streamSetError "listen" ≫= fun _ => mret false
    else
      upd (fun s => s <| listening := true |> <| listenCb := cb |> <| listenUserData := d |>) ≫= fun _ =>
      register false (fd s) streamListenCallback_ptr ≫= fun _ => mret true.

Definition streamListenCallback : sprog unit :=
  s ← the_stream; call_if call_user (listenCb s) (EvListen (listenCb s) (listenUserData s)).

(** [addr = None]: [NULL]. *)
Definition loopyStreamBind (addr : option string) (port : Z) : sprog bool :=
  s ← the_stream;
  if negb (bool_decide (type s = LOOPY_STREAM_TCP)) || (fd s <? 0)%Z then mret false
  else if match addr with None => false | Some a => negb (bool_decide (a = ""%string)) && negb (pton false a) end
  then streamSetError "inet_pton" ≫= fun _ => mret false
  else
    sys (SysSetsockopt (fd s) false) ≫= fun _ =>
    r ← sys (SysBind (fd s) false port);
    if (ret r <? 0)%Z then streamSetError "bind" ≫= fun _ => mret false else mret true.

Definition loopyStreamBind6 (addr : option string) (port : Z) (ipv6Only : bool) : sprog bool :=
  s ← the_stream;
  if negb (bool_decide (type s = LOOPY_STREAM_TCP)) then mret false
  else
    (if (0 <=? fd s)%Z then sys (SysClose (fd s)) ≫= fun _ => mret tt else mret tt) ≫= fun _ =>
    r ← sys (SysSocket true);
    upd (fun s => s <| fd := ret r |>) ≫= fun _ =>
    if (ret r <? 0)%Z then streamSetError "socket" ≫= fun _ => mret false
    else
      ok ← streamSetNonBlock (ret r);
      if negb ok then streamSetError "fcntl" ≫= fun _ => mret false
      else
        sys (SysSetsockopt (ret r) false) ≫= fun _ =>
        (if ipv6Only then sys (SysSetsockopt (ret r) true) ≫= fun _ => mret tt else mret tt) ≫= fun _ =>
        if match addr with None => false | Some a => negb (bool_decide (a = ""%string)) && negb (pton true a) end
        then streamSetError "inet_pton" ≫= fun _ => mret false
        else
          x ← sys (SysBind (ret r) true port);
          if (ret x <? 0)%Z then streamSetError "bind" ≫= fun _ => mret false else mret true.

Definition loopyStreamConnect (addr : string) (port cb d : Z) : sprog bool :=
  s ← the_stream;
  if negb (bool_decide (type s = LOOPY_STREAM_TCP)) || (fd s <? 0)%Z then mret false
  else
    family ←
      (if pton false addr then mret (Some false)
       else if pton true addr then
         sys (SysClose (fd s)) ≫= fun _ =>
         r ← sys (SysSocket true);
         upd (fun s => s <| fd := ret r |>) ≫= fun _ =>
         if (ret r <? 0)%Z then streamSetError "socket" ≫= fun _ => mret None
         else
           ok ← streamSetNonBlock (ret r);
           if negb ok then streamSetError "fcntl" ≫= fun _ => mret None else mret (Some true)
       else streamSetError "inet_pton" ≫= fun _ => mret None);
    match family with
    | None => mret false
    | Some v6 =>
        s ← the_stream;
        r ← sys (SysConnect (fd s) v6 port);
        if (ret r <? 0)%Z && negb (errno r =? EINPROGRESS)%Z then streamSetError "connect" ≫= fun _ => mret false
        else if (ret r =? 0)%Z then
          upd (fun s => s <| connected := true |>) ≫= fun _ =>
          call_if call_user cb (EvConnect cb 0 d) ≫= fun _ => mret true
        else
          upd (fun s => s <| connecting := true |> <| connectCb := cb |> <| connectUserData := d |>) ≫= fun _ =>
          register true (fd s) streamConnectCallback_ptr ≫= fun _ => mret true
    end.

(** ** Input

    Calls of the user and what the loop calls. *)
Inductive stream_input :=
  | ICall (op : stream_op)
  | IReadable
  | IWritable (rounds : nat)
  | IAcceptable
  | IConnected.

Definition stream_step (i : stream_input) : sprog unit :=
  match i with
  | ICall op => stream_do call_user op
  | IReadable => streamReadCallback call_user
  | IWritable rounds => streamWriteCallback call_user rounds ≫= fun _ => mret tt
  | IAcceptable => streamListenCallback
  | IConnected => streamConnectCallback call_user
  end.

(** ** Properties *)

(** [addrLen]: the room for the address, 0 for [NULL]; the result holds what is
    written to the address and the port. *)
Definition socket_name (call : syscall) (field : string) (addrLen : nat) : sprog (option (option string * Z)) :=
  r ← sys call;
  if (ret r <? 0)%Z then streamSetError field ≫= fun _ => mret None
  else
    mret (match address r with
          | None => None
          | Some (_, text, port) => Some (if String.length text <? addrLen then Some text else None, port)
          end).
Definition loopyStreamGetSockName (addrLen : nat) : sprog (option (option string * Z)) :=
  s ← the_stream; if (fd s <? 0)%Z then mret None else socket_name (SysGetsockname (fd s)) "getsockname" addrLen.
Definition loopyStreamGetPeerName (addrLen : nat) : sprog (option (option string * Z)) :=
  s ← the_stream; if (fd s <? 0)%Z then mret None else socket_name (SysGetpeername (fd s)) "getpeername" addrLen.

Definition loopyStreamIsReading (s : option loopyStream) : bool := from_option reading false s.
Definition loopyStreamGetWriteQueueSize (s : option loopyStream) : nat := from_option writeQueueSize 0 s.
Definition loopyStreamGetWriteQueueCount (s : option loopyStream) : nat := from_option writeQueueCount 0 s.
Definition loopyStreamIsReadable (s : option loopyStream) : bool := from_option readable false s.
Definition loopyStreamIsWritable (s : option loopyStream) : bool := from_option writable false s.
Definition loopyStreamGetType (s : option loopyStream) : loopyStreamType := from_option type LOOPY_STREAM_UNKNOWN s.
Definition loopyStreamGetFd (s : option loopyStream) : Z := from_option fd (-1)%Z s.
Definition loopyStreamCanPassFd (s : option loopyStream) : bool :=
  match s with None => false | Some s => bool_decide (type s = LOOPY_STREAM_PIPE) && (0 <=? fd s)%Z end.
Definition loopyStreamGetData (s : option loopyStream) : Z := from_option userData 0%Z s.
Definition loopyStreamGetError (s : option loopyStream) : option string := s ≫= errorString.
End Stream.
Arguments streamWorld : clear implicits.
