(* ===== verification/StreamSafe.v ===== *)
(** * Streams: what is written and when callbacks run

    The invariant of a stream between calls and in callbacks ([sound]): its
    write queue, what the kernel took, who was called back.  A stream of legal
    callbacks ([script_ok]) is never used after it was freed, and every write is
    sent in order and called back exactly once ([stream_safe]). *)

From S2P Require Import Prelude Chain FdLoop Stream.

Local Open Scope nat_scope.

(** ** What the histories say *)

(** The bytes and descriptors that the kernel took. *)
Definition taken (x : syscall * sysret) : list Z :=
  match fst x with SysWrite _ d | SysSendmsg _ d _ => take (Z.to_nat (ret (snd x))) d | _ => [] end.
Definition sent (log : list (syscall * sysret)) : list Z := concat (taken <$> rev log).
Definition taken_fds (x : syscall * sysret) : list Z :=
  match fst x with SysSendmsg _ _ fds => if (0 <? ret (snd x))%Z then fds else [] | _ => [] end.
Definition sent_fds (log : list (syscall * sysret)) : list Z := concat (taken_fds <$> rev log).

Definition is_write (c : syscall) : bool := match c with SysWrite _ _ | SysSendmsg _ _ _ => true | _ => false end.
Definition is_shutdown (x : syscall * sysret) : bool := match fst x with SysShutdown _ => (0 <=? ret (snd x))%Z | _ => false end.
Definition half_closed (log : list (syscall * sysret)) : bool := existsb is_shutdown log.
(** Nothing is written after a shutdown. *)
Fixpoint silent (log : list (syscall * sysret)) : bool :=
  match log with [] => true | x :: log => negb (is_write (fst x) && half_closed log) && silent log end.

Definition connect_failed (log : list (syscall * sysret)) : bool :=
  existsb (fun x => match fst x with SysGetSoError _ => negb (connect_error (snd x) =? 0)%Z | _ => false end) log.

Definition core (r : loopyWriteReq) : loopyWriteReq := r <| rq_next := None |>.
Definition item (r : loopyWriteReq) : list Z * list Z * Z * Z := (rq_data r, rq_fds r, rq_cb r, rq_userData r).
Definition left_of (r : loopyWriteReq) : nat := rq_len r - rq_written r.
Definition sent_of (r : loopyWriteReq) : list Z := take (rq_written r) (rq_data r).
Definition fds_of (r : loopyWriteReq) : list Z := if 0 <? rq_written r then rq_fds r else [].
(** The status that a finished request is called back with, if it has a
    callback. *)
Definition status_of (r : loopyWriteReq) : Z := if rq_len r <=? rq_written r then 0 else -1.
Definition notice (r : loopyWriteReq) : option (Z * Z * Z) :=
  if (rq_cb r =? 0)%Z then None else Some (rq_cb r, status_of r, rq_userData r).
Definition write_event (e : event) : option (Z * Z * Z) := match e with EvWrite cb st d => Some (cb, st, d) | _ => None end.

(** What was accepted is finished ([done]) or waits ([rs]), in this order. *)
Record history (log : list (syscall * sysret)) (es : list event) (acc : list (list Z * list Z * Z * Z))
    (done rs : list loopyWriteReq) : Prop := {
  hi_accepted : item <$> (done ++ rs) = rev acc;
  hi_sent : sent log = concat (sent_of <$> (done ++ rs));
  hi_fds : sent_fds log = concat (fds_of <$> (done ++ rs));
  hi_called : omap write_event (rev es) = omap notice done;
  hi_silent : silent log = true
}.

(** ** Legal callbacks *)

Definition is_close (op : stream_op) : bool := match op with OClose _ _ => true | _ => false end.
Definition queues (op : stream_op) : bool := match op with OWrite _ _ _ _ _ | OWriteFd _ _ _ _ _ _ => true | _ => false end.
Definition harmless (op : stream_op) : bool := match op with OShutdown _ _ | OTryWrite _ | OReadStop | OSetData _ => true | _ => false end.

Inductive event_class := Keeps | MayClose | Draining | Closing.
Definition class_of (e : event) : event_class :=
  match e with
  | EvAlloc _ _ _ | EvShutdown _ _ _ => Keeps
  | EvWrite _ st _ => if (st =? 0)%Z then Keeps else Draining
  | EvRead _ _ _ _ | EvReadFd _ _ _ _ _ | EvListen _ _ | EvConnect _ _ _ => MayClose
  | EvClose _ _ => Closing
  end.

Fixpoint close_last (ops : list stream_op) : bool :=
  match ops with [] => true | op :: ops => (negb (is_close op) || match ops with [] => true | _ => false end) && close_last ops end.

(** Callbacks of reads, connections and listeners may close the stream as the
    last thing they do, others may not; a callback that reports a failed write
    may not write or read; the close callback may do anything. *)
Definition script_ok (e : event) (ops : list stream_op) : bool :=
  match class_of e with
  | Keeps => forallb (fun op => negb (is_close op)) ops
  | MayClose => close_last ops
  | Draining => forallb harmless ops
  | Closing => true
  end.

Definition after_write (e : event) : bool := match e with EvWrite _ _ _ | EvShutdown _ _ _ => true | _ => false end.

(** ** Histories *)

Lemma sent_cons x log : sent (x :: log) = sent log ++ taken x.
Proof. unfold sent. cbn [rev]. rewrite fmap_app, concat_app. cbn. by rewrite app_nil_r. Qed.
Lemma sent_fds_cons x log : sent_fds (x :: log) = sent_fds log ++ taken_fds x.
Proof. unfold sent_fds. cbn [rev]. rewrite fmap_app, concat_app. cbn. by rewrite app_nil_r. Qed.

Lemma history_sys x log es acc done rs : is_write (fst x) = false -> history log es acc done rs -> history (x :: log) es acc done rs.
Proof.
  intros Hx []. split; try done.
  - rewrite sent_cons. destruct x as [[] r]; try done; cbn; by rewrite app_nil_r.
  - rewrite sent_fds_cons. destruct x as [[] r]; try done; cbn; by rewrite app_nil_r.
  - cbn [silent]. by rewrite Hx.
Qed.

Lemma history_event e log es acc done rs : write_event e = None -> history log es acc done rs -> history log (e :: es) acc done rs.
Proof. intros He []. split; try done. cbn [rev]. rewrite omap_app. cbn. by rewrite He, app_nil_r. Qed.

(** The first request is finished, and reported if it has a callback. *)
Lemma history_finish log es acc done r rs :
  history log es acc done (r :: rs) ->
  history log (match notice r with Some (cb, st, d) => EvWrite cb st d :: es | None => es end) acc (done ++ [r]) rs.
Proof.
  intros [Ha Hs Hf Hc Hq]. split; try done; rewrite <- ?(assoc_L (++)); try done. rewrite omap_app, <- Hc. cbn [omap list_omap].
  destruct (notice r) as [[[cb st] d]|]; [|by rewrite app_nil_r]. cbn [rev]. by rewrite omap_app.
Qed.

Lemma history_accept log es acc done rs r :
  rq_written r = 0 -> history log es acc done rs -> history log es (item r :: acc) done (rs ++ [r]).
Proof.
  intros Hw [Ha Hs Hf Hc Hq]. split; try done; rewrite (assoc_L (++)), fmap_app, ?concat_app.
  - rewrite Ha. done.
  - rewrite Hs. unfold sent_of at 3. cbn. by rewrite Hw, app_nil_r.
  - rewrite Hf. unfold fds_of at 3. cbn. by rewrite Hw, app_nil_r.
Qed.

Lemma unsent (rs : list loopyWriteReq) :
  Forall (fun r => rq_written r = 0) rs -> concat (sent_of <$> rs) = [] /\ concat (fds_of <$> rs) = [].
Proof.
  intros H. induction H as [|r rs Hr _ [IH1 IH2]]; [done|]. cbn. rewrite IH1, IH2. unfold sent_of, fds_of. by rewrite Hr.
Qed.

(** The kernel takes more of the first request. *)
Lemma history_write x log es acc done r r' rs :
  half_closed log = false -> item r' = item r -> sent_of r' = sent_of r ++ taken x -> fds_of r' = fds_of r ++ taken_fds x ->
  Forall (fun r => rq_written r = 0) rs -> history log es acc done (r :: rs) -> history (x :: log) es acc done (r' :: rs).
Proof.
  intros Hh Hi Hs Hf Hrs [Ha Hse Hfd Hc Hq]. destruct (unsent rs Hrs) as [Eu Ef].
  rewrite fmap_app in Ha. rewrite fmap_app in Hse. rewrite fmap_app in Hfd. cbn [fmap list_fmap] in Ha, Hse, Hfd. split; rewrite ?fmap_app; cbn [fmap list_fmap].
  - by rewrite Hi.
  - rewrite sent_cons, Hse, !concat_app. cbn [concat]. rewrite Hs. cbn. by rewrite Eu, !app_nil_r, (assoc_L (++)).
  - rewrite sent_fds_cons, Hfd, !concat_app. cbn. by rewrite Hf, Ef, !app_nil_r, (assoc_L (++)).
  - done.
  - cbn [silent]. by rewrite Hh, andb_false_r.
Qed.

(** Something is written at once. *)
Lemma history_direct x log es acc done r :
  half_closed log = false -> taken x = sent_of r -> taken_fds x = fds_of r -> notice r = None ->
  history log es acc done [] -> history (x :: log) es (item r :: acc) (done ++ [r]) [].
Proof.
  intros Hh Hs Hf Hn [Ha Hse Hfd Hc Hq]. rewrite app_nil_r in Ha. rewrite app_nil_r in Hse. rewrite app_nil_r in Hfd. split; rewrite ?app_nil_r, ?fmap_app, ?concat_app.
  - by rewrite Ha.
  - rewrite sent_cons, Hse, Hs. cbn. by rewrite app_nil_r.
  - rewrite sent_fds_cons, Hfd, Hf. cbn. by rewrite app_nil_r.
  - rewrite omap_app, <- Hc. cbn. by rewrite Hn, app_nil_r.
  - cbn [silent]. by rewrite Hh, andb_false_r.
Qed.

(** ** The write queue *)

(** A request in the queue, of a stream of the type [t]. *)
Definition live (t : loopyStreamType) (r : loopyWriteReq) : Prop :=
  rq_written r < rq_len r /\ (rq_fds r <> [] -> t = LOOPY_STREAM_PIPE /\ rq_fdsSent r = (0 <? rq_written r)).

(** The queue holds the requests [rs] at [addrs]; the heap has no others but
    [orph]. *)
Record wqueue (orph hp : gmap nat loopyWriteReq) (s : loopyStream) (addrs : list nat) (rs : list loopyWriteReq) : Prop := {
  wq_queue : queue rq_next hp (writeHead s) (writeTail s) addrs;
  wq_reqs : Forall2 (fun a r => core <$> hp !! a = Some r) addrs rs;
  wq_nodup : NoDup addrs;
  wq_other a : a ∉ addrs -> hp !! a = orph !! a;
  wq_own a : a ∈ addrs -> orph !! a = None;
  wq_live : Forall (live (type s)) rs;
  wq_untouched : Forall (fun r => rq_written r = 0) (tail rs);
  wq_size : writeQueueSize s = sum_list_with left_of rs;
  wq_count : writeQueueCount s = length rs
}.

Definition queue_fields (s : loopyStream) := (writeHead s, writeTail s, writeQueueSize s, writeQueueCount s, type s).

Lemma wqueue_ext orph hp s s' addrs rs : queue_fields s' = queue_fields s -> wqueue orph hp s addrs rs -> wqueue orph hp s' addrs rs.
Proof. unfold queue_fields. intros [= E1 E2 E3 E4 E5] []. split; rewrite ?E1, ?E2, ?E3, ?E4, ?E5; done. Qed.

Lemma wqueue_empty s : writeHead s = None -> writeTail s = None -> writeQueueSize s = 0 -> writeQueueCount s = 0 -> forall orph, wqueue orph orph s [] [].
Proof.
  intros E1 E2 E3 E4 orph. split; rewrite ?E1, ?E2; [apply queue_empty|constructor|constructor|done|by intros ? ?%elem_of_nil|constructor|constructor|done|done].
Qed.

Lemma wqueue_head orph hp s addrs rs : wqueue orph hp s addrs rs -> writeHead s = head addrs /\ writeTail s = last addrs /\ length addrs = length rs.
Proof. intros H. destruct (wq_queue _ _ _ _ _ H) as [Hc Ht]. split_and!; [by eapply chain_head|done|by eapply Forall2_length, (wq_reqs _ _ _ _ _ H)]. Qed.

(** No head means no requests. *)
Lemma wqueue_none orph hp s addrs rs : wqueue orph hp s addrs rs -> writeHead s = None -> addrs = [] /\ rs = [] /\ hp = orph.
Proof.
  intros H E. pose proof (queue_nil _ _ _ _ _ (wq_queue _ _ _ _ _ H) E) as ->. pose proof (wq_reqs _ _ _ _ _ H) as Hr.
  apply Forall2_nil_inv_l in Hr as ->. split_and!; [done..|]. apply map_eq. intros a. by apply (wq_other _ _ _ _ _ H), not_elem_of_nil.
Qed.

(** The first request. *)
Lemma wqueue_first orph hp s a addrs rs :
  wqueue orph hp s (a :: addrs) rs -> exists r q, rs = core r :: q /\ hp !! a = Some r /\ writeHead s = Some a.
Proof.
  intros H. pose proof (wq_reqs _ _ _ _ _ H) as Hr. apply Forall2_cons_inv_l in Hr as (r' & q & Ha & _ & ->).
  destruct (hp !! a) as [r|] eqn:E; [|done]. injection Ha as <-. exists r, q. split_and!; [done..|]. by apply (wqueue_head _ _ _ _ _ H).
Qed.

Lemma Forall2_frame {A B : Type} (hp hp' : gmap nat A) (f : A -> B) (addrs : list nat) (rs : list B) :
  (forall a, a ∈ addrs -> f <$> hp' !! a = f <$> hp !! a) ->
  Forall2 (fun a r => f <$> hp !! a = Some r) addrs rs -> Forall2 (fun a r => f <$> hp' !! a = Some r) addrs rs.
Proof.
  intros He H. induction H as [|a r addrs rs Ha _ IH]; [constructor|]. constructor; [rewrite He by set_solver; done|].
  apply IH. intros b Hb. apply He. by right.
Qed.

(** A request is put at the end. *)
Lemma wqueue_push orph hp s addrs rs a r hp' s' :
  wqueue orph hp s addrs rs -> orph !! a = None -> hp !! a = None -> rq_next r = None -> rq_written r = 0 -> live (type s) r ->
  hp' = match writeTail s with Some t => alter (fun r => r <| rq_next := Some a |>) t (<[a := r]> hp) | None => <[a := r]> hp end ->
  queue_fields s' = (match writeTail s with Some _ => writeHead s | None => Some a end, Some a, writeQueueSize s + rq_len r, S (writeQueueCount s), type s) ->
  wqueue orph hp' s' (addrs ++ [a]) (rs ++ [core r]).
Proof.
  intros H Ho Ha Hn Hw Hl Ehp Eqf. injection Eqf as E1 E2 E3 E4 E5. destruct (wqueue_head _ _ _ _ _ H) as (Eh & Et & El).
  pose proof (wq_queue _ _ _ _ _ H) as Hq. pose proof (wq_nodup _ _ _ _ _ H) as Hnd.
  assert (Hin : a ∉ addrs).
  { intros Hin. destruct Hq as [Hc _]. destruct (chain_lookup _ _ _ _ _ Hc Hin); congruence. }
  assert (Hlook : forall b, core <$> hp' !! b = core <$> (<[a := r]> hp) !! b).
  { intros b. rewrite Ehp. destruct (writeTail s) as [t|]; [|done]. destruct (decide (b = t)) as [-> |Hb]; [|by rewrite lookup_alter_ne].
    rewrite lookup_alter_eq. by destruct (_ !! t). }
  split.
  - rewrite E1, E2. destruct (writeTail s) as [t|] eqn:Et'.
    + assert (Htin : t ∈ addrs) by by apply (queue_tail_in _ _ _ _ _ Hq). destruct Hq as [Hc _].
      destruct (chain_lookup _ _ _ _ _ Hc Htin) as [x Hx]. rewrite Ehp, (alter_is_insert _ t _ x); [|by rewrite lookup_insert_ne by set_solver].
      eapply queue_push; [apply queue_frame; [done|by split]|done|by rewrite lookup_insert_ne by set_solver|done|done|by rewrite lookup_insert_eq|done].
    + subst hp'. destruct (queue_push_empty rq_next (<[a := r]> hp) (writeHead s) addrs a r) as [-> Hq']; [by apply queue_frame|by rewrite lookup_insert_eq|done|]. done.
  - apply Forall2_app.
    + eapply Forall2_frame; [|exact (wq_reqs _ _ _ _ _ H)]. intros b Hb. rewrite Hlook, lookup_insert_ne by set_solver. done.
    + constructor; [|constructor]. by rewrite Hlook, lookup_insert_eq.
  - apply NoDup_app. split_and!; [done| |by apply NoDup_singleton]. intros b Hb ->%list_elem_of_singleton. done.
  - intros b Hb. apply not_elem_of_app in Hb as [Hb Hba]. assert (b <> a) by set_solver. rewrite <- (wq_other _ _ _ _ _ H b Hb).
    subst hp'. destruct (writeTail s) as [t|] eqn:Et'; [|by rewrite lookup_insert_ne].
    rewrite lookup_alter_ne, lookup_insert_ne by (try done; intros ->; apply Hb; by apply (queue_tail_in _ _ _ _ _ Hq)). done.
  - intros b Hb. apply elem_of_app in Hb as [Hb| ->%list_elem_of_singleton]; [by apply (wq_own _ _ _ _ _ H)|done].
  - rewrite E5. apply Forall_app. split; [exact (wq_live _ _ _ _ _ H)|by constructor].
  - destruct rs as [|r0 rs]; [constructor|]. cbn [tail app]. apply Forall_app. split; [exact (wq_untouched _ _ _ _ _ H)|by repeat constructor].
  - rewrite E3, (wq_size _ _ _ _ _ H), sum_list_with_app. cbn. unfold rq_len. lia.
  - rewrite E4, (wq_count _ _ _ _ _ H), length_app. cbn. lia.
Qed.

(** The first request after more of it was written. *)
Lemma wqueue_progress orph hp s a addrs r r' q n s' :
  wqueue orph hp s (a :: addrs) (core r :: q) -> hp !! a = Some r -> rq_next r' = rq_next r -> live (type s) r' ->
  rq_len r' = rq_len r -> rq_written r' = rq_written r + n ->
  queue_fields s' = (writeHead s, writeTail s, writeQueueSize s - n, writeQueueCount s, type s) ->
  wqueue orph (<[a := r']> hp) s' (a :: addrs) (core r' :: q).
Proof.
  intros H Ha Hn Hl Elen Ew Eqf. injection Eqf as E1 E2 E3 E4 E5. pose proof (wq_nodup _ _ _ _ _ H) as Hnd.
  pose proof (wq_live _ _ _ _ _ H) as Hlv. apply Forall_cons in Hlv as [_ Hlv]. apply NoDup_cons in Hnd as [Hna _].
  split; rewrite ?E1, ?E2.
  - by eapply queue_update, (wq_queue _ _ _ _ _ H).
  - constructor; [by rewrite lookup_insert_eq|]. pose proof (wq_reqs _ _ _ _ _ H) as Hr. apply Forall2_cons in Hr as [_ Hr].
    eapply Forall2_frame; [|exact Hr]. intros b Hb. rewrite lookup_insert_ne by (intros ->; done). done.
  - apply (wq_nodup _ _ _ _ _ H).
  - intros b Hb. rewrite lookup_insert_ne by set_solver. by apply (wq_other _ _ _ _ _ H).
  - apply (wq_own _ _ _ _ _ H).
  - rewrite E5. by constructor.
  - apply (wq_untouched _ _ _ _ _ H).
  - rewrite E3, (wq_size _ _ _ _ _ H). cbn [sum_list_with]. unfold left_of at 1 3. change (rq_len (core ?x)) with (rq_len x).
    change (rq_written (core r')) with (rq_written r'). change (rq_written (core r)) with (rq_written r). destruct Hl as [Hl _]. lia.
  - rewrite E4, (wq_count _ _ _ _ _ H). done.
Qed.

(** The first request is taken out; it is still in the heap. *)
Lemma wqueue_pop orph hp s a addrs r r' q n s' :
  wqueue orph hp s (a :: addrs) (core r :: q) -> hp !! a = Some r -> rq_next r' = rq_next r -> n = left_of r ->
  queue_fields s' = (rq_next r, if bool_decide (rq_next r = None) then None else writeTail s, writeQueueSize s - n, pred (writeQueueCount s), type s) ->
  wqueue (<[a := r']> orph) (<[a := r']> hp) s' addrs q.
Proof.
  intros H Ha Hn -> Eqf. injection Eqf as E1 E2 E3 E4 E5. pose proof (wq_nodup _ _ _ _ _ H) as Hnd.
  pose proof (wq_live _ _ _ _ _ H) as Hlv. apply Forall_cons in Hlv as [_ Hlv]. apply NoDup_cons in Hnd as [Hna Hnd].
  pose proof (wq_reqs _ _ _ _ _ H) as Hr. apply Forall2_cons in Hr as [_ Hr]. destruct (wqueue_head _ _ _ _ _ H) as (Eh & _ & _). cbn in Eh.
  pose proof (wq_queue _ _ _ _ _ H) as Hq. rewrite Eh in Hq. destruct (queue_pop _ _ _ _ _ _ Hq Ha) as (l' & [= <-] & Hq').
  split; rewrite ?E1, ?E2; try done.
  - by eapply queue_update.
  - eapply Forall2_frame; [|exact Hr]. intros b Hb. rewrite lookup_insert_ne by (intros ->; done). done.
  - intros b Hb. destruct (decide (b = a)) as [-> |Hne]; [by rewrite !lookup_insert_eq|]. rewrite !lookup_insert_ne by done.
    apply (wq_other _ _ _ _ _ H). by apply not_elem_of_cons.
  - intros b Hb. rewrite lookup_insert_ne by (intros ->; done). apply (wq_own _ _ _ _ _ H). by right.
  - by rewrite E5.
  - pose proof (wq_untouched _ _ _ _ _ H) as Hu. cbn [tail] in Hu. destruct q; [constructor|]. by apply Forall_cons in Hu as [_ Hu].
  - rewrite E3, (wq_size _ _ _ _ _ H). cbn [sum_list_with]. change (left_of (core r)) with (left_of r). lia.
  - rewrite E4, (wq_count _ _ _ _ _ H). done.
Qed.

Lemma wqueue_free orph hp s a addrs rs :
  wqueue orph hp s addrs rs -> is_Some (orph !! a) -> wqueue (delete a orph) (delete a hp) s addrs rs.
Proof.
  intros H Ha. assert (Hna : a ∉ addrs) by (intros Hin; rewrite (wq_own _ _ _ _ _ H a Hin) in Ha; by destruct Ha).
  destruct H as [Hq Hr Hnd Ho Hw Hl Hu Hs Hc]. split; try done.
  - by apply queue_delete.
  - eapply Forall2_frame; [|exact Hr]. intros b Hb. rewrite lookup_delete_ne by (intros ->; done). done.
  - intros b Hb. destruct (decide (b = a)) as [-> |Hne]; [by rewrite !lookup_delete_eq|]. rewrite !lookup_delete_ne by done. auto.
  - intros b Hb. rewrite lookup_delete_ne by (intros ->; done). auto.
Qed.

Section Safety.
Context {L : Type} `{!FdLoop L}.
Variable kernel : list (syscall * sysret) -> syscall -> sysret.
Variable user : list event -> event -> list stream_op * nat.
Variable fd0 : Z. (* the descriptor *)

(** The kernel takes part of what it is given, and something of it; descriptors
    it hands out fit the loop.  [nothing] is not taken. *)
Hypothesis kernel_writes : forall log c n, (exists fd d fds, (c = SysWrite fd d \/ c = SysSendmsg fd d fds) /\ length d = S n) ->
  (ret (kernel log c) < 0)%Z \/ (0 < ret (kernel log c) <= Z.of_nat (S n))%Z.
Hypothesis user_legal : forall es e, script_ok e (fst (user es e)) = true.
Hypothesis fd0_ok : (0 <= fd0)%Z /\ fl_fd fd0.

Notation sprog := (prog (streamWorld L)).
Notation world := (streamWorld L).

(** Every registration of the descriptor with a well-formed loop is accepted. *)
Definition regs_accepted : Prop := forall w cb d (l l' : L) ok, fl_ok l -> fl_register w fd0 cb d l = Some (l', ok) -> ok = true.

Definition wants_write (s : loopyStream) : Prop := writeHead s <> None \/ shutdownPending s = true \/ connecting s = true.

Record base (s : loopyStream) (l : L) (log : list (syscall * sysret)) : Prop := {
  fg_closing : closing s = false;
  fg_fd : fd s = fd0;
  fg_loop : fl_ok l;
  fg_callbacks : allocCb s <> 0%Z -> readCb s <> 0%Z \/ readFdCb s <> 0%Z;
  fg_reading : reading s = true -> allocCb s <> 0%Z /\ (regs_accepted -> fl_on l fd0 false = true);
  fg_writable : writable s = false -> writeHead s = None;
  fg_half_closed : half_closed log = true -> writable s = false
}.

(** Who wants to write is told when it can. *)
Definition watched (s : loopyStream) (l : L) (log : list (syscall * sysret)) : Prop :=
  regs_accepted -> connect_failed log = false -> wants_write s -> fl_on l fd0 true = true.
Definition flags (s : loopyStream) (l : L) (log : list (syscall * sysret)) : Prop := base s l log /\ watched s l log.

(** Outside of the calls, and in callbacks when [orph] holds the request that
    is being finished. *)
Definition sound (orph : gmap nat loopyWriteReq) (w : world) : Prop :=
  exists s addrs rs done, st w = Some s /\ wqueue orph (reqs w) s addrs rs /\
    history (syslog w) (evs w) (accepted w) done rs /\ flags s (loop w) (syslog w).

(** After the stream was freed. *)
Definition closed (w : world) : Prop :=
  st w = None /\ reqs w = ∅ /\ fl_ok (loop w) /\ (forall b, fl_on (loop w) fd0 b = false) /\
  (exists r, head (syslog w) = Some (SysClose fd0, r)) /\ exists done, history (syslog w) (evs w) (accepted w) done [].

(** What calls between [w] and [w'] keep. *)
Definition kept (q : Prop) (w w' : world) : Prop :=
  forall s, st w = Some s -> exists s', st w' = Some s' /\ (q -> writeQueueSize s' <= writeQueueSize s) /\
    (allocCb s <> 0%Z -> allocCb s' <> 0%Z) /\ (writable s = false -> writable s' = false).

Lemma kept_refl q w : kept q w w.
Proof using Type. intros s Hs. exists s. auto. Qed.

Lemma holds_trans (p q r : Prop) w1 w2 w3 : (r -> p) -> (r -> q) -> kept p w1 w2 -> kept q w2 w3 -> kept r w1 w3.
Proof using Type.
  intros Hp Hq H1 H2 s Hs. destruct (H1 s Hs) as (s' & Hs' & A & B & C). destruct (H2 s' Hs') as (s2 & Hs2 & A' & B' & C').
  exists s2. split_and!; eauto. intros Hr. specialize (A (Hp Hr)). specialize (A' (Hq Hr)). lia.
Qed.

Lemma holds_same (q : Prop) (w w' : world) s s' : st w = Some s -> st w' = Some s' -> (q -> writeQueueSize s' <= writeQueueSize s) ->
  (allocCb s <> 0%Z -> allocCb s' <> 0%Z) -> (writable s = false -> writable s' = false) -> kept q w w'.
Proof using Type. intros Hs Hs' A B C x Hx. assert (x = s) as -> by congruence. by exists s'. Qed.

Lemma kept_step q w1 w2 w3 : kept q w1 w2 -> kept q w2 w3 -> kept q w1 w3.
Proof using Type. intros H1 H2. eapply (holds_trans q q); [auto|auto|exact H1|exact H2]. Qed.

(** ** Rules *)

Lemma wp_the_stream (Q : loopyStream -> world -> Prop) w s : st w = Some s -> Q s w -> wp the_stream Q w.
Proof using Type. intros Hs HQ. unfold the_stream. apply wp_bind, wp_get. by rewrite Hs. Qed.
Lemma wp_upd g (Q : unit -> world -> Prop) w s : st w = Some s -> Q tt (w <| st := Some (g s) |>) -> wp (upd g) Q w.
Proof using Type.
  intros Hs HQ. unfold upd. apply wp_bind. eapply wp_the_stream; [done|]. apply wp_modify. unfold update in *. cbn. by rewrite Hs.
Qed.
Lemma wp_free_stream (Q : unit -> world -> Prop) w s : st w = Some s -> Q tt (w <| st := None |>) -> wp free_stream Q w.
Proof using Type. intros Hs HQ. unfold free_stream. apply wp_bind. eapply wp_the_stream; [done|]. by apply wp_modify. Qed.
Lemma wp_the_req (Q : loopyWriteReq -> world -> Prop) a w r : reqs w !! a = Some r -> Q r w -> wp (the_req a) Q w.
Proof using Type. intros Hr HQ. unfold the_req. apply wp_bind, wp_get. by rewrite Hr. Qed.
Lemma wp_upd_req g (Q : unit -> world -> Prop) a w r : reqs w !! a = Some r -> Q tt (w <| reqs := <[a := g r]> (reqs w) |>) -> wp (upd_req a g) Q w.
Proof using Type.
  intros Hr HQ. unfold upd_req. apply wp_bind. eapply wp_the_req; [done|]. apply wp_modify. unfold update in *. cbn.
  by rewrite (alter_is_insert _ _ _ _ Hr).
Qed.
Lemma wp_upd_req_to g (Q : unit -> world -> Prop) a w r m :
  reqs w !! a = Some r -> m = <[a := g r]> (reqs w) -> Q tt (w <| reqs := m |>) -> wp (upd_req a g) Q w.
Proof using Type. intros Hr -> HQ. by eapply wp_upd_req. Qed.
Lemma wp_free_req (Q : unit -> world -> Prop) a w r : reqs w !! a = Some r -> Q tt (w <| reqs := delete a (reqs w) |>) -> wp (free_req a) Q w.
Proof using Type. intros Hr HQ. unfold free_req. apply wp_bind. eapply wp_the_req; [done|]. by apply wp_modify. Qed.
Lemma wp_sys (Q : sysret -> world -> Prop) c w : Q (kernel (syslog w) c) (w <| syslog := (c, kernel (syslog w) c) :: syslog w |>) -> wp (sys kernel c) Q w.
Proof using Type. intros HQ. unfold sys. apply wp_bind, wp_get, wp_bind, wp_modify, wp_ret. exact HQ. Qed.

Lemma wp_register b (Q : bool -> world -> Prop) cb w : fl_ok (loop w) -> fl_fd fd0 ->
  (forall l' ok, fl_ok l' -> (regs_accepted -> ok = true) -> (forall x y, fl_on l' x y = (ok && (x =? fd0)%Z && Bool.eqb y b) || fl_on (loop w) x y) -> Q ok (w <| loop := l' |>)) ->
  wp (register b fd0 cb) Q w.
Proof using Type.
  intros Hl Hf HQ. unfold register. apply wp_bind, wp_get. destruct (fl_register_spec b fd0 cb stream_ptr (loop w) Hl Hf) as (l' & ok & E & Hl' & Hon).
  rewrite E. apply wp_bind, wp_modify, wp_ret. apply HQ; [done| |done]. intros Ha. by apply (Ha _ _ _ _ _ _ Hl E).
Qed.

Lemma wp_unregister r b (Q : unit -> world -> Prop) w : fl_ok (loop w) -> fl_fd fd0 ->
  (forall l', fl_ok l' -> (forall x y, fl_on l' x y = fl_on (loop w) x y && negb ((x =? fd0)%Z && (if y then b else r))) -> Q tt (w <| loop := l' |>)) ->
  wp (unregister r b fd0) Q w.
Proof using Type.
  intros Hl Hf HQ. unfold unregister. apply wp_bind, wp_get. destruct (fl_unregister_spec r b fd0 (loop w) Hl Hf) as (l' & E & Hl' & Hon).
  rewrite E. by apply wp_modify, HQ.
Qed.

(** ** The calls of the user *)

(** The result of a call in a sound world. *)
Definition stays {A : Type} (q : Prop) (orph : gmap nat loopyWriteReq) (w : world) : A -> world -> Prop :=
  fun _ w' => sound orph w' /\ kept q w w'.

Lemma stays_ret {A} (x : A) q orph w : sound orph w -> wp (mret x) (stays q orph w) w.
Proof using Type. intros H. apply wp_ret. split; [done|apply kept_refl]. Qed.

Lemma stays_unit {A} (m : sprog A) q orph w : wp m (stays q orph w) w -> wp (m ≫= fun _ => mret tt) (stays q orph w) w.
Proof using Type. intros H. eapply wp_seq; [exact H|]. intros a w' H'. by apply wp_ret. Qed.

(** The system calls that a stream may make at any time. *)
Definition neutral (x : syscall * sysret) : Prop := is_write (fst x) = false /\ is_shutdown x = false /\ connect_failed [x] = false.

Lemma base_sys s l x log : is_shutdown x = false -> base s l log -> base s l (x :: log).
Proof using Type. intros Hs []. split; try done. cbn [half_closed existsb]. by rewrite Hs. Qed.

Lemma watched_sys s l x log : connect_failed [x] = false -> watched s l log -> watched s l (x :: log).
Proof using Type.
  intros Hc Hw Ha Hn. apply Hw; [done|]. unfold connect_failed in *. cbn in Hn, Hc. rewrite orb_false_r in Hc. by rewrite Hc in Hn.
Qed.

Lemma flags_sys s l x log : neutral x -> flags s l log -> flags s l (x :: log).
Proof using Type. intros (_ & Hs & Hc) [Hb Hw]. split; [by apply base_sys|by apply watched_sys]. Qed.

Lemma sound_sys orph w c r : neutral (c, r) -> sound orph w -> sound orph (w <| syslog := (c, r) :: syslog w |>).
Proof using Type.
  intros Hn (s & addrs & rs & done & Es & Hq & Hh & Hf). exists s, addrs, rs, done. cbn. split_and!; [done|done| |].
  - apply history_sys; [apply Hn|done].
  - by apply flags_sys.
Qed.

(** An entry of no interest to the invariant. *)
Lemma sound_set orph w s s' : st w = Some s -> queue_fields s' = queue_fields s -> flags s' (loop w) (syslog w) ->
  sound orph w -> sound orph (w <| st := Some s' |>).
Proof using Type.
  intros Es Eq Hf (s1 & addrs & rs & done & Es1 & Hq & Hh & _). assert (s1 = s) as -> by congruence.
  exists s', addrs, rs, done. cbn. split_and!; [done| |done|done]. by eapply wqueue_ext.
Qed.

Lemma sound_flags orph w s : st w = Some s -> sound orph w -> flags s (loop w) (syslog w).
Proof using Type. intros Es (s1 & addrs & rs & done & Es1 & _ & _ & Hf). by assert (s1 = s) as -> by congruence. Qed.

Lemma setError_ok field q orph w : sound orph w -> wp (streamSetError field) (stays q orph w) w.
Proof using Type.
  intros H. pose proof H as (s & addrs & rs & done & Es & Hq & Hh & Hf). eapply wp_upd; [done|]. split.
  - eapply sound_set; [done|done| |done]. destruct Hf as [[] Hw]. by split.
  - by eapply holds_same.
Qed.

Lemma setData_ok d q orph w : sound orph w -> wp (upd (fun s => s <| userData := d |>)) (stays q orph w) w.
Proof using Type.
  intros H. pose proof H as (s & addrs & rs & done & Es & Hq & Hh & Hf). eapply wp_upd; [done|]. split.
  - eapply sound_set; [done|done| |done]. destruct Hf as [[] Hw]. by split.
  - by eapply holds_same.
Qed.

Lemma stays_sys {A} c (k : sysret -> sprog A) q orph w : sound orph w ->
  (forall r, neutral (c, r)) ->
  (forall r w', sound orph w' -> kept q w w' -> wp (k r) (stays q orph w') w') ->
  wp (sys kernel c ≫= k) (stays q orph w) w.
Proof using Type.
  intros H Hn Hk. apply wp_bind, wp_sys.
  assert (Hkept : kept q w (w <| syslog := (c, kernel (syslog w) c) :: syslog w |>)).
  { pose proof H as (s & addrs & rs & done & Es & _). by eapply holds_same. }
  eapply wp_mono; [apply Hk; [by apply sound_sys|exact Hkept]|]. intros a w2 [H2 Hkept2]. split; [done|].
  eauto using kept_step.
Qed.

Lemma stays_seq {A B} (m : sprog A) (k : A -> sprog B) q orph w :
  wp m (stays q orph w) w -> (forall a w', sound orph w' -> wp (k a) (stays q orph w') w') -> wp (m ≫= k) (stays q orph w) w.
Proof using Type.
  intros Hm Hk. eapply wp_seq; [exact Hm|]. intros a w1 [H1 K1]. eapply wp_mono; [by apply Hk|]. intros b w2 [H2 K2].
  split; [done|]. eauto using kept_step.
Qed.

Lemma setNonBlock_ok g q orph w : sound orph w -> wp (streamSetNonBlock kernel g) (stays q orph w) w.
Proof using Type.
  intros H. unfold streamSetNonBlock. apply stays_sys; [done|done|]. intros r w1 Hs1 _. case_if; [by apply stays_ret|].
  apply stays_sys; [done|done|]. intros r2 w2 Hs2 _. by apply stays_ret.
Qed.

Lemma accept_ok ok q orph w : sound orph w -> wp (loopyStreamAccept kernel ok) (stays q orph w) w.
Proof using Type.
  intros H. pose proof H as (s & addrs & rs & done & Es & _). unfold loopyStreamAccept. apply wp_bind. eapply wp_the_stream; [done|].
  case_if; [by apply stays_ret|]. apply stays_sys; [done|done|]. intros r w1 Hs1 _. case_if.
  - apply stays_seq; [case_if; [by apply stays_ret|by apply setError_ok]|]. intros _ w2 Hs2. by apply stays_ret.
  - apply stays_seq.
    + unfold loopyStreamFromFd. case_if; [by apply stays_ret|]. case_if; [by apply stays_ret|].
      apply stays_seq; [by apply setNonBlock_ok|]. intros b w2 Hs2. by apply stays_ret.
    + intros [c|] w2 Hs2; [by apply stays_ret|]. apply stays_sys; [done|done|]. intros _ w3 Hs3 _. by apply stays_ret.
Qed.

Lemma readStart_ok alloc read d q orph w : sound orph w -> wp (loopyStreamReadStart alloc read d) (stays q orph w) w.
Proof using fd0_ok.
  intros H. pose proof H as (s & addrs & rs & done & Es & Hq & Hh & [[] Hw]). unfold loopyStreamReadStart. case_if; [by apply stays_ret|].
  apply wp_bind. eapply wp_the_stream; [done|]. case_if; [by apply stays_ret|]. apply wp_bind. eapply wp_upd; [done|].
  apply wp_bind. rewrite fg_fd0. apply wp_register; [done|apply fd0_ok|]. intros l' ok Hl' Hacc Hon. change (loop _) with (loop w) in Hon. apply wp_ret. split.
  - eexists _, addrs, rs, done. cbn. split_and!; [done|by apply (wqueue_ext _ _ s)|done|]. split.
    + split; cbn; try done; [by left|]. intros _. split; [done|]. intros Ha. by rewrite Hon, Hacc, Z.eqb_refl by done.
    + intros Ha Hn Hww. by rewrite Hon, (Hw Ha Hn Hww), orb_true_r.
  - by eapply holds_same.
Qed.

Lemma readStartFd_ok alloc read d q orph w : sound orph w -> wp (loopyStreamReadStartWithFd alloc read d) (stays q orph w) w.
Proof using fd0_ok.
  intros H. pose proof H as (s & addrs & rs & done & Es & Hq & Hh & [[] Hw]). unfold loopyStreamReadStartWithFd. case_if; [by apply stays_ret|].
  apply wp_bind. eapply wp_the_stream; [done|]. case_if; [by apply stays_ret|]. case_if; [by apply stays_ret|].
  apply wp_bind. eapply wp_upd; [done|]. apply wp_bind. rewrite fg_fd0. apply wp_register; [done|apply fd0_ok|].
  intros l' ok Hl' Hacc Hon. change (loop _) with (loop w) in Hon. assert (Hw' : regs_accepted -> connect_failed (syslog w) = false -> wants_write s -> fl_on l' fd0 true = true).
  { intros Ha Hn Hww. by rewrite Hon, (Hw Ha Hn Hww), orb_true_r. }
  destruct ok; cbn [negb].
  - apply wp_bind. eapply wp_upd; [done|]. apply wp_ret. split; [|by eapply holds_same].
    eexists _, addrs, rs, done. cbn. split_and!; [done|by apply (wqueue_ext _ _ s)|done|]. split; [|exact Hw'].
    split; cbn; try done; [by right|]. intros _. split; [done|]. intros _. by rewrite Hon, Z.eqb_refl.
  - apply wp_ret. split; [|by eapply holds_same].
    eexists _, addrs, rs, done. cbn. split_and!; [done|by apply (wqueue_ext _ _ s)|done|]. split; [|exact Hw'].
    split; cbn; try done; [by right|congruence].
Qed.

Lemma readStop_ok q orph w : sound orph w -> wp loopyStreamReadStop (stays q orph w) w.
Proof using fd0_ok.
  intros H. pose proof H as (s & addrs & rs & done & Es & Hq & Hh & [[] Hw]). unfold loopyStreamReadStop.
  apply wp_bind. eapply wp_the_stream; [done|]. case_if; [by apply stays_ret|]. apply wp_bind. eapply wp_upd; [done|]. case_if.
  - rewrite fg_fd0. apply wp_unregister; [done|apply fd0_ok|]. intros l' Hl' Hon. change (loop _) with (loop w) in Hon. split; [|by eapply holds_same].
    eexists _, addrs, rs, done. cbn. split_and!; [done|by apply (wqueue_ext _ _ s)|done|]. split; [by split|].
    intros Ha Hn Hww. by rewrite Hon, (Hw Ha Hn Hww), andb_false_r.
  - apply wp_ret. split; [|by eapply holds_same].
    eexists _, addrs, rs, done. cbn. split_and!; [done|by apply (wqueue_ext _ _ s)|done|]. by split.
Qed.

(** The watcher is set as the queue requires. *)
Lemma updateWriteWatcher_ok orph w s addrs rs done :
  st w = Some s -> wqueue orph (reqs w) s addrs rs -> history (syslog w) (evs w) (accepted w) done rs -> base s (loop w) (syslog w) ->
  wp streamUpdateWriteWatcher (stays True orph w) w.
Proof using fd0_ok.
  intros Es Hq Hh Hb. unfold streamUpdateWriteWatcher. apply wp_bind. eapply wp_the_stream; [done|]. destruct Hb.
  rewrite fg_fd0. destruct (bool_decide _ || _ || _) eqn:Ew.
  - apply wp_bind, wp_register; [done|apply fd0_ok|]. intros l' ok Hl' Hacc Hon. apply wp_ret. split; [|by eapply holds_same].
    exists s, addrs, rs, done. cbn. split_and!; [done..|]. split.
    + split; try done. intros Hr. destruct (fg_reading0 Hr) as [Hal Hrd]. split; [done|]. intros Ha. by rewrite Hon, Hrd, orb_true_r.
    + intros Ha _ _. by rewrite Hon, Hacc, Z.eqb_refl.
  - apply wp_unregister; [done|apply fd0_ok|]. intros l' Hl' Hon. split; [|by eapply holds_same].
    exists s, addrs, rs, done. cbn. split_and!; [done..|]. split.
    + split; try done. intros Hr. destruct (fg_reading0 Hr) as [Hal Hrd]. split; [done|]. intros Ha. by rewrite Hon, Hrd, andb_false_r.
    + intros _ _ Hww. exfalso. bool_to_prop. destruct Hww as [Hh'|[Hh'|Hh']]; [|congruence..].
      by destruct (writeHead s); [rewrite bool_decide_true in * by done|].
Qed.

Lemma tryWrite_ok data q orph w : sound orph w -> wp (loopyStreamTryWrite kernel data) (stays q orph w) w.
Proof using Type.
  intros H. pose proof H as (s & addrs & rs & done & Es & Hq & Hh & Hf). unfold loopyStreamTryWrite. case_if; [by apply stays_ret|].
  apply wp_bind. eapply wp_the_stream; [done|]. case_if; [by apply stays_ret|]. destruct (writeHead s) eqn:Ewh; [by apply stays_ret|].
  destruct (wqueue_none _ _ _ _ _ Hq Ewh) as (-> & -> & Er). apply wp_bind, wp_sys. set (r := kernel _ _). set (w1 := w <| syslog := _ |>).
  assert (Hhalf : half_closed (syslog w) = false).
  { destruct (half_closed (syslog w)) eqn:E; [|done]. destruct Hf as [Hb _]. rewrite (fg_half_closed _ _ _ Hb E) in *. done. }
  set (part := take (Z.to_nat (ret r)) data).
  assert (Hdone : history (syslog w1) (evs w) ((part, [], 0%Z, 0%Z) :: accepted w) (done ++ [WriteReq part (length part) 0 0 None [] false]) []).
  { apply (history_direct _ _ _ _ _ (WriteReq part (length part) 0 0 None [] false)); try done; cbn.
    - unfold sent_of. cbn. by rewrite (take_ge part).
    - unfold fds_of. by destruct (0 <? rq_written _). }
  assert (Hf1 : flags s (loop w) (syslog w1)) by (destruct Hf; split; [by apply base_sys|by apply watched_sys]).
  assert (Hend : forall s', queue_fields s' = queue_fields s -> flags s' (loop w) (syslog w1) ->
    allocCb s' = allocCb s -> writable s' = writable s ->
    wp (modify (fun w => w <| accepted ::= cons (part, [], 0%Z, 0%Z) |>) ≫= fun _ => mret (ret r)) (stays q orph w) (w1 <| st := Some s' |>)).
  { intros s' Eqf Hf' Ea Ew. apply wp_bind, wp_modify, wp_ret. split.
    - exists s', [], [], (done ++ [WriteReq part (length part) 0 0 None [] false]). split_and!; try done. by apply (wqueue_ext _ _ s).
    - eapply holds_same; [done|done|injection Eqf as _ _ -> _ _; lia|by rewrite Ea|by rewrite Ew]. }
  apply wp_bind. case_if.
  - eapply wp_upd; [done|]. apply Hend; try done. destruct Hf1 as [[] Hw]. by split.
  - apply wp_ret. specialize (Hend s eq_refl Hf1 eq_refl eq_refl). destruct w as [st0 reqs0 l0 log0 es0 acc0]. cbn in Es. subst st0. exact Hend.
Qed.

(** A new request is queued; the watcher is not set yet. *)
Lemma enqueue_ok orph w s addrs rs done r (Q : unit -> world -> Prop) :
  st w = Some s -> wqueue orph (reqs w) s addrs rs -> history (syslog w) (evs w) (accepted w) done rs -> base s (loop w) (syslog w) ->
  writable s = true -> rq_next r = None -> rq_written r = 0 -> live (type s) r ->
  (forall w' s' addrs', st w' = Some s' -> wqueue orph (reqs w') s' addrs' (rs ++ [core r]) ->
     history (syslog w') (evs w') (accepted w') done (rs ++ [core r]) -> base s' (loop w') (syslog w') ->
     allocCb s' = allocCb s -> writable s' = writable s -> Q tt w') ->
  wp (enqueue r) Q w.
Proof using Type.
  intros Es Hq Hh Hb Hwr Hn Hw0 Hl HQ. unfold enqueue. apply wp_bind, wp_get. set (a := fresh _).
  assert (Ha : reqs w !! a = None) by (apply not_elem_of_dom; apply is_fresh).
  apply wp_bind, wp_modify. set (w1 := w <| reqs ::= _ |> <| accepted ::= _ |>).
  assert (Hna : a ∉ addrs).
  { intros Hin. destruct (wq_queue _ _ _ _ _ Hq) as [Hc _]. destruct (chain_lookup _ _ _ _ _ Hc Hin); congruence. }
  assert (Hfin : forall hp' s', hp' = match writeTail s with Some t => alter (fun r => r <| rq_next := Some a |>) t (<[a := r]> (reqs w)) | None => <[a := r]> (reqs w) end ->
    queue_fields s' = (match writeTail s with Some _ => writeHead s | None => Some a end, Some a, writeQueueSize s + rq_len r, S (writeQueueCount s), type s) ->
    base s' (loop w) (syslog w) -> allocCb s' = allocCb s -> writable s' = writable s -> Q tt (w1 <| reqs := hp' |> <| st := Some s' |>)).
  { intros hp' s' Ehp Eqf Hb' Ea Ew. eapply (HQ _ s' (addrs ++ [a])); try done.
    - eapply wqueue_push; try done. by rewrite <- (wq_other _ _ _ _ _ Hq a Hna).
    - by apply (history_accept _ _ _ _ _ (core r)). }
  assert (Hb' : forall h t n k, base (s <| writeHead := h |> <| writeTail := t |> <| writeQueueSize := n |> <| writeQueueCount := k |>) (loop w) (syslog w)).
  { intros h t n k. destruct Hb. split; try done. cbn. congruence. }
  apply wp_bind. eapply wp_the_stream; [done|]. destruct (writeTail s) as [t|] eqn:Et.
  - destruct (wq_queue _ _ _ _ _ Hq) as [Hc Ht]. assert (Hin : t ∈ addrs) by (rewrite Et in Ht; by apply last_Some_elem_of).
    destruct (chain_lookup _ _ _ _ _ Hc Hin) as [x Hx]. assert (Hxt : (<[a := r]> (reqs w)) !! t = Some x) by (rewrite lookup_insert_ne; [done|by intros ->]).
    do 2 apply wp_bind. eapply wp_upd_req; [exact Hxt|]. eapply wp_upd; [done|]. eapply wp_upd; [done|].
    specialize (Hfin _ (s <| writeHead := writeHead s |> <| writeTail := Some a |> <| writeQueueSize := writeQueueSize s + rq_len r |> <| writeQueueCount := S (writeQueueCount s) |>) eq_refl eq_refl (Hb' _ _ _ _) eq_refl eq_refl).
    rewrite (alter_is_insert _ t _ x Hxt) in Hfin. exact Hfin.
  - apply wp_bind. eapply wp_upd; [done|]. eapply wp_upd; [done|].
    exact (Hfin _ (s <| writeHead := Some a |> <| writeTail := Some a |> <| writeQueueSize := writeQueueSize s + rq_len r |> <| writeQueueCount := S (writeQueueCount s) |>) eq_refl eq_refl (Hb' _ _ _ _) eq_refl eq_refl).
Qed.

(** The two ways to queue. *)
Lemma queue_ok q orph w s addrs rs done data fds cb d :
  st w = Some s -> wqueue orph (reqs w) s addrs rs -> history (syslog w) (evs w) (accepted w) done rs -> flags s (loop w) (syslog w) ->
  ~ q -> writable s = true -> data <> [] -> (fds <> [] -> type s = LOOPY_STREAM_PIPE) ->
  wp (enqueue (WriteReq data 0 cb d None fds false) ≫= fun _ => streamUpdateWriteWatcher ≫= fun _ => mret true) (stays q orph w) w.
Proof using fd0_ok.
  intros Es Hq Hh [Hb _] Hnq Hwr Hd Hfd. apply wp_bind. eapply enqueue_ok; try done.
  { split; [cbn; unfold rq_len; cbn; destruct data; [done|cbn; lia]|auto]. }
  intros w' s' addrs' Es' Hq' Hh' Hb' Ea Ew. apply wp_bind.
  eapply wp_mono; [by eapply updateWriteWatcher_ok|]. intros _ w2 [Hs2 Hk]. apply wp_ret. split; [done|].
  intros x Hx. assert (x = s) as -> by congruence. destruct (Hk s' Es') as (s2 & Es2 & _ & Hal & Hw2). exists s2.
  split_and!; [done|done|by rewrite <- Ea|by rewrite <- Ew].
Qed.

Lemma write_ok data cb d m1 m2 (q : Prop) orph w : ~ q \/ from_option writable false (st w) = false -> sound orph w ->
  wp (loopyStreamWrite data cb d m1 m2) (stays q orph w) w.
Proof using fd0_ok.
  intros Hnq H. pose proof H as (s & addrs & rs & done & Es & Hq & Hh & Hf). unfold loopyStreamWrite. case_if; [by apply stays_ret|].
  apply wp_bind. eapply wp_the_stream; [done|]. case_if; [by apply stays_ret|]. case_if; [by apply stays_ret|].
  rewrite Es in Hnq. cbn in Hnq. destruct Hnq as [Hnq|Hnq]; [|congruence]. eapply queue_ok; try done. by intros ->.
Qed.

Lemma writeWithFd_ok data fds cb d m1 m2 (q : Prop) orph w : ~ q \/ from_option writable false (st w) = false -> sound orph w ->
  wp (loopyStreamWriteWithFd data fds cb d m1 m2) (stays q orph w) w.
Proof using fd0_ok.
  intros Hnq H. pose proof H as (s & addrs & rs & done & Es & Hq & Hh & Hf). unfold loopyStreamWriteWithFd. case_if; [by apply stays_ret|].
  apply wp_bind. eapply wp_the_stream; [done|]. case_if; [by apply stays_ret|]. case_if; [by apply stays_ret|].
  case_if; [by apply stays_ret|]. case_if; [by apply stays_ret|].
  rewrite Es in Hnq. cbn in Hnq. destruct Hnq as [Hnq|Hnq]; [|congruence]. eapply queue_ok; try done; [by intros ->|].
  intros _. by eapply bool_decide_eq_true_1.
Qed.

(** ** What callbacks do *)

(** The world in which a callback runs. *)
Definition in_event (e : event) (w : world) : world := w <| evs := e :: evs w |>.

Definition stopped (w : world) : Prop := from_option writable false (st w) = false.

(** Callbacks that keep the stream, after it was shut down. *)
Definition keeps_stopped (inv : event -> sprog nat) : Prop := forall e orph w,
  class_of e = Keeps -> stopped w -> sound orph (in_event e w) -> wp (inv e) (stays True orph (in_event e w)) w.

Lemma sound_event e orph w : write_event e = None -> sound orph w -> sound orph (in_event e w).
Proof using Type.
  intros He (s & addrs & rs & done & Es & Hq & Hh & Hf). exists s, addrs, rs, done. split_and!; try done. by apply history_event.
Qed.

Lemma kept_event q e w : kept q w (in_event e w).
Proof using Type. intros s Es. by exists s. Qed.

Lemma wp_call_if inv cb e (Q : unit -> world -> Prop) w :
  (cb = 0%Z -> Q tt w) -> (cb <> 0%Z -> wp (inv e) (fun _ => Q tt) w) -> wp (call_if inv cb e) Q w.
Proof using Type.
  intros H0 H1. unfold call_if. destruct (Z.eqb_spec cb 0) as [E|E]; [by apply wp_ret, H0|].
  apply wp_bind. eapply wp_mono; [by apply H1|]. intros a w' H. by apply wp_ret.
Qed.

Lemma kept_all (q : Prop) w w' : kept True w w' -> kept q w w'.
Proof using Type. intros H s Es. destruct (H s Es) as (s' & Es' & A & B & C). exists s'. auto. Qed.

Lemma shutdown_ok inv cb d q orph w : keeps_stopped inv \/ stopped w -> sound orph w ->
  wp (loopyStreamShutdown kernel inv cb d) (stays q orph w) w.
Proof using fd0_ok.
  intros Hinv H. pose proof H as (s & addrs & rs & done & Es & Hq & Hh & [[] Hw]). unfold loopyStreamShutdown.
  apply wp_bind. eapply wp_the_stream; [done|]. case_if; [by apply stays_ret|]. unfold stopped in Hinv. rewrite Es in Hinv. cbn in Hinv.
  destruct Hinv as [Hinv|]; [|congruence]. apply wp_bind. eapply wp_upd; [done|]. destruct (writeHead s) eqn:Eh.
  - apply wp_bind. eapply wp_upd; [done|]. apply wp_ret. split; [|by eapply holds_same].
    eexists _, addrs, rs, done. cbn. split_and!; [done|by apply (wqueue_ext _ _ s)|done|]. split; [split; try done; cbn; congruence|].
    intros Ha Hn _. apply Hw; [done|done|]. left. congruence.
  - apply wp_bind, wp_sys. set (r := kernel _ _). cbn [fst snd]. destruct (ret r <? 0)%Z eqn:Er; bool_to_prop.
    + apply wp_bind. eapply wp_upd; [done|]. apply wp_ret. split; [|by eapply holds_same].
      eexists _, addrs, rs, done. cbn. split_and!; [done|by apply (wqueue_ext _ _ s)|by apply history_sys|].
      apply flags_sys; [split_and!; [done|cbn; lia|done]|]. by split.
    + apply wp_bind. eapply wp_upd; [done|]. set (w1 := w <| st := _ |> <| syslog := _ |> <| st := _ |>).
      assert (Hs1 : sound orph w1).
      { eexists _, addrs, rs, done. cbn. split_and!; [done|by apply (wqueue_ext _ _ s)|by apply history_sys|].
        split; [by split|]. apply watched_sys; [done|]. exact Hw. }
      assert (Hk1 : kept q w w1) by by eapply holds_same.
      apply wp_bind, wp_call_if; intros Ecb; [apply wp_ret; by split|].
      eapply wp_mono; [apply Hinv; [done|done|by apply sound_event]|]. intros a w2 [Hs2 Hk2]. apply wp_ret. split; [done|].
      eapply kept_step; [exact Hk1|]. eapply kept_step; [apply kept_event|]. exact (kept_all _ _ _ Hk2).
Qed.

Lemma stopped_kept q w w' : is_Some (st w) -> kept q w w' -> stopped w -> stopped w'.
Proof using Type.
  unfold stopped. intros [s Es] H Hw. destruct (H s Es) as (s' & -> & _ & _ & Hk). rewrite Es in Hw. by apply Hk.
Qed.

Lemma op_keeps inv op (q : Prop) orph w : is_close op = false -> keeps_stopped inv \/ stopped w ->
  (queues op = true -> ~ q \/ stopped w) -> sound orph w -> wp (stream_do kernel inv op) (stays q orph w) w.
Proof using fd0_ok.
  intros Hc Hinv Hq H. destruct op; cbn [stream_do queues] in *; try done.
  - apply stays_unit, write_ok; auto.
  - apply stays_unit, writeWithFd_ok; auto.
  - by apply stays_unit, tryWrite_ok.
  - by apply stays_unit, shutdown_ok.
  - by apply stays_unit, readStart_ok.
  - by apply stays_unit, readStartFd_ok.
  - by apply readStop_ok.
  - by apply setData_ok.
  - by apply stays_unit, accept_ok.
Qed.

Lemma script_keeps inv ops (q : Prop) orph w : forallb (fun op => negb (is_close op)) ops = true -> keeps_stopped inv \/ stopped w ->
  (q -> forallb (fun op => negb (queues op)) ops = true \/ stopped w) -> sound orph w -> wp (stream_script kernel inv ops) (stays q orph w) w.
Proof using fd0_ok.
  revert w. induction ops as [|op ops IH]; intros w Hc Hinv Hq H; [by apply stays_ret|]. cbn in Hc, Hq |- *. bool_to_prop.
  apply wp_bind. eapply wp_mono.
  { apply (op_keeps inv op q orph w); [done|done| |done]. intros Hqu. destruct (decide (stopped w)) as [Hst|Hst]; [by right|].
    left. intros Hq'. destruct (Hq Hq') as [Hn|]; [|done]. by rewrite Hqu in Hn. }
  intros a w1 [Hs1 Hk1]. assert (Hsome : is_Some (st w)) by (destruct H as (s & ? & ? & ? & -> & _); by eexists).
  eapply wp_mono; [apply IH; [done| | |done]|].
  - destruct Hinv as [|Hst]; [by left|right]. by eapply stopped_kept.
  - intros Hq'. destruct (Hq Hq') as [Hn|Hst]; [|right; by eapply stopped_kept]. left. by bool_to_prop.
  - intros b w2 [Hs2 Hk2]. split; [done|]. by eapply kept_step.
Qed.

(** The callback runs its script. *)
Lemma wp_invoke depth e (Q : nat -> world -> Prop) w :
  (forall ops len, user (evs w) e = (ops, len) -> wp (stream_script kernel (invoke kernel user depth) ops) (fun _ => Q len) (in_event e w)) ->
  wp (invoke kernel user (S depth) e) Q w.
Proof using Type.
  intros H. cbn [invoke]. apply wp_bind, wp_get. destruct (user (evs w) e) as [ops len] eqn:Eu.
  apply wp_bind, wp_modify, wp_bind. eapply wp_mono; [by apply H|]. intros a w' HQ. by apply wp_ret.
Qed.

Lemma invoke_keeps_stopped depth : keeps_stopped (invoke kernel user (S depth)).
Proof using fd0_ok user_legal.
  intros e orph w He Hst H. apply wp_invoke. intros ops len Eu. pose proof (user_legal (evs w) e) as Hl. rewrite Eu in Hl.
  unfold script_ok in Hl. rewrite He in Hl. eapply wp_mono; [apply (script_keeps _ _ True); [done|by right|intros _; by right|done]|done].
Qed.

(** The user does not write when a write or a shutdown is done. *)
Definition quiet : Prop := forall es e, after_write e = true -> forallb (fun op => negb (queues op)) (fst (user es e)) = true.

Definition keeps (inv : event -> sprog nat) : Prop := forall e orph w,
  class_of e = Keeps -> sound orph (in_event e w) -> wp (inv e) (stays (quiet /\ after_write e = true) orph (in_event e w)) w.

Lemma invoke_keeps depth : keeps (invoke kernel user (S (S depth))).
Proof using fd0_ok user_legal.
  intros e orph w He H. apply wp_invoke. intros ops len Eu. pose proof (user_legal (evs w) e) as Hl. rewrite Eu in Hl.
  unfold script_ok in Hl. rewrite He in Hl. eapply wp_mono; [apply (script_keeps _ _ (quiet /\ after_write e = true)); [done|left; apply invoke_keeps_stopped| |done]|done].
  intros [Hqu Ha]. left. specialize (Hqu (evs w) e Ha). by rewrite Eu in Hqu.
Qed.

(** ** Draining the queue

    What the callbacks of a failed write may do: nothing to the queue. *)

Definition calm_fields (s : loopyStream) :=
  (fd s, type s, writable s, connecting s, closing s, (allocCb s, readCb s, readFdCb s), queue_fields s).

Record calm_stream (l l' : L) (s s' : loopyStream) : Prop := {
  ca_fields : calm_fields s' = calm_fields s;
  ca_reading : reading s' = true -> reading s = true /\ fl_on l' fd0 false = fl_on l fd0 false;
  ca_ok : fl_ok l';
  ca_write x : fl_on l' x true = fl_on l x true;
  ca_on x y : fl_on l' x y = true -> fl_on l x y = true
}.

(** [es]: the callbacks. *)
Definition calm (es : list event) (w w' : world) : Prop :=
  syslog w' = syslog w /\ accepted w' = accepted w /\ evs w' = es ++ evs w /\
  forall s, st w = Some s -> exists s', st w' = Some s' /\ calm_stream (loop w) (loop w') s s'.

Lemma calm_trans es es' w1 w2 w3 : calm es w1 w2 -> calm es' w2 w3 -> calm (es' ++ es) w1 w3.
Proof using Type.
  intros (El & Ea & Ee & H1) (El' & Ea' & Ee' & H2). split_and!; [congruence..|by rewrite Ee', Ee, (assoc_L (++))|].
  intros s Es. destruct (H1 s Es) as (s2 & Es2 & [Hf Hr Ho Hw Hon]). destruct (H2 s2 Es2) as (s3 & Es3 & [Hf' Hr' Ho' Hw' Hon']).
  exists s3. split; [done|]. split; try done; [congruence| | |auto].
  - intros Hrd. destruct (Hr' Hrd) as [Hrd2 E2]. destruct (Hr Hrd2) as [Hrd1 E1]. split; congruence.
  - intros x. by rewrite Hw'.
Qed.

(** A stream whose queue is being drained. *)
Definition draining (w : world) : Prop := exists s, st w = Some s /\ fd s = fd0 /\ writeHead s <> None /\ fl_ok (loop w).

Lemma calm_same w s s' : st w = Some s -> fl_ok (loop w) -> calm_fields s' = calm_fields s -> (reading s' = true -> reading s = true) ->
  calm [] w (w <| st := Some s' |>).
Proof using Type.
  intros Es Hl Hc Hr. split_and!; [done..|]. intros x Ex. assert (x = s) as -> by congruence. exists s'. split; [done|].
  split; cbn; try done. intros H. by apply Hr in H.
Qed.

Lemma calm_refl w : fl_ok (loop w) -> calm [] w w.
Proof using Type. intros Hl. split_and!; [done..|]. intros x Ex. exists x. by split. Qed.

Lemma calm_draining es w w' : calm es w w' -> draining w -> draining w'.
Proof using Type.
  intros (_ & _ & _ & H) (s & Es & Ef & Eh & Hl). destruct (H s Es) as (s' & Es' & [Hf _ Ho _ _]). exists s'.
  unfold calm_fields, queue_fields in Hf. injection Hf as E1 _ _ _ _ _ _ _ E2 _ _ _. split_and!; congruence.
Qed.

Lemma op_calm inv op w : harmless op = true -> draining w -> wp (stream_do kernel inv op) (fun _ w' => calm [] w w' /\ reqs w' = reqs w) w.
Proof using fd0_ok.
  intros Hop Hd. pose proof Hd as (s & Es & Ef & Eh & Hl). destruct (writeHead s) as [a|] eqn:Ea; [|done].
  assert (Hsame : calm [] w w /\ reqs w = reqs w) by (split; [by apply calm_refl|done]). destruct op; try done; cbn [stream_do].
  - apply wp_bind. unfold loopyStreamTryWrite. case_if; [by apply wp_ret|]. apply wp_bind. eapply wp_the_stream; [done|].
    case_if; [by apply wp_ret|]. rewrite Ea. by apply wp_ret.
  - apply wp_bind. unfold loopyStreamShutdown. apply wp_bind. eapply wp_the_stream; [done|]. case_if; [by apply wp_ret|].
    apply wp_bind. eapply wp_upd; [done|]. rewrite Ea. apply wp_bind. eapply wp_upd; [done|]. apply wp_ret, wp_ret. split; [|done].
    by eapply (calm_same w s).
  - unfold loopyStreamReadStop. apply wp_bind. eapply wp_the_stream; [done|]. case_if; [by apply wp_ret|].
    apply wp_bind. eapply wp_upd; [done|]. case_if.
    + rewrite Ef. apply wp_unregister; [done|apply fd0_ok|]. intros l' Hl' Hon. change (loop _) with (loop w) in Hon. split; [|done].
      split_and!; [done..|]. intros x Ex. assert (x = s) as -> by congruence. eexists. split; [done|]. split; cbn; try done.
      * intros x. by rewrite Hon, andb_false_r, andb_true_r.
      * intros x y. rewrite Hon. by intros [? _]%andb_true_iff.
    + apply wp_ret. split; [|done]. by eapply calm_same.
  - eapply wp_upd; [done|]. split; [|done]. by eapply (calm_same w s).
Qed.

Lemma script_calm inv ops w : forallb harmless ops = true -> draining w ->
  wp (stream_script kernel inv ops) (fun _ w' => calm [] w w' /\ reqs w' = reqs w) w.
Proof using fd0_ok.
  revert w. induction ops as [|op ops IH]; intros w Hops Hd.
  { destruct Hd as (s & _ & _ & _ & Hl). apply wp_ret. split; [by apply calm_refl|done]. } cbn in Hops |- *. bool_to_prop.
  eapply wp_seq; [by apply op_calm|]. cbv beta. intros a w1 [Hc1 Er1].
  eapply wp_mono; [apply IH; [done|by eapply calm_draining]|]. cbv beta. intros b w2 [Hc2 Er2]. split; [|congruence].
  exact (calm_trans _ _ _ _ _ Hc1 Hc2).
Qed.

Definition calms (inv : event -> sprog nat) : Prop := forall e w,
  class_of e = Draining -> draining w -> wp (inv e) (fun _ w' => calm [e] w w' /\ reqs w' = reqs w) w.

Lemma invoke_calms depth : calms (invoke kernel user (S depth)).
Proof using fd0_ok user_legal.
  intros e w He Hd. apply wp_invoke. intros ops len Eu. pose proof (user_legal (evs w) e) as Hl. rewrite Eu in Hl.
  unfold script_ok in Hl. rewrite He in Hl. eapply wp_mono; [apply script_calm; [done|exact Hd]|]. cbv beta.
  intros a w' [(El & Ea & Ee & Hc) Er]. by split.
Qed.

(** The callback of a request that failed. *)
Definition failure (r : loopyWriteReq) : option event := if (rq_cb r =? 0)%Z then None else Some (EvWrite (rq_cb r) (-1) (rq_userData r)).

Lemma drainLoop_ok inv fuel req addrs rs w : calms inv -> chain rq_next (reqs w) req addrs ->
  Forall2 (fun a r => core <$> reqs w !! a = Some r) addrs rs -> NoDup addrs -> fl_ok (loop w) -> (addrs <> [] -> draining w) -> length addrs < fuel ->
  wp (drainLoop inv fuel req (-1)) (fun _ w' => calm (rev (omap failure rs)) w w' /\
    forall a, reqs w' !! a = if decide (a ∈ addrs) then None else reqs w !! a) w.
Proof using Type.
  intros Hinv. revert req addrs rs w. induction fuel as [|fuel IH]; intros req addrs rs w Hc Hr Hnd Hl Hd Hf; [lia|].
  destruct addrs as [|a addrs]; [|].
  - cbn in Hc. subst req. apply Forall2_nil_inv_l in Hr as ->. apply wp_ret. split; [by apply calm_refl|].
    intros a. rewrite decide_False; [done|apply not_elem_of_nil].
  - destruct Hc as (-> & r & Ha & Hc). apply Forall2_cons_inv_l in Hr as (r' & q & Er & Hr & ->). rewrite Ha in Er. injection Er as <-.
    apply NoDup_cons in Hnd as [Hna Hnd]. specialize (Hd ltac:(done)). cbn [drainLoop]. apply wp_bind. eapply wp_the_req; [done|].
    set (es := match failure r with Some e => [e] | None => [] end).
    eapply wp_seq with (P := fun _ w1 => calm es w w1 /\ reqs w1 = reqs w).
    { apply wp_call_if; intros Ecb.
      - split; [|done]. unfold es, failure. rewrite Ecb. cbn. by apply calm_refl.
      - eapply wp_mono; [apply Hinv; [done|exact Hd]|]. cbv beta. intros n w1 [Hc1 Er1]. split; [|done]. unfold es, failure.
        by rewrite (proj2 (Z.eqb_neq _ _) Ecb). }
    cbv beta. intros _ w1 [Hc1 Er1]. apply wp_bind. eapply wp_free_req; [by rewrite Er1|].
    set (w2 := w1 <| reqs := _ |>).
    assert (Hc2 : calm es w w2) by exact Hc1. assert (Hd2 : draining w2) by exact (calm_draining _ _ _ Hc1 Hd).
    assert (Eother : forall b, b ∈ addrs -> reqs w2 !! b = reqs w !! b).
    { intros b Hb. cbn. rewrite lookup_delete_ne by (intros ->; done). by rewrite Er1. }
    eapply wp_mono; [apply (IH _ addrs q w2); try done|].
    + eapply chain_ext; [|exact Hc]. intros b Hb. by rewrite Eother.
    + eapply Forall2_frame; [|exact Hr]. intros b Hb. by rewrite Eother.
    + by destruct Hd2 as (? & _ & _ & _ & ?).
    + cbn in Hf. lia.
    + cbv beta. intros _ w3 [Hc3 Er3]. split.
      * replace (rev (omap failure (core r :: q))) with (rev (omap failure q) ++ es); [exact (calm_trans _ _ _ _ _ Hc2 Hc3)|].
        unfold es. cbn [omap list_omap]. change (failure (core r)) with (failure r). destruct (failure r); [done|by rewrite app_nil_r].
      * intros b. rewrite Er3. destruct (decide (b ∈ addrs)) as [Hb|Hb]; [rewrite decide_True by (by right); done|].
        destruct (decide (b = a)) as [-> |Hba]; [rewrite decide_True by (by left); cbn; by rewrite lookup_delete_eq|].
        rewrite decide_False by (by apply not_elem_of_cons). cbn. by rewrite lookup_delete_ne, Er1 by done.
Qed.

(** Requests that are not fully sent are reported as failed. *)
Lemma failures_noticed t rs : Forall (live t) rs -> omap write_event (omap failure rs) = omap notice rs.
Proof using Type.
  intros H. induction H as [|r rs [Hr _] _ IH]; [done|]. cbn [omap list_omap]. unfold failure at 1, notice at 1, status_of.
  destruct (rq_cb r =? 0)%Z; [exact IH|]. cbn [omap list_omap write_event].
  rewrite (proj2 (Nat.leb_gt (rq_len r) (rq_written r)) Hr). f_equal. exact IH.
Qed.

Lemma drain_ok inv orph w s addrs rs done : calms inv -> st w = Some s -> fd s = fd0 -> fl_ok (loop w) -> wqueue orph (reqs w) s addrs rs ->
  history (syslog w) (evs w) (accepted w) done rs ->
  wp (streamDrainWriteQueue inv (-1)) (fun _ w' => reqs w' = orph /\ syslog w' = syslog w /\
    history (syslog w') (evs w') (accepted w') (done ++ rs) [] /\
    exists s', calm_stream (loop w) (loop w') s s' /\
      st w' = Some (s' <| writeHead := None |> <| writeTail := None |> <| writeQueueSize := 0 |> <| writeQueueCount := 0 |>)) w.
Proof using Type.
  intros Hinv Es Ef Hl Hq Hh. unfold streamDrainWriteQueue. apply wp_bind. eapply wp_the_stream; [done|]. apply wp_bind, wp_get.
  pose proof (wq_queue _ _ _ _ _ Hq) as [Hc _]. pose proof (chain_size _ _ _ _ Hc (wq_nodup _ _ _ _ _ Hq)) as Hsz.
  eapply wp_seq; [eapply (drainLoop_ok _ _ _ addrs rs); [done|done|apply Hq|apply Hq|done| |lia]|].
  { intros Hne. exists s. split_and!; try done. destruct (wqueue_head _ _ _ _ _ Hq) as (-> & _). by destruct addrs. }
  cbv beta. intros _ w1 ((El & Ea & Ee & Hs) & Er). destruct (Hs s Es) as (s' & Es' & Hcs). eapply wp_upd; [done|]. cbn. split_and!.
  - apply map_eq. intros a. rewrite Er. destruct (decide (a ∈ addrs)); [by rewrite (wq_own _ _ _ _ _ Hq)|by apply (wq_other _ _ _ _ _ Hq)].
  - done.
  - rewrite El, Ea, Ee. destruct Hh as [H1 H2 H3 H4 H5]. split; rewrite ?app_nil_r; try done.
    rewrite rev_app_distr, rev_involutive, !omap_app, H4. f_equal. eapply failures_noticed, (wq_live _ _ _ _ _ Hq).
  - by exists s'.
Qed.

(** ** Closing *)

(** A stream whose descriptor was closed. *)
Definition off (s : loopyStream) : Prop := closing s = true /\ fd s = (-1)%Z /\ reading s = false.

(** Nothing happened to it but for the user's data. *)
Definition inert (w w' : world) : Prop := exists s', off s' /\ w' = w <| st := Some s' |>.

Lemma inert_refl w s : st w = Some s -> off s -> inert w w.
Proof using Type. intros Es Ho. exists s. split; [done|]. destruct w. cbn in Es. by subst. Qed.

Lemma op_inert inv op w s : st w = Some s -> off s -> wp (stream_do kernel inv op) (fun _ w' => inert w w') w.
Proof using Type.
  intros Es Ho. pose proof (inert_refl w s Es Ho) as Hi. destruct Ho as (Ec & Ef & Er).
  assert (Hlt : (fd s < 0)%Z) by by rewrite Ef.
  destruct op; cbn [stream_do].
  - apply wp_bind. unfold loopyStreamWrite. case_if; [by apply wp_ret|]. apply wp_bind. eapply wp_the_stream; [done|]. rewrite (proj2 (Z.ltb_lt _ _) Hlt). by apply wp_ret.
  - apply wp_bind. unfold loopyStreamWriteWithFd. case_if; [by apply wp_ret|]. apply wp_bind. eapply wp_the_stream; [done|].
    case_if; [by apply wp_ret|]. case_if; [by apply wp_ret|]. rewrite (proj2 (Z.ltb_lt _ _) Hlt). by apply wp_ret.
  - apply wp_bind. unfold loopyStreamTryWrite. case_if; [by apply wp_ret|]. apply wp_bind. eapply wp_the_stream; [done|]. rewrite (proj2 (Z.ltb_lt _ _) Hlt). by apply wp_ret.
  - apply wp_bind. unfold loopyStreamShutdown. apply wp_bind. eapply wp_the_stream; [done|]. rewrite (proj2 (Z.ltb_lt _ _) Hlt). by apply wp_ret.
  - apply wp_bind. unfold loopyStreamReadStart. case_if; [by apply wp_ret|]. apply wp_bind. eapply wp_the_stream; [done|]. rewrite (proj2 (Z.ltb_lt _ _) Hlt). by apply wp_ret.
  - apply wp_bind. unfold loopyStreamReadStartWithFd. case_if; [by apply wp_ret|]. apply wp_bind. eapply wp_the_stream; [done|].
    case_if; [by apply wp_ret|]. rewrite (proj2 (Z.ltb_lt _ _) Hlt). by apply wp_ret.
  - unfold loopyStreamReadStop. apply wp_bind. eapply wp_the_stream; [done|]. rewrite Er. by apply wp_ret.
  - eapply wp_upd; [done|]. eexists. split; [|done]. by split_and!.
  - apply wp_bind. unfold loopyStreamAccept. apply wp_bind. eapply wp_the_stream; [done|]. rewrite (proj2 (Z.ltb_lt _ _) Hlt), orb_true_r. by apply wp_ret.
  - unfold loopyStreamClose. apply wp_bind. eapply wp_the_stream; [done|]. rewrite Ec. by apply wp_ret.
Qed.

Lemma script_inert inv ops w s : st w = Some s -> off s -> wp (stream_script kernel inv ops) (fun _ w' => inert w w') w.
Proof using Type.
  revert w s. induction ops as [|op ops IH]; intros w s Es Ho; [by eapply wp_ret, inert_refl|]. cbn.
  eapply wp_seq; [by eapply op_inert|]. cbv beta. intros a w1 (s1 & Ho1 & ->).
  eapply wp_mono; [by apply (IH _ s1)|]. cbv beta. intros b w2 (s2 & Ho2 & ->). by exists s2.
Qed.

Definition inerts (inv : event -> sprog nat) : Prop := forall e w s,
  class_of e = Closing -> st w = Some s -> off s -> wp (inv e) (fun _ w' => inert (in_event e w) w') w.

Lemma invoke_inerts depth : inerts (invoke kernel user (S depth)).
Proof using Type.
  intros e w s _ Es Ho. apply wp_invoke. intros ops len _. by apply (script_inert _ _ _ s).
Qed.

(** The stop of a stream that is being closed. *)
Lemma readStop_closing w s : st w = Some s -> fd s = fd0 -> fl_ok (loop w) ->
  wp loopyStreamReadStop (fun _ w' => exists l', fl_ok l' /\ w' = w <| st := Some (s <| reading := false |>) |> <| loop := l' |>) w.
Proof using fd0_ok.
  intros Es Ef Hl. unfold loopyStreamReadStop. apply wp_bind. eapply wp_the_stream; [done|]. destruct (reading s) eqn:Er; cbn [negb].
  - apply wp_bind. eapply wp_upd; [done|]. case_if.
    + rewrite Ef. apply wp_unregister; [done|apply fd0_ok|]. intros l' Hl' _. by exists l'.
    + apply wp_ret. by exists (loop w).
  - apply wp_ret. exists (loop w). split; [done|]. destruct w, s. cbn in Es, Er. by subst.
Qed.

Lemma close_ok inv cb d w : calms inv -> inerts inv -> sound ∅ w -> wp (loopyStreamClose kernel inv cb d) (fun _ => closed) w.
Proof using fd0_ok.
  intros Hc Hi (s & addrs & rs & done & Es & Hq & Hh & [[] _]). unfold loopyStreamClose.
  apply wp_bind. eapply wp_the_stream; [done|]. rewrite fg_closing0. apply wp_bind. eapply wp_upd; [done|].
  set (s1 := s <| closing := true |> <| closeCb := cb |> <| closeUserData := d |>).
  eapply wp_seq with (P := fun _ w' => exists l', fl_ok l' /\ w' = w <| st := Some (s1 <| reading := false |>) |> <| loop := l' |>).
  { destruct (reading s) eqn:Er; [by eapply wp_mono; [by eapply readStop_closing|]|]. apply wp_ret. exists (loop w). split; [done|].
    unfold s1. destruct w, s. cbn in Es, Er. by subst. }
  cbv beta. intros _ ? (l1 & Hl1 & ->). apply wp_bind. eapply wp_the_stream; [done|].
  assert (Hfd : (0 <=? fd (s1 <| reading := false |>))%Z = true) by (cbn; rewrite fg_fd0; apply Z.leb_le, fd0_ok).
  rewrite Hfd. apply wp_bind. change (fd (s1 <| reading := false |>)) with (fd s). rewrite fg_fd0.
  apply wp_unregister; [done|apply fd0_ok|]. intros l2 Hl2 Hon2.
  eapply wp_seq; [apply (drain_ok _ ∅ _ (s1 <| reading := false |>) addrs rs done); try done; by apply (wqueue_ext _ _ s)|].
  cbv beta. intros _ w3 (Er3 & El3 & Hh3 & s3 & [Hf3 Hr3 Ho3 _ Hon3] & Es3).
  injection Hf3 as Ef3 _ _ _ Ec3 _ _ _ _ _ _ _. cbn in Ef3, Ec3. cbn [loop] in Ho3, Hon3.
  apply wp_bind. eapply wp_the_stream; [exact Es3|].
  set (s4 := s3 <| writeHead := None |> <| writeTail := None |> <| writeQueueSize := 0 |> <| writeQueueCount := 0 |>) in *.
  assert (Ef4 : fd s4 = fd0) by (cbn; congruence). rewrite Ef4. rewrite (proj2 (Z.leb_le 0 fd0) (proj1 fd0_ok)).
  apply wp_bind, wp_bind, wp_sys. set (r := kernel _ _). eapply wp_upd; [exact Es3|]. set (s5 := s4 <| fd := (-1)%Z |>).
  set (w5 := _ <| st := Some s5 |>). assert (Ho : off s5).
  { split_and!; [exact Ec3|done|]. destruct (reading s3) eqn:Er; [|exact Er]. by destruct (Hr3 eq_refl). }
  assert (Hend : forall w', history (syslog w') (evs w') (accepted w') (done ++ rs) [] -> syslog w' = syslog w5 -> reqs w' = reqs w5 ->
    loop w' = loop w5 -> is_Some (st w') -> wp free_stream (fun _ => closed) w').
  { intros w' Hh' El' Er' Elp [s' Es']. eapply wp_free_stream; [exact Es'|]. split_and!; cbn; try done.
    - by rewrite Er'.
    - rewrite Elp. exact Ho3.
    - rewrite Elp. intros b. destruct (fl_on (loop w5) fd0 b) eqn:E; [|done]. apply Hon3 in E. rewrite Hon2, Z.eqb_refl in E.
      by destruct b; rewrite andb_false_r in E.
    - exists r. by rewrite El'.
    - by exists (done ++ rs). }
  assert (Hh5 : history (syslog w5) (evs w5) (accepted w5) (done ++ rs) []) by (by apply history_sys).
  apply wp_bind, wp_call_if; intros Ecb; [by apply Hend|]. eapply wp_mono; [by apply (Hi _ w5 s5)|]. cbv beta.
  intros n ? (s6 & Ho6 & ->). apply Hend; try done. by apply history_event.
Qed.

(** ** Writing out the queue *)

(** What the kernel took of the request [r], which is then [r2]. *)
Record took (t : loopyStreamType) (x : syscall * sysret) (n : nat) (r r2 : loopyWriteReq) : Prop := {
  tk_item : item r2 = item r;
  tk_next : rq_next r2 = rq_next r;
  tk_written : rq_written r2 = rq_written r + n;
  tk_fit : rq_written r + n <= rq_len r;
  tk_sent : sent_of r2 = sent_of r ++ taken x;
  tk_fds : fds_of r2 = fds_of r ++ taken_fds x;
  tk_live : rq_fds r2 <> [] -> t = LOOPY_STREAM_PIPE /\ rq_fdsSent r2 = (0 <? rq_written r2);
  tk_shutdown : is_shutdown x = false;
  tk_connect : connect_failed [x] = false
}.

Lemma took_len t x n r r2 : took t x n r r2 -> rq_len r2 = rq_len r.
Proof using Type. intros []. injection tk_item0 as E _ _ _. unfold rq_len. by rewrite E. Qed.

Section Round.
Variables (w : world) (s : loopyStream) (a : nat) (addrs : list nat) (r : loopyWriteReq) (q done : list loopyWriteReq).
Hypothesis Es : st w = Some s.
Hypothesis Ha : reqs w !! a = Some r.
Hypothesis Hq : wqueue ∅ (reqs w) s (a :: addrs) (core r :: q).
Hypothesis Hh : history (syslog w) (evs w) (accepted w) done (core r :: q).
Hypothesis Hf : flags s (loop w) (syslog w).

Lemma round_head : writeHead s = Some a /\ writable s = true /\ half_closed (syslog w) = false.
Proof using Es Ha Hq Hh Hf.
  assert (Eh : writeHead s = Some a) by apply (wqueue_head _ _ _ _ _ Hq). destruct Hf as [[] _]. split; [done|].
  destruct (writable s) eqn:Ew; [|rewrite fg_writable0 in Eh by done; done]. split; [done|].
  destruct (half_closed (syslog w)) eqn:E; [|done]. by apply fg_half_closed0.
Qed.

Lemma round_history x n r2 : took (type s) x n r r2 -> history (x :: syslog w) (evs w) (accepted w) done (core r2 :: q).
Proof using Es Ha Hq Hh Hf.
  intros H. destruct round_head as (_ & _ & Hhalf). eapply (history_write _ _ _ _ _ (core r)); try done.
  - apply H.
  - apply (tk_sent _ _ _ _ _ H).
  - apply (tk_fds _ _ _ _ _ H).
  - exact (wq_untouched _ _ _ _ _ Hq).
Qed.

(** Changes of the queue that leave the flags alone. *)
Lemma round_flags x s' :
  (closing s', fd s', allocCb s', readCb s', readFdCb s', reading s', writable s') = (closing s, fd s, allocCb s, readCb s, readFdCb s, reading s, writable s) ->
  is_shutdown x = false -> connect_failed [x] = false -> flags s' (loop w) (x :: syslog w).
Proof using Es Ha Hq Hh Hf.
  intros Eqf Hx Hc. injection Eqf as E1 E2 E3 E4 E5 E6 E7. destruct round_head as (Eh & Ew & _). destruct Hf as [[] Hw]. split.
  - apply base_sys; [done|]. split; rewrite ?E1, ?E2, ?E3, ?E4, ?E5, ?E6, ?E7; try done. congruence.
  - apply watched_sys; [done|]. intros Ha' Hn _. apply Hw; [done|done|]. left. congruence.
Qed.
End Round.

(** The system call of a round. *)
Definition with_fds (t : loopyStreamType) (r : loopyWriteReq) : bool :=
  negb (bool_decide (rq_fds r = [])) && negb (rq_fdsSent r) && bool_decide (t = LOOPY_STREAM_PIPE).
Definition round_call (t : loopyStreamType) (g : Z) (r : loopyWriteReq) : syscall :=
  let remaining := drop (rq_written r) (rq_data r) in
  if with_fds t r then SysSendmsg g remaining (rq_fds r) else SysWrite g remaining.
Definition round_req (t : loopyStreamType) (n : nat) (r : loopyWriteReq) : loopyWriteReq :=
  (if with_fds t r then r <| rq_fdsSent := true |> else r) <| rq_written ::= fun k => k + n |>.

Lemma round_refused t g r x : live t r -> (ret x < 0)%Z -> took t (round_call t g r, x) 0 r r.
Proof using Type.
  intros [Hl Hfd] Hx. split; try done; try lia; unfold round_call; destruct (with_fds t r); cbn -[Z.ltb]; try done.
  - by rewrite Z2Nat.nonpos, app_nil_r by lia.
  - by rewrite Z2Nat.nonpos, app_nil_r by lia.
  - by rewrite (proj2 (Z.ltb_ge 0 (ret x))), app_nil_r by lia.
  - by rewrite app_nil_r.
Qed.

Lemma with_fds_spec t r : live t r ->
  if with_fds t r then rq_fds r <> [] /\ t = LOOPY_STREAM_PIPE /\ (0 <? rq_written r) = false
  else rq_fds r <> [] -> (0 <? rq_written r) = true.
Proof using Type.
  intros [_ Hfd]. unfold with_fds. case_bool_decide as E; cbn [negb andb]; [by intros []|]. destruct (Hfd E) as [-> <-].
  by destruct (rq_fdsSent r).
Qed.

Lemma round_accepted t g r x : live t r -> (0 < ret x <= Z.of_nat (left_of r))%Z ->
  took t (round_call t g r, x) (Z.to_nat (ret x)) r (round_req t (Z.to_nat (ret x)) r).
Proof using Type.
  intros Hl Hx. pose proof (with_fds_spec t r Hl) as Hw. destruct Hl as [Hlt Hfd]. set (n := Z.to_nat (ret x)).
  assert (Hn : 0 < n <= left_of r) by lia. unfold left_of in Hn. assert (Epos : 0 <? rq_written r + n = true) by (apply Nat.ltb_lt; lia).
  assert (Ex : (0 <? ret x)%Z = true) by (apply Z.ltb_lt; lia).
  unfold round_call, round_req. destruct (with_fds t r); split; try done; try lia; unfold sent_of, fds_of, taken_fds;
    cbn [rq_written rq_data rq_fds rq_fdsSent update taken fst snd]; rewrite ?Ex, ?Epos; try (by rewrite take_take_drop).
  - destruct Hw as (_ & _ & ->). done.
  - by destruct Hw as (_ & -> & _).
  - rewrite app_nil_r. destruct (rq_fds r); [by destruct (0 <? rq_written r)|]. by rewrite Hw.
  - intros Hne. destruct (Hfd Hne) as [-> ->]. by rewrite Hw.
Qed.

Lemma sound_free a r orph w (Q : unit -> world -> Prop) : orph !! a = Some r -> sound orph w ->
  (forall w', sound (delete a orph) w' -> st w' = st w -> Q tt w') -> wp (free_req a) Q w.
Proof using Type.
  intros Ha (s & addrs & rs & done & Es & Hq & Hh & Hf) HQ.
  assert (Hna : a ∉ addrs) by (intros Hin; rewrite (wq_own _ _ _ _ _ Hq a Hin) in Ha; done).
  eapply wp_free_req; [by rewrite (wq_other _ _ _ _ _ Hq a Hna)|]. apply HQ; [|done].
  exists s, addrs, rs, done. split_and!; try done. apply wqueue_free; [done|by eexists].
Qed.

Definition qsize (w : world) : nat := from_option writeQueueSize 0 (st w).

Definition round_result (w : world) (p : progress) (w' : world) : Prop :=
  sound ∅ w' /\
  match p with
  | Again => quiet -> qsize w' < qsize w
  | Drained => w' = w /\ forall s, st w = Some s -> writeHead s = None
  | _ => True
  end.

(** A request is taken out of the queue and called back. *)
Lemma finish_req_ok inv w s s' a addrs r q done x n r2 : keeps inv -> st w = Some s -> reqs w !! a = Some r ->
  wqueue ∅ (reqs w) s (a :: addrs) (core r :: q) -> history (syslog w) (evs w) (accepted w) done (core r :: q) -> flags s (loop w) (syslog w) ->
  took (type s) x n r r2 -> 0 < n -> rq_len r2 <= rq_written r2 ->
  s' = s <| writeQueueSize ::= fun k => k - n |> <| writeHead := rq_next r |>
         <| writeTail := if bool_decide (rq_next r = None) then None else writeTail s |> <| writeQueueCount ::= pred |> ->
  wp (call_if inv (rq_cb r2) (EvWrite (rq_cb r2) 0 (rq_userData r2)) ≫= fun _ => free_req a)
    (fun _ w' => sound ∅ w' /\ (quiet -> qsize w' < qsize w)) (World (Some s') (<[a := r2]> (reqs w)) (loop w) (x :: syslog w) (evs w) (accepted w)).
Proof using Type.
  intros Hinv Es Ha Hq Hh Hf Hx Hn Hfull ->. set (w1 := World _ _ _ _ _ _). set (orph := <[a := r2]> (∅ : gmap nat loopyWriteReq)).
  pose proof (took_len _ _ _ _ _ Hx) as Elen. pose proof (tk_written _ _ _ _ _ Hx) as Ewr. pose proof (tk_fit _ _ _ _ _ Hx) as Hfit.
  assert (Hq1 : wqueue orph (reqs w1) (default s (st w1)) addrs q).
  { eapply (wqueue_pop _ _ s _ _ r _ _ n); try done; [apply Hx|unfold left_of; lia]. }
  assert (Hf1 : flags (default s (st w1)) (loop w1) (syslog w1)).
  { apply (round_flags w s a addrs r q done Es Ha Hq Hh Hf x); try done; apply Hx. }
  assert (Hsize : qsize w1 < qsize w).
  { unfold qsize. cbn. rewrite Es. cbn. pose proof (wq_size _ _ _ _ _ Hq) as Esz. cbn [sum_list_with] in Esz.
    change (left_of (core r)) with (left_of r) in Esz.
    unfold left_of, rq_len in *. lia. }
  pose proof (history_finish _ _ _ _ _ _ (round_history w s a addrs r q done Es Ha Hq Hh Hf x n r2 Hx)) as Hh1.
  assert (Hs1 : sound orph (if (rq_cb r2 =? 0)%Z then w1 else in_event (EvWrite (rq_cb r2) 0 (rq_userData r2)) w1)).
  { eexists _, addrs, q, (done ++ [core r2]). unfold notice, status_of in Hh1.
    change (rq_cb (core r2)) with (rq_cb r2) in Hh1. change (rq_len (core r2) <=? rq_written (core r2)) with (rq_len r2 <=? rq_written r2) in Hh1.
    rewrite (proj2 (Nat.leb_le _ _) Hfull) in Hh1. by destruct (rq_cb r2 =? 0)%Z. }
  assert (Horph : orph !! a = Some r2) by apply lookup_insert_eq.
  assert (Hdel : delete a orph = ∅) by (unfold orph; by rewrite delete_insert_eq, delete_empty).
  apply wp_bind, wp_call_if; intros Ecb.
  - rewrite Ecb in Hs1. cbn [Z.eqb] in Hs1. eapply sound_free; [done|exact Hs1|]. rewrite Hdel. intros w2 Hs2 Est. split; [done|].
    intros _. unfold qsize in *. by rewrite Est.
  - rewrite (proj2 (Z.eqb_neq _ _) Ecb) in Hs1. eapply wp_mono; [apply (Hinv _ orph); [done|exact Hs1]|]. intros k w2 [Hs2 Hk2].
    eapply sound_free; [done|exact Hs2|]. rewrite Hdel. intros w3 Hs3 Est. split; [done|]. intros Hqu.
    destruct (Hk2 _ eq_refl) as (s2 & Es2 & Hle & _). specialize (Hle (conj Hqu eq_refl)). unfold qsize in *. rewrite Est, Es2. cbn in *. lia.
Qed.

(** The kernel refuses: the queue waits, or it is drained. *)
Lemma refused_ok inv w s a addrs r q done x : calms inv -> st w = Some s ->
  wqueue ∅ (reqs w) s (a :: addrs) (core r :: q) -> history (syslog w) (evs w) (accepted w) done (core r :: q) -> flags s (loop w) (syslog w) ->
  wp (if (errno x =? EAGAIN)%Z then mret Stopped
      else streamSetError "write" ≫= fun _ => streamDrainWriteQueue inv (-1) ≫= fun _ => streamUpdateWriteWatcher ≫= fun _ => mret Failed)
    (fun p w' => sound ∅ w' /\ (p = Stopped \/ p = Failed)) w.
Proof using fd0_ok.
  intros Hc Es Hq Hh Hf. case_if; [apply wp_ret; split; [by exists s, (a :: addrs), (core r :: q), done|by left]|].
  apply wp_bind. eapply wp_upd; [done|]. set (s1 := s <| errorString := _ |>). destruct Hf as [[] _].
  eapply wp_seq; [apply (drain_ok _ ∅ _ s1 (a :: addrs) (core r :: q) done); try done; by apply (wqueue_ext _ _ s)|].
  cbv beta. intros _ w2 (Er & El & Hh2 & s2 & [Hf2 Hr2 Ho2 Hw2 Hon2] & Es2). change (calm_fields s2 = calm_fields s) in Hf2. unfold calm_fields in Hf2.
  injection Hf2 as E1 E2 E3 E4 E5 E6 E7 E8 _ _ _ _.
  eapply wp_seq; [eapply (updateWriteWatcher_ok ∅ w2 _ [] []); [exact Es2| |exact Hh2|]|].
  - rewrite Er. by apply wqueue_empty.
  - split; cbn; try done; [congruence|congruence|by rewrite E6, E7, E8|rewrite E6|rewrite E3, El; done].
    intros Hrd. destruct (Hr2 Hrd) as [Hrd1 Eon]. destruct (fg_reading0 Hrd1) as [Hal Hacc]. split; [done|]. intros Ha. by rewrite Eon, <- Hacc.
  - intros _ w3 [Hs3 _]. apply wp_ret. split; [done|by right].
Qed.

Lemma writeRound_ok inv w : keeps inv -> calms inv -> sound ∅ w -> wp (writeRound kernel inv) (round_result w) w.
Proof using fd0_ok kernel_writes.
  intros Hk Hc H. pose proof H as (s & addrs & rs & done & Es & Hq & Hh & Hf). unfold writeRound.
  apply wp_bind. eapply wp_the_stream; [done|]. destruct (writeHead s) as [a|] eqn:Eh.
  2: { apply wp_ret. split; [done|]. split; [done|]. intros s' Es'. congruence. }
  destruct addrs as [|a' addrs]; [apply wqueue_head in Hq as (E & _); cbn in E; congruence|].
  destruct (wqueue_first _ _ _ _ _ _ Hq) as (r & q & -> & Ha & Eh'). assert (a' = a) as -> by congruence.
  apply wp_bind. eapply wp_the_req; [done|]. apply wp_bind, wp_sys. fold (with_fds (type s) r). destruct Hf as [Hb Hw]. pose proof (fg_fd _ _ _ Hb) as Efd.
  rewrite Efd. fold (round_call (type s) fd0 r). set (x := kernel _ _). set (c := round_call (type s) fd0 r) in *.
  pose proof (wq_live _ _ _ _ _ Hq) as Hlive. apply Forall_cons in Hlive as [Hlive _]. change (live (type s) r) in Hlive.
  assert (Hx : (ret x < 0)%Z \/ (0 < ret x <= Z.of_nat (left_of r))%Z).
  { destruct Hlive as [Hlt _]. unfold left_of. destruct (rq_len r - rq_written r) as [|n] eqn:En; [lia|]. apply kernel_writes.
    exists fd0, (drop (rq_written r) (rq_data r)), (rq_fds r). split; [unfold c, round_call; destruct (with_fds _ _); auto|].
    by rewrite length_drop. }
  set (w1 := w <| syslog := _ |>). destruct Hx as [Hx|Hx].
  - rewrite (proj2 (Z.ltb_ge 0 (ret x))), andb_false_r by lia. apply wp_bind, wp_ret. rewrite (proj2 (Z.ltb_lt _ _) Hx).
    pose proof (round_refused (type s) fd0 r x Hlive Hx) as Ht. eapply wp_mono; [apply (refused_ok inv w1 s a addrs r q done); try done|].
    + by apply (round_history w s a addrs r q done Es Ha Hq Hh (conj Hb Hw) _ 0).
    + apply (round_flags w s a addrs r q done Es Ha Hq Hh (conj Hb Hw) (c, x)); try done; apply Ht.
    + cbv beta. intros p w2 [Hs2 [-> | ->]]; by split.
  - pose proof (round_accepted (type s) fd0 r x Hlive Hx) as Ht. set (n := Z.to_nat (ret x)) in *. set (r2 := round_req _ _ _) in *.
    rewrite (proj2 (Z.ltb_lt 0 (ret x))), (proj2 (Z.ltb_ge (ret x) 0)), andb_true_r by lia.
    eapply wp_seq with (P := fun _ w' => w' = w1 <| reqs := <[a := if with_fds (type s) r then r <| rq_fdsSent := true |> else r]> (reqs w) |>).
    { destruct (with_fds _ _); [by eapply wp_upd_req|]. apply wp_ret. rewrite insert_id by done. by destruct w. }
    cbv beta. intros _ ? ->. apply wp_bind. eapply (wp_upd_req_to _ _ _ _ _ (<[a := r2]> (reqs w))); [apply lookup_insert_eq|symmetry; apply insert_insert_eq|].
    apply wp_bind. eapply wp_upd; [done|]. apply wp_bind. eapply wp_the_req; [apply lookup_insert_eq|]. apply wp_bind.
    pose proof (took_len _ _ _ _ _ Ht) as Elen. destruct (Nat.leb_spec (rq_len r2) (rq_written r2)) as [Hfull|Hpart].
    + apply wp_bind. eapply wp_upd; [done|]. apply wp_bind. eapply wp_the_stream; [done|]. rewrite (tk_next _ _ _ _ _ Ht).
      assert (Hfin : forall s', s' = s <| writeQueueSize ::= fun k => k - n |> <| writeHead := rq_next r |>
          <| writeTail := if bool_decide (rq_next r = None) then None else writeTail s |> <| writeQueueCount ::= pred |> ->
        wp (call_if inv (rq_cb r2) (EvWrite (rq_cb r2) 0 (rq_userData r2)) ≫= fun _ => free_req a)
          (fun _ => wp (mret Again) (round_result w)) (World (Some s') (<[a := r2]> (reqs w)) (loop w) ((c, x) :: syslog w) (evs w) (accepted w))).
      { intros s' Es'. eapply wp_mono; [eapply (finish_req_ok inv w s s' a addrs r q done (c, x) n r2); try done; lia|].
        cbv beta. intros _ w2 [Hs2 Hsz]. by apply wp_ret. }
      apply wp_bind. destruct (decide (rq_next r = None)) as [En|En].
      * rewrite (bool_decide_true (writeHead _ = None)) by exact En. eapply wp_upd; [done|]. apply wp_bind. eapply wp_upd; [done|]. apply Hfin. by rewrite bool_decide_true.
      * rewrite (bool_decide_false (writeHead _ = None)) by exact En. apply wp_ret, wp_bind. eapply wp_upd; [done|]. apply Hfin. rewrite bool_decide_false by done. by destruct s.
    + apply wp_ret, wp_ret. split.
      * eexists _, (a :: addrs), (core r2 :: q), done. split_and!; [done| | |].
        -- eapply (wqueue_progress _ _ s _ _ r r2 _ n); try done; [apply Ht|split; [lia|apply Ht]|apply Ht].
        -- by apply (round_history w s a addrs r q done Es Ha Hq Hh (conj Hb Hw) _ n).
        -- apply (round_flags w s a addrs r q done Es Ha Hq Hh (conj Hb Hw) (c, x)); try done; apply Ht.
      * intros _. unfold qsize. cbn. rewrite Es. cbn. pose proof (wq_size _ _ _ _ _ Hq) as Esz. cbn [sum_list_with] in Esz.
        change (left_of (core r)) with (left_of r) in Esz. lia.
Qed.

Lemma writeRounds_ok inv rounds w : keeps inv -> calms inv -> sound ∅ w ->
  wp (writeRounds kernel inv rounds) (fun p w' => sound ∅ w' /\ (p = Drained -> forall s, st w' = Some s -> writeHead s = None) /\
    (quiet -> qsize w < rounds -> p <> Again)) w.
Proof using fd0_ok kernel_writes.
  intros Hk Hc. revert w. induction rounds as [|rounds IH]; intros w H; [apply wp_ret; split_and!; [done..|lia]|]. cbn [writeRounds].
  eapply wp_seq; [by apply writeRound_ok|]. cbv beta. intros p w1 [Hs1 Hp]. destruct p.
  - eapply wp_mono; [by apply IH|]. cbv beta. intros p w2 (Hs2 & Hd & Hr). split_and!; [done..|]. intros Hqu Hlt. apply Hr; [done|].
    specialize (Hp Hqu). lia.
  - by apply wp_ret.
  - by apply wp_ret.
  - destruct Hp as [-> Hd]. by apply wp_ret.
Qed.

Lemma watcher_ok w : sound ∅ w -> wp streamUpdateWriteWatcher (fun _ => sound ∅) w.
Proof using fd0_ok.
  intros (s & addrs & rs & done & Es & Hq & Hh & [Hb _]). eapply wp_mono; [by eapply updateWriteWatcher_ok|]. by intros a w' [? _].
Qed.

Lemma finishWrites_ok inv w s : keeps inv -> sound ∅ w -> st w = Some s -> writeHead s = None ->
  wp (finishWrites kernel inv) (fun _ => sound ∅) w.
Proof using fd0_ok.
  intros Hk H Es Eh. pose proof H as (s' & addrs & rs & done & Es' & Hq & Hh & [[] Hw]). assert (s' = s) as -> by congruence.
  unfold finishWrites. apply wp_bind. eapply wp_the_stream; [done|]. rewrite (bool_decide_true (writeHead s = None)), andb_true_r by done.
  eapply wp_seq with (P := fun _ => sound ∅); [|by intros _ w1; apply watcher_ok]. destruct (shutdownPending s) eqn:Ep; [|by apply wp_ret].
  apply wp_bind, wp_sys. set (r := kernel _ _). apply wp_bind. eapply wp_upd; [done|].
  set (w1 := _ <| st := _ |>). apply wp_bind. eapply wp_the_stream; [done|].
  assert (Hs1 : sound ∅ w1).
  { eexists _, addrs, rs, done. split_and!; [done|by apply (wqueue_ext _ _ s)|by apply history_sys|]. split; [by split|].
    apply watched_sys; [done|]. intros Ha Hn [Hww|[Hww|Hww]]; [done|done|]. apply Hw; [done|done|]. by right; right. }
  apply wp_call_if; intros Ecb; [done|]. eapply wp_mono; [apply (Hk _ ∅); [done|by apply sound_event]|]. by intros a w2 [Hs2 _].
Qed.

(** ** Callbacks that may close the stream *)

Definition ends (w : world) : Prop := sound ∅ w \/ closed w.

Definition may_close (inv : event -> sprog nat) : Prop := forall e w,
  class_of e = MayClose -> sound ∅ (in_event e w) -> wp (inv e) (fun _ => ends) w.

Lemma script_may_close inv ops w : close_last ops = true -> keeps_stopped inv -> calms inv -> inerts inv -> sound ∅ w ->
  wp (stream_script kernel inv ops) (fun _ => ends) w.
Proof using fd0_ok.
  intros Hops Hk Hc Hi. revert w. induction ops as [|op ops IH]; intros w H; [apply wp_ret; by left|]. cbn [close_last] in Hops.
  apply andb_true_iff in Hops as [Hop Hops]. cbn [stream_script]. destruct (is_close op) eqn:Ecl.
  - destruct ops; [|done]. destruct op; try done. eapply wp_seq; [by apply close_ok|]. intros u w1 Hw1. apply wp_ret. by right.
  - eapply wp_seq; [apply (op_keeps inv op False); [done|by left|by left; intros []|done]|]. intros a w1 [Hs1 _]. by apply IH.
Qed.

Lemma invoke_may_close depth : may_close (invoke kernel user (S (S depth))).
Proof using fd0_ok user_legal.
  intros e w He H. apply wp_invoke. intros ops len Eu. pose proof (user_legal (evs w) e) as Hl. rewrite Eu in Hl.
  unfold script_ok in Hl. rewrite He in Hl. eapply wp_mono; [apply script_may_close; try done|by intros a w'].
  - apply invoke_keeps_stopped.
  - apply invoke_calms.
  - apply invoke_inerts.
Qed.

Lemma may_close_event e orph w : class_of e = MayClose -> sound orph w -> sound orph (in_event e w).
Proof using Type. intros He. apply sound_event. destruct e; try done. cbn in He. by destruct (_ =? 0)%Z. Qed.

(** A call in the last place. *)
Lemma last_call inv cb e w : may_close inv -> class_of e = MayClose -> sound ∅ w -> wp (call_if inv cb e) (fun _ => ends) w.
Proof using Type.
  intros Hi He H. apply wp_call_if; intros Ecb; [by left|]. apply Hi; [done|]. by apply may_close_event.
Qed.

Definition has_reader (w : world) : Prop := forall s, st w = Some s -> readCb s <> 0%Z \/ readFdCb s <> 0%Z.

Lemma call_may_close inv e w : may_close inv -> class_of e = MayClose -> sound ∅ w -> wp (inv e ≫= fun _ => mret tt) (fun _ => ends) w.
Proof using Type.
  intros Hi He H. eapply wp_seq; [apply Hi; [done|]; by apply may_close_event|]. intros a w1 Hw1. by apply wp_ret.
Qed.

Lemma deliver_ok inv n data fds w : may_close inv -> has_reader w -> sound ∅ w -> wp (deliver inv n data fds) (fun _ => ends) w.
Proof using Type.
  intros Hi Hr H. pose proof H as (s & _ & _ & _ & Es & _). unfold deliver. apply wp_bind. eapply wp_the_stream; [done|].
  destruct (Z.eqb_spec (readFdCb s) 0) as [E|E]; cbn [negb]; [|by apply call_may_close].
  destruct (Z.eqb_spec (readCb s) 0) as [E'|E']; [|by apply call_may_close]. by destruct (Hr s Es).
Qed.

Lemma readCallback_ok inv w : keeps inv -> may_close inv -> sound ∅ w -> wp (streamReadCallback kernel inv) (fun _ => ends) w.
Proof using Type.
  intros Hk Hi H. pose proof H as (s & _ & _ & _ & Es & _). unfold streamReadCallback. apply wp_bind. eapply wp_the_stream; [done|].
  destruct (_ || _ || _) eqn:Ec; [apply wp_ret; by left|]. apply orb_false_iff in Ec as [Ec _]. apply orb_false_iff in Ec as [_ Eal].
  apply Z.eqb_neq in Eal. apply wp_bind. eapply wp_mono; [apply (Hk _ ∅); [done|by apply sound_event]|]. intros len w1 [Hs1 Hk1].
  destruct (Hk1 s Es) as (s1 & Es1 & _ & Hal & _). specialize (Hal Eal).
  assert (Hcb : readCb s1 <> 0%Z \/ readFdCb s1 <> 0%Z) by (destruct (sound_flags _ _ _ Es1 Hs1) as [[] _]; auto).
  apply wp_bind. eapply wp_the_stream; [done|]. destruct (len =? 0).
  - destruct (Z.eqb_spec (readCb s1) 0) as [E|E]; cbn [negb]; [|by apply call_may_close].
    destruct (Z.eqb_spec (readFdCb s1) 0) as [E'|E']; [by destruct Hcb|by apply call_may_close].
  - set (c := if negb _ && _ then SysRecvmsg _ _ else SysRead _ _). apply wp_bind, wp_sys. set (r := kernel _ _).
    set (w2 := w1 <| syslog := (c, r) :: syslog w1 |>). assert (Es2 : st w2 = Some s1) by done.
    assert (Hs2 : sound ∅ w2) by (apply sound_sys; [unfold c; by destruct (_ && _)|done]).
    assert (Hr2 : has_reader w2) by (intros x Ex; by assert (x = s1) as -> by congruence).
    case_if; [by apply deliver_ok|]. case_if; [|case_if; [apply wp_ret; by left|]].
    + apply wp_bind. eapply wp_upd; [done|]. apply deliver_ok; [done| |].
      * intros x [= <-]. exact Hcb.
      * eapply sound_set; [done|done| |done]. destruct (sound_flags _ _ s1 Es2 Hs2) as [[] Hw]. by split.
    + eapply wp_seq; [by apply (setError_ok "read" True ∅)|]. intros u w3 [Hs3 Hk3]. apply deliver_ok; [done| |done].
      destruct (Hk3 s1 Es2) as (s3 & Es3 & _ & Hal3 & _). intros x Ex. assert (x = s3) as -> by congruence.
      destruct (sound_flags _ _ _ Es3 Hs3) as [[] _]. auto.
Qed.

Lemma connectCallback_ok inv w : may_close inv -> sound ∅ w -> wp (streamConnectCallback kernel inv) (fun _ => ends) w.
Proof using fd0_ok.
  intros Hi (s & addrs & rs & done & Es & Hq & Hh & [[] Hw]). unfold streamConnectCallback. apply wp_bind. eapply wp_the_stream; [done|].
  apply wp_bind, wp_sys. set (r := kernel _ _). apply wp_bind. eapply wp_upd; [done|]. destruct (Z.eqb_spec (connect_error r) 0) as [E|E].
  - apply wp_bind. eapply wp_upd; [done|]. apply wp_bind. rewrite fg_fd0. apply wp_unregister; [done|apply fd0_ok|]. intros l' Hl' Hon.
    change (loop _) with (loop w) in Hon.
    eapply wp_seq; [eapply (updateWriteWatcher_ok ∅ _ _ addrs rs done); [done|by apply (wqueue_ext _ _ s)|by apply history_sys|]|].
    + split; cbn; try done. intros Hr. destruct (fg_reading0 Hr) as [Hal Hacc]. split; [done|]. intros Ha. by rewrite Hon, Hacc, andb_false_r.
    + intros u w3 [Hs3 _]. pose proof Hs3 as (s3 & _ & _ & _ & Es3 & _). apply wp_bind. eapply wp_the_stream; [done|]. by apply last_call.
  - apply wp_bind. eapply wp_upd; [done|]. apply wp_bind. rewrite fg_fd0. apply wp_unregister; [done|apply fd0_ok|]. intros l' Hl' Hon.
    change (loop _) with (loop w) in Hon. apply wp_bind. eapply wp_the_stream; [done|]. apply last_call; [done|done|].
    eexists _, addrs, rs, done. split_and!; [done|by apply (wqueue_ext _ _ s)|by apply history_sys|]. split.
    + split; cbn; try done. intros Hr. destruct (fg_reading0 Hr) as [Hal Hacc]. split; [done|]. intros Ha. by rewrite Hon, Hacc, andb_false_r.
    + intros _ Hn. cbn in Hn. by rewrite (proj2 (Z.eqb_neq _ _) E) in Hn.
Qed.

Lemma writeCallback_ok inv rounds w : keeps inv -> calms inv -> may_close inv -> sound ∅ w ->
  wp (streamWriteCallback kernel inv rounds) (fun b w' => ends w' /\ (quiet -> qsize w < rounds -> b = true)) w.
Proof using fd0_ok kernel_writes.
  intros Hk Hc Hi H. pose proof H as (s & _ & _ & _ & Es & _). unfold streamWriteCallback. apply wp_bind. eapply wp_the_stream; [done|].
  case_if; [eapply wp_seq; [by apply connectCallback_ok|]; intros u w1 Hw1; by apply wp_ret|].
  eapply wp_seq; [by apply writeRounds_ok|]. cbv beta. intros p w1 (Hs1 & Hd & Hr). destruct p.
  - apply wp_ret. split; [by left|]. intros Hqu Hlt. by destruct (Hr Hqu Hlt).
  - apply wp_ret. split; [by left|done].
  - apply wp_ret. split; [by left|done].
  - pose proof Hs1 as (s1 & _ & _ & _ & Es1 & _). eapply wp_seq; [eapply finishWrites_ok; [done|done|done|auto]|].
    intros u w2 Hs2. apply wp_ret. split; [by left|done].
Qed.

(** ** Input *)

Lemma call_user_ok : keeps_stopped (call_user kernel user) /\ keeps (call_user kernel user) /\ calms (call_user kernel user) /\
  inerts (call_user kernel user) /\ may_close (call_user kernel user).
Proof using fd0_ok user_legal.
  split_and!; [apply invoke_keeps_stopped|apply invoke_keeps|apply invoke_calms|apply invoke_inerts|apply invoke_may_close].
Qed.

Lemma step_ok i w : sound ∅ w -> wp (stream_step kernel user i) (fun _ => ends) w.
Proof using fd0_ok user_legal kernel_writes.
  intros H. destruct call_user_ok as (Hks & Hk & Hc & Hin & Hm). destruct i as [op| |rounds| |]; cbn [stream_step].
  - destruct (is_close op) eqn:Ec.
    + destruct op; try done. eapply wp_mono; [by apply close_ok|]. intros a w' Hw'. by right.
    + eapply wp_mono; [apply (op_keeps _ op False ∅); [done|by left|by left; intros []|done]|]. intros a w' [Hs' _]. by left.
  - by apply readCallback_ok.
  - eapply wp_seq; [by apply writeCallback_ok|]. cbv beta. intros b w' [He _]. by apply wp_ret.
  - pose proof H as (s & _ & _ & _ & Es & _). unfold streamListenCallback. apply wp_bind. eapply wp_the_stream; [done|]. by apply last_call.
  - by apply connectCallback_ok.
Qed.

End Safety.

(** The requests in memory are those of the queue. *)
Lemma wqueue_memory hp s addrs rs : wqueue ∅ hp s addrs rs -> core <$> (snd <$> map_to_list hp) ≡ₚ rs.
Proof.
  intros [_ Hr Hnd Ho _ _ _ _ _]. revert hp rs Hr Ho. induction addrs as [|a addrs IH]; intros hp rs Hr Ho.
  - apply Forall2_nil_inv_l in Hr as ->. replace hp with (∅ : gmap nat loopyWriteReq); [by rewrite map_to_list_empty|]. apply map_eq. intros a.
    by rewrite Ho by apply not_elem_of_nil.
  - apply Forall2_cons_inv_l in Hr as (r & q & Ha & Hr & ->). apply NoDup_cons in Hnd as [Hna Hnd].
    destruct (hp !! a) as [x|] eqn:Ex; [|done]. injection Ha as <-. rewrite <- (insert_delete_id hp a x Ex).
    rewrite map_to_list_insert by apply lookup_delete_eq. cbn [fmap list_fmap snd]. constructor. apply IH; [done| |].
    + eapply Forall2_frame; [|exact Hr]. intros b Hb. rewrite lookup_delete_ne by (intros ->; done). done.
    + intros b Hb. destruct (decide (b = a)) as [-> |Hne]; [by rewrite lookup_delete_eq|]. rewrite lookup_delete_ne by done.
      apply Ho. by apply not_elem_of_cons.
Qed.

Lemma wqueue_totals hp s addrs rs : wqueue ∅ hp s addrs rs ->
  size hp = writeQueueCount s /\ writeQueueSize s = sum_list_with left_of (snd <$> map_to_list hp).
Proof.
  intros H. pose proof (wqueue_memory _ _ _ _ H) as Hp. split.
  - rewrite (wq_count _ _ _ _ _ H), <- (Permutation_length Hp), !length_fmap. by rewrite length_map_to_list.
  - rewrite (wq_size _ _ _ _ _ H), <- Hp. clear. induction (snd <$> map_to_list hp) as [|r l IH]; [done|].
    cbn [fmap list_fmap sum_list_with]. by rewrite IH.
Qed.

(** ** Connections *)

Section Connections.
Context {L : Type} `{!FdLoop L}.
Variable kernel : list (syscall * sysret) -> syscall -> sysret.
Variable user : list event -> event -> list stream_op * nat.
Variable pton : bool -> string -> bool.

Definition fits (g : Z) : Prop := (0 <= g)%Z /\ fl_fd g.

(** Writing fails or takes part of the bytes, and at least one. *)
Definition kernel_takes : Prop := forall log c n, (exists fd d fds, (c = SysWrite fd d \/ c = SysSendmsg fd d fds) /\ length d = S n) ->
  (ret (kernel log c) < 0)%Z \/ (0 < ret (kernel log c) <= Z.of_nat (S n))%Z.
(** New sockets fit the loop. *)
Definition kernel_sockets : Prop := forall log v6, (ret (kernel log (SysSocket v6)) < 0)%Z \/ fits (ret (kernel log (SysSocket v6))).
Definition legal_user : Prop := forall es e, script_ok e (fst (user es e)) = true.

(** A stream that was just created over [g]. *)
Definition opened (t : loopyStreamType) (g : Z) (c : bool) (err : option string) (l : L) (log : list (syscall * sysret)) : streamWorld L :=
  World (Some ((streamNew t) <| fd := g |> <| connected := c |> <| errorString := err |>)) ∅ l log [] [].

Lemma opened_sound t g c err l log : fl_ok l -> Forall neutral log -> sound g ∅ (opened t g c err l log).
Proof using Type.
  intros Hl Hlog. eexists _, [], [], []. split_and!; [done|by apply wqueue_empty| |].
  - induction Hlog as [|x log Hx _ IH]; [done|]. apply history_sys; [apply Hx|exact IH].
  - induction Hlog as [|x log Hx _ IH]; [|by apply flags_sys]. split; [by split|]. by intros _ _ [|[|]].
Qed.

(** Nothing was asked of the stream yet. *)
Definition untouched (s : loopyStream) : Prop :=
  reading s = false /\ writeHead s = None /\ shutdownPending s = false /\ connecting s = false.

Lemma sound_log (g : Z) orph (w : streamWorld L) xs : Forall neutral xs -> sound g orph w -> sound g orph (w <| syslog := xs ++ syslog w |>).
Proof using Type.
  intros Hx H. induction Hx as [|[c r] xs Hn _ IH]; [by destruct w|]. exact (sound_sys g orph _ c r Hn IH).
Qed.

(** The stream gets another descriptor. *)
Lemma sound_fd (g g' : Z) orph (w : streamWorld L) s : st w = Some s -> untouched s -> sound g orph w -> sound g' orph (w <| st := Some (s <| fd := g' |>) |>).
Proof using Type.
  intros Es (Hr & Hh & Hp & Hc) (s' & addrs & rs & done & Es' & Hq & Hhi & [[] _]). assert (s' = s) as -> by congruence.
  eexists _, addrs, rs, done. split_and!; [done|by apply (wqueue_ext _ _ s)|done|]. split; [by split; try done; cbn; congruence|].
  intros _ _ [Hw|[Hw|Hw]]; [done|cbn in Hw; congruence..].
Qed.

Lemma nonblock_log g (w : streamWorld L) :
  wp (streamSetNonBlock kernel g) (fun _ w' => exists xs, Forall neutral xs /\ w' = w <| syslog := xs ++ syslog w |>) w.
Proof using Type.
  unfold streamSetNonBlock. apply wp_bind, wp_sys. set (r := kernel _ _). case_if.
  - apply wp_ret. exists [(SysGetFlags g, r)]. split; [by repeat constructor|done].
  - apply wp_bind, wp_sys, wp_ret. set (r' := kernel _ _). exists [(SysSetNonblock g (ret r), r'); (SysGetFlags g, r)].
    split; [by repeat constructor|done].
Qed.

Hypothesis Hsockets : kernel_sockets.
Hypothesis Hkernel : kernel_takes.
Hypothesis Huser : legal_user.

(** A connection is made or fails: a stream of the descriptor it has then. *)
Definition connects (ok : bool) (w' : streamWorld L) : Prop := exists g, (ok = true -> fits g) /\ ends g w'.

Lemma connects_failed g field (w : streamWorld L) : sound g ∅ w ->
  wp (streamSetError field ≫= fun _ => mret false) connects w.
Proof using Type.
  intros H. eapply wp_seq; [by apply (setError_ok g field True ∅)|]. intros u w1 [Hs1 _]. apply wp_ret. exists g. split; [done|by left].
Qed.

(** The call itself, once the socket has the right family. *)
Lemma connect_call g v6 port cb d (w : streamWorld L) s : fits g -> sound g ∅ w -> st w = Some s -> untouched s ->
  wp (r ← sys kernel (SysConnect (fd s) v6 port);
      if (ret r <? 0)%Z && negb (errno r =? EINPROGRESS)%Z then streamSetError "connect" ≫= fun _ => mret false
      else if (ret r =? 0)%Z then
        upd (fun s => s <| connected := true |>) ≫= fun _ =>
        call_if (call_user kernel user) cb (EvConnect cb 0 d) ≫= fun _ => mret true
      else
        upd (fun s => s <| connecting := true |> <| connectCb := cb |> <| connectUserData := d |>) ≫= fun _ =>
        register true (fd s) streamConnectCallback_ptr ≫= fun _ => mret true) connects w.
Proof using Huser Hkernel.
  intros Hg H Es Hu. apply wp_bind, wp_sys. set (r := kernel _ _). set (w1 := w <| syslog := _ |>).
  assert (Hs1 : sound g ∅ w1) by by apply sound_sys. assert (Es1 : st w1 = Some s) by done.
  case_if; [by eapply connects_failed|]. destruct (sound_flags _ _ _ _ Es1 Hs1) as [[] Hw]. case_if.
  - apply wp_bind. eapply wp_upd; [done|]. eapply wp_seq with (P := fun _ => ends g).
    + apply last_call; [by apply (call_user_ok kernel user g)|done|]. eapply sound_set; [done|done| |done]. split; [by split|exact Hw].
    + intros u w2 Hw2. apply wp_ret. by exists g.
  - apply wp_bind. eapply wp_upd; [done|]. apply wp_bind. rewrite fg_fd0. apply wp_register; [done|apply Hg|].
    intros l' ok Hl' Hacc Hon. apply wp_ret. exists g. split; [done|]. left. destruct Hs1 as (s' & addrs & rs & done & Es' & Hq & Hh & _).
    assert (s' = s) as -> by congruence. eexists _, addrs, rs, done. split_and!; [done|by apply (wqueue_ext _ _ s)|done|]. split.
    + split; try done. intros Hr. destruct Hu as [Hr' _]. cbn in Hr. congruence.
    + intros Ha _ _. by rewrite Hon, Hacc, Z.eqb_refl.
Qed.

Definition open_family (family : option bool) (w' : streamWorld L) : Prop :=
  exists g s, sound g ∅ w' /\ st w' = Some s /\ untouched s /\ (family <> None -> fits g).

Lemma family_failed g field (w : streamWorld L) s : sound g ∅ w -> st w = Some s -> untouched s ->
  wp (streamSetError field ≫= fun _ => mret None) open_family w.
Proof using Type.
  intros H Es Hu. apply wp_bind. eapply wp_upd; [done|]. apply wp_ret. exists g, (s <| errorString := Some field |>). split_and!; try done.
  destruct (sound_flags _ _ _ _ Es H) as [[] Hw]. eapply sound_set; [done|done| |done]. by split.
Qed.

Lemma connect_ok g addr port cb d (w : streamWorld L) s : fits g -> sound g ∅ w -> st w = Some s -> untouched s ->
  wp (loopyStreamConnect kernel user pton addr port cb d) connects w.
Proof using Huser Hkernel Hsockets.
  intros Hg H Es Hu. unfold loopyStreamConnect. apply wp_bind. eapply wp_the_stream; [done|].
  case_if; [apply wp_ret; exists g; split; [done|by left]|].
  eapply wp_seq with (P := open_family).
  { destruct (pton false addr); [apply wp_ret; by exists g, s|]. destruct (pton true addr); [|by apply (family_failed g _ w s)].
    apply wp_bind, wp_sys. set (w1 := w <| syslog := _ |>). assert (Hs1 : sound g ∅ w1) by by apply sound_sys.
    apply wp_bind, wp_sys. set (w2 := w1 <| syslog := _ |>). assert (Hs2 : sound g ∅ w2) by by apply sound_sys.
    pose proof (Hsockets (syslog w1) true) as Hfit. set (r := kernel (syslog w1) (SysSocket true)) in *.
    assert (Es2 : st w2 = Some s) by done. pose proof (sound_fd g (ret r) ∅ w2 s Es2 Hu Hs2) as Hs3.
    apply wp_bind. eapply wp_upd; [done|]. set (w3 := w2 <| st := _ |>) in *. case_if; [by apply (family_failed (ret r) _ w3 (s <| fd := ret r |>))|].
    destruct Hfit as [|Hfit]; [lia|]. eapply wp_seq; [apply nonblock_log|]. cbv beta. intros ok ? (xs & Hxs & ->).
    pose proof (sound_log (ret r) ∅ w3 xs Hxs Hs3) as Hs4. destruct ok; cbn [negb]; [|by apply (family_failed (ret r) _ _ (s <| fd := ret r |>))].
    apply wp_ret. by exists (ret r), (s <| fd := ret r |>). }
  intros [v6|] w' (g' & s' & Hs' & Es' & Hu' & Hfit).
  - apply wp_bind. eapply wp_the_stream; [done|]. apply (connect_call g'); try done. by apply Hfit.
  - apply wp_ret. exists g'. split; [done|by left].
Qed.

Lemma error_ends g field (w : streamWorld L) : sound g ∅ w -> wp (streamSetError field ≫= fun _ => mret false) (fun _ => sound g ∅) w.
Proof using Type. intros H. eapply wp_seq; [by apply (setError_ok g field True ∅)|]. intros u w1 [Hs1 _]. by apply wp_ret. Qed.

Lemma listen_ok g backlog cb d (w : streamWorld L) : fits g -> sound g ∅ w -> wp (loopyStreamListen kernel backlog cb d) (fun _ => sound g ∅) w.
Proof using Type.
  intros Hg H. pose proof H as (s & addrs & rs & done & Es & Hq & Hh & [[] Hw]). unfold loopyStreamListen.
  apply wp_bind. eapply wp_the_stream; [done|]. case_if; [by apply wp_ret|]. apply wp_bind, wp_sys. set (r := kernel _ _).
  case_if; [by apply error_ends, sound_sys|]. apply wp_bind. eapply wp_upd; [done|]. apply wp_bind. rewrite fg_fd0.
  apply wp_register; [done|apply Hg|]. intros l' ok Hl' Hacc Hon. change (loop _) with (loop w) in Hon. apply wp_ret.
  eexists _, addrs, rs, done. split_and!; [done|by apply (wqueue_ext _ _ s)|by apply history_sys|]. split.
  - split; cbn; try done. intros Hr. destruct (fg_reading0 Hr) as [Hal Hrd]. split; [done|]. intros Ha. by rewrite Hon, Hrd, orb_true_r.
  - apply watched_sys; [done|]. intros Ha Hn Hww. by rewrite Hon, (Hw Ha Hn Hww), orb_true_r.
Qed.

Lemma bind_ok g addr port (w : streamWorld L) : sound g ∅ w -> wp (loopyStreamBind kernel pton addr port) (fun _ => sound g ∅) w.
Proof using Type.
  intros H. pose proof H as (s & _ & _ & _ & Es & _). unfold loopyStreamBind. apply wp_bind. eapply wp_the_stream; [done|].
  case_if; [by apply wp_ret|]. destruct (match addr with None => false | Some a => _ end); [by apply error_ends|].
  apply wp_bind, wp_sys. set (w1 := w <| syslog := _ |>). assert (Hs1 : sound g ∅ w1) by by apply sound_sys.
  apply wp_bind, wp_sys. set (w2 := w1 <| syslog := _ |>). assert (Hs2 : sound g ∅ w2) by by apply sound_sys.
  case_if; [by apply error_ends|by apply wp_ret].
Qed.

Lemma bind6_ok g addr port v6only (w : streamWorld L) s : sound g ∅ w -> st w = Some s -> untouched s ->
  wp (loopyStreamBind6 kernel pton addr port v6only) connects w.
Proof using Hsockets.
  intros H Es Hu. unfold loopyStreamBind6. apply wp_bind. eapply wp_the_stream; [done|].
  case_if; [apply wp_ret; exists g; split; [done|by left]|].
  eapply wp_seq with (P := fun _ w' => sound g ∅ w' /\ st w' = Some s).
  { case_if; [|by apply wp_ret]. apply wp_bind, wp_sys, wp_ret. split; [by apply sound_sys|done]. }
  cbv beta. intros _ w1 [Hs1 Es1]. apply wp_bind, wp_sys. set (w2 := w1 <| syslog := _ |>). assert (Hs2 : sound g ∅ w2) by by apply sound_sys.
  pose proof (Hsockets (syslog w1) true) as Hfit. set (r := kernel (syslog w1) (SysSocket true)) in *.
  assert (Es2 : st w2 = Some s) by done. pose proof (sound_fd g (ret r) ∅ w2 s Es2 Hu Hs2) as Hs3.
  apply wp_bind. eapply wp_upd; [done|]. set (w3 := w2 <| st := _ |>) in *. case_if; [by eapply connects_failed|].
  destruct Hfit as [|Hfit]; [lia|]. eapply wp_seq; [apply nonblock_log|]. cbv beta. intros ok ? (xs & Hxs & ->).
  pose proof (sound_log (ret r) ∅ w3 xs Hxs Hs3) as Hs4. destruct ok; cbn [negb]; [|by eapply connects_failed].
  apply wp_bind, wp_sys. set (w5 := _ <| syslog := (SysSetsockopt _ _, _) :: _ |>). assert (Hs5 : sound (ret r) ∅ w5) by by apply sound_sys.
  eapply wp_seq with (P := fun _ => sound (ret r) ∅).
  { destruct v6only; [|by apply wp_ret]. apply wp_bind, wp_sys, wp_ret. by apply sound_sys. }
  cbv beta. intros _ w6 Hs6. destruct (match addr with None => false | Some a => _ end); [by eapply connects_failed|].
  apply wp_bind, wp_sys. case_if; [by eapply connects_failed, sound_sys|]. apply wp_ret. exists (ret r). split; [done|left; by apply sound_sys].
Qed.

(** ** Theorems

    What a program reaches: it makes a stream over a descriptor, binds, listens
    or connects, calls the stream and handles its events, in any order.  Binding
    to an IPv6 address and connecting replace the socket, so they come before the
    stream is used; when they fail the program gives up. *)
Inductive reached : streamWorld L -> Prop :=
  | reached_new t g c err l log : fits g -> fl_ok l -> Forall neutral log -> reached (opened t g c err l log)
  | reached_step w i w' : reached w -> is_Some (st w) -> stream_step kernel user i w = Some (tt, w') -> reached w'
  | reached_listen w backlog cb d ok w' : reached w -> is_Some (st w) -> loopyStreamListen kernel backlog cb d w = Some (ok, w') -> reached w'
  | reached_bind w addr port ok w' : reached w -> is_Some (st w) -> loopyStreamBind kernel pton addr port w = Some (ok, w') -> reached w'
  | reached_bind6 w s addr port v6only w' : reached w -> st w = Some s -> untouched s ->
      loopyStreamBind6 kernel pton addr port v6only w = Some (true, w') -> reached w'
  | reached_connect w s addr port cb d w' : reached w -> st w = Some s -> untouched s ->
      loopyStreamConnect kernel user pton addr port cb d w = Some (true, w') -> reached w'.

(** Several steps. *)
Fixpoint stream_steps (ins : list stream_input) (w : streamWorld L) : option (streamWorld L) :=
  match ins with
  | [] => Some w
  | i :: ins =>
      match st w, stream_step kernel user i w with
      | Some _, Some (_, w') => stream_steps ins w'
      | _, _ => None
      end
  end.

Lemma steps_reached ins w w' : reached w -> stream_steps ins w = Some w' -> reached w'.
Proof using Type.
  revert w. induction ins as [|i ins IH]; intros w H E; [by injection E as <-|]. cbn in E.
  destruct (st w) eqn:Es; [|done]. destruct (stream_step kernel user i w) as [[[] w1]|] eqn:Ei; [|done].
  apply (IH w1); [|done]. eapply reached_step; [exact H|by eexists|exact Ei].
Qed.

Lemma wp_at {A} (m : prog (streamWorld L) A) Q w a w' : wp m Q w -> m w = Some (a, w') -> Q a w'.
Proof using Type. unfold wp. intros H E. by rewrite E in H. Qed.

Lemma reached_ends w : reached w -> exists g, fits g /\ ends g w.
Proof using Huser Hkernel Hsockets.
  intros H. induction H as [t g c err l log Hg Hl Hlog|w i w' H (g & Hg & He) [s Es] E|w backlog cb d ok w' H (g & Hg & He) [s Es] E
    |w addr port ok w' H (g & Hg & He) [s Es] E|w s addr port v6only w' H (g & Hg & He) Es Hu E|w s addr port cb d w' H (g & Hg & He) Es Hu E];
    try (destruct He as [He|[He _]]; [|congruence]).
  - exists g. split; [done|]. left. by apply opened_sound.
  - exists g. split; [done|]. exact (wp_at _ _ _ _ _ (step_ok kernel user g Hkernel Huser Hg i w He) E).
  - exists g. split; [done|]. left. exact (wp_at _ _ _ _ _ (listen_ok g backlog cb d w Hg He) E).
  - exists g. split; [done|]. left. exact (wp_at _ _ _ _ _ (bind_ok g addr port w He) E).
  - destruct (wp_at _ _ _ _ _ (bind6_ok g addr port v6only w s He Es Hu) E) as (g' & Hg' & He'). eauto.
  - destruct (wp_at _ _ _ _ _ (connect_ok g addr port cb d w s Hg He Es Hu) E) as (g' & Hg' & He'). eauto.
Qed.

Lemma reached_sound w s : reached w -> st w = Some s -> fits (fd s) /\ sound (fd s) ∅ w.
Proof using Huser Hkernel Hsockets.
  intros H Es. destruct (reached_ends w H) as (g & Hg & [He|[He _]]); [|congruence].
  destruct (sound_flags _ _ _ _ Es He) as [[] _]. by rewrite fg_fd0.
Qed.

Lemma wp_some {A} (m : prog (streamWorld L) A) Q w : wp m Q w -> exists a w', m w = Some (a, w').
Proof using Type. intros (a & w' & E & _)%wp_run. eauto. Qed.


(** C10. With users and a kernel as in [stream_safe] - callbacks that report a
    failed write do not write: the code accepts such a write and loses it
    ([stream_write_in_drain_lost]) - what was accepted for writing is sent in order
    and reported exactly once, in every world that is reached: the requests accepted so far are those
    that are finished and then those in the queue; the bytes and the descriptors
    that the kernel took are what these requests say was sent of them, of which
    only the first in the queue is sent in part; the finished ones were called back
    in order, once each, with status 0 exactly if they were sent whole; nothing
    is written after a shutdown.  After the stream was closed none waits. *)
Theorem stream_write_order w : reached w ->
  exists done rs, item <$> (done ++ rs) = rev (accepted w) /\
    sent (syslog w) = concat (sent_of <$> (done ++ rs)) /\ sent_fds (syslog w) = concat (fds_of <$> (done ++ rs)) /\
    omap write_event (rev (evs w)) = omap notice done /\ silent (syslog w) = true /\
    Forall (fun r => rq_written r < rq_len r) rs /\ Forall (fun r => rq_written r = 0) (tail rs) /\
    match st w with
    | Some s => exists addrs, queue rq_next (reqs w) (writeHead s) (writeTail s) addrs /\ Forall2 (fun a r => core <$> reqs w !! a = Some r) addrs rs
    | None => rs = []
    end.
Proof using Huser Hkernel Hsockets.
  intros H. destruct (reached_ends w H) as (g & _ & [(s & addrs & rs & done & -> & Hq & [] & _)|(-> & _ & _ & _ & _ & done & [])]).
  - exists done, rs. destruct Hq. split_and!; try done; [|by exists addrs]. eapply Forall_impl; [done|]. by intros r [].
  - exists done, []. by split_and!.
Qed.


(** C34. The loop that writes the queue out ends: with users as in [stream_safe], a kernel that takes at
    least one byte or refuses, and callbacks of writes and of shutdowns that do
    not write, [writeQueueSize + 1] rounds are enough in any world that is reached. *)
Theorem stream_write_terminates w s rounds : reached w -> st w = Some s -> quiet user -> writeQueueSize s < rounds ->
  exists w', streamWriteCallback kernel (call_user kernel user) rounds w = Some (true, w').
Proof using Huser Hkernel Hsockets.
  intros H Es Hqu Hlt. destruct (reached_sound w s H Es) as [Hg He].
  destruct (call_user_ok kernel user (fd s) Huser Hg) as (_ & Hk & Hc & _ & Hm).
  pose proof (writeCallback_ok kernel user (fd s) Hkernel Hg _ rounds w Hk Hc Hm He) as Hw.
  apply wp_run in Hw as (b & w' & E & _ & Hb). exists w'. rewrite Hb in E; [done|done|]. unfold qsize. by rewrite Es.
Qed.

End Connections.

(** ** Descriptors *)

Definition opens (x : syscall * sysret) (g : Z) : Z :=
  match fst x with
  | SysSocket _ | SysAccept _ => if (0 <=? ret (snd x))%Z && (ret (snd x) =? g)%Z then 1 else 0
  | SysClose h => if (h =? g)%Z then -1 else 0
  | _ => 0
  end.
Definition is_neutral_fd (c : syscall) : bool := match c with SysSocket _ | SysAccept _ | SysClose _ => false | _ => true end.
(** How often [g] was opened less how often it was closed. *)
Fixpoint balance (log : list (syscall * sysret)) (g : Z) : Z :=
  match log with [] => 0 | x :: log => (opens x g + balance log g)%Z end.
Definition owned (s : option loopyStream) (g : Z) : Z :=
  match s with Some s => if (0 <=? fd s)%Z && (fd s =? g)%Z then 1 else 0 | None => 0 end.

Section Descriptors.
Context {L : Type} `{!FdLoop L}.
Variable kernel : list (syscall * sysret) -> syscall -> sysret.

(** The descriptors that are open but not owned by the stream do not change,
    but for those owned by the result [r]. *)
Definition accounted (r : option loopyStream) (w w' : streamWorld L) : Prop :=
  forall g, (balance (syslog w') g - owned (st w') g = balance (syslog w) g - owned (st w) g + owned r g)%Z.

(** The entry of a system call. *)
Lemma wp_sys_counted c (Q : sysret -> streamWorld L -> Prop) w :
  (forall r w', st w' = st w -> (forall g, balance (syslog w') g = (opens (c, r) g + balance (syslog w) g)%Z) -> Q r w') -> wp (sys kernel c) Q w.
Proof using Type. intros HQ. apply wp_sys. by apply HQ. Qed.

Lemma nonblock_accounted h (w : streamWorld L) :
  wp (streamSetNonBlock kernel h) (fun _ w' => st w' = st w /\ forall g, balance (syslog w') g = balance (syslog w) g) w.
Proof using Type.
  unfold streamSetNonBlock. apply wp_bind, wp_sys. case_if; [by apply wp_ret|]. by apply wp_bind, wp_sys, wp_ret.
Qed.

Lemma newTcp_accounted nn ok (w : streamWorld L) : wp (loopyStreamNewTcp kernel nn ok) (fun r w' => accounted r w w') w.
Proof using Type.
  unfold loopyStreamNewTcp. case_if; [apply wp_ret; intros g; cbn; lia|]. apply wp_bind, wp_sys_counted. cbv beta. intros r w1 Es1 Hb1.
  cbn [opens fst snd] in Hb1. destruct (Z.ltb_spec (ret r) 0) as [Er|Er].
  - apply wp_ret. intros g. rewrite Es1, Hb1, (proj2 (Z.leb_gt 0 (ret r))) by lia. cbn. lia.
  - rewrite (proj2 (Z.leb_le 0 (ret r))) in Hb1 by done. eapply wp_seq; [apply nonblock_accounted|]. cbv beta. intros b w2 [Es2 Hb2].
    destruct b; cbn [negb].
    + apply wp_ret. intros g. rewrite Es2, Es1, Hb2, Hb1. unfold owned at 3. cbn -[Z.leb Z.eqb]. rewrite (proj2 (Z.leb_le 0 (ret r))) by done. cbn. lia.
    + apply wp_bind, wp_sys_counted. cbv beta. intros r3 w3 Es3 Hb3. apply wp_ret. intros g. rewrite Es3, Es2, Es1, Hb3, Hb2, Hb1. cbn -[Z.eqb].
      destruct (ret r =? g)%Z; cbn; lia.
Qed.

Lemma fromFd_accounted nn ok h t (w : streamWorld L) : wp (loopyStreamFromFd kernel nn ok h t)
  (fun r w' => st w' = st w /\ (forall g, balance (syslog w') g = balance (syslog w) g) /\ forall s, r = Some s -> fd s = h /\ (0 <= h)%Z) w.
Proof using Type.
  unfold loopyStreamFromFd. case_if; [by apply wp_ret|]. case_if; [by apply wp_ret|]. eapply wp_seq; [apply nonblock_accounted|].
  cbv beta. intros b w1 [Es Hb]. apply wp_ret. split_and!; [done..|]. intros s [= <-]. by destruct b.
Qed.

Lemma accept_accounted ok (w : streamWorld L) s : st w = Some s -> wp (loopyStreamAccept kernel ok) (fun r w' => accounted r w w') w.
Proof using Type.
  intros Es. unfold loopyStreamAccept. apply wp_bind. eapply wp_the_stream; [done|]. case_if; [apply wp_ret; intros g; cbn; lia|].
  apply wp_bind, wp_sys_counted. cbv beta. intros r w1 Es1 Hb1. cbn [opens fst snd] in Hb1. destruct (Z.ltb_spec (ret r) 0) as [Er|Er].
  - rewrite (proj2 (Z.leb_gt 0 (ret r))) in Hb1 by lia. apply wp_bind. case_if.
    + apply wp_ret, wp_ret. intros g. rewrite Es1, Hb1. cbn. lia.
    + eapply wp_upd; [by rewrite Es1|]. apply wp_ret. intros g. change (syslog _) with (syslog w1) at 1. rewrite Hb1, Es. cbn. lia.
  - rewrite (proj2 (Z.leb_le 0 (ret r))) in Hb1 by done. eapply wp_seq; [apply fromFd_accounted|]. cbv beta. intros [c|] w2 (Es2 & Hb2 & Hc).
    + destruct (Hc c eq_refl) as [Ec _]. apply wp_ret. intros g. rewrite Es2, Es1, Hb2, Hb1. unfold owned at 3. rewrite Ec.
      rewrite (proj2 (Z.leb_le 0 (ret r))) by done. cbn. lia.
    + apply wp_bind, wp_sys_counted. cbv beta. intros r3 w3 Es3 Hb3. apply wp_ret. intros g. rewrite Es3, Es2, Es1, Hb3, Hb2, Hb1. cbn -[Z.eqb].
      destruct (ret r =? g)%Z; cbn; lia.
Qed.

Lemma wp_bool_sys c (b : bool) (Q : unit -> streamWorld L -> Prop) w : is_neutral_fd c = true ->
  (forall w', st w' = st w -> (forall g, balance (syslog w') g = balance (syslog w) g) -> Q tt w') ->
  wp (if b then sys kernel c ≫= fun _ => mret tt else mret tt) Q w.
Proof using Type.
  intros Hc HQ. destruct b; [|by apply wp_ret, HQ]. apply wp_bind, wp_sys_counted. cbv beta. intros r w' Es Hb. apply wp_ret, HQ; [done|].
  intros g. rewrite Hb. by destruct c.
Qed.

(** Only the error string changed. *)
Lemma error_accounted field (w0 w : streamWorld L) s : st w = Some s ->
  (forall g, (balance (syslog w) g - owned (Some s) g = balance (syslog w0) g - owned (st w0) g)%Z) ->
  wp (streamSetError field ≫= fun _ => mret false) (fun _ => accounted None w0) w.
Proof using Type.
  intros Es H. apply wp_bind. eapply wp_upd; [done|]. apply wp_ret. intros g. specialize (H g). cbn in H |- *. lia.
Qed.

Lemma bind6_accounted pton addr port v6only (w : streamWorld L) s : st w = Some s ->
  wp (loopyStreamBind6 kernel pton addr port v6only) (fun _ => accounted None w) w.
Proof using Type.
  intros Es. unfold loopyStreamBind6. apply wp_bind. eapply wp_the_stream; [done|]. case_if; [apply wp_ret; intros g; cbn; lia|].
  eapply wp_seq with (P := fun _ w' => st w' = Some s /\ forall g, (balance (syslog w') g = balance (syslog w) g - owned (Some s) g)%Z).
  { destruct (0 <=? fd s)%Z eqn:Ef.
    - apply wp_bind, wp_sys_counted. cbv beta. intros r w1 Es1 Hb1. apply wp_ret. split; [congruence|]. intros g. rewrite Hb1. cbn.
      rewrite Ef. cbn. destruct (fd s =? g)%Z; lia.
    - apply wp_ret. split; [done|]. intros g. cbn. rewrite Ef. cbn. lia. }
  cbv beta. intros _ w1 [Es1 Hb1]. apply wp_bind, wp_sys_counted. cbv beta. intros r w2 Es2 Hb2. rewrite Es1 in Es2.
  apply wp_bind. eapply wp_upd; [done|]. set (s3 := s <| fd := ret r |>). set (w3 := w2 <| st := _ |>).
  assert (Hw3 : forall g, (balance (syslog w3) g - owned (Some s3) g = balance (syslog w) g - owned (st w) g)%Z).
  { intros g. change (syslog w3) with (syslog w2). rewrite Hb2, Hb1, Es. cbn -[Z.leb Z.eqb]. lia. }
  assert (Hfin : forall w' : streamWorld L, st w' = Some s3 -> (forall g, balance (syslog w') g = balance (syslog w3) g) ->
    (forall g, (balance (syslog w') g - owned (Some s3) g = balance (syslog w) g - owned (st w) g)%Z)) by (intros w' _ Hb g; by rewrite Hb, Hw3).
  case_if; [by apply (error_accounted _ w w3 s3)|]. eapply wp_seq; [apply nonblock_accounted|]. cbv beta. intros ok w4 [Es4 Hb4].
  change (st w3) with (Some s3) in Es4. destruct ok; cbn [negb]; [|by apply (error_accounted _ w w4 s3); auto].
  apply wp_bind, wp_sys_counted. cbv beta. intros r5 w5 Es5 Hb5. apply wp_bind, wp_bool_sys; [done|]. intros w6 Es6 Hb6.
  assert (Es6' : st w6 = Some s3) by congruence. assert (Hb6' : forall g, balance (syslog w6) g = balance (syslog w3) g).
  { intros g. rewrite Hb6, Hb5, <- Hb4. cbn. lia. }
  destruct (match addr with None => false | Some a => _ end); [by apply (error_accounted _ w w6 s3); auto|].
  apply wp_bind, wp_sys_counted. cbv beta. intros r7 w7 Es7 Hb7.
  assert (Es7' : st w7 = Some s3) by congruence. assert (Hb7' : forall g, balance (syslog w7) g = balance (syslog w3) g).
  { intros g. rewrite Hb7, <- Hb6'. cbn. lia. }
  case_if; [by apply (error_accounted _ w w7 s3); auto|]. apply wp_ret. intros g. pose proof (Hfin w7 Es7' Hb7' g) as H7. rewrite Es7'. cbn in H7 |- *. lia.
Qed.

(** C35. Making, accepting and binding streams neither leak descriptors nor close
    one twice, also when memory, the kernel or the address fails: what is open
    afterwards and not owned by the stream is what was open and not owned before,
    and what the new stream owns. *)
Theorem stream_fds pton :
  (forall nn ok (w : streamWorld L), exists r w', loopyStreamNewTcp kernel nn ok w = Some (r, w') /\ accounted r w w') /\
  (forall ok (w : streamWorld L) s, st w = Some s -> exists r w', loopyStreamAccept kernel ok w = Some (r, w') /\ accounted r w w') /\
  (forall addr port v6only (w : streamWorld L) s, st w = Some s ->
     exists ok w', loopyStreamBind6 kernel pton addr port v6only w = Some (ok, w') /\ accounted None w w').
Proof using Type.
  split_and!.
  - intros nn ok w. apply wp_run, newTcp_accounted.
  - intros ok w s Es. by eapply wp_run, accept_accounted.
  - intros addr port v6only w s Es. by eapply wp_run, bind6_accounted.
Qed.
End Descriptors.

(** ** Examples *)

Section Examples.

(** The kernel takes two bytes of a write, three once it was read from; writes
    to the descriptor 6 fail; 7 is not connected. *)
Definition demo_kernel (log : list (syscall * sysret)) (c : syscall) : sysret :=
  let ok n := SysRet n 0 [] [] 0 None in
  match c with
  | SysWrite g d | SysSendmsg g d _ => if (g =? 6)%Z then SysRet (-1) 32 [] [] 0 None else ok (Z.min 2 (Z.of_nat (length d)))
  | SysSocket _ => ok 5%Z
  | SysAccept _ => ok 9%Z
  | SysConnect _ _ _ => SysRet (-1) EINPROGRESS [] [] 0 None
  | SysGetSoError g => SysRet 0 0 [] [] (if (g =? 7)%Z then 111 else 0)%Z None
  | SysRead _ _ | SysRecvmsg _ _ => SysRet 2 0 [104; 105]%Z [] 0 None
  | _ => ok 0%Z
  end.

Definition callback_of (e : event) : Z :=
  match e with
  | EvAlloc cb _ _ | EvRead cb _ _ _ | EvReadFd cb _ _ _ _ | EvWrite cb _ _ | EvListen cb _ | EvConnect cb _ _
  | EvShutdown cb _ _ | EvClose cb _ => cb
  end.
(** The scripts of the callbacks; number 20 allocates nothing. *)
Definition demo_user (scripts : Z -> list stream_op) (es : list event) (e : event) : list stream_op * nat :=
  (scripts (callback_of e), if (callback_of e =? 20)%Z then 0 else 64).

(** Number 2 closes the stream. *)
Definition demo_scripts (c : Z) : list stream_op := if (c =? 2)%Z then [OClose 3 0] else [].
(** The user of the examples. *)
Definition good_user (es : list event) (e : event) : list stream_op * nat :=
  match e with EvRead _ _ _ _ => demo_user demo_scripts es e | _ => ([], 64) end.

(** The streams of the examples live in the event loop over [select]. *)
Definition demo_start (g : Z) : streamWorld select_loop := opened LOOPY_STREAM_PIPE g true None select_start [].
Definition demo_steps (user : list event -> event -> list stream_op * nat) (g : Z) (ins : list stream_input) : option (streamWorld select_loop) :=
  stream_steps demo_kernel user ins (demo_start g).

Lemma demo_takes : kernel_takes demo_kernel.
Proof. intros log c n (g & d & fds & [-> | ->] & Hd); cbn -[Z.min]; destruct (g =? 6)%Z; cbn -[Z.min]; lia. Qed.
Lemma demo_fits g : (0 <= g < 1024)%Z -> fits (L := select_loop) g.
Proof. intros Hg. split; [lia|]. by apply select_fits. Qed.
Lemma demo_sockets : kernel_sockets (L := select_loop) demo_kernel.
Proof. intros log v6. right. by apply demo_fits. Qed.
Lemma good_user_legal : legal_user good_user.
Proof.
  intros es e. unfold script_ok. destruct e; try done; cbn; [|by destruct (_ =? 0)%Z].
  unfold demo_scripts. by destruct (cb =? 2)%Z.
Qed.

(** A write of three bytes, of which two are sent, while the stream reads. *)
Definition demo_ins : list stream_input := [ICall (OWrite [1; 2; 3]%Z 1 11 true true); ICall (OReadStart 4 2 0); IWritable 1].

Lemma demo_run_reached ins w : demo_steps good_user 5 ins = Some w -> reached demo_kernel good_user (fun _ _ => false) w.
Proof.
  intros E. apply (steps_reached _ _ _ ins (demo_start 5)); [|exact E]. apply reached_new; [by apply demo_fits|exact select_loop_ok|constructor].
Qed.

(** What a run ends in, as far as it can be computed. *)
Definition watching (l : select_loop) : list (Z * bool) :=
  flat_map (fun g => (if fl_on l g true then [(g, true)] else []) ++ (if fl_on l g false then [(g, false)] else [])) (seqZ 0 10).
Definition outcome (w : streamWorld select_loop) : option (nat * nat * bool) * nat * list (Z * bool) :=
  ((fun s => (writeQueueCount s, writeQueueSize s, shutdownPending s)) <$> st w, size (reqs w), watching (loop w)).

Lemma demo_outcome ins o : outcome <$> demo_steps good_user 5 ins = Some o ->
  exists w : streamWorld select_loop, reached demo_kernel good_user (fun _ _ => false) w /\ outcome w = o.
Proof. destruct (demo_steps good_user 5 ins) as [w|] eqn:E; [|done]. intros [= <-]. exists w. split; [by eapply demo_run_reached|done]. Qed.


Lemma stream_write_order_witness : exists (w : streamWorld select_loop) done rs, reached demo_kernel good_user (fun _ _ => false) w /\
  item <$> (done ++ rs) = rev (accepted w) /\ sent (syslog w) = concat (sent_of <$> (done ++ rs)).
Proof.
  destruct (demo_outcome demo_ins (Some (1, 1, false), 1, [(5, true); (5, false)]%Z) ltac:(by vm_compute)) as (w & Hr & Ho).
  destruct (stream_write_order _ _ _ demo_sockets demo_takes good_user_legal w Hr) as (done & rs & Ha & Hs & _). by exists w, done, rs.
Defined.


Lemma stream_write_terminates_witness : exists (w w' : streamWorld select_loop), reached demo_kernel good_user (fun _ _ => false) w /\
  streamWriteCallback demo_kernel (call_user demo_kernel good_user) 2 w = Some (true, w').
Proof.
  destruct (demo_outcome demo_ins (Some (1, 1, false), 1, [(5, true); (5, false)]%Z) ltac:(by vm_compute)) as (w & Hr & Ho).
  destruct (st w) as [s|] eqn:Es; unfold outcome in Ho; rewrite Es in Ho; [|done]. injection Ho as Ec Ez _ _ _.
  assert (Hqu : quiet good_user) by (intros es e He; by destruct e). assert (Hlt : writeQueueSize s < 2) by lia.
  destruct (stream_write_terminates _ _ _ demo_sockets demo_takes good_user_legal w s 2 Hr Es Hqu Hlt) as [w' E]. by exists w, w'.
Defined.

Lemma stream_fds_witness : exists r (w' : streamWorld select_loop), loopyStreamAccept demo_kernel true (demo_start 5) = Some (r, w') /\ accounted r (demo_start 5) w'.
Proof. exact (proj1 (proj2 (stream_fds demo_kernel (fun _ _ => false))) true (demo_start 5) _ eq_refl). Defined.

(** *** What users must not do

    The callback number 1 makes the calls [ops]. *)
Definition bad_user (ops : list stream_op) : list event -> event -> list stream_op * nat :=
  demo_user (fun c => if (c =? 1)%Z then ops else []).
Definition one_write : list stream_input := [ICall (OWrite [1; 2]%Z 1 0 true true)].

(** Closing the stream in the callback of a write that is done: the loop goes on
    with the freed stream. *)
Lemma stream_close_in_callback_unsafe :
  outcome <$> demo_steps (bad_user [OClose 0 0]) 5 one_write = Some (Some (1, 2, false), 1, [(5, true)]%Z) /\
  demo_steps (bad_user [OClose 0 0]) 5 (one_write ++ [IWritable 2]) = None.
Proof. by vm_compute. Qed.

(** Closing it in the callback of a write that failed: the queue is drained twice. *)
Lemma stream_close_in_drain_unsafe : demo_steps (bad_user [OClose 0 0]) 6 (one_write ++ [IWritable 1]) = None.
Proof. by vm_compute. Qed.

(** A write in the callback of a write that failed is accepted, and lost: it is
    in no queue and is not reported. *)
Lemma stream_write_in_drain_lost :
  (fun w => (outcome w, length (accepted w), omap write_event (evs w))) <$>
    demo_steps (bad_user [OWrite [7; 8]%Z 9 0 true true]) 6 (one_write ++ [IWritable 1]) =
  Some (Some (0, 0, false), 1, [], 2, [(1, -1, 0)]%Z).
Proof. by vm_compute. Qed.

(** Starting to read in a callback of the drain of a close leaves the loop with a
    callback for the freed stream. *)
Lemma stream_read_in_close_dangles :
  outcome <$> demo_steps (bad_user [OReadStart 4 5 0]) 5 (one_write ++ [ICall (OClose 0 0)]) = Some (None, 0, [(5, false)]%Z).
Proof. by vm_compute. Qed.

(** *** What the documentation says and the code does not do *)

(** After a reader of descriptors was stopped, a new reader is not called: the
    old one is. *)
Lemma stream_stale_reader :
  (fun w => head (evs w)) <$> demo_steps (bad_user []) 5
    [ICall (OReadStartFd 4 8 0); ICall OReadStop; ICall (OReadStart 4 5 0); IReadable] =
  Some (Some (EvReadFd 8 2 [104; 105]%Z [] 0)).
Proof. by vm_compute. Qed.

(** An allocation callback that gives no buffer does not stop the reading. *)
Lemma stream_no_buffer_reads_on :
  (fun w => (head (evs w), reading <$> st w, watching (loop w))) <$> demo_steps (bad_user []) 5 [ICall (OReadStart 20 5 0); IReadable] =
  Some (Some (EvRead 5 (-1) [] 0), Some true, [(5, false)]%Z).
Proof. by vm_compute. Qed.

(** A registration that the loop refuses is not noticed: reading is started, and
    writing is accepted, with a loop that watches nothing. *)
Lemma stream_refused_unwatched :
  (fun w => (reading <$> st w, writeQueueCount <$> st w, fl_on (loop w) 5%Z false, fl_on (loop w) 5%Z true)) <$>
    stream_steps demo_kernel (bad_user []) [ICall (OReadStart 4 5 0); ICall (OWrite [1; 2; 3]%Z 1 11 true true)]
      (opened LOOPY_STREAM_PIPE 5 true None full_start []) =
  Some (Some true, Some 1, false, false).
Proof. by vm_compute. Qed.

(** A stream that reads can be started again. *)
Lemma stream_read_start_again : forall (w : streamWorld watch_set) s alloc read d, st w = Some s -> reading s = true ->
  (0 <= fd s)%Z -> readable s = true -> alloc <> 0%Z -> read <> 0%Z -> exists w', loopyStreamReadStart alloc read d w = Some (true, w').
Proof.
  intros w s alloc read d Es _ Hfd Hr Ha Hrd. assert (Hw : wp (loopyStreamReadStart alloc read d) (fun b _ => b = true) w).
  { unfold loopyStreamReadStart. rewrite (proj2 (Z.eqb_neq _ _) Ha), (proj2 (Z.eqb_neq _ _) Hrd). cbn [orb].
    apply wp_bind. eapply wp_the_stream; [done|]. rewrite (proj2 (Z.ltb_ge _ _) Hfd), Hr. cbn [orb negb].
    apply wp_bind. eapply wp_upd; [done|]. by apply wp_bind, wp_bind, wp_get. }
  apply wp_run in Hw as (b & w' & E & ->). by exists w'.
Qed.

(** Two calls of [loopyStreamShutdown], the second in the callback of the last
    write: its callback is called twice. *)
Lemma stream_shutdown_twice :
  (fun w => take 2 (evs w)) <$> demo_steps (bad_user [OShutdown 8 0]) 5 (one_write ++ [ICall (OShutdown 7 0); IWritable 2]) =
  Some [EvShutdown 8 0 0; EvShutdown 8 0 0].
Proof. by vm_compute. Qed.

(** A write that was accepted while a connection was being made that then
    fails stays in the queue, and the loop is not asked to watch. *)
Lemma stream_failed_connect_stalls :
  match loopyStreamConnect demo_kernel (bad_user []) (fun v6 _ => negb v6) "10.0.0.1" 80 0 0 (opened LOOPY_STREAM_TCP 7 false None select_start []) with
  | Some (true, w) => outcome <$> stream_steps demo_kernel (bad_user []) (one_write ++ [IConnected]) w
  | _ => None
  end = Some (Some (1, 2, false), 1, []).
Proof. by vm_compute. Qed.
End Examples.
