(* ===== verification/FSPoll.v ===== *)
(** * File polling ([src/loopyFSPoll.c])

    A handle that watches files by calling [stat] from a timer.  Its entries are
    a singly linked list in a heap, newest first; the timer is one of the loop of
    [EventLoop.v] over the class [FiringWheel] and runs exactly while there are
    entries.  The specification ([pollSpec]) is a list of monitors, each with the
    last known state of its file; [fspoll_refines] says that every call and every
    run of the timer does what the specification allows, for any user callbacks
    that do not remove the entry they are called for.  [detect_spec] is what a
    change is, [fspoll_well_formed] the invariant of the structures,
    [fspoll_period] the bounds of the timer's interval; the lemmas at the end are
    the cases in which the code goes wrong. *)

From S2P Require Import Prelude MaxHeap EventLoop Timer Chain.

Local Open Scope nat_scope.

(** ** The wheel's intervals

    The class adds to [FiringWheel] when a registration fires: first after [start], then every
    [repeat] microseconds. *)
Class PeriodWheel (T : Type) `{!TimerWheel T} `{!FiringWheel T} := {
  tw_period : T -> Z -> option (Z * Z);
  pw_register start repeat cb data t id :
    tw_period (fst (tw_register start repeat cb data t)) id =
      (if bool_decide (id <> 0%Z /\ id = snd (tw_register start repeat cb data t)) then Some (start, repeat) else tw_period t id);
  pw_unregister id t x : x <> id -> tw_period (fst (tw_unregister id t)) x = tw_period t x;
  pw_returned id b t x : x <> id \/ b = true -> tw_period (tw_returned id b t) x = tw_period t x
}.

(** ** Data *)

(** [struct stat]: the fields the code compares, and three of those it does not. *)
Record stat := Stat {
  st_mtime : Z; st_size : Z; st_mode : Z; st_uid : Z; st_gid : Z;
  st_mtim_nsec : Z; st_ino : Z; st_nlink : Z
}.

(** What [zcalloc] leaves in a [struct stat]. *)
Definition zero_stat : stat := Stat 0 0 0 0 0 0 0 0.

Definition S_IFMT : Z := 61440. (* 0170000 *)
Definition PERMS : Z := 4095. (* 07777 *)

Definition LOOPY_FSPOLL_NONE : Z := 0.
Definition LOOPY_FSPOLL_MODIFIED : Z := 1.
Definition LOOPY_FSPOLL_SIZE : Z := 2.
Definition LOOPY_FSPOLL_DELETED : Z := 4.
Definition LOOPY_FSPOLL_CREATED : Z := 8.
Definition LOOPY_FSPOLL_PERMISSIONS : Z := 16.
Definition LOOPY_FSPOLL_OWNER : Z := 32.
Definition LOOPY_FSPOLL_TYPE : Z := 64.
Definition LOOPY_FSPOLL_ALL : Z := 127.

(** Callbacks and user data are numbers, 0 is [NULL]; addresses of entries are
    natural numbers.  [path] is the entry's own copy and is freed with it. *)
Record loopyFSPollEntry := Entry {
  e_id : Z;
  e_path : string;
  e_events : Z;
  e_cb : Z;
  e_userData : Z;
  e_prevStat : stat;
  e_exists : bool;
  e_followSymlinks : bool;
  e_next : option nat
}.

#[export] Instance Entry_rebuild : Rebuild loopyFSPollEntry := fun e =>
  Entry (e_id e) (e_path e) (e_events e) (e_cb e) (e_userData e) (e_prevStat e) (e_exists e) (e_followSymlinks e) (e_next e).

(** The field [loop] is left out, it is that of the world. *)
Record loopyFSPoll := FSPoll {
  p_userData : Z;
  p_entries : option nat;
  p_nextId : Z;
  p_intervalMs : Z;
  p_timerId : Z;
  p_followSymlinks : bool
}.

#[export] Instance FSPoll_rebuild : Rebuild loopyFSPoll := fun p =>
  FSPoll (p_userData p) (p_entries p) (p_nextId p) (p_intervalMs p) (p_timerId p) (p_followSymlinks p).

Record loopyFSPollConfig := Config { c_intervalMs : Z; c_followSymlinks : bool }.

Definition LOOPY_FSPOLL_CONFIG_DEFAULT : loopyFSPollConfig := Config 1000 true.
Definition loopyFSPollConfigInit (config : option loopyFSPollConfig) : option loopyFSPollConfig :=
  (fun _ => LOOPY_FSPOLL_CONFIG_DEFAULT) <$> config.

(** What a callback is shown, and which one it is. *)
Record loopyFSPollInfo := Info {
  i_cb : Z;
  i_pollId : Z;
  i_events : Z;
  i_path : string;
  i_prevStat : option stat;
  i_currStat : option stat;
  i_userData : Z
}.

(** ** Changes *)

Definition bit (b : bool) (m : Z) : Z := if b then m else LOOPY_FSPOLL_NONE.

(** The result is built up by [|=]; [newStat] is only read when [newExists]. *)
Definition detectChanges (entry : loopyFSPollEntry) (newStat : stat) (newExists : bool) : Z :=
  if e_exists entry && negb newExists then LOOPY_FSPOLL_DELETED
  else
    let events := bit (negb (e_exists entry) && newExists) LOOPY_FSPOLL_CREATED in
    if negb (e_exists entry) || negb newExists then events
    else
      let oldStat := e_prevStat entry in
      let events := Z.lor events (bit (negb (st_mtime oldStat =? st_mtime newStat)%Z) LOOPY_FSPOLL_MODIFIED) in
      let events := Z.lor events (bit (negb (st_size oldStat =? st_size newStat)%Z) LOOPY_FSPOLL_SIZE) in
      let events := Z.lor events (bit (negb (Z.land (st_mode oldStat) PERMS =? Z.land (st_mode newStat) PERMS)%Z) LOOPY_FSPOLL_PERMISSIONS) in
      let events := Z.lor events (bit (negb (st_uid oldStat =? st_uid newStat)%Z || negb (st_gid oldStat =? st_gid newStat)%Z) LOOPY_FSPOLL_OWNER) in
      Z.lor events (bit (negb (Z.land (st_mode oldStat) S_IFMT =? Z.land (st_mode newStat) S_IFMT)%Z) LOOPY_FSPOLL_TYPE).

Definition loopyFSPollEventName (event : Z) : string :=
  if (event =? LOOPY_FSPOLL_NONE)%Z then "none"
  else if (event =? LOOPY_FSPOLL_MODIFIED)%Z then "modified"
  else if (event =? LOOPY_FSPOLL_SIZE)%Z then "size"
  else if (event =? LOOPY_FSPOLL_DELETED)%Z then "deleted"
  else if (event =? LOOPY_FSPOLL_CREATED)%Z then "created"
  else if (event =? LOOPY_FSPOLL_PERMISSIONS)%Z then "permissions"
  else if (event =? LOOPY_FSPOLL_OWNER)%Z then "owner"
  else if (event =? LOOPY_FSPOLL_TYPE)%Z then "type"
  else if (event =? LOOPY_FSPOLL_ALL)%Z then "all"
  else "unknown".

(** What users may do from a callback; [PFiles] changes what [stat] ([true]) and [lstat]
    will answer. *)
Inductive poll_op :=
  | PStart (mallocOk : bool * bool) (path : string) (events cb data : Z)
  | PStop (pollId : Z)
  | PStopAll
  | PFree
  | PSetInterval (intervalMs : Z)
  | PSetData (data : Z)
  | PFiles (files : string -> bool -> option stat).

Section FSPoll.
Context {K : Type} {T : Type} `{!TimerWheel T}.
(** A local [struct stat] before it is filled, and the users' callbacks: what
    each does, from all calls so far, its own first. *)
Variable uninitialised : stat.
Variable user : list loopyFSPollInfo -> list poll_op.

(** One handle; addresses of entries are not used again, so that an access to a
    freed entry is undefined. *)
Record pollWorld := PollWorld {
  loop : loopyLoop K T;
  files : string -> bool -> option stat;
  poller : option loopyFSPoll;
  heap : gmap nat loopyFSPollEntry;
  nextAddress : nat;
  calls : list loopyFSPollInfo (* newest first *)
}.

#[export] Instance PollWorld_rebuild : Rebuild pollWorld := fun w =>
  PollWorld (loop w) (files w) (poller w) (heap w) (nextAddress w) (calls w).

Definition the_fsp : prog pollWorld loopyFSPoll :=
  w ← get; match poller w with Some p => mret p | None => undefined end.
Definition set_fsp (g : loopyFSPoll -> loopyFSPoll) : prog pollWorld unit :=
  p ← the_fsp; modify (fun w => w <| poller := Some (g p) |>).
Definition the_entry (a : nat) : prog pollWorld loopyFSPollEntry :=
  w ← get; match heap w !! a with Some e => mret e | None => undefined end.
Definition set_entry (a : nat) (g : loopyFSPollEntry -> loopyFSPollEntry) : prog pollWorld unit :=
  e ← the_entry a; modify (fun w => w <| heap ::= <[a := g e]> |>).
Definition free_entry (a : nat) : prog pollWorld unit :=
  e ← the_entry a; modify (fun w => w <| heap ::= delete a |>).

(** ** Helpers *)

(** The addresses of [pollTimerCallback] and of the handle. *)
Definition pollTimerCallback_ptr : Z := -4.
Definition fsp_ptr : Z := 1.

Definition registerTimer : prog pollWorld Z :=
  p ← the_fsp;
  w ← get;
  let '(l, id) := loopyRegisterTimer (p_intervalMs p *64 1000) (p_intervalMs p *64 1000) pollTimerCallback_ptr fsp_ptr (loop w) in
  modify (fun w => w <| loop := l |>) ≫= fun _ => mret id.

Definition unregisterTimer (id : Z) : prog pollWorld unit :=
  w ← get;
  match loopyUnregisterTimer id (loop w) with
  | None => undefined
  | Some (l, _) => modify (fun w => w <| loop := l |>)
  end.

Fixpoint findFrom (fuel : nat) (e : option nat) (pollId : Z) : prog pollWorld (option nat) :=
  match fuel with
  | 0 => undefined
  | S fuel =>
      match e with
      | None => mret None
      | Some a => x ← the_entry a; if (e_id x =? pollId)%Z then mret (Some a) else findFrom fuel (e_next x) pollId
      end
  end.

Definition findEntry (pollId : Z) : prog pollWorld (option nat) :=
  p ← the_fsp; w ← get; findFrom (S (size (heap w))) (p_entries p) pollId.

Definition doStat (path : string) (followSymlinks : bool) : prog pollWorld (option stat) :=
  w ← get; mret (files w path followSymlinks).

(** ** Lifecycle *)

(** [nn]: the loop is not [NULL].  The world has no handle yet. *)
Definition loopyFSPollNew (nn mallocOk : bool) (config : option loopyFSPollConfig) : prog pollWorld bool :=
  if negb nn then mret false
  else if negb mallocOk then mret false
  else
    let '(intervalMs, followSymlinks) :=
      match config with Some c => (c_intervalMs c, c_followSymlinks c) | None => (1000%Z, true) end in
    let intervalMs := if (intervalMs <? 10)%Z then 10%Z else intervalMs in
    modify (fun w => w <| poller := Some (FSPoll 0 None 1 intervalMs 0 followSymlinks) |>) ≫= fun _ => mret true.

Fixpoint freeEntries (fuel : nat) (e : option nat) : prog pollWorld unit :=
  match fuel with
  | 0 => undefined
  | S fuel =>
      match e with
      | None => mret tt
      | Some a => x ← the_entry a; free_entry a ≫= fun _ => freeEntries fuel (e_next x)
      end
  end.

Definition loopyFSPollFree (fsp : bool) : prog pollWorld unit :=
  if negb fsp then mret tt
  else
    p ← the_fsp;
    pwhen (negb (p_timerId p =? 0)%Z) (unregisterTimer (p_timerId p)) ≫= fun _ =>
    w ← get;
    freeEntries (S (size (heap w))) (p_entries p) ≫= fun _ =>
    modify (fun w => w <| poller := None |>).

(** True stands for the loop. *)
Definition loopyFSPollGetLoop (fsp : bool) : prog pollWorld bool :=
  if fsp then p ← the_fsp; mret true else mret false.
Definition loopyFSPollGetData (fsp : bool) : prog pollWorld Z :=
  if fsp then p ← the_fsp; mret (p_userData p) else mret 0%Z.
Definition loopyFSPollSetData (fsp : bool) (data : Z) : prog pollWorld unit :=
  pwhen fsp (set_fsp (fun p => p <| p_userData := data |>)).

(** ** Monitoring *)

(** [path] is [None] for [NULL]; [mallocOk]: the entry, the copy of the path. *)
Definition loopyFSPollStart (fsp : bool) (mallocOk : bool * bool) (path : option string) (events cb data : Z) : prog pollWorld Z :=
  match path with
  | None => mret 0%Z
  | Some path =>
    if negb fsp || (cb =? 0)%Z || (events =? LOOPY_FSPOLL_NONE)%Z then mret 0%Z
    else if negb (fst mallocOk) then mret 0%Z
    else if negb (snd mallocOk) then mret 0%Z
    else
      w ← get;
      let e := nextAddress w in
      p ← the_fsp;
      set_fsp (fun p => p <| p_nextId := p_nextId p +64 1 |>) ≫= fun _ =>
      st ← doStat path (p_followSymlinks p);
      modify (fun w => w <| nextAddress := S e |> <| heap ::= <[e :=
        Entry (p_nextId p) path events cb data (default zero_stat st) (bool_decide (is_Some st)) (p_followSymlinks p) (p_entries p)]> |>) ≫= fun _ =>
      set_fsp (fun p => p <| p_entries := Some e |>) ≫= fun _ =>
      if (p_timerId p =? 0)%Z then
        registerTimer ≫= fun id =>
        set_fsp (fun p => p <| p_timerId := id |>) ≫= fun _ =>
        if (id =? 0)%Z then
          x ← the_entry e;
          set_fsp (fun p => p <| p_entries := e_next x |>) ≫= fun _ =>
          free_entry e ≫= fun _ => mret 0%Z
        else mret (p_nextId p)
      else mret (p_nextId p)
  end.

(** The link [*pp]: the field [entries] ([None]) or [next] of an entry. *)
Definition readLink (pp : option nat) : prog pollWorld (option nat) :=
  match pp with None => p ← the_fsp; mret (p_entries p) | Some a => x ← the_entry a; mret (e_next x) end.
Definition writeLink (pp : option nat) (v : option nat) : prog pollWorld unit :=
  match pp with
  | None => set_fsp (fun p => p <| p_entries := v |>)
  | Some a => set_entry a (fun x => x <| e_next := v |>)
  end.

Definition stopTimerIfEmpty : prog pollWorld unit :=
  p ← the_fsp;
  pwhen (bool_decide (p_entries p = None) && negb (p_timerId p =? 0)%Z)
    (unregisterTimer (p_timerId p) ≫= fun _ => set_fsp (fun p => p <| p_timerId := 0%Z |>)).

Fixpoint stopFrom (fuel : nat) (pp : option nat) (pollId : Z) : prog pollWorld bool :=
  match fuel with
  | 0 => undefined
  | S fuel =>
      readLink pp ≫= fun e =>
      match e with
      | None => mret false
      | Some a =>
          x ← the_entry a;
          if (e_id x =? pollId)%Z then
            writeLink pp (e_next x) ≫= fun _ =>
            free_entry a ≫= fun _ =>
            stopTimerIfEmpty ≫= fun _ => mret true
          else stopFrom fuel (Some a) pollId
      end
  end.

Definition loopyFSPollStop (fsp : bool) (pollId : Z) : prog pollWorld bool :=
  if negb fsp || (pollId =? 0)%Z then mret false
  else w ← get; stopFrom (S (size (heap w))) None pollId.

Definition loopyFSPollStopAll (fsp : bool) : prog pollWorld unit :=
  if negb fsp then mret tt
  else
    p ← the_fsp;
    pwhen (negb (p_timerId p =? 0)%Z)
      (unregisterTimer (p_timerId p) ≫= fun _ => set_fsp (fun p => p <| p_timerId := 0%Z |>)) ≫= fun _ =>
    w ← get;
    freeEntries (S (size (heap w))) (p_entries p) ≫= fun _ =>
    set_fsp (fun p => p <| p_entries := None |>).

Definition loopyFSPollSetInterval (fsp : bool) (intervalMs : Z) : prog pollWorld unit :=
  if negb fsp then mret tt
  else
    let intervalMs := if (intervalMs <? 10)%Z then 10%Z else intervalMs in
    set_fsp (fun p => p <| p_intervalMs := intervalMs |>) ≫= fun _ =>
    p ← the_fsp;
    pwhen (negb (p_timerId p =? 0)%Z)
      (unregisterTimer (p_timerId p) ≫= fun _ => registerTimer ≫= fun id => set_fsp (fun p => p <| p_timerId := id |>)).

Definition loopyFSPollGetInterval (fsp : bool) : prog pollWorld Z :=
  if fsp then p ← the_fsp; mret (p_intervalMs p) else mret 0%Z.

(** ** Status *)

Fixpoint countFrom (fuel : nat) (e : option nat) (count : nat) : prog pollWorld nat :=
  match fuel with
  | 0 => undefined
  | S fuel => match e with None => mret count | Some a => x ← the_entry a; countFrom fuel (e_next x) (S count) end
  end.

Definition loopyFSPollCount (fsp : bool) : prog pollWorld nat :=
  if negb fsp then mret 0 else p ← the_fsp; w ← get; countFrom (S (size (heap w))) (p_entries p) 0.

(** [st]: the pointer is not [NULL]; the result is what is copied there. *)
Definition loopyFSPollGetStat (fsp : bool) (pollId : Z) (st : bool) : prog pollWorld (option stat) :=
  if negb fsp || negb st || (pollId =? 0)%Z then mret None
  else
    findEntry pollId ≫= fun e =>
    match e with
    | None => mret None
    | Some a => x ← the_entry a; if negb (e_exists x) then mret None else mret (Some (e_prevStat x))
    end.

Definition loopyFSPollGetPath (fsp : bool) (pollId : Z) : prog pollWorld (option string) :=
  if negb fsp || (pollId =? 0)%Z then mret None
  else
    findEntry pollId ≫= fun e =>
    match e with None => mret None | Some a => x ← the_entry a; mret (Some (e_path x)) end.

(** ** The timer *)

Definition run_op (op : poll_op) : prog pollWorld unit :=
  match op with
  | PStart m path events cb data => loopyFSPollStart true m (Some path) events cb data ≫= fun _ => mret tt
  | PStop pollId => loopyFSPollStop true pollId ≫= fun _ => mret tt
  | PStopAll => loopyFSPollStopAll true
  | PFree => loopyFSPollFree true
  | PSetInterval ms => loopyFSPollSetInterval true ms
  | PSetData d => loopyFSPollSetData true d
  | PFiles fs => modify (fun w => w <| files := fs |>)
  end.

Fixpoint run_ops (ops : list poll_op) : prog pollWorld unit :=
  match ops with [] => mret tt | op :: ops => run_op op ≫= fun _ => run_ops ops end.

(** [e->cb(fsp, &info)] *)
Definition callback (info : loopyFSPollInfo) : prog pollWorld unit :=
  modify (fun w => w <| calls ::= cons info |>) ≫= fun _ => w ← get; run_ops (user (calls w)).

Definition pollEntry (a : nat) : prog pollWorld unit :=
  e ← the_entry a;
  st ← doStat (e_path e) (e_followSymlinks e);
  let newStat := default uninitialised st in
  let newExists := bool_decide (is_Some st) in
  let detected := detectChanges e newStat newExists in
  let relevant := Z.land detected (e_events e) in
  pwhen (negb (relevant =? LOOPY_FSPOLL_NONE)%Z && negb (e_cb e =? 0)%Z)
    (callback (Info (e_cb e) (e_id e) relevant (e_path e) (if e_exists e then Some (e_prevStat e) else None)
                 (if newExists then Some newStat else None) (e_userData e))) ≫= fun _ =>
  pwhen newExists (set_entry a (fun e => e <| e_prevStat := newStat |>)) ≫= fun _ =>
  set_entry a (fun e => e <| e_exists := newExists |>).

Fixpoint pollFrom (fuel : nat) (e : option nat) : prog pollWorld unit :=
  match fuel with
  | 0 => undefined
  | S fuel =>
      match e with
      | None => mret tt
      | Some a => pollEntry a ≫= fun _ => x ← the_entry a; pollFrom fuel (e_next x)
      end
  end.

Definition pollTimerCallback : prog pollWorld bool :=
  p ← the_fsp; w ← get; pollFrom (S (size (heap w))) (p_entries p) ≫= fun _ => mret true.
End FSPoll.

(** ** Specification *)

(** What was observed of a file: its state, or that there is none. *)
Definition observation := option stat.

Definition differences (o n : stat) : list (bool * Z) :=
  [(bool_decide (st_mtime o <> st_mtime n), LOOPY_FSPOLL_MODIFIED);
   (bool_decide (st_size o <> st_size n), LOOPY_FSPOLL_SIZE);
   (bool_decide (Z.land (st_mode o) PERMS <> Z.land (st_mode n) PERMS), LOOPY_FSPOLL_PERMISSIONS);
   (bool_decide (st_uid o <> st_uid n \/ st_gid o <> st_gid n), LOOPY_FSPOLL_OWNER);
   (bool_decide (Z.land (st_mode o) S_IFMT <> Z.land (st_mode n) S_IFMT), LOOPY_FSPOLL_TYPE)].

(** The masks are distinct bits, so their sum is the set of the changes. *)
Definition changes (last now : observation) : Z :=
  match last, now with
  | None, None => LOOPY_FSPOLL_NONE
  | None, Some _ => LOOPY_FSPOLL_CREATED
  | Some _, None => LOOPY_FSPOLL_DELETED
  | Some o, Some n => foldr (fun '(b, m) z => bit b m + z)%Z 0%Z (differences o n)
  end.

(** A monitored file; [m_last] is what was observed last. *)
Record monitor := Monitor {
  m_id : Z; m_path : string; m_events : Z; m_cb : Z; m_userData : Z; m_follow : bool; m_last : observation
}.

#[export] Instance Monitor_rebuild : Rebuild monitor := fun m =>
  Monitor (m_id m) (m_path m) (m_events m) (m_cb m) (m_userData m) (m_follow m) (m_last m).

Definition observed (e : loopyFSPollEntry) : observation := if e_exists e then Some (e_prevStat e) else None.
Definition of_entry (e : loopyFSPollEntry) : monitor :=
  Monitor (e_id e) (e_path e) (e_events e) (e_cb e) (e_userData e) (e_followSymlinks e) (observed e).

(** Monitors, newest first, each with a key that is not used again; whether the
    timer runs; how many monitors were started so far. *)
Record pollSpec := PollSpec {
  s_mons : list (nat * monitor);
  s_armed : bool;
  s_nextKey : nat;
  s_started : Z;
  s_intervalMs : Z;
  s_follow : bool;
  s_userData : Z;
  s_files : string -> bool -> observation;
  s_calls : list loopyFSPollInfo
}.

#[export] Instance PollSpec_rebuild : Rebuild pollSpec := fun s =>
  PollSpec (s_mons s) (s_armed s) (s_nextKey s) (s_started s) (s_intervalMs s) (s_follow s) (s_userData s) (s_files s) (s_calls s).

Definition keys (s : pollSpec) : list nat := (s_mons s).*1.

Fixpoint remove_id (pollId : Z) (l : list (nat * monitor)) : list (nat * monitor) :=
  match l with
  | [] => []
  | (k, m) :: l => if (m_id m =? pollId)%Z then l else (k, m) :: remove_id pollId l
  end.

Definition nonempty {A} (l : list A) : bool := match l with [] => false | _ => true end.

(** [ok]: the wheel accepted the registration, where there is one. *)
Definition spec_op (ok : bool) (op : poll_op) (s : pollSpec) : pollSpec :=
  match op with
  | PStart mallocOk path events cb data =>
      if (cb =? 0)%Z || (events =? LOOPY_FSPOLL_NONE)%Z || negb (fst mallocOk) || negb (snd mallocOk) then s
      else
        let s1 := s <| s_nextKey := S (s_nextKey s) |> <| s_started := (s_started s + 1)%Z |> in
        if s_armed s || ok then
          s1 <| s_mons ::= cons (s_nextKey s, Monitor (u64 (1 + s_started s)) path events cb data (s_follow s) (s_files s path (s_follow s))) |>
             <| s_armed := true |>
        else s1
  | PStop pollId =>
      if (pollId =? 0)%Z then s
      else let l := remove_id pollId (s_mons s) in s <| s_mons := l |> <| s_armed := s_armed s && nonempty l |>
  | PStopAll | PFree => s <| s_mons := [] |> <| s_armed := false |>
  | PSetInterval ms => s <| s_intervalMs := Z.max 10 ms |> <| s_armed := s_armed s && ok |>
  | PSetData d => s <| s_userData := d |>
  | PFiles fs => s <| s_files := fs |>
  end.

(** A callback may do anything but remove the monitor it is called for. *)
Definition polite_op (pollId : Z) (op : poll_op) : Prop :=
  match op with PStop i => i <> pollId | PStopAll | PFree => False | PSetInterval ms => in64 ms | _ => True end.
Definition polite (user : list loopyFSPollInfo -> list poll_op) : Prop :=
  forall i h, Forall (polite_op (i_pollId i)) (user (i :: h)).

Definition observe (k : nat) (now : observation) (l : list (nat * monitor)) : list (nat * monitor) :=
  (fun '(j, m) => (j, if j =? k then m <| m_last := now |> else m)) <$> l.

(** The newest monitor older than [b]. *)
Definition next_below (b : nat) (l : list (nat * monitor)) : option (nat * monitor) := head (filter (fun '(k, _) => k < b) l).

Section Spec.
Variable user : list loopyFSPollInfo -> list poll_op.

Inductive spec_ops : list poll_op -> pollSpec -> pollSpec -> Prop :=
  | so_nil s : spec_ops [] s s
  | so_cons ok op ops s s' : spec_ops ops (spec_op ok op s) s' -> spec_ops (op :: ops) s s'.

(** What a monitor reports; [None] when nothing it is to report changed. *)
Definition report (m : monitor) (now : observation) : option loopyFSPollInfo :=
  let relevant := Z.land (changes (m_last m) now) (m_events m) in
  if (relevant =? LOOPY_FSPOLL_NONE)%Z then None
  else Some (Info (m_cb m) (m_id m) relevant (m_path m) (m_last m) now (m_userData m)).

(** One run of the timer: each monitor, newest first, is compared with its
    file's state when its turn comes, and reports; monitors started meanwhile
    wait for the next run, removed ones are not looked at. *)
Inductive spec_pass : nat -> pollSpec -> pollSpec -> Prop :=
  | sp_done b s : next_below b (s_mons s) = None -> spec_pass b s s
  | sp_monitor b k m s s1 s' :
      next_below b (s_mons s) = Some (k, m) ->
      (let now := s_files s (m_path m) (m_follow m) in
       match report m now with
       | None => s1 = s
       | Some i => spec_ops (user (i :: s_calls s)) (s <| s_calls ::= cons i |>) s1
       end /\ spec_pass k (s1 <| s_mons ::= observe k now |>) s') ->
      spec_pass b s s'.

Definition spec_new (config : option loopyFSPollConfig) (key : nat) (fs : string -> bool -> observation) (cs : list loopyFSPollInfo) : pollSpec :=
  let c := default LOOPY_FSPOLL_CONFIG_DEFAULT config in
  PollSpec [] false key 0 (Z.max 10 (c_intervalMs c)) (c_followSymlinks c) 0 fs cs.
End Spec.

(** Interval and ids are [uint64_t]; ids are unique as long as their counter has
    not wrapped around. *)
Record spec_ok (s : pollSpec) : Prop := {
  so_sorted : StronglySorted (fun a b => b < a) (keys s);
  so_below : Forall (fun k => k < s_nextKey s) (keys s);
  so_callbacks : Forall (fun '(_, m) => m_cb m <> 0%Z /\ m_events m <> LOOPY_FSPOLL_NONE) (s_mons s);
  so_interval : (10 <= s_intervalMs s < w64)%Z;
  so_armed : s_armed s = true -> s_mons s <> [];
  so_started : (0 <= s_started s)%Z;
  so_ids : (s_started s < w64 - 1)%Z ->
    NoDup ((fun '(_, m) => m_id m) <$> s_mons s) /\ Forall (fun '(_, m) => (0 < m_id m <= s_started s)%Z) (s_mons s)
}.

(** ** Lemmas on the specification *)

Lemma eqb_decide (x y : Z) : (x =? y)%Z = bool_decide (x = y).
Proof. case_bool_decide as H; [by apply Z.eqb_eq|by apply Z.eqb_neq]. Qed.

Lemma detect_changes e (u : stat) (now : observation) :
  detectChanges e (default u now) (bool_decide (is_Some now)) = changes (observed e) now.
Proof.
  unfold detectChanges, observed, changes. destruct (e_exists e), now as [n|]; cbn; try done.
  destruct (e_prevStat e) as [a1 a2 a3 a4 a5 ? ? ?], n as [b1 b2 b3 b4 b5 ? ? ?]. cbn -[Z.land bool_decide PERMS S_IFMT].
  rewrite bool_decide_or, !bool_decide_not, <- !eqb_decide.
  by repeat destruct (_ =? _)%Z.
Qed.

Lemma changes_spec last now :
  (0 <= changes last now <= LOOPY_FSPOLL_ALL)%Z /\
  (changes last now = LOOPY_FSPOLL_CREATED <-> last = None /\ now <> None) /\
  (changes last now = LOOPY_FSPOLL_DELETED <-> last <> None /\ now = None) /\
  forall o n, last = Some o -> now = Some n ->
    Forall (fun '(b, m) => negb (Z.land (changes last now) m =? 0)%Z = b) (differences o n) /\
    (changes last now = LOOPY_FSPOLL_NONE <-> Forall (fun '(b, _) => b = false) (differences o n)).
Proof.
  destruct last as [o|], now as [n|]; cbn [changes];
    [|by (split_and!; [done|done|split; naive_solver|split; naive_solver|done])..].
  assert (H : forall b1 b2 b3 b4 b5 : bool,
    let d := foldr (fun '(b, m) z => bit b m + z)%Z 0%Z
      [(b1, LOOPY_FSPOLL_MODIFIED); (b2, LOOPY_FSPOLL_SIZE); (b3, LOOPY_FSPOLL_PERMISSIONS); (b4, LOOPY_FSPOLL_OWNER); (b5, LOOPY_FSPOLL_TYPE)] in
    (0 <= d <= LOOPY_FSPOLL_ALL)%Z /\ d <> LOOPY_FSPOLL_CREATED /\ d <> LOOPY_FSPOLL_DELETED /\
    Forall (fun '(b, m) => negb (Z.land d m =? 0)%Z = b)
      [(b1, LOOPY_FSPOLL_MODIFIED); (b2, LOOPY_FSPOLL_SIZE); (b3, LOOPY_FSPOLL_PERMISSIONS); (b4, LOOPY_FSPOLL_OWNER); (b5, LOOPY_FSPOLL_TYPE)] /\
    (d = LOOPY_FSPOLL_NONE <-> [b1; b2; b3; b4; b5] = [false; false; false; false; false])).
  { intros [] [] [] [] []; intros d; vm_compute in d; subst d; (split_and!; try done; by repeat constructor). }
  specialize (H (bool_decide (st_mtime o <> st_mtime n)) (bool_decide (st_size o <> st_size n))
    (bool_decide (Z.land (st_mode o) PERMS <> Z.land (st_mode n) PERMS)) (bool_decide (st_uid o <> st_uid n \/ st_gid o <> st_gid n))
    (bool_decide (Z.land (st_mode o) S_IFMT <> Z.land (st_mode n) S_IFMT))).
  fold (differences o n) in H. cbv zeta in H. destruct H as (H1 & H2 & H3 & H4 & H5).
  split_and!; [apply H1|apply H1|naive_solver|naive_solver|].
  intros o' n' [= <-] [= <-]. split; [done|]. rewrite H5. unfold differences. rewrite !Forall_cons, Forall_nil.
  split; [by intros [= -> -> -> -> ->]|by intros (-> & -> & -> & -> & -> & _)].
Qed.

Section SpecLemmas.
Implicit Types (s : pollSpec) (l : list (nat * monitor)).

Lemma remove_id_sublist i l : remove_id i l `sublist_of` l.
Proof. induction l as [|[k m] l IH]; cbn; [done|]. destruct (_ =? _)%Z; by constructor. Qed.

Lemma sublist_Forall {A} (P : A -> Prop) (x y : list A) : x `sublist_of` y -> Forall P y -> Forall P x.
Proof. intros Hs Hl. rewrite Forall_forall in Hl |- *. intros a Ha. apply Hl. by eapply elem_of_sublist. Qed.

Lemma sorted_sublist (k l : list nat) : k `sublist_of` l -> StronglySorted (fun a b => b < a) l -> StronglySorted (fun a b => b < a) k.
Proof.
  induction 1 as [|x k l Hs IH|x k l Hs IH]; intros Hl; [done| |]; apply StronglySorted_inv in Hl as [Hl Hx]; [|auto].
  constructor; [auto|]. eapply sublist_Forall; [exact Hs|done].
Qed.

Lemma sorted_nodup l : StronglySorted (fun a b => b < a) l.*1 -> NoDup l.*1.
Proof.
  induction l as [|[k m] l IH]; cbn; intros H; [constructor|]. apply StronglySorted_inv in H as [Hs Hk]. constructor; [|auto].
  rewrite Forall_forall in Hk. intros Hin. specialize (Hk _ Hin). lia.
Qed.

(** A change of the list of monitors to a part of it. *)
Lemma spec_ok_sub s l armed :
  l `sublist_of` s_mons s -> (armed = true -> l <> []) -> spec_ok s -> spec_ok (s <| s_mons := l |> <| s_armed := armed |>).
Proof.
  intros Hl Ha []. assert (Hk : l.*1 `sublist_of` keys s) by by apply fmap_sublist.
  split; cbn; try done; unfold keys; cbn.
  - by eapply sorted_sublist.
  - by eapply sublist_Forall.
  - by eapply sublist_Forall.
  - intros Hb. destruct (so_ids0 Hb) as [H1 H2]. split; [|by eapply sublist_Forall].
    eapply sublist_NoDup; [exact H1|]. by apply fmap_sublist.
Qed.

Lemma spec_op_ok ok op s : (forall ms, op = PSetInterval ms -> in64 ms) -> spec_ok s -> spec_ok (spec_op ok op s).
Proof.
  intros Hin H. destruct op as [m path ev c d|i| | |ms|d|fs]; cbn [spec_op].
  - destruct (_ || _) eqn:E; [done|]. bool_to_prop. pose proof H as [].
    destruct (s_armed s || ok) eqn:Ea.
    + split; cbn; try done.
      * unfold keys. cbn. by constructor.
      * unfold keys. cbn. constructor; [lia|]. eapply Forall_impl; [exact so_below0|]. cbn. lia.
      * constructor; [done|done].
      * lia.
      * intros Hb. destruct (so_ids0 ltac:(lia)) as [I1 I2].
        assert (Eu : u64 (1 + s_started s) = (s_started s + 1)%Z) by (rewrite u64_small; [lia|unfold in64; lia]).
        rewrite Eu. split; constructor; try done.
        -- intros ([? m'] & E' & Hm)%list_elem_of_fmap. rewrite Forall_forall in I2. specialize (I2 _ Hm). cbn in *. lia.
        -- cbn. lia.
        -- eapply Forall_impl; [exact I2|]. intros []. lia.
    + split; cbn; try done; unfold keys; cbn.
      * eapply Forall_impl; [exact so_below0|]. cbn. lia.
      * lia.
      * intros Hb. destruct (so_ids0 ltac:(lia)) as [I1 I2]. split; [done|]. eapply Forall_impl; [exact I2|]. intros []. lia.
  - destruct (_ =? _)%Z; [done|]. apply spec_ok_sub; [apply remove_id_sublist| |done]. by destruct (remove_id i (s_mons s)), (s_armed s).
  - apply spec_ok_sub; [apply sublist_nil_l|done|done].
  - apply spec_ok_sub; [apply sublist_nil_l|done|done].
  - destruct H. specialize (Hin ms eq_refl). unfold in64 in Hin. split; cbn; try done; [unfold w64 in *; lia|].
    intros [? ?]%andb_true_iff. auto.
  - by destruct H.
  - by destruct H.
Qed.

Lemma spec_op_keys ok op s : spec_ok s ->
  s_nextKey s <= s_nextKey (spec_op ok op s) /\
  (forall k m, k < s_nextKey s -> (k, m) ∈ s_mons (spec_op ok op s) -> (k, m) ∈ s_mons s).
Proof.
  intros H. destruct op as [m path ev c d|i| | |ms|d|fs]; cbn [spec_op].
  - destruct (_ || _); [done|]. destruct (_ || _); cbn; (split; [lia|]); [|done].
    intros k m' Hk [[= -> ->]|Hm]%elem_of_cons; [lia|done].
  - destruct (_ =? _)%Z; [done|]. cbn. split; [done|]. intros k m' _ Hm. eapply elem_of_sublist; [done|apply remove_id_sublist].
  - cbn. split; [done|]. by intros ? ? _ ?%elem_of_nil.
  - cbn. split; [done|]. by intros ? ? _ ?%elem_of_nil.
  - done.
  - done.
  - done.
Qed.

Lemma spec_op_keeps ok op s k m : (k, m) ∈ s_mons s -> polite_op (m_id m) op -> (k, m) ∈ s_mons (spec_op ok op s).
Proof.
  intros Hm Hp. destruct op as [mk path ev c d|i| | |ms|d|fs]; cbn [spec_op]; try done.
  - destruct (_ || _); [done|]. destruct (_ || _); cbn; [by right|done].
  - destruct (_ =? _)%Z; [done|]. cbn in *. induction (s_mons s) as [|[j m'] l IH]; [done|].
    cbn. apply elem_of_cons in Hm as [[= <- <-]|Hm].
    + rewrite (proj2 (Z.eqb_neq _ _)) by done. by left.
    + destruct (_ =? _)%Z; [done|]. right. auto.
Qed.

Lemma polite_interval i op : polite_op i op -> forall ms, op = PSetInterval ms -> in64 ms.
Proof. by intros H ms ->. Qed.

Lemma observe_keys k now l : (observe k now l).*1 = l.*1.
Proof. unfold observe. rewrite <- list_fmap_compose. apply list_fmap_ext. by intros ? [? ?]. Qed.

Lemma observe_ok k now s : spec_ok s -> spec_ok (s <| s_mons ::= observe k now |>).
Proof.
  intros []. split; cbn; unfold keys in *; cbn; rewrite ?observe_keys; try done.
  - unfold observe. apply Forall_fmap. eapply Forall_impl; [exact so_callbacks0|]. intros [j m]. cbn. by destruct (_ =? _).
  - intros Ha E. apply (so_armed0 Ha). by destruct (s_mons s).
  - intros Hb. destruct (so_ids0 Hb) as [H1 H2]. split.
    + unfold observe. rewrite <- list_fmap_compose. erewrite list_fmap_ext; [exact H1|]. intros ? [j m] _. cbn. by destruct (_ =? _).
    + unfold observe. apply Forall_fmap. eapply Forall_impl; [exact H2|]. intros [j m]. cbn. by destruct (_ =? _).
Qed.
End SpecLemmas.

(** ** Representation *)

Section Refinement.
Context {K : Type} {T : Type} `{!TimerWheel T} `{!FiringWheel T} `{!PeriodWheel T}.
Notation pollWorld := (@pollWorld K T).
Implicit Types (w : pollWorld) (s : pollSpec).

Definition regs (l : loopyLoop K T) : gmap Z (Z * Z) := default ∅ (tw_map <$> lp_timer l).

(** The registrations of [pollTimerCallback] are [id], if that is not 0, with the
    interval in microseconds. *)
Record timer_ok (l : loopyLoop K T) (id intervalMs : Z) : Prop := {
  to_regs i data : regs l !! i = Some (pollTimerCallback_ptr, data) <-> i = id /\ id <> 0%Z /\ data = fsp_ptr;
  to_wheel : id <> 0%Z -> exists t, lp_timer l = Some t /\ tw_period t id = Some (intervalMs *64 1000, intervalMs *64 1000)
}.

Record repr (p : loopyFSPoll) (w : pollWorld) (s : pollSpec) : Prop := {
  r_poller : poller w = Some p;
  r_chain : chain e_next (heap w) (p_entries p) (keys s);
  r_mons a m : (a, m) ∈ s_mons s <-> of_entry <$> heap w !! a = Some m;
  r_timer : timer_ok (loop w) (p_timerId p) (p_intervalMs p);
  r_address : nextAddress w = s_nextKey s;
  r_userData : p_userData p = s_userData s;
  r_nextId : p_nextId p = u64 (1 + s_started s);
  r_interval : p_intervalMs p = s_intervalMs s;
  r_follow : p_followSymlinks p = s_follow s;
  r_armed : s_armed s = negb (p_timerId p =? 0)%Z;
  r_files : files w = s_files s;
  r_calls : calls w = s_calls s;
  r_ok : spec_ok s
}.

Lemma wp_the_fsp (Q : loopyFSPoll -> pollWorld -> Prop) w p : poller w = Some p -> Q p w -> wp the_fsp Q w.
Proof using Type. intros Hn HQ. unfold the_fsp. apply wp_bind, wp_get. by rewrite Hn. Qed.

Lemma wp_set_fsp g (Q : unit -> pollWorld -> Prop) w p :
  poller w = Some p -> Q tt (w <| poller := Some (g p) |>) -> wp (set_fsp g) Q w.
Proof using Type. intros Hn HQ. unfold set_fsp. apply wp_bind. by eapply wp_the_fsp. Qed.

Lemma wp_poll_entry (Q : loopyFSPollEntry -> pollWorld -> Prop) a w e : heap w !! a = Some e -> Q e w -> wp (the_entry a) Q w.
Proof using Type. intros Hn HQ. unfold the_entry. apply wp_bind, wp_get. by rewrite Hn. Qed.

Lemma wp_set_entry g (Q : unit -> pollWorld -> Prop) a w e :
  heap w !! a = Some e -> Q tt (w <| heap ::= <[a := g e]> |>) -> wp (set_entry a g) Q w.
Proof using Type. intros Hn HQ. unfold set_entry. apply wp_bind. by eapply wp_poll_entry. Qed.

Lemma wp_free_entry (Q : unit -> pollWorld -> Prop) a w e :
  heap w !! a = Some e -> Q tt (w <| heap ::= delete a |>) -> wp (free_entry a) Q w.
Proof using Type. intros Hn HQ. unfold free_entry. apply wp_bind. by eapply wp_poll_entry. Qed.

Lemma the_entry_freed {B} (k : loopyFSPollEntry -> prog pollWorld B) a w : heap w !! a = None -> (the_entry a ≫= k) w = None.
Proof using Type. intros Hn. unfold the_entry, prog_bind, get, mbind. cbn -[lookup]. by rewrite Hn. Qed.

Lemma wp_registerTimer (Q : Z -> pollWorld -> Prop) w p i :
  poller w = Some p -> timer_ok (loop w) 0 i ->
  (forall l id, timer_ok l id (p_intervalMs p) -> Q id (w <| loop := l |>)) -> wp registerTimer Q w.
Proof using Type*.
  intros Hp [Hr _] HQ. unfold registerTimer. apply wp_bind. eapply wp_the_fsp; [done|]. apply wp_bind, wp_get.
  unfold loopyRegisterTimer. set (t := match lp_timer (loop w) with Some t => t | None => tw_new end).
  assert (Et : tw_map t = regs (loop w)) by (unfold regs, t; destruct (lp_timer (loop w)); [done|apply fw_new]).
  set (us := (p_intervalMs p *64 1000)). pose proof (fw_register us us pollTimerCallback_ptr fsp_ptr t) as H.
  pose proof (pw_register us us pollTimerCallback_ptr fsp_ptr t) as Hpw.
  destruct (tw_register us us pollTimerCallback_ptr fsp_ptr t) as [t' id]. cbn [fst snd] in Hpw.
  apply wp_bind, wp_modify, wp_ret, HQ. destruct H as (_ & H). split.
  - intros j data. unfold regs at 1. cbn. destruct H as [[-> ->]|(Hid & Hnew & _ & ->)].
    + rewrite Et, Hr. naive_solver.
    + rewrite Et. destruct (decide (j = id)) as [-> |Hj].
      * rewrite lookup_insert_eq. unfold fsp_ptr. naive_solver.
      * rewrite lookup_insert_ne by done. rewrite Hr. naive_solver.
  - intros Hid. exists t'. split; [done|]. rewrite Hpw. by rewrite bool_decide_true.
Qed.

Lemma wp_unregisterTimer (Q : unit -> pollWorld -> Prop) w id i :
  timer_ok (loop w) id i -> id <> 0%Z -> (forall l, (forall j, timer_ok l 0 j) -> Q tt (w <| loop := l |>)) -> wp (unregisterTimer id) Q w.
Proof using Type*.
  intros [Hr Hw] Hid HQ. destruct (Hw Hid) as (t & Ht & _). unfold unregisterTimer. apply wp_bind, wp_get.
  unfold loopyUnregisterTimer. rewrite Ht. cbn [mbind option_bind].
  pose proof (fw_unregister id t) as [H _]. destruct (tw_unregister id t) as [t' ok]. cbn [fst] in H.
  apply wp_modify, HQ. intros j. split; [|done].
  intros x data. unfold regs at 1. cbn. rewrite H. specialize (Hr x data). unfold regs in Hr. rewrite Ht in Hr. cbn in Hr.
  rewrite lookup_delete_Some, Hr. naive_solver.
Qed.

Lemma repr_nodup p w s : repr p w s -> NoDup (keys s).
Proof using Type. intros H. apply sorted_nodup. apply H. Qed.

Lemma repr_in p w s a : repr p w s -> a ∈ keys s <-> is_Some (heap w !! a).
Proof using Type.
  intros H. unfold keys. rewrite list_elem_of_fmap. split.
  - intros ([? m] & -> & Hm). apply (r_mons _ _ _ H) in Hm. cbn. by destruct (heap w !! n).
  - intros [e He]. exists (a, of_entry e). split; [done|]. apply (r_mons _ _ _ H). by rewrite He.
Qed.

Lemma repr_size p w s : repr p w s -> length (s_mons s) <= size (heap w).
Proof using Type. intros H. pose proof (chain_size _ _ _ _ (r_chain _ _ _ H) (repr_nodup _ _ _ H)) as E. unfold keys in E. by rewrite length_fmap in E. Qed.

Lemma repr_lookup p w s a m : repr p w s -> (a, m) ∈ s_mons s -> exists e, heap w !! a = Some e /\ of_entry e = m.
Proof using Type. intros H Hm. apply (r_mons _ _ _ H) in Hm. destruct (heap w !! a) as [e|]; [|done]. exists e. by injection Hm. Qed.

Lemma freeEntries_ok l : forall fuel hd w, chain e_next (heap w) hd l -> NoDup l -> (forall a, is_Some (heap w !! a) -> a ∈ l) ->
  length l < fuel -> wp (freeEntries fuel hd) (fun _ w' => w' = w <| heap := ∅ |>) w.
Proof using Type.
  induction l as [|a l IH]; intros [|fuel] hd w Hc Hnd Hall Hf; cbn in Hf; try lia.
  - cbn in Hc. rewrite Hc. apply wp_ret. assert (E : heap w = ∅); [|destruct w; cbn in *; by rewrite E].
    apply map_empty. intros b. apply eq_None_not_Some. by intros ?%Hall%elem_of_nil.
  - destruct Hc as (-> & e & He & Hc). apply NoDup_cons in Hnd as [Ha Hnd]. cbn [freeEntries].
    apply wp_bind. eapply wp_poll_entry; [done|]. apply wp_bind. eapply wp_free_entry; [done|].
    eapply wp_mono; [apply (IH fuel)|]; cbn; try done.
    + eapply chain_ext; [|exact Hc]. intros b Hb. by rewrite lookup_delete_ne by (intros ->; done).
    + intros b [x Hb]. apply lookup_delete_Some in Hb as [Hne Hb]. assert (b ∈ a :: l) as [?|?]%elem_of_cons by eauto; congruence.
    + lia.
Qed.

Ltac pstep :=
  match goal with
  | |- wp (_ ≫= _) _ _ => apply wp_bind
  | |- wp (mret _) _ _ => apply wp_ret
  | |- wp the_fsp _ _ => eapply wp_the_fsp; [first [eassumption | reflexivity]|]
  | |- wp (set_fsp _) _ _ => eapply wp_set_fsp; [first [eassumption | reflexivity]|]
  | |- wp (the_entry _) _ _ => eapply wp_poll_entry; [first [eassumption | apply lookup_insert_eq]|]
  | |- wp (set_entry _ _) _ _ => eapply wp_set_entry; [first [eassumption | apply lookup_insert_eq]|]
  | |- wp (free_entry _) _ _ => eapply wp_free_entry; [first [eassumption | apply lookup_insert_eq]|]
  | |- wp (doStat _ _) _ _ => unfold doStat
  | |- wp get _ _ => apply wp_get
  | |- wp (modify _) _ _ => apply wp_modify
  end.

(** ** The operations *)

Lemma start_ok p w s mk path ev c d : repr p w s ->
  wp (loopyFSPollStart true mk (Some path) ev c d) (fun r w' => exists ok p', repr p' w' (spec_op ok (PStart mk path ev c d) s) /\
    r = if (c =? 0)%Z || (ev =? LOOPY_FSPOLL_NONE)%Z || negb (fst mk) || negb (snd mk) || negb (s_armed s || ok)
        then 0%Z else u64 (1 + s_started s)) w.
Proof using Type*.
  intros H. unfold loopyFSPollStart. cbn [negb orb].
  destruct ((c =? 0)%Z || (ev =? LOOPY_FSPOLL_NONE)%Z) eqn:E1; [apply wp_ret; exists true, p; cbn [spec_op]; rewrite E1; done|].
  destruct (negb (fst mk)) eqn:E2; [apply wp_ret; exists true, p; cbn [spec_op]; rewrite E1, E2; done|].
  destruct (negb (snd mk)) eqn:E3; [apply wp_ret; exists true, p; cbn [spec_op]; rewrite E1, E2, E3; done|].
  pose proof (r_poller _ _ _ H) as Hp. do 11 pstep.
  set (x := Entry _ _ _ _ _ _ _ _ _). set (a := nextAddress w) in *.
  assert (Hkey : a = s_nextKey s) by apply H.
  assert (Hn : (p_nextId p +64 1) = u64 (1 + (s_started s + 1))) by (rewrite (r_nextId _ _ _ H), u64_add_l; f_equal; lia).
  assert (Ha : heap w !! a = None).
  { apply eq_None_not_Some. intros Ha. apply (repr_in _ _ _ _ H) in Ha. pose proof (so_below _ (r_ok _ _ _ H)) as Hb.
    rewrite Forall_forall in Hb. specialize (Hb _ Ha). unfold a in Hb. rewrite (r_address _ _ _ H) in Hb. lia. }
  assert (Hx : of_entry x = Monitor (u64 (1 + s_started s)) path ev c d (s_follow s) (s_files s path (s_follow s))).
  { unfold of_entry, observed, x. cbn. rewrite (r_nextId _ _ _ H), (r_follow _ _ _ H), (r_files _ _ _ H).
    by destruct (s_files s path (s_follow s)). }
  do 4 pstep.
  assert (Hch : chain e_next (<[a := x]> (heap w)) (Some a) (s_nextKey s :: keys s)).
  { rewrite <- (r_address _ _ _ H). split; [done|]. exists x. rewrite lookup_insert_eq. split; [done|].
    eapply chain_ext; [|apply H]. intros b Hb. rewrite lookup_insert_ne; [done|]. intros <-.
    apply (repr_in _ _ _ _ H) in Hb as [? Hb]. congruence. }
  assert (Hms : forall b m, (b, m) ∈ (s_nextKey s, of_entry x) :: s_mons s <-> of_entry <$> <[a := x]> (heap w) !! b = Some m).
  { intros b m. rewrite <- (r_address _ _ _ H). fold a. rewrite elem_of_cons, (r_mons _ _ _ H).
    destruct (decide (b = a)) as [-> |Hne]; [rewrite lookup_insert_eq, Ha|rewrite lookup_insert_ne by done]; cbn; naive_solver. }
  destruct (p_timerId p =? 0)%Z eqn:Et.
  - pose proof (r_timer _ _ _ H) as Ht. rewrite (proj1 (Z.eqb_eq _ _) Et) in Ht.
    pstep. eapply wp_registerTimer; [reflexivity|exact Ht|]. cbn. intros l id Hl. do 2 pstep.
    assert (Ea : s_armed s = false) by by rewrite (r_armed _ _ _ H), Et.
    pose proof (spec_op_ok (negb (id =? 0)%Z) (PStart mk path ev c d) s ltac:(done) (r_ok _ _ _ H)) as Hok. cbn [spec_op] in Hok.
    rewrite E1, E2, E3, Ea in Hok. cbn [orb] in Hok. destruct (id =? 0)%Z eqn:Ei.
    + repeat pstep. exists false. eexists. cbn [spec_op]. rewrite E1, E2, E3, Ea. cbn [orb negb].
      apply Z.eqb_eq in Ei. subst id. split; [|done]. destruct H. split; cbn; try done; try exact Hl; try exact Hn; try congruence.
      * rewrite delete_insert_id by done. unfold keys. cbn. done.
      * rewrite delete_insert_id by done. done.
      * done.
    + pstep. exists true. eexists. cbn [spec_op]. rewrite E1, E2, E3, Ea. cbn [orb negb].
      split; [|by rewrite (r_nextId _ _ _ H)]. rewrite <- Hx in Hok |- *. destruct H. split; cbn; try done; try exact Hl; try exact Hn; try congruence.
      * change (true = negb (id =? 0)%Z). by rewrite Ei.
  - pstep. exists true. eexists. cbn [spec_op]. rewrite E1, E2, E3, orb_true_r. cbn [orb negb].
    split; [|by rewrite (r_nextId _ _ _ H)].
    pose proof (spec_op_ok true (PStart mk path ev c d) s ltac:(done) (r_ok _ _ _ H)) as Hok. cbn [spec_op] in Hok.
    rewrite E1, E2, E3, orb_true_r in Hok. cbn [orb] in Hok.
    rewrite <- Hx in Hok |- *. destruct H. split; cbn; try done; try exact Hn; try congruence.
    + change (true = negb (p_timerId p =? 0)%Z). by rewrite Et.
Qed.

(** An entry is taken out of the list and freed: the world after it. *)
Lemma remove_links p w s l1 a m l2 e :
  repr p w s -> s_mons s = l1 ++ (a, m) :: l2 -> heap w !! a = Some e ->
  wp (writeLink (last l1.*1) (e_next e) ≫= fun _ => free_entry a)
    (fun _ w' => exists hd h, w' = w <| poller := Some (p <| p_entries := hd |>) |> <| heap := h |> /\
       chain e_next h hd (l1 ++ l2).*1 /\ (forall b, b <> a -> of_entry <$> h !! b = of_entry <$> heap w !! b) /\ h !! a = None) w.
Proof using Type*.
  intros H El He. pose proof (repr_nodup _ _ _ H) as Hnd. pose proof (r_chain _ _ _ H) as Hc. unfold keys in *. rewrite El in Hnd, Hc.
  rewrite fmap_app, fmap_cons in Hnd, Hc. cbn [fst] in *.
  assert (Hdel : forall (h : gmap nat loopyFSPollEntry) hd l, a ∉ l -> chain e_next h hd l -> chain e_next (delete a h) hd l).
  { intros h hd l Ha. apply chain_ext. intros b Hb. by rewrite lookup_delete_ne by (by intros ->). }
  assert (Ha : a ∉ (l1 ++ l2).*1) by (rewrite fmap_app; apply NoDup_app in Hnd as (_ & ? & [? _]%NoDup_cons); set_solver).
  destruct l1 as [|[q mq] l1 _] using rev_ind.
  - cbn [fmap list_fmap last writeLink]. pose proof (r_poller _ _ _ H) as Hp. repeat pstep. exists (e_next e), (delete a (heap w)). split; [done|]. split_and!.
    + apply Hdel; [done|]. cbn in Hc |- *. destruct Hc as (_ & e' & He' & Hc). by assert (e' = e) as -> by congruence.
    + intros b Hb. by rewrite lookup_delete_ne.
    + apply lookup_delete_eq.
  - rewrite fmap_app in Hnd, Hc. cbn in Hnd, Hc. rewrite <- app_assoc in Hnd, Hc. cbn in Hnd, Hc.
    rewrite fmap_app. cbn. rewrite last_snoc. cbn [writeLink].
    destruct (repr_lookup _ _ _ q mq H ltac:(rewrite El; set_solver)) as (x & Hx & _). assert (Hqa : q <> a).
    { apply NoDup_app in Hnd as (_ & _ & Hnd). apply NoDup_cons in Hnd as [? _]. set_solver. }
    do 2 pstep. eapply wp_free_entry; [cbn; by rewrite lookup_insert_ne|].
    exists (p_entries p), (delete a (<[q := x <| e_next := e_next e |>]> (heap w))). split.
    { pose proof (r_poller _ _ _ H) as Hp. destruct w, p; cbn in *. by subst. }
    split_and!.
    + apply Hdel; [done|]. rewrite !fmap_app, <- app_assoc. cbn. by eapply chain_drop.
    + intros b Hb. rewrite lookup_delete_ne by done. destruct (decide (b = q)) as [-> |Hq]; [by rewrite lookup_insert_eq, Hx|by rewrite lookup_insert_ne].
    + apply lookup_delete_eq.
Qed.

Lemma stopTimer_ok p w s hd h l :
  repr p w s -> l `sublist_of` s_mons s -> chain e_next h hd l.*1 ->
  (forall a m, (a, m) ∈ l <-> of_entry <$> h !! a = Some m) ->
  wp stopTimerIfEmpty (fun _ w' => exists p', repr p' w' (s <| s_mons := l |> <| s_armed := s_armed s && nonempty l |>))
    (w <| poller := Some (p <| p_entries := hd |>) |> <| heap := h |>).
Proof using Type*.
  intros H Hl Hc Hm. set (s' := s <| s_mons := l |> <| s_armed := s_armed s && nonempty l |>).
  assert (Hok : spec_ok s') by (apply spec_ok_sub; [done|by destruct l, (s_armed s)|apply H]).
  pose proof (chain_head _ _ _ _ Hc) as Eh. unfold stopTimerIfEmpty. do 2 pstep.
  change (p_timerId (p <| p_entries := hd |>)) with (p_timerId p). change (p_entries (p <| p_entries := hd |>)) with hd.
  destruct (bool_decide (hd = None) && negb (p_timerId p =? 0)%Z) eqn:E; cbn [pwhen].
  - apply andb_true_iff in E as [E1%bool_decide_eq_true Et%negb_true_iff]. assert (l = []) as -> by (rewrite E1 in Eh; by destruct l).
    pose proof (proj1 (Z.eqb_neq _ _) Et) as Hid. pstep. eapply wp_unregisterTimer; [apply H|done|]. intros t Ht. pstep.
    eexists. destruct H. split; cbn; try done; try apply Ht. by rewrite andb_false_r.
  - pstep. eexists. destruct H. split; cbn; try done. rewrite r_armed0.
    change (negb (p_timerId p =? 0)%Z && nonempty l = negb (p_timerId p =? 0)%Z).
    destruct (negb (p_timerId p =? 0)%Z); [|done]. rewrite andb_true_r in E. apply bool_decide_eq_false in E. by destruct l; cbn in Eh.
Qed.

Lemma remove_id_split i l : exists l1, (remove_id i l = l /\ l1 = l /\ Forall (fun '(_, m) => m_id m <> i) l) \/
  exists k m l2, l = l1 ++ (k, m) :: l2 /\ m_id m = i /\ Forall (fun '(_, m) => m_id m <> i) l1 /\ remove_id i l = l1 ++ l2.
Proof using Type.
  induction l as [|[k m] l (l1 & IH)]; [exists []; by left|]. cbn. destruct (Z.eqb_spec (m_id m) i) as [Hm|Hm].
  - exists []. right. by exists k, m, l.
  - exists ((k, m) :: l1). destruct IH as [(E & -> & HF)|(k' & m' & l2 & -> & Hi & HF & E)].
    + left. rewrite E. split_and!; [done|done|]. by constructor.
    + right. exists k', m', l2. rewrite E. split_and!; [done|done|by constructor|done].
Qed.

Lemma readLink_at p w s l1 l2 (Q : option nat -> pollWorld -> Prop) :
  repr p w s -> s_mons s = l1 ++ l2 -> Q (head l2.*1) w -> wp (readLink (last l1.*1)) Q w.
Proof using Type*.
  intros H El HQ. pose proof (r_poller _ _ _ H) as Hp. pose proof (r_chain _ _ _ H) as Hc. unfold keys in Hc. rewrite El, fmap_app in Hc.
  destruct l1 as [|[q mq] l1 _] using rev_ind.
  - cbn. do 3 pstep. cbn in Hc. by rewrite (chain_head _ _ _ _ Hc).
  - rewrite fmap_app in Hc |- *. cbn in Hc |- *. rewrite last_snoc. cbn [readLink]. rewrite <- app_assoc in Hc.
    destruct (chain_at _ _ _ _ _ _ Hc) as (x & Hx & Hn & _). do 3 pstep. by rewrite Hn.
Qed.

(** The walk passes entries with other ids. *)
Lemma stopFrom_skip p w s i l2 : forall l1 l3 fuel (Q : bool -> pollWorld -> Prop),
  repr p w s -> s_mons s = l1 ++ l2 ++ l3 -> Forall (fun '(_, m) => m_id m <> i) l2 ->
  wp (stopFrom fuel (last (l1 ++ l2).*1) i) Q w -> wp (stopFrom (length l2 + fuel) (last l1.*1) i) Q w.
Proof using Type*.
  induction l2 as [|[a m] l2 IH]; intros l1 l3 fuel Q H El Hi HQ; [by rewrite app_nil_r in HQ|].
  apply Forall_cons in Hi as [Hm Hi]. destruct (repr_lookup _ _ _ a m H ltac:(rewrite El; set_solver)) as (e & He & Hem).
  cbn [length Nat.add stopFrom]. pstep. eapply readLink_at; [done|exact El|]. cbn. do 2 pstep.
  rewrite (proj2 (Z.eqb_neq _ _)) by (intros E; apply Hm; by rewrite <- Hem).
  assert (E : last (l1 ++ [(a, m)]).*1 = Some a) by (rewrite fmap_app; apply last_snoc).
  specialize (IH (l1 ++ [(a, m)]) l3 fuel Q H). rewrite E, <- !app_assoc in IH. by apply IH.
Qed.

Lemma stop_ok p w s i : repr p w s ->
  wp (loopyFSPollStop true i) (fun b w' => (exists p', repr p' w' (spec_op true (PStop i) s)) /\
    (b = true <-> i <> 0%Z /\ exists k m, (k, m) ∈ s_mons s /\ m_id m = i)) w.
Proof using Type*.
  intros H. unfold loopyFSPollStop. cbn [negb orb spec_op]. destruct (Z.eqb_spec i 0) as [E|Hi]; [pstep; split; [by exists p|naive_solver]|].
  do 2 pstep. pose proof (repr_size _ _ _ H) as Hsz.
  destruct (remove_id_split i (s_mons s)) as (l1 & [(E & -> & HF)|(k & m & l2 & El & Hm & HF & E)]); rewrite E.
  - replace (S (size (heap w))) with (length (s_mons s) + S (size (heap w) - length (s_mons s))) by lia.
    change None with (last ([] : list (nat * monitor)).*1). eapply (stopFrom_skip p w s i (s_mons s) [] []); [done|by rewrite app_nil_r|done|].
    cbn [stopFrom]. pstep. eapply (readLink_at _ _ _ _ []); [done|by rewrite app_nil_r|]. cbn. split.
    + exists p. destruct H. destruct s as [[|] arm]; cbn in *; [|by rewrite andb_true_r].
      destruct arm; [|done]. by pose proof (so_armed _ r_ok0 eq_refl).
    + split; [done|]. intros (_ & k & m & Hkm & Hm). rewrite Forall_forall in HF. by specialize (HF _ Hkm).
  - assert (Hl : l1 ++ l2 `sublist_of` s_mons s) by (rewrite El; apply sublist_app; [done|by constructor]).
    assert (Hsz' : length l1 < size (heap w)) by (rewrite El, length_app in Hsz; cbn in Hsz; lia).
    replace (S (size (heap w))) with (length l1 + S (size (heap w) - length l1)) by lia.
    change None with (last ([] : list (nat * monitor)).*1). eapply (stopFrom_skip p w s i l1 [] ((k, m) :: l2)); [done|done|done|].
    cbn [stopFrom app]. pstep. eapply readLink_at; [done|exact El|]. cbn.
    destruct (repr_lookup _ _ _ k m H ltac:(rewrite El; set_solver)) as (e & He & Hem).
    do 2 pstep. rewrite (proj2 (Z.eqb_eq _ _)) by (by rewrite <- Hm, <- Hem).
    pstep. eapply wp_mono; [exact (wp_bind_inv _ _ _ _ (remove_links _ _ _ _ _ _ _ _ H El He))|]. intros [] w1 Hw1.
    pstep. eapply wp_mono; [exact Hw1|]. clear w1 Hw1. intros [] w1 (hd & h & -> & Hc & Hh & Ha).
    pstep. eapply wp_mono; [eapply (stopTimer_ok _ _ _ _ _ _ H Hl Hc)|].
    + intros b mb. destruct (decide (b = k)) as [-> |Hb].
      * rewrite Ha. split; [|done]. intros Hin. pose proof (repr_nodup _ _ _ H) as Hnd. unfold keys in Hnd.
        rewrite El, fmap_app in Hnd. cbn in Hnd. apply NoDup_app in Hnd as (_ & Hd & [Hk _]%NoDup_cons).
        apply elem_of_app in Hin as [Hin|Hin]; apply (list_elem_of_fmap_2 fst) in Hin; cbn in Hin; [|done].
        destruct (Hd _ Hin). by left.
      * rewrite Hh, <- (r_mons _ _ _ H), El by done. set_solver.
    + intros [] w1 Hw1. pstep. split; [done|]. split; [|done]. intros _. split; [done|]. exists k, m. rewrite El. set_solver.
Qed.

Lemma freeAll_ok p w s (Q : unit -> pollWorld -> Prop) l :
  repr p w s -> Q tt (w <| loop := l |> <| heap := ∅ |>) ->
  wp (freeEntries (S (size (heap w))) (p_entries p)) Q (w <| loop := l |>).
Proof using Type*.
  intros H HQ. eapply wp_mono; [apply (freeEntries_ok (keys s)); [apply H|by eapply repr_nodup| |]|by intros [] w' ->].
  - intros a Ha. by apply (repr_in _ _ _ _ H).
  - pose proof (repr_size _ _ _ H). unfold keys. rewrite length_fmap. lia.
Qed.

(** The timer is stopped if it runs. *)
Lemma stopTimer_if p w s (Q : unit -> pollWorld -> Prop) :
  repr p w s -> (forall l, (forall j, timer_ok l 0 j) -> Q tt (w <| loop := l |>)) ->
  wp (pwhen (negb (p_timerId p =? 0)%Z) (unregisterTimer (p_timerId p))) Q w.
Proof using Type*.
  intros H HQ. destruct (Z.eqb_spec (p_timerId p) 0) as [E|E]; cbn [negb pwhen].
  - pstep. specialize (HQ (loop w)). destruct w. apply HQ. intros j. pose proof (r_timer _ _ _ H) as [Hr _]. rewrite E in Hr. by split.
  - eapply wp_unregisterTimer; [apply H|done|done].
Qed.

Lemma stopAll_ok p w s : repr p w s ->
  wp (loopyFSPollStopAll true) (fun _ w' => exists p', repr p' w' (spec_op true PStopAll s)) w.
Proof using Type*.
  intros H. pose proof (r_poller _ _ _ H) as Hp. unfold loopyFSPollStopAll. cbn [negb]. do 3 pstep.
  pose proof (spec_op_ok true PStopAll s ltac:(done) (r_ok _ _ _ H)) as Hok. cbn [spec_op] in Hok |- *.
  assert (Hend : forall l q, (forall j, timer_ok l 0 j) -> q = p <| p_timerId := 0%Z |> ->
    exists p', repr p' (w <| loop := l |> <| heap := ∅ |> <| poller := Some (q <| p_entries := None |>) |>) (s <| s_mons := [] |> <| s_armed := false |>)).
  { intros l q Hl ->. eexists. destruct H. split; cbn; try done.
    intros a m. rewrite lookup_empty. split; [by intros ?%elem_of_nil|done]. }
  destruct (Z.eqb_spec (p_timerId p) 0) as [E|E]; cbn [negb pwhen].
  - do 3 pstep. pose proof (freeAll_ok p w s) as Hf. specialize (Hf (fun _ w1 => wp (set_fsp (fun p => p <| p_entries := None |>)) (fun _ w' =>
      exists p', repr p' w' (s <| s_mons := [] |> <| s_armed := false |>)) w1) (loop w) H).
    assert (Ew : w <| loop := loop w |> = w) by by destruct w. rewrite Ew in Hf. pstep. apply Hf. pstep.
    destruct (Hend (loop w) p) as [p' Hr]; [|by destruct p; cbn in *; subst|rewrite Ew in Hr; by exists p'].
    intros j. pose proof (r_timer _ _ _ H) as [Hr _]. rewrite E in Hr. by split.
  - pstep. eapply wp_unregisterTimer; [apply H|done|]. intros l Hl. do 4 pstep.
    eapply wp_mono; [apply (freeEntries_ok (keys s)); [apply H|by eapply repr_nodup| |]|].
    + intros a Ha. by apply (repr_in _ _ _ _ H).
    + pose proof (repr_size _ _ _ H). unfold keys. rewrite length_fmap. cbn. lia.
    + intros _ w' ->. pstep. by apply (Hend l (p <| p_timerId := 0%Z |>)).
Qed.

Lemma fspollFree_ok p w s : repr p w s ->
  wp (loopyFSPollFree true) (fun _ w' => poller w' = None /\ heap w' = ∅ /\ (forall j, timer_ok (loop w') 0 j)) w.
Proof using Type*.
  intros H. pose proof (r_poller _ _ _ H) as Hp. unfold loopyFSPollFree. cbn [negb]. do 3 pstep.
  eapply stopTimer_if; [exact H|]. intros l Hl. do 3 pstep. apply (freeAll_ok p w s _ l H). by pstep.
Qed.

Lemma setInterval_ok p w s ms : repr p w s -> in64 ms ->
  wp (loopyFSPollSetInterval true ms) (fun _ w' => exists ok p', repr p' w' (spec_op ok (PSetInterval ms) s)) w.
Proof using Type*.
  intros H Hms. pose proof (r_poller _ _ _ H) as Hp. unfold loopyFSPollSetInterval. cbn [negb].
  assert (Em : (if (ms <? 10)%Z then 10%Z else ms) = Z.max 10 ms) by (destruct (Z.ltb_spec ms 10); lia). rewrite Em.
  do 4 pstep. set (q := p <| p_intervalMs := Z.max 10 ms |>).
  pose proof (fun ok => spec_op_ok ok (PSetInterval ms) s ltac:(by intros ? [= <-]) (r_ok _ _ _ H)) as Hok. cbn [spec_op] in Hok |- *.
  change (p_timerId q) with (p_timerId p). destruct (Z.eqb_spec (p_timerId p) 0) as [E|E]; cbn [negb pwhen].
  - pstep. exists true, q. assert (Ea : s_armed s = false) by by rewrite (r_armed _ _ _ H), E. specialize (Hok true). rewrite Ea in Hok |- *.
    pose proof (r_timer _ _ _ H) as [Hr _]. destruct H. split; cbn; try done.
    change (p_timerId q) with (p_timerId p). by rewrite E.
  - pstep. eapply wp_unregisterTimer; [apply H|done|]. intros l Hl. pstep.
    eapply wp_registerTimer; [reflexivity|exact (Hl (p_intervalMs q))|]. intros l' id Hl'. pstep.
    exists (negb (id =? 0)%Z). eexists. assert (Ea : s_armed s = true) by (rewrite (r_armed _ _ _ H); by destruct (Z.eqb_spec (p_timerId p) 0)).
    specialize (Hok (negb (id =? 0)%Z)). rewrite Ea in Hok |- *. destruct H. split; cbn; try done.
Qed.

Lemma run_poll_op_ok p w s op : repr p w s -> (forall ms, op = PSetInterval ms -> in64 ms) -> op <> PFree ->
  wp (run_op op) (fun _ w' => exists ok p', repr p' w' (spec_op ok op s)) w.
Proof using Type*.
  intros H Hin Hfree. destruct op as [mk path ev c d|i| | |ms|d|fs]; cbn [run_op]; try done.
  - pstep. eapply wp_mono; [by eapply start_ok|]. intros r w' (ok & p' & Hr & _). pstep. eauto.
  - pstep. eapply wp_mono; [by eapply stop_ok|]. intros b w' ([p' Hr] & _). pstep. eauto.
  - eapply wp_mono; [by eapply stopAll_ok|]. intros _ w' [p' Hr]. eauto.
  - eapply setInterval_ok; [done|by apply Hin].
  - pose proof (r_poller _ _ _ H) as Hp. unfold loopyFSPollSetData. cbn [pwhen]. pstep. exists true. eexists.
    pose proof (spec_op_ok true (PSetData d) s ltac:(done) (r_ok _ _ _ H)). destruct H. split; cbn; try done.
  - pstep. exists true, p. pose proof (spec_op_ok true (PFiles fs) s ltac:(done) (r_ok _ _ _ H)). by destruct H.
Qed.

(** ** The run of the timer *)

(** What callbacks leave of the monitors that were there before. *)
Definition older (s s' : pollSpec) : Prop :=
  s_nextKey s <= s_nextKey s' /\ forall k m, k < s_nextKey s -> (k, m) ∈ s_mons s' -> (k, m) ∈ s_mons s.

Variable uninitialised : stat.
Variable user : list loopyFSPollInfo -> list poll_op.

Lemma run_poll_ops_ok ops k m : forall p w s, Forall (polite_op (m_id m)) ops -> repr p w s -> (k, m) ∈ s_mons s ->
  wp (run_ops ops) (fun _ w' => exists p' s', repr p' w' s' /\ spec_ops ops s s' /\ (k, m) ∈ s_mons s' /\ older s s') w.
Proof using Type*.
  induction ops as [|op ops IH]; intros p w s Hp H Hk; cbn [run_ops].
  - pstep. exists p, s. split_and!; try done. by constructor.
  - apply Forall_cons in Hp as [Hop Hp]. pstep. eapply wp_mono; [eapply run_poll_op_ok|]; [exact H|by eapply polite_interval|by intros ->|].
    intros _ w1 (ok & p1 & H1). destruct (spec_op_keys ok op s (r_ok _ _ _ H)) as [Ho1 Ho2].
    eapply wp_mono; [eapply (IH p1 w1 _ Hp H1); by apply spec_op_keeps|].
    intros _ w2 (p2 & s2 & H2 & Hs & Hk2 & Ho3 & Ho4). exists p2, s2. split_and!; [done|by econstructor|done|]. split; [lia|].
    intros j mj Hj Hm. apply Ho2; [done|]. apply Ho4; [lia|done].
Qed.

Lemma set_heap_twice w k e e' : w <| heap ::= <[k := e]> |> <| heap ::= <[k := e']> |> = w <| heap ::= <[k := e']> |>.
Proof using Type. destruct w. unfold update. cbn. by rewrite insert_insert_eq. Qed.

Lemma repr_observe p w s k e e' now :
  repr p w s -> heap w !! k = Some e -> e_next e' = e_next e -> of_entry e' = (of_entry e) <| m_last := now |> ->
  repr p (w <| heap ::= <[k := e']> |>) (s <| s_mons ::= observe k now |>).
Proof using Type*.
  intros H He Hn Ho. pose proof (observe_ok k now s (r_ok _ _ _ H)) as Hok. destruct H. split; cbn; try done.
  - unfold keys. cbn. rewrite observe_keys. eapply chain_ext; [|exact r_chain0]. intros b _.
    destruct (decide (b = k)) as [-> |Hb]; [rewrite lookup_insert_eq, He; cbn; by rewrite Hn|by rewrite lookup_insert_ne].
  - intros b mb. unfold observe. rewrite list_elem_of_fmap. destruct (decide (b = k)) as [-> |Hb].
    + rewrite lookup_insert_eq. cbn. rewrite Ho. split.
      * intros ([? m] & [= <- ->] & Hm). apply r_mons0 in Hm. rewrite He in Hm. injection Hm as <-. by rewrite Nat.eqb_refl.
      * intros [= <-]. exists (k, of_entry e). rewrite Nat.eqb_refl. split; [done|]. apply r_mons0. by rewrite He.
    + rewrite lookup_insert_ne by done. rewrite <- r_mons0. split.
      * intros ([? m] & [= <- ->] & Hm). by rewrite (proj2 (Nat.eqb_neq _ _)) by done.
      * intros Hm. exists (b, mb). by rewrite (proj2 (Nat.eqb_neq _ _)) by done.
Qed.

(** What happens at the turn of monitor [m]. *)
Definition turn (m : monitor) (now : observation) (s s1 : pollSpec) : Prop :=
  match report m now with
  | None => s1 = s
  | Some i => spec_ops (user (i :: s_calls s)) (s <| s_calls ::= cons i |>) s1
  end.

Lemma pollEntry_ok p w s k m : polite user -> repr p w s -> (k, m) ∈ s_mons s ->
  wp (pollEntry uninitialised user k) (fun _ w' => exists p' s1, let now := s_files s (m_path m) (m_follow m) in
    turn m now s s1 /\ repr p' w' (s1 <| s_mons ::= observe k now |>) /\ k ∈ keys s1 /\ older s s1) w.
Proof using Type*.
  intros Huser H Hk. destruct (repr_lookup _ _ _ k m H Hk) as (e & He & Hem). unfold pollEntry. do 7 pstep.
  rewrite (r_files _ _ _ H). assert (Ef : s_files s (e_path e) (e_followSymlinks e) = s_files s (m_path m) (m_follow m)) by by rewrite <- Hem.
  rewrite Ef. set (now := s_files s (m_path m) (m_follow m)). rewrite detect_changes.
  assert (Eo : observed e = m_last m) by by rewrite <- Hem. rewrite Eo.
  assert (Ecb : e_cb e <> 0%Z).
  { pose proof (so_callbacks _ (r_ok _ _ _ H)) as Hc. rewrite Forall_forall in Hc. specialize (Hc _ Hk). cbn in Hc. rewrite <- Hem in Hc. apply Hc. }
  rewrite (proj2 (Z.eqb_neq _ _) Ecb), andb_true_r.
  set (info := Info _ _ _ _ _ _ _). assert (Er : report m now = if (Z.land (changes (m_last m) now) (e_events e) =? LOOPY_FSPOLL_NONE)%Z then None else Some info).
  { unfold report, info. rewrite <- Hem. cbn. destruct now; [done|]. by destruct (_ =? _)%Z. }
  assert (Hrest : forall p1 w1 s1, repr p1 w1 s1 -> (k, m) ∈ s_mons s1 ->
    wp (pwhen (bool_decide (is_Some now)) (set_entry k (fun e => e <| e_prevStat := default uninitialised now |>)) ≫= fun _ =>
        set_entry k (fun e => e <| e_exists := bool_decide (is_Some now) |>))
      (fun _ w' => repr p1 w' (s1 <| s_mons ::= observe k now |>)) w1).
  { intros p1 w1 s1 H1 Hk1. destruct (repr_lookup _ _ _ k m H1 Hk1) as (e1 & He1 & Hem1). pstep. destruct now as [n|]; cbn [is_Some].
    - rewrite bool_decide_true by by eexists. cbn [pwhen]. do 2 pstep.
      rewrite set_heap_twice. by eapply repr_observe.
    - rewrite bool_decide_false by by intros []. cbn [pwhen]. do 2 pstep. by eapply repr_observe. }
  destruct (_ =? LOOPY_FSPOLL_NONE)%Z eqn:Ez; cbn [negb pwhen]; pstep.
  - pstep. eapply wp_mono; [by apply Hrest|]. intros [] w' Hr. exists p, s. cbv zeta. unfold turn. rewrite Er. split_and!; try done.
    by apply (list_elem_of_fmap_2 fst) in Hk.
  - unfold callback. do 4 pstep. set (w1 := w <| calls ::= cons info |>). set (s1 := s <| s_calls ::= cons info |>).
    assert (H1 : repr p w1 s1) by (destruct H; split; try done; [unfold w1, s1; cbn; by rewrite r_calls0|by destruct r_ok0]).
    assert (Ec : calls w1 = info :: s_calls s) by (cbn; by rewrite (r_calls _ _ _ H)). rewrite Ec.
    eapply wp_mono; [apply (run_poll_ops_ok _ k m p w1 s1); [|done|done]|].
    + assert (E : m_id m = i_pollId info) by by rewrite <- Hem. rewrite E. apply Huser.
    + intros [] w2 (p2 & s2 & H2 & Hs & Hk2 & Ho). eapply wp_mono; [by apply Hrest|]. intros [] w' Hr.
      exists p2, s2. cbv zeta. unfold turn. rewrite Er. split_and!; try done. by apply (list_elem_of_fmap_2 fst) in Hk2.
Qed.

(** In the sorted list the monitors below [b] are a suffix. *)
Lemma below_suffix (l : list (nat * monitor)) b k m r :
  StronglySorted (fun a b => b < a) l.*1 -> filter (fun '(j, _) => j < b) l = (k, m) :: r ->
  exists l1, l = l1 ++ (k, m) :: r /\ k < b /\ filter (fun '(j, _) => j < k) l = r.
Proof using Type.
  induction l as [|[j mj] l IH]; [done|]. cbn [fmap list_fmap fst]. intros Hs. apply StronglySorted_inv in Hs as [Hs Hj].
  assert (Hall : forall x mx, (x, mx) ∈ l -> x < j).
  { intros x mx Hx. rewrite Forall_forall in Hj. apply Hj. by apply (list_elem_of_fmap_2 fst) in Hx. }
  rewrite filter_cons. case_decide as Hb.
  - assert (E : forall c, j <= c -> filter (fun '(x, _) => x < c) l = l).
    { intros c Hc. apply filter_all, Forall_forall. intros [x mx] Hx. specialize (Hall x mx Hx). lia. }
    rewrite E by lia. intros [= -> -> <-]. exists []. split_and!; [done|done|]. rewrite filter_cons, decide_False by lia. by apply E.
  - intros Hf. destruct (IH Hs Hf) as (l1 & -> & Hk & Hr). exists ((j, mj) :: l1). split_and!; [done|done|].
    rewrite filter_cons, decide_False; [done|]. specialize (Hall k m ltac:(set_solver)). lia.
Qed.

Lemma next_suffix p w s b : repr p w s -> s_nextKey s <= b -> p_entries p = fst <$> next_below b (s_mons s).
Proof using Type*.
  intros H Hb. rewrite (chain_head _ _ _ _ (r_chain _ _ _ H)). unfold next_below, keys.
  assert (E : filter (fun '(x, _) => x < b) (s_mons s) = s_mons s); [|rewrite E; by destruct (s_mons s) as [|[? ?] ?]].
  apply filter_all, Forall_forall. intros [x mx] Hx. pose proof (so_below _ (r_ok _ _ _ H)) as Hl. rewrite Forall_forall in Hl.
  apply (list_elem_of_fmap_2 fst) in Hx. specialize (Hl _ Hx). cbn in Hl. lia.
Qed.

Lemma next_after p w s k e : repr p w s -> heap w !! k = Some e -> e_next e = fst <$> next_below k (s_mons s).
Proof using Type*.
  intros H He. assert (Hk : k ∈ keys s) by (apply (repr_in _ _ _ _ H); by eexists).
  destruct (filter (fun '(j, _) => j < S k) (s_mons s)) as [|[j m] r] eqn:Ef.
  - exfalso. apply list_elem_of_fmap in Hk as ([x m] & -> & Hx). cbn in Ef.
    assert (Hx' : (x, m) ∈ filter (fun '(j, _) => j < S x) (s_mons s)) by (apply list_elem_of_filter; split; [lia|done]).
    rewrite Ef in Hx'. by apply elem_of_nil in Hx'.
  - destruct (below_suffix _ _ _ _ _ (so_sorted _ (r_ok _ _ _ H)) Ef) as (l1 & El & Hj & Hf).
    assert (j = k) as ->.
    { destruct (decide (j = k)) as [|Hne]; [done|]. assert (Hlt : j < k) by lia. exfalso.
      pose proof (so_sorted _ (r_ok _ _ _ H)) as Hs. unfold keys in Hs, Hk. rewrite El in Hs, Hk. rewrite fmap_app in Hs, Hk. cbn in Hs, Hk.
      apply elem_of_app in Hk as [Hk|Hk].
      - apply list_elem_of_fmap in Hk as ([x mx] & Ex & Hx). cbn in Ex. subst x.
        assert (Hin : (k, mx) ∈ filter (fun '(j, _) => j < S k) (s_mons s)) by (apply list_elem_of_filter; split; [lia|rewrite El; set_solver]).
        rewrite Ef in Hin. pose proof (repr_nodup _ _ _ H) as Hnd. unfold keys in Hnd. rewrite El, fmap_app in Hnd. cbn in Hnd.
        apply NoDup_app in Hnd as (_ & Hd & _). apply (Hd k); [by apply (list_elem_of_fmap_2 fst) in Hx|].
        apply elem_of_cons in Hin as [[= ? ?]|Hin]; [lia|]. right. by apply (list_elem_of_fmap_2 fst) in Hin.
      - apply elem_of_cons in Hk as [?|Hk]; [done|]. clear Ef Hf El. induction (l1.*1) as [|x l IH]; apply StronglySorted_inv in Hs as [Hs Hx]; [|auto].
        rewrite Forall_forall in Hx. specialize (Hx _ Hk). lia. }
    pose proof (r_chain _ _ _ H) as Hc. unfold keys in Hc. rewrite El, fmap_app in Hc. cbn in Hc.
    destruct (chain_at _ _ _ _ _ _ Hc) as (x & Hx & Hn & _). assert (x = e) as -> by congruence. rewrite Hn. unfold next_below. rewrite Hf.
    by destruct r as [|[? ?] ?].
Qed.

Lemma pollFrom_ok : polite user -> forall fuel p w s b, repr p w s -> b <= s_nextKey s ->
  length (filter (fun '(j, _) => j < b) (s_mons s)) < fuel ->
  wp (pollFrom uninitialised user fuel (fst <$> next_below b (s_mons s))) (fun _ w' => exists p' s', spec_pass user b s s' /\ repr p' w' s') w.
Proof using Type*.
  intros Huser. induction fuel as [|fuel IH]; intros p w s b H Hb Hf; [lia|]. cbn [pollFrom].
  destruct (next_below b (s_mons s)) as [[k m]|] eqn:En; cbn [fmap option_fmap option_map fst].
  2:{ pstep. exists p, s. split; [by constructor|done]. }
  assert (Hfil : exists r, filter (fun '(j, _) => j < b) (s_mons s) = (k, m) :: r).
  { unfold next_below in En. destruct (filter _ _) as [|x r]; [done|]. injection En as ->. by exists r. }
  destruct Hfil as [r Hfil]. destruct (below_suffix _ _ _ _ _ (so_sorted _ (r_ok _ _ _ H)) Hfil) as (l1 & El & Hkb & Hr).
  pstep. eapply wp_mono; [by apply (pollEntry_ok _ _ _ k m Huser H); rewrite El; set_solver|].
  intros [] w1 (p1 & s1 & Hturn & H1 & Hk1 & Ho1 & Ho2). set (s2 := s1 <| s_mons ::= _ |>) in *.
  assert (Hk2 : keys s2 = keys s1) by (unfold keys, s2; cbn; by rewrite observe_keys). rewrite <- Hk2 in Hk1.
  apply (repr_in _ _ _ _ H1) in Hk1 as [e He]. do 2 pstep. rewrite (next_after _ _ _ _ _ H1 He).
  eapply wp_mono; [apply (IH p1 w1 s2 k H1)|].
  - change (s_nextKey s2) with (s_nextKey s1). pose proof (so_below _ (r_ok _ _ _ H)) as Hl. rewrite Forall_forall in Hl.
    assert (Hk : k ∈ keys s) by (unfold keys; rewrite El, fmap_app; set_solver). specialize (Hl _ Hk). cbn in Hl. lia.
  - rewrite Hfil in Hf. cbn in Hf. apply Nat.le_lt_trans with (length r); [|lia].
    rewrite <- (length_fmap fst), <- (length_fmap fst r). apply submseteq_length, NoDup_submseteq.
    + eapply sublist_NoDup; [exact (repr_nodup _ _ _ H1)|]. unfold keys. apply fmap_sublist, sublist_filter.
    + intros j ([? mj] & -> & Hj)%list_elem_of_fmap. apply list_elem_of_filter in Hj as [Hlt Hj]. cbn.
      apply (list_elem_of_fmap_2 fst) in Hj. fold (keys s2) in Hj. rewrite Hk2 in Hj. apply list_elem_of_fmap in Hj as ([x mx] & Ex & Hx).
      cbn in Ex. subst n. apply Ho2 in Hx; [|lia]. rewrite <- Hr. change x with (fst (x, mx)). apply list_elem_of_fmap_2, list_elem_of_filter. by split; [lia|].
  - intros [] w' (p' & s' & Hs & H'). exists p', s'. split; [|done]. eapply sp_monitor; [done|]. cbv zeta. by split.
Qed.

Lemma pass_ok p w s : polite user -> repr p w s ->
  wp (pollTimerCallback uninitialised user) (fun b w' => b = true /\ exists p' s', spec_pass user (s_nextKey s) s s' /\ repr p' w' s') w.
Proof using Type*.
  intros Huser H. pose proof (r_poller _ _ _ H) as Hp. unfold pollTimerCallback. do 5 pstep. rewrite (next_suffix _ _ _ _ H (le_n _)).
  eapply wp_mono; [apply (pollFrom_ok Huser _ p w s _ H (le_n _))|].
  - pose proof (repr_size _ _ _ H). pose proof (sublist_length _ _ (sublist_filter (fun '(j, _) => j < s_nextKey s) (s_mons s))). lia.
  - intros [] w' Hw. pstep. by split.
Qed.

(** ** Everything that happens *)

(** The wheel takes note that the callback of registration [id] returned [b]. *)
Definition fireReturned (id : Z) (b : bool) : prog pollWorld unit :=
  modify (fun w => w <| loop ::= fun l => l <| lp_timer ::= fmap (tw_returned id b) |> |>).

(** Other users of the loop leave the handle's timer alone. *)
Definition others (l l' : loopyLoop K T) : Prop :=
  (forall i data, regs l' !! i = Some (pollTimerCallback_ptr, data) <-> regs l !! i = Some (pollTimerCallback_ptr, data)) /\
  (forall i data t, regs l !! i = Some (pollTimerCallback_ptr, data) -> lp_timer l = Some t ->
     exists t', lp_timer l' = Some t' /\ tw_period t' i = tw_period t i).

(** Results are [None] when a freed entry is accessed. *)
Inductive fs_step (w : pollWorld) : option pollWorld -> Prop :=
  | fs_new nn mallocOk config : poller w = None -> (forall c, config = Some c -> in64 (c_intervalMs c)) ->
      fs_step w (snd <$> loopyFSPollNew nn mallocOk config w)
  | fs_op op : is_Some (poller w) -> (forall ms, op = PSetInterval ms -> in64 ms) -> fs_step w (snd <$> run_op op w)
  | fs_fire id : regs (loop w) !! id = Some (pollTimerCallback_ptr, fsp_ptr) ->
      fs_step w (snd <$> (pollTimerCallback uninitialised user ≫= fireReturned id) w)
  | fs_files fs : fs_step w (Some (w <| files := fs |>))
  | fs_others l : others (loop w) l -> fs_step w (Some (w <| loop := l |>)).

Inductive fs_reach (w0 : pollWorld) : pollWorld -> Prop :=
  | fs_refl : fs_reach w0 w0
  | fs_trans w w' : fs_reach w0 w -> fs_step w (Some w') -> fs_reach w0 w'.

Definition poll_world0 (l : loopyLoop K T) (fs : string -> bool -> option stat) : pollWorld := PollWorld l fs None ∅ 0 [].
Definition no_poll_timers (l : loopyLoop K T) : Prop := forall i data, regs l !! i <> Some (pollTimerCallback_ptr, data).

(** [None]: there is no handle. *)
Inductive spec_step : option pollSpec -> option pollSpec -> Prop :=
  | ss_new config key fs cs : spec_step None (Some (spec_new config key fs cs))
  | ss_op ok op s : op <> PFree -> spec_step (Some s) (Some (spec_op ok op s))
  | ss_free s : spec_step (Some s) None
  | ss_pass s s' : s_armed s = true -> spec_pass user (s_nextKey s) s s' -> spec_step (Some s) (Some s')
  | ss_stay o : spec_step o o.

Definition represents (w : pollWorld) (o : option pollSpec) : Prop :=
  match o with
  | None => poller w = None /\ heap w = ∅ /\ forall j, timer_ok (loop w) 0 j
  | Some s => exists p, repr p w s
  end.

Lemma new_ok w nn mallocOk config : represents w None -> (forall c, config = Some c -> in64 (c_intervalMs c)) ->
  wp (loopyFSPollNew nn mallocOk config) (fun b w' => represents w' (if b then Some (spec_new config (nextAddress w) (files w) (calls w)) else None) /\
    b = nn && mallocOk) w.
Proof using Type*.
  intros (Hp & Hh & Ht) Hin. unfold loopyFSPollNew. destruct nn; cbn [negb]; [|by pstep]. destruct mallocOk; cbn [negb]; [|by pstep].
  destruct config as [[ms fol]|]; repeat pstep; (split; [|done]).
  - eexists. specialize (Hin _ eq_refl). unfold in64 in Hin. cbn in Hin.
    assert (Em : (if (ms <? 10)%Z then 10%Z else ms) = Z.max 10 ms) by (destruct (Z.ltb_spec ms 10); lia). cbn [c_intervalMs c_followSymlinks]. rewrite Em.
    split; cbn; try done; [intros a m; rewrite Hh, lookup_empty; split; [by intros ?%elem_of_nil|done]|].
    split; cbn; try done; try (by repeat constructor). unfold w64 in *; lia.
  - eexists. split; cbn; try done; [intros a m; rewrite Hh, lookup_empty; split; [by intros ?%elem_of_nil|done]|].
    split; cbn; try done; by repeat constructor.
Qed.

Lemma timer_ok_ext l l' id i : others l l' -> timer_ok l id i -> timer_ok l' id i.
Proof using Type*.
  intros [H1 H2] [Hr Hw]. split.
  - intros j data. by rewrite H1, Hr.
  - intros Hid. destruct (Hw Hid) as (t & Ht & Hp). destruct (H2 id fsp_ptr t) as (t' & Ht' & Hp'); [by apply Hr|done|].
    exists t'. by rewrite Hp'.
Qed.

Lemma others_represents w o l : represents w o -> others (loop w) l -> represents (w <| loop := l |>) o.
Proof using Type*.
  intros H Ho. destruct o as [s|]; cbn in *.
  - destruct H as [p H]. exists p. destruct H. split; try done. by eapply timer_ok_ext.
  - destruct H as (Hp & Hh & Ht). split_and!; [done|done|]. intros j. by eapply timer_ok_ext.
Qed.

Lemma returned_others l id : others l (l <| lp_timer ::= fmap (tw_returned id true) |>).
Proof using Type*.
  unfold others, regs. destruct (lp_timer l) as [t|] eqn:Et; cbn; rewrite Et; cbn; [|done].
  destruct (fw_returned id true t) as [E _]. rewrite E. split; [done|]. intros i data t' _ [= <-]. eexists. split; [done|].
  apply pw_returned. by right.
Qed.

(** ** Simulation *)

Lemma represents_armed w s p id : repr p w s -> regs (loop w) !! id = Some (pollTimerCallback_ptr, fsp_ptr) -> s_armed s = true.
Proof using Type*.
  intros H Hr. apply (to_regs _ _ _ (r_timer _ _ _ H)) in Hr as (-> & Hid & _). rewrite (r_armed _ _ _ H).
  by destruct (Z.eqb_spec (p_timerId p) 0).
Qed.

Lemma fs_simulation w o r : polite user -> represents w o -> fs_step w r ->
  exists w' o', r = Some w' /\ spec_step o o' /\ represents w' o'.
Proof using Type*.
  intros Huser H Hs. destruct Hs as [nn mallocOk config Hp Hin|op Hp Hin|id Hid|fs|l Hl].
  - destruct o as [s|]; [destruct H as [p H]; pose proof (r_poller _ _ _ H); congruence|].
    destruct (wp_run _ _ _ (new_ok _ nn mallocOk config H Hin)) as (b & w' & -> & Hw & _). exists w'. eexists. split; [done|]. split; [|exact Hw].
    destruct b; constructor.
  - destruct o as [s|]; [destruct H as [p H]|destruct H as [E _]; rewrite E in Hp; by destruct Hp].
    assert (op = PFree \/ op <> PFree) as [-> |Hop] by (destruct op; first [by left|by right]).
    + destruct (wp_run _ _ _ (fspollFree_ok _ _ _ H)) as (b & w' & E & Hw). exists w', None. cbn [run_op]. rewrite E. split; [done|]. split; [constructor|done].
    + destruct (wp_run _ _ _ (run_poll_op_ok _ _ _ op H Hin Hop)) as (b & w' & -> & ok & p' & Hw). exists w'. eexists. split; [done|].
      split; [by apply (ss_op ok op)|by exists p'].
  - destruct o as [s|].
    + destruct H as [p H]. pose proof (represents_armed _ _ _ _ H Hid) as Ha.
      destruct (wp_run _ _ _ (pass_ok _ _ _ Huser H)) as (b & w' & E & -> & p' & s' & Hs & H').
      exists (w' <| loop ::= fun l => l <| lp_timer ::= fmap (tw_returned id true) |> |>), (Some s').
      unfold mbind, prog_bind. rewrite E. split; [done|]. split; [by constructor|].
      apply (others_represents w' (Some s')); [by exists p'|apply returned_others].
    + destruct H as (_ & _ & Ht). by apply (to_regs _ _ _ (Ht 0%Z)) in Hid as (_ & ? & _).
  - exists (w <| files := fs |>). destruct o as [s|]; [|exists None; split_and!; [done|constructor|done]].
    destruct H as [p H]. eexists. split; [done|]. split; [by apply (ss_op true (PFiles fs))|].
    exists p. pose proof (spec_op_ok true (PFiles fs) s ltac:(done) (r_ok _ _ _ H)). by destruct H.
  - exists (w <| loop := l |>), o. split; [done|]. split; [constructor|]. by apply others_represents.
Qed.

Lemma world0_represents l fs : no_poll_timers l -> represents (poll_world0 l fs) None.
Proof using Type*.
  intros Hl. split_and!; [done|done|]. intros j. split; [|done]. intros i data. cbn. split; [by intros ?%Hl|naive_solver].
Qed.

Lemma fs_reach_represents l fs w : polite user -> no_poll_timers l -> fs_reach (poll_world0 l fs) w ->
  exists o, rtc spec_step None o /\ represents w o.
Proof using Type*.
  intros Huser Hl. induction 1 as [|w w' Hr (o & Hs & Ho) Hw].
  - exists None. split; [done|]. by apply world0_represents.
  - destruct (fs_simulation _ _ _ Huser Ho Hw) as (w1 & o1 & [= <-] & Hs1 & Ho1). exists o1. split; [by eapply rtc_r|done].
Qed.

(** C23. Whatever calls are made, also from callbacks that do not remove the entry they
    are called for, whatever the wheel answers and however files change, no
    freed entry is used, and every call and every run of the timer does what the
    specification on lists of monitors says: each monitor alive at its turn is compared
    once with its file and reports the changes it asked for. *)
Theorem fspoll_refines l fs w : polite user -> no_poll_timers l -> fs_reach (poll_world0 l fs) w ->
  exists o, rtc spec_step None o /\ represents w o /\
    forall r, fs_step w r -> exists w' o', r = Some w' /\ spec_step o o' /\ represents w' o'.
Proof using Type*.
  intros Huser Hl Hr. destruct (fs_reach_represents _ _ _ Huser Hl Hr) as (o & Hs & Ho). exists o. split_and!; [done|done|].
  intros r Hw. by eapply fs_simulation.
Qed.

(** C24. The structures are always well formed: the list has no cycle and
    reaches every entry that is allocated; callbacks and event sets are there; the
    timer is registered once and only while there are entries, and ids are
    unique until their counter has gone through 64 bits; without a handle nothing is
    allocated or registered. *)
Theorem fspoll_well_formed l fs w : polite user -> no_poll_timers l -> fs_reach (poll_world0 l fs) w ->
  match poller w with
  | None => heap w = ∅ /\ no_poll_timers (loop w)
  | Some p =>
      (exists es, chain e_next (heap w) (p_entries p) es /\ NoDup es /\ dom (heap w) = list_to_set es /\ (p_timerId p <> 0%Z -> es <> [])) /\
      map_Forall (fun _ e => e_cb e <> 0%Z /\ e_events e <> LOOPY_FSPOLL_NONE) (heap w) /\
      (forall i data, regs (loop w) !! i = Some (pollTimerCallback_ptr, data) <-> i = p_timerId p /\ p_timerId p <> 0%Z /\ data = fsp_ptr) /\
      exists started, p_nextId p = u64 (1 + started) /\ ((started < w64 - 1)%Z ->
        forall a b e e', heap w !! a = Some e -> heap w !! b = Some e' -> e_id e = e_id e' -> a = b)
  end.
Proof using Type*.
  intros Huser Hl Hr. destruct (fs_reach_represents _ _ _ Huser Hl Hr) as ([s|] & _ & Ho).
  2:{ destruct Ho as (Hp & Hh & Ht). rewrite Hp. split; [done|]. intros i data Hi. by apply (to_regs _ _ _ (Ht 0%Z)) in Hi as (_ & ? & _). }
  destruct Ho as [p H]. rewrite (r_poller _ _ _ H). split_and!.
  - exists (keys s). split_and!; [apply H|by eapply repr_nodup| |].
    + apply set_eq. intros a. by rewrite elem_of_dom, elem_of_list_to_set, (repr_in _ _ _ _ H).
    + intros Hid. assert (Ha : s_armed s = true) by (rewrite (r_armed _ _ _ H); by destruct (Z.eqb_spec (p_timerId p) 0)).
      pose proof (so_armed _ (r_ok _ _ _ H) Ha) as Hne. unfold keys. by destruct (s_mons s).
  - intros a e He. pose proof (so_callbacks _ (r_ok _ _ _ H)) as Hc. rewrite Forall_forall in Hc.
    apply (Hc (a, of_entry e)). apply (r_mons _ _ _ H). by rewrite He.
  - apply H.
  - exists (s_started s). split; [apply H|]. intros Hb a b e e' He He' Hid.
    destruct (so_ids _ (r_ok _ _ _ H) Hb) as [Hnd _].
    assert (Ha : (a, of_entry e) ∈ s_mons s) by (apply (r_mons _ _ _ H); by rewrite He).
    assert (Hb' : (b, of_entry e') ∈ s_mons s) by (apply (r_mons _ _ _ H); by rewrite He').
    apply list_elem_of_lookup in Ha as [i Hi], Hb' as [j Hj].
    assert (i = j) as <-; [|congruence].
    apply (NoDup_lookup _ _ _ (e_id e) Hnd); rewrite list_lookup_fmap, ?Hi, ?Hj; cbn; congruence.
Qed.

(** C25. While the timer runs, its period is the interval in microseconds, reduced
    to 64 bits; the interval is at least 10 ms whatever was asked for, so that up to
    18446744073709551 ms the period is exact and at least 10000 us. *)
Theorem fspoll_period l fs w p : polite user -> no_poll_timers l -> fs_reach (poll_world0 l fs) w ->
  poller w = Some p -> p_timerId p <> 0%Z ->
  exists us t, lp_timer (loop w) = Some t /\ tw_period t (p_timerId p) = Some (us, us) /\
    us = (p_intervalMs p *64 1000) /\ (10 <= p_intervalMs p < 2 ^ 64)%Z /\ (0 <= us < 2 ^ 64)%Z /\
    ((p_intervalMs p <= 18446744073709551)%Z -> us = (1000 * p_intervalMs p)%Z /\ (10000 <= us)%Z).
Proof using Type*.
  intros Huser Hl Hr Hp Hid. destruct (fs_reach_represents _ _ _ Huser Hl Hr) as ([s|] & _ & Ho); [|destruct Ho; congruence].
  destruct Ho as [p' H]. assert (p' = p) as -> by (pose proof (r_poller _ _ _ H); congruence).
  destruct (to_wheel _ _ _ (r_timer _ _ _ H) Hid) as (t & Ht & Hper). pose proof (so_interval _ (r_ok _ _ _ H)) as Hi.
  rewrite <- (r_interval _ _ _ H) in Hi. exists (p_intervalMs p *64 1000), t.
  pose proof (u64_range (p_intervalMs p * 1000)) as Hu. unfold in64, w64 in *. split_and!; try done; try lia.
  intros Hs. assert (E : u64 (p_intervalMs p * 1000) = (1000 * p_intervalMs p)%Z) by (rewrite u64_small; [lia|unfold in64, w64; lia]).
  rewrite E. lia.
Qed.
End Refinement.

(** What is reported for a file: a set of the seven change bits; created and
    deleted alone, and only then; for a file that stays, exactly the bits of the
    attributes that differ, and nothing if none does. *)
Theorem fspoll_detects e (u : stat) (now : observation) :
  let d := detectChanges e (default u now) (bool_decide (is_Some now)) in
  (0 <= d <= LOOPY_FSPOLL_ALL)%Z /\
  (d = LOOPY_FSPOLL_CREATED <-> e_exists e = false /\ is_Some now) /\
  (d = LOOPY_FSPOLL_DELETED <-> e_exists e = true /\ now = None) /\
  match now with
  | Some n =>
      if e_exists e then
        Forall (fun '(b, m) => negb (Z.land d m =? 0)%Z = b) (differences (e_prevStat e) n) /\
        (d = LOOPY_FSPOLL_NONE <-> Forall (fun '(b, _) => b = false) (differences (e_prevStat e) n))
      else d = LOOPY_FSPOLL_CREATED
  | None => d = if e_exists e then LOOPY_FSPOLL_DELETED else LOOPY_FSPOLL_NONE
  end.
Proof.
  cbv zeta. rewrite detect_changes. destruct (changes_spec (observed e) now) as (H1 & H2 & H3 & H4). split_and!.
  - apply H1.
  - apply H1.
  - rewrite H2. unfold observed. destruct (e_exists e), now; naive_solver.
  - rewrite H3. unfold observed. destruct (e_exists e); naive_solver.
  - unfold observed in *. destruct now as [n|], (e_exists e); try done. by apply H4.
Qed.

(** ** Where the code goes wrong *)

(** Seconds are compared only: a change within the second of the last poll that keeps
    the size is never reported, nor is another file moved into place with the
    same times and size. *)
Lemma fspoll_subsecond_missed o nsec ino links :
  changes (Some o) (Some (Stat (st_mtime o) (st_size o) (st_mode o) (st_uid o) (st_gid o) nsec ino links)) = LOOPY_FSPOLL_NONE.
Proof. destruct (changes_spec (Some o) (Some (Stat (st_mtime o) (st_size o) (st_mode o) (st_uid o) (st_gid o) nsec ino links))) as (_ & _ & _ & H).
  apply (proj2 (H _ _ eq_refl eq_refl)). unfold differences. cbn. repeat constructor; by apply bool_decide_eq_false; intros []. Qed.

(** A long interval wraps around to the period 0, which for the wheel is a
    timer that fires once, at once. *)
Lemma fspoll_interval_wraps : (2 ^ 61 *64 1000) = 0%Z.
Proof. done. Qed.

(** Where the wheel refuses the new registration, the monitors stay and are not
    polled any more. *)
Lemma fspoll_timer_lost ms s : s_armed s = true -> s_mons (spec_op false (PSetInterval ms) s) = s_mons s /\ s_armed (spec_op false (PSetInterval ms) s) = false.
Proof. intros H. cbn. by rewrite H. Qed.

(** ** A wheel and a run *)

Record timed_wheel := TimedWheel { tm_ids : gset Z; tm_map : gmap Z (Z * Z * (Z * Z)) }.

#[export] Instance timed_timer_wheel : TimerWheel timed_wheel := {
  tw_new := TimedWheel ∅ ∅;
  tw_register start repeat cb data t :=
    let id := fresh ({[0%Z]} ∪ tm_ids t) in (TimedWheel ({[id]} ∪ tm_ids t) (<[id := (start, repeat, (cb, data))]> (tm_map t)), id);
  tw_unregister id t := (TimedWheel (tm_ids t) (delete id (tm_map t)), bool_decide (is_Some (tm_map t !! id)));
  tw_next _ := 0%Z;
  tw_process _ t := (t, [])
}.

#[export] Instance timed_firing_wheel : FiringWheel timed_wheel.
Proof.
  refine {| tw_map t := snd <$> tm_map t; tw_ids := tm_ids;
            tw_returned id b t := TimedWheel (tm_ids t) (if b then tm_map t else delete id (tm_map t)) |}; try done.
  - intros start repeat cb data t. cbn. set (id := fresh _).
    assert (Hid : id ∉ {[0%Z]} ∪ tm_ids t) by apply is_fresh. clearbody id. rewrite fmap_insert. split; [set_solver|right]. set_solver.
  - intros id t. cbn. by rewrite fmap_delete.
  - intros id b t. cbn. by destruct b; rewrite ?fmap_delete.
Defined.

#[export] Instance timed_period_wheel : PeriodWheel timed_wheel.
Proof.
  refine {| tw_period t id := fst <$> tm_map t !! id |}.
  - intros start repeat cb data t id. cbn. set (i := fresh _). assert (Hi : i ∉ {[0%Z]} ∪ tm_ids t) by apply is_fresh. clearbody i.
    case_bool_decide as E; [destruct E as [_ ->]; by rewrite lookup_insert_eq|].
    destruct (decide (id = i)) as [-> |Hne]; [|by rewrite lookup_insert_ne]. exfalso. apply E. split; [|done]. intros ->. set_solver.
  - intros id t x Hx. cbn. by rewrite lookup_delete_ne.
  - intros id b t x [Hx| ->]; cbn; [|done]. destruct b; [done|]. by rewrite lookup_delete_ne.
Defined.

Definition poll_loop : loopyLoop unit timed_wheel :=
  Loop None [] (MaxHeapS [] [] 0 0 0 true) None None None None 0 4 (-1) 0 false false false true false.

Definition file1 : stat := Stat 100 5 33188 0 0 1 7 1.
Definition file2 : stat := Stat 160 9 33188 0 0 2 7 1.
Definition files1 (path : string) (follow : bool) : option stat := if (path =? "a")%string then Some file1 else None.
Definition files2 (path : string) (follow : bool) : option stat := if (path =? "a")%string then Some file2 else None.

(** The first callback starts to watch another file and slows the timer down. *)
Definition poll_user (h : list loopyFSPollInfo) : list poll_op :=
  match h with [_] => [PStart (true, true) "b" LOOPY_FSPOLL_CREATED 8 0; PSetInterval 50] | _ => [] end.

Definition poll_start : @pollWorld unit timed_wheel := poll_world0 poll_loop files1.
Definition poll_new : option pollWorld := snd <$> loopyFSPollNew true true (Some (Config 3 true)) poll_start.
Definition poll_opened : option pollWorld := w ← poll_new; snd <$> run_op (PStart (true, true) "a" 127 7 0) w.
Definition poll_changed : option pollWorld := w ← poll_opened; Some (w <| files := files2 |>).
Definition poll_ran : option pollWorld :=
  w ← poll_changed; snd <$> (pollTimerCallback zero_stat poll_user ≫= fireReturned 1) w.

(** A callback that stops its own entry: the walk goes on from freed memory. *)
Lemma fspoll_stop_in_callback_unsafe :
  exists w, poll_changed = Some w /\ pollTimerCallback zero_stat (fun _ => [PStop 1]) w = None.
Proof. destruct poll_changed as [w|] eqn:E; [|by vm_compute in E]. exists w. split; [done|]. evaluate E. injection E as <-. by vm_compute. Qed.

Lemma poll_user_polite : polite poll_user.
Proof. intros i [|j h]; cbn; repeat constructor; cbn; unfold in64; by vm_compute. Qed.

Lemma poll_no_timers : no_poll_timers poll_loop.
Proof. intros i data E. discriminate. Qed.

Notation poll_reach := (fs_reach zero_stat poll_user poll_start).

Lemma reach_then (o : option pollWorld) (g : pollWorld -> option pollWorld) w' :
  (forall w, o = Some w -> poll_reach w /\ fs_step zero_stat poll_user w (g w)) -> (o ≫= g) = Some w' -> poll_reach w'.
Proof.
  intros H E. destruct o as [w|]; [|done]. destruct (H w eq_refl) as [Hr Hs]. eapply fs_trans; [exact Hr|].
  change (g w = Some w') in E. by rewrite <- E.
Qed.

Lemma poll_changed_reached w : poll_changed = Some w -> poll_reach w.
Proof.
  apply reach_then. intros w1 E1. split; [|constructor]. revert E1. apply reach_then. intros w2 E2. split.
  - unfold poll_new in E2. eapply fs_trans; [apply fs_refl|]. rewrite <- E2. apply fs_new; [done|]. intros c [= <-]. done.
  - apply fs_op; [|done]. evaluate E2. injection E2 as <-. by eexists.
Qed.

Lemma poll_ran_reached w : poll_ran = Some w -> poll_reach w.
Proof.
  apply reach_then. intros w1 E1. split; [by apply poll_changed_reached|]. apply fs_fire. evaluate E1. injection E1 as <-. by vm_compute.
Qed.

(** The change of "a" is reported once, the callback's monitor is waiting. *)
Lemma fspoll_refines_witness : exists w w' o, poll_changed = Some w /\ represents w o /\ poll_ran = Some w' /\
  (i_events <$> calls w') = [Z.lor LOOPY_FSPOLL_MODIFIED LOOPY_FSPOLL_SIZE] /\ size (heap w') = 2.
Proof.
  destruct poll_changed as [w|] eqn:E; [|by vm_compute in E].
  destruct (fspoll_refines zero_stat poll_user poll_loop files1 w poll_user_polite poll_no_timers (poll_changed_reached w E)) as (o & _ & Ho & _).
  destruct poll_ran as [w'|] eqn:E'; [|by vm_compute in E']. exists w, w', o. evaluate E'. injection E' as <-. by split_and!.
Defined.

Lemma fspoll_well_formed_witness : exists w p, poll_ran = Some w /\ poller w = Some p /\
  exists es, chain e_next (heap w) (p_entries p) es /\ dom (heap w) = list_to_set es /\ length es = 2.
Proof.
  destruct poll_ran as [w|] eqn:E; [|by vm_compute in E].
  pose proof (fspoll_well_formed zero_stat poll_user poll_loop files1 w poll_user_polite poll_no_timers (poll_ran_reached w E)) as H.
  destruct (poller w) as [p|] eqn:Ep; [|exfalso; evaluate E; injection E as <-; by vm_compute in Ep].
  destruct H as ((es & Hc & Hnd & Hd & _) & _). exists w, p. split; [done|]. split; [done|]. exists es. split_and!; [done|done|].
  rewrite <- (size_list_to_set (C := gset nat) es Hnd), <- Hd. evaluate E; injection E as <-. by vm_compute.
Defined.

(** The interval that the callback set. *)
Lemma fspoll_period_witness : exists w p t, poll_ran = Some w /\ poller w = Some p /\
  lp_timer (loop w) = Some t /\ tw_period t (p_timerId p) = Some (50000, 50000)%Z.
Proof.
  destruct poll_ran as [w|] eqn:E; [|by vm_compute in E].
  destruct (poller w) as [p|] eqn:Ep; [|exfalso; evaluate E; injection E as <-; by vm_compute in Ep].
  assert (Hid : p_timerId p <> 0%Z) by (evaluate E; injection E as <-; vm_compute in Ep; by injection Ep as <-).
  destruct (fspoll_period zero_stat poll_user poll_loop files1 w p poll_user_polite poll_no_timers (poll_ran_reached w E) Ep Hid)
    as (us & t & Ht & Hper & _ & _ & _ & Hus).
  exists w, p, t. split_and!; [done|done|done|]. assert (Hi : p_intervalMs p = 50%Z) by (evaluate E; injection E as <-; vm_compute in Ep; by injection Ep as <-).
  rewrite Hi in Hus. destruct (Hus ltac:(lia)) as [-> _]. exact Hper.
Defined.
