(* ===== verification/OtherAdapters.v ===== *)
(** * The kqueue and event-port adapters ([src/loopyAdapterBSD.c], [src/loopyAdapterSolaris.c])

    The two adapters that the Linux build leaves out, over their kernels' calls as
    documented ([KqueueKernel], [PortKernel]).  They promise less than the class
    [Adapter] asks for, and are no instances of it: a kqueue keeps the write filter
    when both are deleted and only it was there, and half of a change that failed
    ([kqueue_changes] is the exact effect); the event port takes a deletion for
    none, unless its descriptor was just reported ([evport_del]), because it reads
    the table before [loopy.c] updates it.  Polling keeps the port's interest
    ([evport_poll]). *)

From S2P Require Import Prelude Adapter.

Local Open Scope Z_scope.

Ltac masks :=
  change (isRead 0) with false in *; change (isRead 1) with true in *; change (isRead 2) with false in *; change (isRead 3) with true in *;
  change (isWrite 0) with false in *; change (isWrite 1) with false in *; change (isWrite 2) with true in *; change (isWrite 3) with true in *.

(** ** kqueue *)

Module Kqueue.

Inductive filter := EVFILT_READ | EVFILT_WRITE.
Inductive flag := EV_ADD | EV_DELETE.

#[export] Instance filter_eq : EqDecision filter.
Proof. solve_decision. Defined.

(** [struct kevent] as a change; the other fields are 0. *)
Record kevent := EvSet { ident : Z; kfilter : filter; kflags : flag }.

(** The filters of a kqueue.  One change either is applied or fails and changes
    nothing; what is there can be added again and deleted, what is not there
    cannot be deleted. *)
Class KqueueKernel (Q : Type) := {
  kq_new : Q;
  kq_has : Q -> Z -> filter -> bool;
  kq_apply : kevent -> Q -> Q * bool;
  kq_new_empty fd fi : kq_has kq_new fd fi = false;
  kq_apply_fail c q fd fi : snd (kq_apply c q) = false -> kq_has (fst (kq_apply c q)) fd fi = kq_has q fd fi;
  kq_apply_ok c q fd fi : snd (kq_apply c q) = true ->
    kq_has (fst (kq_apply c q)) fd fi =
      if bool_decide (fd = ident c /\ fi = kfilter c) then (match kflags c with EV_ADD => true | EV_DELETE => false end) else kq_has q fd fi;
  kq_delete c q : kflags c = EV_DELETE -> snd (kq_apply c q) = kq_has q (ident c) (kfilter c)
}.

Section Kqueue.
Context {Q : Type} `{!KqueueKernel Q}.

(** [kevent(kqfd, changes, nchanges, NULL, 0, NULL)]: without room to report an
    error in, the first change that fails ends the call, with -1. *)
Fixpoint kevent_changes (changes : list kevent) (q : Q) : Q * Z :=
  match changes with
  | [] => (q, 0)
  | c :: changes => let '(q, ok) := kq_apply c q in if ok then kevent_changes changes q else (q, -1)
  end.

(** [sysOk]: the allocations succeed; [kqueue()] does. *)
Definition kqNew (sysOk : bool * bool * bool) : option Q :=
  let '(mallocState, mallocEvents, kqueueOk) := sysOk in
  if negb mallocState then None else if negb mallocEvents then None else if negb kqueueOk then None else Some kq_new.

Definition kqAddEvent (fd mask : Z) (q : Q) : Q * bool :=
  let changes := (if isRead mask then [EvSet fd EVFILT_READ EV_ADD] else []) ++ (if isWrite mask then [EvSet fd EVFILT_WRITE EV_ADD] else []) in
  if (0 <? Z.of_nat (length changes)) then
    let '(q, r) := kevent_changes changes q in if r =? -1 then (q, false) else (q, true)
  else (q, true).

Definition kqDelEvent (fd mask : Z) (q : Q) : Q :=
  let changes := (if isRead mask then [EvSet fd EVFILT_READ EV_DELETE] else []) ++ (if isWrite mask then [EvSet fd EVFILT_WRITE EV_DELETE] else []) in
  if (0 <? Z.of_nat (length changes)) then fst (kevent_changes changes q) else q.

(** The answer is the array that [kevent] filled; a negative result (an interrupted
    call) is passed on. *)
Definition kqPoll (setSize : Z) (answer : Z + list (Z * filter)) : option (Z * list (Z * Z)) :=
  match answer with
  | inl numevents => if numevents <=? setSize then Some (numevents, []) else None
  | inr events =>
      if Z.of_nat (length events) <=? setSize then
        Some (Z.of_nat (length events), (fun '(fd, fi) => (fd, match fi with EVFILT_READ => LOOPY_ACTION_READ | EVFILT_WRITE => LOOPY_ACTION_WRITE end)) <$> events)
      else None
  end.

Definition kqInterest (q : Q) (fd : Z) : Z :=
  Z.lor (if kq_has q fd EVFILT_READ then LOOPY_ACTION_READ else 0) (if kq_has q fd EVFILT_WRITE then LOOPY_ACTION_WRITE else 0).

Lemma kqInterest_ok q fd : mask_ok (kqInterest q fd).
Proof. unfold kqInterest, mask_ok. destruct (kq_has _ _ _), (kq_has _ _ _); vm_compute; by split. Qed.

(** The effect of one change on the interest. *)
Lemma kq_apply_interest c q x :
  kqInterest (fst (kq_apply c q)) x =
    if snd (kq_apply c q) && (x =? ident c) then
      match kflags c, kfilter c with
      | EV_ADD, EVFILT_READ => Z.lor (kqInterest q x) 1
      | EV_ADD, EVFILT_WRITE => Z.lor (kqInterest q x) 2
      | EV_DELETE, EVFILT_READ => Z.ldiff (kqInterest q x) 1
      | EV_DELETE, EVFILT_WRITE => Z.ldiff (kqInterest q x) 2
      end
    else kqInterest q x.
Proof.
  destruct (snd (kq_apply c q)) eqn:E; cbn [andb]; [|unfold kqInterest; by rewrite !kq_apply_fail].
  unfold kqInterest. rewrite !(kq_apply_ok _ _ _ _ E). destruct c as [fd fi fl]. cbn [ident kfilter kflags].
  destruct (Z.eqb_spec x fd) as [-> |Hne].
  - destruct fi, fl; repeat case_bool_decide; try naive_solver;
      by destruct (kq_has q fd EVFILT_READ), (kq_has q fd EVFILT_WRITE).
  - by rewrite !bool_decide_false by (by intros [??]).
Qed.

(** A deletion leaves the interest as it is where there is nothing to delete. *)
Lemma kq_delete_interest fd fi q x :
  let b := match fi with EVFILT_READ => 1 | EVFILT_WRITE => 2 end in
  kqInterest (fst (kq_apply (EvSet fd fi EV_DELETE) q)) x = (if x =? fd then Z.ldiff (kqInterest q x) b else kqInterest q x) /\
  snd (kq_apply (EvSet fd fi EV_DELETE) q) = negb (Z.land (kqInterest q fd) b =? 0).
Proof.
  cbv zeta. rewrite kq_apply_interest, kq_delete by done. cbn [ident kfilter kflags]. unfold kqInterest. split.
  - destruct (Z.eqb_spec x fd) as [-> |]; [|by rewrite andb_false_r].
    by destruct fi, (kq_has q fd EVFILT_READ), (kq_has q fd EVFILT_WRITE).
  - by destruct fi, (kq_has q fd EVFILT_READ), (kq_has q fd EVFILT_WRITE).
Qed.

Lemma kqAddEvent_interest fd m (q : Q) : mask_ok m ->
  let '(q', ok) := kqAddEvent fd m q in
  (forall x, x <> fd -> kqInterest q' x = kqInterest q x) /\
  (if ok then kqInterest q' fd = Z.lor (kqInterest q fd) m
   else kqInterest q' fd = kqInterest q fd \/ (m = LOOPY_ACTION_ALL /\ kqInterest q' fd = Z.lor (kqInterest q fd) LOOPY_ACTION_READ)).
Proof.
  intros Hm. pose proof (kqInterest_ok q fd) as Hi.
  unfold kqAddEvent. mask_destruct; masks; cbn -[kqInterest Z.lor]; rewrite ?Z.lor_0_r; try done.
  + pose proof (kq_apply_interest (EvSet fd EVFILT_READ EV_ADD) q) as H1.
    destruct (kq_apply _ q) as [q1 [|]]; cbn -[kqInterest Z.lor] in *; (split; [intros x Hx; rewrite H1|rewrite H1]); rewrite ?(proj2 (Z.eqb_neq _ _) Hx), ?Z.eqb_refl; auto.
  + pose proof (kq_apply_interest (EvSet fd EVFILT_WRITE EV_ADD) q) as H1.
    destruct (kq_apply _ q) as [q1 [|]]; cbn -[kqInterest Z.lor] in *; (split; [intros x Hx; rewrite H1|rewrite H1]); rewrite ?(proj2 (Z.eqb_neq _ _) Hx), ?Z.eqb_refl; auto.
  + pose proof (kq_apply_interest (EvSet fd EVFILT_READ EV_ADD) q) as H1.
    destruct (kq_apply _ q) as [q1 [|]]; cbn -[kqInterest Z.lor] in *.
    * pose proof (kq_apply_interest (EvSet fd EVFILT_WRITE EV_ADD) q1) as H2.
      destruct (kq_apply _ q1) as [q2 [|]]; cbn -[kqInterest Z.lor] in *;
        (split; [intros x Hx; rewrite H2, H1|rewrite H2, H1]); rewrite ?(proj2 (Z.eqb_neq _ _) Hx), ?Z.eqb_refl; auto.
      by rewrite <- Z.lor_assoc.
    * split; [intros x _; by rewrite H1|rewrite H1; by left].
Qed.

Lemma kqDelEvent_interest fd m (q : Q) x : mask_ok m ->
  kqInterest (kqDelEvent fd m q) x =
    if (x =? fd) && negb (isRead m && negb (isRead (kqInterest q fd))) then Z.ldiff (kqInterest q x) m else kqInterest q x.
Proof.
  intros Hm. pose proof (kqInterest_ok q fd) as Hi.
  pose proof (kq_delete_interest fd EVFILT_READ) as HR. pose proof (kq_delete_interest fd EVFILT_WRITE) as HW.
  cbv zeta in HR, HW. unfold kqDelEvent. mask_destruct; masks; cbn -[kqInterest Z.ldiff Z.land isRead]; change (0 <? Z.of_nat 1) with true; change (0 <? Z.of_nat 2) with true; cbv iota.
  + rewrite Z.ldiff_0_r. by destruct (x =? fd).
  + destruct (HR q x) as [E1 E2]. destruct (kq_apply _ q) as [q1 ok]. cbn -[kqInterest] in *. replace (fst (if ok then (q1, 0) else (q1, -1))) with q1 by by destruct ok.
    rewrite E1. destruct (Z.eqb_spec x fd) as [-> |]; [|done]. cbn [andb]. clear -Hi.
    destruct (mask_cases _ Hi) as [-> |[-> |[-> | ->]]]; done.
  + destruct (HW q x) as [E1 E2]. destruct (kq_apply _ q) as [q1 ok]. cbn -[kqInterest] in *. replace (fst (if ok then (q1, 0) else (q1, -1))) with q1 by by destruct ok.
    rewrite E1. by destruct (x =? fd).
  + destruct (HR q x) as [E1 E2]. destruct (kq_apply _ q) as [q1 ok]. cbn -[kqInterest Z.ldiff Z.land isRead] in *. subst ok. destruct (HW q1 x) as [F1 _].
    destruct (negb _) eqn:Eb.
    * destruct (kq_apply _ q1) as [q2 ok2]. cbn -[kqInterest Z.ldiff Z.land isRead] in *. replace (fst (if ok2 then (q2, 0) else (q2, -1))) with q2 by by destruct ok2.
      rewrite F1, E1. destruct (Z.eqb_spec x fd) as [-> |]; [|done]. cbn [andb]. revert Eb. clear -Hi.
      destruct (mask_cases _ Hi) as [-> |[-> |[-> | ->]]]; done.
    * cbn [fst]. rewrite E1. destruct (Z.eqb_spec x fd) as [-> |]; [|done]. cbn [andb]. revert Eb. clear -Hi.
      destruct (mask_cases _ Hi) as [-> |[-> |[-> | ->]]]; done.
Qed.

(** C26. What adding and deleting do to the filters.  A registration that succeeds adds
    what was asked for; one that fails may still have added the read filter.
    Deleting takes away what was asked for, unless the read filter was to be
    deleted and not there: then nothing happens, also to the write filter.  Other
    descriptors are unaffected. *)
Theorem kqueue_changes fd m (q : Q) : mask_ok m ->
  (let '(q', ok) := kqAddEvent fd m q in
   (forall x, x <> fd -> kqInterest q' x = kqInterest q x) /\
   (if ok then kqInterest q' fd = Z.lor (kqInterest q fd) m
    else kqInterest q' fd = kqInterest q fd \/ (m = LOOPY_ACTION_ALL /\ kqInterest q' fd = Z.lor (kqInterest q fd) LOOPY_ACTION_READ))) /\
  (forall x, kqInterest (kqDelEvent fd m q) x =
     if (x =? fd) && negb (isRead m && negb (isRead (kqInterest q fd))) then Z.ldiff (kqInterest q x) m else kqInterest q x).
Proof. intros Hm. split; [by apply kqAddEvent_interest|]. intros x. by apply kqDelEvent_interest. Qed.

(** [loopyUnregisterReadWrite] on a descriptor registered for writing only. *)
Lemma kqueue_unregister_keeps_write fd (q : Q) :
  kqInterest q fd = LOOPY_ACTION_WRITE -> kqInterest (kqDelEvent fd LOOPY_ACTION_ALL q) fd = LOOPY_ACTION_WRITE.
Proof. intros Hq. rewrite kqDelEvent_interest by done. by rewrite Hq, Z.eqb_refl. Qed.
End Kqueue.

(** A kqueue whose changes fail only when they delete what is not there. *)
#[export] Instance all_kqueue : KqueueKernel (Z -> filter -> bool).
Proof.
  refine {| kq_new _ _ := false; kq_has q := q;
            kq_apply c q := let set b fd fi := if bool_decide (fd = ident c /\ fi = kfilter c) then b else q fd fi in
              match kflags c with EV_ADD => (set true, true) | EV_DELETE => if q (ident c) (kfilter c) then (set false, true) else (q, false) end |}.
  - done.
  - intros [fd' fi' []] q fd fi; cbn; [done|]. by destruct (q fd' fi').
  - intros [fd' fi' []] q fd fi; cbn; [done|]. by destruct (q fd' fi').
  - intros [fd fi fl] q. cbn. intros ->. by destruct (q fd fi).
Defined.

Lemma kqueue_changes_witness :
  let q : Z -> filter -> bool := fst (kqAddEvent 5 LOOPY_ACTION_WRITE kq_new) in
  kqInterest q 5 = LOOPY_ACTION_WRITE /\ kqInterest (kqDelEvent 5 LOOPY_ACTION_ALL q) 5 = LOOPY_ACTION_WRITE /\
  kqInterest (kqDelEvent 5 LOOPY_ACTION_WRITE q) 5 = LOOPY_ACTION_NONE.
Proof.
  cbv zeta. set (q := fst (kqAddEvent 5 LOOPY_ACTION_WRITE kq_new)).
  assert (Eq : kqInterest q 5 = LOOPY_ACTION_WRITE) by by vm_compute. split; [done|].
  destruct (kqueue_changes 5 LOOPY_ACTION_ALL q ltac:(done)) as [_ H1]. destruct (kqueue_changes 5 LOOPY_ACTION_WRITE q ltac:(done)) as [_ H2].
  rewrite H1, H2, Eq. by split.
Defined.
End Kqueue.

(** ** Event ports *)

Module EventPort.

Definition POLLIN : Z := 1.
Definition POLLOUT : Z := 4.
Definition MAX_EVENT_BATCHSZ : nat := 512.

(** The descriptors associated with a port, with their poll events and the user's
    value.  Associating replaces an association; reporting a descriptor
    dissociates it. *)
Class PortKernel (P : Type) := {
  pt_new : P;
  pt_assoc : P -> Z -> option (Z * Z);
  pt_associate : Z -> Z -> Z -> P -> P * bool;
  pt_dissociate : Z -> P -> P * bool;
  pt_getn : list (Z * Z) -> P -> P * list (Z * Z * Z);
  pt_new_empty fd : pt_assoc pt_new fd = None;
  pt_associate_spec fd events user p x :
    pt_assoc (fst (pt_associate fd events user p)) x =
      if snd (pt_associate fd events user p) && (x =? fd) then Some (events, user) else pt_assoc p x;
  pt_dissociate_spec fd p x : pt_assoc (fst (pt_dissociate fd p)) x = if x =? fd then None else pt_assoc p x;
  pt_dissociate_ok fd p : snd (pt_dissociate fd p) = bool_decide (is_Some (pt_assoc p fd));
  pt_getn_spec ready p :
    NoDup ready.*1 -> Forall (fun '(fd, _) => is_Some (pt_assoc p fd)) ready ->
    (forall x, pt_assoc (fst (pt_getn ready p)) x = if decide (x ∈ ready.*1) then None else pt_assoc p x) /\
    snd (pt_getn ready p) = (fun '(fd, events) => (fd, events, default 0 (snd <$> pt_assoc p fd))) <$> ready
}.

(** What [port_getn] answers: what is ready; that the time is over or a signal came;
    another error. *)
Inductive port_answer := PortReady (ready : list (Z * Z)) | PortTimeout | PortError.

Section EventPort.
Context {P : Type} `{!PortKernel P}.

(** [pending_fds] and [pending_masks] up to [npending]; the rest of the arrays is
    never read. *)
Record evport := EvPort { portfd : P; pending : list (Z * Z) }.

#[export] Instance evport_rebuild : Rebuild evport := fun s => EvPort (portfd s) (pending s).

Definition evNew (mallocOk portOk : bool) : option evport :=
  if negb mallocOk then None else if negb portOk then None else Some (EvPort pt_new []).

Fixpoint lookupPending (l : list (Z * Z)) (fd : Z) : option nat :=
  match l with
  | [] => None
  | (f, _) :: l => if f =? fd then Some O else S <$> lookupPending l fd
  end.

Definition portEvents (mask : Z) : Z := Z.lor (if isRead mask then POLLIN else 0) (if isWrite mask then POLLOUT else 0).

Definition associate (fd mask : Z) (p : P) : P * bool := pt_associate fd (portEvents mask) mask p.

(** [old]: [l->events[fd].mask] as it is when the function is called. *)
Definition evAddEvent (old fd mask : Z) (s : evport) : evport * bool :=
  let fullmask := Z.lor mask old in
  match lookupPending (pending s) fd with
  | Some pfd => (s <| pending ::= alter (fun '(f, m) => (f, Z.lor m fullmask)) pfd |>, true)
  | None => let '(p, ok) := associate fd fullmask (portfd s) in (s <| portfd := p |>, ok)
  end.

(** [None]: [abort]. *)
Definition evDelEvent (old fd mask : Z) (s : evport) : option evport :=
  match lookupPending (pending s) fd with
  | Some pfd =>
      Some (s <| pending ::= alter (fun '(f, m) => let m := Z.ldiff m mask in (if m =? LOOPY_ACTION_NONE then -1 else f, m)) pfd |>)
  | None =>
      let fullmask := old in
      if fullmask =? LOOPY_ACTION_NONE then
        let '(p, ok) := pt_dissociate fd (portfd s) in if ok then Some (s <| portfd := p |>) else None
      else
        let '(p, ok) := associate fd fullmask (portfd s) in if ok then Some (s <| portfd := p |>) else None
  end.

Fixpoint reassociate (l : list (Z * Z)) (p : P) : option P :=
  match l with
  | [] => Some p
  | (fd, mask) :: l =>
      if fd =? -1 then reassociate l p
      else let '(p, ok) := associate fd mask p in if ok then reassociate l p else None
  end.

Definition pollMask (events : Z) : Z :=
  Z.lor (if Z.land events POLLIN =? 0 then 0 else LOOPY_ACTION_READ) (if Z.land events POLLOUT =? 0 then 0 else LOOPY_ACTION_WRITE).

Definition evPoll (answer : port_answer) (s : evport) : option (evport * list (Z * Z)) :=
  match reassociate (pending s) (portfd s) with
  | None => None
  | Some p =>
      match answer with
      | PortError => None
      | PortTimeout => Some (EvPort p [], [])
      | PortReady ready =>
          let '(p, events) := pt_getn (take MAX_EVENT_BATCHSZ ready) p in
          Some (EvPort p ((fun '(fd, _, user) => (fd, user)) <$> events), (fun '(fd, ev, _) => (fd, pollMask ev)) <$> events)
      end
  end.

(** ** The interest *)

Fixpoint pendingMask (l : list (Z * Z)) (fd : Z) : option Z :=
  match l with [] => None | (f, m) :: l => if f =? fd then Some m else pendingMask l fd end.

(** What the adapter has of a descriptor: it is either reported and pending or
    associated. *)
Definition evInterest (s : evport) (fd : Z) : Z :=
  match pendingMask (pending s) fd with
  | Some m => m
  | None => match pt_assoc (portfd s) fd with Some (_, m) => m | None => 0 end
  end.

Record ev_ok (s : evport) : Prop := {
  ev_distinct : NoDup (filter (fun fd => fd <> -1) (pending s).*1);
  ev_either fd : fd <> -1 -> is_Some (pendingMask (pending s) fd) -> pt_assoc (portfd s) fd = None;
  ev_events fd events m : pt_assoc (portfd s) fd = Some (events, m) -> events = portEvents m
}.

Lemma lookupPending_spec l fd :
  match lookupPending l fd with
  | Some i => exists m, l !! i = Some (fd, m) /\ pendingMask l fd = Some m
  | None => pendingMask l fd = None
  end.
Proof.
  induction l as [|[f m] l IH]; cbn; [done|]. destruct (Z.eqb_spec f fd) as [-> |]; [by exists m|].
  by destruct (lookupPending l fd).
Qed.

(** A change of a pending entry. *)
Lemma pendingMask_alter (g : Z * Z -> Z * Z) l fd i m x :
  NoDup (filter (fun f => f <> -1) l.*1) -> fd <> -1 -> x <> -1 -> lookupPending l fd = Some i -> pendingMask l fd = Some m ->
  fst (g (fd, m)) = fd \/ fst (g (fd, m)) = -1 ->
  pendingMask (alter g i l) x = if x =? fd then (if fst (g (fd, m)) =? fd then Some (snd (g (fd, m))) else None) else pendingMask l x.
Proof.
  intros Hnd Hfd Hx. revert i. induction l as [|[f mf] l IH]; intros i Hi Hm Hg; cbn [lookupPending pendingMask] in *; [done|]; rewrite fmap_cons in Hnd; cbn [fst] in Hnd.
  destruct (Z.eqb_spec f fd) as [-> |Hne].
  - injection Hi as <-. injection Hm as ->. cbn. rewrite filter_cons_True in Hnd by done. apply NoDup_cons in Hnd as [Hn _].
    assert (Hnone : pendingMask l fd = None).
    { destruct (pendingMask l fd) as [k|] eqn:E; [|done]. exfalso. apply Hn. apply list_elem_of_filter. split; [done|]. clear -E.
      induction l as [|[f k'] l IH]; [done|]. cbn in *. destruct (Z.eqb_spec f fd) as [-> |]; [by left|right; auto]. }
    destruct (g (fd, m)) as [g1 g2]. cbn in *. destruct (Z.eqb_spec x fd) as [-> |Hxf].
    + destruct (Z.eqb_spec g1 fd); [done|]. done.
    + rewrite (proj2 (Z.eqb_neq g1 x)) by (destruct Hg; congruence). by rewrite (proj2 (Z.eqb_neq fd x)) by done.
  - destruct (lookupPending l fd) as [j|] eqn:Ej; [|done]. injection Hi as <-. cbn.
    assert (Hnd' : NoDup (filter (fun f => f <> -1) l.*1)).
    { destruct (decide (f = -1)) as [->|]; [by rewrite filter_cons_False in Hnd by (intros Hf; by apply Hf)|]. rewrite filter_cons_True in Hnd by done. by apply NoDup_cons in Hnd as [_ Hnd]. }
    rewrite (IH Hnd' j) by done. destruct (Z.eqb_spec f x) as [-> |]; [|done]. by rewrite (proj2 (Z.eqb_neq x fd)) by done.
Qed.

(** Entries taken out by the fd -1 do not count. *)
Lemma alter_distinct (g : Z * Z -> Z * Z) l i :
  (forall f m, fst (g (f, m)) = f \/ fst (g (f, m)) = -1) -> NoDup (filter (fun f => f <> -1) l.*1) ->
  NoDup (filter (fun f => f <> -1) (alter g i l).*1).
Proof.
  intros Hg. revert i. induction l as [|[f m] l IH]; intros i Hnd; [done|]. rewrite fmap_cons in Hnd. cbn [fst] in Hnd.
  assert (Hsub : forall j, filter (fun f => f <> -1) (alter g j l).*1 ⊆ filter (fun f => f <> -1) l.*1).
  { clear -Hg. induction l as [|[f m] l IH]; intros j; [done|]. destruct j as [|j].
    - change (alter g 0%nat ((f, m) :: l)) with (g (f, m) :: l). rewrite !fmap_cons. cbn [fst].
      destruct (Hg f m) as [E|E]; rewrite E; rewrite !filter_cons; repeat case_decide; set_solver.
    - change (alter g (S j) ((f, m) :: l)) with ((f, m) :: alter g j l). rewrite !fmap_cons. cbn [fst].
      specialize (IH j). rewrite !filter_cons; repeat case_decide; set_solver. }
  assert (E0 : alter g 0%nat ((f, m) :: l) = g (f, m) :: l) by done.
  assert (ES : forall j, alter g (S j) ((f, m) :: l) = (f, m) :: alter g j l) by done.
  destruct (decide (f = -1)) as [-> |Hf].
  - rewrite filter_cons_False in Hnd by (intros Hf; by apply Hf). destruct i as [|i]; rewrite ?E0, ?ES, !fmap_cons; cbn [fst].
    + destruct (Hg (-1) m) as [E|E]; rewrite E; by rewrite filter_cons_False by (intros Hf; by apply Hf).
    + rewrite filter_cons_False by (intros Hf; by apply Hf). by apply IH.
  - rewrite filter_cons_True in Hnd by done. apply NoDup_cons in Hnd as [Hn Hnd]. destruct i as [|i]; rewrite ?E0, ?ES, !fmap_cons; cbn [fst].
    + destruct (Hg f m) as [E|E]; rewrite E; [rewrite filter_cons_True by done; by constructor|].
      by rewrite filter_cons_False by (intros H; by apply H).
    + rewrite filter_cons_True by done. constructor; [|by apply IH]. intros Hin. apply Hn. by apply (Hsub i).
Qed.

Lemma pendingMask_in l fd m : fd <> -1 -> pendingMask l fd = Some m -> fd ∈ filter (fun f => f <> -1) l.*1.
Proof.
  intros Hfd. induction l as [|[f k] l IH]; [done|]. cbn [pendingMask]. rewrite fmap_cons. cbn [fst].
  destruct (Z.eqb_spec f fd) as [-> |]; intros E.
  - rewrite filter_cons_True by done. by left.
  - rewrite filter_cons. case_decide; [right|]; auto.
Qed.

Lemma pendingMask_none l fd : fd <> -1 -> pendingMask l fd = None <-> fd ∉ l.*1.
Proof.
  intros Hfd. induction l as [|[f k] l IH]; [cbn; set_solver|]. cbn [pendingMask]. rewrite fmap_cons, not_elem_of_cons. cbn [fst].
  destruct (Z.eqb_spec f fd) as [-> |]; naive_solver.
Qed.

(** ** Adding and deleting *)

Lemma pending_update s fd pfd m (g : Z * Z -> Z * Z) :
  ev_ok s -> fd <> -1 -> lookupPending (pending s) fd = Some pfd -> pendingMask (pending s) fd = Some m ->
  (forall f m, fst (g (f, m)) = f \/ fst (g (f, m)) = -1) -> (fst (g (fd, m)) = -1 -> snd (g (fd, m)) = 0) ->
  let s' := s <| pending ::= alter g pfd |> in
  ev_ok s' /\ forall x, x <> -1 -> evInterest s' x = if x =? fd then snd (g (fd, m)) else evInterest s x.
Proof.
  intros H Hfd Hl Hm Hg Hz. cbv zeta. assert (Hp : forall x, x <> -1 -> pendingMask (alter g pfd (pending s)) x =
    if x =? fd then (if fst (g (fd, m)) =? fd then Some (snd (g (fd, m))) else None) else pendingMask (pending s) x).
  { intros x Hx. apply (pendingMask_alter g _ _ _ m); try done; apply H || apply Hg. }
  assert (Hnone : pt_assoc (portfd s) fd = None) by (apply H; [done|by rewrite Hm]). split.
  - split; cbn.
    + apply alter_distinct; [done|apply H].
    + intros x Hx. rewrite Hp by done. destruct (Z.eqb_spec x fd) as [-> |]; [done|]. by apply H.
    + apply H.
  - intros x Hx. unfold evInterest. cbn. rewrite Hp by done. destruct (Z.eqb_spec x fd) as [-> |]; [|done].
    destruct (Z.eqb_spec (fst (g (fd, m))) fd) as [|Hne]; [done|]. rewrite Hnone. symmetry. apply Hz. by destruct (Hg fd m).
Qed.

Lemma associate_interest s fd m p ok :
  ev_ok s -> fd <> -1 -> pendingMask (pending s) fd = None -> associate fd m (portfd s) = (p, ok) ->
  ev_ok (s <| portfd := p |>) /\ forall x, evInterest (s <| portfd := p |>) x = if ok && (x =? fd) then m else evInterest s x.
Proof.
  intros H Hfd Hn E. unfold associate in E. pose proof (pt_associate_spec fd (portEvents m) m (portfd s)) as Hs. rewrite E in Hs. cbn in Hs. split.
  - destruct H as [H1 H2 H3]. split; cbn; [done| |].
    + intros x Hx Hp. rewrite Hs. destruct (Z.eqb_spec x fd) as [-> |]; [rewrite Hn in Hp; by destruct Hp|]. rewrite andb_false_r. auto.
    + intros x ev k. rewrite Hs. destruct (ok && _); [by intros [= <- <-]|apply H3].
  - intros x. unfold evInterest. cbn. rewrite Hs. destruct ok; cbn [andb]; [|done]. destruct (Z.eqb_spec x fd) as [-> |]; [by rewrite Hn|done].
Qed.

(** Adding does what the event loop relies on. *)
Lemma evport_add fd m s : ev_ok s -> fd <> -1 ->
  let '(s', ok) := evAddEvent (evInterest s fd) fd m s in
  ev_ok s' /\ forall x, x <> -1 -> evInterest s' x = if ok && (x =? fd) then Z.lor m (evInterest s fd) else evInterest s x.
Proof.
  intros H Hfd. unfold evAddEvent. pose proof (lookupPending_spec (pending s) fd) as Hl. destruct (lookupPending (pending s) fd) as [pfd|] eqn:El.
  - destruct Hl as (k & _ & Hk). destruct (pending_update s fd pfd k (fun '(f, m0) => (f, Z.lor m0 (Z.lor m (evInterest s fd)))) H Hfd El Hk) as [H1 H2].
    + intros f k'. by left.
    + done.
    + split; [done|]. intros x Hx. rewrite H2 by done. cbn. destruct (Z.eqb_spec x fd); [|done]. unfold evInterest. rewrite Hk.
      by rewrite (Z.lor_comm m k), Z.lor_assoc, Z.lor_diag.
  - destruct (associate fd _ (portfd s)) as [p ok] eqn:Ea. destruct (associate_interest _ _ _ _ _ H Hfd Hl Ea) as [H1 H2].
    split; [done|]. intros x _. apply H2.
Qed.

(** What a deletion leaves.  As the event loop calls it, with the mask of the
    table before the deletion, it takes away what was asked for only if the
    descriptor was reported by the last poll; otherwise the descriptor stays
    associated with all its events.  Called with the mask that is to be left, as
    its comment has it, it would do what the loop relies on. *)
Theorem evport_del fd m s : ev_ok s -> fd <> -1 -> evInterest s fd <> 0 ->
  (forall s', evDelEvent (evInterest s fd) fd m s = Some s' ->
     ev_ok s' /\ forall x, x <> -1 -> evInterest s' x =
       if (x =? fd) && bool_decide (is_Some (pendingMask (pending s) fd)) then Z.ldiff (evInterest s fd) m else evInterest s x) /\
  (forall s', evDelEvent (Z.ldiff (evInterest s fd) m) fd m s = Some s' ->
     ev_ok s' /\ forall x, x <> -1 -> evInterest s' x = if x =? fd then Z.ldiff (evInterest s fd) m else evInterest s x).
Proof.
  intros H Hfd Hi. unfold evDelEvent. pose proof (lookupPending_spec (pending s) fd) as Hl. destruct (lookupPending (pending s) fd) as [pfd|] eqn:El.
  - destruct Hl as (k & _ & Hk). assert (Ei : evInterest s fd = k) by (unfold evInterest; by rewrite Hk).
    destruct (pending_update s fd pfd k (fun '(f, m0) => let m0 := Z.ldiff m0 m in (if m0 =? LOOPY_ACTION_NONE then -1 else f, m0)) H Hfd El Hk) as [H1 H2].
    + intros f k'. cbn. destruct (_ =? _); auto.
    + cbn. destruct (Z.eqb_spec (Z.ldiff k m) LOOPY_ACTION_NONE) as [-> |]; [done|]. cbn. congruence.
    + cbv zeta in H2. cbn in H2. rewrite bool_decide_true by (by rewrite Hk). rewrite Ei.
      split; intros s' [= <-]; (split; [exact H1|]); intros x Hx; (etrans; [by apply H2|]); by rewrite ?andb_true_r.
  - rewrite bool_decide_false by (rewrite Hl; by intros []). split; intros s'.
    + rewrite (proj2 (Z.eqb_neq _ _)) by done. destruct (associate fd _ (portfd s)) as [p ok] eqn:Ea.
      destruct (associate_interest _ _ _ _ _ H Hfd Hl Ea) as [H1 H2]. destruct ok; [|done]. intros [= <-]. split; [done|].
      intros x _. etrans; [apply H2|]. rewrite andb_false_r. cbn. by destruct (Z.eqb_spec x fd) as [-> |].
    + destruct (Z.eqb_spec (Z.ldiff (evInterest s fd) m) LOOPY_ACTION_NONE) as [Hz|Hz].
      * pose proof (pt_dissociate_spec fd (portfd s)) as Hd. destruct (pt_dissociate fd (portfd s)) as [p [|]]; [|done]. cbn in Hd.
        intros [= <-]. split.
        -- destruct H as [D1 D2 D3]. split; cbn; [done| |].
           ++ intros x Hx Hp. rewrite Hd. destruct (x =? fd); [done|]. auto.
           ++ intros x ev k. rewrite Hd. destruct (x =? fd); [done|]. apply D3.
        -- intros x _. rewrite Hz. unfold evInterest. cbn. rewrite Hd. destruct (Z.eqb_spec x fd) as [-> |]; [by rewrite Hl|done].
      * destruct (associate fd _ (portfd s)) as [p ok] eqn:Ea.
        destruct (associate_interest _ _ _ _ _ H Hfd Hl Ea) as [H1 H2]. destruct ok; [|done]. intros [= <-]. split; [done|]. intros x _. apply H2.
Qed.

(** ** Polling *)

Lemma reassociate_ok l p p' : NoDup (filter (fun f => f <> -1) l.*1) -> reassociate l p = Some p' ->
  forall x, x <> -1 -> pt_assoc p' x = match pendingMask l x with Some m => Some (portEvents m, m) | None => pt_assoc p x end.
Proof.
  revert p. induction l as [|[f m] l IH]; intros p Hnd E x Hx; [by injection E as ->|].
  rewrite fmap_cons in Hnd. cbn [fst reassociate pendingMask] in *. destruct (Z.eqb_spec f (-1)) as [-> |Hf].
  - rewrite filter_cons_False in Hnd by (intros Hf; by apply Hf). rewrite (proj2 (Z.eqb_neq _ _)) by done. eauto.
  - rewrite filter_cons_True in Hnd by done. apply NoDup_cons in Hnd as [Hn Hnd].
    pose proof (pt_associate_spec f (portEvents m) m p) as Hs. unfold associate in E.
    destruct (pt_associate f (portEvents m) m p) as [p1 [|]]; [|done]. cbn in Hs. rewrite (IH p1 Hnd E x Hx), Hs.
    destruct (Z.eqb_spec f x) as [-> |Hne].
    + rewrite Z.eqb_refl. destruct (pendingMask l x) eqn:Ep; [|done]. by apply pendingMask_in in Ep.
    + by rewrite (proj2 (Z.eqb_neq x f)) by done.
Qed.

Lemma reassociate_none l p p' : reassociate l p = Some p' -> pt_assoc p' (-1) = pt_assoc p (-1).
Proof.
  revert p. induction l as [|[f m] l IH]; intros p E; [by injection E as ->|]. cbn [reassociate] in E. destruct (Z.eqb_spec f (-1)) as [-> |Hf]; [eauto|].
  pose proof (pt_associate_spec f (portEvents m) m p (-1)) as Hs. unfold associate in E.
  destruct (pt_associate f (portEvents m) m p) as [p1 [|]]; [|done]. cbn [fst snd andb] in Hs. rewrite (IH _ E), Hs. by rewrite (proj2 (Z.eqb_neq (-1) f)) by done.
Qed.

(** The kernel reports associated descriptors, each once. *)
Definition ready_ok (p : P) (ready : list (Z * Z)) : Prop :=
  NoDup ready.*1 /\ Forall (fun '(fd, _) => fd <> -1 /\ is_Some (pt_assoc p fd)) ready.

(** A poll that does not abort reports what is ready, translated, and leaves the
    adapter interested in what it was before: descriptors reported the last
    time are associated again, those reported now are kept as pending. *)
Theorem evport_poll s answer s' fired : ev_ok s -> evPoll answer s = Some (s', fired) ->
  (forall p ready, reassociate (pending s) (portfd s) = Some p -> answer = PortReady ready -> ready_ok p ready) ->
  ev_ok s' /\ (forall x, x <> -1 -> evInterest s' x = evInterest s x) /\
  match answer with
  | PortReady ready => fired = (fun '(fd, ev) => (fd, pollMask ev)) <$> take MAX_EVENT_BATCHSZ ready
  | _ => fired = []
  end.
Proof.
  intros H E Hans. unfold evPoll in E. destruct (reassociate (pending s) (portfd s)) as [p|] eqn:Er; [|done].
  pose proof (reassociate_ok _ _ _ (ev_distinct _ H) Er) as Hp. specialize (Hans p).
  assert (Hint : forall x, x <> -1 -> evInterest s x = match pt_assoc p x with Some (_, m) => m | None => 0 end).
  { intros x Hx. rewrite Hp by done. unfold evInterest. by destruct (pendingMask (pending s) x). }
  assert (Hev : forall x ev k, pt_assoc p x = Some (ev, k) -> ev = portEvents k).
  { intros x ev k. destruct (decide (x = -1)) as [-> |Hx]; [rewrite (reassociate_none _ _ _ Er); apply H|].
    rewrite Hp by done. destruct (pendingMask (pending s) x); [by intros [= <- <-]|apply H]. }
  clear Hp. destruct answer as [ready| |]; [|injection E as <- <-; split_and!; [split; [apply NoDup_nil_2|by intros ? ? []|done]|intros x Hx; by rewrite Hint|done]|done].
  specialize (Hans ready eq_refl eq_refl) as [Hnd Hready]. remember (take MAX_EVENT_BATCHSZ ready) as a eqn:Ea.
  assert (Hnd' : NoDup a.*1) by (rewrite Ea, fmap_take; by apply (sublist_NoDup _ ready.*1), sublist_take).
  assert (Ha : Forall (fun '(fd, _) => fd <> -1 /\ is_Some (pt_assoc p fd)) a) by (rewrite Ea; by apply Forall_take). clear Ea.
  destruct (pt_getn_spec a p Hnd') as [Hg1 Hg2]; [eapply Forall_impl; [exact Ha|]; intros []; naive_solver|].
  destruct (pt_getn a p) as [p' events]. cbn in Hg1, Hg2. subst events. injection E as <- <-.
  assert (Hfst : ((fun '(fd, _, user) => (fd, user)) <$> ((fun '(fd, events) => (fd, events, default 0 (snd <$> pt_assoc p fd))) <$> a)).*1 = a.*1).
  { rewrite <- !list_fmap_compose. apply list_fmap_ext. by intros ? []. }
  assert (Hpm : forall x, x <> -1 -> pendingMask ((fun '(fd, _, user) => (fd, user)) <$> ((fun '(fd, events) => (fd, events, default 0 (snd <$> pt_assoc p fd))) <$> a)) x =
    if decide (x ∈ a.*1) then Some (default 0 (snd <$> pt_assoc p x)) else None).
  { intros x Hx. case_decide as Hin; [|by apply pendingMask_none; [|rewrite Hfst]].
    clear -Hin. induction a as [|[f ev] a IH]; [by apply elem_of_nil in Hin|]. cbn. destruct (Z.eqb_spec f x) as [-> |]; [done|].
    apply IH. rewrite fmap_cons in Hin. by apply elem_of_cons in Hin as [?|?]; [cbn in *; congruence|]. }
  split_and!.
  - split; cbn [pending portfd].
    + rewrite Hfst. eapply sublist_NoDup; [exact Hnd'|apply sublist_filter].
    + intros x Hx. rewrite Hpm, Hg1 by done. case_decide; [done|by intros []].
    + intros x ev k. rewrite Hg1. case_decide; [done|]. apply Hev.
  - intros x Hx. rewrite Hint by done. unfold evInterest. cbn [pending portfd]. rewrite Hpm, Hg1 by done.
    case_decide as Hin; [|done]. by destruct (pt_assoc p x) as [[]|].
  - rewrite <- !list_fmap_compose. apply list_fmap_ext. by intros ? [].
Qed.

Lemma evNew_ok s : evNew true true = Some s -> ev_ok s /\ forall x, evInterest s x = 0.
Proof.
  intros [= <-]. split.
  - split; [apply NoDup_nil_2|by intros ? ? []|]. intros fd ev m. cbn. by rewrite pt_new_empty.
  - intros x. unfold evInterest. cbn. by rewrite pt_new_empty.
Qed.
End EventPort.

(** A port on which associating always succeeds. *)
#[export] Instance all_ports : PortKernel (Z -> option (Z * Z)).
Proof.
  refine {| pt_new _ := None; pt_assoc p := p;
            pt_associate fd events user p := (fun x => if x =? fd then Some (events, user) else p x, true);
            pt_dissociate fd p := (fun x => if x =? fd then None else p x, bool_decide (is_Some (p fd)));
            pt_getn ready p := (fun x => if decide (x ∈ ready.*1) then None else p x,
              (fun '(fd, events) => (fd, events, default 0 (snd <$> p fd))) <$> ready) |}; done.
Defined.

(** A descriptor that is read, before and after a poll reports it. *)
Definition port_reading : @evport (Z -> option (Z * Z)) := fst (evAddEvent LOOPY_ACTION_NONE 5 LOOPY_ACTION_READ (EvPort pt_new [])).

Lemma port_reading_ok : ev_ok port_reading.
Proof.
  destruct (evNew_ok (P := Z -> option (Z * Z)) (EvPort pt_new []) eq_refl) as [H Hi].
  pose proof (evport_add 5 LOOPY_ACTION_READ (EvPort pt_new []) H ltac:(done)) as Ha. rewrite Hi in Ha. unfold port_reading.
  change LOOPY_ACTION_NONE with 0. destruct (evAddEvent 0 5 LOOPY_ACTION_READ (EvPort pt_new [])) as [s ok]. apply Ha.
Qed.

Lemma evport_poll_witness : exists s fired, evPoll (PortReady [(5, POLLIN)]) port_reading = Some (s, fired) /\
  fired = [(5, LOOPY_ACTION_READ)] /\ evInterest s 5 = evInterest port_reading 5.
Proof.
  destruct (evPoll (PortReady [(5, POLLIN)]) port_reading) as [[s fired]|] eqn:E; [|by vm_compute in E].
  destruct (evport_poll port_reading (PortReady [(5, POLLIN)]) s fired port_reading_ok E) as (_ & Hi & Hf).
  - intros p ready Hp [= <-]. vm_compute in Hp. injection Hp as <-. split; [repeat constructor; set_solver|]. repeat constructor; [done|by eexists].
  - exists s, fired. split_and!; [done|by rewrite Hf|by apply Hi].
Defined.

Lemma evport_del_witness : exists s', evDelEvent LOOPY_ACTION_READ 5 LOOPY_ACTION_READ port_reading = Some s' /\
  evInterest s' 5 = LOOPY_ACTION_READ.
Proof.
  assert (Ei : evInterest port_reading 5 = LOOPY_ACTION_READ) by by vm_compute.
  destruct (evport_del 5 LOOPY_ACTION_READ port_reading port_reading_ok ltac:(done) ltac:(by rewrite Ei)) as [H _]. rewrite Ei in H.
  destruct (evDelEvent LOOPY_ACTION_READ 5 LOOPY_ACTION_READ port_reading) as [s'|] eqn:E; [|by vm_compute in E].
  exists s'. split; [done|]. destruct (H s' eq_refl) as [_ Hi]. by rewrite Hi.
Defined.
End EventPort.
