(* ===== verification/Watch.v ===== *)
(** * File watching ([src/loopyWatch.c], the inotify branch)

    A handle with a table of 256 watches over an inotify descriptor that the loop
    reads ([FdLoop]).  The kernel is a function of the system calls so far; users'
    callbacks may call everything but the release of the handle.
    [watch_safe] is the invariant of the table over all runs, [watch_parse] says
    that a buffer of encoded events is taken apart into those events, [watch_event]
    what one event does, [watch_add_remove] what adding and removing do,
    [watch_masks] that the translation of event sets loses nothing.  The
    lemmas at the end are cases in which watches are missed or misused. *)

From S2P Require Import Prelude FdLoop.

Local Open Scope nat_scope.

(** ** Data *)

Definition MAX_WATCHES : nat := 256.

Definition LOOPY_WATCH_MODIFY : Z := 1.
Definition LOOPY_WATCH_CREATE : Z := 2.
Definition LOOPY_WATCH_DELETE : Z := 4.
Definition LOOPY_WATCH_RENAME : Z := 8.
Definition LOOPY_WATCH_ATTRIB : Z := 16.
Definition LOOPY_WATCH_ALL : Z := 31.

(** The bits of [<sys/inotify.h>]. *)
Definition IN_MODIFY : Z := 2.
Definition IN_ATTRIB : Z := 4.
Definition IN_CLOSE_WRITE : Z := 8.
Definition IN_MOVED_FROM : Z := 64.
Definition IN_MOVED_TO : Z := 128.
Definition IN_MOVE : Z := 192.
Definition IN_CREATE : Z := 256.
Definition IN_DELETE : Z := 512.
Definition IN_DELETE_SELF : Z := 1024.
Definition IN_IGNORED : Z := 32768.

(** Callbacks and user data are numbers, 0 is [NULL]; [we_path] is the copy that the
    entry owns. *)
Record loopyWatchEntry := WatchEntry {
  we_id : Z;
  we_path : option string;
  we_events : Z;
  we_callback : Z;
  we_userData : Z;
  we_active : bool;
  we_wd : Z
}.
#[export] Instance WatchEntry_rebuild : Rebuild loopyWatchEntry := fun e =>
  WatchEntry (we_id e) (we_path e) (we_events e) (we_callback e) (we_userData e) (we_active e) (we_wd e).

(** All bytes 0. *)
Definition empty_entry : loopyWatchEntry := WatchEntry 0 None 0 0 0 false 0.

Record loopyWatch := Watch {
  w_userData : Z;
  watches : list loopyWatchEntry;
  watchCount : Z;
  w_nextId : Z;
  inotifyFd : Z
}.
#[export] Instance Watch_rebuild : Rebuild loopyWatch := fun w =>
  Watch (w_userData w) (watches w) (watchCount w) (w_nextId w) (inotifyFd w).

(** What a callback is shown, and which one it is; names are bytes.  [wi_path] is what
    [info->path] leads to when the callback is entered: the pointer is the entry's own copy, which
    is freed when the callback removes its own watch (see [watch_info_dangles]). *)
Record loopyWatchInfo := WatchInfo {
  wi_callback : Z;
  wi_watchId : Z;
  wi_events : Z;
  wi_path : option string;
  wi_filename : option (list Z);
  wi_userData : Z
}.

(** ** Event sets *)

Definition has (mask m : Z) : bool := negb (Z.land mask m =? 0)%Z.
Definition orIf (b : bool) (m mask : Z) : Z := if b then Z.lor mask m else mask.

Definition eventsToInotify (events : Z) : Z :=
  let mask := 0%Z in
  let mask := orIf (has events LOOPY_WATCH_MODIFY) (Z.lor IN_MODIFY IN_CLOSE_WRITE) mask in
  let mask := orIf (has events LOOPY_WATCH_CREATE) IN_CREATE mask in
  let mask := orIf (has events LOOPY_WATCH_DELETE) (Z.lor IN_DELETE IN_DELETE_SELF) mask in
  let mask := orIf (has events LOOPY_WATCH_RENAME) (Z.lor IN_MOVE (Z.lor IN_MOVED_FROM IN_MOVED_TO)) mask in
  orIf (has events LOOPY_WATCH_ATTRIB) IN_ATTRIB mask.

Definition inotifyToEvents (mask : Z) : Z :=
  let events := 0%Z in
  let events := orIf (has mask (Z.lor IN_MODIFY IN_CLOSE_WRITE)) LOOPY_WATCH_MODIFY events in
  let events := orIf (has mask IN_CREATE) LOOPY_WATCH_CREATE events in
  let events := orIf (has mask (Z.lor IN_DELETE IN_DELETE_SELF)) LOOPY_WATCH_DELETE events in
  let events := orIf (has mask (Z.lor IN_MOVE (Z.lor IN_MOVED_FROM IN_MOVED_TO))) LOOPY_WATCH_RENAME events in
  orIf (has mask IN_ATTRIB) LOOPY_WATCH_ATTRIB events.

Definition loopyWatchEventName (event : Z) : string :=
  if (event =? LOOPY_WATCH_MODIFY)%Z then "MODIFY"
  else if (event =? LOOPY_WATCH_CREATE)%Z then "CREATE"
  else if (event =? LOOPY_WATCH_DELETE)%Z then "DELETE"
  else if (event =? LOOPY_WATCH_RENAME)%Z then "RENAME"
  else if (event =? LOOPY_WATCH_ATTRIB)%Z then "ATTRIB"
  else if (event =? LOOPY_WATCH_ALL)%Z then "ALL"
  else "UNKNOWN".

Definition loopyWatchBackendName : string := "inotify".

(** ** The buffer of events

    [struct inotify_event]: [wd], [mask], [cookie], [len] of four bytes each, in
    the order of a little-endian machine, and [len] bytes of name. *)

Definition u32_at (off : nat) (buf : list Z) : option Z :=
  match drop off buf with b0 :: b1 :: b2 :: b3 :: _ => Some (b0 + 256 * (b1 + 256 * (b2 + 256 * b3)))%Z | _ => None end.

(** A C string in memory: up to the first 0. *)
Fixpoint cbytes (l : list Z) : list Z := match l with [] => [] | b :: l => if (b =? 0)%Z then [] else b :: cbytes l end.

Definition sizeof_event : nat := 16.

Inductive syscall :=
  | SysInotifyInit
  | SysAddWatch (fd : Z) (path : string) (mask : Z)
  | SysRmWatch (fd wd : Z)
  | SysReadEvents (fd : Z) (size : nat)
  | SysClose (fd : Z).

(** The result, and the bytes of a read. *)
Record sysret := SysRet { ret : Z; bytes_read : list Z }.

Inductive watch_op :=
  | WAdd (mallocOk : bool) (path : string) (events cb data : Z)
  | WRemove (watchId : Z)
  | WRemoveAll
  | WSetData (data : Z)
  | WFree.

Section Watch.
Context {L : Type} `{!FdLoop L}.
Variable kernel : list (syscall * sysret) -> syscall -> sysret.
Variable user : list loopyWatchInfo -> list watch_op.

Record watchWorld := WatchWorld {
  loop : L;
  watcher : option loopyWatch;
  syslog : list (syscall * sysret);
  calls : list loopyWatchInfo (* newest first *)
}.
#[export] Instance WatchWorld_rebuild : Rebuild watchWorld := fun w => WatchWorld (loop w) (watcher w) (syslog w) (calls w).

Definition the_watch : prog watchWorld loopyWatch :=
  w ← get; match watcher w with Some h => mret h | None => undefined end.
Definition set_watch (g : loopyWatch -> loopyWatch) : prog watchWorld unit :=
  h ← the_watch; modify (fun w => w <| watcher := Some (g h) |>).
(** [&w->watches[i]] *)
Definition the_slot (i : nat) : prog watchWorld loopyWatchEntry :=
  h ← the_watch; match watches h !! i with Some e => mret e | None => undefined end.
Definition set_slot (i : nat) (g : loopyWatchEntry -> loopyWatchEntry) : prog watchWorld unit :=
  e ← the_slot i; set_watch (fun h => h <| watches ::= <[i := g e]> |>).

Definition sys (c : syscall) : prog watchWorld sysret :=
  w ← get; let r := kernel (syslog w) c in modify (fun w => w <| syslog ::= cons (c, r) |>) ≫= fun _ => mret r.

(** The addresses of [watchEventCallback] and of the handle. *)
Definition watchEventCallback_ptr : Z := 5.
Definition watch_ptr : Z := 1.

(** ** Helpers *)

Definition watchFindById (w : loopyWatch) (id : Z) : option nat :=
  fst <$> list_find (fun e => we_active e && (we_id e =? id)%Z = true) (watches w).
Definition watchFindFree (w : loopyWatch) : option nat := fst <$> list_find (fun e => negb (we_active e) = true) (watches w).
Definition watchFindByWd (w : loopyWatch) (wd : Z) : option nat :=
  fst <$> list_find (fun e => we_active e && (we_wd e =? wd)%Z = true) (watches w).

(** ** Lifecycle *)

(** [nn]: the loop is not [NULL].  The world has no handle yet. *)
Definition loopyWatchNew (nn mallocOk : bool) : prog watchWorld bool :=
  if negb nn then mret false
  else if negb mallocOk then mret false
  else
    r ← sys SysInotifyInit;
    if (ret r =? -1)%Z then mret false
    else
      w ← get;
      match fl_register false (ret r) watchEventCallback_ptr watch_ptr (loop w) with
      | None => undefined
      | Some (l, ok) =>
          modify (fun w => w <| loop := l |>) ≫= fun _ =>
          if negb ok then sys (SysClose (ret r)) ≫= fun _ => mret false
          else modify (fun w => w <| watcher := Some (Watch 0 (replicate MAX_WATCHES empty_entry) 0 1 (ret r)) |>) ≫= fun _ => mret true
      end.

(** ** Watches *)

(** [path] is [None] for [NULL]. *)
Definition loopyWatchAdd (nn mallocOk : bool) (path : option string) (events cb data : Z) : prog watchWorld Z :=
  match path with
  | None => mret 0%Z
  | Some path =>
    if negb nn || (cb =? 0)%Z then mret 0%Z
    else
      h ← the_watch;
      match watchFindFree h with
      | None => mret 0%Z
      | Some i =>
          if negb mallocOk then set_slot i (fun e => e <| we_path := None |>) ≫= fun _ => mret 0%Z
          else
            set_slot i (fun e => e <| we_path := Some path |> <| we_events := events |> <| we_callback := cb |> <| we_userData := data |>
                                   <| we_id := w_nextId h |>) ≫= fun _ =>
            set_watch (fun h => h <| w_nextId := w_nextId h +64 1 |>) ≫= fun _ =>
            r ← sys (SysAddWatch (inotifyFd h) path (eventsToInotify events));
            set_slot i (fun e => e <| we_wd := ret r |>) ≫= fun _ =>
            if (ret r =? -1)%Z then set_slot i (fun e => e <| we_path := None |>) ≫= fun _ => mret 0%Z
            else
              set_slot i (fun e => e <| we_active := true |>) ≫= fun _ =>
              set_watch (fun h => h <| watchCount := watchCount h +64 1 |>) ≫= fun _ =>
              e ← the_slot i; mret (we_id e)
      end
  end.

Definition loopyWatchRemove (nn : bool) (watchId : Z) : prog watchWorld bool :=
  if negb nn || (watchId =? 0)%Z then mret false
  else
    h ← the_watch;
    match watchFindById h watchId with
    | None => mret false
    | Some i =>
        e ← the_slot i;
        if negb (we_active e) then mret false
        else
          sys (SysRmWatch (inotifyFd h) (we_wd e)) ≫= fun _ =>
          set_slot i (fun _ => empty_entry) ≫= fun _ =>
          set_watch (fun h => h <| watchCount := watchCount h -64 1 |>) ≫= fun _ =>
          mret true
    end.

(** [for (i = 0; i < MAX_WATCHES; i++)], [n] slots to go. *)
Fixpoint removeFrom (n : nat) : prog watchWorld unit :=
  match n with
  | 0 => mret tt
  | S n =>
      e ← the_slot (MAX_WATCHES - S n);
      (if we_active e then loopyWatchRemove true (we_id e) ≫= fun _ => mret tt else mret tt) ≫= fun _ =>
      removeFrom n
  end.

Definition loopyWatchRemoveAll (nn : bool) : prog watchWorld unit :=
  if negb nn then mret tt else removeFrom MAX_WATCHES.

Definition loopyWatchFree (nn : bool) : prog watchWorld unit :=
  if negb nn then mret tt
  else
    loopyWatchRemoveAll true ≫= fun _ =>
    h ← the_watch;
    w ← get;
    match fl_unregister true true (inotifyFd h) (loop w) with
    | None => undefined
    | Some l => modify (fun w => w <| loop := l |>)
    end ≫= fun _ =>
    sys (SysClose (inotifyFd h)) ≫= fun _ =>
    modify (fun w => w <| watcher := None |>).

Definition loopyWatchCount (nn : bool) : prog watchWorld Z := if nn then h ← the_watch; mret (watchCount h) else mret 0%Z.
(** True stands for the loop. *)
Definition loopyWatchGetLoop (nn : bool) : prog watchWorld bool := if nn then h ← the_watch; mret true else mret false.
Definition loopyWatchGetData (nn : bool) : prog watchWorld Z := if nn then h ← the_watch; mret (w_userData h) else mret 0%Z.
Definition loopyWatchSetData (nn : bool) (data : Z) : prog watchWorld unit := pwhen nn (set_watch (fun h => h <| w_userData := data |>)).

(** ** Events *)

Definition run_watch_op (op : watch_op) : prog watchWorld unit :=
  match op with
  | WAdd m path events cb data => loopyWatchAdd true m (Some path) events cb data ≫= fun _ => mret tt
  | WRemove id => loopyWatchRemove true id ≫= fun _ => mret tt
  | WRemoveAll => loopyWatchRemoveAll true
  | WSetData d => loopyWatchSetData true d
  | WFree => loopyWatchFree true
  end.

Fixpoint run_watch_ops (ops : list watch_op) : prog watchWorld unit :=
  match ops with [] => mret tt | op :: ops => run_watch_op op ≫= fun _ => run_watch_ops ops end.

(** [entry->callback(w, &info)] *)
Definition watch_callback (info : loopyWatchInfo) : prog watchWorld unit :=
  modify (fun w => w <| calls ::= cons info |>) ≫= fun _ => w ← get; run_watch_ops (user (calls w)).

(** One event of the buffer. *)
Definition handleEvent (wd mask : Z) (filename : option (list Z)) : prog watchWorld unit :=
  h ← the_watch;
  match watchFindByWd h wd with
  | None => mret tt
  | Some i =>
      e ← the_slot i;
      if (we_callback e =? 0)%Z then mret tt
      else watch_callback (WatchInfo (we_callback e) (we_id e) (inotifyToEvents mask) (we_path e) filename (we_userData e))
  end.

(** [while (ptr < buf + len)]: [buf] is what is left from [ptr] on. *)
Fixpoint processBuffer (fuel : nat) (buf : list Z) : prog watchWorld unit :=
  match fuel with
  | 0 => undefined
  | S fuel =>
      match buf with
      | [] => mret tt
      | _ =>
          match u32_at 0 buf, u32_at 4 buf, u32_at 12 buf with
          | Some wd, Some mask, Some len =>
              handleEvent (i32 wd) mask (if (0 <? len)%Z then Some (cbytes (drop sizeof_event buf)) else None) ≫= fun _ =>
              processBuffer fuel (drop (sizeof_event + Z.to_nat len) buf)
          | _, _, _ => undefined
          end
      end
  end.

(** At most [rounds] times through [while ((len = read(fd, buf, sizeof(buf))) > 0)]; the
    answer is whether the loop ended. *)
Fixpoint watchEventCallback (rounds : nat) (fd : Z) : prog watchWorld bool :=
  match rounds with
  | 0 => mret false
  | S rounds =>
      r ← sys (SysReadEvents fd 4096);
      if (0 <? ret r)%Z then
        processBuffer (S (length (bytes_read r))) (bytes_read r) ≫= fun _ => watchEventCallback rounds fd
      else mret true
  end.
End Watch.

(** ** Encoded events *)

Record inotify_event := InotifyEvent { ie_wd : Z; ie_mask : Z; ie_cookie : Z; ie_name : list Z }.

Definition le32 (z : Z) : list Z := [z mod 256; (z / 256) mod 256; (z / 65536) mod 256; (z / 16777216) mod 256]%Z.
Definition encode (e : inotify_event) : list Z :=
  le32 (ie_wd e) ++ le32 (ie_mask e) ++ le32 (ie_cookie e) ++ le32 (Z.of_nat (length (ie_name e))) ++ ie_name e.

(** What the kernel writes: numbers in range, names that end with a 0. *)
Record event_ok (e : inotify_event) : Prop := {
  eo_wd : (- 2 ^ 31 <= ie_wd e < 2 ^ 31)%Z;
  eo_mask : (0 <= ie_mask e < 2 ^ 32)%Z;
  eo_name : (Z.of_nat (length (ie_name e)) < 2 ^ 32)%Z;
  eo_zero : ie_name e = [] \/ 0%Z ∈ ie_name e
}.

Definition ie_filename (e : inotify_event) : option (list Z) := match ie_name e with [] => None | n => Some (cbytes n) end.

Lemma le32_read z : (let '(b0, b1, b2, b3) := (z mod 256, (z / 256) mod 256, (z / 65536) mod 256, (z / 16777216) mod 256) in
  b0 + 256 * (b1 + 256 * (b2 + 256 * b3)))%Z = (z mod 2 ^ 32)%Z.
Proof.
  cbv zeta beta iota. change (2 ^ 32)%Z with (256 * (256 * (256 * 256)))%Z.
  rewrite (Z.rem_mul_r z 256 (256 * (256 * 256))), (Z.rem_mul_r (z / 256) 256 (256 * 256)), (Z.rem_mul_r (z / 256 / 256) 256 256) by lia.
  rewrite !Z.div_div by lia. done.
Qed.

Lemma cbytes_app n r : 0%Z ∈ n -> cbytes (n ++ r) = cbytes n.
Proof.
  induction n as [|b n IH]; intros H; [by apply elem_of_nil in H|]. cbn. destruct (Z.eqb_spec b 0); [done|].
  f_equal. apply IH. by apply elem_of_cons in H as [?|?].
Qed.

Section Parse.
Context {L : Type} `{!FdLoop L}.
Variable kernel : list (syscall * sysret) -> syscall -> sysret.
Variable user : list loopyWatchInfo -> list watch_op.

Fixpoint handleEvents (es : list inotify_event) : prog (@watchWorld L) unit :=
  match es with
  | [] => mret tt
  | e :: es => handleEvent kernel user (ie_wd e) (ie_mask e) (ie_filename e) ≫= fun _ => handleEvents es
  end.

Lemma processBuffer_events es : Forall event_ok es -> forall fuel w, length (concat (encode <$> es)) < fuel ->
  processBuffer kernel user fuel (concat (encode <$> es)) w = handleEvents es w.
Proof using Type.
  induction 1 as [|[wd mask cookie name] es [Hwd Hmask Hname Hzero] Hes IH]; intros [|fuel] w Hf; cbn in Hf; try lia; [done|].
  cbn [ie_wd ie_mask ie_name ie_cookie] in *. cbn [fmap list_fmap concat handleEvents ie_wd ie_mask].
  set (rest := concat (encode <$> es)) in *. unfold encode at 1. cbn [ie_wd ie_mask ie_cookie ie_name].
  remember (processBuffer kernel user fuel) as next eqn:Enext. unfold le32. cbn [app processBuffer]. rewrite <- Enext.
  unfold u32_at. cbn [drop]. pose proof (le32_read wd) as E1. pose proof (le32_read mask) as E2.
  pose proof (le32_read (Z.of_nat (length name))) as E3. cbv zeta beta iota in E1, E2, E3. rewrite E1, E2, E3. clear E1 E2 E3.
  rewrite (i32_signed wd Hwd), (Z.mod_small mask (2 ^ 32)), (Z.mod_small (Z.of_nat (length name)) (2 ^ 32)) by lia.
  change (drop (sizeof_event + Z.to_nat (Z.of_nat (length name)))) with (fun l : list Z => drop (16 + Z.to_nat (Z.of_nat (length name))) l).
  cbv beta. rewrite Nat2Z.id. unfold sizeof_event. cbn [drop Nat.add].
  assert (Ename : (if (0 <? Z.of_nat (length name))%Z then Some (cbytes (name ++ rest)) else None) = ie_filename (InotifyEvent wd mask cookie name)).
  { unfold ie_filename. cbn [ie_name]. destruct name as [|b name]; [done|]. cbn [length]. rewrite (proj2 (Z.ltb_lt _ _)) by lia.
    f_equal. destruct Hzero as [?|Hz]; [done|]. by apply cbytes_app. }
  rewrite drop_0, Ename. rewrite drop_app_length. unfold mbind, prog_bind. destruct (handleEvent kernel user wd mask _ w) as [[[] w']|]; [|done].
  rewrite Enext. apply IH. rewrite length_app in Hf. lia.
Qed.
End Parse.

(** ** The table *)

Definition actives (l : list loopyWatchEntry) : nat := length (filter (fun e => we_active e = true) l).

Lemma actives_insert l i e e' : l !! i = Some e ->
  actives (<[i := e']> l) + Nat.b2n (we_active e) = actives l + Nat.b2n (we_active e').
Proof.
  revert i. induction l as [|x l IH]; intros [|i] H; try done.
  - injection H as ->. cbn [insert list_insert]. unfold actives. rewrite !filter_cons.
    destruct (we_active e), (we_active e'); repeat case_decide; cbn in *; try done; lia.
  - specialize (IH i H). change (<[S i := e']> (x :: l)) with (x :: <[i := e']> l). unfold actives in *. rewrite !filter_cons.
    case_decide; cbn; lia.
Qed.

Lemma actives_bound l : actives l <= length l.
Proof. apply sublist_length, sublist_filter. Qed.

Lemma actives_none l : actives l = 0 <-> Forall (fun e => we_active e = false) l.
Proof.
  unfold actives. induction l as [|x l IH]; [done|]. rewrite filter_cons, Forall_cons, <- IH.
  case_decide as Hx; cbn; rewrite ?Hx; [naive_solver lia|]. apply not_true_is_false in Hx. naive_solver.
Qed.

(** The watch in slot [i], if it is in use. *)
Definition active_slot (h : loopyWatch) (i : nat) : option loopyWatchEntry :=
  match watches h !! i with Some e => if we_active e then Some e else None | None => None end.

(** Ids that were given out so far: [issued] many; they are distinct until the
    counter has gone through 64 bits. *)
Definition ids_ok (h : loopyWatch) : Prop :=
  exists issued, (0 <= issued)%Z /\ w_nextId h = u64 (1 + issued) /\ ((issued < w64 - 1)%Z ->
    forall i e, active_slot h i = Some e -> (0 < we_id e <= issued)%Z /\ forall j e', active_slot h j = Some e' -> we_id e' = we_id e -> j = i).

Definition slot_ok (e : loopyWatchEntry) : Prop :=
  if we_active e then is_Some (we_path e) /\ we_callback e <> 0%Z /\ we_wd e <> (-1)%Z else we_path e = None.

Record table_ok (h : loopyWatch) : Prop := {
  tb_length : length (watches h) = MAX_WATCHES;
  tb_count : watchCount h = Z.of_nat (actives (watches h));
  tb_slots : Forall slot_ok (watches h);
  tb_ids : ids_ok h
}.

(** The inotify descriptors that were opened and not closed. *)
Fixpoint open_fds (log : list (syscall * sysret)) : list Z :=
  match log with
  | [] => []
  | (SysInotifyInit, r) :: log => if (ret r =? -1)%Z then open_fds log else ret r :: open_fds log
  | (SysClose fd, _) :: log => filter (fun x => x <> fd) (open_fds log)
  | _ :: log => open_fds log
  end.

Lemma slot_lookup h i e : active_slot h i = Some e <-> watches h !! i = Some e /\ we_active e = true.
Proof. unfold active_slot. destruct (watches h !! i) as [x|] eqn:E; [destruct (we_active x) eqn:Ex|]; naive_solver congruence. Qed.

Lemma slot_insert h h' i e e' : watches h !! i = Some e -> watches h' = <[i := e']> (watches h) ->
  forall j, active_slot h' j = if decide (j = i) then (if we_active e' then Some e' else None) else active_slot h j.
Proof.
  intros He Hh j. unfold active_slot. rewrite Hh. case_decide as Hj.
  - subst j. rewrite list_lookup_insert_eq; [done|]. by eapply lookup_lt_Some.
  - by rewrite list_lookup_insert_ne by done.
Qed.

Lemma findById_spec h id :
  match watchFindById h id with
  | Some i => exists e, active_slot h i = Some e /\ we_id e = id /\ forall j e', j < i -> active_slot h j = Some e' -> we_id e' <> id
  | None => forall j e', active_slot h j = Some e' -> we_id e' <> id
  end.
Proof.
  unfold watchFindById. destruct (list_find _ _) as [[i e]|] eqn:E; cbn.
  - apply list_find_Some in E as (He & [Ha Hid]%andb_true_iff & Hj). exists e. rewrite slot_lookup. apply Z.eqb_eq in Hid. split_and!; try done.
    intros j e' Hlt [Hs Ha']%slot_lookup Hid'. apply (Hj j e' Hs Hlt). by rewrite Ha', Hid', Z.eqb_refl.
  - apply list_find_None in E. rewrite Forall_forall in E. intros j e' [Hs Ha]%slot_lookup Hid.
    apply (E e'); [by eapply list_elem_of_lookup_2|]. by rewrite Ha, Hid, Z.eqb_refl.
Qed.

Lemma findByWd_spec h wd :
  match watchFindByWd h wd with
  | Some i => exists e, active_slot h i = Some e /\ we_wd e = wd /\ forall j e', j < i -> active_slot h j = Some e' -> we_wd e' <> wd
  | None => forall j e', active_slot h j = Some e' -> we_wd e' <> wd
  end.
Proof.
  unfold watchFindByWd. destruct (list_find _ _) as [[i e]|] eqn:E; cbn.
  - apply list_find_Some in E as (He & [Ha Hid]%andb_true_iff & Hj). exists e. rewrite slot_lookup. apply Z.eqb_eq in Hid. split_and!; try done.
    intros j e' Hlt [Hs Ha']%slot_lookup Hid'. apply (Hj j e' Hs Hlt). by rewrite Ha', Hid', Z.eqb_refl.
  - apply list_find_None in E. rewrite Forall_forall in E. intros j e' [Hs Ha]%slot_lookup Hid.
    apply (E e'); [by eapply list_elem_of_lookup_2|]. by rewrite Ha, Hid, Z.eqb_refl.
Qed.

Lemma findFree_spec h : length (watches h) = MAX_WATCHES ->
  match watchFindFree h with
  | Some i => i < MAX_WATCHES /\ active_slot h i = None /\ (exists e, watches h !! i = Some e /\ we_active e = false) /\ forall j, j < i -> is_Some (active_slot h j)
  | None => forall j, j < MAX_WATCHES -> is_Some (active_slot h j)
  end.
Proof.
  intros Hlen. unfold watchFindFree. destruct (list_find _ _) as [[i e]|] eqn:E; cbn.
  - apply list_find_Some in E as (He & Ha & Hj). apply negb_true_iff in Ha. split_and!; [rewrite <- Hlen; by eapply lookup_lt_Some| |by exists e|].
    + unfold active_slot. by rewrite He, Ha.
    + intros j Hlt. assert (Hl : j < length (watches h)) by (apply lookup_lt_Some in He; lia).
      apply lookup_lt_is_Some in Hl as [e' He']. specialize (Hj j e' He' Hlt). unfold active_slot. rewrite He'. destruct (we_active e'); [by eexists|done].
  - apply list_find_None in E. rewrite Forall_forall in E. intros j Hj. rewrite <- Hlen in Hj. apply lookup_lt_is_Some in Hj as [e' He'].
    unfold active_slot. rewrite He'. specialize (E e' ltac:(by eapply list_elem_of_lookup_2)). destruct (we_active e'); [by eexists|done].
Qed.

(** ** The operations on the table *)

Section Table.
Context {L : Type} `{!FdLoop L}.
Variable kernel : list (syscall * sysret) -> syscall -> sysret.
Variable user : list loopyWatchInfo -> list watch_op.
Notation watchWorld := (@watchWorld L).
Implicit Types (w : watchWorld) (h : loopyWatch).

Record watch_ok h w : Prop := {
  wk_watcher : watcher w = Some h;
  wk_table : table_ok h;
  wk_fd : inotifyFd h <> (-1)%Z /\ fl_fd (inotifyFd h);
  wk_loop : fl_ok (loop w);
  wk_on : fl_on (loop w) (inotifyFd h) false = true;
  wk_open : open_fds (syslog w) = [inotifyFd h]
}.

Lemma wp_the_watch (Q : loopyWatch -> watchWorld -> Prop) w h : watcher w = Some h -> Q h w -> wp the_watch Q w.
Proof using Type. intros Hn HQ. unfold the_watch. apply wp_bind, wp_get. by rewrite Hn. Qed.

Lemma wp_set_watch g (Q : unit -> watchWorld -> Prop) w h :
  watcher w = Some h -> Q tt (w <| watcher := Some (g h) |>) -> wp (set_watch g) Q w.
Proof using Type. intros Hn HQ. unfold set_watch. apply wp_bind. by eapply wp_the_watch. Qed.

Lemma wp_the_slot (Q : loopyWatchEntry -> watchWorld -> Prop) i w h e :
  watcher w = Some h -> watches h !! i = Some e -> Q e w -> wp (the_slot i) Q w.
Proof using Type. intros Hn He HQ. unfold the_slot. apply wp_bind. eapply wp_the_watch; [done|]. by rewrite He. Qed.

Lemma wp_set_slot g (Q : unit -> watchWorld -> Prop) i w h e :
  watcher w = Some h -> watches h !! i = Some e -> Q tt (w <| watcher := Some (h <| watches ::= <[i := g e]> |>) |>) -> wp (set_slot i g) Q w.
Proof using Type. intros Hn He HQ. unfold set_slot. apply wp_bind. eapply wp_the_slot; [done|done|]. by eapply wp_set_watch. Qed.

Lemma wp_watch_sys c (Q : sysret -> watchWorld -> Prop) w :
  Q (kernel (syslog w) c) (w <| syslog ::= cons (c, kernel (syslog w) c) |>) -> wp (sys kernel c) Q w.
Proof using Type. intros HQ. unfold sys. apply wp_bind, wp_get, wp_bind, wp_modify, wp_ret. exact HQ. Qed.

Ltac wstep :=
  match goal with
  | |- wp (_ ≫= _) _ _ => apply wp_bind
  | |- wp (mret _) _ _ => apply wp_ret
  | |- wp the_watch _ _ => eapply wp_the_watch; [first [eassumption | reflexivity]|]
  | |- wp (set_watch _) _ _ => eapply wp_set_watch; [first [eassumption | reflexivity]|]
  | |- wp (sys _ _) _ _ => apply wp_watch_sys
  | |- wp get _ _ => apply wp_get
  | |- wp (modify _) _ _ => apply wp_modify
  end.

(** A change of the handle that keeps its descriptor, and system calls that open or close
    nothing. *)
Lemma watch_ok_ext h h' w w' : watch_ok h w -> watcher w' = Some h' -> table_ok h' -> inotifyFd h' = inotifyFd h ->
  loop w' = loop w -> open_fds (syslog w') = open_fds (syslog w) -> watch_ok h' w'.
Proof using Type. intros [] E1 E2 E3 E4 E5. split; rewrite ?E3, ?E4, ?E5; done. Qed.

Lemma slots_insert l i e : Forall slot_ok l -> slot_ok e -> Forall slot_ok (<[i := e]> l).
Proof using Type. intros Hl He. by apply Forall_insert. Qed.

(** A slot that stays free is written. *)
Lemma table_free h h' i e e' : table_ok h -> watches h !! i = Some e -> we_active e = false ->
  we_active e' = false -> we_path e' = None -> watches h' = <[i := e']> (watches h) -> watchCount h' = watchCount h ->
  (w_nextId h' = w_nextId h \/ w_nextId h' = (w_nextId h +64 1)) ->
  table_ok h' /\ forall j, active_slot h' j = active_slot h j.
Proof using Type.
  intros [Hlen Hcount Hslots Hids] He Ha Ha' Hp Hw Hc Hn. pose proof (slot_insert h h' i e e' He Hw) as Hs.
  assert (Hsame : forall j, active_slot h' j = active_slot h j).
  { intros j. rewrite Hs. case_decide; [|done]. subst j. unfold active_slot. by rewrite He, Ha, Ha'. }
  split; [|done]. split.
  - by rewrite Hw, length_insert.
  - rewrite Hc, Hcount, Hw. pose proof (actives_insert _ _ _ e' He) as Hai. rewrite Ha, Ha' in Hai. f_equal. cbn in Hai. lia.
  - rewrite Hw. apply slots_insert; [done|]. unfold slot_ok. by rewrite Ha'.
  - destruct Hids as (n & Hn0 & Hid & Huniq). destruct Hn as [Hn|Hn].
    + exists n. split_and!; [done|congruence|]. intros Hb j x. rewrite Hsame. intros Hx. destruct (Huniq Hb j x Hx) as [H1 H2]. split; [done|].
      intros k y. rewrite Hsame. apply H2.
    + exists (n + 1)%Z. split_and!; [lia|rewrite Hn, Hid, u64_add_l; f_equal; lia|]. intros Hb j x. rewrite Hsame. intros Hx.
      destruct (Huniq ltac:(lia) j x Hx) as [H1 H2]. split; [lia|]. intros k y. rewrite Hsame. apply H2.
Qed.

Lemma add_ok h w m path ev cb d : watch_ok h w ->
  wp (loopyWatchAdd kernel true m (Some path) ev cb d) (fun r w' => exists h', watch_ok h' w' /\ calls w' = calls w /\ inotifyFd h' = inotifyFd h /\
    ((r = 0%Z /\ forall j, active_slot h' j = active_slot h j) \/
     exists i e, active_slot h i = None /\ (forall j, j < i -> is_Some (active_slot h j)) /\ r = w_nextId h /\
       e = WatchEntry (w_nextId h) (Some path) ev cb d true (we_wd e) /\
       forall j, active_slot h' j = if decide (j = i) then Some e else active_slot h j)) w.
Proof using Type*.
  intros H. unfold loopyWatchAdd. cbn [negb orb]. destruct (Z.eqb_spec cb 0) as [|Hcb]; [wstep; exists h; split_and!; [done|done|done|by left]|].
  pose proof (wk_watcher _ _ H) as Hw. pose proof (wk_table _ _ H) as Ht. do 2 wstep.
  pose proof (findFree_spec h (tb_length _ Ht)) as Hf. destruct (watchFindFree h) as [i|] eqn:Ef; [|wstep; exists h; split_and!; [done|done|done|by left]].
  destruct Hf as (Hi & Hsi & (e & He & Ha) & Hlt). destruct m; cbn [negb].
  2:{ wstep. eapply wp_set_slot; [done|done|]. wstep. set (h' := h <| watches ::= _ |>).
      destruct (table_free h h' i e (e <| we_path := None |>) Ht He Ha) as [Ht' Hs']; [done|done|done|done|by left|].
      exists h'. split; [by eapply watch_ok_ext|]. split; [done|]. split; [done|]. by left. }
  wstep. eapply wp_set_slot; [done|done|]. do 4 wstep. set (e1 := e <| we_path := _ |> <| we_events := _ |> <| we_callback := _ |> <| we_userData := _ |> <| we_id := _ |>).
  match goal with |- context [kernel ?a ?b] => set (r := kernel a b) end. assert (Hlen : i < length (watches h)) by (rewrite (tb_length _ Ht); done).
  set (h1 := (h <| watches ::= <[i := e1]> |>) <| w_nextId := _ |>). set (e2 := e1 <| we_wd := ret r |>). set (h2 := h1 <| watches ::= <[i := e2]> |>).
  wstep. eapply (wp_set_slot _ _ i _ h1 e1); [done|cbn; by rewrite list_lookup_insert_eq|]. fold e2 h2.
  assert (He2 : watches h2 !! i = Some e2) by (cbn; rewrite list_lookup_insert_eq; [done|by rewrite length_insert]).
  destruct (Z.eqb_spec (ret r) (-1)) as [Er|Er].
  - wstep. eapply (wp_set_slot _ _ i _ h2 e2); [done|done|]. wstep. set (h3 := h2 <| watches ::= _ |>).
    destruct (table_free h h3 i e (e2 <| we_path := None |>) Ht He Ha) as [Ht' Hs']; [done|done|cbn; by rewrite !list_insert_insert_eq|done|by right|].
    exists h3. split; [by eapply watch_ok_ext|]. split; [done|]. split; [done|]. by left.
  - wstep. eapply (wp_set_slot _ _ i _ h2 e2); [done|done|]. set (e3 := e2 <| we_active := true |>). set (h3 := h2 <| watches ::= _ |>).
    do 3 wstep. set (h4 := h3 <| watchCount := _ |>). assert (Hw4 : watches h4 = <[i := e3]> (watches h)) by (cbn; by rewrite !list_insert_insert_eq).
    eapply (wp_the_slot _ i _ h4 e3); [done|rewrite Hw4; by rewrite list_lookup_insert_eq|]. wstep.
    pose proof (slot_insert h h4 i e e3 He Hw4) as Hs4. cbn [we_active e3] in Hs4.
    assert (Ht4 : table_ok h4).
    { pose proof (actives_insert _ _ _ e3 He) as Hai. rewrite Ha in Hai. cbn in Hai. destruct Ht as [_ Hcount Hslots Hids]. split.
      - rewrite Hw4, length_insert. by rewrite <- (tb_length _ (wk_table _ _ H)).
      - rewrite Hw4. cbn. rewrite Hcount. pose proof (actives_bound (<[i:=e3]> (watches h))) as Hb. rewrite length_insert, (tb_length _ (wk_table _ _ H)) in Hb.
        unfold MAX_WATCHES in Hb. rewrite u64_small; [lia|unfold in64, w64; lia].
      - rewrite Hw4. apply slots_insert; [done|]. unfold slot_ok. cbn. split_and!; [by eexists|done|done].
      - destruct Hids as (n & Hn0 & Hid & Huniq). exists (n + 1)%Z. split_and!; [lia|cbn; rewrite Hid, u64_add_l; f_equal; lia|].
        intros Hb. assert (Eid : we_id e3 = (n + 1)%Z) by (cbn; rewrite Hid, u64_small; [lia|unfold in64, w64 in *; lia]).
        specialize (Huniq ltac:(lia)). intros j x. rewrite Hs4. case_decide as Hj.
        + intros [= <-]. rewrite Eid. split; [lia|]. intros k y. rewrite Hs4. case_decide; [intros; congruence|]. intros Hy Heq.
          destruct (Huniq k y Hy) as [H1 _]. lia.
        + intros Hx. destruct (Huniq j x Hx) as [H1 H2]. split; [lia|]. intros k y. rewrite Hs4. case_decide; [|apply H2].
          intros [= <-] Heq. lia. }
    exists h4. split; [by eapply watch_ok_ext|]. split; [done|]. split; [done|]. right. exists i, e3. split_and!; done.
Qed.

(** Ids are distinct as long as their counter has not wrapped. *)
Definition ids_unique h : Prop :=
  forall i e, active_slot h i = Some e -> we_id e <> 0%Z /\ forall j e', active_slot h j = Some e' -> we_id e' = we_id e -> j = i.

Lemma table_remove h h' i e : table_ok h -> active_slot h i = Some e -> watches h' = <[i := empty_entry]> (watches h) ->
  watchCount h' = (watchCount h -64 1) -> w_nextId h' = w_nextId h ->
  table_ok h' /\ forall j, active_slot h' j = if decide (j = i) then None else active_slot h j.
Proof using Type.
  intros [Hlen Hcount Hslots Hids] [He Ha]%slot_lookup Hw Hc Hn. pose proof (slot_insert h h' i e empty_entry He Hw) as Hs.
  cbn [we_active empty_entry] in Hs. split; [|done]. pose proof (actives_insert _ _ _ empty_entry He) as Hai. rewrite Ha in Hai. cbn in Hai.
  pose proof (actives_bound (watches h)) as Hb. rewrite Hlen in Hb. unfold MAX_WATCHES in Hb. split.
  - by rewrite Hw, length_insert.
  - rewrite Hc, Hcount, Hw. rewrite u64_small; [lia|unfold in64, w64; lia].
  - rewrite Hw. by apply slots_insert.
  - destruct Hids as (n & Hn0 & Hid & Huniq). exists n. split_and!; [done|congruence|]. intros Hlt j x. rewrite Hs. case_decide; [done|].
    intros Hx. destruct (Huniq Hlt j x Hx) as [H1 H2]. split; [done|]. intros k y. rewrite Hs. case_decide; [done|apply H2].
Qed.

Lemma remove_ok h w id : watch_ok h w ->
  wp (loopyWatchRemove kernel true id) (fun b w' => exists h', watch_ok h' w' /\ calls w' = calls w /\ inotifyFd h' = inotifyFd h /\
    ((b = false /\ h' = h /\ w' = w /\ (id = 0%Z \/ forall j e, active_slot h j = Some e -> we_id e <> id)) \/
     (b = true /\ exists i e r, active_slot h i = Some e /\ we_id e = id /\ (forall j e', j < i -> active_slot h j = Some e' -> we_id e' <> id) /\
        syslog w' = (SysRmWatch (inotifyFd h) (we_wd e), r) :: syslog w /\
        forall j, active_slot h' j = if decide (j = i) then None else active_slot h j))) w.
Proof using Type*.
  intros H. unfold loopyWatchRemove. cbn [negb orb].
  destruct (Z.eqb_spec id 0) as [E|Hid]; [wstep; exists h; split_and!; [done|done|done|left; split_and!; auto]|].
  pose proof (wk_watcher _ _ H) as Hw. pose proof (wk_table _ _ H) as Ht. do 2 wstep. pose proof (findById_spec h id) as Hf.
  destruct (watchFindById h id) as [i|]; [|wstep; exists h; split_and!; [done|done|done|left; split_and!; auto]].
  destruct Hf as (e & Hs & He & Hlt). pose proof Hs as [Hl Ha]%slot_lookup. wstep. eapply wp_the_slot; [done|done|]. rewrite Ha. cbn [negb]. do 2 wstep.
  match goal with |- context [kernel ?a ?b] => set (r := kernel a b) end.
  wstep. eapply wp_set_slot; [done|done|]. do 3 wstep. set (h' := _ <| watchCount := _ |>).
  destruct (table_remove h h' i e Ht Hs) as [Ht' Hs']; [done|done|done|]. exists h'. split; [by eapply watch_ok_ext|]. split; [done|]. split; [done|].
  right. split; [done|]. exists i, e, r. split_and!; done.
Qed.

Lemma removeFrom_ok n : forall h w, n <= MAX_WATCHES -> watch_ok h w ->
  wp (removeFrom kernel n) (fun _ w' => exists h', watch_ok h' w' /\ calls w' = calls w /\ inotifyFd h' = inotifyFd h /\
    (forall j, active_slot h' j = None \/ active_slot h' j = active_slot h j) /\ (ids_unique h -> forall j, MAX_WATCHES - n <= j -> active_slot h' j = None)) w.
Proof using Type*.
  induction n as [|n IH]; intros h w Hn H; cbn [removeFrom].
  - wstep. exists h. split_and!; try done; [by right|]. intros _ j Hj. unfold active_slot. rewrite lookup_ge_None_2; [done|].
    rewrite (tb_length _ (wk_table _ _ H)). lia.
  - assert (Hl : MAX_WATCHES - S n < length (watches h)) by (rewrite (tb_length _ (wk_table _ _ H)); unfold MAX_WATCHES in *; lia).
    apply lookup_lt_is_Some in Hl as [e He]. remember (MAX_WATCHES - S n) as i eqn:Ei. wstep. eapply wp_the_slot; [apply H|done|].
    assert (Hfin : forall h1 w1, watch_ok h1 w1 -> calls w1 = calls w -> inotifyFd h1 = inotifyFd h ->
      (forall j, active_slot h1 j = None \/ active_slot h1 j = active_slot h j) -> (ids_unique h -> active_slot h1 i = None) ->
      wp (removeFrom kernel n) (fun _ w' => exists h', watch_ok h' w' /\ calls w' = calls w /\ inotifyFd h' = inotifyFd h /\
        (forall j, active_slot h' j = None \/ active_slot h' j = active_slot h j) /\ (ids_unique h -> forall j, i <= j -> active_slot h' j = None)) w1).
    { intros h1 w1 H1 Hc1 Hf1 Hs1 Hi1. eapply wp_mono; [apply (IH h1 w1); [lia|done]|]. intros _ w' (h' & H' & Hc' & Hf' & Hs' & Hu').
      exists h'. split_and!; [done|congruence|congruence| |].
      - intros j. destruct (Hs' j) as [E|E]; [by left|]. rewrite E. apply Hs1.
      - intros Hu j Hj. destruct (decide (j = i)) as [-> |Hne].
        + destruct (Hs' i) as [E|E]; [done|]. rewrite E. by apply Hi1.
        + apply Hu'; [|lia]. intros k x Hx. destruct (Hs1 k) as [E|E]; [congruence|]. rewrite E in Hx. destruct (Hu k x Hx) as [U1 U2].
          split; [done|]. intros l y Hy. destruct (Hs1 l) as [El|El]; [congruence|]. rewrite El in Hy. by apply U2. }
    destruct (we_active e) eqn:Ea.
    + assert (Hse : active_slot h i = Some e) by (by apply slot_lookup). do 2 wstep. eapply wp_mono; [by apply remove_ok|].
      intros b w1 (h1 & H1 & Hc1 & Hf & [(-> & -> & -> & Hno)|(-> & k & x & r & Hk & Hid & Hfirst & _ & Hs1)]); wstep.
      * eapply Hfin; [done|done|done|by right|]. intros Hu. destruct (Hu i e Hse) as [Hne _]. destruct Hno as [Hno|Hno]; [done|]. by destruct (Hno i e Hse).
      * eapply Hfin; [done|done|done| |].
        -- intros j. rewrite Hs1. case_decide; auto.
        -- intros Hu. rewrite Hs1. case_decide as Hik; [done|]. destruct (Hu i e Hse) as [_ U]. by destruct Hik; symmetry; eapply U.
    + wstep. eapply Hfin; [done|done|done|by right|]. intros _. unfold active_slot. by rewrite He, Ea.
Qed.

Lemma removeAll_ok h w : watch_ok h w ->
  wp (loopyWatchRemoveAll kernel true) (fun _ w' => exists h', watch_ok h' w' /\ calls w' = calls w /\ inotifyFd h' = inotifyFd h /\
    (ids_unique h -> forall j, active_slot h' j = None)) w.
Proof using Type*.
  intros H. unfold loopyWatchRemoveAll. cbn [negb]. eapply wp_mono; [by apply (removeFrom_ok _ h)|].
  intros [] w' (h' & H' & Hc & Hf & _ & Hu). exists h'. split_and!; [done|done|done|]. intros Hi j. apply Hu; [done|]. unfold MAX_WATCHES. lia.
Qed.

Definition watch_none w : Prop := watcher w = None /\ fl_ok (loop w) /\ open_fds (syslog w) = [].

Lemma watchFree_ok h w : watch_ok h w ->
  wp (loopyWatchFree kernel true) (fun _ w' => watch_none w' /\ calls w' = calls w /\
    (exists r log, syslog w' = (SysClose (inotifyFd h), r) :: log) /\ forall b, fl_on (loop w') (inotifyFd h) b = false) w.
Proof using Type*.
  intros H. unfold loopyWatchFree. cbn [negb]. wstep. eapply wp_mono; [by apply removeAll_ok|].
  intros [] w1 (h1 & H1 & Hc & Hf & _). pose proof (wk_watcher _ _ H1) as Hw. do 4 wstep. rewrite <- Hf.
  destruct (fl_unregister_spec true true (inotifyFd h1) (loop w1) (wk_loop _ _ H1) (proj2 (wk_fd _ _ H1))) as (l & El & Hl & Hon).
  rewrite El. do 4 wstep. split_and!; [|done|by eexists _, _|].
  - split_and!; [done|done|]. cbn. rewrite (wk_open _ _ H1). by rewrite filter_cons_False by (intros E; by apply E).
  - intros b. cbn. rewrite Hon, Z.eqb_refl. by destruct b; rewrite andb_false_r.
Qed.

Lemma run_watch_op_ok h w op : watch_ok h w -> op <> WFree -> wp (run_watch_op kernel op) (fun _ w' => exists h', watch_ok h' w' /\ inotifyFd h' = inotifyFd h) w.
Proof using Type*.
  intros H Hop. destruct op as [m path ev cb d|id| |d|]; cbn [run_watch_op]; try done.
  - wstep. eapply wp_mono; [by apply (add_ok h)|]. intros r w' (h' & H' & _ & Hf & _). wstep. eauto.
  - wstep. eapply wp_mono; [by apply (remove_ok h)|]. intros r w' (h' & H' & _ & Hf & _). wstep. eauto.
  - eapply wp_mono; [by apply (removeAll_ok h)|]. intros r w' (h' & H' & _ & Hf & _). eauto.
  - pose proof (wk_watcher _ _ H) as Hw. unfold loopyWatchSetData. cbn [pwhen]. wstep. exists (h <| w_userData := d |>). split; [|done].
    eapply watch_ok_ext; [exact H|done| |done|done|done]. pose proof (wk_table _ _ H) as []. by split.
Qed.

(** Callbacks may do anything but release the handle. *)
Definition keeps_handle : Prop := forall hist, WFree ∉ user hist.

Lemma run_watch_ops_ok ops : forall h w, WFree ∉ ops -> watch_ok h w ->
  wp (run_watch_ops kernel ops) (fun _ w' => exists h', watch_ok h' w' /\ inotifyFd h' = inotifyFd h) w.
Proof using Type*.
  induction ops as [|op ops IH]; intros h w Hin H; cbn [run_watch_ops]; [wstep; eauto|].
  apply not_elem_of_cons in Hin as [Hop Hin]. wstep. eapply wp_mono; [by apply (run_watch_op_ok h)|].
  intros _ w1 (h1 & H1 & Hf1). eapply wp_mono; [by apply (IH h1)|]. intros _ w2 (h2 & H2 & Hf2). exists h2. split; [done|congruence].
Qed.

Lemma handleEvent_ok h w wd mask name : keeps_handle -> watch_ok h w ->
  wp (handleEvent kernel user wd mask name) (fun _ w' => exists h', watch_ok h' w' /\ inotifyFd h' = inotifyFd h) w.
Proof using Type*.
  intros Hk H. pose proof (wk_watcher _ _ H) as Hw. unfold handleEvent. do 2 wstep. pose proof (findByWd_spec h wd) as Hf.
  destruct (watchFindByWd h wd) as [i|]; [|wstep; eauto]. destruct Hf as (e & [He Ha]%slot_lookup & _). wstep. eapply wp_the_slot; [done|done|].
  destruct (Z.eqb_spec (we_callback e) 0); [wstep; eauto|]. unfold watch_callback. do 4 wstep. apply run_watch_ops_ok; [apply Hk|].
  eapply watch_ok_ext; [exact H|apply H|apply H|done|done|done].
Qed.

Lemma handleEvents_ok es : keeps_handle -> forall h w, watch_ok h w ->
  wp (handleEvents kernel user es) (fun _ w' => exists h', watch_ok h' w' /\ inotifyFd h' = inotifyFd h) w.
Proof using Type*.
  intros Hk. induction es as [|e es IH]; intros h w H; cbn [handleEvents]; [wstep; eauto|]. wstep.
  eapply wp_mono; [by apply (handleEvent_ok h)|]. intros _ w1 (h1 & H1 & Hf1).
  eapply wp_mono; [by apply (IH h1)|]. intros _ w2 (h2 & H2 & Hf2). exists h2. split; [done|congruence].
Qed.

(** The kernel hands out descriptors that the loop can hold, and reads of whole
    events. *)
Definition whole_reads : Prop := forall log fd n, (0 < ret (kernel log (SysReadEvents fd n)))%Z ->
  exists es, Forall event_ok es /\ bytes_read (kernel log (SysReadEvents fd n)) = concat (encode <$> es).
Definition good_fds : Prop := forall log, ret (kernel log SysInotifyInit) <> (-1)%Z -> fl_fd (ret (kernel log SysInotifyInit)).

Lemma eventCallback_ok rounds : keeps_handle -> whole_reads -> forall h w fd, watch_ok h w ->
  wp (watchEventCallback kernel user rounds fd) (fun _ w' => exists h', watch_ok h' w' /\ inotifyFd h' = inotifyFd h) w.
Proof using Type*.
  intros Hk Hr. induction rounds as [|rounds IH]; intros h w fd H; cbn [watchEventCallback]; [wstep; eauto|]. do 2 wstep.
  set (r := kernel (syslog w) (SysReadEvents fd 4096)). set (w1 := w <| syslog ::= _ |>).
  assert (H1 : watch_ok h w1) by (eapply watch_ok_ext; [exact H|apply H|apply H|done|done|done]).
  destruct (Z.ltb_spec 0 (ret r)) as [Hpos|]; [|wstep; eauto]. destruct (Hr _ _ _ Hpos) as (es & Hes & Eb). fold r in Eb. rewrite Eb.
  wstep. unfold wp at 1. rewrite processBuffer_events by (done || lia). pose proof (handleEvents_ok es Hk h w1 H1) as Hev. unfold wp at 1 in Hev.
  destruct (handleEvents kernel user es w1) as [[[] w2]|]; [|done]. destruct Hev as (h2 & H2 & Hf2).
  eapply wp_mono; [by apply (IH h2)|]. intros _ w3 (h3 & H3 & Hf3). exists h3. split; [done|congruence].
Qed.

Lemma new_table fd : table_ok (Watch 0 (replicate MAX_WATCHES empty_entry) 0 1 fd).
Proof using Type.
  split; cbn [watches watchCount].
  - apply length_replicate.
  - assert (E : actives (replicate MAX_WATCHES empty_entry) = 0) by (by apply actives_none, Forall_replicate). by rewrite E.
  - by apply Forall_replicate.
  - exists 0%Z. split_and!; [done|done|]. intros _ i e [Hi Ha]%slot_lookup.
    apply list_elem_of_lookup_2, elem_of_replicate in Hi as [-> _]. done.
Qed.

Lemma watchNew_ok w nn m : good_fds -> watch_none w ->
  wp (loopyWatchNew kernel nn m) (fun b w' => if b then exists h, watch_ok h w' else watch_none w') w.
Proof using Type*.
  intros Hg (Hw & Hl & Ho). unfold loopyWatchNew. destruct nn; cbn [negb]; [|by wstep]. destruct m; cbn [negb]; [|by wstep]. do 2 wstep.
  specialize (Hg (syslog w)). set (r := kernel (syslog w) SysInotifyInit) in *.
  destruct (Z.eqb_spec (ret r) (-1)) as [E|E]; [wstep; split_and!; [done|done|]; cbn; by rewrite E|]. specialize (Hg E). do 2 wstep.
  destruct (fl_register_spec false (ret r) watchEventCallback_ptr watch_ptr (loop w) Hl Hg) as (l & ok & El & Hl' & Hon). cbn [loop]. 
  change (loop (w <| syslog ::= cons (SysInotifyInit, r) |>)) with (loop w). rewrite El. do 2 wstep. destruct ok; cbn [negb].
  - do 3 wstep. eexists. split; [reflexivity|apply new_table|split; [exact E|exact Hg]|exact Hl'| |].
    + change (fl_on l (ret r) false = true). by rewrite Hon, Z.eqb_refl.
    + change ((if (ret r =? -1)%Z then open_fds (syslog w) else ret r :: open_fds (syslog w)) = [ret r]). by rewrite (proj2 (Z.eqb_neq _ _) E), Ho.
  - do 3 wstep. split_and!; [done|done|]. cbn. rewrite (proj2 (Z.eqb_neq _ _) E), Ho. by rewrite filter_cons_False by (intros Hn; by apply Hn).
Qed.

(** ** Everything that happens *)

(** Results are [None] when freed memory is used or the buffer overrun. *)
Inductive watch_step w : option watchWorld -> Prop :=
  | wt_new nn mallocOk : watcher w = None -> watch_step w (snd <$> loopyWatchNew kernel nn mallocOk w)
  | wt_op op : is_Some (watcher w) -> watch_step w (snd <$> run_watch_op kernel op w)
  | wt_event h rounds : watcher w = Some h -> watch_step w (snd <$> watchEventCallback kernel user rounds (inotifyFd h) w)
  | wt_others l : fl_ok l -> (forall h, watcher w = Some h -> fl_on l (inotifyFd h) false = fl_on (loop w) (inotifyFd h) false) ->
      watch_step w (Some (w <| loop := l |>)).

Inductive watch_reach w0 : watchWorld -> Prop :=
  | wt_refl : watch_reach w0 w0
  | wt_trans w w' : watch_reach w0 w -> watch_step w (Some w') -> watch_reach w0 w'.

Definition watch_world0 (l : L) : watchWorld := WatchWorld l None [] [].

Definition watch_inv w : Prop := match watcher w with Some h => watch_ok h w | None => watch_none w end.

Lemma watch_ok_inv h w : watch_ok h w -> watch_inv w.
Proof using Type. intros H. unfold watch_inv. by rewrite (wk_watcher _ _ H). Qed.

Lemma watch_step_ok w o : keeps_handle -> whole_reads -> good_fds -> watch_inv w -> watch_step w o -> exists w', o = Some w' /\ watch_inv w'.
Proof using Type*.
  intros Hk Hr Hg H Hs. unfold watch_inv in H. destruct Hs as [nn m Hw|op [h Hw]|h rounds Hw|l Hl Hon].
  - rewrite Hw in H. destruct (wp_run _ _ _ (watchNew_ok w nn m Hg H)) as (b & w' & E & Hb). rewrite E. exists w'. split; [done|].
    destruct b; [destruct Hb; by eapply watch_ok_inv|]. unfold watch_inv. by rewrite (proj1 Hb).
  - rewrite Hw in H. assert (op = WFree \/ op <> WFree) as [-> |Hop] by (destruct op; first [by left|by right]).
    + destruct (wp_run _ _ _ (watchFree_ok h w H)) as ([] & w' & E & Hn & _). cbn [run_watch_op]. rewrite E. exists w'. split; [done|].
      unfold watch_inv. by rewrite (proj1 Hn).
    + destruct (wp_run _ _ _ (run_watch_op_ok h w op H Hop)) as ([] & w' & E & h' & H' & _). rewrite E. exists w'. split; [done|by eapply watch_ok_inv].
  - rewrite Hw in H. destruct (wp_run _ _ _ (eventCallback_ok rounds Hk Hr h w (inotifyFd h) H)) as (b & w' & E & h' & H' & _).
    rewrite E. exists w'. split; [done|by eapply watch_ok_inv].
  - exists (w <| loop := l |>). split; [done|]. unfold watch_inv. cbn. destruct (watcher w) as [h|].
    + destruct H. split; try done. cbn. by rewrite (Hon h).
    + by destruct H as (? & ? & ?).
Qed.

(** C37. Over all runs, with any kernel and callbacks that do not release the handle: nothing
    freed is used and no buffer overrun; the table has 256 slots, its counter is the number of
    those in use, each of these has a path, a callback and a kernel descriptor, and
    a free one owns no path; ids are distinct until their counter wraps; the loop
    reads the inotify descriptor, the only one open; without a handle none is. *)
Theorem watch_safe l w : keeps_handle -> whole_reads -> good_fds -> fl_ok l -> watch_reach (watch_world0 l) w ->
  match watcher w with
  | Some h =>
      length (watches h) = MAX_WATCHES /\ watchCount h = Z.of_nat (actives (watches h)) /\ (watchCount h <= 256)%Z /\
      Forall slot_ok (watches h) /\ ids_ok h /\ open_fds (syslog w) = [inotifyFd h] /\ fl_on (loop w) (inotifyFd h) false = true
  | None => open_fds (syslog w) = []
  end /\ forall o, watch_step w o -> is_Some o.
Proof using Type*.
  intros Hk Hr Hg Hl Hreach. assert (H : watch_inv w).
  { induction Hreach as [|w w' _ IH Hs]; [by split_and!|]. destruct (watch_step_ok w _ Hk Hr Hg IH Hs) as (? & [= <-] & ?). done. }
  split.
  - unfold watch_inv in H. destruct (watcher w) as [h|]; [|apply H]. destruct H as [_ [T1 T2 T3 T4] _ _ H1 H2]. split_and!; try done.
    rewrite T2. pose proof (actives_bound (watches h)) as Hb. rewrite T1 in Hb. unfold MAX_WATCHES in Hb. lia.
  - intros o Ho. destruct (watch_step_ok w o Hk Hr Hg H Ho) as (w' & -> & _). by eexists.
Qed.

(** Adding puts the watch into the first free slot and answers its id, or
    changes no watch and answers 0; removing an id frees the first slot in use
    that has it after telling the kernel, and answers whether there was one; removing all empties the
    table, as long as no two watches have the same id. *)
Theorem watch_add_remove h w m path ev cb d id : watch_ok h w ->
  wp (loopyWatchAdd kernel true m (Some path) ev cb d) (fun r w' => exists h', watch_ok h' w' /\
    ((r = 0%Z /\ forall j, active_slot h' j = active_slot h j) \/
     exists i e, active_slot h i = None /\ (forall j, j < i -> is_Some (active_slot h j)) /\ r = w_nextId h /\
       e = WatchEntry (w_nextId h) (Some path) ev cb d true (we_wd e) /\
       forall j, active_slot h' j = if decide (j = i) then Some e else active_slot h j)) w /\
  wp (loopyWatchRemove kernel true id) (fun b w' => exists h', watch_ok h' w' /\
    ((b = false /\ w' = w /\ (id = 0%Z \/ forall j e, active_slot h j = Some e -> we_id e <> id)) \/
     (b = true /\ exists i e r, active_slot h i = Some e /\ we_id e = id /\ (forall j e', j < i -> active_slot h j = Some e' -> we_id e' <> id) /\
        syslog w' = (SysRmWatch (inotifyFd h) (we_wd e), r) :: syslog w /\
        forall j, active_slot h' j = if decide (j = i) then None else active_slot h j))) w /\
  (ids_unique h -> wp (loopyWatchRemoveAll kernel true) (fun _ w' => exists h', watch_ok h' w' /\ watchCount h' = 0%Z) w).
Proof using Type*.
  intros H. split_and!.
  - eapply wp_mono; [by apply (add_ok h)|]. intros r w' (h' & H' & _ & _ & Hr). eauto.
  - eapply wp_mono; [by apply (remove_ok h)|]. intros b w' (h' & H' & _ & _ & [(-> & -> & -> & Hr)|Hr]).
    + exists h. split; [done|]. by left.
    + exists h'. split; [done|]. by right.
  - intros Hu. eapply wp_mono; [by apply (removeAll_ok h)|]. intros [] w' (h' & H' & _ & _ & Hr). exists h'. split; [done|].
    rewrite (tb_count _ (wk_table _ _ H')). assert (E : actives (watches h') = 0); [|by rewrite E]. apply actives_none, Forall_forall.
    intros e [i Hi]%list_elem_of_lookup. destruct (we_active e) eqn:Ea; [|done].
    assert (Hs : active_slot h' i = Some e) by (by apply slot_lookup). rewrite (Hr Hu) in Hs. done.
Qed.

(** ** The loop over the reads ends *)

Definition keeps {A} (P : watchWorld -> Prop) (m : prog watchWorld A) : Prop := forall w a w', P w -> m w = Some (a, w') -> P w'.

Lemma keeps_bind {A B} P (m : prog watchWorld A) (k : A -> prog watchWorld B) : keeps P m -> (forall a, keeps P (k a)) -> keeps P (m ≫= k).
Proof using Type. intros Hm Hk w a w' Hp. unfold mbind, prog_bind. destruct (m w) as [[b w1]|] eqn:E; [|done]. eapply Hk. by eapply Hm. Qed.
Lemma keeps_ret {A} P (a : A) : keeps P (mret a).
Proof using Type. by intros w b w' Hp [= _ <-]. Qed.
Lemma keeps_get P : keeps P (@get watchWorld).
Proof using Type. by intros w b w' Hp [= _ <-]. Qed.
Lemma keeps_undefined {A} P : keeps P (@undefined watchWorld A).
Proof using Type. done. Qed.
Lemma keeps_modify P g : (forall w, P w -> P (g w)) -> keeps P (modify g).
Proof using Type. intros Hg w b w' Hp [= _ <-]. by apply Hg. Qed.

(** A bound of the number of reads that find events: reads use it up, other calls do not
    add to it. *)
Definition drains (N : list (syscall * sysret) -> nat) : Prop :=
  forall log c, match c with
    | SysReadEvents fd n => (0 < ret (kernel log c))%Z -> N ((c, kernel log c) :: log) < N log
    | _ => N ((c, kernel log c) :: log) <= N log
    end.

Ltac keeps_all :=
  repeat match goal with
  | |- keeps _ (_ ≫= _) => apply keeps_bind; [|intros]
  | |- keeps _ (mret _) => apply keeps_ret
  | |- keeps _ get => apply keeps_get
  | |- keeps _ undefined => apply keeps_undefined
  | |- keeps _ (modify _) => apply keeps_modify; by intros
  | |- keeps _ _ => progress cbn [pwhen negb]
  | |- keeps _ (match _ with _ => _ end) => case_match
  | |- keeps _ (if _ then _ else _) => case_match
  end.

Section Drains.
Variable N : list (syscall * sysret) -> nat.
Hypothesis HN : drains N.

Lemma sys_keeps k c : (match c with SysReadEvents _ _ => False | _ => True end) -> keeps (fun w => N (syslog w) <= k) (sys kernel c).
Proof using HN.
  intros Hc w r w' Hp [= <- <-]. cbn. pose proof (HN (syslog w) c) as H. destruct c; try done; lia.
Qed.

Lemma handleEvents_keeps k es : keeps (fun w => N (syslog w) <= k) (handleEvents kernel user es).
Proof using HN.
  assert (Hset : forall g i, keeps (fun w => N (syslog w) <= k) (set_slot i g)) by (intros; unfold set_slot, the_slot, set_watch, the_watch; keeps_all).
  assert (Hsw : forall g, keeps (fun w => N (syslog w) <= k) (set_watch g)) by (intros; unfold set_watch, the_watch; keeps_all).
  assert (Hrem : forall id, keeps (fun w => N (syslog w) <= k) (loopyWatchRemove kernel true id)).
  { intros id. unfold loopyWatchRemove, the_slot, the_watch. keeps_all; try apply Hset; try apply Hsw; by apply sys_keeps. }
  assert (Hfrom : forall n, keeps (fun w => N (syslog w) <= k) (removeFrom kernel n)).
  { induction n as [|n IH]; cbn [removeFrom]; unfold the_slot, the_watch; keeps_all; first [apply Hrem|apply IH]. }
  assert (Hadd : forall m path ev cb d, keeps (fun w => N (syslog w) <= k) (loopyWatchAdd kernel true m path ev cb d)).
  { intros. unfold loopyWatchAdd, the_slot, the_watch. keeps_all; try apply Hset; try apply Hsw; by apply sys_keeps. }
  assert (Hops : forall ops, keeps (fun w => N (syslog w) <= k) (run_watch_ops kernel ops)).
  { induction ops as [|op ops IH]; cbn [run_watch_ops]; [apply keeps_ret|]. apply keeps_bind; [|by intros].
    destruct op; cbn [run_watch_op]; unfold loopyWatchRemoveAll, loopyWatchFree, loopyWatchSetData, the_watch; keeps_all;
      try apply Hadd; try apply Hrem; try apply Hfrom; try apply Hsw; try (by apply sys_keeps). }
  induction es as [|e es IH]; cbn [handleEvents]; [apply keeps_ret|]. apply keeps_bind; [|by intros].
  unfold handleEvent, watch_callback, the_slot, the_watch. keeps_all. apply Hops.
Qed.
End Drains.

(** When the kernel has finitely many events, the callback reads until there are none
    and returns. *)
Theorem watch_reads_end N rounds h w : drains N -> keeps_handle -> whole_reads -> watch_ok h w -> N (syslog w) < rounds ->
  wp (watchEventCallback kernel user rounds (inotifyFd h)) (fun ended w' => ended = true /\ exists h', watch_ok h' w') w.
Proof using Type*.
  intros HN Hk Hr. revert h w. induction rounds as [|rounds IH]; intros h w H Hlt; [lia|]. cbn [watchEventCallback]. do 2 wstep.
  pose proof (HN (syslog w) (SysReadEvents (inotifyFd h) 4096)) as Hd. cbv beta iota in Hd.
  set (r := kernel (syslog w) _) in *. set (w1 := w <| syslog ::= _ |>).
  assert (H1 : watch_ok h w1) by (eapply watch_ok_ext; [exact H|apply H|apply H|done|done|done]).
  destruct (Z.ltb_spec 0 (ret r)) as [Hpos|]; [|wstep; eauto]. destruct (Hr _ _ _ Hpos) as (es & Hes & Eb). fold r in Eb. rewrite Eb.
  wstep. unfold wp at 1. rewrite processBuffer_events by (done || lia). pose proof (handleEvents_ok es Hk h w1 H1) as Hev. unfold wp at 1 in Hev.
  pose proof (handleEvents_keeps N HN (N (syslog w1)) es w1) as Hkeep.
  destruct (handleEvents kernel user es w1) as [[[] w2]|]; [|done]. destruct Hev as (h2 & H2 & Hf2). specialize (Hkeep tt w2 (le_n _) eq_refl).
  cbv beta in Hkeep. rewrite <- Hf2. apply IH; [done|]. specialize (Hd Hpos). change (syslog w1) with ((SysReadEvents (inotifyFd h) 4096, r) :: syslog w) in Hkeep. lia.
Qed.
End Table.

(** C38. A buffer that holds the encoding of any events is taken apart into exactly
    these, in order, whatever the callbacks do in between. *)
Theorem watch_parse {L : Type} `{!FdLoop L} kernel user es (w : @watchWorld L) : Forall event_ok es ->
  processBuffer kernel user (S (length (concat (encode <$> es)))) (concat (encode <$> es)) w = handleEvents kernel user es w.
Proof. intros He. apply processBuffer_events; [done|lia]. Qed.

Lemma event_sets (P : Z -> Prop) events : (0 <= events <= LOOPY_WATCH_ALL)%Z -> Forall P (Z.of_nat <$> seq 0 32) -> P events.
Proof.
  intros He HP. rewrite Forall_forall in HP. apply HP, list_elem_of_fmap. exists (Z.to_nat events).
  unfold LOOPY_WATCH_ALL in He. split; [lia|]. apply elem_of_seq. lia.
Qed.

Lemma land_orIf mask b m acc : Z.land mask (orIf b m acc) = 0%Z <-> Z.land mask acc = 0%Z /\ (b = true -> Z.land mask m = 0%Z).
Proof. unfold orIf. destruct b; [|naive_solver]. rewrite Z.land_lor_distr_r, Z.lor_eq_0_iff. naive_solver. Qed.

Lemma event_bits b1 b2 b3 b4 b5 events : (0 <= events <= LOOPY_WATCH_ALL)%Z ->
  Z.land (orIf b5 LOOPY_WATCH_ATTRIB (orIf b4 LOOPY_WATCH_RENAME (orIf b3 LOOPY_WATCH_DELETE (orIf b2 LOOPY_WATCH_CREATE (orIf b1 LOOPY_WATCH_MODIFY 0))))) events = 0%Z ->
  (has events LOOPY_WATCH_MODIFY = true -> b1 = false) /\ (has events LOOPY_WATCH_CREATE = true -> b2 = false) /\
  (has events LOOPY_WATCH_DELETE = true -> b3 = false) /\ (has events LOOPY_WATCH_RENAME = true -> b4 = false) /\
  (has events LOOPY_WATCH_ATTRIB = true -> b5 = false).
Proof.
  intros He. pattern events. apply (event_sets _ _ He).
  destruct b1, b2, b3, b4, b5; refine (bool_decide_unpack _ _); by vm_compute.
Qed.

(** What is asked for is what is reported: translating an event set to inotify bits and
    back loses nothing, a kernel event with a bit that was asked for is reported as one of the
    events asked for, and what is reported is within the five events. *)
Theorem watch_masks events mask : (0 <= events <= LOOPY_WATCH_ALL)%Z ->
  inotifyToEvents (eventsToInotify events) = events /\
  (0 <= inotifyToEvents mask <= LOOPY_WATCH_ALL)%Z /\
  (Z.land mask (eventsToInotify events) <> 0%Z -> Z.land (inotifyToEvents mask) events <> 0%Z).
Proof.
  intros He. split_and!.
  - apply (event_sets (fun e => inotifyToEvents (eventsToInotify e) = e) _ He). refine (bool_decide_unpack _ _). by vm_compute.
  - unfold inotifyToEvents. by destruct (has _ _), (has _ _), (has _ _), (has _ _), (has _ _).
  - unfold inotifyToEvents. by destruct (has _ _), (has _ _), (has _ _), (has _ _), (has _ _).
  - intros Hne Hz. apply Hne. destruct (event_bits _ _ _ _ _ _ He Hz) as (H1 & H2 & H3 & H4 & H5).
    unfold eventsToInotify. rewrite !land_orIf. unfold has in *.
    split_and!; [apply Z.land_0_r|..]; intros Hb;
      first [apply H1 in Hb|apply H2 in Hb|apply H3 in Hb|apply H4 in Hb|apply H5 in Hb]; by apply negb_false_iff, Z.eqb_eq in Hb.
Qed.

(** ** Where watches are missed *)

(** The kernel has one watch per file and answers the descriptor it has: of two
    watches of a file only the first is told of events. *)
Lemma watch_same_file h i j e e' : active_slot h i = Some e -> active_slot h j = Some e' -> we_wd e = we_wd e' -> i < j -> watchFindByWd h (we_wd e') <> Some j.
Proof.
  intros Hi Hj Hwd Hlt E. pose proof (findByWd_spec h (we_wd e')) as H. rewrite E in H. destruct H as (x & _ & _ & H). by apply (H i e).
Qed.

(** When the kernel ends a watch (its file is gone) it says so with [IN_IGNORED]: the
    user is called with no event, and the watch stays in the table. *)
Lemma watch_ignored_no_event : inotifyToEvents IN_IGNORED = 0%Z.
Proof. done. Qed.

(** ** A run *)

(** "a" has descriptor 1, other paths have 2; the first read finds a modification of 1 and
    the end of 2. *)
Definition watch_events : list inotify_event := [InotifyEvent 1 IN_MODIFY 0 []; InotifyEvent 2 IN_IGNORED 0 [120; 0; 0; 0]%Z].
Definition watch_kernel (log : list (syscall * sysret)) (c : syscall) : sysret :=
  match c with
  | SysInotifyInit => SysRet 3 []
  | SysAddWatch _ path _ => SysRet (if (path =? "a")%string then 1 else 2) []
  | SysReadEvents _ _ =>
      if existsb (fun '(c, _) => match c with SysReadEvents _ _ => true | _ => false end) log then SysRet (-1) []
      else SysRet 36 (concat (encode <$> watch_events))
  | _ => SysRet 0 []
  end.

(** The first callback watches another path. *)
Definition watch_user (hist : list loopyWatchInfo) : list watch_op := match hist with [_] => [WAdd true "b" LOOPY_WATCH_ALL 8 0] | _ => [] end.

Definition watch_start : @watchWorld watch_set := watch_world0 (L := watch_set) ∅.
Definition watch_new : option watchWorld := snd <$> loopyWatchNew watch_kernel true true watch_start.
Definition watch_added : option watchWorld := w ← watch_new; snd <$> run_watch_op watch_kernel (WAdd true "a" LOOPY_WATCH_ALL 7 9) w.
Definition watch_ran : option watchWorld := w ← watch_added; snd <$> watchEventCallback watch_kernel watch_user 3 3 w.

(** The handle is released in the callback: the loop over the buffer goes on with it. *)
Lemma watch_free_in_callback_unsafe :
  exists w, watch_added = Some w /\ watchEventCallback watch_kernel (fun _ => [WFree]) 3 3 w = None.
Proof. destruct watch_added as [w|] eqn:E; [|by vm_compute in E]. exists w. split; [done|]. evaluate E. injection E as <-. by vm_compute. Qed.

(** The callback removes its own watch and goes on: the table holds no path any more, so the one
    that [info->path] leads to was freed under the callback. *)
Definition paths_held (w : @watchWorld watch_set) : list string :=
  match watcher w with Some h => omap we_path (watches h) | None => [] end.
Lemma watch_info_dangles : exists w, watch_added = Some w /\ paths_held w = ["a"] /\
  (fun x => (wi_path <$> calls (snd x), paths_held (snd x))) <$> watchEventCallback watch_kernel (fun _ => [WRemove 1]) 3 3 w = Some ([Some "a"], []).
Proof. destruct watch_added as [w|] eqn:E; [|by vm_compute in E]. exists w. split; [done|]. evaluate E. injection E as <-. by vm_compute. Qed.

Lemma watch_events_ok : Forall event_ok watch_events.
Proof.
  constructor; [|constructor; [|constructor]]; split; cbn; unfold IN_MODIFY, IN_IGNORED; try lia; [by left|right; set_solver].
Qed.

Lemma watch_keeps : keeps_handle watch_user.
Proof. intros [|i [|j hist]]; cbn; set_solver. Qed.

Lemma watch_whole : whole_reads watch_kernel.
Proof. intros log fd n. cbn. destruct (existsb _ log); [by intros|]. intros _. exists watch_events. split; [apply watch_events_ok|done]. Qed.

Lemma watch_fds : good_fds (L := watch_set) watch_kernel.
Proof. done. Qed.

Notation watch_reaches := (watch_reach watch_kernel watch_user watch_start).

Lemma watch_then (o : option watchWorld) (g : watchWorld -> option watchWorld) w' :
  (forall w, o = Some w -> watch_reaches w /\ watch_step watch_kernel watch_user w (g w)) -> (o ≫= g) = Some w' -> watch_reaches w'.
Proof.
  intros H E. destruct o as [w|]; [|done]. destruct (H w eq_refl) as [Hr Hs]. eapply wt_trans; [exact Hr|].
  change (g w = Some w') in E. by rewrite <- E.
Qed.

(** What a reached world has of a handle. *)
Definition handle_fd (w : @watchWorld watch_set) : option Z := inotifyFd <$> watcher w.

Lemma watch_added_reached w : watch_added = Some w -> watch_reaches w.
Proof.
  apply watch_then. intros w1 E1. split.
  - eapply wt_trans; [apply wt_refl|]. rewrite <- E1. by apply wt_new.
  - apply wt_op. assert (Eo : (handle_fd <$> watch_new) = Some (Some 3%Z)) by by vm_compute. rewrite E1 in Eo. cbn in Eo.
    unfold handle_fd in Eo. destruct (watcher w1); [by eexists|done].
Qed.

Lemma watch_added_handle w : watch_added = Some w -> exists h, watcher w = Some h /\ inotifyFd h = 3%Z.
Proof.
  intros E. assert (Eo : (handle_fd <$> watch_added) = Some (Some 3%Z)) by by vm_compute. rewrite E in Eo. cbn in Eo.
  unfold handle_fd in Eo. destruct (watcher w) as [h|]; [|done]. exists h. split; [done|]. by injection Eo.
Qed.

Lemma watch_added_defined : exists w h, watch_added = Some w /\ watcher w = Some h.
Proof.
  destruct watch_added as [w|] eqn:E; [|by vm_compute in E]. destruct (watch_added_handle w E) as (h & Hh & _). by exists w, h.
Qed.

Lemma watch_ran_reached w : watch_ran = Some w -> watch_reaches w.
Proof.
  apply watch_then. intros w1 E1. split; [by apply watch_added_reached|].
  destruct (watch_added_handle w1 E1) as (h & Hh & Hfd). rewrite <- Hfd. by apply wt_event.
Qed.

Lemma watch_inv_reached w : watch_reaches w -> watch_inv w.
Proof.
  intros H. induction H as [|w w' _ IH Hs]; [by split_and!|].
  by destruct (watch_step_ok _ _ _ _ watch_keeps watch_whole watch_fds IH Hs) as (? & [= <-] & ?).
Qed.

(** The calls and the number of watches at the end of a run. *)
Definition run_outcome (o : option (@watchWorld watch_set)) : option (list (Z * Z) * Z) :=
  w ← o; h ← watcher w; Some ((fun i => (wi_watchId i, wi_events i)) <$> calls w, watchCount h).

(** Two watches, two calls: of the modification, and without event. *)
Lemma watch_outcome : run_outcome watch_ran = Some ([(2, 0); (1, LOOPY_WATCH_MODIFY)]%Z, 2%Z).
Proof. by vm_compute. Qed.

Lemma outcome_handle o r : run_outcome o = Some r -> exists w h, o = Some w /\ watcher w = Some h /\ watchCount h = snd r.
Proof.
  destruct o as [w|]; [|done]. cbn. destruct (watcher w) as [h|] eqn:Eh; [|done]. intros [= <-]. by exists w, h.
Qed.

Lemma watch_safe_witness : exists w h, watch_ran = Some w /\ watcher w = Some h /\ watchCount h = 2%Z /\
  length (watches h) = MAX_WATCHES /\ open_fds (syslog w) = [inotifyFd h].
Proof.
  destruct (outcome_handle _ _ watch_outcome) as (w & h & E & Eh & Hc). exists w, h.
  destruct (watch_safe _ _ (∅ : watch_set) w watch_keeps watch_whole watch_fds I (watch_ran_reached w E)) as [H _].
  rewrite Eh in H. destruct H as (H1 & _ & _ & _ & _ & H2 & _). split; [exact E|]. split; [exact Eh|]. split; [exact Hc|]. by split.
Defined.

Lemma watch_add_remove_witness : exists w h, watch_added = Some w /\ watcher w = Some h /\
  wp (loopyWatchRemove watch_kernel true 1) (fun b w' => exists h', watch_ok h' w') w.
Proof.
  destruct watch_added_defined as (w & h & E & Hh). exists w, h. split; [exact E|]. split; [exact Hh|].
  pose proof (watch_inv_reached w (watch_added_reached w E)) as H. unfold watch_inv in H. rewrite Hh in H.
  destruct (watch_add_remove watch_kernel h w true "b" 1 2 3 1 H) as (_ & Hr & _). eapply wp_mono; [exact Hr|]. intros b w' (h' & H' & _). by exists h'.
Defined.

Definition unread (log : list (syscall * sysret)) : nat :=
  if existsb (fun '(c, _) => match c with SysReadEvents _ _ => true | _ => false end) log then 0 else 1.

Lemma watch_reads_end_witness : exists w h, watch_added = Some w /\ watcher w = Some h /\
  wp (watchEventCallback watch_kernel watch_user 2 (inotifyFd h)) (fun ended _ => ended = true) w.
Proof.
  destruct watch_added_defined as (w & h & E & Hh). exists w, h. split; [exact E|]. split; [exact Hh|].
  pose proof (watch_inv_reached w (watch_added_reached w E)) as H. unfold watch_inv in H. rewrite Hh in H.
  eapply wp_mono; [apply (watch_reads_end watch_kernel watch_user unread 2 h w)|by intros ended w' [-> _]].
  - intros log []; unfold unread; cbn; destruct (existsb _ log); cbn; lia.
  - apply watch_keeps.
  - apply watch_whole.
  - exact H.
  - unfold unread. destruct (existsb _ _); lia.
Defined.

Lemma watch_parse_witness : processBuffer watch_kernel watch_user (S (length (concat (encode <$> watch_events)))) (concat (encode <$> watch_events)) watch_start =
  handleEvents watch_kernel watch_user watch_events watch_start.
Proof. apply watch_parse. apply watch_events_ok. Defined.

Lemma watch_masks_witness : inotifyToEvents (eventsToInotify 9) = 9%Z /\ Z.land (inotifyToEvents IN_CLOSE_WRITE) 9 <> 0%Z.
Proof. destruct (watch_masks 9 IN_CLOSE_WRITE) as (H1 & _ & H2); [by split|]. split; [exact H1|]. by apply H2. Defined.
