(* ===== verification/Signal.v ===== *)
(** * Signals ([src/loopySignal.c], the signalfd build)

    One handle in the process, with a table of callbacks by signal number, over a
    signalfd that the loop reads ([FdLoop]).  The kernel is a function of the
    system calls so far; [blocked] and [fd_mask] are what the calls that
    succeeded asked for.  Which numbers are signals to [sigaddset] is a
    parameter.  The callbacks of users may call everything but the release of
    the handle.

    [signal_safe] is the invariant over all runs, [signal_register] what a
    registration does on every path, [signal_dispatch] what one signal
    does, [signal_deliver] that the callback of the loop treats all the signals it
    reads as a reference function does, with callbacks that register and unregister.
    The lemmas at the end show what the code does where it does not do what is
    documented. *)

From S2P Require Import Prelude FdLoop.

Local Open Scope nat_scope.

(** ** Data *)

(** [NSIG] of Linux. *)
Definition MAX_SIGNALS : nat := 65.

(** Callbacks and user data are numbers, 0 is [NULL].  [oldAction] belongs to the
    build without signalfd. *)
Record loopySignalEntry := SignalEntry {
  se_callback : Z;
  se_userData : Z;
  se_registered : bool;
  se_oneshot : bool
}.
#[export] Instance SignalEntry_rebuild : Rebuild loopySignalEntry := fun e =>
  SignalEntry (se_callback e) (se_userData e) (se_registered e) (se_oneshot e).

Record loopySignalHandler := SignalHandler {
  sh_userData : Z;
  signals : list loopySignalEntry;
  signalFd : Z;
  sh_mask : gset Z
}.
#[export] Instance SignalHandler_rebuild : Rebuild loopySignalHandler := fun h =>
  SignalHandler (sh_userData h) (signals h) (signalFd h) (sh_mask h).

Inductive syscall :=
  | SysSignalfd (fd : Z) (mask : gset Z)
  | SysProcmask (block : bool) (set : gset Z)
  | SysReadInfo (fd : Z)
  | SysClose (fd : Z).

(** The result, and [ssi_signo] after a read. *)
Record sysret := SysRet { ret : Z; ssi_signo : Z }.

Definition sizeof_siginfo : Z := 128.

(** A call of a user's callback. *)
Record sigCall := SigCall { sc_callback : Z; sc_signum : Z; sc_userData : Z }.

Inductive signal_op :=
  | SRegister (signum cb data : Z)
  | SRegisterOneshot (signum cb data : Z)
  | SUnregister (signum : Z)
  | SSetData (data : Z)
  | SFree.

(** ** Names *)

(** The numbers of Linux. *)
Definition signal_names : list (Z * string) :=
  [(6, "SIGABRT"); (14, "SIGALRM"); (7, "SIGBUS"); (17, "SIGCHLD"); (18, "SIGCONT"); (8, "SIGFPE"); (1, "SIGHUP"); (4, "SIGILL");
   (2, "SIGINT"); (9, "SIGKILL"); (13, "SIGPIPE"); (3, "SIGQUIT"); (11, "SIGSEGV"); (19, "SIGSTOP"); (15, "SIGTERM"); (20, "SIGTSTP");
   (21, "SIGTTIN"); (22, "SIGTTOU"); (10, "SIGUSR1"); (12, "SIGUSR2"); (29, "SIGPOLL"); (27, "SIGPROF"); (31, "SIGSYS"); (5, "SIGTRAP");
   (23, "SIGURG"); (26, "SIGVTALRM"); (24, "SIGXCPU"); (25, "SIGXFSZ")]%Z.
Definition loopySignalName (signum : Z) : string :=
  match list_find (fun x => fst x = signum) signal_names with Some (_, (_, name)) => name | None => "UNKNOWN" end.

Section Signal.
Context {L : Type} `{!FdLoop L}.
Variable kernel : list (syscall * sysret) -> syscall -> sysret.
Variable user : list sigCall -> list signal_op.
(** The numbers that [sigaddset] and [sigdelset] take; others fail with [EINVAL]. *)
Variable valid_signal : Z -> bool.

Record signalWorld := SignalWorld {
  loop : L;
  g_signalHandler : option loopySignalHandler;
  syslog : list (syscall * sysret);
  calls : list sigCall (* newest first *)
}.
#[export] Instance SignalWorld_rebuild : Rebuild signalWorld := fun w =>
  SignalWorld (loop w) (g_signalHandler w) (syslog w) (calls w).

Definition sigaddset (s : Z) (m : gset Z) : gset Z := if valid_signal s then {[s]} ∪ m else m.
Definition sigdelset (s : Z) (m : gset Z) : gset Z := if valid_signal s then m ∖ {[s]} else m.

Definition the_handler : prog signalWorld loopySignalHandler :=
  w ← get; match g_signalHandler w with Some h => mret h | None => undefined end.
Definition set_handler (g : loopySignalHandler -> loopySignalHandler) : prog signalWorld unit :=
  h ← the_handler; modify (fun w => w <| g_signalHandler := Some (g h) |>).
(** [sh->signals[signum]] *)
Definition the_entry (signum : Z) : prog signalWorld loopySignalEntry :=
  h ← the_handler; match signals h !! Z.to_nat signum with Some e => if (signum <? 0)%Z then undefined else mret e | None => undefined end.
Definition set_entry (signum : Z) (g : loopySignalEntry -> loopySignalEntry) : prog signalWorld unit :=
  e ← the_entry signum; set_handler (fun h => h <| signals ::= <[Z.to_nat signum := g e]> |>).

Definition sys (c : syscall) : prog signalWorld sysret :=
  w ← get; let r := kernel (syslog w) c in modify (fun w => w <| syslog ::= cons (c, r) |>) ≫= fun _ => mret r.

(** The addresses of [signalEventCallback] and of the handle. *)
Definition signalEventCallback_ptr : Z := 6.
Definition signal_ptr : Z := 1.

(** ** Registration *)

Definition in_table (signum : Z) : bool := (0 <=? signum)%Z && (signum <? Z.of_nat MAX_SIGNALS)%Z.

Definition signalRegisterInternal (nn : bool) (signum cb data : Z) (oneshot : bool) : prog signalWorld bool :=
  if negb nn || (cb =? 0)%Z || negb (in_table signum) then mret false
  else
    e ← the_entry signum;
    if se_registered e then mret false
    else
      set_handler (fun h => h <| sh_mask ::= sigaddset signum |>) ≫= fun _ =>
      let blockSet := sigaddset signum ∅ in
      r ← sys (SysProcmask true blockSet);
      if (ret r =? -1)%Z then set_handler (fun h => h <| sh_mask ::= sigdelset signum |>) ≫= fun _ => mret false
      else
        h ← the_handler;
        r ← sys (SysSignalfd (signalFd h) (sh_mask h));
        if (ret r =? -1)%Z then
          sys (SysProcmask false blockSet) ≫= fun _ =>
          set_handler (fun h => h <| sh_mask ::= sigdelset signum |>) ≫= fun _ => mret false
        else
          set_entry signum (fun e => e <| se_callback := cb |> <| se_userData := data |> <| se_registered := true |> <| se_oneshot := oneshot |>)
            ≫= fun _ => mret true.

Definition loopySignalRegister (nn : bool) (signum cb data : Z) : prog signalWorld bool := signalRegisterInternal nn signum cb data false.
Definition loopySignalRegisterOneshot (nn : bool) (signum cb data : Z) : prog signalWorld bool := signalRegisterInternal nn signum cb data true.

Definition loopySignalUnregister (nn : bool) (signum : Z) : prog signalWorld bool :=
  if negb nn || negb (in_table signum) then mret false
  else
    e ← the_entry signum;
    if negb (se_registered e) then mret false
    else
      set_handler (fun h => h <| sh_mask ::= sigdelset signum |>) ≫= fun _ =>
      sys (SysProcmask false (sigaddset signum ∅)) ≫= fun _ =>
      h ← the_handler;
      sys (SysSignalfd (signalFd h) (sh_mask h)) ≫= fun _ =>
      set_entry signum (fun e => e <| se_callback := 0%Z |> <| se_userData := 0%Z |> <| se_registered := false |>) ≫= fun _ =>
      mret true.

(** ** Lifecycle *)

Definition empty_entry : loopySignalEntry := SignalEntry 0 0 false false.

(** [nn]: the loop is not [NULL]. *)
Definition loopySignalNew (nn mallocOk : bool) : prog signalWorld bool :=
  if negb nn then mret false
  else
    w ← get;
    match g_signalHandler w with
    | Some _ => mret false
    | None =>
      if negb mallocOk then mret false
      else
        r ← sys (SysSignalfd (-1) ∅);
        if (ret r =? -1)%Z then mret false
        else
          w ← get;
          match fl_register false (ret r) signalEventCallback_ptr signal_ptr (loop w) with
          | None => undefined
          | Some (l, ok) =>
              modify (fun w => w <| loop := l |>) ≫= fun _ =>
              if negb ok then sys (SysClose (ret r)) ≫= fun _ => mret false
              else modify (fun w => w <| g_signalHandler := Some (SignalHandler 0 (replicate MAX_SIGNALS empty_entry) (ret r) ∅) |>) ≫= fun _ => mret true
          end
    end.

(** [for (i = 0; i < MAX_SIGNALS; i++)], [n] entries to go. *)
Fixpoint unregisterFrom (n : nat) : prog signalWorld unit :=
  match n with
  | 0 => mret tt
  | S n =>
      let i := Z.of_nat (MAX_SIGNALS - S n) in
      e ← the_entry i;
      (if se_registered e then loopySignalUnregister true i ≫= fun _ => mret tt else mret tt) ≫= fun _ =>
      unregisterFrom n
  end.

Definition loopySignalFree (nn : bool) : prog signalWorld unit :=
  if negb nn then mret tt
  else
    unregisterFrom MAX_SIGNALS ≫= fun _ =>
    h ← the_handler;
    w ← get;
    match fl_unregister true true (signalFd h) (loop w) with
    | None => undefined
    | Some l => modify (fun w => w <| loop := l |>)
    end ≫= fun _ =>
    sys (SysClose (signalFd h)) ≫= fun _ =>
    modify (fun w => w <| g_signalHandler := None |>).

(** True stands for the loop. *)
Definition loopySignalGetLoop (nn : bool) : prog signalWorld bool := if nn then h ← the_handler; mret true else mret false.
Definition loopySignalGetData (nn : bool) : prog signalWorld Z := if nn then h ← the_handler; mret (sh_userData h) else mret 0%Z.
Definition loopySignalSetData (nn : bool) (data : Z) : prog signalWorld unit := pwhen nn (set_handler (fun h => h <| sh_userData := data |>)).

(** ** Events *)

Definition run_signal_op (op : signal_op) : prog signalWorld unit :=
  match op with
  | SRegister s cb d => loopySignalRegister true s cb d ≫= fun _ => mret tt
  | SRegisterOneshot s cb d => loopySignalRegisterOneshot true s cb d ≫= fun _ => mret tt
  | SUnregister s => loopySignalUnregister true s ≫= fun _ => mret tt
  | SSetData d => loopySignalSetData true d
  | SFree => loopySignalFree true
  end.

Fixpoint run_signal_ops (ops : list signal_op) : prog signalWorld unit :=
  match ops with [] => mret tt | op :: ops => run_signal_op op ≫= fun _ => run_signal_ops ops end.

(** [sh->signals[signum].callback(sh->loop, signum, sh->signals[signum].userData)] *)
Definition signal_callback (e : loopySignalEntry) (signum : Z) : prog signalWorld unit :=
  if (se_callback e =? 0)%Z then undefined
  else
    modify (fun w => w <| calls ::= cons (SigCall (se_callback e) signum (se_userData e)) |>) ≫= fun _ =>
    w ← get; run_signal_ops (user (calls w)).

(** One signal that was read. *)
Definition handleSignal (signum : Z) : prog signalWorld unit :=
  if negb (in_table signum) then mret tt
  else
    e ← the_entry signum;
    if negb (se_registered e) then mret tt
    else
      let isOneshot := se_oneshot e in
      signal_callback e signum ≫= fun _ =>
      if isOneshot then
        e ← the_entry signum;
        if se_registered e then loopySignalUnregister true signum ≫= fun _ => mret tt else mret tt
      else mret tt.

(** At most [rounds] times through the [while]; the answer is whether the loop ended. *)
Fixpoint signalEventCallback (rounds : nat) (fd : Z) : prog signalWorld bool :=
  match rounds with
  | 0 => mret false
  | S rounds =>
      r ← sys (SysReadInfo fd);
      if (ret r =? sizeof_siginfo)%Z then handleSignal (i32 (ssi_signo r)) ≫= fun _ => signalEventCallback rounds fd
      else mret true
  end.
End Signal.

(** ** What the system calls asked for *)

(** The blocked signals of the process, [b0] at the start, as far as calls that succeeded
    change them. *)
Fixpoint blocked (b0 : gset Z) (log : list (syscall * sysret)) : gset Z :=
  match log with
  | [] => b0
  | (SysProcmask block set, r) :: log =>
      if (ret r =? -1)%Z then blocked b0 log else if block then blocked b0 log ∪ set else blocked b0 log ∖ set
  | _ :: log => blocked b0 log
  end.

(** The set of signals of the signalfd. *)
Fixpoint fd_mask (log : list (syscall * sysret)) : gset Z :=
  match log with
  | [] => ∅
  | (SysSignalfd fd mask, r) :: log => if (ret r =? -1)%Z then fd_mask log else mask
  | _ :: log => fd_mask log
  end.

(** The signalfds that were opened and not closed. *)
Fixpoint open_fds (log : list (syscall * sysret)) : list Z :=
  match log with
  | [] => []
  | (SysSignalfd fd _, r) :: log => if (fd =? -1)%Z && negb (ret r =? -1)%Z then ret r :: open_fds log else open_fds log
  | (SysClose fd, _) :: log => filter (fun x => x <> fd) (open_fds log)
  | _ :: log => open_fds log
  end.

(** ** The table *)

(** What is registered for a signal: callback, user data, one-shot. *)
Definition sig_reg : Type := Z * Z * bool.
Definition entry_reg (e : loopySignalEntry) : option sig_reg :=
  if se_registered e then Some (se_callback e, se_userData e, se_oneshot e) else None.
Definition registration (h : loopySignalHandler) (s : Z) : option sig_reg :=
  if in_table s then signals h !! Z.to_nat s ≫= entry_reg else None.

Definition entry_ok (e : loopySignalEntry) : Prop :=
  if se_registered e then se_callback e <> 0%Z else se_callback e = 0%Z /\ se_userData e = 0%Z.

(** The function with one value replaced. *)
Definition upd {A} (f : Z -> A) (s : Z) (a : A) : Z -> A := fun x => if (x =? s)%Z then a else f x.

Lemma in_table_spec s : in_table s = true <-> (0 <= s)%Z /\ Z.to_nat s < MAX_SIGNALS.
Proof. unfold in_table, MAX_SIGNALS. rewrite andb_true_iff, Z.leb_le, Z.ltb_lt. lia. Qed.

Lemma in_table_index i : i < MAX_SIGNALS -> in_table (Z.of_nat i) = true.
Proof. intros. apply in_table_spec. lia. Qed.

Lemma registration_insert h h' s e : in_table s = true -> length (signals h) = MAX_SIGNALS ->
  signals h' = <[Z.to_nat s := e]> (signals h) -> forall x, registration h' x = upd (registration h) s (entry_reg e) x.
Proof.
  intros Hs Hl E x. unfold registration, upd. rewrite E. apply in_table_spec in Hs as [H0 Hs].
  destruct (Z.eqb_spec x s) as [-> |Hne].
  - rewrite (proj2 (in_table_spec s)) by done. by rewrite list_lookup_insert_eq by (rewrite Hl; done).
  - destruct (in_table x) eqn:Ex; [|done]. apply in_table_spec in Ex as [Hx0 _]. by rewrite list_lookup_insert_ne by lia.
Qed.

(** All that is registered. *)
Definition registered (h : loopySignalHandler) : gmap Z sig_reg := omap entry_reg (map_seqZ 0 (signals h)).

Lemma registered_lookup h s : length (signals h) = MAX_SIGNALS -> registered h !! s = registration h s.
Proof.
  intros Hl. unfold registered, registration. rewrite lookup_omap, lookup_map_seqZ, Z.sub_0_r. destruct (in_table s) eqn:Es.
  - apply in_table_spec in Es as [H0 _]. by rewrite option_guard_True.
  - destruct (decide (0 <= s)%Z) as [H0|H0]; [rewrite option_guard_True by done|by rewrite option_guard_False].
    cbn [mbind option_bind]. rewrite lookup_ge_None_2; [done|]. rewrite Hl. apply not_true_iff_false in Es. rewrite in_table_spec in Es. lia.
Qed.

Lemma registered_upd h h' s (v : option sig_reg) : length (signals h) = MAX_SIGNALS -> length (signals h') = MAX_SIGNALS ->
  (forall x, registration h' x = upd (registration h) s v x) -> registered h' = partial_alter (fun _ => v) s (registered h).
Proof.
  intros Hl Hl' Hx. apply map_eq. intros x. rewrite registered_lookup, Hx by done. unfold upd. destruct (Z.eqb_spec x s) as [-> |Hne].
  - by rewrite lookup_partial_alter_eq.
  - by rewrite lookup_partial_alter_ne, registered_lookup.
Qed.

(** ** What the callbacks and the signals are to do

    The kernel may refuse a registration: [answers] are its answers, oldest first, one for each
    registration that is asked of it. *)
Definition spec_register (answers : list bool) (m : gmap Z sig_reg) (s cb d : Z) (os : bool) : list bool * gmap Z sig_reg :=
  if (cb =? 0)%Z || negb (in_table s) || bool_decide (is_Some (m !! s)) then (answers, m)
  else match answers with false :: answers => (answers, m) | _ => (tail answers, <[s := (cb, d, os)]> m) end.

Definition spec_op (answers : list bool) (m : gmap Z sig_reg) (op : signal_op) : list bool * gmap Z sig_reg :=
  match op with
  | SRegister s cb d => spec_register answers m s cb d false
  | SRegisterOneshot s cb d => spec_register answers m s cb d true
  | SUnregister s => (answers, delete s m)
  | SSetData _ => (answers, m)
  | SFree => (answers, ∅)
  end.

Definition spec_ops (answers : list bool) (m : gmap Z sig_reg) (ops : list signal_op) : list bool * gmap Z sig_reg :=
  foldl (fun x => spec_op (fst x) (snd x)) (answers, m) ops.

(** One signal: the callback registered for it is called and calls what it calls, and after a
    one-shot signal nothing is registered for it. *)
Definition spec_signal (user : list sigCall -> list signal_op) (answers : list bool) (hist : list sigCall) (m : gmap Z sig_reg) (s : Z) :
    list bool * list sigCall * gmap Z sig_reg :=
  match (m !! s : option sig_reg) with
  | None => (answers, hist, m)
  | Some (cb, d, os) =>
      let hist := SigCall cb s d :: hist in
      let '(answers, m) := spec_ops answers m (user hist) in (answers, hist, if os then delete s m else m)
  end.

(** The signals [l] in this order: the calls, newest first, and what is registered afterwards. *)
Fixpoint deliver_all (user : list sigCall -> list signal_op) (answers : list bool) (hist : list sigCall) (m : gmap Z sig_reg) (l : list Z) :
    list sigCall * gmap Z sig_reg :=
  match l with
  | [] => (hist, m)
  | s :: l => let '(answers, hist, m) := spec_signal user answers hist m s in deliver_all user answers hist m l
  end.

(** The signals that were read, oldest first. *)
Fixpoint signals_read (log : list (syscall * sysret)) : list Z :=
  match log with
  | [] => []
  | (SysReadInfo _, r) :: log => if (ret r =? sizeof_siginfo)%Z then signals_read log ++ [i32 (ssi_signo r)] else signals_read log
  | _ :: log => signals_read log
  end.

Definition is_read (c : syscall) : bool := match c with SysReadInfo _ => true | _ => false end.

(** A system call other than a read was refused. *)
Definition refused (log : list (syscall * sysret)) : Prop := exists c r, (c, r) ∈ log /\ is_read c = false /\ ret r = (-1)%Z.

Lemma refused_app l1 l2 : refused l1 \/ refused l2 -> refused (l1 ++ l2).
Proof. unfold refused. intros [(c & r & H & ?)|(c & r & H & ?)]; exists c, r; rewrite elem_of_app; auto. Qed.

Section Table.
Context {L : Type} `{!FdLoop L}.
Variable kernel : list (syscall * sysret) -> syscall -> sysret.
Variable user : list sigCall -> list signal_op.
Variable valid_signal : Z -> bool.
Variable b0 : gset Z.
Notation signalWorld := (@signalWorld L).
Notation addsig := (sigaddset valid_signal).
Notation delsig := (sigdelset valid_signal).
Implicit Types (w : signalWorld) (h : loopySignalHandler).

Record table_ok h : Prop := {
  tb_length : length (signals h) = MAX_SIGNALS;
  tb_entries : Forall entry_ok (signals h);
  tb_mask : forall s, s ∈ sh_mask h <-> valid_signal s = true /\ is_Some (registration h s)
}.

Record signal_ok h w : Prop := {
  sk_handler : g_signalHandler w = Some h;
  sk_table : table_ok h;
  sk_fd : signalFd h <> (-1)%Z /\ fl_fd (signalFd h);
  sk_loop : fl_ok (loop w);
  sk_on : fl_on (loop w) (signalFd h) false = true;
  sk_open : open_fds (syslog w) = [signalFd h];
  sk_blocked : sh_mask h ⊆ blocked b0 (syslog w);
  sk_mask : sh_mask h ⊆ fd_mask (syslog w)
}.

Lemma signals_read_app l1 l2 : signals_read (l1 ++ l2) = signals_read l2 ++ signals_read l1.
Proof using Type.
  induction l1 as [|[c r] l1 IH]; cbn; [by rewrite app_nil_r|]. destruct c; try done. rewrite IH. destruct (_ =? _)%Z; [by rewrite app_assoc|done].
Qed.

(** From [w] to [w'] the system calls [new] were made, none of them a read. *)
Fixpoint other_calls (new log : list (syscall * sysret)) : Prop :=
  match new with [] => True | (c, r) :: new => r = kernel (new ++ log) c /\ is_read c = false /\ other_calls new log end.

Definition called (new : list (syscall * sysret)) w w' : Prop := syslog w' = new ++ syslog w /\ other_calls new (syslog w).

Lemma other_calls_app new1 new2 log : other_calls new1 log -> other_calls new2 (new1 ++ log) -> other_calls (new2 ++ new1) log.
Proof using Type. intros H1. induction new2 as [|[c r] new2 IH]; cbn; [done|]. intros (E & Hc & H2). rewrite <- app_assoc. auto. Qed.

Lemma called_trans new1 new2 w w1 w2 : called new1 w w1 -> called new2 w1 w2 -> called (new2 ++ new1) w w2.
Proof using Type. intros [E1 H1] [E2 H2]. rewrite E1 in *. split; [by rewrite E2, app_assoc|by apply other_calls_app]. Qed.

Lemma called_nil w w' : syslog w' = syslog w -> called [] w w'.
Proof using Type. by split. Qed.

Lemma other_calls_read new log : other_calls new log -> signals_read (new ++ log) = signals_read log /\ signals_read new = [].
Proof using Type. induction new as [|[c r] new IH]; [done|]. cbn. intros (_ & Hc & H). destruct (IH H). by destruct c. Qed.

Lemma wp_the_handler (Q : loopySignalHandler -> signalWorld -> Prop) w h : g_signalHandler w = Some h -> Q h w -> wp the_handler Q w.
Proof using Type. intros Hn HQ. unfold the_handler. apply wp_bind, wp_get. by rewrite Hn. Qed.

Lemma wp_set_handler g (Q : unit -> signalWorld -> Prop) w h :
  g_signalHandler w = Some h -> Q tt (w <| g_signalHandler := Some (g h) |>) -> wp (set_handler g) Q w.
Proof using Type. intros Hn HQ. unfold set_handler. apply wp_bind. by eapply wp_the_handler. Qed.

Lemma wp_signal_entry (Q : loopySignalEntry -> signalWorld -> Prop) s w h e :
  g_signalHandler w = Some h -> in_table s = true -> signals h !! Z.to_nat s = Some e -> Q e w -> wp (the_entry s) Q w.
Proof using Type.
  intros Hn Hs He HQ. unfold the_entry. apply wp_bind. eapply wp_the_handler; [done|]. rewrite He.
  apply in_table_spec in Hs as [Hs _]. by rewrite (proj2 (Z.ltb_ge _ _) Hs).
Qed.

Lemma wp_set_signal_entry g (Q : unit -> signalWorld -> Prop) s w h e :
  g_signalHandler w = Some h -> in_table s = true -> signals h !! Z.to_nat s = Some e ->
  Q tt (w <| g_signalHandler := Some (h <| signals ::= <[Z.to_nat s := g e]> |>) |>) -> wp (set_entry s g) Q w.
Proof using Type. intros Hn Hs He HQ. unfold set_entry. apply wp_bind. eapply wp_signal_entry; [done..|]. by eapply wp_set_handler. Qed.

Lemma wp_signal_sys c (Q : sysret -> signalWorld -> Prop) w :
  Q (kernel (syslog w) c) (w <| syslog ::= cons (c, kernel (syslog w) c) |>) -> wp (sys kernel c) Q w.
Proof using Type. intros HQ. unfold sys. apply wp_bind, wp_get, wp_bind, wp_modify, wp_ret. exact HQ. Qed.

Lemma table_entry h s : table_ok h -> in_table s = true -> exists e, signals h !! Z.to_nat s = Some e /\ entry_ok e.
Proof using Type.
  intros [Hl He _] [_ Hs]%in_table_spec. destruct (lookup_lt_is_Some_2 (signals h) (Z.to_nat s)) as [e E]; [by rewrite Hl|].
  exists e. split; [done|]. by eapply Forall_lookup_1.
Qed.

Lemma registration_entry h s e : in_table s = true -> signals h !! Z.to_nat s = Some e -> registration h s = entry_reg e.
Proof using Type. intros Hs He. unfold registration. by rewrite Hs, He. Qed.
End Table.

Ltac sstep :=
  match goal with
  | |- wp (_ ≫= _) _ _ => apply wp_bind
  | |- wp (mret _) _ _ => apply wp_ret
  | |- wp the_handler _ _ => eapply wp_the_handler; [first [eassumption | reflexivity]|]
  | |- wp (set_handler _) _ _ => eapply wp_set_handler; [first [eassumption | reflexivity]|]
  | |- wp (sys _ _) _ _ => apply wp_signal_sys
  | |- wp get _ _ => apply wp_get
  | |- wp (modify _) _ _ => apply wp_modify
  end.

(** ** The operations *)

Section Ops.
Context {L : Type} `{!FdLoop L}.
Variable kernel : list (syscall * sysret) -> syscall -> sysret.
Variable user : list sigCall -> list signal_op.
Variable valid_signal : Z -> bool.
Variable b0 : gset Z.
Notation signalWorld := (@signalWorld L).
Notation addsig := (sigaddset valid_signal).
Notation delsig := (sigdelset valid_signal).
Notation table_ok := (table_ok valid_signal).
Notation signal_ok := (signal_ok valid_signal b0).
Notation called := (called kernel).
Notation other_calls := (other_calls kernel).
Implicit Types (w : signalWorld) (h : loopySignalHandler) (s : Z).

Lemma elem_of_sigaddset x s m : x ∈ addsig s m <-> (valid_signal s = true /\ x = s) \/ x ∈ m.
Proof using Type. unfold sigaddset. destruct (valid_signal s); set_solver. Qed.

Lemma elem_of_sigdelset x s m : x ∈ delsig s m <-> x ∈ m /\ (valid_signal s = true -> x <> s).
Proof using Type. unfold sigdelset. destruct (valid_signal s); set_solver. Qed.

Lemma sigdel_add s m : s ∉ m -> delsig s (addsig s m) = m.
Proof using Type. intros Hs. apply set_eq. intros x. rewrite elem_of_sigdelset, elem_of_sigaddset. naive_solver. Qed.

Lemma signal_ok_ext h h' w w' : signal_ok h w -> g_signalHandler w' = Some h' -> table_ok h' -> signalFd h' = signalFd h ->
  loop w' = loop w -> open_fds (syslog w') = open_fds (syslog w) ->
  sh_mask h' ⊆ blocked b0 (syslog w') -> sh_mask h' ⊆ fd_mask (syslog w') -> signal_ok h' w'.
Proof using Type. intros [] E1 E2 E3 E4 E5 E6 E7. split; rewrite ?E3, ?E4, ?E5; done. Qed.

(** The mask after an entry was written. *)
Lemma table_update h h' s e : table_ok h -> in_table s = true -> entry_ok e ->
  signals h' = <[Z.to_nat s := e]> (signals h) ->
  (sh_mask h' = if se_registered e then addsig s (sh_mask h) else delsig s (sh_mask h)) ->
  table_ok h' /\ forall x, registration h' x = upd (registration h) s (entry_reg e) x.
Proof using Type.
  intros Ht Hs He E Em. pose proof (registration_insert h h' s e Hs (tb_length _ _ Ht) E) as Hr. split; [|done].
  destruct Ht as [Hl Hes Hm]. split.
  - by rewrite E, length_insert.
  - rewrite E. by apply Forall_insert.
  - intros x. rewrite Hr, Em. unfold upd, entry_reg.
    destruct (se_registered e), (Z.eqb_spec x s) as [-> |Hne]; rewrite ?elem_of_sigaddset, ?elem_of_sigdelset, ?Hm.
    + split; [intros [[? _]|[? _]]; split; [done|by eexists|done|by eexists]|]. intros [? _]. by left.
    + naive_solver.
    + split; [intros [[Hv _] Hx]; by destruct (Hx Hv)|]. intros [_ [? [=]]].
    + split; [by intros [Hx _]|]. intros Hx. by split.
Qed.

(** Failures leave the handle as it was; whether a signal that is not registered is blocked
    may change. *)
Lemma sig_register_ok h w s cb d os : signal_ok h w ->
  wp (signalRegisterInternal kernel valid_signal true s cb d os) (fun b w' => calls w' = calls w /\ exists h' new, signal_ok h' w' /\ signalFd h' = signalFd h /\ called new w w' /\
    if b : bool then
      cb <> 0%Z /\ in_table s = true /\ registration h s = None /\
      (forall x, registration h' x = upd (registration h) s (Some (cb, d, os)) x) /\
      sh_mask h' = addsig s (sh_mask h) /\ fd_mask (syslog w') = sh_mask h' /\ blocked b0 (syslog w') = blocked b0 (syslog w) ∪ addsig s ∅
    else
      h' = h /\ ((new = [] /\ (cb = 0%Z \/ in_table s = false \/ is_Some (registration h s))) \/
        cb <> 0%Z /\ in_table s = true /\ registration h s = None /\
        exists c r, ret r = (-1)%Z /\ (c, r) ∈ new /\ (c = SysProcmask true (addsig s ∅) \/ c = SysSignalfd (signalFd h) (addsig s (sh_mask h))))) w.
Proof using Type*.
  intros H. pose proof (sk_handler _ _ _ _ H) as Hh. pose proof (sk_table _ _ _ _ H) as Ht. unfold signalRegisterInternal. cbn [negb orb].
  assert (Hno : forall P : Prop, P -> calls w = calls w /\ exists h' new, signal_ok h' w /\ signalFd h' = signalFd h /\ called new w w /\ h' = h /\ ((new = [] /\ P) \/
        cb <> 0%Z /\ in_table s = true /\ registration h s = None /\
        exists c r, ret r = (-1)%Z /\ (c, r) ∈ new /\ (c = SysProcmask true (addsig s ∅) \/ c = SysSignalfd (signalFd h) (addsig s (sh_mask h))))).
  { intros P HP. split; [done|]. exists h, []. split_and!; [done..|by left]. }
  destruct (Z.eqb_spec cb 0) as [|Hcb]; cbn [orb]; [sstep; apply Hno; auto|].
  destruct (in_table s) eqn:Hs; cbn [negb orb]; [|sstep; apply Hno; auto].
  destruct (table_entry _ h s Ht Hs) as (e & He & Hok). sstep. eapply wp_signal_entry; [done..|].
  pose proof (registration_entry h s e Hs He) as Hreg. unfold entry_reg in Hreg.
  destruct (se_registered e) eqn:Er.
  { sstep. apply Hno. right; right. by eexists. }
  assert (Hnm : s ∉ sh_mask h) by (intros [_ Hx]%(tb_mask _ _ Ht); rewrite Hreg in Hx; by destruct Hx).
  assert (Hback : forall g, g = h <| sh_mask ::= addsig s |> -> g <| sh_mask ::= delsig s |> = h).
  { intros g ->. destruct h as [a b c m]. cbn in Hnm.
    change (SignalHandler a b c (delsig s (addsig s m)) = SignalHandler a b c m). by rewrite sigdel_add. }
  do 4 sstep. match goal with |- context [kernel ?a ?b] => set (r1 := kernel a b) end.
  destruct (Z.eqb_spec (ret r1) (-1)) as [E1|E1].
  { do 3 sstep. split; [done|]. exists h, [(SysProcmask true (addsig s ∅), r1)]. rewrite Hback by done. split_and!; [|done|done|done|].
    - eapply signal_ok_ext; [exact H|done|done|done|done|done|cbn; rewrite E1; apply H|apply H].
    - right. split_and!; [done..|]. eexists _, r1. split; [done|]. split; [apply list_elem_of_In; by left|by left]. }
  do 4 sstep. match goal with |- context [kernel ?a ?b] => set (r2 := kernel a b) end.
  destruct (Z.eqb_spec (ret r2) (-1)) as [E2|E2].
  { do 5 sstep. match goal with |- context [kernel ?a ?b] => set (r3 := kernel a b) end. split; [done|].
    exists h, [(SysProcmask false (addsig s ∅), r3); (SysSignalfd (signalFd h) (addsig s (sh_mask h)), r2); (SysProcmask true (addsig s ∅), r1)].
    rewrite Hback by done. split_and!; [|done|split; [done|cbn; by split_and!]|done|].
    - eapply signal_ok_ext; [exact H|done|done|done|done| | |].
      + cbn. by rewrite E2, andb_false_r.
      + cbn. rewrite (proj2 (Z.eqb_neq _ _) E1). pose proof (sk_blocked _ _ _ _ H). intros x Hx.
        assert (x ∉ addsig s ∅) by (rewrite elem_of_sigaddset; set_solver). destruct (_ =? _)%Z; set_solver.
      + cbn. rewrite E2. apply H.
    - right. split_and!; [done..|]. eexists _, r2. split; [done|]. split; [apply list_elem_of_In; right; by left|by right]. }
  sstep. eapply (wp_set_signal_entry _ _ _ _ (h <| sh_mask ::= addsig s |>) e); [done..|]. sstep. split; [done|].
  set (e' := e <| se_callback := _ |> <| se_userData := _ |> <| se_registered := _ |> <| se_oneshot := _ |>).
  set (h' := (h <| sh_mask ::= addsig s |>) <| signals ::= <[Z.to_nat s := e']> |>).
  exists h', [(SysSignalfd (signalFd h) (addsig s (sh_mask h)), r2); (SysProcmask true (addsig s ∅), r1)].
  destruct (table_update h h' s e' Ht Hs) as [Ht' Hr']; [done..|].
  split_and!; [|done|split; [done|cbn; by split_and!]|done|done|done|exact Hr'|done| |].
  - eapply signal_ok_ext; [exact H|reflexivity|exact Ht'|done|done| | |].
    + cbn. destruct (Z.eqb_spec (signalFd h) (-1)); [|done]. by destruct (sk_fd _ _ _ _ H).
    + cbn. rewrite (proj2 (Z.eqb_neq _ _) E1). intros x. rewrite elem_of_union, !elem_of_sigaddset. pose proof (sk_blocked _ _ _ _ H). set_solver.
    + cbn. by rewrite (proj2 (Z.eqb_neq _ _) E2).
  - cbn. by rewrite (proj2 (Z.eqb_neq _ _) E2).
  - cbn. by rewrite (proj2 (Z.eqb_neq _ _) E1).
Qed.

Lemma sig_unregister_ok h w s : signal_ok h w ->
  wp (loopySignalUnregister kernel valid_signal true s) (fun b w' => calls w' = calls w /\ exists h', signal_ok h' w' /\ signalFd h' = signalFd h /\
    if b : bool then
      is_Some (registration h s) /\ (forall x, registration h' x = upd (registration h) s None x) /\
      exists r1 r2, called [(SysSignalfd (signalFd h) (sh_mask h'), r2); (SysProcmask false (addsig s ∅), r1)] w w'
    else h' = h /\ w' = w /\ registration h s = None) w.
Proof using Type*.
  intros H. pose proof (sk_handler _ _ _ _ H) as Hh. pose proof (sk_table _ _ _ _ H) as Ht. unfold loopySignalUnregister. cbn [negb orb].
  destruct (in_table s) eqn:Hs; cbn [negb]; [|sstep; split; [done|]; exists h; split_and!; try done; unfold registration; by rewrite Hs].
  destruct (table_entry _ h s Ht Hs) as (e & He & Hok). sstep. eapply wp_signal_entry; [done..|].
  pose proof (registration_entry h s e Hs He) as Hreg. unfold entry_reg in Hreg.
  destruct (se_registered e) eqn:Er; cbn [negb]; [|sstep; split; [done|]; by exists h].
  do 4 sstep. match goal with |- context [kernel ?a ?b] => set (r1 := kernel a b) end.
  do 4 sstep. match goal with |- context [kernel ?a ?b] => set (r2 := kernel a b) end.
  sstep. eapply (wp_set_signal_entry _ _ _ _ (h <| sh_mask ::= delsig s |>) e); [done..|]. sstep. split; [done|].
  set (e' := e <| se_callback := _ |> <| se_userData := _ |> <| se_registered := _ |>).
  set (h' := (h <| sh_mask ::= delsig s |>) <| signals ::= <[Z.to_nat s := e']> |>).
  exists h'. destruct (table_update h h' s e' Ht Hs) as [Ht' Hr']; [done..|].
  split_and!; [|done|rewrite Hreg; by eexists|exact Hr'|by eexists _, _].
  eapply signal_ok_ext; [exact H|reflexivity|exact Ht'|done|done| | |].
  - cbn. destruct (Z.eqb_spec (signalFd h) (-1)); [|done]. by destruct (sk_fd _ _ _ _ H).
  - cbn. intros x [Hx Hne]%elem_of_sigdelset. pose proof (sk_blocked _ _ _ _ H). destruct (_ =? _)%Z; [set_solver|].
    rewrite elem_of_difference, elem_of_sigaddset. set_solver.
  - cbn. destruct (_ =? _)%Z; [|done]. intros x [Hx _]%elem_of_sigdelset. by apply H.
Qed.

Lemma unregisterFrom_ok n : n <= MAX_SIGNALS -> forall h w, signal_ok h w ->
  wp (unregisterFrom kernel valid_signal n) (fun _ w' => calls w' = calls w /\ exists h', signal_ok h' w' /\ signalFd h' = signalFd h /\
    (forall x, registration h' x = registration h x \/ registration h' x = None) /\
    forall i, MAX_SIGNALS - n <= i -> registration h' (Z.of_nat i) = None) w.
Proof using Type*.
  induction n as [|n IH]; intros Hn h w H; cbn [unregisterFrom].
  { sstep. split; [done|]. exists h. split_and!; [done|done|by left|]. intros i Hi. unfold registration, in_table.
    rewrite (proj2 (Z.ltb_ge _ _)) by lia. by rewrite andb_false_r. }
  set (i := MAX_SIGNALS - S n). assert (Hi : in_table (Z.of_nat i) = true) by (apply in_table_index; unfold i, MAX_SIGNALS in *; lia).
  destruct (table_entry _ h _ (sk_table _ _ _ _ H) Hi) as (e & He & _). pose proof (registration_entry h _ e Hi He) as Hreg. unfold entry_reg in Hreg.
  sstep. eapply wp_signal_entry; [apply H|done|done|].
  assert (Hrest : forall h1 w1, signal_ok h1 w1 -> calls w1 = calls w -> signalFd h1 = signalFd h ->
    (forall x, registration h1 x = registration h x \/ registration h1 x = None) -> registration h1 (Z.of_nat i) = None ->
    wp (unregisterFrom kernel valid_signal n) (fun _ w' => calls w' = calls w /\ exists h', signal_ok h' w' /\ signalFd h' = signalFd h /\
      (forall x, registration h' x = registration h x \/ registration h' x = None) /\
      forall i, MAX_SIGNALS - S n <= i -> registration h' (Z.of_nat i) = None) w1).
  { intros h1 w1 H1 Hc Hf Hx Hn1. eapply wp_mono; [apply (IH ltac:(lia) h1 w1 H1)|]. intros [] w' (Hc' & h' & H' & Hf' & Hx' & Hr').
    split; [congruence|]. exists h'. split_and!; [done|congruence| |].
    - intros x. destruct (Hx' x) as [-> | ->]; auto.
    - intros j Hj. destruct (decide (j = i)) as [-> |Hne]; [destruct (Hx' (Z.of_nat i)); congruence|]. apply Hr'. unfold i in *. lia. }
  destruct (se_registered e).
  - do 2 sstep. eapply wp_mono; [by apply (sig_unregister_ok h w (Z.of_nat i))|]. intros b w1 (Hc & h1 & H1 & Hf & Hb). sstep.
    destruct b; [|by destruct Hb as (_ & _ & ?); congruence]. destruct Hb as (_ & Hu & _). apply (Hrest h1); [done..| |].
    + intros x. rewrite Hu. unfold upd. destruct (_ =? _)%Z; auto.
    + rewrite Hu. unfold upd. by rewrite Z.eqb_refl.
  - do 2 sstep. by apply (Hrest h); auto.
Qed.

Definition signal_none w : Prop := g_signalHandler w = None /\ fl_ok (loop w) /\ open_fds (syslog w) = [].

Lemma signalFree_ok h w : signal_ok h w -> wp (loopySignalFree kernel valid_signal true) (fun _ w' => signal_none w' /\ calls w' = calls w) w.
Proof using Type*.
  intros H. unfold loopySignalFree. cbn [negb]. sstep. eapply wp_mono; [by apply (unregisterFrom_ok MAX_SIGNALS (le_n _) h)|].
  intros [] w1 (Hc & h1 & H1 & Hf & _ & _). sstep. eapply wp_the_handler; [apply H1|]. do 3 sstep.
  destruct (fl_unregister_spec true true (signalFd h1) (loop w1) (sk_loop _ _ _ _ H1) (proj2 (sk_fd _ _ _ _ H1))) as (l & -> & Hl & _).
  do 4 sstep. split; [|done]. unfold signal_none. split_and!; [done|done|]. cbn. rewrite (sk_open _ _ _ _ H1). by rewrite filter_cons_False by (intros Hx; by apply Hx).
Qed.

(** The kernel's descriptors are such that the loop can hold them. *)
Definition good_fds : Prop := forall log m, ret (kernel log (SysSignalfd (-1) m)) <> (-1)%Z -> fl_fd (ret (kernel log (SysSignalfd (-1) m))).

Lemma registration_replicate h : signals h = replicate MAX_SIGNALS empty_entry -> forall s, registration h s = None.
Proof using Type.
  intros E s. unfold registration. destruct (in_table s) eqn:Hs; [|done]. apply in_table_spec in Hs as [_ Hs].
  rewrite E, lookup_replicate_2 by done. done.
Qed.

Lemma signalNew_ok w nn m : good_fds -> signal_none w ->
  wp (loopySignalNew kernel nn m) (fun b w' => calls w' = calls w /\
    if b : bool then exists h, signal_ok h w' /\ forall s, registration h s = None else signal_none w') w.
Proof using Type*.
  intros Hg Hnone. pose proof Hnone as (Hn & Hl & Ho). unfold loopySignalNew. destruct nn; cbn [negb]; [|by sstep; split]. do 2 sstep. rewrite Hn.
  destruct m; cbn [negb]; [|by sstep; split]. do 2 sstep. specialize (Hg (syslog w) ∅). set (r := kernel _ _) in *.
  destruct (Z.eqb_spec (ret r) (-1)) as [E|E].
  { sstep. split; [done|]. unfold signal_none. split_and!; [done|done|]. cbn. by rewrite E. }
  specialize (Hg E). do 2 sstep. change (loop (w <| syslog ::= _ |>)) with (loop w).
  destruct (fl_register_spec false (ret r) signalEventCallback_ptr signal_ptr (loop w) Hl Hg) as (l & ok & -> & Hl' & Hon).
  do 2 sstep. assert (Hopen : open_fds ((SysSignalfd (-1) ∅, r) :: syslog w) = [ret r]) by (cbn; by rewrite (proj2 (Z.eqb_neq _ _) E), Ho).
  destruct ok; cbn [negb].
  - do 3 sstep. split; [done|]. set (h := SignalHandler _ _ _ _). pose proof (registration_replicate h eq_refl) as Hr. exists h. split; [|done]. split.
    + done.
    + split; [by apply length_replicate|by apply Forall_replicate|]. intros s. rewrite Hr. split; [set_solver|]. by intros [_ [? [=]]].
    + by split.
    + done.
    + change (fl_on l (ret r) false = true). by rewrite Hon, Z.eqb_refl.
    + exact Hopen.
    + apply empty_subseteq.
    + apply empty_subseteq.
  - do 3 sstep. split; [done|]. unfold signal_none. split_and!; [done|done|]. cbn -[open_fds]. 
    change (filter (fun x => x <> ret r) (open_fds ((SysSignalfd (-1) ∅, r) :: syslog w)) = []). rewrite Hopen. by rewrite filter_cons_False by (intros Hx; by apply Hx).
Qed.

(** ** Callbacks *)

(** From [w] to [w'], by calls of the handle: what is registered goes from [registered h] to
    what [f] makes of it with the answers of the kernel, and an answer of no means that a system
    call failed. *)
Definition op_done (f : list bool -> gmap Z sig_reg -> list bool * gmap Z sig_reg) h w w' : Prop :=
  calls w' = calls w /\ exists h' new answers, signal_ok h' w' /\ signalFd h' = signalFd h /\ called new w w' /\
    (false ∈ answers -> refused new) /\ forall rest, f (answers ++ rest) (registered h) = (rest, registered h').

Lemma registered_step h h' w w' s v : signal_ok h w -> signal_ok h' w' -> (forall x, registration h' x = upd (registration h) s v x) ->
  registered h' = partial_alter (fun _ => v) s (registered h).
Proof using Type. intros [_ [Hl _ _] _ _ _ _ _ _] [_ [Hl' _ _] _ _ _ _ _ _]. by apply registered_upd. Qed.

Lemma register_done h w s cb d os : signal_ok h w ->
  wp (signalRegisterInternal kernel valid_signal true s cb d os) (fun _ w' => op_done (fun ans m => spec_register ans m s cb d os) h w w') w.
Proof using Type*.
  intros H. eapply wp_mono; [by apply (sig_register_ok h)|]. intros b w' (Hc & h' & new & H' & Hf & Hnew & Hb). split; [done|].
  pose proof (registered_lookup h s (tb_length _ _ (sk_table _ _ _ _ H))) as Hlook. unfold spec_register. destruct b.
  - destruct Hb as (Hcb & Hs & Hn & Hu & _). exists h', new, [true]. split_and!; [done..|set_solver|]. intros rest.
    rewrite (proj2 (Z.eqb_neq _ _) Hcb), Hs, Hlook, Hn, bool_decide_eq_false_2 by by intros [? [=]]. cbn. by rewrite (registered_step h h' w w' s _ H H' Hu).
  - destruct Hb as (-> & [[-> Hwhy]|(Hcb & Hs & Hn & c & r & Er & Hin & Hwhich)]).
    + exists h, []. exists []. split_and!; [done..|set_solver|]. intros rest. cbn. rewrite Hlook.
      destruct Hwhy as [-> |[-> |Hr]]; [done|by rewrite orb_true_r|]. by rewrite bool_decide_eq_true_2, !orb_true_r.
    + exists h, new, [false]. split_and!; [done..| |].
      * intros _. exists c, r. split_and!; [done|by destruct Hwhich as [-> | ->]|done].
      * intros rest. by rewrite (proj2 (Z.eqb_neq _ _) Hcb), Hs, Hlook, Hn, bool_decide_eq_false_2 by by intros [? [=]].
Qed.

Lemma unregister_done h w s : signal_ok h w ->
  wp (loopySignalUnregister kernel valid_signal true s) (fun _ w' => op_done (fun ans m => (ans, delete s m)) h w w') w.
Proof using Type*.
  intros H. eapply wp_mono; [by apply (sig_unregister_ok h)|]. intros b w' (Hc & h' & H' & Hf & Hb). split; [done|]. destruct b.
  - destruct Hb as (_ & Hu & r1 & r2 & Hnew). eexists h', _, []. split_and!; [done|done|done|set_solver|]. intros rest.
    by rewrite (registered_step h h' w w' s _ H H' Hu).
  - destruct Hb as (-> & -> & Hn). exists h, [], []. split_and!; [done|done|by apply called_nil|set_solver|]. intros rest. cbn.
    rewrite delete_id; [done|]. by rewrite registered_lookup by apply (sk_table _ _ _ _ H).
Qed.

Lemma run_signal_op_done op h w : op <> SFree -> signal_ok h w ->
  wp (run_signal_op kernel valid_signal op) (fun _ w' => op_done (fun ans m => spec_op ans m op) h w w') w.
Proof using Type*.
  intros Hop H. destruct op as [s cb d|s cb d|s|d|]; cbn [run_signal_op spec_op]; [..|done].
  1-2: sstep; unfold loopySignalRegister, loopySignalRegisterOneshot; eapply wp_mono; [by apply (register_done h)|]; intros b w' Hd; by sstep.
  - sstep. eapply wp_mono; [by apply (unregister_done h)|]. intros b w' Hd. by sstep.
  - unfold loopySignalSetData. cbn [pwhen]. eapply wp_set_handler; [apply H|]. split; [done|].
    exists (h <| sh_userData := d |>), [], []. split_and!; [|done|done|set_solver|done].
    eapply signal_ok_ext; [exact H|reflexivity|by destruct (sk_table _ _ _ _ H)|done|done|done|apply H|apply H].
Qed.

Lemma op_done_trans f g h w w1 Q : op_done f h w w1 ->
  (forall h1, signal_ok h1 w1 -> signalFd h1 = signalFd h -> wp Q (fun _ w2 => op_done g h1 w1 w2) w1) ->
  wp Q (fun _ : unit => op_done (fun ans m => let '(ans, m) := f ans m in g ans m) h w) w1.
Proof using Type.
  intros (Hc1 & h1 & new1 & ans1 & H1 & Hf1 & Hn1 & Hr1 & Hs1) HQ. eapply wp_mono; [by apply (HQ h1)|].
  intros [] w2 (Hc2 & h2 & new2 & ans2 & H2 & Hf2 & Hn2 & Hr2 & Hs2). split; [congruence|]. exists h2, (new2 ++ new1), (ans1 ++ ans2).
  split_and!; [done|congruence|by eapply called_trans| |].
  - intros [?|?]%elem_of_app; apply refused_app; auto.
  - intros rest. by rewrite <- app_assoc, Hs1, Hs2.
Qed.

Lemma op_done_ext f g h w w' : (forall ans m, f ans m = g ans m) -> op_done f h w w' -> op_done g h w w'.
Proof using Type.
  intros E (Hc & h' & new & ans & H & Hf & Hn & Hr & Hs). split; [done|]. exists h', new, ans. split_and!; [done..|]. intros rest. by rewrite <- E.
Qed.

Lemma run_signal_ops_done ops : SFree ∉ ops -> forall h w, signal_ok h w ->
  wp (run_signal_ops kernel valid_signal ops) (fun _ w' => op_done (fun ans m => spec_ops ans m ops) h w w') w.
Proof using Type*.
  induction ops as [|op ops IH]; intros Hops h w H; cbn [run_signal_ops].
  { sstep. split; [done|]. exists h, [], []. split_and!; [done|done|by apply called_nil|set_solver|done]. }
  apply not_elem_of_cons in Hops as [Hop Hops]. sstep. eapply wp_mono; [by apply (run_signal_op_done op h)|]. intros [] w1 Hd.
  eapply wp_mono; [apply (op_done_trans _ (fun ans m => spec_ops ans m ops) h w w1 _ Hd); intros h1 H1 _; by apply (IH Hops h1)|]. intros [] w2. apply op_done_ext.
  intros ans m. unfold spec_ops. cbn [foldl fst snd]. by destruct (spec_op ans m op).
Qed.

Lemma run_signal_op_ok op h w : op <> SFree -> signal_ok h w ->
  wp (run_signal_op kernel valid_signal op) (fun _ w' => calls w' = calls w /\ exists h', signal_ok h' w' /\ signalFd h' = signalFd h) w.
Proof using Type*.
  intros Hop H. eapply wp_mono; [by apply (run_signal_op_done op h)|]. intros [] w' (Hc & h' & new & ans & H' & Hf & _). split; [done|]. by exists h'.
Qed.

(** Callbacks that do not release the handle. *)
Definition keeps_handle : Prop := forall hist, SFree ∉ user hist.

Lemma entry_registration h s : table_ok h -> in_table s = true -> exists e, signals h !! Z.to_nat s = Some e /\
  match registration h s with
  | Some (cb, d, os) => se_registered e = true /\ cb <> 0%Z /\ se_callback e = cb /\ se_userData e = d /\ se_oneshot e = os
  | None => se_registered e = false
  end.
Proof using Type.
  intros Ht Hs. destruct (table_entry _ h s Ht Hs) as (e & He & Hok). exists e. split; [done|].
  rewrite (registration_entry h s e Hs He). unfold entry_reg, entry_ok in *. by destruct (se_registered e).
Qed.

Lemma unregister_oneshot h w s : signal_ok h w -> in_table s = true ->
  wp (e ← the_entry s; if se_registered e then loopySignalUnregister kernel valid_signal true s ≫= fun _ => mret tt else mret tt)
    (fun _ w' => op_done (fun ans m => (ans, delete s m)) h w w') w.
Proof using Type*.
  intros H Hs. destruct (entry_registration h s (sk_table _ _ _ _ H) Hs) as (e & He & Hr). sstep. eapply wp_signal_entry; [apply H|done|done|].
  destruct (registration h s) as [[[cb d] os]|] eqn:Er.
  - destruct Hr as (-> & _). sstep. eapply wp_mono; [by apply (unregister_done h)|]. intros b w' Hd. by sstep.
  - rewrite Hr. sstep. split; [done|]. exists h, [], []. split_and!; [done|done|by apply called_nil|set_solver|]. intros rest. cbn.
    rewrite delete_id; [done|]. by rewrite registered_lookup by apply (sk_table _ _ _ _ H).
Qed.

Lemma handleSignal_ok h w s : keeps_handle -> signal_ok h w ->
  wp (handleSignal kernel user valid_signal s) (fun _ w' => exists h' new answers, signal_ok h' w' /\ signalFd h' = signalFd h /\ called new w w' /\
    (false ∈ answers -> refused new) /\
    (forall rest, spec_signal user (answers ++ rest) (calls w) (registered h) s = (rest, calls w', registered h')) /\
    match registration h s with
    | Some (cb, d, os) => calls w' = SigCall cb s d :: calls w /\ (os = true -> registration h' s = None)
    | None => w' = w /\ h' = h
    end) w.
Proof using Type*.
  intros Hk H. pose proof (registered_lookup h s (tb_length _ _ (sk_table _ _ _ _ H))) as Hlook. unfold handleSignal, spec_signal. rewrite Hlook.
  assert (Hnone : registration h s = None -> exists h' new answers, signal_ok h' w /\ signalFd h' = signalFd h /\ called new w w /\
    (false ∈ answers -> refused new) /\ (forall rest, (answers ++ rest, calls w, registered h) = (rest, calls w, registered h')) /\ w = w /\ h' = h).
  { intros _. exists h, [], []. split_and!; [done|done|by apply called_nil|set_solver|done..]. }
  destruct (in_table s) eqn:Hs; cbn [negb].
  2:{ sstep. assert (E : registration h s = None) by (unfold registration; by rewrite Hs). rewrite E. by apply Hnone. }
  destruct (entry_registration h s (sk_table _ _ _ _ H) Hs) as (e & He & Hr). sstep. eapply wp_signal_entry; [apply H|done|done|].
  destruct (registration h s) as [[[cb d] os]|] eqn:Er; [|rewrite Hr; cbn [negb]; sstep; by apply Hnone].
  destruct Hr as (-> & Hcb & Ec & Ed & Eo). cbn [negb]. rewrite Eo. sstep. unfold signal_callback. rewrite Ec, (proj2 (Z.eqb_neq _ _) Hcb), Ed.
  do 4 sstep. set (w1 := w <| calls ::= _ |>). assert (H1 : signal_ok h w1) by (destruct H; by split). change (calls w1) with (SigCall cb s d :: calls w).
  eapply wp_mono; [apply (run_signal_ops_done _ (Hk _) h w1 H1)|]. intros [] w2 Hd2.
  match type of Hd2 with op_done ?f _ _ _ => set (F := f) in * end.
  assert (Hfin : forall w3, op_done (fun ans m => let '(ans, m) := F ans m in (ans, if os then delete s m else m)) h w1 w3 ->
    exists h' new answers, signal_ok h' w3 /\ signalFd h' = signalFd h /\ called new w w3 /\ (false ∈ answers -> refused new) /\
      (forall rest, (let '(ans, m) := F (answers ++ rest) (registered h) in (ans, SigCall cb s d :: calls w, if os then delete s m else m)) = (rest, calls w3, registered h')) /\
      calls w3 = SigCall cb s d :: calls w /\ (os = true -> registration h' s = None)).
  { intros w3 (Hc & h3 & new & ans & H3 & Hf & Hn & Hr & Hsp). exists h3, new, ans. cbn beta in Hsp. split_and!; [done|done|done|done| |done|].
    - intros rest. specialize (Hsp rest). destruct (F (ans ++ rest) (registered h)). injection Hsp as -> <-. by rewrite Hc.
    - intros ->. rewrite <- registered_lookup by apply (sk_table _ _ _ _ H3). specialize (Hsp []). destruct (F (ans ++ []) (registered h)).
      simplify_eq. match goal with E : delete _ _ = _ |- _ => rewrite <- E end. apply lookup_delete_eq. }
  destruct os.
  - eapply wp_mono; [apply (op_done_trans _ (fun ans m => (ans, delete s m)) h w1 w2 _ Hd2); intros h2 H2 _; by apply (unregister_oneshot h2)|].
    intros [] w3. exact (Hfin w3).
  - sstep. apply Hfin. eapply op_done_ext; [|exact Hd2]. intros ans m. by destruct (F ans m).
Qed.

Lemma signal_events_ok rounds : keeps_handle -> forall h w fd, signal_ok h w ->
  wp (signalEventCallback kernel user valid_signal rounds fd) (fun _ w' => exists h', signal_ok h' w' /\ signalFd h' = signalFd h) w.
Proof using Type*.
  intros Hk. induction rounds as [|rounds IH]; intros h w fd H; cbn [signalEventCallback]; [sstep; eauto|]. do 2 sstep.
  set (r := kernel _ _). set (w1 := w <| syslog ::= _ |>). assert (H1 : signal_ok h w1) by (destruct H; by split).
  destruct (_ =? _)%Z; [|sstep; eauto]. sstep. eapply wp_mono; [by apply (handleSignal_ok h)|]. intros [] w2 (h2 & new & ans & H2 & Hf2 & _).
  eapply wp_mono; [by apply (IH h2)|]. intros b w3 (h3 & H3 & Hf3). exists h3. split; [done|congruence].
Qed.

(** ** Everything that happens *)

(** Results are [None] when freed memory is used, a slot outside the table, or a callback
    that is [NULL]. *)
Inductive signal_step w : option signalWorld -> Prop :=
  | sg_new nn mallocOk : signal_step w (snd <$> loopySignalNew kernel nn mallocOk w)
  | sg_op op : is_Some (g_signalHandler w) -> signal_step w (snd <$> run_signal_op kernel valid_signal op w)
  | sg_event h rounds : g_signalHandler w = Some h -> signal_step w (snd <$> signalEventCallback kernel user valid_signal rounds (signalFd h) w)
  | sg_others l : fl_ok l -> (forall h, g_signalHandler w = Some h -> fl_on l (signalFd h) false = fl_on (loop w) (signalFd h) false) ->
      signal_step w (Some (w <| loop := l |>)).

Inductive signal_reach w0 : signalWorld -> Prop :=
  | sg_refl : signal_reach w0 w0
  | sg_trans w w' : signal_reach w0 w -> signal_step w (Some w') -> signal_reach w0 w'.

Definition signal_world0 (l : L) : signalWorld := SignalWorld l None [] [].

Definition signal_inv w : Prop := match g_signalHandler w with Some h => signal_ok h w | None => signal_none w end.

Lemma signal_ok_inv h w : signal_ok h w -> signal_inv w.
Proof using Type. intros H. unfold signal_inv. by rewrite (sk_handler _ _ _ _ H). Qed.

Lemma signal_none_inv w : signal_none w -> signal_inv w.
Proof using Type. intros H. unfold signal_inv. by rewrite (proj1 H). Qed.

Lemma signal_step_ok w o : keeps_handle -> good_fds -> signal_inv w -> signal_step w o -> exists w', o = Some w' /\ signal_inv w'.
Proof using Type*.
  intros Hk Hg H Hs. pose proof H as Hinv. unfold signal_inv in H. destruct Hs as [nn m|op [h Hw]|h rounds Hw|l Hl Hon].
  - destruct (g_signalHandler w) as [h|] eqn:Hw.
    { exists w. split; [|done]. unfold loopySignalNew, mbind, prog_bind, get. destruct nn; cbn [negb]; [by rewrite Hw|done]. }
    destruct (wp_run _ _ _ (signalNew_ok w nn m Hg H)) as (b & w' & -> & _ & Hb). exists w'. split; [done|].
    destruct b; [destruct Hb as [h [Hb _]]; by eapply signal_ok_inv|by apply signal_none_inv].
  - rewrite Hw in H. assert (op = SFree \/ op <> SFree) as [-> |Hop] by (destruct op; first [by left|by right]).
    + destruct (wp_run _ _ _ (signalFree_ok h w H)) as ([] & w' & E & Hn & _). cbn [run_signal_op]. rewrite E. exists w'. split; [done|by apply signal_none_inv].
    + destruct (wp_run _ _ _ (run_signal_op_ok op h w Hop H)) as ([] & w' & -> & _ & h' & H' & _). exists w'. split; [done|by eapply signal_ok_inv].
  - rewrite Hw in H. destruct (wp_run _ _ _ (signal_events_ok rounds Hk h w (signalFd h) H)) as (b & w' & -> & h' & H' & _).
    exists w'. split; [done|by eapply signal_ok_inv].
  - exists (w <| loop := l |>). split; [done|]. unfold signal_inv. cbn. destruct (g_signalHandler w) as [h|].
    + destruct H. split; try done. cbn. by rewrite (Hon h).
    + by destruct H as (? & ? & ?).
Qed.

(** C30. Over all runs, with any kernel and callbacks that do not release the handle: nothing
    freed is used, no slot outside the table and no [NULL] callback; the table has 65 slots,
    the mask is the set of registered numbers that are signals, all of them blocked in the process
    and in the set of the signalfd, which is the one descriptor open and read by
    the loop; a free slot holds no callback and no user data. *)
Theorem signal_safe l w : keeps_handle -> good_fds -> fl_ok l -> signal_reach (signal_world0 l) w ->
  match g_signalHandler w with
  | Some h =>
      length (signals h) = MAX_SIGNALS /\ Forall entry_ok (signals h) /\
      (forall s, s ∈ sh_mask h <-> valid_signal s = true /\ is_Some (registration h s)) /\
      sh_mask h ⊆ blocked b0 (syslog w) /\ sh_mask h ⊆ fd_mask (syslog w) /\
      open_fds (syslog w) = [signalFd h] /\ fl_on (loop w) (signalFd h) false = true
  | None => open_fds (syslog w) = []
  end /\ forall o, signal_step w o -> is_Some o.
Proof using Type*.
  intros Hk Hg Hl Hreach. assert (H : signal_inv w).
  { induction Hreach as [|w w' _ IH Hs]; [by apply signal_none_inv|]. destruct (signal_step_ok w _ Hk Hg IH Hs) as (? & [= <-] & ?). done. }
  split.
  - unfold signal_inv in H. destruct (g_signalHandler w) as [h|]; [|apply H]. by destruct H as [_ [T1 T2 T3] _ _ H1 H2 H3 H4].
  - intros o Ho. destruct (signal_step_ok w o Hk Hg H Ho) as (w' & -> & _). by eexists.
Qed.

(** C31. Registering a signal, on every path.  Success: the callback was there, the number in
    the table and free, exactly its registration is new, the number is new in the mask if it is a
    signal, the kernel took that mask, and the signal is blocked.  The table, not the kernel,
    decides which numbers are taken: 0 and the numbers the C library reserves are registered
    as well, with the mask as it was (see [signal_zero_registered]).  Failure: the handle is as
    it was, and the reason is one of these, found before any system call, or a system call that
    answered -1. *)
Theorem signal_register h w s cb d os : signal_ok h w ->
  wp (signalRegisterInternal kernel valid_signal true s cb d os) (fun b w' => calls w' = calls w /\ exists h' new, signal_ok h' w' /\ called new w w' /\
    if b : bool then
      cb <> 0%Z /\ in_table s = true /\ registration h s = None /\
      (forall x, registration h' x = upd (registration h) s (Some (cb, d, os)) x) /\
      sh_mask h' = (if valid_signal s then {[s]} ∪ sh_mask h else sh_mask h) /\ fd_mask (syslog w') = sh_mask h' /\
      blocked b0 (syslog w') = (if valid_signal s then blocked b0 (syslog w) ∪ {[s]} else blocked b0 (syslog w))
    else
      h' = h /\ ((new = [] /\ (cb = 0%Z \/ in_table s = false \/ is_Some (registration h s))) \/
        cb <> 0%Z /\ in_table s = true /\ registration h s = None /\
        exists c r, ret r = (-1)%Z /\ (c, r) ∈ new /\ (c = SysProcmask true (addsig s ∅) \/ c = SysSignalfd (signalFd h) (addsig s (sh_mask h))))) w.
Proof using Type*.
  intros H. eapply wp_mono; [by apply (sig_register_ok h)|]. intros b w' (Hc & h' & new & H' & _ & Hnew & Hb). split; [done|]. exists h', new.
  split; [done|]. split; [done|]. destruct b; [|done]. destruct Hb as (? & ? & ? & ? & Hm & ? & Hbl). split_and!; [done..| |done|].
  - rewrite Hm. unfold sigaddset. by destruct (valid_signal s).
  - rewrite Hbl. unfold sigaddset. destruct (valid_signal s); set_solver.
Qed.

(** A signal that is read calls the callback registered for it, once and with
    its user data, and none if there is none; and after a one-shot signal nothing is registered for
    it, whatever its callback did. *)
Theorem signal_dispatch h w s : keeps_handle -> signal_ok h w ->
  wp (handleSignal kernel user valid_signal s) (fun _ w' => exists h', signal_ok h' w' /\
    match registration h s with
    | Some (cb, d, os) => calls w' = SigCall cb s d :: calls w /\ (os = true -> registration h' s = None)
    | None => w' = w /\ h' = h
    end) w.
Proof using Type*.
  intros Hk H. eapply wp_mono; [by apply (handleSignal_ok h)|]. intros [] w' (h' & new & ans & H' & _ & _ & _ & _ & Hr). by exists h'.
Qed.

(** ** All that is pending *)

(** The kernel hands out at most [left] signals from here on: what it says in no system call
    raises it, and a signal that is read is one less. *)
Definition drains (left : list (syscall * sysret) -> nat) : Prop :=
  forall log c, let r := kernel log c in left ((c, r) :: log) <= left log /\
    (is_read c = true -> ret r = sizeof_siginfo -> left ((c, r) :: log) < left log).

Lemma drains_calls left new log : drains left -> other_calls new log -> left (new ++ log) <= left log.
Proof using Type.
  intros Hd. induction new as [|[c r] new IH]; [done|]. cbn. intros (-> & _ & H). etransitivity; [apply (Hd (new ++ log) c)|by apply IH].
Qed.

(** C39. The callback of the loop, with callbacks of users that register and unregister signals
    but keep the handle: the signals it reads are treated, in the order in which they are read,
    as the reference function says, which gives the calls and what is registered
    afterwards; a registration that was refused is one for which a system call failed.  It goes on
    until a read gives no signal, and does so when the kernel has a bounded number of them.  What
    a callback registers for its own one-shot signal is gone when it returns (see
    [signal_reregister_lost]). *)
Theorem signal_deliver left h w rounds : drains left -> keeps_handle -> signal_ok h w ->
  wp (signalEventCallback kernel user valid_signal rounds (signalFd h)) (fun ended w' => exists h' new answers,
    signal_ok h' w' /\ syslog w' = new ++ syslog w /\
    (left (syslog w) < rounds -> ended = true) /\
    (ended = true -> exists r, head new = Some (SysReadInfo (signalFd h), r) /\ ret r <> sizeof_siginfo) /\
    (false ∈ answers -> refused new) /\
    (calls w', registered h') = deliver_all user answers (calls w) (registered h) (signals_read new)) w.
Proof using Type*.
  intros Hd Hk. revert h w. induction rounds as [|rounds IH]; intros h w H; cbn [signalEventCallback].
  { sstep. exists h, [], []. split_and!; [done|done|lia|done|set_solver|done]. }
  do 2 sstep. destruct (Hd (syslog w) (SysReadInfo (signalFd h))) as [Hle Hlt]. set (r := kernel _ _) in *.
  set (w1 := w <| syslog ::= _ |>). assert (H1 : signal_ok h w1) by (destruct H; by split).
  destruct (Z.eqb_spec (ret r) sizeof_siginfo) as [Er|Er].
  2:{ sstep. exists h, [(SysReadInfo (signalFd h), r)], []. split_and!; [done|done|done|by exists r|set_solver|].
      cbn. by rewrite (proj2 (Z.eqb_neq _ _) Er). }
  specialize (Hlt eq_refl Er). sstep. eapply wp_mono; [by apply (handleSignal_ok h)|]. intros [] w2 (h2 & new2 & ans2 & H2 & Hf2 & [E2 Ho2] & Hr2 & Hs2 & _).
  rewrite <- Hf2. eapply wp_mono; [by apply (IH h2 w2)|]. intros ended w3 (h3 & new3 & ans3 & H3 & E3 & Hend & Hhead & Hr3 & Hs3).
  destruct (other_calls_read _ _ _ Ho2) as [_ Hread2]. pose proof (drains_calls left new2 _ Hd Ho2) as Hleft2. change (syslog w1) with ((SysReadInfo (signalFd h), r) :: syslog w) in *.
  exists h3, (new3 ++ new2 ++ [(SysReadInfo (signalFd h), r)]), (ans2 ++ ans3). split_and!.
  - done.
  - by rewrite E3, E2, <- !app_assoc.
  - intros Hlr. apply Hend. rewrite E2. lia.
  - intros E. destruct (Hhead E) as (r' & Hh & Hne). exists r'. split; [|done]. rewrite <- Hf2. by destruct new3.
  - intros [Hin|Hin]%elem_of_app; apply refused_app; [right; apply refused_app; left|left]; auto.
  - rewrite Hs3. clear Hs3. assert (E : signals_read (new3 ++ new2 ++ [(SysReadInfo (signalFd h), r)]) = i32 (ssi_signo r) :: signals_read new3).
    { rewrite signals_read_app, signals_read_app, Hread2. cbn. by rewrite Er. }
    rewrite E. cbn [deliver_all]. by rewrite Hs2.
Qed.
End Ops.

(** ** A run *)

(** Signals 10, 15, 10 again and 12 arrive. *)
Definition arrivals : list Z := [10; 15; 10; 12]%Z.
Definition reads (log : list (syscall * sysret)) : nat :=
  length (filter (fun x => match fst x with SysReadInfo _ => true | _ => false end = true) log).
Definition signal_pending (log : list (syscall * sysret)) : list Z := drop (reads log) arrivals.
Definition signal_kernel (log : list (syscall * sysret)) (c : syscall) : sysret :=
  match c with
  | SysSignalfd _ _ => SysRet 3 0
  | SysReadInfo _ => match signal_pending log with s :: _ => SysRet sizeof_siginfo s | [] => SysRet (-1) 0 end
  | _ => SysRet 0 0
  end.
Definition signal_valid (s : Z) : bool := (1 <=? s)%Z && (s <=? 64)%Z.
(** The callback of 10 registers 12 and takes the callback of 15 for 15 away to set another. *)
Definition signal_user (hist : list sigCall) : list signal_op :=
  match hist with SigCall 7 _ _ :: _ => [SRegister 12 9 90; SUnregister 15; SRegister 15 11 0] | _ => [] end.

Definition signal_start : @signalWorld watch_set := signal_world0 (L := watch_set) ∅.
Definition signal_new : option signalWorld := snd <$> loopySignalNew signal_kernel true true signal_start.
(** 10 once, 15 for good. *)
Definition signal_added : option signalWorld :=
  w ← signal_new; snd <$> run_signal_ops signal_kernel signal_valid [SRegisterOneshot 10 7 70; SRegister 15 8 80] w.
Definition signal_ran : option signalWorld := w ← signal_added; snd <$> signalEventCallback signal_kernel signal_user signal_valid 5 3 w.

Definition signal_outcome (o : option (@signalWorld watch_set)) : option (list sigCall * gset Z * Z) :=
  w ← o; h ← g_signalHandler w; Some (calls w, sh_mask h, signalFd h).

Lemma signal_ran_outcome : signal_outcome signal_ran = Some ([SigCall 9 12 90; SigCall 11 15 0; SigCall 7 10 70], {[12; 15]}, 3)%Z.
Proof. by vm_compute. Qed.

Lemma signal_added_outcome : signal_outcome signal_added = Some ([], {[10; 15]}, 3)%Z.
Proof. by vm_compute. Qed.

Lemma signal_outcome_handle o c m fd : signal_outcome o = Some (c, m, fd) ->
  exists w h, o = Some w /\ g_signalHandler w = Some h /\ calls w = c /\ sh_mask h = m /\ signalFd h = fd.
Proof. destruct o as [w|]; [|done]. cbn. destruct (g_signalHandler w) as [h|] eqn:Eh; [|done]. intros [= <- <- <-]. by exists w, h. Qed.

(** *** What goes wrong *)

(** The handle is released in the callback: the loop over the signals goes on with it. *)
Lemma signal_free_in_callback_unsafe :
  exists w, signal_added = Some w /\ signalEventCallback signal_kernel (fun _ => [SFree]) signal_valid 5 3 w = None.
Proof.
  destruct signal_added as [w|] eqn:E; [|by vm_compute in E]. exists w. split; [done|]. evaluate E. injection E as <-. by vm_compute.
Qed.

(** Number 0 is no signal; it is registered all the same, and never delivered. *)
Lemma signal_zero_registered : exists w, signal_new = Some w /\
  (fun x => (fst x, sh_mask <$> g_signalHandler (snd x))) <$> loopySignalRegister signal_kernel signal_valid true 0 7 0 w = Some (true, Some ∅).
Proof. destruct signal_new as [w|] eqn:E; [|by vm_compute in E]. exists w. split; [done|]. evaluate E. injection E as <-. by vm_compute. Qed.

(** A signal that was blocked before it was registered is not after it was unregistered. *)
Lemma signal_unblocks : exists w, signal_new = Some w /\
  (fun x => blocked {[10%Z]} (syslog (snd x))) <$> run_signal_ops signal_kernel signal_valid [SRegister 10 7 0; SUnregister 10] w = Some ∅.
Proof. destruct signal_new as [w|] eqn:E; [|by vm_compute in E]. exists w. split; [done|]. evaluate E. injection E as <-. by vm_compute. Qed.

(** The callback of a one-shot signal registers it again, for good: this registration is
    taken away when the callback has returned. *)
Lemma signal_reregister_lost : exists w, signal_added = Some w /\
  (fun x => (calls (snd x), (fun h => registration h 10) <$> g_signalHandler (snd x))) <$>
    handleSignal signal_kernel (fun _ => [SUnregister 10; SRegister 10 9 0]) signal_valid 10 w = Some ([SigCall 7 10 70], Some None).
Proof. destruct signal_added as [w|] eqn:E; [|by vm_compute in E]. exists w. split; [done|]. evaluate E. injection E as <-. by vm_compute. Qed.

(** *** The run *)

Lemma signal_keeps : keeps_handle signal_user.
Proof. intros [|[cb] hist]; cbn; [set_solver|]. repeat case_match; set_solver. Qed.

Lemma signal_fds : good_fds (L := watch_set) signal_kernel.
Proof. done. Qed.

Lemma signal_drains : drains signal_kernel (fun log => length (signal_pending log)).
Proof.
  intros log c. unfold signal_pending, reads. rewrite filter_cons. destruct c; cbn [fst is_read]; rewrite ?decide_False by done; try (split; [done|done]).
  rewrite decide_True by done. cbn [signal_kernel length]. unfold signal_pending, reads. rewrite !length_drop. set (k := length (filter _ log)). split; [lia|].
  intros _. destruct (drop k arrivals) as [|s l] eqn:E; [done|]. intros _. apply (f_equal length) in E. rewrite length_drop in E. cbn [length] in E. lia.
Qed.

Notation signal_reaches := (signal_reach signal_kernel signal_user signal_valid signal_start).

Lemma signal_reach_inv w : signal_reaches w -> signal_inv signal_valid ∅ w.
Proof.
  intros H. induction H as [|w w' _ IH Hs]; [by split_and!|].
  by destruct (signal_step_ok _ _ _ ∅ _ _ signal_keeps signal_fds IH Hs) as (? & [= <-] & ?).
Qed.

Lemma signal_reach_ops ops w w' : signal_reaches w -> is_Some (g_signalHandler w) -> SFree ∉ ops ->
  snd <$> run_signal_ops signal_kernel signal_valid ops w = Some w' -> signal_reaches w'.
Proof.
  revert w. induction ops as [|op ops IH]; intros w Hr [h Hh] Hops E; [by injection E as <-|]. apply not_elem_of_cons in Hops as [Hop Hops].
  pose proof (signal_reach_inv w Hr) as Hi. unfold signal_inv in Hi. rewrite Hh in Hi.
  destruct (wp_run _ _ _ (run_signal_op_ok signal_kernel signal_valid ∅ op h w (not_eq_sym Hop) Hi)) as ([] & w1 & E1 & _ & h1 & H1 & _).
  apply (IH w1); [|exists h1; apply H1|done|].
  - eapply sg_trans; [exact Hr|]. replace (Some w1) with (snd <$> run_signal_op signal_kernel signal_valid op w) by (by rewrite E1). apply sg_op. by eexists.
  - rewrite <- E. cbn [run_signal_ops]. unfold mbind, prog_bind. by rewrite E1.
Qed.

Lemma signal_added_reached w : signal_added = Some w -> signal_reaches w.
Proof.
  unfold signal_added. destruct signal_new as [w1|] eqn:E1; [|done]. intros E. cbn [mbind option_bind] in E. eapply signal_reach_ops; [| | |exact E].
  - eapply sg_trans; [apply sg_refl|]. rewrite <- E1. apply sg_new.
  - evaluate E1. injection E1 as <-. by eexists.
  - set_solver.
Qed.

Lemma signal_added_ok : exists w h, signal_added = Some w /\ g_signalHandler w = Some h /\ signal_ok signal_valid ∅ h w /\ signalFd h = 3%Z.
Proof.
  destruct (signal_outcome_handle _ _ _ _ signal_added_outcome) as (w & h & E & Hh & _ & _ & Hf). exists w, h.
  pose proof (signal_reach_inv w (signal_added_reached w E)) as Hi. unfold signal_inv in Hi. by rewrite Hh in Hi.
Qed.

Lemma signal_ran_reached w : signal_ran = Some w -> signal_reaches w.
Proof.
  destruct signal_added_ok as (w1 & h & E1 & Hh & _ & Hf). unfold signal_ran. rewrite E1. cbn [mbind option_bind]. intros E.
  eapply sg_trans; [by apply (signal_added_reached w1)|]. rewrite <- E, <- Hf. by apply sg_event.
Qed.

Lemma signal_safe_witness : exists w h, signal_ran = Some w /\ g_signalHandler w = Some h /\ sh_mask h = {[12; 15]}%Z /\
  open_fds (syslog w) = [signalFd h] /\ sh_mask h ⊆ fd_mask (syslog w).
Proof.
  destruct (signal_outcome_handle _ _ _ _ signal_ran_outcome) as (w & h & E & Hh & _ & Hm & _). exists w, h.
  destruct (signal_safe signal_kernel signal_user signal_valid ∅ (∅ : watch_set) w signal_keeps signal_fds I (signal_ran_reached w E)) as [H _].
  rewrite Hh in H. destruct H as (_ & _ & _ & _ & H1 & H2 & _).
  split; [exact E|]. split; [exact Hh|]. split; [exact Hm|]. split; [exact H2|exact H1].
Defined.

Lemma signal_register_witness : exists w h, signal_added = Some w /\ g_signalHandler w = Some h /\
  wp (signalRegisterInternal signal_kernel signal_valid true 12 7 1 false) (fun _ w' => exists h', signal_ok signal_valid ∅ h' w') w.
Proof.
  destruct signal_added_ok as (w & h & E & Hh & H & _). exists w, h. split; [exact E|]. split; [exact Hh|].
  eapply wp_mono; [apply (signal_register signal_kernel signal_valid ∅ h w 12 7 1 false H)|]. intros b w' (_ & h' & new & H' & _). by exists h'.
Defined.

Lemma signal_dispatch_witness : exists w h, signal_added = Some w /\ g_signalHandler w = Some h /\
  wp (handleSignal signal_kernel signal_user signal_valid 10) (fun _ w' => exists h', signal_ok signal_valid ∅ h' w') w.
Proof.
  destruct signal_added_ok as (w & h & E & Hh & H & _). exists w, h. split; [exact E|]. split; [exact Hh|].
  eapply wp_mono; [apply (signal_dispatch signal_kernel signal_user signal_valid ∅ h w 10 signal_keeps H)|].
  intros b w' (h' & H' & _). by exists h'.
Defined.

Lemma signal_deliver_witness : exists w h, signal_added = Some w /\ g_signalHandler w = Some h /\
  wp (signalEventCallback signal_kernel signal_user signal_valid 5 (signalFd h)) (fun ended w' => ended = true /\ exists h' new answers,
    signal_ok signal_valid ∅ h' w' /\
    (calls w', registered h') = deliver_all signal_user answers (calls w) (registered h) (signals_read new)) w.
Proof.
  destruct signal_added_ok as (w & h & E & Hh & H & _). exists w, h. split; [exact E|]. split; [exact Hh|].
  eapply wp_mono; [apply (signal_deliver signal_kernel signal_user signal_valid ∅ (fun log => length (signal_pending log)) h w 5 signal_drains signal_keeps H)|].
  intros ended w' (h' & new & answers & H' & _ & Hend & _ & _ & Hd). split; [|by exists h', new, answers].
  apply Hend. unfold signal_pending. rewrite length_drop. unfold arrivals. cbn. lia.
Defined.
