(* ===== verification/Sockets.v ===== *)
(** * Sockets ([src/loopyNet.c], the Linux build with [accept4])

    Everything of the file that goes to the kernel; the functions on address texts are in
    [Net.v].  The kernel and the resolver are a function of the calls so far; a
    call may change [errno], which the code reads.  [inet_ntop], [strerror]
    and [gai_strerror] of the C library are parameters.

    [net_connect] says which socket is there after a connect, why and what else is open,
    [net_server] the same for a server - from the worlds ([net_at]) and from the calls
    that were made ([wpt]) - [net_accept] that an accept passes over
    interruptions, [net_nonblock] what changing the blocking mode does and [net_send_timeout] that
    a timeout keeps its value.  Lemmas show the failures that are reported as
    success, the sockets that are lost and the ports that are cut. *)

From S2P Require Import Prelude CString Net.

Local Open Scope nat_scope.

(** ** Numbers of Linux *)

Definition AF_UNSPEC : Z := 0.
Definition AF_LOCAL : Z := 1.
Definition AF_INET : Z := 2.
Definition AF_INET6 : Z := 10.
Definition SOCK_STREAM : Z := 1.
Definition SOCK_CLOEXEC : Z := 524288.
Definition SOCK_NONBLOCK : Z := 2048.
Definition O_NONBLOCK : Z := 2048.
Definition SOL_SOCKET : Z := 1.
Definition SO_REUSEADDR : Z := 2.
Definition SO_SNDBUF : Z := 7.
Definition SO_KEEPALIVE : Z := 9.
Definition SO_REUSEPORT : Z := 15.
Definition IPPROTO_TCP : Z := 6.
Definition TCP_NODELAY : Z := 1.
Definition TCP_KEEPIDLE : Z := 4.
Definition TCP_KEEPINTVL : Z := 5.
Definition TCP_KEEPCNT : Z := 6.
Definition IPPROTO_IPV6 : Z := 41.
Definition IPV6_V6ONLY : Z := 26.
Definition EINTR : Z := 4.
Definition EAFNOSUPPORT : Z := 97.
Definition EINPROGRESS : Z := 115.
Definition AI_PASSIVE : Z := 1.
Definition AI_NUMERICHOST : Z := 4.
Definition INET6_ADDRSTRLEN : nat := 46.

Definition LN_SOCK_CLOSED : Z := -1.

Definition LOOPY_NET_RESOLVE_NONE : Z := 0.
Definition LOOPY_NET_RESOLVE_ONLY_IP : Z := 1.
Definition LOOPY_NET_SERVER_NONE : Z := 0.
Definition LOOPY_NET_SERVER_REUSEPORT : Z := 1.
Definition LOOPY_NET_SERVER_L4_LOAD_BALANCE : Z := 2.
Definition LOOPY_NET_CONNECT_NONE : Z := 0.
Definition LOOPY_NET_CONNECT_NONBLOCK : Z := 1.
Definition LOOPY_NET_CONNECT_BEST_EFFORT_BIND : Z := 2.

(** ** Data *)

(** Ports in host order. *)
Inductive sockaddr :=
  | SockIn (addr port : Z)
  | SockIn6 (addr port : Z)
  | SockUn (path : cstr)
  | SockOther (family : Z).

Record addrinfo := AddrInfo { ai_family : Z; ai_socktype : Z; ai_protocol : Z; ai_addr : sockaddr }.

Record loopyNet := Net { errorString : cstr; listenFlag : Z; sock : Z }.
#[export] Instance Net_rebuild : Rebuild loopyNet := fun l => Net (errorString l) (listenFlag l) (sock l).

(** [loopyNetResolveData]: what a resolution stores; the address is in [sa] or [sa6]. *)
Record loopyNetResolveData := ResolveData { rd_ip : option cstr; rd_sa : sockaddr; rd_af : Z }.

Inductive syscall :=
  | SysGetFl (fd : Z)
  | SysSetFl (fd flags : Z)
  | SysSetsockopt (fd level name value : Z)
  | SysSndTimeo (fd sec usec : Z)
  | SysSoError (fd : Z)
  | SysGetaddrinfo (node : option cstr) (service : option cstr) (family socktype flags : Z)
  | SysSocket (domain type protocol : Z)
  | SysClose (fd : Z)
  | SysBind (fd : Z) (addr : sockaddr)
  | SysConnect (fd : Z) (addr : sockaddr)
  | SysListen (fd backlog : Z)
  | SysChmod (path : cstr) (perm : Z)
  | SysAccept (fd : Z)
  | SysAccept4 (fd flags : Z)
  | SysGetpeername (fd : Z)
  | SysGetsockname (fd : Z).

(** The result; what [errno] becomes, if the call sets it; the list of a
    resolution; the address of a peer; the value of an option. *)
Record sysret := SysRet { ret : Z; new_errno : option Z; infos : list addrinfo; addr : sockaddr; value : Z }.

(** Where an address and a port are stored: [None] when nothing is written. *)
Record named := Named { nm_ok : bool; nm_ip : option cstr; nm_port : option Z }.

Inductive accepted :=
  | Accepted (fd : Z) (from : sockaddr)
  | AcceptFailed
  | AcceptRetrying.

(** How a walk over the addresses ends: a socket ([goto end]), [goto error], no
    address left. *)
Inductive walk_end := WalkEnd | WalkError | WalkNone.

Section Net.
Variable kernel : list (syscall * sysret) -> syscall -> sysret.
Variables strerror gai_strerror : Z -> cstr.
(** [inet_ntop] into a buffer of that size; [None] when it does not fit. *)
Variable inet_ntop : sockaddr -> nat -> option cstr.
(** What the last byte of a local [struct sockaddr_un] happens to be. *)
Variable junk : ascii.

Record netWorld := NetWorld { net : loopyNet; errno : Z; syslog : list (syscall * sysret) }.
#[export] Instance NetWorld_rebuild : Rebuild netWorld := fun w => NetWorld (net w) (errno w) (syslog w).

Definition sys (c : syscall) : prog netWorld sysret :=
  w ← get;
  let r := kernel (syslog w) c in
  modify (fun w => w <| syslog ::= cons (c, r) |> <| errno := default (errno w) (new_errno r) |>) ≫= fun _ => mret r.

Definition the_net : prog netWorld loopyNet := w ← get; mret (net w).
Definition set_sock (s : Z) : prog netWorld unit := modify (fun w => w <| net ::= (fun l => l <| sock := s |>) |>).

Definition loopyNetSetError (field : cstr) : prog netWorld unit :=
  modify (fun w => w <| net ::= (fun l =>
    match fst (snprintf 256 (field ++ text ": " ++ strerror (errno w))) with Some s => l <| errorString := s |> | None => l end) |>).

(** [loopyNetSetError(l, field); return false;] *)
Definition fails (field : cstr) : prog netWorld bool := loopyNetSetError field ≫= fun _ => mret false.

(** ** Options *)

Definition loopyNetSetNonBlock (s : Z) (nonBlock : bool) : prog netWorld bool :=
  r ← sys (SysGetFl s);
  if (ret r =? -1)%Z then fails (text "getfl")
  else
    let flags := if nonBlock then Z.lor (ret r) O_NONBLOCK else Z.ldiff (ret r) O_NONBLOCK in
    r ← sys (SysSetFl s flags);
    if (ret r =? -1)%Z then fails (if nonBlock then text "set nonblock" else text "clear nonblock")
    else mret true.

Definition loopyNetNonBlockEnable : prog netWorld bool := l ← the_net; loopyNetSetNonBlock (sock l) true.
Definition loopyNetNonBlockDisable : prog netWorld bool := l ← the_net; loopyNetSetNonBlock (sock l) false.

Definition setSockOptInteger (s level optionName val : Z) : prog netWorld bool :=
  r ← sys (SysSetsockopt s level optionName val); mret (ret r =? 0)%Z.
Definition enableSocketOption (s level optionName : Z) : prog netWorld bool := setSockOptInteger s level optionName 1.

(** [if (!setSockOptInteger(l->sock, ...)) { loopyNetSetError(l, field); return false; } k] *)
Definition option_or_fail (level optionName val : Z) (field : cstr) (k : prog netWorld bool) : prog netWorld bool :=
  l ← the_net; ok ← setSockOptInteger (sock l) level optionName val; if ok : bool then k else fails field.

Definition loopyNetKeepAlive (interval : Z) : prog netWorld bool :=
  option_or_fail SOL_SOCKET SO_KEEPALIVE 1 (text "keepalive")
    (option_or_fail IPPROTO_TCP TCP_KEEPIDLE interval (text "keepidle")
      (let probe := Z.quot interval 3 in
       let probe := if (probe =? 0)%Z then 1%Z else probe in
       option_or_fail IPPROTO_TCP TCP_KEEPINTVL probe (text "keepintvl")
         (option_or_fail IPPROTO_TCP TCP_KEEPCNT 3 (text "keepcnd") (mret true)))).

Definition loopyNetSetTcpNoDelay (enable : bool) : prog netWorld bool :=
  option_or_fail IPPROTO_TCP TCP_NODELAY (Z.b2z enable) (text "nodelay") (mret true).
Definition loopyNetTcpNoDelayEnable : prog netWorld bool := loopyNetSetTcpNoDelay true.
Definition loopyNetTcpNoDelayDisable : prog netWorld bool := loopyNetSetTcpNoDelay false.

Definition loopyNetCheckSocketError : prog netWorld bool :=
  l ← the_net; r ← sys (SysSoError (sock l));
  if (ret r =? -1)%Z || negb (value r =? 0)%Z then fails (text "error") else mret true.

Definition loopyNetSetSendBuffer (buffsize : Z) : prog netWorld bool := option_or_fail SOL_SOCKET SO_SNDBUF buffsize (text "sndbuf") (mret true).
Definition loopyNetTcpKeepAliveEnable : prog netWorld bool := option_or_fail SOL_SOCKET SO_KEEPALIVE 1 (text "keepalive") (mret true).

Definition loopyNetSendTimeout (ms : Z) : prog netWorld bool :=
  l ← the_net; r ← sys (SysSndTimeo (sock l) (ms / 1000) ((ms mod 1000) * 1000));
  if (ret r =? -1)%Z then fails (text "sndtimeo") else mret true.

(** [SO_NOSIGPIPE] does not exist on Linux. *)
Definition loopyNetSetDisableSIGPIPEOnWrite (fd : Z) : prog netWorld bool := mret false.
Definition loopyNetSetReuseAddr : prog netWorld bool := option_or_fail SOL_SOCKET SO_REUSEADDR 1 (text "reuseaddr") (mret true).
Definition loopyNetSetReusePort : prog netWorld bool := option_or_fail SOL_SOCKET SO_REUSEPORT 1 (text "reuseport") (mret true).
Definition loopyNetL4LoadBalanceEnable : prog netWorld bool := loopyNetSetReusePort.
Definition loopyNetV6Only : prog netWorld bool := option_or_fail IPPROTO_IPV6 IPV6_V6ONLY 1 (text "setsockopt") (mret true).

(** ** Resolution *)

(** The result and what is stored; [extra] stores the address and the family, too. *)
Definition loopyNetResolveGeneric (host : cstr) (ipbufLen : nat) (flags : Z) : prog netWorld (option loopyNetResolveData) :=
  let ai_flags := if negb (Z.land flags LOOPY_NET_RESOLVE_ONLY_IP =? 0)%Z then AI_NUMERICHOST else 0%Z in
  r ← sys (SysGetaddrinfo (Some host) None AF_UNSPEC SOCK_STREAM ai_flags);
  if negb (ret r =? 0)%Z then loopyNetSetError (gai_strerror (ret r)) ≫= fun _ => mret None
  else
    match infos r with
    | [] => undefined
    | info :: _ => mret (Some (ResolveData (inet_ntop (ai_addr info) ipbufLen) (ai_addr info) (ai_family info)))
    end.

Definition loopyNetResolve (host : cstr) (ipbufLen : nat) := loopyNetResolveGeneric host ipbufLen LOOPY_NET_RESOLVE_NONE.
Definition loopyNetResolveExtra (host : cstr) := loopyNetResolveGeneric host INET6_ADDRSTRLEN LOOPY_NET_RESOLVE_NONE.
Definition loopyNetResolveIP (host : cstr) (ipbufLen : nat) := loopyNetResolveGeneric host ipbufLen LOOPY_NET_RESOLVE_ONLY_IP.
Definition loopyNetResolveIPExtra (host : cstr) := loopyNetResolveGeneric host INET6_ADDRSTRLEN LOOPY_NET_RESOLVE_ONLY_IP.

(** ** Sockets *)

Definition loopyNetSocketClose : prog netWorld bool :=
  l ← the_net;
  if (sock l =? LN_SOCK_CLOSED)%Z then mret true
  else
    r ← sys (SysClose (sock l));
    if (ret r =? -1)%Z then fails (text "close") else set_sock LN_SOCK_CLOSED ≫= fun _ => mret true.

Definition loopyNetSocketNewFromAddrinfo (ai : addrinfo) : prog netWorld bool :=
  r ← sys (SysSocket (ai_family ai) (Z.lor (ai_socktype ai) SOCK_CLOEXEC) (ai_protocol ai));
  w ← get;
  if (errno w =? EAFNOSUPPORT)%Z then fails (text "socket")
  else if (ret r =? LN_SOCK_CLOSED)%Z then mret false
  else set_sock (ret r) ≫= fun _ => mret true.

Definition loopyNetSocketNew (domain : Z) : prog netWorld bool :=
  r ← sys (SysSocket domain (Z.lor SOCK_STREAM SOCK_CLOEXEC) 0);
  set_sock (ret r) ≫= fun _ =>
  if (ret r =? -1)%Z then fails (text "socket")
  else
    ok ← loopyNetSetReuseAddr;
    if negb ok then loopyNetSocketClose ≫= fun _ => mret false
    else l ← the_net; loopyNetSetDisableSIGPIPEOnWrite (sock l) ≫= fun _ => mret true.

(** ** Connecting *)

(** The text of a port in six bytes. *)
Definition port_text (port : Z) : cstr := default [] (fst (snprintf 6 (format_int port))).

(** [for (b = bservinfo; b != NULL; b = b->ai_next)]: whether one was bound. *)
Fixpoint bindFirst (bs : list addrinfo) : prog netWorld bool :=
  match bs with
  | [] => mret false
  | b :: bs => l ← the_net; r ← sys (SysBind (sock l) (ai_addr b)); if negb (ret r =? -1)%Z then mret true else bindFirst bs
  end.

(** The socket of one address, once it is there: [None] is [continue]. *)
Definition connectSocket (p : addrinfo) (bservinfo : option (list addrinfo)) (flags : Z) : prog netWorld (option walk_end) :=
  ok ← loopyNetSetReuseAddr;
  if negb ok then mret (Some WalkError)
  else
    let nonBlock := negb (Z.land flags LOOPY_NET_CONNECT_NONBLOCK =? 0)%Z in
    ok ← (if nonBlock then loopyNetNonBlockEnable else mret true);
    if negb ok then mret (Some WalkError)
    else
      bound ← match bservinfo with Some bs => bindFirst bs | None => mret true end;
      if negb bound then loopyNetSetError (text "bind") ≫= fun _ => mret (Some WalkError)
      else
        l ← the_net;
        r ← sys (SysConnect (sock l) (ai_addr p));
        if (ret r =? -1)%Z then
          w ← get;
          if (errno w =? EINPROGRESS)%Z && nonBlock then mret (Some WalkEnd)
          else loopyNetSocketClose ≫= fun _ => mret None
        else mret (Some WalkEnd).

(** [for (p = servinfo; p != NULL; p = p->ai_next)] *)
Fixpoint connectFirst (ps : list addrinfo) (bservinfo : option (list addrinfo)) (flags : Z) : prog netWorld walk_end :=
  match ps with
  | [] => mret WalkNone
  | p :: ps =>
      ok ← loopyNetSocketNewFromAddrinfo p;
      if negb ok then connectFirst ps bservinfo flags
      else
        e ← connectSocket p bservinfo flags;
        match e with Some e => mret e | None => connectFirst ps bservinfo flags end
  end.

(** [again] is the recursive call. *)
Definition connectBody (again : prog netWorld bool) (host : cstr) (port : Z) (bindAddr : option cstr) (flags : Z) : prog netWorld bool :=
  r ← sys (SysGetaddrinfo (Some host) (Some (port_text port)) AF_UNSPEC SOCK_STREAM 0);
  if negb (ret r =? 0)%Z then fails (gai_strerror (ret r))
  else
    let servinfo := infos r in
    r ← match bindAddr with
        | Some b => r ← sys (SysGetaddrinfo (Some b) None AF_UNSPEC SOCK_STREAM 0); mret (ret r, Some (infos r))
        | None => mret (0%Z, None)
        end;
    if negb (fst r =? 0)%Z then fails (gai_strerror (fst r))
    else
      e ← connectFirst servinfo (snd r) flags;
      match e with
      | WalkEnd => mret tt
      | WalkError => loopyNetSocketClose ≫= fun _ => mret tt
      | WalkNone => loopyNetSetError (text "other") ≫= fun _ => loopyNetSocketClose ≫= fun _ => mret tt
      end ≫= fun _ =>
      l ← the_net;
      if (sock l =? LN_SOCK_CLOSED)%Z && bool_decide (is_Some bindAddr) && negb (Z.land flags LOOPY_NET_CONNECT_BEST_EFFORT_BIND =? 0)%Z
      then again else mret true.

(** The recursive call has no address to bind to, and does not call again. *)
Definition loopyNetTcpGenericConnect (host : cstr) (port : Z) (bindAddr : option cstr) (flags : Z) : prog netWorld bool :=
  connectBody (connectBody undefined host port None flags) host port bindAddr flags.

Definition loopyNetTcpConnect (host : cstr) (port : Z) := loopyNetTcpGenericConnect host port None LOOPY_NET_CONNECT_NONE.
Definition loopyNetTcpNonBlockConnect (host : cstr) (port : Z) := loopyNetTcpGenericConnect host port None LOOPY_NET_CONNECT_NONBLOCK.
Definition loopyNetTcpNonBlockConnectBind (host : cstr) (port : Z) (bindAddr : option cstr) :=
  loopyNetTcpGenericConnect host port bindAddr LOOPY_NET_CONNECT_NONBLOCK.
Definition loopyNetTcpNonBlockConnectBindOptional (host : cstr) (port : Z) (bindAddr : option cstr) :=
  loopyNetTcpGenericConnect host port bindAddr (Z.lor LOOPY_NET_CONNECT_NONBLOCK LOOPY_NET_CONNECT_BEST_EFFORT_BIND).

(** [strncpy(sa.sun_path, path, sizeof(sa.sun_path) - 1)] into 108 bytes that end with [last]. *)
Definition sun_path (last : ascii) (path : cstr) : cstr :=
  let p := take 107 path in
  if (length p <? 107)%nat || Ascii.eqb last Ascii.zero then p else p ++ [last].

Definition loopyNetUnixGenericConnect (path : cstr) (flags : Z) : prog netWorld bool :=
  ok ← loopyNetSocketNew AF_LOCAL;
  if negb ok then mret false
  else
    let sa := SockUn (sun_path junk path) in
    let nonBlock := negb (Z.land flags LOOPY_NET_CONNECT_NONBLOCK =? 0)%Z in
    ok ← (if nonBlock then loopyNetNonBlockEnable else mret true);
    if negb ok then mret false
    else
      l ← the_net;
      r ← sys (SysConnect (sock l) sa);
      if (ret r =? -1)%Z then
        w ← get;
        if (errno w =? EINPROGRESS)%Z && nonBlock then mret true
        else loopyNetSetError (text "connect") ≫= fun _ => loopyNetSocketClose ≫= fun _ => mret false
      else mret true.

Definition loopyNetUnixConnect (path : cstr) := loopyNetUnixGenericConnect path LOOPY_NET_CONNECT_NONE.
Definition loopyNetUnixNonBlockConnect (path : cstr) := loopyNetUnixGenericConnect path LOOPY_NET_CONNECT_NONBLOCK.

(** ** Servers *)

Definition loopyNetListen (sa : sockaddr) (backlog : Z) : prog netWorld bool :=
  l ← the_net;
  ok ← (if negb (Z.land (listenFlag l) LOOPY_NET_SERVER_REUSEPORT =? 0)%Z then loopyNetSetReusePort else mret true);
  if negb ok then mret false
  else
    ok ← (if negb (Z.land (listenFlag l) LOOPY_NET_SERVER_L4_LOAD_BALANCE =? 0)%Z then loopyNetL4LoadBalanceEnable else mret true);
    if negb ok then mret false
    else
      l ← the_net;
      r ← sys (SysBind (sock l) sa);
      if (ret r =? -1)%Z then loopyNetSetError (text "bind") ≫= fun _ => loopyNetSocketClose ≫= fun _ => mret false
      else
        l ← the_net;
        r ← sys (SysListen (sock l) backlog);
        if (ret r =? -1)%Z then loopyNetSetError (text "listen") ≫= fun _ => loopyNetSocketClose ≫= fun _ => mret false
        else mret true.

(** The socket of one address, once it is there: whether it listens. *)
Definition serveSocket (p : addrinfo) (af backlog : Z) : prog netWorld bool :=
  ok ← (if (af =? AF_INET6)%Z then loopyNetV6Only else mret true);
  if negb ok then loopyNetSocketClose ≫= fun _ => mret false
  else
    ok ← loopyNetSetReuseAddr;
    if negb ok then loopyNetSocketClose ≫= fun _ => mret false
    else loopyNetListen (ai_addr p) backlog.

Fixpoint serveFirst (ps : list addrinfo) (af backlog : Z) : prog netWorld bool :=
  match ps with
  | [] => fails (text "bind")
  | p :: ps =>
      ok ← loopyNetSocketNewFromAddrinfo p;
      if negb ok then serveFirst ps af backlog else serveSocket p af backlog
  end.

Definition _loopyNetTcpServer (port : Z) (bindAddr : option cstr) (af backlog : Z) : prog netWorld bool :=
  r ← sys (SysGetaddrinfo bindAddr (Some (port_text port)) af SOCK_STREAM AI_PASSIVE);
  if negb (ret r =? 0)%Z then fails (gai_strerror (ret r)) else serveFirst (infos r) af backlog.

Definition loopyNetTcp4Server (port : Z) (bindAddr : option cstr) (backlog : Z) := _loopyNetTcpServer port bindAddr AF_INET backlog.
Definition loopyNetTcp6Server (port : Z) (bindAddr : option cstr) (backlog : Z) := _loopyNetTcpServer port bindAddr AF_INET6 backlog.

Definition loopyNetUnixServer (path : cstr) (perm backlog : Z) : prog netWorld bool :=
  ok ← loopyNetSocketNew AF_LOCAL;
  if negb ok then mret false
  else
    let sa := sun_path Ascii.zero path in
    ok ← loopyNetListen (SockUn sa) backlog;
    if negb ok then mret false
    else (if negb (perm =? 0)%Z then sys (SysChmod sa perm) ≫= fun _ => mret tt else mret tt) ≫= fun _ => mret true.

(** ** Accepting *)

(** At most [rounds] calls. *)
Fixpoint acceptRetry (rounds : nat) (call : Z -> syscall) (field : cstr) : prog netWorld accepted :=
  match rounds with
  | 0 => mret AcceptRetrying
  | S rounds =>
      l ← the_net; r ← sys (call (sock l));
      if (ret r =? -1)%Z then
        w ← get;
        if (errno w =? EINTR)%Z then acceptRetry rounds call field
        else loopyNetSetError field ≫= fun _ => mret AcceptFailed
      else mret (Accepted (ret r) (addr r))
  end.

Definition loopyNetGenericAccept (rounds : nat) := acceptRetry rounds SysAccept (text "accept").
Definition loopyNetGenericAccept4NonBlock (rounds : nat) := acceptRetry rounds (fun s => SysAccept4 s SOCK_NONBLOCK) (text "accept4").

(** [hasIp], [hasPort]: the pointers are not [NULL].  Another family is read as if it were IPv6. *)
Definition _loopyNetPopulateIPPortFromSockaddr (sa : sockaddr) (hasIp : bool) (ipLen : nat) (hasPort : bool) : prog netWorld (option cstr * option Z) :=
  match sa with
  | SockIn _ port | SockIn6 _ port => mret (if hasIp then inet_ntop sa ipLen else None, if hasPort then Some port else None)
  | _ => undefined
  end.

(** The socket, and what is stored of the peer. *)
Definition acceptedFrom (a : accepted) (hasIp : bool) (ipLen : nat) (hasPort : bool) : prog netWorld (accepted * (option cstr * option Z)) :=
  match a with
  | Accepted fd sa =>
      loopyNetSetDisableSIGPIPEOnWrite fd ≫= fun _ =>
      out ← _loopyNetPopulateIPPortFromSockaddr sa hasIp ipLen hasPort; mret (a, out)
  | _ => mret (a, (None, None))
  end.

Definition loopyNetTcpAcceptNonBlock (rounds : nat) (hasIp : bool) (ipLen : nat) (hasPort : bool) :=
  a ← loopyNetGenericAccept4NonBlock rounds; acceptedFrom a hasIp ipLen hasPort.
Definition loopyNetTcpAccept (rounds : nat) (hasIp : bool) (ipLen : nat) (hasPort : bool) :=
  a ← loopyNetGenericAccept rounds; acceptedFrom a hasIp ipLen hasPort.
Definition loopyNetUnixAcceptNonBlock (rounds : nat) := loopyNetGenericAccept4NonBlock rounds.
Definition loopyNetUnixAccept (rounds : nat) := loopyNetGenericAccept rounds.

(** ** Names of the two ends *)

Definition loopyNetPeerToString (s : Z) (hasIp : bool) (ipLen : nat) (hasPort : bool) : prog netWorld named :=
  if (hasIp && (ipLen =? 0)%nat) || (negb hasIp && negb hasPort) then mret (Named false None None)
  else
    r ← sys (SysGetpeername s);
    if (ret r =? 0)%Z then
      match addr r with
      | SockIn _ port | SockIn6 _ port =>
          mret (Named true (if hasIp then inet_ntop (addr r) ipLen else None) (if hasPort then Some port else None))
      | SockUn _ => mret (Named true (if hasIp then Some (take ipLen (text "[unix]")) else None) (if hasPort then Some 0%Z else None))
      | SockOther _ => mret (Named true None None)
      end
    else mret (Named false (if hasIp then Some (if (2 <=? ipLen)%nat then text "?" else []) else None) (if hasPort then Some (-1)%Z else None)).

(** A failure writes two bytes, whatever it was given.  Another family is read as
    if it were IPv6. *)
Definition loopyNetSockName (s : Z) (hasIp : bool) (ipLen : nat) (hasPort : bool) : prog netWorld named :=
  r ← sys (SysGetsockname s);
  if (ret r =? -1)%Z then
    if hasIp && (2 <=? ipLen)%nat then mret (Named false (Some (text "?")) (if hasPort then Some 0%Z else None)) else undefined
  else
    match addr r with
    | SockIn _ port | SockIn6 _ port =>
        mret (Named true (if hasIp then inet_ntop (addr r) ipLen else None) (if hasPort then Some port else None))
    | _ => undefined
    end.

(** The assertion stops the program; an address that is not written is read. *)
Definition loopyNetFormatPeer (fd : Z) (bufLen : nat) : prog netWorld (option cstr * nat) :=
  n ← loopyNetPeerToString fd true INET6_ADDRSTRLEN true;
  match nm_ok n, nm_ip n with
  | true, Some ip => mret (loopyNetFormatAddr bufLen ip (default 0%Z (nm_port n)))
  | _, _ => undefined
  end.

Definition loopyNetFormatSock (fd : Z) (bufLen : nat) : prog netWorld (option cstr * nat) :=
  n ← loopyNetSockName fd true INET6_ADDRSTRLEN true;
  mret (loopyNetFormatAddr bufLen (default [] (nm_ip n)) (default 0%Z (nm_port n))).
End Net.

(** ** What is open *)

(** The sockets that were created or accepted and not closed. *)
Fixpoint open_socks (log : list (syscall * sysret)) : list Z :=
  match log with
  | [] => []
  | (SysSocket _ _ _, r) :: log | (SysAccept _, r) :: log | (SysAccept4 _ _, r) :: log =>
      if (ret r =? -1)%Z then open_socks log else ret r :: open_socks log
  | (SysClose fd, r) :: log => if (ret r =? -1)%Z then open_socks log else filter (fun x => x <> fd) (open_socks log)
  | _ :: log => open_socks log
  end.

(** Neither opens nor closes. *)
Definition neutral (c : syscall) : bool :=
  match c with SysSocket _ _ _ | SysAccept _ | SysAccept4 _ _ | SysClose _ => false | _ => true end.

Lemma open_socks_neutral c r log : neutral c = true -> open_socks ((c, r) :: log) = open_socks log.
Proof. by destruct c. Qed.

Lemma open_socks_valid log : Forall (fun x => x <> (-1)%Z) (open_socks log).
Proof.
  induction log as [|[c r] log IH]; [by constructor|]. destruct c; cbn [open_socks]; try done; destruct (Z.eqb_spec (ret r) (-1)); try done; try by constructor.
  rewrite Forall_forall in *. intros x [_ Hx]%list_elem_of_filter. by apply IH.
Qed.

Section Proofs.
Variable kernel : list (syscall * sysret) -> syscall -> sysret.
Variables strerror gai_strerror : Z -> cstr.
Variable inet_ntop : sockaddr -> nat -> option cstr.
Variable junk : ascii.
Implicit Types (w : netWorld) (s : Z).

(** [close] works, and a new socket is not one that is open. *)
Record sane_kernel : Prop := {
  close_works : forall log fd, ret (kernel log (SysClose fd)) <> (-1)%Z;
  socket_fresh : forall log d t p, ret (kernel log (SysSocket d t p)) ∉ open_socks log
}.

(** [errno] after the calls [log], when it was [e] before them. *)
Fixpoint errno_of (e : Z) (log : list (syscall * sysret)) : Z :=
  match log with [] => e | (_, r) :: log => default (errno_of e log) (new_errno r) end.

(** Socket [g] was made while [errno] was [EAFNOSUPPORT], by this or by an
    earlier call: the code takes it for unsupported and forgets it. *)
Definition dropped (e : Z) (log : list (syscall * sysret)) (g : Z) : Prop :=
  exists pre d t q r post, log = pre ++ (SysSocket d t q, r) :: post /\ ret r = g /\ g <> (-1)%Z /\
    errno_of e ((SysSocket d t q, r) :: post) = EAFNOSUPPORT.

Lemma dropped_cons e x log g : dropped e log g -> dropped e (x :: log) g.
Proof using Type. intros (pre & d & t & q & r & post & -> & H). by exists (x :: pre), d, t, q, r, post. Qed.

Lemma errno_of_app e n1 n2 : errno_of e (n2 ++ n1) = errno_of (errno_of e n1) n2.
Proof using Type. induction n2 as [|[c r] n2 IH]; cbn; [done|by rewrite IH]. Qed.

(** Nothing is dropped when all families are supported. *)
Lemma dropped_none e log g : e <> EAFNOSUPPORT -> Forall (fun x => new_errno (snd x) <> Some EAFNOSUPPORT) log -> ~ dropped e log g.
Proof using Type.
  intros He Hall (pre & d & t & q & r & post & -> & _ & _ & Herr). apply Forall_app in Hall as [_ Hall].
  revert Hall Herr. generalize ((SysSocket d t q, r) :: post) as l. intros l Hl. induction Hl as [|[c r'] l Hc _ IH]; [done|].
  cbn in *. destruct (new_errno r'); cbn; [congruence|done].
Qed.
End Proofs.

(** What happened since [errno] was [e0] and the calls were [log0]. *)
Section At.
Variables (e0 : Z) (log0 : list (syscall * sysret)).

(** The handle has socket [s], or none; the other open ones are those [lost] since
    then and [opens]. *)
Record net_at (s : Z) (lost opens : list Z) (w : netWorld) : Prop := {
  na_sock : sock (net w) = s;
  na_open : open_socks (syslog w) = (if (s =? -1)%Z then [] else [s]) ++ lost ++ opens;
  na_fresh : s ∉ lost ++ opens;
  na_log : exists new, syslog w = new ++ log0 /\ errno w = errno_of e0 new /\ Forall (dropped e0 new) lost
}.
End At.

Lemma net_at_start w : sock (net w) = (-1)%Z -> net_at (errno w) (syslog w) (-1) [] (open_socks (syslog w)) w.
Proof.
  intros H. split; [done|done| |by exists []].
  intros Hx. pose proof (open_socks_valid (syslog w)) as Hall. rewrite Forall_forall in Hall. by apply (Hall (-1)%Z).
Qed.

Section Steps.
Variable kernel : list (syscall * sysret) -> syscall -> sysret.
Implicit Types (w : netWorld).

Lemma wp_net_sys c (Q : sysret -> netWorld -> Prop) w :
  (let r := kernel (syslog w) c in Q r (w <| syslog ::= cons (c, r) |> <| errno := default (errno w) (new_errno r) |>)) -> wp (sys kernel c) Q w.
Proof using Type. intros HQ. unfold sys. apply wp_bind, wp_get, wp_bind, wp_modify, wp_ret. exact HQ. Qed.

Lemma wp_the_net (Q : loopyNet -> netWorld -> Prop) w : Q (net w) w -> wp the_net Q w.
Proof using Type. intros HQ. by apply wp_bind, wp_get, wp_ret. Qed.
End Steps.

Ltac nstep :=
  match goal with
  | |- wp (_ ≫= _) _ _ => apply wp_bind
  | |- wp (mret _) _ _ => apply wp_ret
  | |- wp the_net _ _ => apply wp_the_net
  | |- wp (sys _ _) _ _ => apply wp_net_sys; cbv zeta
  | |- wp get _ _ => apply wp_get
  | |- wp (modify _) _ _ => apply wp_modify
  end.

(** ** What was called

    [n] are the calls that were made, newest first. *)

(** The address [p] has no socket: none was made, or [errno] was such that the code takes the
    family for unsupported. *)
Definition no_socket (e : Z) (n : list (syscall * sysret)) (p : addrinfo) : Prop :=
  exists pre r post, let x := (SysSocket (ai_family p) (Z.lor (ai_socktype p) SOCK_CLOEXEC) (ai_protocol p), r) in
    n = pre ++ x :: post /\ (ret r = (-1)%Z \/ errno_of e (x :: post) = EAFNOSUPPORT).

Definition connect_failed (n : list (syscall * sysret)) (p : addrinfo) : Prop :=
  exists s r, (SysConnect s (ai_addr p), r) ∈ n /\ ret r = (-1)%Z.

Definition tried (e : Z) (n : list (syscall * sysret)) (p : addrinfo) : Prop := no_socket e n p \/ connect_failed n p.

(** An option or the blocking mode of a socket was refused. *)
Definition option_failed (n : list (syscall * sysret)) : Prop :=
  exists c r, (c, r) ∈ n /\ match c with SysSetsockopt _ _ _ _ => ret r <> 0%Z | SysGetFl _ | SysSetFl _ _ => ret r = (-1)%Z | _ => False end.

Definition bind_failed (n : list (syscall * sysret)) (b : addrinfo) : Prop :=
  exists s r, (SysBind s (ai_addr b), r) ∈ n /\ ret r = (-1)%Z.

Definition resolves (node service : option cstr) (ps : list addrinfo) (n : list (syscall * sysret)) : Prop :=
  exists r, (SysGetaddrinfo node service AF_UNSPEC SOCK_STREAM 0, r) ∈ n /\ ret r = 0%Z /\ infos r = ps.

Definition obstacle (bserv : option (list addrinfo)) (n : list (syscall * sysret)) : Prop :=
  option_failed n \/ exists bs, bserv = Some bs /\ Forall (bind_failed n) bs.

Definition nonblocking (flags : Z) : bool := negb (Z.land flags LOOPY_NET_CONNECT_NONBLOCK =? 0)%Z.

(** The last call connected [s] to one of [ps], or began to; before it [s] was bound to one
    of the addresses to bind to, if these were given. *)
Definition connected (flags : Z) (bserv : option (list addrinfo)) (ps : list addrinfo) (s : Z) (n : list (syscall * sysret)) (w : netWorld) : Prop :=
  exists p r n', n = (SysConnect s (ai_addr p), r) :: n' /\ p ∈ ps /\
    (ret r <> (-1)%Z \/ nonblocking flags = true /\ errno w = EINPROGRESS) /\
    forall bs, bserv = Some bs -> exists b r' n'', n' = (SysBind s (ai_addr b), r') :: n'' /\ b ∈ bs /\ ret r' <> (-1)%Z.

Lemma no_socket_more e n n' p : no_socket e n p -> no_socket e (n' ++ n) p.
Proof. intros (pre & r & post & -> & H). exists (n' ++ pre), r, post. by rewrite app_assoc. Qed.

Lemma no_socket_since e n n' p : no_socket (errno_of e n) n' p -> no_socket e (n' ++ n) p.
Proof.
  intros (pre & r & post & -> & H). exists pre, r, (post ++ n). split; [by rewrite <- app_assoc|]. by rewrite app_comm_cons, errno_of_app.
Qed.

Lemma connect_failed_app n n' p : connect_failed n p \/ connect_failed n' p -> connect_failed (n' ++ n) p.
Proof. intros [(s & r & H & ?)|(s & r & H & ?)]; exists s, r; rewrite elem_of_app; auto. Qed.

Lemma option_failed_app n n' : option_failed n \/ option_failed n' -> option_failed (n' ++ n).
Proof. intros [(c & r & H & ?)|(c & r & H & ?)]; exists c, r; rewrite elem_of_app; auto. Qed.

Lemma bind_failed_app n n' b : bind_failed n b \/ bind_failed n' b -> bind_failed (n' ++ n) b.
Proof. intros [(s & r & H & ?)|(s & r & H & ?)]; exists s, r; rewrite elem_of_app; auto. Qed.

Lemma resolves_app node service ps n n' : resolves node service ps n \/ resolves node service ps n' -> resolves node service ps (n' ++ n).
Proof. intros [(r & H & ?)|(r & H & ?)]; exists r; rewrite elem_of_app; auto. Qed.

Lemma obstacle_app bserv n n' : obstacle bserv n \/ obstacle bserv n' -> obstacle bserv (n' ++ n).
Proof.
  intros [[H|(bs & -> & H)]|[H|(bs & -> & H)]]; [left; apply option_failed_app; auto| |left; apply option_failed_app; auto|]; right; exists bs; (split; [done|]);
    (eapply Forall_impl; [exact H|]); intros b Hb; apply bind_failed_app; auto.
Qed.

Lemma tried_more e n n' p : tried e n p -> tried e (n' ++ n) p.
Proof. intros [H|H]; [left; by apply no_socket_more|right; apply connect_failed_app; auto]. Qed.

Lemma tried_since e n n' p : tried (errno_of e n) n' p -> tried e (n' ++ n) p.
Proof. intros [H|H]; [left; by apply no_socket_since|right; apply connect_failed_app; auto]. Qed.

Lemma connected_app flags bserv ps s n n' w : connected flags bserv ps s n w -> connected flags bserv ps s (n ++ n') w.
Proof.
  intros (p & r & n1 & -> & Hp & Hr & Hb). exists p, r, (n1 ++ n'). split_and!; [done..|]. intros bs E.
  destruct (Hb bs E) as (b & r' & n2 & -> & Hb' & Hr'). by exists b, r', (n2 ++ n').
Qed.

Section Traces.
Variable kernel : list (syscall * sysret) -> syscall -> sysret.
Variables strerror gai_strerror : Z -> cstr.
Hypothesis Hsane : sane_kernel kernel.
Implicit Types (w : netWorld) (n : list (syscall * sysret)).

(** [m] returns, and [Q] holds of the result, the calls it makes and the world it leaves. *)
Definition wpt {A} (m : prog netWorld A) (Q : A -> list (syscall * sysret) -> netWorld -> Prop) w : Prop :=
  wp m (fun a w' => exists n, syslog w' = n ++ syslog w /\ errno w' = errno_of (errno w) n /\ Q a n w') w.

Lemma wpt_mono {A} (m : prog netWorld A) (P Q : A -> list (syscall * sysret) -> netWorld -> Prop) w :
  wpt m P w -> (forall a n w', errno w' = errno_of (errno w) n -> P a n w' -> Q a n w') -> wpt m Q w.
Proof using Type. intros H HQ. eapply wp_mono; [exact H|]. intros a w' (n & E & Ee & HP). exists n. auto. Qed.

Lemma wpt_bind {A B} (m : prog netWorld A) (k : A -> prog netWorld B) Q w :
  wpt m (fun a n w1 => wpt (k a) (fun b n' w2 => Q b (n' ++ n) w2) w1) w -> wpt (m ≫= k) Q w.
Proof using Type.
  intros H. apply wp_bind. eapply wp_mono; [exact H|]. intros a w1 (n & E & Ee & H1). eapply wp_mono; [exact H1|].
  intros b w2 (n' & E' & Ee' & HQ). exists (n' ++ n). split_and!; [by rewrite E', E, app_assoc|by rewrite errno_of_app, <- Ee|done].
Qed.

Lemma wpt_ret {A} (a : A) Q w : Q a [] w -> wpt (mret a) Q w.
Proof using Type. intros H. apply wp_ret. by exists []. Qed.

Lemma wpt_get Q w : Q w [] w -> wpt get Q w.
Proof using Type. intros H. apply wp_get. by exists []. Qed.

Lemma wpt_the_net Q w : Q (net w) [] w -> wpt the_net Q w.
Proof using Type. intros H. apply wp_the_net. by exists []. Qed.

Lemma wpt_set_sock s (Q : unit -> list (syscall * sysret) -> netWorld -> Prop) w : (forall w', sock (net w') = s -> Q tt [] w') -> wpt (set_sock s) Q w.
Proof using Type. intros H. unfold set_sock. apply wp_modify. exists []. split_and!; [done|done|]. by apply H. Qed.

Lemma wpt_sys c (Q : sysret -> list (syscall * sysret) -> netWorld -> Prop) w :
  (forall r w', r = kernel (syslog w) c -> net w' = net w -> errno w' = default (errno w) (new_errno r) -> Q r [(c, r)] w') -> wpt (sys kernel c) Q w.
Proof using Type. intros H. apply wp_net_sys. cbv zeta. eexists [_]. split_and!; [done|done|]. by apply H. Qed.

Lemma wpt_set_error f (Q : unit -> list (syscall * sysret) -> netWorld -> Prop) w :
  (forall w', sock (net w') = sock (net w) -> Q tt [] w') -> wpt (loopyNetSetError strerror f) Q w.
Proof using Type.
  intros H.   unfold loopyNetSetError. apply wp_modify. exists []. split_and!; [done|done|]. apply H. cbv beta.
  by destruct (fst (snprintf 256 (f ++ text ": " ++ strerror (errno w)))).
Qed.

Lemma wpt_fails f (Q : bool -> list (syscall * sysret) -> netWorld -> Prop) w :
  (forall w', sock (net w') = sock (net w) -> Q false [] w') -> wpt (fails strerror f) Q w.
Proof using Type. intros H. apply wpt_bind, wpt_set_error. intros w' E. apply wpt_ret. by apply H. Qed.
End Traces.

Ltac tstep :=
  match goal with
  | |- wpt (_ ≫= _) _ _ => apply wpt_bind
  | |- wpt (mret _) _ _ => apply wpt_ret
  | |- wpt the_net _ _ => apply wpt_the_net
  | |- wpt get _ _ => apply wpt_get
  | |- wpt (sys _ _) _ _ => apply wpt_sys; intros ? ? ? ? ?
  end.

(** The calls as one list, newest first. *)
Ltac tnorm := cbn [app]; rewrite ?app_nil_r, <- ?app_assoc; cbn [app].

Section Evidence.
Variable kernel : list (syscall * sysret) -> syscall -> sysret.
Variables strerror gai_strerror : Z -> cstr.
Hypothesis Hsane : sane_kernel kernel.
Implicit Types (w : netWorld) (n : list (syscall * sysret)).

Lemma option_trace level name v f w : wpt (option_or_fail kernel strerror level name v f (mret true))
  (fun b n w' => sock (net w') = sock (net w) /\ (b = false -> option_failed n)) w.
Proof using Type.
  unfold option_or_fail, setSockOptInteger. do 5 tstep. tstep. destruct (Z.eqb_spec (ret r) 0) as [E|E]; [tstep; by split; [congruence|]|].
  apply wpt_fails. intros w2 E2. cbn [app]. split; [congruence|]. intros _. eexists _, r. split; [by apply list_elem_of_singleton|done].
Qed.

Lemma nonBlock_trace (b : bool) w : wpt (if b then loopyNetNonBlockEnable kernel strerror else mret true)
  (fun b n w' => sock (net w') = sock (net w) /\ (b = false -> option_failed n)) w.
Proof using Type.
  destruct b; [|by tstep]. unfold loopyNetNonBlockEnable, loopyNetSetNonBlock. do 4 tstep.
  destruct (Z.eqb_spec (ret r) (-1)) as [E|E].
  { apply wpt_fails. intros w2 E2. cbn [app]. split; [congruence|]. intros _. eexists _, r. split; [by apply list_elem_of_singleton|done]. }
  do 2 tstep. match goal with |- context [if (ret ?x =? -1)%Z then _ else _] => destruct (Z.eqb_spec (ret x) (-1)) as [E'|E'] end; [|tstep; by split; [congruence|]].
  apply wpt_fails. intros w3 E3. cbn [app]. split; [congruence|]. intros _. eexists _, _. split; [by apply elem_of_cons; left|done].
Qed.

Lemma bindFirst_trace bs : forall w, wpt (bindFirst kernel bs) (fun b n w' => sock (net w') = sock (net w) /\
  if b : bool then exists x r n', n = (SysBind (sock (net w)) (ai_addr x), r) :: n' /\ x ∈ bs /\ ret r <> (-1)%Z else Forall (bind_failed n) bs) w.
Proof using Type.
  induction bs as [|b bs IH]; intros w; cbn [bindFirst]; [by tstep|]. do 4 tstep. destruct (Z.eqb_spec (ret r) (-1)) as [E|E]; cbn [negb].
  - eapply wpt_mono; [apply IH|]. intros ok n w2 _ [E2 Hok]. cbn [app]. rewrite app_nil_r. split; [congruence|]. destruct ok.
    + destruct Hok as (x & r' & n' & -> & Hx & Hr'). exists x, r', (n' ++ [(SysBind (sock (net w)) (ai_addr b), r)]). split_and!; [|by right|done]. cbn. congruence.
    + constructor; [|eapply Forall_impl; [exact Hok|]; intros x Hx; apply bind_failed_app; auto].
      exists (sock (net w)), r. split; [|done]. rewrite elem_of_app. right. by apply list_elem_of_singleton.
  - tstep. split; [congruence|]. exists b, r, []. split_and!; [done|by left|done].
Qed.

Lemma close_trace w : wpt (loopyNetSocketClose kernel strerror) (fun _ n w' => sock (net w') = (-1)%Z) w.
Proof using Hsane.
  unfold loopyNetSocketClose. do 2 tstep. unfold LN_SOCK_CLOSED. destruct (Z.eqb_spec (sock (net w)) (-1)); [by tstep|]. do 2 tstep.
  subst r. rewrite (proj2 (Z.eqb_neq _ _) (close_works _ Hsane _ _)). tstep. apply wpt_set_sock. intros w2 E2. by tstep.
Qed.

Lemma newFromAddrinfo_trace p w : wpt (loopyNetSocketNewFromAddrinfo kernel strerror p)
  (fun b n w' => if b : bool then sock (net w') <> (-1)%Z else no_socket (errno w) n p) w.
Proof using Type.
  unfold loopyNetSocketNewFromAddrinfo. do 4 tstep. unfold LN_SOCK_CLOSED.
  assert (Hno : ret r = (-1)%Z \/ errno w' = EAFNOSUPPORT -> no_socket (errno w) [(SysSocket (ai_family p) (Z.lor (ai_socktype p) SOCK_CLOEXEC) (ai_protocol p), r)] p).
  { intros Hr. exists [], r, []. split; [done|]. cbn. destruct Hr as [Hr|Hr]; [by left|right; congruence]. }
  destruct (Z.eqb_spec (errno w') EAFNOSUPPORT) as [E|_]; [apply wpt_fails; intros; cbn [app]; auto|].
  destruct (Z.eqb_spec (ret r) (-1)) as [E|E]; [tstep; cbn [app]; auto|]. tstep. apply wpt_set_sock. intros w2 E2. tstep. congruence.
Qed.

Lemma connectSocket_trace p bserv flags w : wpt (connectSocket kernel strerror p bserv flags) (fun e n w' =>
    match e with
    | Some WalkEnd => sock (net w') = sock (net w) /\ connected flags bserv [p] (sock (net w)) n w'
    | Some WalkError => obstacle bserv n
    | Some WalkNone => False
    | None => connect_failed n p
    end) w.
Proof using Hsane.
  unfold connectSocket. tstep. eapply wpt_mono; [apply option_trace|]. intros ok n1 w1 _ [Es1 Hok]. destruct ok; cbn [negb]; [|tstep; left; auto].
  fold (nonblocking flags). tstep. eapply wpt_mono; [apply nonBlock_trace|]. intros ok n2 w2 _ [Es2 Hok2]. destruct ok; cbn [negb].
  2:{ tstep. left. apply option_failed_app. auto. }
  tstep. assert (Hb : wpt (match bserv with Some bs => bindFirst kernel bs | None => mret true end) (fun b n w' => sock (net w') = sock (net w2) /\
    if b : bool then forall bs, bserv = Some bs -> exists x r n', n = (SysBind (sock (net w2)) (ai_addr x), r) :: n' /\ x ∈ bs /\ ret r <> (-1)%Z else obstacle bserv n) w2).
  { destruct bserv as [bs|]; [|by tstep]. eapply wpt_mono; [apply bindFirst_trace|]. intros b n w' _ [Es Hb]. split; [done|].
    destruct b; [by intros ? [= <-]|]. right. by exists bs. }
  eapply wpt_mono; [exact Hb|]. clear Hb. intros b n3 w3 _ [Es3 Hb]. destruct b; cbn [negb].
  2:{ tstep. apply wpt_set_error. intros w4 _. tstep. tnorm. apply obstacle_app. auto. }
  do 4 tstep. assert (Hcon : ret r <> (-1)%Z \/ nonblocking flags = true /\ errno w' = EINPROGRESS ->
    sock (net w') = sock (net w) /\ connected flags bserv [p] (sock (net w)) ((SysConnect (sock (net w3)) (ai_addr p), r) :: n3 ++ n2 ++ n1) w').
  { intros Hr. split; [congruence|]. exists p, r, (n3 ++ n2 ++ n1). split_and!; [by rewrite Es3, Es2, Es1|by left|done|]. intros bs E.
    destruct (Hb bs E) as (x & r' & n' & -> & Hx & Hr'). exists x, r', (n' ++ n2 ++ n1). split_and!; [|done|done]. by rewrite Es2, Es1. }
  destruct (Z.eqb_spec (ret r) (-1)) as [E|E]; [|tstep; tnorm; auto]. do 2 tstep.
  destruct (Z.eqb_spec (errno w') EINPROGRESS), (nonblocking flags) eqn:En; cbn [andb]; try (tstep; tnorm; by auto).
  all: tstep; eapply wpt_mono; [apply close_trace|]; intros ? n5 w5 _ _; tstep; tnorm; exists (sock (net w3)), r; split; [|done].
  all: rewrite elem_of_app; right; by left.
Qed.

Lemma connectFirst_trace bserv flags ps : forall w, wpt (connectFirst kernel strerror ps bserv flags) (fun e n w' =>
    match e with
    | WalkEnd => sock (net w') <> (-1)%Z /\ connected flags bserv ps (sock (net w')) n w'
    | WalkError => obstacle bserv n
    | WalkNone => Forall (tried (errno w) n) ps
    end) w.
Proof using Hsane.
  induction ps as [|p ps IH]; intros w; cbn [connectFirst]; [tstep; by constructor|].
  assert (Hrest : forall n1 w1, errno w1 = errno_of (errno w) n1 -> tried (errno w) n1 p ->
    wpt (connectFirst kernel strerror ps bserv flags) (fun e n w' =>
      match e with
      | WalkEnd => sock (net w') <> (-1)%Z /\ connected flags bserv (p :: ps) (sock (net w')) (n ++ n1) w'
      | WalkError => obstacle bserv (n ++ n1)
      | WalkNone => Forall (tried (errno w) (n ++ n1)) (p :: ps)
      end) w1).
  { intros n1 w1 He Hp. eapply wpt_mono; [apply IH|]. intros e n w2 _ Hw. destruct e.
    - destruct Hw as [Hs (q & r & n' & -> & Hq & Hr & Hb)]. split; [done|]. apply connected_app. exists q, r, n'. split_and!; [done|by right|done..].
    - by apply obstacle_app; right.
    - constructor; [by apply tried_more|]. eapply Forall_impl; [exact Hw|]. intros q Hq. apply tried_since. by rewrite <- He. }
  tstep. eapply wpt_mono; [apply newFromAddrinfo_trace|]. intros ok n1 w1 He1 Hok. destruct ok; cbn [negb].
  2:{ apply (Hrest n1 w1); [done|by left]. }
  tstep. eapply wpt_mono; [apply connectSocket_trace|]. intros e n2 w2 He2 Hw. destruct e as [[]|].
  - tstep. tnorm. destruct Hw as [Es (q & r & n' & -> & Hq%list_elem_of_singleton & Hr & Hb)]. subst q. split; [congruence|]. rewrite Es.
    apply connected_app. exists p, r, n'. split_and!; [done|by left|done..].
  - tstep. tnorm. apply obstacle_app. auto.
  - done.
  - eapply wpt_mono; [apply (Hrest (n2 ++ n1) w2)|].
    + by rewrite errno_of_app, <- He1.
    + right. apply connect_failed_app. auto.
    + intros e n w3 _ Hw'. by rewrite <- app_assoc.
Qed.

(** The address to bind to, when a connection without it will not do. *)
Definition demanded (bindAddr : option cstr) (flags : Z) : option cstr :=
  if (Z.land flags LOOPY_NET_CONNECT_BEST_EFFORT_BIND =? 0)%Z then bindAddr else None.

(** A connect ends without a socket: the host has addresses, and either each of them was tried,
    or a socket was refused an option, or the address to bind to has addresses and none was bound. *)
Definition gave_up (e : Z) (host : cstr) (port : Z) (bindAddr : option cstr) n : Prop :=
  exists ps, resolves (Some host) (Some (port_text port)) ps n /\
    (Forall (tried e n) ps \/ option_failed n \/ exists b bs, bindAddr = Some b /\ resolves (Some b) None bs n /\ Forall (bind_failed n) bs).

(** It ends with socket [s], connected to an address of the host. *)
Definition reached (host : cstr) (port : Z) (bindAddr : option cstr) (flags s : Z) n w : Prop :=
  exists ps bserv n1 n2, n = n1 ++ n2 /\ connected flags bserv ps s n1 w /\ resolves (Some host) (Some (port_text port)) ps n2 /\
    forall b, bindAddr = Some b -> exists bs, bserv = Some bs /\ resolves (Some b) None bs n2.

(** The last call was asked for a name, which was not found. *)
Definition not_found (host : cstr) (port : Z) (bindAddr : option cstr) n : Prop :=
  exists q r n', n = (q, r) :: n' /\ ret r <> 0%Z /\
    (q = SysGetaddrinfo (Some host) (Some (port_text port)) AF_UNSPEC SOCK_STREAM 0 \/
     exists b, bindAddr = Some b /\ q = SysGetaddrinfo (Some b) None AF_UNSPEC SOCK_STREAM 0).

Definition connect_trace (e : Z) (host : cstr) (port : Z) (bindAddr : option cstr) (flags : Z) (b : bool) n w : Prop :=
  if b then sock (net w) = (-1)%Z /\ gave_up e host port (demanded bindAddr flags) n \/
            sock (net w) <> (-1)%Z /\ reached host port (demanded bindAddr flags) flags (sock (net w)) n w
  else not_found host port bindAddr n.

Lemma gave_up_since e host port n n1 : gave_up (errno_of e n1) host port None n -> gave_up e host port None (n ++ n1).
Proof using Type.
  intros (ps & Hr & H). exists ps. split; [apply resolves_app; auto|]. destruct H as [H|[H|(? & ? & [=] & _)]].
  - left. eapply Forall_impl; [exact H|]. intros q. apply tried_since.
  - right; left. apply option_failed_app. auto.
Qed.

Lemma connect_trace_since e host port bindAddr flags b n n1 w : (Z.land flags LOOPY_NET_CONNECT_BEST_EFFORT_BIND =? 0)%Z = false ->
  connect_trace (errno_of e n1) host port None flags b n w -> connect_trace e host port bindAddr flags b (n ++ n1) w.
Proof using Type.
  intros Hf. unfold connect_trace, demanded. rewrite Hf. destruct b.
  - intros [[Hs H]|[Hs (ps & bserv & m1 & m2 & -> & Hc & Hr & Hb)]]; [left; split; [done|by apply gave_up_since]|right; split; [done|]].
    exists ps, bserv, m1, (m2 ++ n1). split_and!; [by rewrite app_assoc|done|apply resolves_app; auto|done].
  - intros (q & r & n' & -> & Hr & [Hq|(b & [=] & _)]). exists q, r, (n' ++ n1). split_and!; [done|done|by left].
Qed.

Lemma bind_names_trace bindAddr w :
  wpt (match bindAddr with
       | Some b => r ← sys kernel (SysGetaddrinfo (Some b) None AF_UNSPEC SOCK_STREAM 0); mret (ret r, Some (infos r))
       | None => mret (0%Z, None)
       end) (fun q n w' =>
    (fst q <> 0%Z -> exists b r n', bindAddr = Some b /\ n = (SysGetaddrinfo (Some b) None AF_UNSPEC SOCK_STREAM 0, r) :: n' /\ ret r = fst q) /\
    (fst q = 0%Z -> match bindAddr with Some b => exists bs, snd q = Some bs /\ resolves (Some b) None bs n | None => snd q = None end)) w.
Proof using Type.
  destruct bindAddr as [b|]; [|by tstep]. do 2 tstep. tstep. tnorm. cbn [fst snd]. split.
  - intros _. by eexists b, r, [].
  - intros Hr. exists (infos r). split; [done|]. exists r. split_and!; [by apply list_elem_of_singleton|done|done].
Qed.

Lemma connectBody_trace again host port bindAddr flags w :
  (forall w1, (Z.land flags LOOPY_NET_CONNECT_BEST_EFFORT_BIND =? 0)%Z = false -> is_Some bindAddr ->
     wpt again (connect_trace (errno w1) host port None flags) w1) ->
  wpt (connectBody kernel strerror gai_strerror again host port bindAddr flags) (connect_trace (errno w) host port bindAddr flags) w.
Proof using Hsane.
  intros Hagain. unfold connectBody. do 2 tstep. destruct (Z.eqb_spec (ret r) 0) as [Er|Er]; cbn [negb].
  2:{ apply wpt_fails. intros w1 _. tnorm. eexists _, r, []. split_and!; [done|done|by left]. }
  set (c := SysGetaddrinfo (Some host) (Some (port_text port)) AF_UNSPEC SOCK_STREAM 0).
  assert (Hres : resolves (Some host) (Some (port_text port)) (infos r) [(c, r)]) by (exists r; split_and!; [by apply list_elem_of_singleton|done|done]).
  tstep. eapply wpt_mono; [apply bind_names_trace|]. intros [q bserv] n1 w1 He1 [Hfail Hok]. cbn [fst snd] in *.
  destruct (Z.eqb_spec q 0) as [Eq|Eq]; cbn [negb].
  { specialize (Hok Eq). clear Hfail. tstep. eapply wpt_mono; [apply connectFirst_trace|]. intros e n2 w2 He2 Hw. tstep.
    set (n := n1 ++ [(c, r)]). assert (He : errno w1 = errno_of (errno w) n) by (unfold n; rewrite errno_of_app, He1; cbn; congruence).
    assert (Hbs : forall b, bindAddr = Some b -> exists bs, bserv = Some bs /\ resolves (Some b) None bs n).
    { intros b ->. destruct Hok as (bs & -> & Hb). exists bs. split; [done|]. apply resolves_app. auto. }
    assert (Hres' : resolves (Some host) (Some (port_text port)) (infos r) n) by (apply resolves_app; auto).
    eapply (wpt_mono _ (fun _ n3 w3 => e <> WalkEnd /\ sock (net w3) = (-1)%Z \/ e = WalkEnd /\ n3 = [] /\ w3 = w2)).
    { destruct e; [by tstep; auto|tstep; eapply wpt_mono; [apply close_trace|]; intros ? n3 w3 _ Hs; tstep; by left|].
      tstep. apply wpt_set_error. intros w3 _. tstep. eapply wpt_mono; [apply close_trace|]. intros ? n4 w4 _ Hs. tstep. by left. }
    intros [] n3 w3 He3 Hend. do 2 tstep. tnorm. fold n. unfold LN_SOCK_CLOSED. destruct Hend as [[Hne Hs]|(-> & -> & ->)].
    2:{ destruct Hw as [Hs Hc]. rewrite (proj2 (Z.eqb_neq _ _) Hs). cbn [andb]. tstep. right. split; [done|]. tnorm. fold n.
        exists (infos r), bserv, n2, n. split_and!; [done|done|done|]. intros b Hb. apply Hbs. unfold demanded in Hb. by destruct (_ =? _)%Z. }
    rewrite Hs. cbn [Z.eqb Pos.eqb andb]. destruct (bool_decide (is_Some bindAddr) && _) eqn:Eb.
    { apply andb_true_iff in Eb as [Eb1%bool_decide_eq_true Eb2%negb_true_iff]. eapply wpt_mono; [by apply Hagain|]. intros b n4 w4 _ H4.
      tnorm. fold n. apply connect_trace_since; [done|]. by rewrite !errno_of_app, <- He, <- He2, <- He3. }
    tstep. left. split; [done|]. tnorm. fold n. exists (infos r). split; [by apply resolves_app; left; apply resolves_app; left|].
    destruct e; [done| |left].
    - destruct Hw as [Hw|(bs & -> & Hw)]; [right; left; by apply option_failed_app; left; apply option_failed_app; right|]. right; right.
      destruct bindAddr as [b|]; [|done]. cbn [is_Some] in Eb. rewrite bool_decide_eq_true_2 in Eb by by eexists. apply negb_false_iff in Eb.
      destruct (Hbs b eq_refl) as (bs' & [= <-] & Hb). exists b, bs. split_and!.
      + unfold demanded. by rewrite Eb.
      + by apply resolves_app; left; apply resolves_app; left.
      + eapply Forall_impl; [exact Hw|]. intros x Hx. apply bind_failed_app. left. apply bind_failed_app. by right.
    - eapply Forall_impl; [exact Hw|]. intros x Hx. apply tried_more, tried_since. by rewrite <- He. }
  apply wpt_fails. intros w2 _. tnorm. destruct (Hfail Eq) as (b & r' & n' & -> & -> & Hr'). eexists _, r', _. split_and!; [done|congruence|]. right. by exists b.
Qed.

Lemma connect_trace_ok host port bindAddr flags w :
  wpt (loopyNetTcpGenericConnect kernel strerror gai_strerror host port bindAddr flags) (connect_trace (errno w) host port bindAddr flags) w.
Proof using Hsane.
  apply connectBody_trace. intros w1 _ _. apply connectBody_trace. by intros w2 _ [? [=]].
Qed.
(** *** Servers *)

(** An option, the binding or the listening was refused. *)
Definition serve_refused n : Prop :=
  exists c r, (c, r) ∈ n /\ match c with SysSetsockopt _ _ _ _ => ret r <> 0%Z | SysBind _ _ | SysListen _ _ => ret r = (-1)%Z | _ => False end.

(** [s] was bound to [sa] and then listens; after that only the calls [after] were made. *)
Definition listening (backlog : Z) (sa : sockaddr) (after : list syscall) (s : Z) n : Prop :=
  exists pre r1 r2 n', n = pre ++ (SysListen s backlog, r1) :: (SysBind s sa, r2) :: n' /\ fst <$> pre = after /\ ret r1 <> (-1)%Z /\ ret r2 <> (-1)%Z.

Lemma serve_refused_app n n' : serve_refused n \/ serve_refused n' -> serve_refused (n' ++ n).
Proof using Type. intros [(c & r & H & ?)|(c & r & H & ?)]; exists c, r; rewrite elem_of_app; auto. Qed.

Lemma listening_app backlog sa after s n n' : listening backlog sa after s n -> listening backlog sa after s (n ++ n').
Proof using Type. intros (pre & r1 & r2 & m & -> & H). exists pre, r1, r2, (m ++ n'). by rewrite <- app_assoc. Qed.

Lemma set_option_trace level name v f (b : bool) w : wpt (if b then option_or_fail kernel strerror level name v f (mret true) else mret true)
  (fun b n w' => sock (net w') = sock (net w) /\ (b = false -> serve_refused n)) w.
Proof using Type.
  destruct b; [|by tstep]. unfold option_or_fail, setSockOptInteger. do 5 tstep. tstep. destruct (Z.eqb_spec (ret r) 0) as [E|E]; [tstep; by split; [congruence|]|].
  apply wpt_fails. intros w2 E2. cbn [app]. split; [congruence|]. intros _. eexists _, r. split; [by apply list_elem_of_singleton|done].
Qed.

Lemma refused_close c r f n w : (c, r) ∈ n -> match c with SysBind _ _ | SysListen _ _ => ret r = (-1)%Z | _ => False end ->
  wpt (loopyNetSetError strerror f ≫= fun _ => loopyNetSocketClose kernel strerror ≫= fun _ => mret false) (fun b n' w' => b = false /\ serve_refused (n' ++ n)) w.
Proof using Hsane.
  intros Hin Hc. tstep. apply wpt_set_error. intros w1 _. tstep. eapply wpt_mono; [apply close_trace|]. intros ? n2 w2 _ _. tstep. tnorm. split; [done|].
  apply serve_refused_app. left. exists c, r. split; [done|]. by destruct c.
Qed.

Lemma net_listen_trace sa backlog w : wpt (loopyNetListen kernel strerror sa backlog) (fun b n w' =>
  if b : bool then listening backlog sa [] (sock (net w')) n else serve_refused n) w.
Proof using Hsane.
  unfold loopyNetListen, loopyNetL4LoadBalanceEnable, loopyNetSetReusePort. do 2 tstep. tstep. eapply wpt_mono; [apply set_option_trace|]. intros ok n1 w1 _ [E1 Hok1].
  destruct ok; cbn [negb]; [|tstep; tnorm; auto]. tstep. eapply wpt_mono; [apply set_option_trace|]. intros ok n2 w2 _ [E2 Hok2].
  destruct ok; cbn [negb]; [|tstep; tnorm; apply serve_refused_app; auto]. do 4 tstep.
  destruct (Z.eqb_spec (ret r) (-1)) as [E|E].
  { eapply wpt_mono; [apply (refused_close (SysBind (sock (net w2)) sa) r _ ((SysBind (sock (net w2)) sa, r) :: n2 ++ n1)); [by left|done]|].
    intros ? n3 w3 _ [-> Hf]. by tnorm. }
  do 4 tstep. match goal with |- context [(ret ?x =? -1)%Z] => destruct (Z.eqb_spec (ret x) (-1)) as [E'|E'] end.
  { eapply wpt_mono; [eapply (refused_close (SysListen _ backlog) _ _ (_ :: (SysBind (sock (net w2)) sa, r) :: n2 ++ n1)); [by left|done]|].
    intros ? n3 w3 _ [-> Hf]. by tnorm. }
  tstep. tnorm. eexists [], _, r, (n2 ++ n1). split_and!; [|done|done|done]. cbn. congruence.
Qed.

Lemma serveSocket_trace p af backlog w : wpt (serveSocket kernel strerror p af backlog) (fun b n w' =>
  if b : bool then listening backlog (ai_addr p) [] (sock (net w')) n else serve_refused n) w.
Proof using Hsane.
  assert (Hclose : forall w n, serve_refused n -> wpt (loopyNetSocketClose kernel strerror ≫= fun _ => mret false) (fun b n' _ => b = false /\ serve_refused (n' ++ n)) w).
  { intros w1 n Hn. tstep. eapply wpt_mono; [apply close_trace|]. intros ? n2 w2 _ _. tstep. split; [done|]. tnorm. apply serve_refused_app. auto. }
  unfold serveSocket, loopyNetV6Only, loopyNetSetReuseAddr. tstep. eapply wpt_mono; [apply set_option_trace|]. intros ok n1 w1 _ [_ Hok1].
  destruct ok; cbn [negb]; [|eapply wpt_mono; [by apply (Hclose _ n1), Hok1|]; by intros ? n2 w2 _ [-> H2]].
  tstep. eapply wpt_mono; [apply (set_option_trace _ _ _ _ true)|]. intros ok n2 w2 _ [_ Hok2].
  destruct ok; cbn [negb].
  - eapply wpt_mono; [apply net_listen_trace|]. intros b n3 w3 _ Hb. tnorm. destruct b; [by apply listening_app|apply serve_refused_app; auto].
  - eapply wpt_mono; [by apply (Hclose _ n2), Hok2|]. intros ? n3 w3 _ [-> H3]. apply serve_refused_app. auto.
Qed.

Lemma serveFirst_trace af backlog ps : forall w, wpt (serveFirst kernel strerror ps af backlog) (fun b n w' =>
  if b : bool then exists p, p ∈ ps /\ listening backlog (ai_addr p) [] (sock (net w')) n
  else Forall (no_socket (errno w) n) ps \/ serve_refused n) w.
Proof using Hsane.
  induction ps as [|p ps IH]; intros w; cbn [serveFirst]; [apply wpt_fails; by left|].
  tstep. eapply wpt_mono; [apply newFromAddrinfo_trace|]. intros ok n1 w1 He1 Hok. destruct ok; cbn [negb].
  - eapply wpt_mono; [apply serveSocket_trace|]. intros b n2 w2 _ Hb. destruct b; [|right; apply serve_refused_app; auto].
    exists p. split; [by left|by apply listening_app].
  - eapply wpt_mono; [apply IH|]. intros b n2 w2 _ Hb. destruct b.
    + destruct Hb as (q & Hq & Hb). exists q. split; [by right|by apply listening_app].
    + destruct Hb as [Hb|Hb]; [left|right; apply serve_refused_app; auto]. constructor; [by apply no_socket_more|].
      eapply Forall_impl; [exact Hb|]. intros q Hq. apply no_socket_since. by rewrite <- He1.
Qed.

(** Making a server over TCP: it listens on an address that the resolver gives, or the name
    was not found, no address had a socket, or something was refused. *)
Definition tcp_served (port : Z) (bindAddr : option cstr) (af backlog : Z) w (b : bool) n w' : Prop :=
  let r := kernel (syslog w) (SysGetaddrinfo bindAddr (Some (port_text port)) af SOCK_STREAM AI_PASSIVE) in
  if b then ret r = 0%Z /\ exists p, p ∈ infos r /\ listening backlog (ai_addr p) [] (sock (net w')) n
  else ret r <> 0%Z \/ Forall (no_socket (errno w) n) (infos r) \/ serve_refused n.

Lemma tcpServer_trace port bindAddr af backlog w :
  wpt (_loopyNetTcpServer kernel strerror gai_strerror port bindAddr af backlog) (tcp_served port bindAddr af backlog w) w.
Proof using Hsane.
  unfold _loopyNetTcpServer, tcp_served. do 2 tstep. rewrite <- H. destruct (Z.eqb_spec (ret r) 0) as [E|E]; cbn [negb].
  2:{ apply wpt_fails. intros w1 _. by left. }
  eapply wpt_mono; [apply serveFirst_trace|]. intros b n2 w2 _ Hb. destruct b.
  - destruct Hb as (p & Hp & Hb). split; [done|]. exists p. split; [done|by apply listening_app].
  - right. destruct Hb as [Hb|Hb]; [left|right; apply serve_refused_app; auto]. eapply Forall_impl; [exact Hb|]. intros q Hq. apply no_socket_since.
    cbn. by rewrite <- H1.
Qed.

(** Making a server on a path: it listens there, and then its permissions were set, if some
    were given; or there was no socket, or something was refused. *)
Definition unix_served (path : cstr) (perm backlog : Z) (b : bool) n w' : Prop :=
  let sa := sun_path Ascii.zero path in
  if b then listening backlog (SockUn sa) (if (perm =? 0)%Z then [] else [SysChmod sa perm]) (sock (net w')) n
  else (exists r, (SysSocket AF_LOCAL (Z.lor SOCK_STREAM SOCK_CLOEXEC) 0, r) ∈ n /\ ret r = (-1)%Z) \/ serve_refused n.

Lemma unixServer_trace path perm backlog w : wpt (loopyNetUnixServer kernel strerror path perm backlog) (unix_served path perm backlog) w.
Proof using Hsane.
  unfold loopyNetUnixServer, unix_served. tstep.
  eapply (wpt_mono _ (fun b n _ => b = false -> (exists r, (SysSocket AF_LOCAL (Z.lor SOCK_STREAM SOCK_CLOEXEC) 0, r) ∈ n /\ ret r = (-1)%Z) \/ serve_refused n)).
  { unfold loopyNetSocketNew, loopyNetSetReuseAddr. do 2 tstep. tstep. apply wpt_set_sock. intros w1 _. destruct (Z.eqb_spec (ret r) (-1)) as [E|E].
    { apply wpt_fails. intros w2 _ _. left. exists r. split; [|done]. tnorm. by apply list_elem_of_singleton. }
    tstep. eapply wpt_mono; [apply (set_option_trace _ _ _ _ true)|]. intros ok n2 w2 _ [_ Hok]. destruct ok; cbn [negb].
    - do 2 tstep. unfold loopyNetSetDisableSIGPIPEOnWrite. do 3 tstep. done.
    - tstep. eapply wpt_mono; [apply close_trace|]. intros ? n3 w3 _ _. tstep. intros _. right. tnorm. apply serve_refused_app. left. apply serve_refused_app. auto. }
  intros ok n1 w1 _ Hok. destruct ok; cbn [negb]; [|tstep; tnorm; auto]. tstep. eapply wpt_mono; [apply net_listen_trace|]. intros ok n2 w2 _ Hb.
  destruct ok; cbn [negb]; [|tstep; tnorm; right; apply serve_refused_app; auto]. tstep. destruct (Z.eqb_spec perm 0); cbn [negb].
  - do 2 tstep. tnorm. by apply listening_app.
  - do 2 tstep. do 2 tstep. tnorm. destruct Hb as (pre & r1 & r2 & n' & -> & Hpre & Hr1 & Hr2). destruct pre; [|done].
    exists [(SysChmod (sun_path Ascii.zero path) perm, r)], r1, r2, (n' ++ n1). split_and!; [|done|done|done]. cbn. congruence.
Qed.
End Evidence.

Section Keep.
Variable kernel : list (syscall * sysret) -> syscall -> sysret.
Variables strerror gai_strerror : Z -> cstr.
Variable inet_ntop : sockaddr -> nat -> option cstr.
Variable junk : ascii.
Hypothesis Hsane : sane_kernel kernel.
Variables (e0 : Z) (log0 : list (syscall * sysret)).
Notation net_at := (net_at e0 log0).
Implicit Types (w : netWorld) (s : Z) (lost opens : list Z).

Lemma log_kept lost c r w :
  (exists new, syslog w = new ++ log0 /\ errno w = errno_of e0 new /\ Forall (dropped e0 new) lost) ->
  exists new, (c, r) :: syslog w = new ++ log0 /\ default (errno w) (new_errno r) = errno_of e0 new /\ Forall (dropped e0 new) lost.
Proof using Type.
  intros (new & -> & -> & H). exists ((c, r) :: new). split_and!; [done|done|]. eapply Forall_impl; [exact H|]. intros g. apply dropped_cons.
Qed.

(** A call that opens and closes nothing. *)
Lemma net_sys_keeps c s lost opens w : neutral c = true -> net_at s lost opens w ->
  wp (sys kernel c) (fun r w' => net_at s lost opens w' /\ syslog w' = (c, r) :: syslog w /\ net w' = net w) w.
Proof using Hsane.
  intros Hc H. nstep. split; [|done]. destruct H as [H1 H3 H4 H5]. split; [done| |done|cbn; by apply log_kept].
  - change (open_socks ((c, kernel (syslog w) c) :: syslog w) = (if (s =? -1)%Z then [] else [s]) ++ lost ++ opens). by rewrite open_socks_neutral.
Qed.

Lemma set_error_keeps f s lost opens w : net_at s lost opens w ->
  wp (loopyNetSetError strerror f) (fun _ w' => net_at s lost opens w' /\ syslog w' = syslog w /\ listenFlag (net w') = listenFlag (net w)) w.
Proof using Type. intros []. unfold loopyNetSetError. nstep. split; [|done]. by split. Qed.

Lemma fails_keeps f s lost opens w : net_at s lost opens w ->
  wp (fails strerror f) (fun b w' => b = false /\ net_at s lost opens w' /\ syslog w' = syslog w /\ listenFlag (net w') = listenFlag (net w)) w.
Proof using Type. intros H. unfold fails. nstep. eapply wp_mono; [by apply set_error_keeps|]. intros [] w' (H' & E). by nstep. Qed.

(** An option: if it is refused, this was the last call. *)
Lemma option_keeps level name v f k s lost opens w (Q : bool -> netWorld -> Prop) : net_at s lost opens w ->
  (forall w', net_at s lost opens w' -> (exists r, syslog w' = (SysSetsockopt s level name v, r) :: syslog w /\ ret r = 0%Z) ->
     listenFlag (net w') = listenFlag (net w) -> wp k Q w') ->
  (forall w', net_at s lost opens w' -> (exists r, syslog w' = (SysSetsockopt s level name v, r) :: syslog w /\ ret r <> 0%Z) ->
     listenFlag (net w') = listenFlag (net w) -> Q false w') ->
  wp (option_or_fail kernel strerror level name v f k) Q w.
Proof using Hsane.
  intros H Hk Hq. unfold option_or_fail. do 2 nstep. unfold setSockOptInteger. do 2 nstep.
  rewrite (na_sock _ _ _ _ _ _ H). eapply wp_mono; [by apply (net_sys_keeps (SysSetsockopt s level name v) s lost opens)|]. intros r w1 (H1 & E1 & En). nstep.
  destruct (Z.eqb_spec (ret r) 0); [apply Hk; [done|by exists r|by rewrite En]|].
  eapply wp_mono; [by apply fails_keeps|]. intros b w2 (-> & H2 & E2 & Ef). apply Hq; [done|exists r; by rewrite E2|by rewrite Ef, En].
Qed.

Lemma close_keeps s lost opens w : net_at s lost opens w ->
  wp (loopyNetSocketClose kernel strerror) (fun b w' => b = true /\ net_at (-1) lost opens w' /\ listenFlag (net w') = listenFlag (net w)) w.
Proof using Hsane.
  intros H. pose proof H as [H1 H3 H4 H5]. unfold loopyNetSocketClose, set_sock. do 2 nstep. rewrite H1. unfold LN_SOCK_CLOSED. destruct (Z.eqb_spec s (-1)) as [-> |Hs].
  { by nstep. }
  do 2 nstep. pose proof (close_works _ Hsane (syslog w) s) as Hc. rewrite (proj2 (Z.eqb_neq _ _) Hc). do 3 nstep.
  split; [done|]. split; [|done]. split; [done| | |cbn; by apply log_kept].
  - cbn. rewrite (proj2 (Z.eqb_neq _ _) Hc), H3. cbn [app]. rewrite filter_cons_False by (intros Hx; by apply Hx). apply filter_all.
    apply Forall_forall. intros x Hx ->. done.
  - intros Hx. pose proof (open_socks_valid (syslog w)) as Hall. rewrite H3, Forall_app, !Forall_forall in Hall. by apply (proj2 Hall (-1)%Z).
Qed.

Lemma socket_open c s lost opens w : neutral c = false -> (match c with SysSocket _ _ _ => True | _ => False end) -> net_at (-1) lost opens w ->
  s = ret (kernel (syslog w) c) -> s <> (-1)%Z ->
  net_at s lost opens (w <| syslog ::= cons (c, kernel (syslog w) c) |> <| errno := default (errno w) (new_errno (kernel (syslog w) c)) |> <| net ::= (fun l => l <| sock := s |>) |>).
Proof using Hsane.
  intros _ Hc [H1 H3 H4 H5] -> Hs. split; [done| | |cbn; by apply log_kept].
  - cbn -[open_socks]. change (open_socks ((c, kernel (syslog w) c) :: syslog w) = (if (ret (kernel (syslog w) c) =? -1)%Z then [] else [ret (kernel (syslog w) c)]) ++ lost ++ opens).
    destruct c; try done. cbn. by rewrite (proj2 (Z.eqb_neq _ _) Hs), H3.
  - destruct c; try done. pose proof (socket_fresh _ Hsane (syslog w) domain type protocol) as Hf. by rewrite H3 in Hf.
Qed.

(** Without a socket, a new one may have been lost. *)
Lemma newFromAddrinfo_ok p lost opens w : net_at (-1) lost opens w ->
  wp (loopyNetSocketNewFromAddrinfo kernel strerror p) (fun b w' => listenFlag (net w') = listenFlag (net w) /\
    if b : bool then exists s, s <> (-1)%Z /\ net_at s lost opens w' else exists lost', net_at (-1) lost' opens w') w.
Proof using Hsane.
  intros H. unfold loopyNetSocketNewFromAddrinfo, set_sock. do 4 nstep. set (c := SysSocket _ _ _).
  set (w1 := w <| syslog ::= _ |> <| errno := _ |>). unfold LN_SOCK_CLOSED.
  destruct (Z.eqb_spec (ret (kernel (syslog w) c)) (-1)) as [E|E].
  - assert (H1 : net_at (-1) lost opens w1).
    { destruct H as [H1 H3 H4 H5]. split; [done| |done|cbn; by apply log_kept]. cbn. by rewrite (proj2 (Z.eqb_eq _ _) E). }
    destruct (_ =? _)%Z; [|nstep; by eauto]. eapply wp_mono; [by apply fails_keeps|]. intros b w2 (-> & H2 & _ & Hf). by eauto.
  - destruct (Z.eqb_spec (errno w1) EAFNOSUPPORT) as [Ee|_]; [|do 3 nstep; split; [done|]; eexists; split; [exact E|]; by apply (socket_open c _ lost opens w)].
    assert (H1 : net_at (-1) (ret (kernel (syslog w) c) :: lost) opens w1).
    { destruct H as [H1 H3 H4 (new & Hn & He & Hl)]. pose proof (socket_fresh _ Hsane (syslog w) (ai_family p) (Z.lor (ai_socktype p) SOCK_CLOEXEC) (ai_protocol p)) as Hf.
      split; [done| | |].
      - cbn. by rewrite (proj2 (Z.eqb_neq _ _) E), H3.
      - intros [Hx|Hx]%elem_of_cons; [by symmetry in Hx|done].
      - exists ((c, kernel (syslog w) c) :: new). split_and!; [cbn; by rewrite Hn|cbn; by rewrite He|]. constructor.
        + exists [], (ai_family p), (Z.lor (ai_socktype p) SOCK_CLOEXEC), (ai_protocol p), (kernel (syslog w) c), new.
          split_and!; [done|done|exact E|]. rewrite <- Ee. cbn. by rewrite He.
        + eapply Forall_impl; [exact Hl|]. intros g. apply dropped_cons. }
    eapply wp_mono; [by apply fails_keeps|]. intros b w2 (-> & H2 & _ & Hf). by eauto.
Qed.

(** ** Connecting *)

Lemma bindFirst_ok bs s lost opens : forall w, net_at s lost opens w -> wp (bindFirst kernel bs) (fun b w' => net_at s lost opens w') w.
Proof using Hsane.
  induction bs as [|b bs IH]; intros w H; cbn [bindFirst]; [by nstep|]. do 2 nstep. rewrite (na_sock _ _ _ _ _ _ H). nstep.
  eapply wp_mono; [by apply (net_sys_keeps (SysBind s (ai_addr b)) s lost opens)|]. intros r w1 (H1 & _).
  destruct (Z.eqb_spec (ret r) (-1)); cbn [negb]; [by apply IH|]. by nstep.
Qed.

Lemma nonBlock_ok s b lost opens w : net_at s lost opens w -> wp (loopyNetSetNonBlock kernel strerror s b) (fun _ w' => net_at s lost opens w') w.
Proof using Hsane.
  intros H. unfold loopyNetSetNonBlock. nstep. eapply wp_mono; [by apply (net_sys_keeps (SysGetFl s) s lost opens)|]. intros r1 w1 (H1 & _).
  destruct (_ =? _)%Z; [eapply wp_mono; [by apply fails_keeps|]; by intros b1 w2 (_ & ? & _)|]. nstep.
  eapply wp_mono; [by apply (net_sys_keeps (SysSetFl s _) s lost opens)|]. intros r2 w2 (H2 & _).
  destruct (_ =? _)%Z; [eapply wp_mono; [by apply fails_keeps|]; by intros b1 w3 (_ & ? & _)|]. by nstep.
Qed.

Lemma nonBlockEnable_ok (b : bool) s lost opens w : net_at s lost opens w ->
  wp (if b then loopyNetNonBlockEnable kernel strerror else mret true) (fun _ w' => net_at s lost opens w') w.
Proof using Hsane.
  intros H. destruct b; [|by nstep]. unfold loopyNetNonBlockEnable. do 2 nstep. rewrite (na_sock _ _ _ _ _ _ H). by apply nonBlock_ok.
Qed.

Lemma connectSocket_ok p bserv flags s lost opens w : s <> (-1)%Z -> net_at s lost opens w ->
  wp (connectSocket kernel strerror p bserv flags) (fun e w' =>
    match e with Some WalkNone => False | Some _ => net_at s lost opens w' | None => net_at (-1) lost opens w' end) w.
Proof using Hsane.
  intros Hs H. unfold connectSocket. nstep. unfold loopyNetSetReuseAddr. eapply option_keeps; [done|..].
  2:{ intros w1 H1 _ _. cbn [negb]. by nstep. }
  intros w1 H1 _ _. nstep. cbn [negb]. nstep. fold (nonblocking flags). eapply wp_mono; [by apply nonBlockEnable_ok|]. intros ok w2 H2.
  destruct ok; cbn [negb]; [|by nstep]. nstep.
  assert (Hb : wp (match bserv with Some bs => bindFirst kernel bs | None => mret true end) (fun b w' => net_at s lost opens w') w2).
  { destruct bserv as [bs|]; [by apply bindFirst_ok|by nstep]. }
  eapply wp_mono; [exact Hb|]. intros b w3 H3. destruct b; cbn [negb].
  2:{ nstep. eapply wp_mono; [by apply set_error_keeps|]. intros [] w4 (H4 & _). by nstep. }
  do 2 nstep. rewrite (na_sock _ _ _ _ _ _ H3). nstep. eapply wp_mono; [by apply (net_sys_keeps (SysConnect s (ai_addr p)) s lost opens)|]. intros r w4 (H4 & _).
  destruct (_ =? _)%Z; [|by nstep]. do 2 nstep. destruct (_ && _); [by nstep|].
  nstep. eapply wp_mono; [by apply (close_keeps s)|]. intros ? w5 (_ & H5 & _). by nstep.
Qed.

Lemma connectFirst_ok ps bserv flags opens : forall lost w, net_at (-1) lost opens w ->
  wp (connectFirst kernel strerror ps bserv flags) (fun e w' => exists lost s, net_at s lost opens w' /\ (e = WalkEnd -> s <> (-1)%Z)) w.
Proof using Hsane.
  induction ps as [|p ps IH]; intros lost w H; cbn [connectFirst]; [nstep; by eauto|]. nstep. eapply wp_mono; [by apply newFromAddrinfo_ok|].
  intros b w1 [_ Hb]. destruct b; cbn [negb]; [|destruct Hb as [l' Hb]; by apply (IH l')]. destruct Hb as (s & Hs & H1). nstep.
  eapply wp_mono; [by apply (connectSocket_ok p bserv flags s lost opens)|]. intros e w2 H2.
  destruct e as [[]|]; [nstep; by eauto|nstep; by eauto|done|by apply (IH lost)].
Qed.

Lemma connectBody_ok again host port bindAddr flags lost opens w :
  (forall lost w, net_at (-1) lost opens w -> is_Some bindAddr -> wp again (fun b w' => exists lost s, net_at s lost opens w' /\ (b = false -> s = (-1)%Z)) w) ->
  net_at (-1) lost opens w ->
  wp (connectBody kernel strerror gai_strerror again host port bindAddr flags) (fun b w' => exists lost s, net_at s lost opens w' /\ (b = false -> s = (-1)%Z)) w.
Proof using Hsane.
  intros Hagain H. unfold connectBody. nstep. eapply wp_mono; [by apply (net_sys_keeps _ (-1) lost opens)|]. intros r w1 (H1 & _).
  assert (Hfails : forall f w, net_at (-1) lost opens w -> wp (fails strerror f) (fun b w' => exists lost s, net_at s lost opens w' /\ (b = false -> s = (-1)%Z)) w).
  { intros f w' H'. eapply wp_mono; [by apply fails_keeps|]. intros b w2 (-> & H2 & _). by exists lost, (-1)%Z. }
  destruct (_ =? _)%Z; cbn [negb]; [|by apply Hfails]. nstep.
  assert (Hm : wp (match bindAddr with
      | Some b => r ← sys kernel (SysGetaddrinfo (Some b) None AF_UNSPEC SOCK_STREAM 0); mret (ret r, Some (infos r))
      | None => mret (0%Z, None) end) (fun q w' => net_at (-1) lost opens w') w1).
  { destruct bindAddr as [b|]; [|by nstep]. nstep. eapply wp_mono; [by apply (net_sys_keeps _ (-1) lost opens)|]. intros r' w2 (H2 & _). by nstep. }
  eapply wp_mono; [exact Hm|]. intros [q bserv] w2 H2. cbn [fst snd]. destruct (_ =? _)%Z; cbn [negb]; [|by apply Hfails].
  nstep. eapply wp_mono; [by apply (connectFirst_ok _ _ _ opens lost)|]. intros e w3 (lost' & s & H3 & He). nstep.
  assert (Hfin : wp (match e with
      | WalkEnd => mret tt
      | WalkError => loopyNetSocketClose kernel strerror ≫= fun _ => mret tt
      | WalkNone => loopyNetSetError strerror (text "other") ≫= fun _ => loopyNetSocketClose kernel strerror ≫= fun _ => mret tt
      end) (fun _ w' => exists s, net_at s lost' opens w') w3).
  { destruct e; [nstep; by exists s|nstep; eapply wp_mono; [by apply (close_keeps s)|]; intros b w4 (_ & H4 & _); nstep; by eexists|].
    nstep. eapply wp_mono; [by apply set_error_keeps|]. intros [] w4 (H4 & _ & _). nstep.
    eapply wp_mono; [by apply (close_keeps s)|]. intros b w5 (_ & H5 & _). nstep. by eexists. }
  eapply wp_mono; [exact Hfin|]. intros [] w4 [s' H4]. do 2 nstep. rewrite (na_sock _ _ _ _ _ _ H4). unfold LN_SOCK_CLOSED.
  destruct (Z.eqb_spec s' (-1)) as [-> |Hs']; cbn [andb]; [|nstep; by exists lost', s'].
  destruct (bool_decide _ && _) eqn:Eb; [|nstep; by exists lost', (-1)%Z]. apply andb_true_iff in Eb as [Eb%bool_decide_eq_true _]. by apply (Hagain lost').
Qed.

(** ** Servers *)

Definition reuseport_refused s w : Prop :=
  exists r log, syslog w = (SysSetsockopt s SOL_SOCKET SO_REUSEPORT 1, r) :: log /\ ret r <> 0%Z.

Definition server_post (lost opens : list Z) (b : bool) w : Prop :=
  if b then exists s, s <> (-1)%Z /\ net_at s lost opens w
  else net_at (-1) lost opens w \/ exists s, net_at s lost opens w /\ reuseport_refused s w.

Lemma reusePort_ok (b : bool) s lost opens w : net_at s lost opens w ->
  wp (if b then loopyNetSetReusePort kernel strerror else mret true) (fun ok w' => net_at s lost opens w' /\ (ok = false -> reuseport_refused s w')) w.
Proof using Hsane.
  intros H. destruct b; [|by nstep]. unfold loopyNetSetReusePort. eapply option_keeps; [done|..].
  - intros w1 H1 _ _. by nstep.
  - intros w1 H1 (r & E & Hr) _. split; [done|]. intros _. by exists r, (syslog w).
Qed.

Lemma error_close f s lost opens w (Q : bool -> netWorld -> Prop) : net_at s lost opens w -> (forall w', net_at (-1) lost opens w' -> Q false w') ->
  wp (loopyNetSetError strerror f ≫= fun _ => loopyNetSocketClose kernel strerror ≫= fun _ => mret false) Q w.
Proof using Hsane.
  intros H HQ. nstep. eapply wp_mono; [by apply set_error_keeps|]. intros [] w1 (H1 & _). nstep.
  eapply wp_mono; [by apply (close_keeps s)|]. intros b w2 (_ & H2 & _). nstep. by apply HQ.
Qed.

Lemma close_false s lost opens w (Q : bool -> netWorld -> Prop) : net_at s lost opens w -> (forall w', net_at (-1) lost opens w' -> Q false w') ->
  wp (loopyNetSocketClose kernel strerror ≫= fun _ => mret false) Q w.
Proof using Hsane.
  intros H HQ. nstep. eapply wp_mono; [by apply (close_keeps s)|]. intros b w2 (_ & H2 & _). nstep. by apply HQ.
Qed.

Lemma net_listen_ok sa backlog s lost opens w : s <> (-1)%Z -> net_at s lost opens w ->
  wp (loopyNetListen kernel strerror sa backlog) (server_post lost opens) w.
Proof using Hsane.
  intros Hs H. unfold loopyNetListen. do 3 nstep. eapply wp_mono; [by apply reusePort_ok|]. intros ok w1 [H1 Hr1].
  destruct ok; cbn [negb]; [|nstep; right; exists s; split; [done|by apply Hr1]].
  nstep. unfold loopyNetL4LoadBalanceEnable. eapply wp_mono; [by apply reusePort_ok|]. intros ok w2 [H2 Hr2].
  destruct ok; cbn [negb]; [|nstep; right; exists s; split; [done|by apply Hr2]].
  do 2 nstep. rewrite (na_sock _ _ _ _ _ _ H2). nstep. eapply wp_mono; [by apply (net_sys_keeps (SysBind s sa) s lost opens)|]. intros r w3 (H3 & E3 & _).
  destruct (Z.eqb_spec (ret r) (-1)) as [E|E]; [eapply error_close; [done|by left]|].
  do 2 nstep. rewrite (na_sock _ _ _ _ _ _ H3). nstep. eapply wp_mono; [by apply (net_sys_keeps (SysListen s backlog) s lost opens)|]. intros r' w4 (H4 & E4 & _).
  destruct (Z.eqb_spec (ret r') (-1)) as [E'|E']; [eapply error_close; [done|by left]|].
  nstep. by exists s.
Qed.

Lemma v6Only_ok (b : bool) s lost opens w : net_at s lost opens w ->
  wp (if b then loopyNetV6Only kernel strerror else mret true) (fun _ w' => net_at s lost opens w') w.
Proof using Hsane.
  intros H. destruct b; [|by nstep]. unfold loopyNetV6Only. eapply option_keeps; [done|..]; [|done]. intros w1 H1 _ _. by nstep.
Qed.

Lemma serveSocket_ok p af backlog s lost opens w : s <> (-1)%Z -> net_at s lost opens w ->
  wp (serveSocket kernel strerror p af backlog) (server_post lost opens) w.
Proof using Hsane.
  intros Hs H. unfold serveSocket. nstep. eapply wp_mono; [by apply v6Only_ok|]. intros ok w1 H1.
  destruct ok; cbn [negb]; [|eapply close_false; [done|by left]]. nstep. unfold loopyNetSetReuseAddr. eapply option_keeps; [done|..].
  - intros w2 H2 _ _. nstep. cbn [negb]. by apply (net_listen_ok _ _ s).
  - intros w2 H2 _ _. cbn [negb]. eapply close_false; [done|by left].
Qed.

Lemma serveFirst_ok ps af backlog opens : forall lost w, net_at (-1) lost opens w ->
  wp (serveFirst kernel strerror ps af backlog) (fun b w' => exists lost, server_post lost opens b w') w.
Proof using Hsane.
  induction ps as [|p ps IH]; intros lost w H; cbn [serveFirst].
  { eapply wp_mono; [by apply fails_keeps|]. intros b w1 (-> & H1 & _). exists lost. by left. }
  nstep. eapply wp_mono; [by apply newFromAddrinfo_ok|]. intros b w1 [_ Hb]. destruct b; cbn [negb]; [|destruct Hb as [l' Hb]; by apply (IH l')].
  destruct Hb as (s & Hs & H1). eapply wp_mono; [by apply (serveSocket_ok p af backlog s lost opens)|]. intros b w2 H2. by exists lost.
Qed.

Lemma socketNew_ok domain lost opens w : net_at (-1) lost opens w ->
  wp (loopyNetSocketNew kernel strerror domain) (fun b w' => if b : bool then exists s, s <> (-1)%Z /\ net_at s lost opens w' else net_at (-1) lost opens w') w.
Proof using Hsane.
  intros H. unfold loopyNetSocketNew, set_sock. do 4 nstep. set (c := SysSocket _ _ _).
  destruct (Z.eqb_spec (ret (kernel (syslog w) c)) (-1)) as [E|E].
  - eapply wp_mono; [apply (fails_keeps _ (-1) lost opens)|by intros b w' (-> & ? & _)]. destruct H as [H1 H3 H4 H5]. split; [exact E| |done|cbn; by apply log_kept].
    cbn. by rewrite (proj2 (Z.eqb_eq _ _) E).
  - nstep. unfold loopyNetSetReuseAddr. eapply option_keeps; [by apply (socket_open c _ lost opens w)|..].
    + intros w1 H1 _ _. nstep. cbn [negb]. do 2 nstep. unfold loopyNetSetDisableSIGPIPEOnWrite. do 3 nstep. eauto.
    + intros w1 H1 _ _. cbn [negb]. by eapply close_false.
Qed.

Lemma tcpServer_ok port bindAddr af backlog lost opens w : net_at (-1) lost opens w ->
  wp (_loopyNetTcpServer kernel strerror gai_strerror port bindAddr af backlog) (fun b w' => exists lost, server_post lost opens b w') w.
Proof using Hsane.
  intros H. unfold _loopyNetTcpServer. nstep. eapply wp_mono; [by apply (net_sys_keeps _ (-1) lost opens)|]. intros r w1 (H1 & _).
  destruct (_ =? _)%Z; cbn [negb]; [by apply (serveFirst_ok _ _ _ opens lost)|].
  eapply wp_mono; [by apply fails_keeps|]. intros b w2 (-> & H2 & _). exists lost. by left.
Qed.

Lemma unixServer_ok path perm backlog lost opens w : net_at (-1) lost opens w ->
  wp (loopyNetUnixServer kernel strerror path perm backlog) (server_post lost opens) w.
Proof using Hsane.
  intros H. unfold loopyNetUnixServer. nstep. eapply wp_mono; [by apply socketNew_ok|]. intros b w1 Hb. destruct b; cbn [negb]; [|nstep; by left].
  destruct Hb as (s & Hs & H1). nstep. eapply wp_mono; [by apply (net_listen_ok _ _ s)|]. intros b w2 Hb. destruct b; cbn [negb]; [|by nstep].
  destruct Hb as (s' & Hs' & H2). destruct (negb (perm =? 0)%Z).
  - do 2 nstep. eapply wp_mono; [by apply (net_sys_keeps (SysChmod (sun_path Ascii.zero path) perm) s' lost opens)|]. intros r w3 (H3 & E3 & _). do 2 nstep.
    by exists s'.
  - do 3 nstep. by exists s'.
Qed.
End Keep.

Section Claims.
Variable kernel : list (syscall * sysret) -> syscall -> sysret.
Variables strerror gai_strerror : Z -> cstr.
Hypothesis Hsane : sane_kernel kernel.
Implicit Types (w : netWorld).

(** What is open after a call that began in [w]: the handle's socket, the sockets
    lost meanwhile, and what was open before.  Lost are only sockets that were made
    while [errno] was [EAFNOSUPPORT]. *)
Definition opened_since w w' (lost : list Z) : Prop :=
  open_socks (syslog w') = (if (sock (net w') =? -1)%Z then [] else [sock (net w')]) ++ lost ++ open_socks (syslog w) /\
  exists new, syslog w' = new ++ syslog w /\ Forall (dropped (errno w) new) lost /\
    (errno w <> EAFNOSUPPORT -> Forall (fun x => new_errno (snd x) <> Some EAFNOSUPPORT) new -> lost = []).

Lemma at_opened s lost w w' : net_at (errno w) (syslog w) s lost (open_socks (syslog w)) w' -> opened_since w w' lost.
Proof using Type.
  intros [<- Ho _ (new & Hn & _ & Hl)]. split; [done|]. exists new. split_and!; [done..|]. intros He Hall.
  destruct Hl as [|g lost Hg _]; [done|]. by apply (dropped_none _ _ _ He Hall) in Hg.
Qed.

(** What was done on one system, told in both ways: [P] of the worlds, [Q] of the calls. *)
Lemma wp_wpt {A} (m : prog netWorld A) P Q w : wp m P w -> wpt m Q w ->
  wp m (fun a w' => exists new, syslog w' = new ++ syslog w /\ P a w' /\ Q a new w') w.
Proof using Type. unfold wpt, wp. destruct (m w) as [[a w']|]; [|done]. intros HP (n & E & _ & HQ). by exists n. Qed.

(** C27. Connecting over TCP from a handle without a socket, when [close] works
    and new sockets are not open ones.  The answer is false only when a name is not
    found, which was the last call.  With true the handle ends with a socket, and then the
    last call connected this to an address that the resolver gave for the host and the text of
    the port, or began to in non-blocking mode, and before it the socket was bound to one
    of the addresses to bind to, when these were demanded ([reached]); or it ends without
    one, and then all that could be tried was refused: each address of the host has no socket or
    refused the connection, or a socket was refused an option or every address to
    bind to ([gave_up]).  The answer is true then, too, where the header documents
    false ([net_connect_refused_true]).  What is open besides is what
    was open before and the sockets that were lost: made while [errno] was
    [EAFNOSUPPORT], by this or by an earlier call ([net_connect_unsupported_lost]),
    and none when neither [errno] nor any call says so. *)
Theorem net_connect host port bindAddr flags w : sock (net w) = (-1)%Z ->
  wp (loopyNetTcpGenericConnect kernel strerror gai_strerror host port bindAddr flags) (fun b w' => exists new, syslog w' = new ++ syslog w /\
    (exists lost, opened_since w w' lost) /\
    if b : bool then
      sock (net w') = (-1)%Z /\ gave_up (errno w) host port (demanded bindAddr flags) new \/
      sock (net w') <> (-1)%Z /\ reached host port (demanded bindAddr flags) flags (sock (net w')) new w'
    else sock (net w') = (-1)%Z /\ not_found host port bindAddr new) w.
Proof using Hsane.
  intros H%net_at_start. eapply wp_mono; [apply wp_wpt; [|by apply connect_trace_ok]|].
  - eapply (connectBody_ok kernel strerror gai_strerror Hsane (errno w) (syslog w)); [|exact H]. intros lost w1 H1 _.
    eapply connectBody_ok; [exact Hsane| |exact H1]. by intros ? ? ? [? [=]].
  - intros b w' (new & E & (lost & s & Hn & Hs) & Ht). exists new. split; [done|]. split; [exists lost; by eapply at_opened|].
    destruct b; [exact Ht|]. split; [|exact Ht]. rewrite (na_sock _ _ _ _ _ _ Hn). by apply Hs.
Qed.

(** How making a server ends: with a socket; or there is none; or the kernel refused to
    share the port, and the handle keeps its socket. *)
Definition serves (b : bool) w : Prop :=
  if b then sock (net w) <> (-1)%Z else sock (net w) = (-1)%Z \/ reuseport_refused (sock (net w)) w.

Lemma server_serves lost (b : bool) w w' : server_post (errno w) (syslog w) lost (open_socks (syslog w)) b w' ->
  opened_since w w' lost /\ serves b w'.
Proof using Type.
  intros H. destruct b; cbn in *.
  - destruct H as (s & Hs & Hn). pose proof (na_sock _ _ _ _ _ _ Hn) as <-. split; [by eapply at_opened|done].
  - destruct H as [Hn|(s & Hn & Hl)]; pose proof (na_sock _ _ _ _ _ _ Hn) as <-; (split; [by eapply at_opened|auto]).
Qed.

(** C28. Making a server from a handle without a socket, when [close] works and
    new sockets are not open ones.  Success: the handle's socket was bound - to one
    of the addresses that the resolver gives, or to the path - and then listens with the
    backlog; on a path its permissions are set last, if some are given.  Failure: the
    name was not found, no address had a socket, or an option, the binding or the listening was
    refused; the handle has no socket, except when the kernel refused to share the port.
    On a path nothing else is left open; over TCP only the sockets that were lost, made
    while [errno] was [EAFNOSUPPORT]. *)
Theorem net_server port bindAddr af path perm backlog w : sock (net w) = (-1)%Z ->
  wp (_loopyNetTcpServer kernel strerror gai_strerror port bindAddr af backlog) (fun b w' => exists new, syslog w' = new ++ syslog w /\
    (exists lost, opened_since w w' lost) /\ serves b w' /\ tcp_served kernel port bindAddr af backlog w b new w') w /\
  wp (loopyNetUnixServer kernel strerror path perm backlog) (fun b w' => exists new, syslog w' = new ++ syslog w /\
    opened_since w w' [] /\ serves b w' /\ unix_served path perm backlog b new w') w.
Proof using Hsane.
  intros H%net_at_start. split; (eapply wp_mono; [apply wp_wpt|]).
  - by eapply tcpServer_ok.
  - by apply tcpServer_trace.
  - intros b w' (new & E & [lost Hp] & Ht). apply server_serves in Hp as [Ho Hs]. exists new. split_and!; [done|by exists lost|done|done].
  - by eapply unixServer_ok.
  - by apply unixServer_trace.
  - intros b w' (new & E & Hp & Ht). apply server_serves in Hp as [Ho Hs]. by exists new.
Qed.
End Claims.

(** ** Accepting *)

Section Accept.
Variable kernel : list (syscall * sysret) -> syscall -> sysret.
Variables strerror : Z -> cstr.
Implicit Types (w : netWorld).

(** The calls of an accept that were interrupted. *)
Definition interrupted (call : Z -> syscall) (s : Z) (x : syscall * sysret) : Prop := fst x = call s /\ ret (snd x) = (-1)%Z.

(** An accept passes over interruptions: it answers the first connection, with its
    address, or fails with the first other error; all calls before it were interrupted
    ones; and it does answer when there are fewer interruptions than rounds
    [N] bounds. *)
Theorem net_accept call field (N : list (syscall * sysret) -> nat) rounds w :
  (forall log s, ret (kernel log (call s)) = (-1)%Z -> is_Some (new_errno (kernel log (call s)))) ->
  (forall log s, ret (kernel log (call s)) = (-1)%Z -> new_errno (kernel log (call s)) = Some EINTR -> N ((call s, kernel log (call s)) :: log) < N log) ->
  N (syslog w) < rounds ->
  wp (acceptRetry kernel strerror rounds call field) (fun a w' => exists r log, let s := sock (net w) in
    sock (net w') = s /\ syslog w' = (call s, r) :: log ++ syslog w /\ Forall (interrupted call s) log /\
    match a with
    | Accepted fd from => fd = ret r /\ from = addr r /\ fd <> (-1)%Z
    | AcceptFailed => ret r = (-1)%Z /\ errno w' <> EINTR
    | AcceptRetrying => False
    end) w.
Proof using Type.
  intros Herr HN. revert w. induction rounds as [|rounds IH]; intros w Hlt; [lia|]. cbn [acceptRetry]. do 4 nstep.
  set (s := sock (net w)). set (r := kernel (syslog w) (call s)). destruct (Z.eqb_spec (ret r) (-1)) as [E|E].
  2:{ nstep. exists r, []. cbn. by split_and!. }
  do 2 nstep. destruct (Herr (syslog w) s E) as [e He]. fold r in He. rewrite He. cbn [errno default].
  match goal with |- context [(errno ?x =? EINTR)%Z] => set (w1 := x) end. change (errno w1) with e. destruct (Z.eqb_spec e EINTR) as [-> |Hne].
  - specialize (HN (syslog w) s E He). fold r in HN. eapply wp_mono; [apply (IH w1)|].
    + change (syslog w1) with ((call s, r) :: syslog w). lia.
    + intros a w' (r' & log & Es & El & Hl & Ha). change (sock (net w1)) with s in *. exists r', (log ++ [(call s, r)]). split_and!; [done| | |done].
      * rewrite El. change (syslog w1) with ((call s, r) :: syslog w). by rewrite <- app_assoc.
      * apply Forall_app. split; [done|]. by repeat constructor.
  - unfold loopyNetSetError. do 3 nstep. exists r, []. by split_and!.
Qed.
End Accept.

(** ** Options *)

Section Options.
Variable kernel : list (syscall * sysret) -> syscall -> sysret.
Variables strerror : Z -> cstr.
Implicit Types (w : netWorld).

(** Changing the blocking mode writes back the flags that were read with no bit changed but
    that one, and answers whether both calls worked. *)
Theorem net_nonblock s (b : bool) w :
  wp (loopyNetSetNonBlock kernel strerror s b) (fun ok w' =>
    if ok : bool then exists flags r1 r2, syslog w' = (SysSetFl s flags, r2) :: (SysGetFl s, r1) :: syslog w /\
      ret r1 <> (-1)%Z /\ ret r2 <> (-1)%Z /\ forall i, (0 <= i)%Z -> Z.testbit flags i = if (i =? 11)%Z then b else Z.testbit (ret r1) i
    else exists c r log, syslog w' = (c, r) :: log /\ ret r = (-1)%Z) w.
Proof using Type.
  unfold loopyNetSetNonBlock, fails, loopyNetSetError. do 2 nstep. set (r1 := kernel _ _). destruct (Z.eqb_spec (ret r1) (-1)) as [E1|E1].
  { do 3 nstep. cbn. eauto 6. }
  do 2 nstep. set (flags := if b then _ else _). set (r2 := kernel _ _). destruct (Z.eqb_spec (ret r2) (-1)) as [E2|E2].
  { do 3 nstep. cbn. eauto 6. }
  nstep. exists flags, r1, r2. split_and!; [done..|]. intros i Hi. unfold flags, O_NONBLOCK. change 2048%Z with (2 ^ 11)%Z. destruct b.
  - rewrite Z.lor_spec, Z.pow2_bits_eqb by lia. rewrite (Z.eqb_sym 11 i). destruct (i =? 11)%Z; [by rewrite orb_true_r|by rewrite orb_false_r].
  - rewrite Z.ldiff_spec, Z.pow2_bits_eqb by lia. rewrite (Z.eqb_sym 11 i). destruct (i =? 11)%Z; [by rewrite andb_false_r|by rewrite andb_true_r].
Qed.

(** The send timeout reaches the kernel with its value, in seconds and microseconds that
    are in range. *)
Theorem net_send_timeout ms w : in64 ms ->
  wp (loopyNetSendTimeout kernel strerror ms) (fun ok w' => exists sec usec r, syslog w' = (SysSndTimeo (sock (net w)) sec usec, r) :: syslog w /\
    (sec * 1000000 + usec = ms * 1000)%Z /\ (0 <= usec < 1000000)%Z /\ (0 <= sec < 2 ^ 63)%Z /\ (ok = true <-> ret r <> (-1)%Z)) w.
Proof using Type.
  intros Hms. unfold loopyNetSendTimeout, fails, loopyNetSetError. do 4 nstep. set (r := kernel _ _).
  pose proof (Z.div_mod ms 1000 ltac:(done)). pose proof (Z.mod_pos_bound ms 1000 ltac:(done)). unfold in64, w64 in Hms.
  assert ((0 <= ms / 1000 < 2 ^ 63)%Z) by (split; [apply Z.div_pos; lia|apply Z.div_lt_upper_bound; lia]).
  destruct (Z.eqb_spec (ret r) (-1)) as [E|E]; repeat nstep; exists (ms / 1000)%Z, ((ms mod 1000) * 1000)%Z, r; (split_and!; [done|lia..|]); by split.
Qed.
End Options.

(** ** Runs *)

(** A name has an IPv6 and an IPv4 address; [on6] answers what concerns the first, [set] the
    socket options; everything else works. *)
Section Demo.
Variables on6 set : syscall -> option sysret.

Definition plain (r : Z) : sysret := SysRet r None [] (SockOther 0) 0.
Definition failed (e : Z) : sysret := SysRet (-1) (Some e) [] (SockOther 0) 0.
Definition addrs : list addrinfo := [AddrInfo AF_INET6 SOCK_STREAM 6 (SockIn6 1 80); AddrInfo AF_INET SOCK_STREAM 6 (SockIn 2 80)].
Definition next_fd (log : list (syscall * sysret)) : Z := Z.succ (foldr Z.max 2 (open_socks log))%Z.

Definition demo_kernel (log : list (syscall * sysret)) (c : syscall) : sysret :=
  match c with
  | SysGetaddrinfo _ _ _ _ _ => SysRet 0 None addrs (SockOther 0) 0
  | SysSocket d _ _ => match (if (d =? AF_INET6)%Z then on6 c else None) with Some r => r | None => plain (next_fd log) end
  | SysConnect _ (SockIn6 _ _) => default (plain 0) (on6 c)
  | SysSetsockopt _ _ _ _ | SysSetFl _ _ => default (plain 0) (set c)
  | _ => plain 0
  end.
End Demo.

Definition no_text (e : Z) : cstr := [].
Definition demo_start (s : Z) : netWorld := NetWorld (Net [] LOOPY_NET_SERVER_NONE s) 0 [].
Definition outcome {A} (m : prog netWorld A) (w : netWorld) : option (A * Z * list Z) :=
  (fun x => (fst x, sock (net (snd x)), open_socks (syslog (snd x)))) <$> m w.

Definition ECONNREFUSED : Z := 111.
Definition ok_call (c : syscall) : option sysret := None.
(** The IPv6 address refuses. *)
Definition refuse6 (c : syscall) : option sysret := match c with SysConnect _ _ => Some (failed ECONNREFUSED) | _ => None end.

Lemma next_fd_above log : Forall (fun x => (x < next_fd log)%Z) (open_socks log).
Proof.
  unfold next_fd. induction (open_socks log) as [|x l IH]; constructor; [cbn; lia|]. eapply Forall_impl; [exact IH|]. intros y Hy. cbn in *. lia.
Qed.

Lemma next_fd_positive log : (3 <= next_fd log)%Z.
Proof. unfold next_fd. induction (open_socks log) as [|x l IH]; cbn in *; lia. Qed.

Lemma demo_sane : sane_kernel (demo_kernel refuse6 ok_call).
Proof.
  split.
  - done.
  - intros log d t p. cbn [demo_kernel refuse6]. assert (H : next_fd log ∉ open_socks log).
    { intros Hx. pose proof (next_fd_above log) as Ha. rewrite Forall_forall in Ha. specialize (Ha _ Hx). lia. }
    destruct (_ =? _)%Z; exact H.
Qed.

(** The second address is connected, the socket of the first was closed. *)
Lemma net_connect_run : outcome (loopyNetTcpConnect (demo_kernel refuse6 ok_call) no_text no_text (text "host") 80)
  (NetWorld (Net [] 0 (-1)) 0 [(SysSocket 2 1 0, plain 7)]) = Some (true, 8, [8; 7])%Z.
Proof. by vm_compute. Qed.

(** Socket 7 is open before. *)
Definition demo_world : netWorld := NetWorld (Net [] 0 (-1)) 0 [(SysSocket 2 1 0, plain 7)].

Lemma net_connect_witness :
  wp (loopyNetTcpGenericConnect (demo_kernel refuse6 ok_call) no_text no_text (text "host") 80 None LOOPY_NET_CONNECT_NONE)
    (fun b w' => exists new, syslog w' = new ++ syslog demo_world /\ (b = true -> sock (net w') <> (-1)%Z ->
       reached (text "host") 80 None LOOPY_NET_CONNECT_NONE (sock (net w')) new w')) demo_world.
Proof.
  eapply wp_mono; [apply (net_connect (demo_kernel refuse6 ok_call) no_text no_text demo_sane (text "host") 80 None LOOPY_NET_CONNECT_NONE demo_world); by vm_compute|].
  intros b w' (new & E & _ & Hb). exists new. split; [exact E|]. intros -> Hs. destruct Hb as [[Hn _]|[_ Hr]]; [by destruct Hs|exact Hr].
Defined.

Lemma net_server_witness :
  wp (_loopyNetTcpServer (demo_kernel refuse6 ok_call) no_text no_text 80 None AF_INET6 128)
    (fun b w' => exists new, syslog w' = new ++ syslog demo_world /\
       serves b w' /\ tcp_served (demo_kernel refuse6 ok_call) 80 None AF_INET6 128 demo_world b new w') demo_world.
Proof.
  destruct (net_server (demo_kernel refuse6 ok_call) no_text no_text demo_sane 80 None AF_INET6 [] 0 128 demo_world) as [H _]; [by vm_compute|].
  eapply wp_mono; [exact H|]. intros b w' (new & E & _ & Hs & Ht). exists new. split; [exact E|]. by split.
Defined.

Lemma net_send_timeout_witness :
  wp (loopyNetSendTimeout (demo_kernel ok_call ok_call) no_text 1500)
    (fun ok w' => exists sec usec, (sec * 1000000 + usec = 1500 * 1000)%Z /\ (0 <= usec < 1000000)%Z) (demo_start 3).
Proof.
  eapply wp_mono; [apply (net_send_timeout _ no_text 1500); by split|]. intros ok w' (sec & usec & r & _ & H1 & H2 & _). by exists sec, usec.
Defined.

(** One interruption, then a connection. *)
Definition accept_kernel (log : list (syscall * sysret)) (c : syscall) : sysret :=
  match c, log with SysAccept _, [] => failed EINTR | _, _ => SysRet 5 None [] (SockIn 9 4000) 0 end.

Lemma net_accept_witness :
  wp (loopyNetGenericAccept accept_kernel no_text 2) (fun a w' => a <> AcceptRetrying) (demo_start 3).
Proof.
  eapply wp_mono; [apply (net_accept accept_kernel no_text SysAccept (text "accept") (fun log => match log with [] => 1 | _ => 0 end))|].
  - intros [] s; [by eexists|done].
  - intros [] s; cbn; [lia|done].
  - cbn. lia.
  - intros a w' (r & log & _ & _ & _ & Ha) ->. exact Ha.
Defined.

(** *** What goes wrong *)

(** Nothing could be connected: the answer is success, without a socket. *)
Lemma net_connect_refused_true :
  outcome (loopyNetTcpConnect (demo_kernel refuse6 (fun c => Some (failed 1))) no_text no_text (text "host") 80) (demo_start (-1)) = Some (true, (-1)%Z, []).
Proof. by vm_compute. Qed.

(** A machine without IPv6: the socket of the IPv4 address is made, taken for
    unsupported because of the [errno] of the first, and lost. *)
Lemma net_connect_unsupported_lost :
  outcome (loopyNetTcpConnect (demo_kernel (fun c => match c with SysSocket _ _ _ => Some (failed EAFNOSUPPORT) | _ => None end) ok_call)
    no_text no_text (text "host") 80) (demo_start (-1)) = Some (true, -1, [3])%Z.
Proof. by vm_compute. Qed.

(** A handle initialised with zeros, as the header shows: when no socket can be
    made, descriptor 0 is closed. *)
Lemma net_connect_closes_stdin :
  (fun x => fst <$> head (syslog (snd x))) <$>
    loopyNetTcpConnect (fun log c => match c with SysSocket _ _ _ => failed 24 | _ => demo_kernel ok_call ok_call log c end)
      no_text no_text (text "host") 80 (demo_start 0) = Some (Some (SysClose 0)).
Proof. by vm_compute. Qed.

(** A port of six digits is another port. *)
Lemma net_port_cut : port_text 123456 = text "12345".
Proof. by vm_compute. Qed.

(** Sharing the port is refused: the socket stays open. *)
Lemma net_server_refused_open :
  outcome (loopyNetTcp4Server (demo_kernel ok_call (fun c => match c with SysSetsockopt _ _ n _ => if (n =? SO_REUSEPORT)%Z then Some (failed 92) else None | _ => None end))
    no_text no_text 80 None 128) (NetWorld (Net [] LOOPY_NET_SERVER_REUSEPORT (-1)) 0 []) = Some (false, 3, [3])%Z.
Proof. by vm_compute. Qed.

(** Non-blocking mode is refused: the socket stays open. *)
Lemma net_unix_refused_open :
  outcome (loopyNetUnixNonBlockConnect (demo_kernel ok_call (fun c => match c with SysSetFl _ _ => Some (failed 22) | _ => None end))
    no_text Ascii.zero (text "/tmp/s")) (demo_start (-1)) = Some (false, 3, [3])%Z.
Proof. by vm_compute. Qed.

(** The name of a long path ends with a byte that was never written. *)
Lemma net_unix_path_junk last path : Ascii.eqb last Ascii.zero = false -> 107 <= length path -> sun_path last path = take 107 path ++ [last].
Proof.
  intros Hl Hp. unfold sun_path. rewrite Hl, orb_false_r. by rewrite (proj2 (Nat.ltb_ge _ _)) by (rewrite length_take; lia).
Qed.
